(* ===== verification/_CoqProject ===== *)
-Q . S2P
Prelude.v
Interfaces.v
SmallHash.v
LruList.v
LruCache.v
LruInstance.v
FdTable.v
Bytes.v
MallocHeap.v
Hash.v
KvStore.v
KvInstance.v
RamCache.v
RamInstance.v
RingBuffer.v
StringUtil.v
StdMap.v
Xattr.v
ChunkDetector.v
Ingestion.v
Chunking.v
Stages.v
Pipeline.v
Ingested.v
Completion.v
Pack.v
PackStream.v
Receiver.v
Session.v
Publish.v
Gateway.v
NfsConst.v
Xdr.v
FileHandle.v
Rpc.v
Callback.v
NfsObject.v
NfsServer.v
NfsOps.v
NfsSafe.v
NfsAttr.v
NfsReaddir.v
NfsState.v
NfsReplay.v
NfsWitness.v
