(* ===== verification/Prelude.v ===== *)
(** * CernVM-FS, verified

    This library models parts of CernVM-FS (src/cvmfs) as Rocq definitions and
    proves what makes them correct.  The definitions are translated from the
    C++ sources function by function and can be evaluated.

    ** The program and its parts

    CernVM-FS is a read-only network file system.  Objects are named by the hash
    of their contents, fetched over HTTP, and kept in a cache.  Modelled are four
    groups of components.

    The in-memory cache.  [RamCacheManager] (cache_ram.cc) keeps file contents in
    two [MemoryKvStore]s (kvstore.cc) and open files in an [FdTable] (fd_table.h).
    A store keeps a [MemoryBuffer] per content hash ([shash::Any], crypto/hash.cc)
    in an [LruCache] (lru.h), which consists of a [SmallHashFixed] (smallhash.h)
    and a linked list in a fixed pool; the contents live in memory from libc or
    from a [MallocHeap] (malloc_heap.cc) that is compacted when it fills up.

    The NFS export.  [RpcServer] (nfs4/rpc.cc) reads records from connections,
    executes the calls in worker threads and sends replies.  Its program is
    [Nfs4Server] (nfs4/nfs4_server.cc), which decodes the operations of a COMPOUND
    with [XdrReader] (nfs4/xdr.cc), finds objects by [FileHandle] (nfs4/filehandle.cc)
    in a [Backend] (nfs4/backend.h), keeps tables of clients, open files and
    delegations, and calls clients back by [CallbackClient] (nfs4/callback.cc).

    Ingesting files.  The files that are published pass through the tasks of a
    pipeline (ingestion/): [TaskRead] reads them in blocks, [TaskChunk] cuts them
    into chunks where an [Xor32Detector] (ingestion/chunk_detector.cc) finds cut
    marks, [TaskCompress] and [TaskHash] compress and hash the chunks, [TaskWrite]
    hands them to an uploader and registers those that are stored, [TaskRegister]
    reports the files that are complete.  [GatewayUploader] (upload_gateway.cc) is
    the uploader that feeds the next group.

    Publishing through a gateway.  A [SessionContext] (session_context.cc)
    collects new objects in [ObjectPack]s (pack.cc), whose serialised form a
    thread uploads; on the gateway's side a [PayloadProcessor]
    (receiver/payload_processor.cc) takes the stream apart with an
    [ObjectPackConsumer], checks the hashes and stores the objects.

    Besides these: the string functions (util/string.cc), the extended
    attributes of the file catalogs (xattr.cc), and the [RingBuffer] (ring_buffer.cc) of
    the streaming cache manager.

    ** Files

    - Prelude: machine integers, the outcome monad, lists by integer index,
      tactics and hints.  Bytes: byte strings, endianness, memory areas.
      Interfaces: what components promise each other, as type classes
      ([BoundedMap] is implemented by SmallHash and used by LruCache).
      StdMap: [std::map] as an ordered association list over the class [KeyOrder].
    - SmallHash (smallhash.h, util/prng.h), LruList and LruCache (lru.h),
      FdTable (fd_table.h), MallocHeap (malloc_heap.cc), Hash (crypto/hash.cc),
      KvStore (kvstore.cc), RamCache (cache_ram.cc).  LruInstance, KvInstance and
      RamInstance put the components together over [SmallHashFixed] and hold the
      examples.
    - StringUtil (util/string.cc), Xattr (xattr.cc), RingBuffer (ring_buffer.cc).
    - ChunkDetector (ingestion/chunk_detector.cc), Ingestion (the items,
      [TaskRead], [TaskChunk]) and Chunking (their theorems); Stages (compressors
      and the later tasks), Pipeline (the theorems on each task), Ingested (the
      pipeline as a whole), Completion (the callbacks of several uploads).
    - Pack (pack.cc): buckets, packs, producer and consumer; PackStream: the
      theorems about the stream.  Receiver (receiver/payload_processor.cc),
      Session (session_context.cc).  Publish puts session, stream and receiver
      together, Gateway (upload_gateway.cc) also the pipeline.
    - NfsConst (nfs4/nfs4_const.h), Xdr (nfs4/xdr.cc), FileHandle
      (nfs4/filehandle.cc), Rpc (nfs4/rpc.cc; class [RpcProgram] with laws),
      Callback (nfs4/callback.cc).
    - NfsObject, NfsServer and NfsOps (nfs4/nfs4_server.cc): helpers and objects;
      state and critical sections; operations and COMPOUND.  NfsSafe, NfsAttr,
      NfsReaddir, NfsState and NfsReplay hold the theorems about them, NfsWitness
      the examples.

    Names of definitions are those of the source.  A function with side effects
    takes the state of its object and returns the new one.

    ** How the code is represented

    Integers are [Z], reduced at their width where the code can overflow ([u32],
    [i64], ...).  Strings and memory are lists of bytes.  [outcome] is the result
    of code that can go wrong: [AssertFailed] for a failing [assert], [OutOfBounds]
    for an access outside of an array or buffer, [Deadlock] for locking a mutex
    that is held, [OutOfFuel] for a loop that does not end within the fuel.  A
    theorem that says [f x = Ret y] therefore says that none of these happens.
    Threads are steps on shared state, one for each critical section, in any
    order (Rpc, NfsState, Session).  A task of the pipeline takes its blocks in any
    order that keeps the blocks of one chunk in sequence, which is what the tubes
    between the tasks guarantee; [keyed_run] of Pipeline lifts a statement about
    one chunk to all such orders.  Chunks, which the code knows by address, have
    the number of their creation, and an upload handle that of its chunk.  Objects with owners, such as the buckets of
    packs, live on a heap from which they are removed when they are deleted, so
    that a second deletion or a use afterwards is an outcome of its own.

    ** What is shown

    - Refinement: SmallHash answers as a finite map, LruCache as a list from the
      least to the most recently used entry, FdTable as a map of descriptors,
      KvStore as a store of reference-counted objects, RamCache as a cache of
      files with descriptors, RingBuffer as a queue of objects; each for all sequences of operations.
    - MallocHeap: allocation appends, compaction keeps exactly the reserved
      blocks and reports every move.
    - Ingestion: the rolling hash of the detector finds the first cut mark of a
      window-wise definition; the chunks of a file are within the size limits and
      make up the file, whatever the blocks; each chunk is uploaded compressed,
      under the hash of the compressed data; every file is reported once with all
      of its chunks; and what is reported is stored behind the gateway with these
      contents.
    - Publishing: no bucket is owned twice, leaked or used after its deletion;
      whatever the interleaving of buckets and uploads, every committed object is
      uploaded once and in order, [CommitBucket] and [Finalize] succeed and account
      for every byte; the request has the announced size, and the receiver stores
      each object with its contents and under its hash, however the stream is cut.
    - Round trips: object packs, XDR items, file handles, RPC fragments, callbacks, hashes,
      Base64, key-value files, splitting and joining, attribute lists, saved
      descriptor tables; GETATTR and VERIFY.
    - Safety on foreign bytes: every RPC record gets the right reply or none,
      every COMPOUND is answered with a well-formed result, attribute lists from
      a catalog are decoded without leaving the buffer.
    - NFS state: an invariant over all interleavings, each operation of a
      COMPOUND is at most one step, retransmitted OPEN and CLOSE get the first
      reply, reading a directory page by page is complete.
    - Deviations of the code from what it means to do, each as a theorem about
      the model, such as a full [SmallHashDynamic], a lost update in
      [MemoryKvStore], a file that two callbacks both dispatch, or a corrupt payload that the receiver reports as a success.

    ** Bounds and fuel

    Loops that are not structural take fuel that the caller computes from the
    state (the capacity of a table, the used bytes of a heap, the length of the
    input), and the theorems show that it is enough.  The dynamic table is treated
    for up to 2^30 operations, below the limit of its 32 bit counters; the NFS
    state for as many steps as there are 64 bit stateids.  Objects in packs are
    shorter than 2^32 bytes in the theorems about the stream, because the consumer
    counts in 32 bits, and buckets have at most 2^60 bytes, so that doubling their
    capacity does not overflow.  [CommitBucket] of a session calls itself at most
    once: two units of fuel are enough.  Files that are ingested have less than
    2^62 bytes and their blocks less than 2^32, the range of the sizes in the code;
    the loop of [TaskCompress] has fuel for as many output blocks as the compressor's
    law bounds.

    ** Parameters

    Code outside of src/ is a parameter: libc's [malloc] (an allocator with fresh
    addresses), the hash functions of nettle, [inet_pton], the [Backend] of the
    NFS server, sockets as lists of incoming bytes, the clock as arguments.
    Addresses that [new] returns are arguments, unused ones in the theorems.  The
    uploader of the receiver is represented by the calls that it gets.  libcurl
    calls [SendCB] with buffers of any size.  zlib's [deflate] is a parameter of
    [Zlib_Deflate]; the class [CompressorLaws] holds what the pipeline relies on, and
    [zlib_laws] derives it from the documented behaviour of [deflate].

    ** Not modelled

    Catalogs, quota and history live in SQLite; downloads, uploads and DNS are
    callbacks of libcurl and c-ares; the FUSE client, the publishing tools and the
    other cache managers consist of system calls; decompression and signatures are
    libraries.  Of the ingestion pipeline, the scrubbing of files, the throttling
    of [TaskRead] by memory watermarks (which only delays), the memory of the blocks
    (item_mem.cc) and the [StaticOffsetDetector] are left out; of the gateway's
    uploader, the reading of its configuration.  Of the modelled files, statistics counters, logging, thread start
    and shutdown and the formatting of times and floating point numbers are left
    out. *)

From stdpp Require Import base list numbers gmap.
From Corelib Require Import SpecFloat.

Open Scope Z_scope.

(** ** Machine integers

    A [w]-bit unsigned integer is a [Z] reduced modulo [2^w]; the signed
    types use the two's complement representative. *)

Definition u8 (z : Z) : Z := z mod 2 ^ 8.
Definition u16 (z : Z) : Z := z mod 2 ^ 16.
Definition u32 (z : Z) : Z := z mod 2 ^ 32.
Definition u64 (z : Z) : Z := z mod 2 ^ 64.
Definition i32 (z : Z) : Z := (z + 2 ^ 31) mod 2 ^ 32 - 2 ^ 31.
Definition i64 (z : Z) : Z := (z + 2 ^ 63) mod 2 ^ 64 - 2 ^ 63.

Definition is_u8 (z : Z) : Prop := 0 ≤ z < 2 ^ 8.
Definition is_u16 (z : Z) : Prop := 0 ≤ z < 2 ^ 16.
Definition is_u32 (z : Z) : Prop := 0 ≤ z < 2 ^ 32.
Definition is_u64 (z : Z) : Prop := 0 ≤ z < 2 ^ 64.

(** Unfolds the width functions and their powers so that [lia] can decide
    goals about them. *)
Ltac unfold_words :=
  unfold is_u8, is_u16, is_u32, is_u64, u8, u16, u32, u64, i32, i64 in *;
  change (2 ^ 8) with 256 in *; change (2 ^ 16) with 65536 in *;
  change (2 ^ 31) with 2147483648 in *; change (2 ^ 32) with 4294967296 in *;
  change (2 ^ 63) with 9223372036854775808 in *;
  change (2 ^ 64) with 18446744073709551616 in *.

(** [lia] extended with [div]/[mod] and with the widths above. *)
Ltac words := unfold_words; repeat rewrite Z.mod_small by lia; try lia;
  Z.to_euclidean_division_equations; lia.

Lemma u8_small z : is_u8 z → u8 z = z.
Proof. intros; unfold_words; apply Z.mod_small; lia. Qed.
Lemma u16_small z : is_u16 z → u16 z = z.
Proof. intros; unfold_words; apply Z.mod_small; lia. Qed.
Lemma u32_small z : is_u32 z → u32 z = z.
Proof. intros; unfold_words; apply Z.mod_small; lia. Qed.
Lemma u64_small z : is_u64 z → u64 z = z.
Proof. intros; unfold_words; apply Z.mod_small; lia. Qed.
Lemma u8_range z : is_u8 (u8 z).
Proof. unfold_words; apply Z.mod_pos_bound; lia. Qed.
Lemma u32_range z : is_u32 (u32 z).
Proof. unfold_words; apply Z.mod_pos_bound; lia. Qed.
Lemma u64_range z : is_u64 (u64 z).
Proof. unfold_words; apply Z.mod_pos_bound; lia. Qed.

Lemma u16_range z : is_u16 (u16 z).
Proof. unfold_words; apply Z.mod_pos_bound; lia. Qed.
Lemma i32_small z : - 2 ^ 31 ≤ z < 2 ^ 31 → i32 z = z.
Proof. intros; unfold_words; rewrite Z.mod_small; lia. Qed.
Lemma i64_small z : - 2 ^ 63 ≤ z < 2 ^ 63 → i64 z = z.
Proof. intros; unfold_words; rewrite Z.mod_small; lia. Qed.

Lemma i64_u64 z : i64 (u64 z) = i64 z.
Proof. unfold i64, u64. by rewrite Zplus_mod_idemp_l. Qed.
Lemma u64_sub_l a b : u64 (a - u64 b) = u64 (a - b).
Proof. unfold u64. by rewrite Zminus_mod_idemp_r. Qed.

Create HintDb words.
#[export] Hint Resolve u8_range u16_range u32_range u64_range : words.

(** Comparisons by their outcome. *)
Lemma gtb_true a b : b < a → (a >? b) = true.
Proof. rewrite Z.gtb_ltb. apply Z.ltb_lt. Qed.
Lemma gtb_false a b : a ≤ b → (a >? b) = false.
Proof. rewrite Z.gtb_ltb. apply Z.ltb_ge. Qed.
Lemma geb_true a b : b ≤ a → (a >=? b) = true.
Proof. apply Z.geb_le. Qed.
Lemma geb_false a b : a < b → (a >=? b) = false.
Proof. rewrite Z.geb_leb. apply Z.leb_gt. Qed.
Lemma ltb_true a b : a < b → (a <? b) = true.
Proof. apply Z.ltb_lt. Qed.
Lemma ltb_false a b : b ≤ a → (a <? b) = false.
Proof. apply Z.ltb_ge. Qed.
Lemma leb_true a b : a ≤ b → (a <=? b) = true.
Proof. apply Z.leb_le. Qed.
Lemma leb_false a b : b < a → (a <=? b) = false.
Proof. apply Z.leb_gt. Qed.
Lemma eqb_true a b : a = b → (a =? b) = true.
Proof. apply Z.eqb_eq. Qed.
Lemma eqb_false a b : a ≠ b → (a =? b) = false.
Proof. apply Z.eqb_neq. Qed.

(** ** Doubles

    IEEE 754 binary64 arithmetic, with the executable specification of the
    standard library. *)

Definition double : Type := spec_float.
Definition double_of_Z (z : Z) : double := binary_normalize 53 1024 z 0 false.
Definition dmul (x y : double) : double := SFmul 53 1024 x y.
Definition ddiv (x y : double) : double := SFdiv 53 1024 x y.

(** Conversion of a finite double to an integer type truncates towards
    zero; what lies outside of the target type is undefined in C++, the model
    returns the truncated value in full. *)
Definition Z_of_double (x : double) : Z :=
  match x with
  | S754_finite s m e =>
      let t := if 0 <=? e then Z.pos m * 2 ^ e else Z.pos m / 2 ^ (- e) in
      if s then - t else t
  | _ => 0
  end.

(** ** Outcomes

    C++ code either returns, dies in an [assert], touches memory outside of
    an object, blocks on a mutex that it holds already, or does not return.  A loop whose bound is not syntactic runs
    on fuel; [OutOfFuel] is reported as a failure and every theorem that says
    that an operation returns excludes it. *)

Inductive failure := AssertFailed | OutOfBounds | OutOfFuel | Deadlock.

Inductive outcome (A : Type) :=
| Ret (a : A)
| Fail (f : failure).
Arguments Ret {A} a.
Arguments Fail {A} f.

#[export] Instance outcome_ret : MRet outcome := λ A, Ret.
#[export] Instance outcome_bind : MBind outcome := λ A B f m,
  match m with Ret a => f a | Fail e => Fail e end.
#[export] Instance outcome_fmap : FMap outcome := λ A B f m,
  match m with Ret a => Ret (f a) | Fail e => Fail e end.

(** [assert(b)] *)
Definition cassert (b : bool) : outcome unit :=
  if b then Ret tt else Fail AssertFailed.

Lemma bind_Ret {A B} (m : outcome A) (f : A → outcome B) b :
  (m ≫= f) = Ret b ↔ ∃ a, m = Ret a ∧ f a = Ret b.
Proof. destruct m; cbn; naive_solver. Qed.

Lemma cassert_Ret b u : cassert b = Ret u ↔ b = true.
Proof. destruct b, u; cbn; naive_solver. Qed.

(** Decomposes hypotheses of the form [c = Ret x] along the monadic
    structure of [c]. *)
Ltac inv_ret :=
  repeat match goal with
  | H : (_ ≫= _) = Ret _ |- _ => apply bind_Ret in H as (? & ? & ?)
  | H : cassert _ = Ret _ |- _ => apply cassert_Ret in H
  | H : Ret _ = Ret _ |- _ => injection H as ?; subst
  | H : Fail _ = Ret _ |- _ => discriminate H
  | H : mret _ = Ret _ |- _ => injection H as ?; subst
  end.

(** Runs the monad as far as values are known. *)
Ltac exec := cbn [mbind outcome_bind cassert negb andb orb fst snd].

(** ** Error codes of Linux *)

Definition ENOENT : Z := 2.
Definition EIO : Z := 5.
Definition EBADF : Z := 9.
Definition EINVAL : Z := 22.
Definition ENFILE : Z := 23.
Definition EFBIG : Z := 27.
Definition ENOSPC : Z := 28.
Definition EROFS : Z := 30.

(** ** Arrays

    Arrays are lists indexed by [Z].  [rd] and [wr] are the checked accesses
    [a[i]] and [a[i] = x]; [lget] is the underlying total lookup. *)

Definition lget {A} (l : list A) (i : Z) : option A :=
  if decide (0 ≤ i) then l !! Z.to_nat i else None.

Definition lset {A} (l : list A) (i : Z) (x : A) : list A :=
  if decide (0 ≤ i) then <[Z.to_nat i := x]> l else l.

Definition zlen {A} (l : list A) : Z := Z.of_nat (length l).

Definition rd {A} (l : list A) (i : Z) : outcome A :=
  match lget l i with Some x => Ret x | None => Fail OutOfBounds end.

Definition wr {A} (l : list A) (i : Z) (x : A) : outcome (list A) :=
  match lget l i with Some _ => Ret (lset l i x) | None => Fail OutOfBounds end.

Section Arrays.
Context {A : Type}.
Implicit Types (l : list A) (i j : Z) (x : A).

Lemma zlen_nonneg l : 0 ≤ zlen l.
Proof. unfold zlen; lia. Qed.

Lemma lget_Some_range l i x : lget l i = Some x → 0 ≤ i < zlen l.
Proof.
  unfold lget, zlen. case_decide; [|done].
  intros ?%lookup_lt_Some. lia.
Qed.

Lemma lget_in_range l i : 0 ≤ i < zlen l → ∃ x, lget l i = Some x.
Proof.
  unfold lget, zlen. intros. rewrite decide_True by lia.
  apply lookup_lt_is_Some_2. lia.
Qed.

Lemma lget_out_of_range l i : ¬ (0 ≤ i < zlen l) → lget l i = None.
Proof.
  intros H. destruct (lget l i) eqn:E; [|done].
  by apply lget_Some_range in E.
Qed.

Lemma zlen_lset l i x : zlen (lset l i x) = zlen l.
Proof. unfold zlen, lset. case_decide; [by rewrite length_insert|done]. Qed.

Lemma lget_lset_eq l i x : 0 ≤ i < zlen l → lget (lset l i x) i = Some x.
Proof.
  unfold lget, lset, zlen. intros. rewrite !decide_True by lia.
  apply list_lookup_insert_eq. lia.
Qed.

Lemma lget_lset_ne l i j x : i ≠ j → lget (lset l i x) j = lget l j.
Proof.
  unfold lget, lset. intros. repeat case_decide; try done.
  apply list_lookup_insert_ne. lia.
Qed.

Lemma lget_lset l i j x : 0 ≤ i < zlen l →
  lget (lset l i x) j = if decide (i = j) then Some x else lget l j.
Proof.
  intros. case_decide; subst; [by apply lget_lset_eq|by apply lget_lset_ne].
Qed.

Lemma lget_replicate n x i : 0 ≤ i < Z.of_nat n → lget (replicate n x) i = Some x.
Proof.
  unfold lget. intros. rewrite decide_True by lia.
  apply lookup_replicate_2. lia.
Qed.

Lemma lget_replicate_inv n x i y : lget (replicate n x) i = Some y → y = x.
Proof.
  unfold lget. case_decide; [|done]. by intros [-> _]%lookup_replicate_1.
Qed.

Lemma lget_elem_of l i x : lget l i = Some x → x ∈ l.
Proof. unfold lget. case_decide; [|done]. apply list_elem_of_lookup_2. Qed.

Lemma elem_of_lget l x : x ∈ l → ∃ i, lget l i = Some x.
Proof.
  intros [i Hi]%list_elem_of_lookup. exists (Z.of_nat i).
  unfold lget. rewrite decide_True, Nat2Z.id by lia. done.
Qed.

Lemma filter_all (P : A → Prop) `{!∀ x, Decision (P x)} l :
  (∀ x, x ∈ l → P x) → filter P l = l.
Proof.
  induction l as [|x l IH]; [done|]. intros HP. rewrite filter_cons.
  rewrite decide_True by (apply HP; set_solver). f_equal. set_solver.
Qed.

Lemma rd_Ret l i x : rd l i = Ret x ↔ lget l i = Some x.
Proof. unfold rd. destruct (lget l i); naive_solver. Qed.

Lemma rd_Some l i x : lget l i = Some x → rd l i = Ret x.
Proof. apply rd_Ret. Qed.

Lemma lget_ext l1 l2 : (∀ i, lget l1 i = lget l2 i) → l1 = l2.
Proof.
  intros Heq. apply list_eq. intros i. specialize (Heq (Z.of_nat i)). unfold lget in Heq.
  by rewrite !decide_True, Nat2Z.id in Heq by lia.
Qed.

Lemma wr_Ret l i x l' :
  wr l i x = Ret l' ↔ 0 ≤ i < zlen l ∧ l' = lset l i x.
Proof.
  unfold wr. destruct (lget l i) eqn:E.
  - apply lget_Some_range in E. naive_solver.
  - split; [done|]. intros [H ->].
    apply lget_in_range in H as [? H]. congruence.
Qed.

Lemma wr_in_range l i x : 0 ≤ i < zlen l → wr l i x = Ret (lset l i x).
Proof. intros. by apply wr_Ret. Qed.
End Arrays.

Create HintDb arrays.
#[export] Hint Resolve zlen_nonneg lget_elem_of : arrays.

(** ** Ring arithmetic

    Positions in a ring of [n] slots, advanced by [(i + 1) % n] in 32 bit
    arithmetic. *)

(** Number of steps from position [a] to position [b]. *)
Definition dist (n a b : Z) : Z := (b - a) mod n.

Lemma dist_cases n a b : 0 ≤ a < n → 0 ≤ b < n →
  dist n a b = if decide (a ≤ b) then b - a else b - a + n.
Proof.
  unfold dist. intros. case_decide.
  - rewrite Z.mod_small; lia.
  - rewrite <- (Z_mod_plus_full _ 1), Z.mod_small; lia.
Qed.

Lemma ring_next n i : 0 < n < 2 ^ 32 → 0 ≤ i < n →
  u32 (i + 1) mod n = if decide (i + 1 = n) then 0 else i + 1.
Proof.
  intros. rewrite u32_small by (unfold is_u32; lia). case_decide.
  - subst. apply Z.mod_same. lia.
  - apply Z.mod_small. lia.
Qed.

(** Splits on the wrap-around of every distance and increment in sight. *)
Ltac ring_solver :=
  repeat match goal with
  | H : context [u32 (?b + 1) mod ?c] |- _ => rewrite (ring_next c b) in H by lia
  | |- context [u32 (?b + 1) mod ?c] => rewrite (ring_next c b) by lia
  end;
  repeat case_decide;
  repeat match goal with
  | H : context [dist ?c ?a ?b] |- _ => rewrite (dist_cases c a b) in H by lia
  | |- context [dist ?c ?a ?b] => rewrite (dist_cases c a b) by lia
  end;
  repeat case_decide; lia.

(** Arithmetic with quotients and remainders. *)
Ltac dlia := Z.to_euclidean_division_equations; lia.

(** ** Checking a finite range of numbers *)

Lemma forall_below n (P : Z → bool) i : forallb P (seqZ 0 n) = true → 0 ≤ i < n → P i = true.
Proof.
  intros Hall Hi. rewrite forallb_forall in Hall. apply Hall.
  apply list_elem_of_In, elem_of_seqZ. lia.
Qed.
