(* ===== verification/Interfaces.v ===== *)
(** * Interfaces between components

    What a component promises to its clients, as type classes: clients are
    verified against the class, the implementation provides the instance. *)

From stdpp Require Import base list numbers gmap.
From S2P Require Import Prelude.

Open Scope Z_scope.

(** ** Bounded hash maps

    A map [M] from [K] to [V] as [SmallHashFixed] provides it to [LruCache]:
    one key marks free slots and is not allowed as a key, and the operations
    return as long as there are fewer entries than slots. *)
Class BoundedMap (K V M : Type) `{Countable K} := {
  bm_empty_key : K;
  bm_slots : M → Z;
  bm_bytes_allocated : M → Z;
  bm_init : Z → M;
  bm_lookup : M → K → outcome (option V);
  bm_insert : M → K → V → outcome M;
  bm_erase : M → K → outcome (M * bool);
  bm_clear : M → M;
  bm_represents : M → gmap K V → Prop;
  bm_init_ok n : 3 ≤ n < 2 ^ 31 →
    bm_represents (bm_init n) ∅ ∧ n < bm_slots (bm_init n);
  bm_lookup_ok t m k : bm_represents t m → k ≠ bm_empty_key →
    Z.of_nat (size m) < bm_slots t → bm_lookup t k = Ret (m !! k);
  bm_insert_ok t m k v : bm_represents t m → k ≠ bm_empty_key →
    Z.of_nat (size m) < bm_slots t →
    ∃ t', bm_insert t k v = Ret t' ∧ bm_represents t' (<[k := v]> m) ∧
      bm_slots t' = bm_slots t;
  bm_erase_ok t m k : bm_represents t m → k ≠ bm_empty_key →
    Z.of_nat (size m) < bm_slots t →
    ∃ t', bm_erase t k = Ret (t', bool_decide (is_Some (m !! k))) ∧
      bm_represents t' (delete k m) ∧ bm_slots t' = bm_slots t;
  bm_clear_ok t m : bm_represents t m →
    bm_represents (bm_clear t) ∅ ∧ bm_slots (bm_clear t) = bm_slots t
}.
