(* ===== verification/SmallHash.v ===== *)
(** * Open-addressing hash tables (src/cvmfs/smallhash.h)

    [SmallHashBase], [SmallHashFixed] and [SmallHashDynamic]: linear probing
    over two parallel arrays, deletion by re-inserting the rest of the cluster,
    and migration to a table of twice or half the capacity.  The table refines
    a finite map from keys to values. *)

From stdpp Require Import base list numbers gmap.
From S2P Require Import Prelude Interfaces.

Open Scope Z_scope.

(** ** The pseudo random number generator of src/cvmfs/util/prng.h *)
Module Prng.
Definition a : Z := 6364136223846793005.
Definition c : Z := 1442695040888963407.

(** [Prng::Next]: the new state and a number below [boundary]. *)
Definition Next (state_ boundary : Z) : Z * Z :=
  let state_ := u64 (a * state_ + c) in
  let scaled_val := ddiv (dmul (double_of_Z state_) (double_of_Z boundary))
                         (double_of_Z 18446744073709551616) in
  (state_, u32 (u64 (Z_of_double scaled_val) mod boundary)).
End Prng.

Section SmallHash.
Context {Key Value : Type} `{Countable Key}.

(** Fixed by [Init] for the life time of a table: the hash function (a
    [uint32_t]) and the key that marks free slots; and what the compiler
    provides: default-constructed keys and values and object sizes. *)
Context (hasher_ : Key → Z) (empty_key_ : Key).
Context (key0 : Key) (value0 : Value) (sizeof_Key sizeof_Value : Z).

Record table := Table {
  keys_ : list Key;
  values_ : list Value;
  capacity_ : Z;
  initial_capacity_ : Z;
  size_ : Z;
  bytes_allocated_ : Z;
  num_collisions_ : Z;
  max_collisions_ : Z
}.

(** *** Base operations *)

(** [ScaleHash] *)
Definition ScaleHash (capacity : Z) (key : Key) : Z :=
  let bucket := ddiv (dmul (double_of_Z (u32 (hasher_ key))) (double_of_Z capacity))
                     (double_of_Z 4294967295) in
  u32 (Z_of_double bucket) mod capacity.

(** The [while] loop of [DoLookup]. *)
Fixpoint probe (fuel : nat) (keys : list Key) (capacity : Z) (key : Key)
    (bucket collisions : Z) : outcome (bool * Z * Z) :=
  match fuel with
  | O => Fail OutOfFuel
  | S fuel =>
      k ← rd keys bucket;
      if decide (k = empty_key_) then Ret (false, bucket, collisions)
      else if decide (k = key) then Ret (true, bucket, collisions)
      else probe fuel keys capacity key (u32 (bucket + 1) mod capacity)
             (u32 (collisions + 1))
  end.

(** After [capacity] steps the loop is back where it started. *)
Definition DoLookup (t : table) (key : Key) : outcome (bool * Z * Z) :=
  probe (Z.to_nat (capacity_ t)) (keys_ t) (capacity_ t) key
    (ScaleHash (capacity_ t) key) 0.

Definition Lookup (t : table) (key : Key) : outcome (option Value) :=
  '(found, bucket, _) ← DoLookup t key;
  if found : bool then v ← rd (values_ t) bucket; Ret (Some v) else Ret None.

Definition Contains (t : table) (key : Key) : outcome bool :=
  '(found, _, _) ← DoLookup t key; Ret found.

(** [LookupEx] has its own copy of the loop and returns the stored key. *)
Fixpoint lookup_ex_loop (fuel : nat) (t : table) (key : Key) (bucket : Z)
    : outcome (option (Key * Value)) :=
  match fuel with
  | O => Fail OutOfFuel
  | S fuel =>
      k ← rd (keys_ t) bucket;
      if decide (k = empty_key_) then Ret None
      else if decide (k = key) then
        v ← rd (values_ t) bucket; Ret (Some (k, v))
      else lookup_ex_loop fuel t key (u32 (bucket + 1) mod capacity_ t)
  end.

Definition LookupEx (t : table) (key : Key) : outcome (option (Key * Value)) :=
  lookup_ex_loop (Z.to_nat (capacity_ t)) t key (ScaleHash (capacity_ t) key).

(** [DoInsert]: true iff the key is overwritten. *)
Definition DoInsert (t : table) (key : Key) (value : Value)
    (count_collisions : bool) : outcome (table * bool) :=
  '(overwritten, bucket, collisions) ← DoLookup t key;
  keys ← wr (keys_ t) bucket key;
  values ← wr (values_ t) bucket value;
  Ret ({| keys_ := keys; values_ := values;
          capacity_ := capacity_ t; initial_capacity_ := initial_capacity_ t;
          size_ := size_ t; bytes_allocated_ := bytes_allocated_ t;
          num_collisions_ := if count_collisions
            then u64 (num_collisions_ t + collisions) else num_collisions_ t;
          max_collisions_ := if count_collisions
            then Z.max collisions (max_collisions_ t) else max_collisions_ t |},
       overwritten).

Definition set_size (t : table) (n : Z) : table :=
  {| keys_ := keys_ t; values_ := values_ t; capacity_ := capacity_ t;
     initial_capacity_ := initial_capacity_ t; size_ := n;
     bytes_allocated_ := bytes_allocated_ t;
     num_collisions_ := num_collisions_ t; max_collisions_ := max_collisions_ t |}.

Definition set_keys (t : table) (ks : list Key) : table :=
  {| keys_ := ks; values_ := values_ t; capacity_ := capacity_ t;
     initial_capacity_ := initial_capacity_ t; size_ := size_ t;
     bytes_allocated_ := bytes_allocated_ t;
     num_collisions_ := num_collisions_ t; max_collisions_ := max_collisions_ t |}.

(** The part of [Insert] behind [Grow()]: [size_ += !overwritten]. *)
Definition InsertNoGrow (t : table) (key : Key) (value : Value) : outcome table :=
  '(t, overwritten) ← DoInsert t key value true;
  Ret (set_size t (u32 (size_ t + (if overwritten : bool then 0 else 1)))).

(** The rehash loop of [Erase]. *)
Fixpoint rehash_loop (fuel : nat) (t : table) (bucket : Z) : outcome table :=
  match fuel with
  | O => Fail OutOfFuel
  | S fuel =>
      rehash ← rd (keys_ t) bucket;
      if decide (rehash = empty_key_) then Ret t
      else
        keys ← wr (keys_ t) bucket empty_key_;
        value ← rd (values_ t) bucket;
        '(t, _) ← DoInsert (set_keys t keys) rehash value false;
        rehash_loop fuel t (u32 (bucket + 1) mod capacity_ t)
  end.

(** [Erase] up to [Shrink()]. *)
Definition EraseNoShrink (t : table) (key : Key) : outcome (table * bool) :=
  '(found, bucket, _) ← DoLookup t key;
  if found : bool then
    keys ← wr (keys_ t) bucket empty_key_;
    let t := set_size (set_keys t keys) (u32 (size_ t - 1)) in
    t ← rehash_loop (Z.to_nat (capacity_ t)) t (u32 (bucket + 1) mod capacity_ t);
    Ret (t, true)
  else Ret (t, false).

(** [AllocMemory] *)
Definition AllocMemory (t : table) : table :=
  {| keys_ := replicate (Z.to_nat (capacity_ t)) key0;
     values_ := replicate (Z.to_nat (capacity_ t)) value0;
     capacity_ := capacity_ t; initial_capacity_ := initial_capacity_ t;
     size_ := size_ t;
     bytes_allocated_ := u64 ((sizeof_Key + sizeof_Value) * capacity_ t);
     num_collisions_ := num_collisions_ t; max_collisions_ := max_collisions_ t |}.

(** The loop of [DoClear] behind the optional [ResetCapacity()]. *)
Definition ClearKeys (t : table) : table :=
  set_size (set_keys t ((λ _, empty_key_) <$> keys_ t)) 0.

(** [static_cast<uint32_t>(expected_size / 0.75)].  Four thirds of a 32 bit
    integer is at distance at least 1/3 from the next integer or is one, the
    rounding error of the division is below [2^-20]: truncation gives the
    exact quotient. *)
Definition scaled_capacity (expected_size : Z) : Z := u32 (expected_size * 4 / 3).

(** The constructor followed by [Init] on a fixed-size table. *)
Definition FixedInit (expected_size : Z) : table :=
  let capacity := scaled_capacity expected_size in
  ClearKeys (AllocMemory
    {| keys_ := []; values_ := []; capacity_ := capacity;
       initial_capacity_ := capacity; size_ := 0; bytes_allocated_ := 0;
       num_collisions_ := 0; max_collisions_ := 0 |}).

(** *** [SmallHashFixed]: the hooks of the base class are no-ops *)

Definition FixedInsert (t : table) (key : Key) (value : Value) : outcome table :=
  InsertNoGrow t key value.
Definition FixedErase (t : table) (key : Key) : outcome (table * bool) :=
  EraseNoShrink t key.
Definition FixedClear (t : table) : table := ClearKeys t.

(** *** [SmallHashDynamic] *)

Record dyntable := DynTable {
  base : table;
  num_migrates_ : Z;
  threshold_grow_ : Z;
  threshold_shrink_ : Z;
  g_prng : Z
}.

Definition set_base (d : dyntable) (t : table) : dyntable :=
  DynTable t (num_migrates_ d) (threshold_grow_ d) (threshold_shrink_ d) (g_prng d).

(** [0.75 * capacity] and [0.25 * capacity] are exact in binary64 for a 32
    bit capacity. *)
Definition SetThresholds (d : dyntable) : dyntable :=
  DynTable (base d) (num_migrates_ d) (u32 (capacity_ (base d) * 3 / 4))
    (u32 (capacity_ (base d) / 4)) (g_prng d).

(** The swap loop of [ShuffleIndices]: positions [i], ..., [N-2]. *)
Fixpoint shuffle_loop (n : nat) (N i : Z) (prng : Z) (shuffled : list Z)
    : outcome (list Z * Z) :=
  match n with
  | O => Ret (shuffled, prng)
  | S n =>
      let '(prng, r) := Prng.Next prng (u32 (N - i)) in
      let swap_idx := u32 (i + r) in
      tmp ← rd shuffled i;
      x ← rd shuffled swap_idx;
      shuffled ← wr shuffled i x;
      shuffled ← wr shuffled swap_idx tmp;
      shuffle_loop n N (u32 (i + 1)) prng shuffled
  end.

(** [i < N - 1] in unsigned arithmetic. *)
Definition ShuffleIndices (N prng : Z) : outcome (list Z * Z) :=
  shuffle_loop (Z.to_nat (u32 (N - 1))) N 0 prng (seqZ 0 N).

(** Inserts the used slots of another pair of arrays, in the order of
    [indices]; [insert] is [Base::Insert]. *)
Fixpoint insert_all (insert : dyntable → Key → Value → outcome dyntable)
    (keys : list Key) (values : list Value) (indices : list Z) (d : dyntable)
    : outcome dyntable :=
  match indices with
  | [] => Ret d
  | i :: indices =>
      k ← rd keys i;
      if decide (k = empty_key_) then insert_all insert keys values indices d
      else
        v ← rd values i;
        d ← insert d k v;
        insert_all insert keys values indices d
  end.

(** [Migrate].  The old arrays go in array order when the table grows and
    in random order when it shrinks. *)
Definition Migrate (insert : dyntable → Key → Value → outcome dyntable)
    (d : dyntable) (new_capacity : Z) : outcome dyntable :=
  let t := base d in
  let old_size := size_ t in
  let t' := {| keys_ := keys_ t; values_ := values_ t; capacity_ := new_capacity;
               initial_capacity_ := initial_capacity_ t; size_ := size_ t;
               bytes_allocated_ := bytes_allocated_ t;
               num_collisions_ := num_collisions_ t;
               max_collisions_ := max_collisions_ t |} in
  let d' := SetThresholds (set_base d t') in
  let d' := set_base d' (ClearKeys (AllocMemory (base d'))) in
  d' ← (if new_capacity <? capacity_ t then
          '(indices, prng) ← ShuffleIndices (capacity_ t) (g_prng d');
          insert_all insert (keys_ t) (values_ t) indices
            (DynTable (base d') (num_migrates_ d') (threshold_grow_ d')
               (threshold_shrink_ d') prng)
        else
          insert_all insert (keys_ t) (values_ t) (seqZ 0 (capacity_ t)) d');
  _ ← cassert (size_ (base d') =? old_size);
  Ret (DynTable (base d') (u32 (num_migrates_ d' + 1)) (threshold_grow_ d')
         (threshold_shrink_ d') (g_prng d')).

(** [Insert], [Grow] and [Migrate] call each other: the hooks take the
    [Insert] that a migration uses as an argument. *)
Definition Grow (insert : dyntable → Key → Value → outcome dyntable)
    (d : dyntable) : outcome dyntable :=
  if size_ (base d) >? threshold_grow_ d
  then Migrate insert d (u32 (capacity_ (base d) * 2)) else Ret d.

Definition Shrink (insert : dyntable → Key → Value → outcome dyntable)
    (d : dyntable) : outcome dyntable :=
  if size_ (base d) <? threshold_shrink_ d then
    let target_capacity := capacity_ (base d) / 2 in
    if target_capacity >=? initial_capacity_ (base d)
    then Migrate insert d target_capacity else Ret d
  else Ret d.

(** [depth] bounds the nesting of migrations. *)
Fixpoint DynInsert (depth : nat) (d : dyntable) (key : Key) (value : Value)
    : outcome dyntable :=
  match depth with
  | O => Fail OutOfFuel
  | S depth =>
      d ← Grow (DynInsert depth) d;
      t ← InsertNoGrow (base d) key value;
      Ret (set_base d t)
  end.

Definition DynErase (depth : nat) (d : dyntable) (key : Key)
    : outcome (dyntable * bool) :=
  '(t, found) ← EraseNoShrink (base d) key;
  if found : bool then
    d ← Shrink (DynInsert depth) (set_base d t); Ret (d, true)
  else Ret (set_base d t, false).

(** [Clear]: [ResetCapacity()] and then the loop of [DoClear]. *)
Definition ResetCapacity (d : dyntable) : dyntable :=
  let t := base d in
  let t := {| keys_ := keys_ t; values_ := values_ t;
              capacity_ := initial_capacity_ t;
              initial_capacity_ := initial_capacity_ t; size_ := size_ t;
              bytes_allocated_ := bytes_allocated_ t;
              num_collisions_ := num_collisions_ t;
              max_collisions_ := max_collisions_ t |} in
  SetThresholds (set_base d (AllocMemory t)).

Definition DynClear (d : dyntable) : dyntable :=
  let d := ResetCapacity d in set_base d (ClearKeys (base d)).

(** The constructor followed by [Init] on a dynamic table. *)
Definition DynInit (expected_size prng : Z) : dyntable :=
  SetThresholds (DynTable (FixedInit expected_size) 0 0 0 prng).

(** ** Theory *)

Definition free (keys : list Key) (i : Z) : Prop := lget keys i = Some empty_key_.

(** Probing for the key in slot [i] reaches [i] before any free slot. *)
Definition reachable (keys : list Key) (cap : Z) (i : Z) (k : Key) : Prop :=
  ∀ e, free keys e → dist cap (ScaleHash cap k) i < dist cap (ScaleHash cap k) e.

Definition maps (keys : list Key) (values : list Value) (k : Key) (v : Value) : Prop :=
  k ≠ empty_key_ ∧ ∃ i, lget keys i = Some k ∧ lget values i = Some v.

Definition unique (keys : list Key) : Prop :=
  ∀ i j k, k ≠ empty_key_ → lget keys i = Some k → lget keys j = Some k → i = j.

Definition used_slots (keys : list Key) : Z := zlen (filter (λ k, k ≠ empty_key_) keys).

(** What is common to a table and to one in the middle of a rehash. *)
Record shape (t : table) : Prop := {
  shape_cap : 0 < capacity_ t < 2 ^ 32;
  shape_keys : zlen (keys_ t) = capacity_ t;
  shape_values : zlen (values_ t) = capacity_ t;
  shape_unique : unique (keys_ t)
}.

(** The table invariant together with the finite map it represents. *)
Record represents (t : table) (m : gmap Key Value) : Prop := {
  rep_shape : shape t;
  rep_reach : ∀ i k, k ≠ empty_key_ → lget (keys_ t) i = Some k →
    reachable (keys_ t) (capacity_ t) i k;
  rep_maps : ∀ k v, m !! k = Some v ↔ maps (keys_ t) (values_ t) k v;
  rep_used : used_slots (keys_ t) = Z.of_nat (size m);
  rep_size : size_ t = Z.of_nat (size m)
}.

Lemma ScaleHash_range cap k : 0 < cap → 0 ≤ ScaleHash cap k < cap.
Proof. intros. unfold ScaleHash. by apply Z.mod_pos_bound. Qed.

Lemma probe_spec keys cap key h : ∀ fuel b c e,
  0 < cap < 2 ^ 32 → zlen keys = cap → 0 ≤ h < cap → 0 ≤ b < cap →
  key ≠ empty_key_ →
  free keys e → dist cap h b ≤ dist cap h e →
  (Z.to_nat (dist cap h e - dist cap h b) < fuel)%nat →
  (∀ s k, lget keys s = Some k → dist cap h s < dist cap h b →
     k ≠ key ∧ k ≠ empty_key_) →
  ∃ found r c', probe fuel keys cap key b c = Ret (found, r, c') ∧
    0 ≤ r < cap ∧
    (∀ s k, lget keys s = Some k → dist cap h s < dist cap h r →
       k ≠ key ∧ k ≠ empty_key_) ∧
    lget keys r = Some (if found : bool then key else empty_key_).
Proof.
  intros fuel. induction fuel as [|fuel IH];
    intros b c e Hcap Hlen Hh Hb Hkey Hfree Hd Hfuel Hseen; [lia|].
  destruct (lget_in_range keys b) as [k Hk]; [lia|].
  simpl. rewrite (proj2 (rd_Ret _ _ _) Hk). cbn.
  case_decide as HkE; [subst; by exists false, b, c|].
  case_decide as Hkk; [subst; by exists true, b, c|].
  pose proof (lget_Some_range _ _ _ Hfree).
  assert (b ≠ e) by (intros ->; unfold free in Hfree; congruence).
  assert (0 ≤ u32 (b + 1) mod cap < cap) by (apply Z.mod_pos_bound; lia).
  assert (dist cap h (u32 (b + 1) mod cap) = dist cap h b + 1) as Hn
    by ring_solver.
  assert (dist cap h b + 1 ≤ dist cap h e) by (clear Hfuel; ring_solver).
  apply (IH _ _ e); try done; rewrite ?Hn; [lia..|].
  - intros s k' Hs Hlt. destruct (decide (s = b)) as [->|]; [naive_solver|].
    pose proof (lget_Some_range _ _ _ Hs).
    apply (Hseen s); [done|]. ring_solver.
Qed.

(** The outcome of [DoLookup]: the slot of the key, or the free slot at
    which probing stops. *)
Lemma DoLookup_spec t key e : shape t → key ≠ empty_key_ → free (keys_ t) e →
  ∃ found r c, DoLookup t key = Ret (found, r, c) ∧ 0 ≤ r < capacity_ t ∧
    (∀ s k, lget (keys_ t) s = Some k →
       dist (capacity_ t) (ScaleHash (capacity_ t) key) s
         < dist (capacity_ t) (ScaleHash (capacity_ t) key) r →
       k ≠ key ∧ k ≠ empty_key_) ∧
    lget (keys_ t) r = Some (if found : bool then key else empty_key_).
Proof.
  intros [Hcap Hk Hv Hu] Hkey Hfree. unfold DoLookup.
  pose proof (ScaleHash_range (capacity_ t) key ltac:(lia)) as Hh.
  pose proof (lget_Some_range _ _ _ Hfree).
  assert (dist (capacity_ t) (ScaleHash (capacity_ t) key)
            (ScaleHash (capacity_ t) key) = 0) as Hd0 by ring_solver.
  eapply probe_spec; eauto.
  - ring_solver.
  - ring_solver.
  - intros s k Hs Hlt. exfalso. pose proof (lget_Some_range _ _ _ Hs). ring_solver.
Qed.

Lemma used_slots_lset keys i x y : lget keys i = Some y →
  used_slots (lset keys i x) + (if decide (y = empty_key_) then 0 else 1)
  = used_slots keys + (if decide (x = empty_key_) then 0 else 1).
Proof.
  unfold used_slots, lset, lget, zlen. case_decide; [|done]. intros Hy.
  rewrite <- (take_drop_middle _ _ _ Hy) at 2.
  rewrite insert_take_drop by (by eapply lookup_lt_Some).
  rewrite !filter_app, !filter_cons, !length_app.
  repeat case_decide; cbn [length]; try (exfalso; naive_solver); lia.
Qed.

Lemma used_slots_full keys : (∀ i, ¬ free keys i) → used_slots keys = zlen keys.
Proof.
  intros Hno. unfold used_slots. f_equal. apply filter_all.
  intros k [i Hi]%elem_of_lget ->. by apply (Hno i).
Qed.

Lemma used_slots_le keys : used_slots keys ≤ zlen keys.
Proof. unfold used_slots, zlen. pose proof (length_filter (λ k, k ≠ empty_key_) keys). lia. Qed.

Lemma represents_free t m : represents t m → Z.of_nat (size m) < capacity_ t →
  ∃ e, free (keys_ t) e.
Proof.
  intros [[Hcap Hk Hv Hu] _ _ Hused _] Hlt.
  destruct (decide (Exists (λ k, k = empty_key_) (keys_ t))) as [He|He].
  - apply Exists_exists in He as (k & [i Hi]%elem_of_lget & ->). by exists i.
  - exfalso. rewrite used_slots_full in Hused; [lia|].
    intros i Hi. apply He, Exists_exists. eauto using lget_elem_of.
Qed.

Lemma DoInsert_spec t key value cc e :
  shape t → key ≠ empty_key_ → free (keys_ t) e →
  ∃ t' found r, DoInsert t key value cc = Ret (t', found) ∧
    0 ≤ r < capacity_ t ∧
    (∀ s k, lget (keys_ t) s = Some k →
       dist (capacity_ t) (ScaleHash (capacity_ t) key) s
         < dist (capacity_ t) (ScaleHash (capacity_ t) key) r →
       k ≠ key ∧ k ≠ empty_key_) ∧
    lget (keys_ t) r = Some (if found : bool then key else empty_key_) ∧
    keys_ t' = lset (keys_ t) r key ∧ values_ t' = lset (values_ t) r value ∧
    capacity_ t' = capacity_ t ∧ initial_capacity_ t' = initial_capacity_ t ∧
    size_ t' = size_ t ∧ bytes_allocated_ t' = bytes_allocated_ t.
Proof.
  intros Hs Hkey Hfree.
  destruct (DoLookup_spec t key e) as (found & r & c & Hl & Hr & Hseen & Hat); auto.
  destruct Hs as [Hcap Hk Hv Hu]. unfold DoInsert. rewrite Hl. cbn.
  rewrite !wr_in_range by lia. cbn. by do 3 eexists.
Qed.

(** Placing a key where its probing stops keeps it and the others reachable. *)
Lemma place_reachable keys cap key r :
  0 < cap → zlen keys = cap → key ≠ empty_key_ → 0 ≤ r < cap →
  (∀ s k, lget keys s = Some k →
     dist cap (ScaleHash cap key) s < dist cap (ScaleHash cap key) r →
     k ≠ key ∧ k ≠ empty_key_) →
  reachable (lset keys r key) cap r key.
Proof.
  intros Hcap Hlen Hkey Hr Hseen e He. pose proof (ScaleHash_range cap key Hcap).
  unfold free in He. rewrite lget_lset in He by lia. case_decide; [congruence|].
  pose proof (lget_Some_range _ _ _ He). specialize (Hseen _ _ He).
  destruct (decide (dist cap (ScaleHash cap key) e < dist cap (ScaleHash cap key) r));
    [naive_solver|]. clear Hseen. ring_solver.
Qed.

Lemma reachable_mono keys keys' cap i k :
  (∀ e, free keys' e → free keys e) → reachable keys cap i k → reachable keys' cap i k.
Proof. unfold reachable. auto. Qed.

Lemma place_absent t key found r :
  (∀ i k, k ≠ empty_key_ → lget (keys_ t) i = Some k →
    reachable (keys_ t) (capacity_ t) i k) →
  key ≠ empty_key_ →
  (∀ s k, lget (keys_ t) s = Some k →
     dist (capacity_ t) (ScaleHash (capacity_ t) key) s
       < dist (capacity_ t) (ScaleHash (capacity_ t) key) r →
     k ≠ key ∧ k ≠ empty_key_) →
  lget (keys_ t) r = Some (if found : bool then key else empty_key_) →
  found = false → ∀ i, lget (keys_ t) i ≠ Some key.
Proof.
  intros Hreach Hkey Hseen Hr -> i Hi.
  pose proof (Hreach i key Hkey Hi r Hr). naive_solver.
Qed.

Lemma maps_place keys values r key v old k' v' :
  zlen keys = zlen values → 0 ≤ r < zlen keys → key ≠ empty_key_ →
  lget keys r = Some old → old = key ∨ old = empty_key_ →
  (∀ i, lget keys i = Some key → i = r) →
  maps (lset keys r key) (lset values r v) k' v'
  ↔ (k' = key ∧ v' = v) ∨ (k' ≠ key ∧ maps keys values k' v').
Proof.
  intros Hl Hr Hkey Hold Hok Huniq. unfold maps. split.
  - intros (HkE & i & Hi & Hvi). rewrite lget_lset in Hi by lia. rewrite lget_lset in Hvi by lia.
    case_decide as Hri; [left; naive_solver|]. right. split; [|naive_solver].
    intros ->. apply Hri. symmetry. auto.
  - intros [[-> ->]|(Hne & HkE & i & Hi & Hvi)].
    + split; [done|]. exists r. by rewrite !lget_lset_eq by lia.
    + split; [done|]. exists i. rewrite !lget_lset by lia.
      case_decide; [|done]. subst. naive_solver.
Qed.

Lemma unique_place keys r key old :
  0 ≤ r < zlen keys → unique keys → lget keys r = Some old →
  (∀ i, lget keys i = Some key → i = r) → unique (lset keys r key).
Proof.
  intros Hr Hu Hold Honly i j k HkE Hi Hj. rewrite lget_lset in Hi by lia. rewrite lget_lset in Hj by lia.
  repeat case_decide; simplify_eq; eauto. symmetry. eauto.
Qed.

Lemma maps_fun keys values k v v' : unique keys →
  maps keys values k v → maps keys values k v' → v = v'.
Proof.
  intros Hu (HkE & i & Hi & Hv) (_ & j & Hj & Hv').
  assert (i = j) by eauto. naive_solver.
Qed.

Lemma represents_absent t m key : represents t m → key ≠ empty_key_ →
  (∀ i, lget (keys_ t) i ≠ Some key) ↔ m !! key = None.
Proof.
  intros [[Hcap Hk Hv Hu] _ Hmaps _ _] Hkey. split.
  - intros Habs. apply eq_None_not_Some. intros [v (_ & i & Hi & _)%Hmaps].
    by apply (Habs i).
  - intros Hnone i Hi. destruct (lget_in_range (values_ t) i) as [v Hvi].
    { apply lget_Some_range in Hi. lia. }
    assert (m !! key = Some v) by (apply Hmaps; split; eauto). congruence.
Qed.

(** A lookup with the map in hand: found iff the key is in the map. *)
Lemma DoLookup_map t m key : represents t m → key ≠ empty_key_ →
  Z.of_nat (size m) < capacity_ t →
  ∃ found r c, DoLookup t key = Ret (found, r, c) ∧ 0 ≤ r < capacity_ t ∧
    lget (keys_ t) r = Some (if found : bool then key else empty_key_) ∧
    if found then ∃ v, lget (values_ t) r = Some v ∧ m !! key = Some v
    else m !! key = None.
Proof.
  intros Hrep Hkey Hlt. destruct (represents_free _ _ Hrep Hlt) as [e He].
  destruct (DoLookup_spec t key e) as (found & r & c & Hl & Hr & Hseen & Hat);
    [apply Hrep|done..|].
  exists found, r, c. split; [done|]. split; [lia|]. split; [done|]. destruct found.
  - destruct (lget_in_range (values_ t) r) as [v Hv].
    { destruct Hrep as [[] _ _ _ _]. lia. }
    exists v. split; [done|]. apply (rep_maps _ _ Hrep). split; eauto.
  - apply (represents_absent t m key Hrep Hkey).
    exact (place_absent t key false r (rep_reach _ _ Hrep) Hkey Hseen Hat eq_refl).
Qed.

Lemma Lookup_map t m key : represents t m → key ≠ empty_key_ →
  Z.of_nat (size m) < capacity_ t → Lookup t key = Ret (m !! key).
Proof.
  intros Hrep Hkey Hlt.
  destruct (DoLookup_map t m key) as (found & r & c & Hl & Hr & Hat & Hm); auto.
  unfold Lookup. rewrite Hl. cbn. destruct found; [|by rewrite Hm].
  destruct Hm as (v & Hv & ->). rewrite (proj2 (rd_Ret _ _ _) Hv). done.
Qed.

Lemma InsertNoGrow_map t m key v : represents t m → key ≠ empty_key_ →
  Z.of_nat (size m) < capacity_ t →
  ∃ t', InsertNoGrow t key v = Ret t' ∧ represents t' (<[key := v]> m) ∧
    capacity_ t' = capacity_ t ∧ initial_capacity_ t' = initial_capacity_ t ∧
    bytes_allocated_ t' = bytes_allocated_ t.
Proof.
  intros Hrep Hkey Hlt. destruct (represents_free _ _ Hrep Hlt) as [e He].
  destruct (DoInsert_spec t key v true e)
    as (t' & found & r & Hi & Hr & Hseen & Hat & Hk' & Hv' & Hc' & Hi' & Hs' & Hb');
    [apply Hrep|done..|].
  unfold InsertNoGrow. rewrite Hi. cbn. eexists. split; [done|].
  split; [|done].
  pose proof (place_absent t key found r (rep_reach _ _ Hrep) Hkey Hseen Hat) as Habs.
  pose proof Hrep as [[Hcap Hk Hv Hu] Hreach Hmaps Hused Hsize].
  assert (∀ i, lget (keys_ t) i = Some key → i = r) as Honly.
  { intros i Hii. destruct found; [by eapply Hu|]. by destruct (Habs eq_refl i). }
  assert (Z.of_nat (size (<[key:=v]> m))
          = Z.of_nat (size m) + (if found then 0 else 1)) as Hsz.
  { destruct found.
    - rewrite map_size_insert_Some; [lia|].
      destruct (lget_in_range (values_ t) r) as [v0 Hv0]; [lia|].
      exists v0. apply Hmaps. split; eauto.
    - rewrite map_size_insert_None; [lia|].
      apply (represents_absent t); eauto. }
  split; cbn.
  - split; cbn; rewrite ?Hk', ?Hv', ?zlen_lset, ?Hc'; try lia.
    eapply unique_place; eauto; lia.
  - intros i k HkE Hik. rewrite Hk', Hc' in *. rewrite lget_lset in Hik by lia.
    case_decide; [simplify_eq; by apply place_reachable; try lia|].
    eapply reachable_mono, Hreach; eauto. intros e' He'. unfold free in He'.
    rewrite lget_lset in He' by lia. by case_decide; simplify_eq.
  - intros k' v'. rewrite Hk', Hv', maps_place; eauto; try lia.
    2: { destruct found; auto. }
    rewrite <- Hmaps, lookup_insert_Some. naive_solver.
  - rewrite Hk', Hsz. pose proof (used_slots_lset (keys_ t) r key _ Hat).
    destruct found; repeat case_decide; try done; lia.
  - rewrite Hs', Hsz, Hsize. apply u32_small. unfold is_u32. destruct found; lia.
Qed.

(** The table in the middle of [Erase]: slot [b] was cleared, the loop is at
    slot [p] and [e0] is the first slot behind [b] that was free before.  The
    slots from [p] up to [e0] still have their original entries, whose paths
    may lead through free slots between [b] and [p] only. *)
Definition pending (cap b p e0 i : Z) : Prop :=
  dist cap b p ≤ dist cap b i < dist cap b e0.

Record rehashing (t : table) (m : gmap Key Value) (b p e0 : Z) : Prop := {
  rh_shape : shape t;
  rh_b : 0 ≤ b < capacity_ t;
  rh_p : 0 ≤ p < capacity_ t;
  rh_e0 : free (keys_ t) e0;
  rh_order : dist (capacity_ t) b p ≤ dist (capacity_ t) b e0;
  rh_used_region : ∀ i, pending (capacity_ t) b p e0 i → ¬ free (keys_ t) i;
  rh_done : ∀ i k, k ≠ empty_key_ → lget (keys_ t) i = Some k →
    ¬ pending (capacity_ t) b p e0 i → reachable (keys_ t) (capacity_ t) i k;
  rh_todo : ∀ i k, k ≠ empty_key_ → lget (keys_ t) i = Some k →
    pending (capacity_ t) b p e0 i →
    ∀ e, free (keys_ t) e → dist (capacity_ t) b p ≤ dist (capacity_ t) b e →
      dist (capacity_ t) (ScaleHash (capacity_ t) k) i
        < dist (capacity_ t) (ScaleHash (capacity_ t) k) e;
  rh_maps : ∀ k v, m !! k = Some v ↔ maps (keys_ t) (values_ t) k v;
  rh_used : used_slots (keys_ t) = Z.of_nat (size m);
  rh_size : size_ t = Z.of_nat (size m)
}.

(** The loop stops at [e0] with every entry in place. *)
Lemma rehashing_done t m b p e0 :
  rehashing t m b p e0 → free (keys_ t) p → represents t m.
Proof.
  intros [Hs Hb Hp He0 Hord Hreg Hdone Htodo Hmaps Hused Hsize] Hfree.
  pose proof (lget_Some_range _ _ _ He0). pose proof (shape_keys _ Hs).
  split; try done. intros i k HkE Hi. apply Hdone; [done..|].
  intros Hpend. apply (Hreg p); [|done]. unfold pending in *. lia.
Qed.

(** Where the entry of slot [p] goes when it is re-inserted: to a slot [q]
    at or before [p] on its probing path, never to [e0]. *)
Lemma rehash_insert t m b p e0 k v : rehashing t m b p e0 →
  lget (keys_ t) p = Some k → k ≠ empty_key_ →
  ∃ t' q, DoInsert (set_keys t (lset (keys_ t) p empty_key_)) k v false = Ret (t', false) ∧
    0 ≤ q < capacity_ t ∧ q ≠ e0 ∧ (q = p ∨ free (keys_ t) q) ∧
    keys_ t' = lset (lset (keys_ t) p empty_key_) q k ∧
    values_ t' = lset (values_ t) q v ∧
    reachable (keys_ t') (capacity_ t) q k ∧
    capacity_ t' = capacity_ t ∧ initial_capacity_ t' = initial_capacity_ t ∧
    size_ t' = size_ t ∧ bytes_allocated_ t' = bytes_allocated_ t.
Proof.
  intros [Hs Hb Hp He0 Hord Hreg Hdone Htodo Hmaps Hused Hsize] Hk HkE.
  pose proof Hs as [Hcap Hkl Hvl Hu].
  set (t1 := set_keys t (lset (keys_ t) p empty_key_)).
  assert (p ≠ e0) as Hpe by (intros ->; unfold free in He0; congruence).
  pose proof (lget_Some_range _ _ _ He0) as He0r.
  assert (shape t1) as Hs1.
  { split; cbn; rewrite ?zlen_lset; try done. intros i j k' HE Hi Hj.
    rewrite lget_lset in Hi by lia. rewrite lget_lset in Hj by lia.
    repeat case_decide; naive_solver. }
  assert (free (keys_ t1) p) as Hfp by (unfold free; cbn; by rewrite lget_lset_eq by lia).
  destruct (DoInsert_spec t1 k v false p)
    as (t' & found & q & Hi & Hq & Hseen & Hat & Hk' & Hv' & Hc' & Hi' & Hs' & Hb');
    [done..|].
  cbn in Hk', Hv', Hc', Hi', Hs', Hb', Hseen, Hq, Hat.
  assert (found = false) as ->.
  { destruct found; [|done]. rewrite lget_lset in Hat by lia.
    case_decide; [congruence|]. by destruct (Hu p q k). }
  exists t', q. split_and!; try done; try lia.
  - intros ->. destruct (decide (dist (capacity_ t) (ScaleHash (capacity_ t) k) p
      < dist (capacity_ t) (ScaleHash (capacity_ t) k) e0)) as [Hd|Hd].
    + exact (proj2 (Hseen p _ Hfp Hd) eq_refl).
    + destruct Hd. apply (Htodo p k); try done. unfold pending.
      clear Hreg Hdone Htodo Hseen. ring_solver.
  - rewrite lget_lset in Hat by lia. case_decide; auto.
  - rewrite Hk'. apply place_reachable; rewrite ?zlen_lset; try done; lia.
Qed.

Lemma maps_move keys values p q k v k' v' :
  zlen keys = zlen values → 0 ≤ p < zlen keys → 0 ≤ q < zlen keys →
  k ≠ empty_key_ → unique keys → lget keys p = Some k → lget values p = Some v →
  q = p ∨ free keys q →
  maps (lset (lset keys p empty_key_) q k) (lset values q v) k' v'
  ↔ maps keys values k' v'.
Proof.
  intros Hl Hp Hq HkE Hu Hk Hv Hqf. unfold maps.
  split; intros (Hk'E & i & Hi & Hvi); split; try done.
  - rewrite lget_lset in Hi by (rewrite zlen_lset; lia).
    rewrite lget_lset in Hvi by lia. case_decide; [naive_solver|].
    rewrite lget_lset in Hi by lia. case_decide; naive_solver.
  - destruct (decide (i = p)) as [->|].
    + exists q. rewrite !lget_lset_eq by (rewrite ?zlen_lset; lia). naive_solver.
    + exists i. rewrite !lget_lset by (rewrite ?zlen_lset; lia).
      unfold free in *. repeat case_decide; naive_solver.
Qed.

(** Slot [p] is not on the path of an entry outside of the pending region. *)
Lemma path_avoids cap h i p e0 b :
  0 ≤ h < cap → 0 ≤ i < cap → 0 ≤ p < cap → 0 ≤ e0 < cap → 0 ≤ b < cap → i ≠ p →
  dist cap h i < dist cap h e0 → dist cap b p < dist cap b e0 →
  ¬ pending cap b p e0 i → dist cap h i < dist cap h p.
Proof. unfold pending. intros. ring_solver. Qed.

(** The region behind [p] is the region from [p] on without [p]. *)
Lemma pending_next cap b p e0 i :
  0 < cap < 2 ^ 32 → 0 ≤ i < cap → 0 ≤ p < cap → 0 ≤ e0 < cap → 0 ≤ b < cap →
  dist cap b p < dist cap b e0 →
  pending cap b (u32 (p + 1) mod cap) e0 i ↔ i ≠ p ∧ pending cap b p e0 i.
Proof.
  unfold pending. intros. split; [intros ?; split; [intros ->|]|intros [??]]; ring_solver.
Qed.

Lemma rehash_arrays t m b p e0 k q keys' : rehashing t m b p e0 →
  lget (keys_ t) p = Some k → k ≠ empty_key_ →
  0 ≤ q < capacity_ t → q ≠ e0 → q = p ∨ free (keys_ t) q →
  keys' = lset (lset (keys_ t) p empty_key_) q k →
  reachable keys' (capacity_ t) q k →
  unique keys' ∧ free keys' e0 ∧
  (∀ i, pending (capacity_ t) b (u32 (p + 1) mod capacity_ t) e0 i → ¬ free keys' i) ∧
  (∀ i x, x ≠ empty_key_ → lget keys' i = Some x →
    ¬ pending (capacity_ t) b (u32 (p + 1) mod capacity_ t) e0 i →
    reachable keys' (capacity_ t) i x) ∧
  (∀ i x, x ≠ empty_key_ → lget keys' i = Some x →
    pending (capacity_ t) b (u32 (p + 1) mod capacity_ t) e0 i →
    ∀ e, free keys' e →
      dist (capacity_ t) b (u32 (p + 1) mod capacity_ t) ≤ dist (capacity_ t) b e →
      dist (capacity_ t) (ScaleHash (capacity_ t) x) i
        < dist (capacity_ t) (ScaleHash (capacity_ t) x) e).
Proof.
  intros [[Hcap Hkl Hvl Hu] Hb Hp He0 Hord Hreg Hdone Htodo _ _ _] Hk HkE Hq Hqe Hqf Hk' Hr.
  pose proof (lget_Some_range _ _ _ He0) as He0r.
  assert (p ≠ e0) by (intros ->; unfold free in He0; congruence).
  assert (dist (capacity_ t) b p < dist (capacity_ t) b e0)
    by (clear Hreg Hdone Htodo; ring_solver).
  assert (∀ i x, lget keys' i = Some x → i = q ∧ x = k ∨
            i ≠ q ∧ (i = p ∧ x = empty_key_ ∨ i ≠ p ∧ lget (keys_ t) i = Some x)) as Hnew.
  { intros i x. rewrite Hk', lget_lset by (rewrite zlen_lset; lia).
    case_decide; [naive_solver|]. rewrite lget_lset by lia. case_decide; naive_solver. }
  assert (∀ i x, lget keys' i = Some x → 0 ≤ i < capacity_ t) as Hrange.
  { intros i x Hi%lget_Some_range. rewrite Hk', !zlen_lset in Hi. lia. }
  unfold free in *. split_and!.
  - intros i j x HE Hi Hj. apply Hnew in Hi, Hj. naive_solver.
  - rewrite Hk', !lget_lset_ne; done.
  - intros i Hpn Hi. pose proof (Hrange _ _ Hi). apply pending_next in Hpn; try lia.
    apply Hnew in Hi. naive_solver.
  - intros i x HE Hi Hpn. pose proof (Hrange _ _ Hi).
    rewrite pending_next in Hpn by lia.
    apply Hnew in Hi as [[-> ->]|(? & [[-> ->]|[Hip Hi]])]; [done..|].
    assert (¬ pending (capacity_ t) b p e0 i) as Hnp by naive_solver.
    intros e He. apply Hnew in He as [[-> ->]|(? & [[-> _]|[? He]])]; [done| |].
    + apply (path_avoids _ _ _ _ e0 b); try lia; [apply ScaleHash_range; lia| |done].
      by apply Hdone.
    + by apply Hdone.
  - intros i x HE Hi Hpn e He Hbe. pose proof (Hrange _ _ Hi).
    apply pending_next in Hpn as [Hip Hpn]; try lia.
    assert (e ≠ p) by (intros ->; clear Hreg Hdone Htodo Hnew Hrange; ring_solver).
    apply Hnew in Hi as [[-> ->]|(? & [[-> ->]|[_ Hi]])]; [naive_solver..|].
    pose proof (Hrange _ _ He).
    apply Hnew in He as [[-> ->]|(? & [[-> _]|[_ He]])]; [done..|].
    apply Htodo; try done. clear Hreg Hdone Htodo Hnew Hrange. ring_solver.
Qed.

Lemma rehash_step t m b p e0 k v : rehashing t m b p e0 →
  lget (keys_ t) p = Some k → k ≠ empty_key_ → lget (values_ t) p = Some v →
  ∃ t', DoInsert (set_keys t (lset (keys_ t) p empty_key_)) k v false = Ret (t', false) ∧
    rehashing t' m b (u32 (p + 1) mod capacity_ t) e0 ∧
    capacity_ t' = capacity_ t ∧ initial_capacity_ t' = initial_capacity_ t ∧
    bytes_allocated_ t' = bytes_allocated_ t.
Proof.
  intros Hrh Hk HkE Hv.
  destruct (rehash_insert t m b p e0 k v)
    as (t' & q & Hi & Hq & Hqe & Hqf & Hk' & Hv' & Hr & Hc' & Hi' & Hs' & Hb'); auto.
  destruct (rehash_arrays t m b p e0 k q (keys_ t'))
    as (Hu' & He0' & Hreg' & Hdone' & Htodo'); auto.
  exists t'. split; [done|]. split; [|done].
  destruct Hrh as [[Hcap Hkl Hvl Hu] Hb Hp He0 Hord _ _ _ Hmaps Hused Hsize].
  pose proof (lget_Some_range _ _ _ He0) as He0r.
  split; rewrite ?Hc'; try done.
  - split; rewrite ?Hc', ?Hv'; rewrite ?Hk', ?zlen_lset; try done. by rewrite <- Hk'.
  - apply Z.mod_pos_bound. lia.
  - assert (p ≠ e0) by (intros ->; unfold free in He0; congruence). ring_solver.
  - intros k' v'. rewrite Hk', Hv', maps_move; eauto; lia.
  - pose proof (used_slots_lset (keys_ t) p empty_key_ _ Hk).
    assert (lget (lset (keys_ t) p empty_key_) q = Some empty_key_) as Hqat.
    { destruct (decide (p = q)); [subst; by rewrite lget_lset_eq by lia|].
      rewrite lget_lset_ne by done. destruct Hqf; [congruence|done]. }
    pose proof (used_slots_lset _ q k _ Hqat). rewrite Hk'.
    repeat case_decide; try done; lia.
  - congruence.
Qed.

Lemma rehash_loop_spec m b e0 : ∀ fuel t p, rehashing t m b p e0 →
  (Z.to_nat (dist (capacity_ t) b e0 - dist (capacity_ t) b p) < fuel)%nat →
  ∃ t', rehash_loop fuel t p = Ret t' ∧ represents t' m ∧
    capacity_ t' = capacity_ t ∧ initial_capacity_ t' = initial_capacity_ t ∧
    bytes_allocated_ t' = bytes_allocated_ t.
Proof.
  intros fuel. induction fuel as [|fuel IH]; intros t p Hrh Hfuel; [lia|].
  pose proof Hrh as [[Hcap Hkl Hvl _] Hb Hp He0 Hord _ _ _ _ _ _].
  pose proof (lget_Some_range _ _ _ He0) as He0r.
  destruct (lget_in_range (keys_ t) p) as [k Hk]; [lia|].
  destruct (lget_in_range (values_ t) p) as [v Hv]; [lia|].
  simpl. rewrite (proj2 (rd_Ret _ _ _) Hk). cbn. case_decide as HkE.
  { subst. exists t. split; [done|]. split; [by eapply rehashing_done|done]. }
  rewrite wr_in_range by lia. cbn. rewrite (proj2 (rd_Ret _ _ _) Hv). cbn.
  destruct (rehash_step t m b p e0 k v) as (t' & Hi & Hrh' & Hc' & Hi' & Hb'); auto.
  rewrite Hi. cbn. assert (p ≠ e0) by (intros ->; unfold free in He0; congruence).
  destruct (IH t' (u32 (p + 1) mod capacity_ t')) as (t'' & Hl & Hrep & ? & ? & ?).
  - by rewrite Hc'.
  - rewrite Hc'. clear IH. ring_solver.
  - exists t''. rewrite Hl. split; [done|]. split; [done|]. split_and!; congruence.
Qed.

Lemma first_free keys cap b : 0 ≤ b < cap → zlen keys = cap → ∀ e, free keys e →
  ∃ e0, free keys e0 ∧ ∀ s, free keys s → dist cap b e0 ≤ dist cap b s.
Proof.
  intros Hb Hlen e. remember (Z.to_nat (dist cap b e)) as n eqn:Hn. revert e Hn.
  induction n as [n IH] using lt_wf_ind. intros e Hn He.
  destruct (decide (Exists (λ s, lget keys s = Some empty_key_ ∧ dist cap b s < dist cap b e)
                      (seqZ 0 cap))) as [Hex|Hno].
  - apply Exists_exists in Hex as (s & _ & Hs & Hlt). apply (IH (Z.to_nat (dist cap b s))) with (e := s); try done.
    apply lget_Some_range in Hs. pose proof (Z.mod_pos_bound (s - b) cap ltac:(lia)).
    unfold dist in *. lia.
  - exists e. split; [done|]. intros s Hs. destruct (decide (dist cap b s < dist cap b e)); [|lia].
    destruct Hno. apply Exists_exists. exists s. split; [|done].
    apply lget_Some_range in Hs. apply elem_of_seqZ. lia.
Qed.

Lemma maps_erase keys values b key k v : unique keys → 0 ≤ b < zlen keys →
  lget keys b = Some key → key ≠ empty_key_ →
  maps (lset keys b empty_key_) values k v ↔ k ≠ key ∧ maps keys values k v.
Proof.
  intros Hu Hb Hkey HE. unfold maps. split.
  - intros (HkE & i & Hi & Hv). rewrite lget_lset in Hi by lia.
    case_decide as Hbi; [naive_solver|]. split; [|eauto].
    intros ->. apply Hbi. eauto.
  - intros (Hne & HkE & i & Hi & Hv). split; [done|]. exists i.
    rewrite lget_lset_ne; [done|]. intros ->. naive_solver.
Qed.

(** Clearing the slot of a key opens the rehash. *)
Lemma erase_start t m key b e : represents t m → lget (keys_ t) b = Some key →
  key ≠ empty_key_ → free (keys_ t) e →
  ∃ e0, rehashing (set_size (set_keys t (lset (keys_ t) b empty_key_)) (u32 (size_ t - 1)))
          (delete key m) b (u32 (b + 1) mod capacity_ t) e0.
Proof.
  intros [[Hcap Hkl Hvl Hu] Hreach Hmaps Hused Hsize] Hb HE He.
  pose proof (lget_Some_range _ _ _ Hb) as Hbr.
  destruct (first_free (keys_ t) (capacity_ t) b ltac:(lia) Hkl e He) as (e0 & He0 & Hmin).
  pose proof (lget_Some_range _ _ _ He0) as He0r.
  assert (b ≠ e0) by (intros ->; unfold free in He0; congruence).
  assert (dist (capacity_ t) b b < dist (capacity_ t) b e0) by (clear Hmin; ring_solver).
  assert (∀ i x, lget (lset (keys_ t) b empty_key_) i = Some x →
            i = b ∧ x = empty_key_ ∨ i ≠ b ∧ lget (keys_ t) i = Some x ∧ 0 ≤ i < capacity_ t)
    as Hnew.
  { intros i x Hi. pose proof (lget_Some_range _ _ _ Hi). rewrite zlen_lset in *.
    rewrite lget_lset in Hi by lia. case_decide; [naive_solver|]. right. split_and!; auto; lia. }
  assert (is_Some (m !! key)) as Hin.
  { destruct (lget_in_range (values_ t) b) as [v Hv]; [lia|].
    exists v. apply Hmaps. split; eauto. }
  pose proof (map_size_ne_0_lookup_2 _ _ Hin).
  exists e0. split; cbn; unfold free in *.
  - split; cbn; rewrite ?zlen_lset; try done.
    intros i j x HxE Hi Hj. apply Hnew in Hi, Hj. naive_solver.
  - lia.
  - apply Z.mod_pos_bound. lia.
  - by rewrite lget_lset_ne.
  - clear Hmin. ring_solver.
  - intros i Hpn Hi. pose proof (lget_Some_range _ _ _ Hi). rewrite zlen_lset in *.
    apply pending_next in Hpn as [Hib [_ Hpn]]; try lia.
    rewrite lget_lset_ne in Hi by done. specialize (Hmin i Hi). lia.
  - intros i x HxE Hi Hpn. apply Hnew in Hi as [[-> ->]|(Hib & Hi & Hir)]; [done|].
    rewrite pending_next in Hpn by lia. intros e' He'.
    apply Hnew in He' as [[-> _]|(_ & He' & _)]; [|by apply Hreach].
    apply (path_avoids _ _ _ _ e0 b); try lia; [apply ScaleHash_range; lia| |naive_solver].
    by apply Hreach.
  - intros i x HxE Hi Hpn e' He' Hd. apply Hnew in Hi as [[-> ->]|(Hib & Hi & Hir)]; [done|].
    apply Hnew in He' as [[-> _]|(_ & He' & _)]; [|by apply Hreach].
    clear Hmin Hpn. ring_solver.
  - intros k v. rewrite maps_erase, lookup_delete_Some, Hmaps by (done || lia). naive_solver.
  - pose proof (used_slots_lset (keys_ t) b empty_key_ _ Hb).
    rewrite map_size_delete_Some by done. repeat case_decide; try done; lia.
  - rewrite map_size_delete_Some by done. pose proof (used_slots_le (keys_ t)).
    rewrite Hsize, u32_small; unfold is_u32; lia.
Qed.

Lemma EraseNoShrink_map t m key : represents t m → key ≠ empty_key_ →
  Z.of_nat (size m) < capacity_ t →
  ∃ t', EraseNoShrink t key = Ret (t', bool_decide (is_Some (m !! key))) ∧
    represents t' (delete key m) ∧
    capacity_ t' = capacity_ t ∧ initial_capacity_ t' = initial_capacity_ t ∧
    bytes_allocated_ t' = bytes_allocated_ t.
Proof.
  intros Hrep Hkey Hlt. destruct (represents_free _ _ Hrep Hlt) as [e He].
  destruct (DoLookup_map t m key) as (found & r & c & Hl & Hr & Hat & Hm); auto.
  unfold EraseNoShrink. rewrite Hl. cbn. destruct found.
  2: { rewrite Hm, delete_id by done. by exists t. }
  destruct Hm as (v & Hv & Hm).
  pose proof (shape_keys _ (rep_shape _ _ Hrep)).
  rewrite wr_in_range by lia. cbn.
  destruct (erase_start t m key r e) as [e0 Hrh]; auto.
  destruct (rehash_loop_spec _ _ _ (Z.to_nat (capacity_ t)) _ _ Hrh)
    as (t' & Hloop & Hrep' & ?).
  { destruct Hrh as [[Hcap Hkl Hvl _] Hb Hp He0 Hord _ _ _ _ _ _]. cbn in *.
    apply lget_Some_range in He0. rewrite zlen_lset in *. ring_solver. }
  rewrite Hloop. exists t'. rewrite Hm. done.
Qed.

(** *** Empty tables *)

Lemma used_slots_clear (keys : list Key) : used_slots ((λ _, empty_key_) <$> keys) = 0.
Proof.
  unfold used_slots, zlen. induction keys as [|k keys IH]; [done|]. rewrite fmap_cons, filter_cons.
  case_decide; [done|]. done.
Qed.

Lemma ClearKeys_map t : 0 < capacity_ t < 2 ^ 32 → zlen (keys_ t) = capacity_ t →
  zlen (values_ t) = capacity_ t → represents (ClearKeys t) ∅.
Proof.
  intros Hcap Hk Hv.
  assert (∀ i k, lget ((λ _, empty_key_) <$> keys_ t) i = Some k → k = empty_key_) as Hall.
  { intros i k (? & -> & _)%lget_elem_of%list_elem_of_fmap. done. }
  split; cbn.
  - split; cbn; try done.
    + unfold zlen in *. by rewrite length_fmap.
    + intros i j k HE Hi _. by apply Hall in Hi.
  - intros i k HE Hi. by apply Hall in Hi.
  - intros k v. rewrite lookup_empty. split; [done|].
    intros (HE & i & Hi & _). by apply Hall in Hi.
  - by rewrite used_slots_clear, map_size_empty.
  - by rewrite map_size_empty.
Qed.

Lemma fresh_map t : 0 < capacity_ t < 2 ^ 32 → represents (ClearKeys (AllocMemory t)) ∅.
Proof.
  intros. apply ClearKeys_map; unfold zlen; cbn; rewrite ?length_replicate; lia.
Qed.

Lemma FixedInit_map n : 0 < scaled_capacity n → represents (FixedInit n) ∅ ∧
  capacity_ (FixedInit n) = scaled_capacity n ∧
  initial_capacity_ (FixedInit n) = scaled_capacity n.
Proof.
  intros Hpos. split; [|done]. apply fresh_map. split; [done|]. apply u32_range.
Qed.

(** *** Migration *)

Lemma Next_range prng n : 0 < n < 2 ^ 32 → 0 ≤ (Prng.Next prng n).2 < n.
Proof.
  intros. cbn -[Z.modulo]. set (x := u64 _). pose proof (Z.mod_pos_bound x n).
  rewrite u32_small; unfold is_u32; lia.
Qed.

(** Exchanging two elements permutes a list. *)
Lemma swap_perm (l : list Z) i j x y : lget l i = Some x → lget l j = Some y →
  lset (lset l i y) j x ≡ₚ l.
Proof.
  unfold lget, lset. repeat case_decide; try done. intros Hx Hy.
  by rewrite Permutation_insert_swap.
Qed.

Lemma shuffle_loop_perm N : 0 < N < 2 ^ 32 → ∀ n i prng l,
  0 ≤ i → i + Z.of_nat n ≤ N - 1 → zlen l = N →
  ∃ l' prng', shuffle_loop n N i prng l = Ret (l', prng') ∧ l' ≡ₚ l.
Proof.
  intros HN n. induction n as [|n IH]; intros i prng l Hi Hn Hl.
  { by exists l, prng. }
  cbn [shuffle_loop]. pose proof (Next_range prng (u32 (N - i))) as Hnext.
  rewrite u32_small in Hnext by (unfold is_u32; lia).
  rewrite (u32_small (N - i)) by (unfold is_u32; lia).
  destruct (Prng.Next prng (N - i)) as [prng' r]. cbn in Hnext. cbv beta iota zeta.
  rewrite (u32_small (i + r)), (u32_small (i + 1)) by (unfold is_u32; lia).
  destruct (lget_in_range l i) as [x Hx]; [lia|].
  destruct (lget_in_range l (i + r)) as [y Hy]; [lia|].
  rewrite (proj2 (rd_Ret _ _ _) Hx), (proj2 (rd_Ret _ _ _) Hy). cbn.
  rewrite wr_in_range by lia. cbn. rewrite wr_in_range by (rewrite zlen_lset; lia). cbn.
  destruct (IH (i + 1) prng' (lset (lset l i y) (i + r) x)) as (l' & p' & Hl' & Hp);
    [lia..|by rewrite !zlen_lset|].
  exists l', p'. split; [done|]. rewrite Hp. by apply swap_perm.
Qed.

Lemma ShuffleIndices_perm N prng : 0 < N < 2 ^ 32 →
  ∃ l prng', ShuffleIndices N prng = Ret (l, prng') ∧ l ≡ₚ seqZ 0 N.
Proof.
  intros. apply shuffle_loop_perm; [done|lia| |].
  - rewrite u32_small; unfold is_u32; lia.
  - unfold zlen. rewrite length_seqZ. lia.
Qed.

(** Below the threshold, an insertion does not migrate. *)
Lemma DynInsert_room n d m k v : represents (base d) m → k ≠ empty_key_ →
  Z.of_nat (size m) ≤ threshold_grow_ d → Z.of_nat (size m) < capacity_ (base d) →
  ∃ t, DynInsert (S n) d k v = Ret (set_base d t) ∧ represents t (<[k := v]> m) ∧
    capacity_ t = capacity_ (base d) ∧ initial_capacity_ t = initial_capacity_ (base d).
Proof.
  intros Hrep HkE Hthr Hcap. cbn [DynInsert]. unfold Grow.
  rewrite (rep_size _ _ Hrep), Z.gtb_ltb, (proj2 (Z.ltb_ge _ _)) by lia. cbn.
  destruct (InsertNoGrow_map (base d) m k v) as (t & Hi & Hr & Hc & Hic & _); [done..|lia|].
  rewrite Hi. by exists t.
Qed.

#[local] Arguments DynInsert : simpl never.

Lemma insert_all_map n keys values m : unique keys → zlen keys = zlen values →
  (∀ k v, m !! k = Some v ↔ maps keys values k v) →
  ∀ indices d mc, represents (base d) mc → mc ⊆ m →
    Z.of_nat (size m) ≤ threshold_grow_ d → Z.of_nat (size m) < capacity_ (base d) →
    (∀ i, i ∈ indices → 0 ≤ i < zlen keys) →
    ∃ t mc', insert_all (DynInsert (S n)) keys values indices d = Ret (set_base d t) ∧
      represents t mc' ∧ mc ⊆ mc' ∧ mc' ⊆ m ∧
      (∀ i k v, i ∈ indices → k ≠ empty_key_ → lget keys i = Some k →
         lget values i = Some v → mc' !! k = Some v) ∧
      capacity_ t = capacity_ (base d) ∧
      initial_capacity_ t = initial_capacity_ (base d).
Proof.
  intros Hu Hlen Hm indices. induction indices as [|i indices IH];
    intros d mc Hrep Hsub Hthr Hcap Hrange.
  { exists (base d), mc. split; [by destruct d|]. split_and!; try done. set_solver. }
  simpl. destruct (lget_in_range keys i) as [k Hk]; [apply Hrange; set_solver|].
  destruct (lget_in_range values i) as [v Hv]; [rewrite <- Hlen; apply Hrange; set_solver|].
  rewrite (proj2 (rd_Ret _ _ _) Hk). cbn. case_decide as HkE.
  { destruct (IH d mc) as (t & mc' & Hi & Hr & H1 & H2 & H3 & H4 & H5); try done; [set_solver|].
    exists t, mc'. split_and!; try done. intros j k' v' [->|Hj]%elem_of_cons; naive_solver. }
  rewrite (proj2 (rd_Ret _ _ _) Hv). cbn. pose proof (map_subseteq_size _ _ Hsub).
  destruct (DynInsert_room n d mc k v) as (t1 & Hi1 & Hr1 & Hc1 & Hic1); [done..|lia|lia|].
  rewrite Hi1. cbn.
  assert (m !! k = Some v) as Hmk by (apply Hm; split; eauto).
  destruct (IH (set_base d t1) (<[k:=v]> mc)) as (t & mc' & Hi & Hr & H1 & H2 & H3 & H4 & H5).
  - done.
  - by apply insert_subseteq_l.
  - done.
  - cbn. lia.
  - set_solver.
  - cbn in H4, H5. exists t, mc'. rewrite Hi. split; [done|]. split; [done|].
    assert (mc' !! k = Some v) as Hk'.
    { eapply lookup_weaken; [|done]. apply lookup_insert_eq. }
    split; [|split_and!; try done; try lia].
    + apply map_subseteq_spec. intros k' v' Hk''.
      destruct (decide (k' = k)) as [->|].
      * pose proof (lookup_weaken _ _ _ _ Hk'' Hsub). congruence.
      * eapply lookup_weaken; [|done]. by rewrite lookup_insert_ne.
    + intros j k' v' [->|Hj]%elem_of_cons; naive_solver.
Qed.

Lemma Migrate_map n d m c : represents (base d) m → 0 < c < 2 ^ 32 →
  Z.of_nat (size m) ≤ c * 3 / 4 → Z.of_nat (size m) < c →
  ∃ d', Migrate (DynInsert (S n)) d c = Ret d' ∧ represents (base d') m ∧
    capacity_ (base d') = c ∧
    initial_capacity_ (base d') = initial_capacity_ (base d) ∧
    threshold_grow_ d' = c * 3 / 4 ∧ threshold_shrink_ d' = c / 4 ∧
    num_migrates_ d' = u32 (num_migrates_ d + 1).
Proof.
  intros Hrep Hc Hthr Hroom. pose proof Hrep as [[Hcap Hkl Hvl Hu] _ Hmaps _ Hsize].
  unfold Migrate, SetThresholds. cbn [base set_base capacity_ num_migrates_ threshold_grow_
    threshold_shrink_ g_prng]. set (t0 := ClearKeys _).
  assert (represents t0 ∅) as Hrep0 by (by apply fresh_map).
  assert (u32 (c * 3 / 4) = c * 3 / 4) as Hg by (apply u32_small; words).
  assert (u32 (c / 4) = c / 4) as Hsh by (apply u32_small; words).
  assert (∃ l prng, (if c <? capacity_ (base d)
            then ShuffleIndices (capacity_ (base d)) (g_prng d)
            else Ret (seqZ 0 (capacity_ (base d)), g_prng d)) = Ret (l, prng)
          ∧ l ≡ₚ seqZ 0 (capacity_ (base d))) as (l & prng & Hl & Hperm).
  { destruct (c <? _); [by apply ShuffleIndices_perm|by do 2 eexists]. }
  set (d0 := DynTable t0 (num_migrates_ d) (u32 (c * 3 / 4)) (u32 (c / 4)) prng).
  destruct (insert_all_map n (keys_ (base d)) (values_ (base d)) m) with
    (indices := l) (d := d0) (mc := ∅ : gmap Key Value)
    as (t & m' & Hi & Hr & _ & Hsub & Hall & Hc' & Hic'); try done; [lia|
      apply map_empty_subseteq|change (Z.of_nat (size m) ≤ u32 (c * 3 / 4)); by rewrite Hg| |].
  { intros i Hin. rewrite Hperm, elem_of_seqZ in Hin. lia. }
  assert (m' = m) as ->.
  { apply (anti_symm (⊆)); [done|]. apply map_subseteq_spec. intros k v Hk.
    apply Hmaps in Hk as (HkE & i & Hi' & Hv). apply (Hall i k v); try done.
    apply lget_Some_range in Hi'. rewrite Hperm, elem_of_seqZ. lia. }
  exists (DynTable t (u32 (num_migrates_ d + 1)) (u32 (c * 3 / 4)) (u32 (c / 4)) prng).
  split; [|by rewrite Hg, Hsh].
  match goal with |- (?x ≫= _) = _ => assert (x = Ret (set_base d0 t)) as -> end.
  { destruct (c <? capacity_ (base d)); [rewrite Hl|]; simplify_eq; exact Hi. }
  cbn. rewrite (rep_size _ _ Hr), Hsize, Z.eqb_refl. done.
Qed.

(** The invariant of a dynamic table.  From five slots on, the growth
    threshold leaves a free slot. *)
Record dyn_represents (d : dyntable) (m : gmap Key Value) : Prop := {
  dyn_rep : represents (base d) m;
  dyn_initial : 5 ≤ initial_capacity_ (base d) ≤ capacity_ (base d);
  dyn_grow : threshold_grow_ d = capacity_ (base d) * 3 / 4;
  dyn_shrink : threshold_shrink_ d = capacity_ (base d) / 4;
  dyn_load : Z.of_nat (size m) ≤ threshold_grow_ d + 1
}.

Lemma dyn_room d m : dyn_represents d m → Z.of_nat (size m) < capacity_ (base d).
Proof. intros [Hrep Hi Hg Hs Hl]. rewrite Hg in Hl. words. Qed.

Lemma Grow_map n d m : dyn_represents d m → Z.of_nat (size m) ≤ 2 ^ 30 →
  ∃ d', Grow (DynInsert (S n)) d = Ret d' ∧ dyn_represents d' m ∧
    Z.of_nat (size m) ≤ threshold_grow_ d' ∧
    initial_capacity_ (base d') = initial_capacity_ (base d).
Proof.
  intros Hd Hsz. pose proof (dyn_room _ _ Hd) as Hroom.
  pose proof Hd as [Hrep Hi Hg Hs Hl]. unfold Grow.
  rewrite (rep_size _ _ Hrep), Z.gtb_ltb. destruct (Z.ltb_spec (threshold_grow_ d) (Z.of_nat (size m))) as [Hlt|Hge].
  2: { exists d. done. }
  rewrite Hg in Hlt. change (2 ^ 30) with 1073741824 in *.
  assert (is_u32 (capacity_ (base d) * 2)) as Hu by words.
  rewrite u32_small by done.
  destruct (Migrate_map n d m (capacity_ (base d) * 2))
    as (d' & Hm & Hr' & Hc' & Hic' & Hg' & Hs' & _); [done|destruct Hu; lia|words|lia|].
  exists d'. split; [done|]. split; [|split; [rewrite Hg'; words|done]].
  split; rewrite ?Hc', ?Hic'; try done; [lia|rewrite Hg'; words].
Qed.

Lemma DynInsert_map n d m key v : dyn_represents d m → key ≠ empty_key_ →
  Z.of_nat (size m) ≤ 2 ^ 30 →
  ∃ d', DynInsert (S (S n)) d key v = Ret d' ∧ dyn_represents d' (<[key := v]> m) ∧
    initial_capacity_ (base d') = initial_capacity_ (base d).
Proof.
  intros Hd HkE Hsz.
  destruct (Grow_map n d m Hd Hsz) as (d1 & Hgrow & Hd1 & Hthr & Hic).
  pose proof (dyn_room _ _ Hd1) as Hroom. pose proof Hd1 as [Hrep Hi Hg Hs Hl].
  destruct (InsertNoGrow_map (base d1) m key v) as (t & Hins & Hr & Hc & Hict & _); [done..|].
  exists (set_base d1 t). split.
  { change (DynInsert (S (S n)) d key v) with (d ← Grow (DynInsert (S n)) d;
      t ← InsertNoGrow (base d) key v; Ret (set_base d t)). rewrite Hgrow. cbn. by rewrite Hins. }
  split; [|cbn; congruence].
  split; cbn; rewrite ?Hc, ?Hict; try done.
  rewrite map_size_insert. destruct (m !! key); cbn; lia.
Qed.

Lemma DynErase_map n d m key : dyn_represents d m → key ≠ empty_key_ →
  ∃ d', DynErase (S n) d key = Ret (d', bool_decide (is_Some (m !! key))) ∧
    dyn_represents d' (delete key m) ∧
    initial_capacity_ (base d') = initial_capacity_ (base d).
Proof.
  intros Hd HkE. pose proof (dyn_room _ _ Hd) as Hroom. pose proof Hd as [Hrep Hi Hg Hs Hl].
  destruct (EraseNoShrink_map (base d) m key) as (t & He & Hr & Hc & Hic & _); [done..|].
  unfold DynErase. rewrite He. cbn. set (m' := delete key m) in *.
  assert (size m' ≤ size m)%nat as Hsz
    by (apply map_subseteq_size, delete_subseteq).
  assert (dyn_represents (set_base d t) m') as Hd'
    by (split; cbn; rewrite ?Hc, ?Hic; try done; lia).
  case_bool_decide; cbn; [|by exists (set_base d t)].
  unfold Shrink. cbn. rewrite (rep_size _ _ Hr), Hc, Hic.
  destruct (Z.ltb_spec (Z.of_nat (size m')) (threshold_shrink_ d)) as [Hlt|]; [|by exists (set_base d t)].
  destruct (Z.geb_spec (capacity_ (base d) / 2) (initial_capacity_ (base d)));
    [|by exists (set_base d t)].
  pose proof (shape_cap _ (rep_shape _ _ Hrep)). rewrite Hs in Hlt.
  destruct (Migrate_map n (set_base d t) m' (capacity_ (base d) / 2))
    as (d' & Hm & Hr' & Hc' & Hic' & Hg' & Hs' & _); [done|words..|].
  exists d'. rewrite Hm. split; [done|]. cbn in Hic'. split; [|congruence].
  split; rewrite ?Hc', ?Hic', ?Hic; try done; [lia|rewrite Hg'; words].
Qed.

(** *** Remaining operations *)

Lemma Contains_map t m key : represents t m → key ≠ empty_key_ →
  Z.of_nat (size m) < capacity_ t →
  Contains t key = Ret (bool_decide (is_Some (m !! key))).
Proof.
  intros Hrep Hkey Hlt.
  destruct (DoLookup_map t m key) as (found & r & c & Hl & _ & _ & Hm); auto.
  unfold Contains. rewrite Hl. cbn. destruct found.
  - destruct Hm as (v & _ & ->). done.
  - by rewrite Hm.
Qed.

(** The loop of [LookupEx] follows the one of [DoLookup]. *)
Lemma lookup_ex_probe t key : ∀ fuel bucket c,
  lookup_ex_loop fuel t key bucket =
  ('(found, r, _) ← probe fuel (keys_ t) (capacity_ t) key bucket c;
   if found : bool then v ← rd (values_ t) r; Ret (Some (key, v)) else Ret None).
Proof.
  intros fuel. induction fuel as [|fuel IH]; intros bucket c; [done|].
  simpl. destruct (rd (keys_ t) bucket) as [k|f]; [|done]. cbn.
  repeat case_decide; subst; cbn; auto.
Qed.

Lemma LookupEx_map t m key : represents t m → key ≠ empty_key_ →
  Z.of_nat (size m) < capacity_ t →
  LookupEx t key = Ret ((λ v, (key, v)) <$> m !! key).
Proof.
  intros Hrep Hkey Hlt. unfold LookupEx. rewrite (lookup_ex_probe t key _ _ 0).
  destruct (DoLookup_map t m key) as (found & r & c & Hl & _ & _ & Hm); auto.
  unfold DoLookup in Hl. rewrite Hl. cbn. destruct found; [|by rewrite Hm].
  destruct Hm as (v & Hv & ->). by rewrite (proj2 (rd_Ret _ _ _) Hv).
Qed.

Lemma FixedClear_map t m : represents t m →
  represents (FixedClear t) ∅ ∧ capacity_ (FixedClear t) = capacity_ t.
Proof. intros [[Hcap Hk Hv Hu] _ _ _ _]. split; [by apply ClearKeys_map|done]. Qed.

Lemma DynClear_map d m : dyn_represents d m → dyn_represents (DynClear d) ∅ ∧
  initial_capacity_ (base (DynClear d)) = initial_capacity_ (base d).
Proof.
  intros [Hrep Hi Hg Hs Hl]. pose proof (shape_cap _ (rep_shape _ _ Hrep)).
  split; [|done]. split; cbn.
  - apply (fresh_map (Table _ _ (initial_capacity_ (base d)) _ _ _ _ _)). cbn. lia.
  - lia.
  - apply u32_small. words.
  - apply u32_small. words.
  - rewrite map_size_empty, u32_small; words.
Qed.

Lemma DynInit_map n prng : 5 ≤ scaled_capacity n → dyn_represents (DynInit n prng) ∅.
Proof.
  intros Hn. destruct (FixedInit_map n) as (Hrep & Hc & Hic); [lia|].
  pose proof (u32_range (n * 4 / 3)) as Hr. fold (scaled_capacity n) in Hr.
  unfold DynInit, SetThresholds.
  split; cbn [base threshold_grow_ threshold_shrink_]; rewrite ?Hc, ?Hic; try done.
  - apply u32_small. words.
  - apply u32_small. words.
  - rewrite map_size_empty, u32_small; words.
Qed.

Lemma FixedInsert_map t m k v : represents t m → k ≠ empty_key_ →
  Z.of_nat (size m) < capacity_ t →
  ∃ t', FixedInsert t k v = Ret t' ∧ represents t' (<[k := v]> m) ∧
    capacity_ t' = capacity_ t.
Proof. intros. destruct (InsertNoGrow_map t m k v) as (t' & ? & ? & ? & _); eauto. Qed.

Lemma FixedErase_map t m k : represents t m → k ≠ empty_key_ →
  Z.of_nat (size m) < capacity_ t →
  ∃ t', FixedErase t k = Ret (t', bool_decide (is_Some (m !! k))) ∧
    represents t' (delete k m) ∧ capacity_ t' = capacity_ t.
Proof. intros. destruct (EraseNoShrink_map t m k) as (t' & ? & ? & ? & _); eauto. Qed.

Lemma FixedInit_slots n : 3 ≤ n < 2 ^ 31 →
  represents (FixedInit n) ∅ ∧ n < capacity_ (FixedInit n).
Proof.
  intros Hn. assert (n < scaled_capacity n) by (unfold scaled_capacity; words).
  destruct (FixedInit_map n) as (Hr & Hc & _); [lia|]. by rewrite Hc.
Qed.

(** [SmallHashFixed] is a bounded map. *)
Definition fixed_bounded_map : BoundedMap Key Value table := {|
  bm_empty_key := empty_key_;
  bm_slots := capacity_;
  bm_bytes_allocated := bytes_allocated_;
  bm_init := FixedInit;
  bm_lookup := Lookup;
  bm_insert := FixedInsert;
  bm_erase := FixedErase;
  bm_clear := FixedClear;
  bm_represents := represents;
  bm_init_ok := FixedInit_slots;
  bm_lookup_ok := Lookup_map;
  bm_insert_ok := FixedInsert_map;
  bm_erase_ok := FixedErase_map;
  bm_clear_ok := FixedClear_map
|}.

(** ** Sequences of operations *)

Inductive op :=
| OpLookup (k : Key)
| OpContains (k : Key)
| OpLookupEx (k : Key)
| OpInsert (k : Key) (v : Value)
| OpErase (k : Key)
| OpClear.

Inductive reply :=
| RValue (v : option Value)
| REntry (e : option (Key * Value))
| RBool (b : bool)
| RVoid.

Definition op_key (o : op) : option Key :=
  match o with
  | OpLookup k | OpContains k | OpLookupEx k | OpInsert k _ | OpErase k => Some k
  | OpClear => None
  end.

(** The specification: a finite map. *)
Definition spec_step (m : gmap Key Value) (o : op) : gmap Key Value * reply :=
  match o with
  | OpLookup k => (m, RValue (m !! k))
  | OpContains k => (m, RBool (bool_decide (is_Some (m !! k))))
  | OpLookupEx k => (m, REntry ((λ v, (k, v)) <$> m !! k))
  | OpInsert k v => (<[k := v]> m, RVoid)
  | OpErase k => (delete k m, RBool (bool_decide (is_Some (m !! k))))
  | OpClear => (∅, RVoid)
  end.

Fixpoint spec_run (m : gmap Key Value) (ops : list op) : gmap Key Value * list reply :=
  match ops with
  | [] => (m, [])
  | o :: ops =>
      let '(m, r) := spec_step m o in
      let '(m, rs) := spec_run m ops in (m, r :: rs)
  end.

Definition fixed_step (t : table) (o : op) : outcome (table * reply) :=
  match o with
  | OpLookup k => v ← Lookup t k; Ret (t, RValue v)
  | OpContains k => b ← Contains t k; Ret (t, RBool b)
  | OpLookupEx k => e ← LookupEx t k; Ret (t, REntry e)
  | OpInsert k v => t ← FixedInsert t k v; Ret (t, RVoid)
  | OpErase k => '(t, b) ← FixedErase t k; Ret (t, RBool b)
  | OpClear => Ret (FixedClear t, RVoid)
  end.

(** Two levels of nesting: the operation and the insertions of the
    migration that it may trigger. *)
Definition dyn_step (d : dyntable) (o : op) : outcome (dyntable * reply) :=
  match o with
  | OpLookup k => v ← Lookup (base d) k; Ret (d, RValue v)
  | OpContains k => b ← Contains (base d) k; Ret (d, RBool b)
  | OpLookupEx k => e ← LookupEx (base d) k; Ret (d, REntry e)
  | OpInsert k v => d ← DynInsert 2 d k v; Ret (d, RVoid)
  | OpErase k => '(d, b) ← DynErase 1 d k; Ret (d, RBool b)
  | OpClear => Ret (DynClear d, RVoid)
  end.

Fixpoint run {S} (step : S → op → outcome (S * reply)) (s : S) (ops : list op)
    : outcome (S * list reply) :=
  match ops with
  | [] => Ret (s, [])
  | o :: ops =>
      '(s, r) ← step s o;
      '(s, rs) ← run step s ops;
      Ret (s, r :: rs)
  end.

Definition keys_ok (ops : list op) : Prop :=
  Forall (λ o, op_key o ≠ Some empty_key_) ops.

Definition is_insert (o : op) : bool :=
  match o with OpInsert _ _ => true | _ => false end.

(** Entries that a sequence can add at most. *)
Definition inserts (ops : list op) : Z := zlen (filter (λ o, is_insert o = true) ops).

Lemma spec_step_size m o : Z.of_nat (size (spec_step m o).1)
  ≤ Z.of_nat (size m) + inserts [o].
Proof.
  assert (inserts [o] = if is_insert o then 1 else 0) as -> by by destruct o.
  destruct o; cbn [spec_step fst is_insert];
    rewrite ?map_size_insert, ?map_size_delete, ?map_size_empty; repeat case_match; unfold id; lia.
Qed.

Lemma inserts_cons o ops : inserts (o :: ops) = inserts [o] + inserts ops.
Proof.
  unfold inserts, zlen. rewrite !filter_cons, filter_nil.
  case_decide; cbn [length]; lia.
Qed.

Lemma inserts_le ops : 0 ≤ inserts ops ≤ zlen ops.
Proof. unfold inserts, zlen. match goal with |- context [filter ?P ops] =>
  pose proof (length_filter P ops) end. lia. Qed.

Lemma fixed_step_map t m o : represents t m → op_key o ≠ Some empty_key_ →
  Z.of_nat (size m) < capacity_ t →
  ∃ t', fixed_step t o = Ret (t', (spec_step m o).2) ∧
    represents t' (spec_step m o).1 ∧ capacity_ t' = capacity_ t.
Proof.
  intros Hr Hk Hlt. destruct o; cbn in *.
  - rewrite (Lookup_map t m) by naive_solver. by exists t.
  - rewrite (Contains_map t m) by naive_solver. by exists t.
  - rewrite (LookupEx_map t m) by naive_solver. by exists t.
  - destruct (FixedInsert_map t m k v) as (t' & -> & ? & ?); [naive_solver..|]. by exists t'.
  - destruct (FixedErase_map t m k) as (t' & -> & ? & ?); [naive_solver..|]. by exists t'.
  - destruct (FixedClear_map t m Hr). by eexists.
Qed.

Lemma dyn_step_map d m o : dyn_represents d m → op_key o ≠ Some empty_key_ →
  Z.of_nat (size m) ≤ 2 ^ 30 →
  ∃ d', dyn_step d o = Ret (d', (spec_step m o).2) ∧ dyn_represents d' (spec_step m o).1.
Proof.
  intros Hd Hk Hsz. pose proof (dyn_room _ _ Hd). pose proof (dyn_rep _ _ Hd) as Hr.
  destruct o; cbn in *.
  - rewrite (Lookup_map _ m) by naive_solver. by exists d.
  - rewrite (Contains_map _ m) by naive_solver. by exists d.
  - rewrite (LookupEx_map _ m) by naive_solver. by exists d.
  - destruct (DynInsert_map 0 d m k v) as (d' & -> & ? & ?); [naive_solver..|]. by exists d'.
  - destruct (DynErase_map 0 d m k) as (d' & -> & ? & ?); [naive_solver..|]. by exists d'.
  - destruct (DynClear_map d m Hd). by eexists.
Qed.

Lemma fixed_run_map ops : ∀ t m, represents t m → keys_ok ops →
  Z.of_nat (size m) + inserts ops < capacity_ t →
  ∃ t', run fixed_step t ops = Ret (t', (spec_run m ops).2) ∧
    represents t' (spec_run m ops).1.
Proof.
  induction ops as [|o ops IH]; intros t m Hr Hk Hlt; [by exists t|].
  apply Forall_cons in Hk as [Hko Hk]. rewrite inserts_cons in Hlt.
  pose proof (spec_step_size m o). pose proof (inserts_le ops). pose proof (inserts_le [o]).
  destruct (fixed_step_map t m o) as (t1 & Hs & Hr1 & Hc1); [done..|lia|].
  cbn. rewrite Hs. destruct (spec_step m o) as [m1 r]. cbn in *.
  destruct (IH t1 m1) as (t' & -> & Hr'); [done..|lia|].
  destruct (spec_run m1 ops) as [m' rs]. cbn in *. by exists t'.
Qed.

Lemma dyn_run_map ops : ∀ d m, dyn_represents d m → keys_ok ops →
  Z.of_nat (size m) + zlen ops ≤ 2 ^ 30 →
  ∃ d', run dyn_step d ops = Ret (d', (spec_run m ops).2) ∧
    dyn_represents d' (spec_run m ops).1.
Proof.
  induction ops as [|o ops IH]; intros d m Hd Hk Hlt; [by exists d|].
  apply Forall_cons in Hk as [Hko Hk].
  change (zlen (o :: ops)) with (Z.of_nat (S (length ops))) in Hlt.
  pose proof (spec_step_size m o). pose proof (inserts_le [o]) as Ho.
  change (zlen [o]) with 1 in Ho. pose proof (zlen_nonneg ops). unfold zlen in *.
  destruct (dyn_step_map d m o) as (d1 & Hs & Hd1); [done..|lia|].
  cbn. rewrite Hs. destruct (spec_step m o) as [m1 r]. cbn in *.
  destruct (IH d1 m1) as (d' & -> & Hd'); [done..|lia|].
  destruct (spec_run m1 ops) as [m' rs]. cbn in *. by exists d'.
Qed.

(** Probing in a table without free slots for a key that it does not hold
    does not end. *)
Lemma probe_full keys cap key : 0 < cap < 2 ^ 32 → zlen keys = cap →
  (∀ i, lget keys i ≠ Some empty_key_ ∧ lget keys i ≠ Some key) →
  ∀ fuel b c, 0 ≤ b < cap → probe fuel keys cap key b c = Fail OutOfFuel.
Proof.
  intros Hcap Hlen Hfull fuel. induction fuel as [|fuel IH]; intros b c Hb; [done|].
  destruct (lget_in_range keys b) as [k Hk]; [lia|]. destruct (Hfull b).
  simpl. rewrite (proj2 (rd_Ret _ _ _) Hk). cbn. rewrite !decide_False by naive_solver.
  apply IH, Z.mod_pos_bound. lia.
Qed.

(** ** Claims *)

(** C14. A fixed-size table, from [Init] on and under any
    sequence of operations that does not insert more entries than there are
    slots (less one), returns from every operation and answers exactly like
    a finite map. *)
Theorem fixed_refines_map (n : Z) (ops : list op) :
  keys_ok ops → inserts ops < scaled_capacity n →
  ∃ t, run fixed_step (FixedInit n) ops = Ret (t, (spec_run ∅ ops).2) ∧
    represents t (spec_run ∅ ops).1.
Proof.
  intros Hk Hn. pose proof (inserts_le ops).
  destruct (FixedInit_map n) as (Hr & Hc & _); [lia|].
  apply fixed_run_map; [done..|]. rewrite Hc, map_size_empty. lia.
Qed.


(** C39. A lookup in a table without free slots does not
    return for a key that is not in the table, whatever the fuel. *)
Theorem full_table_diverges (t : table) (key : Key) (fuel : nat) :
  0 < capacity_ t < 2 ^ 32 → zlen (keys_ t) = capacity_ t →
  (∀ i, ¬ free (keys_ t) i) → (∀ i, lget (keys_ t) i ≠ Some key) →
  probe fuel (keys_ t) (capacity_ t) key (ScaleHash (capacity_ t) key) 0
  = Fail OutOfFuel.
Proof.
  intros Hcap Hlen Hfull Habs. apply probe_full; [done..| |apply ScaleHash_range; lia].
  intros i. split; [apply Hfull|apply Habs].
Qed.
End SmallHash.

(** ** Witnesses *)

Module SmallHashWitness.
(** Keys and values are integers, the identity is the hash function and -1
    marks free slots. *)
Definition ops : list (op (Key := Z) (Value := Z)) :=
  [OpInsert 4000000000 1; OpInsert 4000000001 2; OpInsert 4000000000 3;
   OpErase 4000000000; OpLookup 4000000001; OpContains 4000000000; OpClear;
   OpLookup 4000000001].

Definition many : list (op (Key := Z) (Value := Z)) :=
  ((λ i, OpInsert i (i + 1)) <$> seqZ 0 9) ++ ((λ i, OpErase i) <$> seqZ 0 9)
  ++ [OpLookup 3].

Lemma fixed_refines_map_witness : ∃ t,
  run (fixed_step (λ k, k) (-1)) (FixedInit (-1) 0 0 8 8 6) ops
    = Ret (t, (spec_run ∅ ops).2) ∧
  represents (λ k, k) (-1) t (spec_run ∅ ops).1.
Proof.
  apply (fixed_refines_map (λ k, k) (-1) 0 0 8 8 6 ops).
  - repeat constructor; discriminate.
  - vm_compute. reflexivity.
Defined.


(** The table of [many] migrates when it grows and when it shrinks. *)
Example many_migrates : ∃ d rs,
  run (dyn_step (λ k, k * 400000000) (-1) 0 0 8 8) (DynInit (-1) 0 0 8 8 6 0) many
    = Ret (d, rs) ∧ num_migrates_ d = 2.
Proof. do 2 eexists. split; vm_compute; reflexivity. Qed.

(** A dynamic table initialised for three elements has four slots and grows
    with the fifth insertion only: the fourth fills it. *)
Definition filled : outcome (dyntable * list (reply (Key := Z) (Value := Z))) :=
  run (dyn_step (λ k, k * 400000000) (-1) 0 0 8 8) (DynInit (-1) 0 0 8 8 3 0)
    [OpInsert 1 1; OpInsert 2 2; OpInsert 3 3; OpInsert 4 4].

Definition full_table : table (Key := Z) (Value := Z) :=
  match filled with Ret (d, _) => base d | Fail _ => FixedInit (-1) 0 0 8 8 3 end.

Ltac not_in_list H :=
  repeat (apply elem_of_cons in H as [?|H]; [discriminate|]); by apply elem_of_nil in H.

Lemma full_table_diverges_witness :
  keys_ full_table = [1; 2; 3; 4] ∧
  probe (-1) 1000 (keys_ full_table) (capacity_ full_table) 5
    (ScaleHash (λ k, k * 400000000) (capacity_ full_table) 5) 0 = Fail OutOfFuel.
Proof.
  assert (keys_ full_table = [1; 2; 3; 4]) as Hkeys by (vm_compute; reflexivity).
  assert (capacity_ full_table = 4) as Hcap by (vm_compute; reflexivity).
  split; [exact Hkeys|].
  apply (full_table_diverges (λ k, k * 400000000) (-1) full_table 5 1000).
  - rewrite Hcap. lia.
  - by rewrite Hkeys, Hcap.
  - intros i Hi%lget_elem_of. rewrite Hkeys in Hi. not_in_list Hi.
  - intros i Hi%lget_elem_of. rewrite Hkeys in Hi. not_in_list Hi.
Defined.
End SmallHashWitness.
