(* ===== verification/LruList.v ===== *)
(** * The LRU cache, part 1: pool and list (src/cvmfs/lru.h)

    [MemoryAllocator], a fixed pool of slots with a bitmap, and the doubly
    linked list [ListEntry]/[ListEntryHead] whose nodes live in the pool.  The
    pool hands out every slot once; the list refines a list of slots. *)

From stdpp Require Import base list numbers gmap.
From S2P Require Import Prelude.

Open Scope Z_scope.

(** ** The pool: [LruCache::MemoryAllocator] *)

Section Allocator.
Context {T : Type}.

Record allocator := Allocator {
  num_slots_ : Z;
  num_free_slots_ : Z;
  next_free_slot_ : Z;
  pool_bytes_ : Z;
  bitmap_ : list Z;
  memory_ : list T
}.

Definition bits_per_block_ : Z := 64.

(** The constructor; [zero] is an object of zeroed memory. *)
Definition AllocatorInit (zero : T) (sizeof_T num_slots : Z) : outcome allocator :=
  _ ← cassert (num_slots mod bits_per_block_ =? 0);
  _ ← cassert (num_slots >=? 2 * bits_per_block_);
  Ret {| num_slots_ := num_slots; num_free_slots_ := num_slots;
         next_free_slot_ := 0;
         pool_bytes_ := u64 (u32 (num_slots / 8 + u32 (sizeof_T * num_slots)));
         bitmap_ := replicate (Z.to_nat (num_slots / bits_per_block_)) 0;
         memory_ := replicate (Z.to_nat num_slots) zero |}.

Definition IsPoolFull (a : allocator) : bool := num_free_slots_ a =? 0.

Definition GetBit (a : allocator) (position : Z) : outcome bool :=
  _ ← cassert (position <? num_slots_ a);
  block ← rd (bitmap_ a) (position / bits_per_block_);
  Ret (negb (Z.land block (Z.shiftl 1 (position mod bits_per_block_)) =? 0)).

Definition set_bitmap (a : allocator) (b : list Z) : allocator :=
  Allocator (num_slots_ a) (num_free_slots_ a) (next_free_slot_ a) (pool_bytes_ a)
    b (memory_ a).

Definition set_memory (a : allocator) (m : list T) : allocator :=
  Allocator (num_slots_ a) (num_free_slots_ a) (next_free_slot_ a) (pool_bytes_ a)
    (bitmap_ a) m.

Definition set_free (a : allocator) (num_free next_free : Z) : allocator :=
  Allocator (num_slots_ a) num_free next_free (pool_bytes_ a) (bitmap_ a) (memory_ a).

Definition SetBit (a : allocator) (position : Z) : outcome allocator :=
  _ ← cassert (position <? num_slots_ a);
  block ← rd (bitmap_ a) (position / bits_per_block_);
  b ← wr (bitmap_ a) (position / bits_per_block_)
        (Z.lor block (Z.shiftl 1 (position mod bits_per_block_)));
  Ret (set_bitmap a b).

Definition UnsetBit (a : allocator) (position : Z) : outcome allocator :=
  _ ← cassert (position <? num_slots_ a);
  block ← rd (bitmap_ a) (position / bits_per_block_);
  b ← wr (bitmap_ a) (position / bits_per_block_)
        (Z.land block (u64 (Z.lnot (Z.shiftl 1 (position mod bits_per_block_)))));
  Ret (set_bitmap a b).

(** [while (~bitmap_[bitmap_block] == 0)] *)
Fixpoint find_block (fuel : nat) (a : allocator) (bitmap_block : Z) : outcome Z :=
  match fuel with
  | O => Fail OutOfFuel
  | S fuel =>
      b ← rd (bitmap_ a) bitmap_block;
      if u64 (Z.lnot b) =? 0
      then find_block fuel a
             (u32 (bitmap_block + 1) mod (num_slots_ a / bits_per_block_))
      else Ret bitmap_block
  end.

(** [while (this->GetBit(next_free_slot_)) next_free_slot_++] *)
Fixpoint find_bit (fuel : nat) (a : allocator) (position : Z) : outcome Z :=
  match fuel with
  | O => Fail OutOfFuel
  | S fuel =>
      b ← GetBit a position;
      if b : bool then find_bit fuel a (u32 (position + 1)) else Ret position
  end.

(** [Allocate]: the index of the slot, or [None] for NULL. *)
Definition Allocate (a : allocator) : outcome (allocator * option Z) :=
  if IsPoolFull a then Ret (a, None)
  else
    let slot := next_free_slot_ a in
    a ← SetBit a slot;
    let a := set_free a (u32 (num_free_slots_ a - 1)) slot in
    if IsPoolFull a then Ret (a, Some slot)
    else
      block ← find_block (Z.to_nat (num_slots_ a / bits_per_block_)) a
                (slot / bits_per_block_);
      next ← find_bit (Z.to_nat bits_per_block_ + 1) a (u32 (block * bits_per_block_));
      Ret (set_free a (num_free_slots_ a) next, Some slot).

(** [Deallocate]; the bounds check admits the address behind the pool, the
    one of [GetBit] does not. *)
Definition Deallocate (a : allocator) (position : Z) : outcome allocator :=
  _ ← cassert ((position >=? 0) && (position <=? num_slots_ a));
  b ← GetBit a position;
  _ ← cassert b;
  a ← UnsetBit a position;
  Ret (set_free a (u32 (num_free_slots_ a + 1)) position).
End Allocator.
Arguments allocator : clear implicits.

(** ** The list: [ListEntry], [ListEntryContent] and [ListEntryHead] *)

(** A pointer to a list entry. *)
Inductive ptr := PNull | PHead | PSlot (i : Z).

#[export] Instance ptr_eq_dec : EqDecision ptr.
Proof. solve_decision. Defined.

Section DoublyLinkedList.
Context {Key : Type}.

Record list_entry := ListEntry { next : ptr; prev : ptr; content_ : Key }.

(** The list head and the pool with the other entries. *)
Record heap := Heap {
  head_next : ptr;
  head_prev : ptr;
  pool : allocator list_entry
}.

Definition set_pool (h : heap) (a : allocator list_entry) : heap :=
  Heap (head_next h) (head_prev h) a.

Definition IsListHead (p : ptr) : bool := bool_decide (p = PHead).

Definition get_next (h : heap) (p : ptr) : outcome ptr :=
  match p with
  | PNull => Fail OutOfBounds
  | PHead => Ret (head_next h)
  | PSlot i => e ← rd (memory_ (pool h)) i; Ret (next e)
  end.

Definition get_prev (h : heap) (p : ptr) : outcome ptr :=
  match p with
  | PNull => Fail OutOfBounds
  | PHead => Ret (head_prev h)
  | PSlot i => e ← rd (memory_ (pool h)) i; Ret (prev e)
  end.

Definition set_next (h : heap) (p q : ptr) : outcome heap :=
  match p with
  | PNull => Fail OutOfBounds
  | PHead => Ret (Heap q (head_prev h) (pool h))
  | PSlot i =>
      e ← rd (memory_ (pool h)) i;
      m ← wr (memory_ (pool h)) i (ListEntry q (prev e) (content_ e));
      Ret (set_pool h (set_memory (pool h) m))
  end.

Definition set_prev (h : heap) (p q : ptr) : outcome heap :=
  match p with
  | PNull => Fail OutOfBounds
  | PHead => Ret (Heap (head_next h) q (pool h))
  | PSlot i =>
      e ← rd (memory_ (pool h)) i;
      m ← wr (memory_ (pool h)) i (ListEntry (next e) q (content_ e));
      Ret (set_pool h (set_memory (pool h) m))
  end.

Definition content (h : heap) (p : ptr) : outcome Key :=
  match p with
  | PSlot i => e ← rd (memory_ (pool h)) i; Ret (content_ e)
  | _ => Fail OutOfBounds
  end.

Definition IsLonely (h : heap) (p : ptr) : outcome bool :=
  n ← get_next h p;
  q ← get_prev h p;
  Ret (bool_decide (n = p) && bool_decide (q = p)).

(** [Construct(ListEntryContent(content))]: the copy constructor makes the
    copy of a lonely entry lonely. *)
Definition Construct (h : heap) (content : Key) : outcome (heap * ptr) :=
  '(a, slot) ← Allocate (pool h);
  match slot with
  | None => Ret (set_pool h a, PNull)
  | Some i =>
      m ← wr (memory_ a) i (ListEntry (PSlot i) (PSlot i) content);
      Ret (set_pool h (set_memory a m), PSlot i)
  end.

Definition Destruct (h : heap) (p : ptr) : outcome heap :=
  match p with
  | PSlot i => a ← Deallocate (pool h) i; Ret (set_pool h a)
  | _ => Fail AssertFailed
  end.

Definition InsertAsPredecessor (h : heap) (this entry : ptr) : outcome heap :=
  l ← IsLonely h entry;
  _ ← cassert l;
  _ ← cassert (negb (IsListHead entry));
  h ← set_next h entry this;
  p ← get_prev h this;
  h ← set_prev h entry p;
  p ← get_prev h this;
  h ← set_next h p entry;
  h ← set_prev h this entry;
  l ← IsLonely h entry;
  _ ← cassert (negb l);
  Ret h.

(** [RemoveFromList]; the one of the list head is [assert(false)]. *)
Definition RemoveFromList (h : heap) (this : ptr) : outcome heap :=
  _ ← cassert (negb (IsListHead this));
  l ← IsLonely h this;
  _ ← cassert (negb l);
  p ← get_prev h this;
  n ← get_next h this;
  h ← set_next h p n;
  n ← get_next h this;
  p ← get_prev h this;
  h ← set_prev h n p;
  h ← set_next h this this;
  set_prev h this this.

Definition PushBack (h : heap) (content : Key) : outcome (heap * ptr) :=
  '(h, new_entry) ← Construct h content;
  h ← InsertAsPredecessor h PHead new_entry;
  Ret (h, new_entry).

Definition Pop (h : heap) (popped : ptr) : outcome (heap * Key) :=
  _ ← cassert (negb (IsListHead popped));
  h ← RemoveFromList h popped;
  result ← content h popped;
  h ← Destruct h popped;
  Ret (h, result).

Definition PopFront (h : heap) : outcome (heap * Key) :=
  empty ← IsLonely h PHead;
  _ ← cassert (negb empty);
  n ← get_next h PHead;
  Pop h n.

Definition MoveToBack (h : heap) (entry : ptr) : outcome heap :=
  l ← IsLonely h entry;
  _ ← cassert (negb l);
  h ← RemoveFromList h entry;
  InsertAsPredecessor h PHead entry.

(** The loop of [clear]. *)
Fixpoint clear_loop (fuel : nat) (h : heap) (entry : ptr) : outcome heap :=
  match fuel with
  | O => Fail OutOfFuel
  | S fuel =>
      if IsListHead entry then Ret h
      else
        n ← get_next h entry;
        h ← Destruct h entry;
        clear_loop fuel h n
  end.

Definition clear (h : heap) : outcome heap :=
  h ← clear_loop (S (Z.to_nat (num_slots_ (pool h)))) h (head_next h);
  Ret (Heap PHead PHead (pool h)).
End DoublyLinkedList.
Arguments list_entry : clear implicits.
Arguments heap : clear implicits.

(** ** Theory of the pool *)

Lemma land_bit b k : 0 ≤ k → (Z.land b (Z.shiftl 1 k) =? 0) = negb (Z.testbit b k).
Proof.
  intros Hk. rewrite Z.shiftl_1_l.
  destruct (Z.testbit b k) eqn:Hb; cbn.
  - apply Z.eqb_neq. intros H0. apply (f_equal (λ z, Z.testbit z k)) in H0.
    rewrite Z.land_spec, Z.pow2_bits_true, Hb, Z.bits_0 in H0 by lia. done.
  - apply Z.eqb_eq, Z.bits_inj_0. intros j. rewrite Z.land_spec, Z.pow2_bits_eqb by lia.
    destruct (Z.eqb_spec k j); [subst; by rewrite Hb|]. by rewrite andb_false_r.
Qed.

Lemma lor_bit b k j : 0 ≤ k → Z.testbit (Z.lor b (Z.shiftl 1 k)) j = Z.testbit b j || (k =? j).
Proof. intros. by rewrite Z.lor_spec, Z.shiftl_1_l, Z.pow2_bits_eqb by lia. Qed.

Lemma lor_range b k : 0 ≤ k < 64 → 0 ≤ b < 2 ^ 64 → 0 ≤ Z.lor b (Z.shiftl 1 k) < 2 ^ 64.
Proof.
  intros Hk Hb. split.
  - apply Z.lor_nonneg. split; [lia|]. rewrite Z.shiftl_1_l. lia.
  - destruct (Z.eq_dec (Z.lor b (Z.shiftl 1 k)) 0) as [->|]; [done|].
    apply Z.log2_lt_pow2.
    + assert (0 ≤ Z.lor b (Z.shiftl 1 k)); [|lia].
      apply Z.lor_nonneg. split; [lia|]. rewrite Z.shiftl_1_l. lia.
    + rewrite Z.log2_lor by (rewrite ?Z.shiftl_1_l; lia).
      rewrite Z.shiftl_1_l, Z.log2_pow2 by lia.
      destruct (Z.eq_dec b 0) as [->|]; [simpl; lia|].
      apply Z.max_lub_lt; [|lia]. apply Z.log2_lt_pow2; lia.
Qed.

Lemma land_range b x : 0 ≤ b < 2 ^ 64 → 0 ≤ Z.land b x < 2 ^ 64.
Proof.
  intros Hb. rewrite <- (Z.mod_small b (2 ^ 64)), <- Z.land_ones by lia.
  rewrite (Z.land_comm b), <- Z.land_assoc, Z.land_comm, Z.land_ones by lia.
  apply Z.mod_pos_bound. lia.
Qed.

Lemma testbit_u64 z j : 0 ≤ j < 64 → Z.testbit (u64 z) j = Z.testbit z j.
Proof. intros. apply Z.mod_pow2_bits_low. lia. Qed.

Lemma unset_bit b k j : 0 ≤ j < 64 → 0 ≤ k →
  Z.testbit (Z.land b (u64 (Z.lnot (Z.shiftl 1 k)))) j = Z.testbit b j && negb (k =? j).
Proof.
  intros. rewrite Z.land_spec, testbit_u64, Z.lnot_spec by lia.
  by rewrite Z.shiftl_1_l, Z.pow2_bits_eqb by lia.
Qed.

(** A block of 64 bits without a free one is the all-ones word. *)
Lemma full_block b : 0 ≤ b < 2 ^ 64 →
  (u64 (Z.lnot b) =? 0) = true ↔ ∀ j, 0 ≤ j < 64 → Z.testbit b j = true.
Proof.
  intros Hb. rewrite Z.eqb_eq. split.
  - intros H0 j Hj. apply (f_equal (λ z, Z.testbit z j)) in H0.
    rewrite testbit_u64, Z.lnot_spec, Z.bits_0 in H0 by lia. by destruct (Z.testbit b j).
  - intros Hall. apply Z.bits_inj_0. intros j. destruct (decide (0 ≤ j < 64)).
    + rewrite testbit_u64, Z.lnot_spec, Hall by lia. done.
    + destruct (decide (j < 0)); [by apply Z.testbit_neg_r|].
      apply Z.mod_pow2_bits_high. lia.
Qed.

Section PoolTheory.
Context {T : Type}.
Implicit Types (a : allocator T) (A : gset Z).

Definition slot_bit a (i : Z) : bool :=
  match lget (bitmap_ a) (i / 64) with
  | Some b => Z.testbit b (i mod 64)
  | None => false
  end.

(** The bitmap marks the set [A] of slots. *)
Record bits_ok a A : Prop := {
  bits_slots : num_slots_ a mod 64 = 0 ∧ 128 ≤ num_slots_ a < 2 ^ 32;
  bits_len : zlen (bitmap_ a) = num_slots_ a / 64;
  bits_blocks : ∀ j b, lget (bitmap_ a) j = Some b → 0 ≤ b < 2 ^ 64;
  bits_marked : ∀ i, 0 ≤ i < num_slots_ a → slot_bit a i = bool_decide (i ∈ A);
  bits_range : ∀ i, i ∈ A → 0 ≤ i < num_slots_ a;
  bits_memory : zlen (memory_ a) = num_slots_ a
}.

(** The pool invariant: [A] is the set of slots in use. *)
Record pool_ok a A : Prop := {
  pool_bits : bits_ok a A;
  pool_free : num_free_slots_ a = num_slots_ a - Z.of_nat (size A);
  pool_next : num_free_slots_ a ≠ 0 →
    0 ≤ next_free_slot_ a < num_slots_ a ∧ next_free_slot_ a ∉ A
}.

Lemma slot_block a A i : bits_ok a A → 0 ≤ i < num_slots_ a →
  ∃ b, lget (bitmap_ a) (i / 64) = Some b ∧ 0 ≤ b < 2 ^ 64 ∧
    Z.testbit b (i mod 64) = bool_decide (i ∈ A).
Proof.
  intros [[Hm Hn] Hl Hb Hbits _ _] Hi.
  destruct (lget_in_range (bitmap_ a) (i / 64)) as [b Hib]; [words|].
  exists b. split; [done|]. split; [eauto|].
  rewrite <- (Hbits i Hi). unfold slot_bit. by rewrite Hib.
Qed.

Lemma GetBit_ok a A i : bits_ok a A → 0 ≤ i < num_slots_ a →
  GetBit a i = Ret (bool_decide (i ∈ A)).
Proof.
  intros Ha Hi. destruct (slot_block a A i Ha Hi) as (b & Hb & _ & Hbit).
  unfold GetBit, cassert. rewrite (proj2 (Z.ltb_lt _ _)) by lia. cbn -[Z.land Z.shiftl].
  change (i / bits_per_block_) with (i / 64).
  rewrite (proj2 (rd_Ret _ _ _) Hb). cbn -[Z.land Z.shiftl].
  change bits_per_block_ with 64.
  rewrite land_bit by (apply Z.mod_pos_bound; lia). by rewrite Hbit, negb_involutive.
Qed.

(** Writing one block of the bitmap changes the set by one slot. *)
Lemma bits_update a A A' i b b' : bits_ok a A → 0 ≤ i < num_slots_ a →
  lget (bitmap_ a) (i / 64) = Some b → 0 ≤ b' < 2 ^ 64 →
  (∀ j, j ∈ A' → 0 ≤ j < num_slots_ a) →
  (∀ j, 0 ≤ j < num_slots_ a → i ≠ j → j ∈ A' ↔ j ∈ A) →
  (∀ j, 0 ≤ j < 64 → Z.testbit b' j
     = if i mod 64 =? j then bool_decide (i ∈ A') else Z.testbit b j) →
  wr (bitmap_ a) (i / 64) b' = Ret (lset (bitmap_ a) (i / 64) b') ∧
  bits_ok (set_bitmap a (lset (bitmap_ a) (i / 64) b')) A'.
Proof.
  intros [[Hm Hn] Hl Hb Hbits Hr Hmem] Hi Hib Hb' HrA' HA' Hnew.
  pose proof (lget_Some_range _ _ _ Hib). split; [by apply wr_in_range|].
  split; cbn; try done.
  - by rewrite zlen_lset.
  - intros j x. rewrite lget_lset by lia. destruct (decide _); [|apply Hb].
    intros Hx. assert (x = b') as -> by congruence. done.
  - intros j Hj. specialize (Hbits j Hj). unfold slot_bit in *. cbn.
    rewrite lget_lset by lia. destruct (decide _) as [Hij|Hij].
    + pose proof (Z.mod_pos_bound j 64 ltac:(lia)).
      rewrite <- Hij, Hib in Hbits. rewrite Hnew by lia.
      destruct (Z.eqb_spec (i mod 64) (j mod 64)).
      * assert (i = j) as -> by (rewrite (Z.div_mod i 64), (Z.div_mod j 64); lia). done.
      * rewrite Hbits. apply bool_decide_ext. symmetry. apply HA'; [done|]. naive_solver.
    + rewrite Hbits. apply bool_decide_ext. symmetry. apply HA'; [done|]. naive_solver.
Qed.

Lemma SetBit_ok a A i : bits_ok a A → 0 ≤ i < num_slots_ a →
  ∃ b, SetBit a i = Ret (set_bitmap a b) ∧ bits_ok (set_bitmap a b) ({[i]} ∪ A).
Proof.
  intros Ha Hi. destruct (slot_block a A i Ha Hi) as (b & Hb & Hbr & Hbit).
  pose proof (Z.mod_pos_bound i 64 ltac:(lia)).
  destruct (bits_update a A ({[i]} ∪ A) i b (Z.lor b (Z.shiftl 1 (i mod 64)))) as [Hw Hok];
    try done.
  - apply lor_range; lia.
  - intros j [->%elem_of_singleton|Hj]%elem_of_union; [lia|]. by apply (bits_range _ _ Ha).
  - set_solver.
  - intros j Hj. rewrite lor_bit by lia. destruct (Z.eqb_spec (i mod 64) j).
    + rewrite orb_true_r, bool_decide_true by set_solver. done.
    + by rewrite orb_false_r.
  - unfold SetBit, cassert. rewrite (proj2 (Z.ltb_lt _ _)) by lia.
    change bits_per_block_ with 64. cbn -[Z.lor Z.shiftl].
    rewrite (proj2 (rd_Ret _ _ _) Hb). cbn -[Z.lor Z.shiftl]. rewrite Hw. by eexists.
Qed.

Lemma UnsetBit_ok a A i : bits_ok a A → 0 ≤ i < num_slots_ a →
  ∃ b, UnsetBit a i = Ret (set_bitmap a b) ∧ bits_ok (set_bitmap a b) (A ∖ {[i]}).
Proof.
  intros Ha Hi. destruct (slot_block a A i Ha Hi) as (b & Hb & Hbr & Hbit).
  pose proof (Z.mod_pos_bound i 64 ltac:(lia)).
  set (b' := Z.land b (u64 (Z.lnot (Z.shiftl 1 (i mod 64))))).
  destruct (bits_update a A (A ∖ {[i]}) i b b') as [Hw Hok]; try done.
  - by apply land_range.
  - intros j [Hj _]%elem_of_difference. by apply (bits_range _ _ Ha).
  - set_solver.
  - intros j Hj. subst b'. rewrite unset_bit by lia. destruct (Z.eqb_spec (i mod 64) j).
    + rewrite andb_false_r, bool_decide_false by set_solver. done.
    + by rewrite andb_true_r.
  - unfold UnsetBit, cassert. rewrite (proj2 (Z.ltb_lt _ _)) by lia.
    change bits_per_block_ with 64. cbn -[Z.land Z.lnot Z.shiftl u64].
    rewrite (proj2 (rd_Ret _ _ _) Hb). cbn -[Z.land Z.lnot Z.shiftl u64].
    fold b'. rewrite Hw. by eexists.
Qed.

Lemma used_bound a A : bits_ok a A → Z.of_nat (size A) ≤ num_slots_ a.
Proof.
  intros Ha. pose proof (bits_slots _ _ Ha) as [_ ?].
  assert (A ⊆ list_to_set (seqZ 0 (num_slots_ a))) as Hsub%subseteq_size.
  { intros i Hi%(bits_range _ _ Ha). apply elem_of_list_to_set, elem_of_seqZ. lia. }
  rewrite size_list_to_set, length_seqZ in Hsub by apply NoDup_seqZ. lia.
Qed.

Lemma free_slot a A : bits_ok a A → Z.of_nat (size A) < num_slots_ a →
  ∃ i, 0 ≤ i < num_slots_ a ∧ i ∉ A.
Proof.
  intros Ha Hlt. set (R := list_to_set (seqZ 0 (num_slots_ a)) : gset Z).
  assert (size R = Z.to_nat (num_slots_ a)) as HR.
  { subst R. rewrite size_list_to_set by apply NoDup_seqZ. by rewrite length_seqZ. }
  destruct (set_choose_or_empty (R ∖ A)) as [[i Hi]|He].
  - exists i. apply elem_of_difference in Hi as [Hi ?]. split; [|done].
    subst R. apply elem_of_list_to_set, elem_of_seqZ in Hi. lia.
  - assert (R ⊆ A) as Hsub by set_solver. apply subseteq_size in Hsub. lia.
Qed.

Lemma find_block_ok a A f : bits_ok a A → 0 ≤ f < num_slots_ a → f ∉ A →
  ∀ fuel b, 0 ≤ b < num_slots_ a / 64 →
  dist (num_slots_ a / 64) b (f / 64) < Z.of_nat fuel →
  ∃ r i, find_block fuel a b = Ret r ∧ 0 ≤ r < num_slots_ a / 64 ∧
    0 ≤ i < 64 ∧ r * 64 + i ∉ A.
Proof.
  intros Ha Hf HfA fuel. pose proof Ha as [[Hm Hn] Hl Hb Hbits _ _].
  assert (0 ≤ f / 64 < num_slots_ a / 64) as Hf64 by words.
  assert (0 < num_slots_ a / 64 < 2 ^ 32) as Hnb by words.
  induction fuel as [|fuel IH]; intros b Hbr Hfuel.
  { pose proof (Z.mod_pos_bound (f / 64 - b) (num_slots_ a / 64)). unfold dist in Hfuel. lia. }
  destruct (lget_in_range (bitmap_ a) b) as [w Hw]; [lia|].
  cbn [find_block]. rewrite (proj2 (rd_Ret _ _ _) Hw). cbn [mbind outcome_bind].
  change bits_per_block_ with 64.
  destruct (u64 (Z.lnot w) =? 0) eqn:Hfull.
  - apply IH; [apply Z.mod_pos_bound; lia|].
    assert (b ≠ f / 64).
    { intros ->. destruct (slot_block a A f Ha Hf) as (w' & Hw' & Hr & Hbit).
      assert (w' = w) as -> by congruence.
      rewrite (proj1 (full_block w Hr) Hfull) in Hbit by (apply Z.mod_pos_bound; lia).
      rewrite bool_decide_false in Hbit; done. }
    clear IH. ring_solver.
  - assert (¬ ∀ j, 0 ≤ j < 64 → Z.testbit w j = true) as Hj.
    { rewrite <- full_block by eauto. by rewrite Hfull. }
    destruct (decide (Exists (λ j, Z.testbit w j = false) (seqZ 0 64))) as [He|He].
    + apply Exists_exists in He as (j & Hjr%elem_of_seqZ & Hbit). exists b, j.
      split_and!; try done; try lia. intros HA.
      assert (0 ≤ b * 64 + j < num_slots_ a) as Hbj by words.
      destruct (slot_block a A _ Ha Hbj) as (w' & Hw' & _ & Hbit').
      replace ((b * 64 + j) / 64) with b in Hw' by words.
      replace ((b * 64 + j) mod 64) with j in Hbit' by words.
      rewrite bool_decide_true in Hbit' by done. congruence.
    + destruct Hj. intros j Hjr. destruct (Z.testbit w j) eqn:Hbit; [done|].
      destruct He. apply Exists_exists. exists j. rewrite elem_of_seqZ. split; [lia|done].
Qed.

Lemma find_bit_ok a A f : bits_ok a A → 0 ≤ f < num_slots_ a → f ∉ A →
  ∀ fuel p, 0 ≤ p ≤ f → f - p < Z.of_nat fuel →
  ∃ r, find_bit fuel a p = Ret r ∧ 0 ≤ r < num_slots_ a ∧ r ∉ A.
Proof.
  intros Ha Hf HfA fuel. pose proof (bits_slots _ _ Ha).
  induction fuel as [|fuel IH]; intros p Hp Hfuel; [lia|].
  cbn [find_bit]. rewrite (GetBit_ok a A) by (done || lia). cbn [mbind outcome_bind].
  case_bool_decide as HpA.
  - assert (p ≠ f) by (by intros ->).
    rewrite u32_small by (unfold is_u32; lia). apply IH; lia.
  - exists p. split_and!; done || lia.
Qed.

(** What every operation leaves alone. *)
Definition same_pool a a' : Prop :=
  num_slots_ a' = num_slots_ a ∧ memory_ a' = memory_ a ∧ pool_bytes_ a' = pool_bytes_ a.

Lemma bits_set_free a A n m : bits_ok a A → bits_ok (set_free a n m) A.
Proof. by intros []. Qed.

Lemma PoolAllocate_full a A : pool_ok a A → Z.of_nat (size A) = num_slots_ a →
  Allocate a = Ret (a, None).
Proof.
  intros [_ Hfree _] Hsz. unfold Allocate, IsPoolFull.
  by rewrite (proj2 (Z.eqb_eq _ _)) by lia.
Qed.

Lemma PoolAllocate_ok a A : pool_ok a A → Z.of_nat (size A) < num_slots_ a →
  ∃ a' slot, Allocate a = Ret (a', Some slot) ∧ 0 ≤ slot < num_slots_ a ∧ slot ∉ A ∧
    pool_ok a' ({[slot]} ∪ A) ∧ same_pool a a'.
Proof.
  intros [Ha Hfree Hnext] Hsz. destruct Hnext as [Hr HA]; [lia|].
  pose proof (bits_slots _ _ Ha) as [Hm Hn].
  destruct (SetBit_ok a A _ Ha Hr) as (b & Hset & Hbits).
  unfold Allocate, IsPoolFull. rewrite (proj2 (Z.eqb_neq _ _)) by lia.
  rewrite Hset. cbn [mbind outcome_bind]. set (slot := next_free_slot_ a) in *.
  assert (size ({[slot]} ∪ A) = S (size A)) as Hsize.
  { rewrite size_union by set_solver. rewrite size_singleton. lia. }
  set (a1 := set_free (set_bitmap a b) (u32 (num_free_slots_ (set_bitmap a b) - 1)) slot).
  assert (num_free_slots_ a1 = num_slots_ a - Z.of_nat (size ({[slot]} ∪ A))) as Hfree1.
  { subst a1. cbn. rewrite u32_small by (unfold is_u32; lia). lia. }
  assert (bits_ok a1 ({[slot]} ∪ A)) as Hb1 by by apply bits_set_free.
  destruct (Z.eqb_spec (num_free_slots_ a1) 0) as [H0|H0].
  { exists a1, slot. split_and!; done || lia. }
  destruct (free_slot a1 _ Hb1) as (f & Hf & HfA); [cbn; lia|].
  destruct (find_block_ok a1 _ f Hb1 Hf HfA (Z.to_nat (num_slots_ a1 / 64)) (slot / 64))
    as (r & i & Hfind & Hrr & Hi & HiA).
  { cbn. words. }
  { cbn. rewrite Z2Nat.id by words. apply Z.mod_pos_bound. words. }
  change bits_per_block_ with 64. rewrite Hfind. cbn [mbind outcome_bind].
  assert (0 ≤ r * 64 + i < num_slots_ a1) as Hri by (cbn in *; words).
  rewrite u32_small by (cbn in *; unfold is_u32; lia).
  destruct (find_bit_ok a1 _ (r * 64 + i) Hb1 Hri HiA (Z.to_nat 64 + 1) (r * 64))
    as (s & Hs & Hsr & HsA); [lia..|].
  rewrite Hs. cbn [mbind outcome_bind]. do 2 eexists. split; [done|]. split_and!; try done; try lia.
  split; [by apply bits_set_free|done|]. by intros _.
Qed.

Lemma Deallocate_ok a A i : pool_ok a A → i ∈ A →
  ∃ a', Deallocate a i = Ret a' ∧ pool_ok a' (A ∖ {[i]}) ∧ same_pool a a'.
Proof.
  intros [Ha Hfree Hnext] HiA. pose proof (bits_range _ _ Ha i HiA) as Hi.
  pose proof (bits_slots _ _ Ha) as [Hm Hn].
  destruct (UnsetBit_ok a A i Ha Hi) as (b & Hset & Hbits).
  assert (size A = S (size (A ∖ {[i]}))) as Hsize.
  { rewrite (union_difference_singleton_L i A HiA) at 1.
    rewrite size_union, size_singleton by set_solver. lia. }
  unfold Deallocate, cassert. rewrite (proj2 (Z.geb_le _ _)), (proj2 (Z.leb_le _ _)) by lia.
  cbn [andb mbind outcome_bind]. rewrite (GetBit_ok a A i Ha Hi), bool_decide_true by done.
  cbn [mbind outcome_bind]. rewrite Hset. cbn [mbind outcome_bind]. eexists.
  pose proof (used_bound a A Ha).
  split; [done|]. split; [|done]. split.
  - by apply bits_set_free.
  - cbn. rewrite u32_small by (unfold is_u32; lia). lia.
  - intros _. cbn. set_solver.
Qed.

Lemma AllocatorInit_ok (zero : T) sizeof_T n : n mod 64 = 0 → 128 ≤ n < 2 ^ 32 →
  ∃ a, AllocatorInit zero sizeof_T n = Ret a ∧ pool_ok a ∅ ∧ num_slots_ a = n.
Proof.
  intros Hm Hn. unfold AllocatorInit, cassert. change bits_per_block_ with 64.
  rewrite (proj2 (Z.eqb_eq _ _)), (proj2 (Z.geb_le _ _)) by lia.
  cbn [mbind outcome_bind]. eexists. split; [done|]. split; [|done].
  split; cbn; [|rewrite size_empty; lia|]; [|intros _; split; [lia|apply not_elem_of_empty]].
  split; cbn; try done.
  - unfold zlen. rewrite length_replicate. words.
  - intros j b ->%lget_replicate_inv. lia.
  - intros i Hi. unfold slot_bit. cbn. rewrite bool_decide_false by set_solver.
    destruct (lget _ _) as [b|] eqn:Hb; [|done].
    apply lget_replicate_inv in Hb as ->. apply Z.bits_0.
  - unfold zlen. rewrite length_replicate. lia.
Qed.
End PoolTheory.

(** ** Theory of the list

    The links of a heap are read as two total functions on pointers; a list
    is a path of links that starts and ends at the head. *)

Section Paths.
Implicit Types (N P : ptr → ptr) (L : list ptr).

Fixpoint path N P (p : ptr) L : Prop :=
  match L with
  | [] => True
  | x :: L => N p = x ∧ P x = p ∧ path N P x L
  end.

(** The pointer a path ends with. *)
Definition endp (p : ptr) L : ptr := default p (last L).

Lemma endp_cons p x L : endp p (x :: L) = endp x L.
Proof. unfold endp. rewrite last_cons. by destruct (last L). Qed.

Lemma endp_in p L : endp p L ∈ p :: L.
Proof.
  revert p. induction L as [|x L IH]; intros p; [by left|].
  rewrite endp_cons. right. apply IH.
Qed.

Lemma path_app N P p L1 L2 : path N P p (L1 ++ L2) ↔ path N P p L1 ∧ path N P (endp p L1) L2.
Proof.
  revert p. induction L1 as [|x L1 IH]; intros p; cbn [path app]; [naive_solver|].
  rewrite IH, endp_cons. naive_solver.
Qed.

(** Links elsewhere, and the link out of the end, do not matter. *)
Lemma path_frame N P N' P' p L : path N P p L → NoDup (p :: L) →
  (∀ r, r ∈ L → P' r = P r) →
  (∀ r, r ∈ p :: L → r ≠ endp p L → N' r = N r) → path N' P' p L.
Proof.
  revert p. induction L as [|x L IH]; intros p; [done|].
  intros (HN & HP & Hp) Hnd HP' HN'. cbn [path]. rewrite endp_cons in HN'.
  apply NoDup_cons in Hnd as [Hpx Hnd]. split_and!.
  - rewrite HN'; [done|by left|]. intros Heq. apply Hpx. rewrite Heq. apply endp_in.
  - rewrite HP' by (by left). done.
  - apply IH; [done|done|intros; apply HP'; by right|].
    intros r Hr Hne. apply HN'; [by right|done].
Qed.

Lemma path_ext N P N' P' p L : path N P p L →
  (∀ r, N' r = N r) → (∀ r, P' r = P r) → path N' P' p L.
Proof.
  intros Hp HN HP. revert p Hp. induction L as [|x L IH]; intros p; [done|].
  intros (? & ? & ?). cbn [path]. rewrite HN, HP. auto.
Qed.
End Paths.

Section ListTheory.
Context {Key : Type}.
Implicit Types (h : heap Key) (L : list ptr).

Definition nxt h (p : ptr) : ptr := match get_next h p with Ret q => q | Fail _ => PNull end.
Definition prv h (p : ptr) : ptr := match get_prev h p with Ret q => q | Fail _ => PNull end.

Definition valid h (p : ptr) : Prop :=
  match p with
  | PNull => False
  | PHead => True
  | PSlot i => 0 ≤ i < zlen (memory_ (pool h))
  end.

Definition contents h (i : Z) : option Key := content_ <$> lget (memory_ (pool h)) i.

(** Only links differ between the two heaps. *)
Record relinked h h' : Prop := {
  rl_slots : num_slots_ (pool h') = num_slots_ (pool h);
  rl_free : num_free_slots_ (pool h') = num_free_slots_ (pool h);
  rl_next : next_free_slot_ (pool h') = next_free_slot_ (pool h);
  rl_bitmap : bitmap_ (pool h') = bitmap_ (pool h);
  rl_bytes : pool_bytes_ (pool h') = pool_bytes_ (pool h);
  rl_len : zlen (memory_ (pool h')) = zlen (memory_ (pool h));
  rl_contents : ∀ i, contents h' i = contents h i
}.

Lemma relinked_refl h : relinked h h.
Proof. done. Qed.

Lemma relinked_trans h1 h2 h3 : relinked h1 h2 → relinked h2 h3 → relinked h1 h3.
Proof. intros [] []. split; intros; etrans; eauto. Qed.

Lemma relinked_valid h h' p : relinked h h' → valid h p → valid h' p.
Proof. intros Hr. destruct p; cbn; [done|done|]. by rewrite (rl_len _ _ Hr). Qed.

Lemma relinked_pool h h' A : relinked h h' → pool_ok (pool h) A → pool_ok (pool h') A.
Proof.
  intros [Hs Hf Hn Hb _ Hl _] [[] Hfree Hnext]. split.
  - split; unfold slot_bit in *; rewrite ?Hs, ?Hb, ?Hl; done.
  - by rewrite Hf, Hs.
  - by rewrite Hf, Hs, Hn.
Qed.

Lemma get_next_ok h p : valid h p → get_next h p = Ret (nxt h p).
Proof.
  unfold nxt. destruct p as [| |i]; cbn; [done|done|]. intros Hi.
  apply lget_in_range in Hi as [e He]. by rewrite (proj2 (rd_Ret _ _ _) He).
Qed.

Lemma get_prev_ok h p : valid h p → get_prev h p = Ret (prv h p).
Proof.
  unfold prv. destruct p as [| |i]; cbn; [done|done|]. intros Hi.
  apply lget_in_range in Hi as [e He]. by rewrite (proj2 (rd_Ret _ _ _) He).
Qed.

Definition upd (f : ptr → ptr) (p q : ptr) : ptr → ptr :=
  λ r, if decide (r = p) then q else f r.

Lemma upd_eq f p q : upd f p q p = q.
Proof. unfold upd. by rewrite decide_True. Qed.

Lemma upd_ne f p q r : r ≠ p → upd f p q r = f r.
Proof. intros. unfold upd. by rewrite decide_False. Qed.

(** Storing a new entry in a slot. *)
Definition store h (i : Z) (e : list_entry Key) : heap Key :=
  set_pool h (set_memory (pool h) (lset (memory_ (pool h)) i e)).

Lemma nxt_store h i e r : 0 ≤ i < zlen (memory_ (pool h)) →
  nxt (store h i e) r = upd (nxt h) (PSlot i) (next e) r.
Proof.
  intros Hi. unfold nxt, upd. destruct r as [| |j]; cbn; [done..|].
  unfold rd. rewrite lget_lset by done. destruct (decide (i = j)) as [->|].
  - by rewrite decide_True.
  - rewrite decide_False by congruence. done.
Qed.

Lemma prv_store h i e r : 0 ≤ i < zlen (memory_ (pool h)) →
  prv (store h i e) r = upd (prv h) (PSlot i) (prev e) r.
Proof.
  intros Hi. unfold prv, upd. destruct r as [| |j]; cbn; [done..|].
  unfold rd. rewrite lget_lset by done. destruct (decide (i = j)) as [->|].
  - by rewrite decide_True.
  - rewrite decide_False by congruence. done.
Qed.

Lemma store_relinked h i e e' : lget (memory_ (pool h)) i = Some e →
  content_ e' = content_ e → relinked h (store h i e').
Proof.
  intros He Hc. split; cbn; try done.
  - by rewrite zlen_lset.
  - intros j. unfold contents. cbn.
    rewrite lget_lset by (by eapply lget_Some_range). destruct (decide _) as [<-|]; [|done].
    rewrite He. unfold fmap, option_fmap, option_map. by rewrite Hc.
Qed.

Lemma set_next_ok h p q : valid h p →
  ∃ h', set_next h p q = Ret h' ∧ relinked h h' ∧
    (∀ r, nxt h' r = upd (nxt h) p q r) ∧ (∀ r, prv h' r = prv h r).
Proof.
  destruct p as [| |i]; cbn; [done| |]; intros Hv.
  - eexists. split; [done|]. split; [done|].
    split; intros [| |j]; unfold upd; repeat case_decide; done.
  - pose proof Hv as [e He]%lget_in_range.
    rewrite (proj2 (rd_Ret _ _ _) He). cbn. rewrite wr_in_range by done. cbn.
    exists (store h i (ListEntry q (prev e) (content_ e))). split; [done|]. split_and!.
    + by eapply store_relinked.
    + intros r. by rewrite nxt_store.
    + intros r. rewrite prv_store by done. unfold upd. destruct (decide _) as [->|]; [|done].
      cbn. unfold prv. cbn. by rewrite (proj2 (rd_Ret _ _ _) He).
Qed.

Lemma set_prev_ok h p q : valid h p →
  ∃ h', set_prev h p q = Ret h' ∧ relinked h h' ∧
    (∀ r, prv h' r = upd (prv h) p q r) ∧ (∀ r, nxt h' r = nxt h r).
Proof.
  destruct p as [| |i]; cbn; [done| |]; intros Hv.
  - eexists. split; [done|]. split; [done|].
    split; intros [| |j]; unfold upd; repeat case_decide; done.
  - pose proof Hv as [e He]%lget_in_range.
    rewrite (proj2 (rd_Ret _ _ _) He). cbn. rewrite wr_in_range by done. cbn.
    exists (store h i (ListEntry (next e) q (content_ e))). split; [done|]. split_and!.
    + by eapply store_relinked.
    + intros r. by rewrite prv_store.
    + intros r. rewrite nxt_store by done. unfold upd. destruct (decide _) as [->|]; [|done].
      cbn. unfold nxt. cbn. by rewrite (proj2 (rd_Ret _ _ _) He).
Qed.

(** The ring of links through the head and the entries [L]. *)
Record ring h L : Prop := {
  ring_path : path (nxt h) (prv h) PHead (L ++ [PHead]);
  ring_nodup : NoDup (PHead :: L);
  ring_valid : ∀ p, p ∈ L → valid h p
}.

Lemma IsLonely_ok h p : valid h p →
  IsLonely h p = Ret (bool_decide (nxt h p = p) && bool_decide (prv h p = p)).
Proof. intros. unfold IsLonely. by rewrite get_next_ok, get_prev_ok. Qed.

Lemma ring_end_valid h L : ring h L → valid h (endp PHead L).
Proof.
  intros Hr. pose proof (endp_in PHead L) as [->|Hin]%elem_of_cons; [done|].
  by apply (ring_valid _ _ Hr).
Qed.

Lemma InsertAsPredecessor_ok h L x : ring h L → valid h x → x ≠ PHead → x ∉ L →
  nxt h x = x → prv h x = x →
  ∃ h', InsertAsPredecessor h PHead x = Ret h' ∧ relinked h h' ∧ ring h' (L ++ [x]).
Proof.
  intros Hring Hx Hhead HxL Hn Hp. pose proof Hring as [Hpath Hnd Hval].
  apply path_app in Hpath as [Hpath (HN & HP & _)].
  set (e := endp PHead L) in *. assert (valid h e) as He by by apply ring_end_valid.
  assert (e ∈ PHead :: L) as Hein by apply endp_in.
  assert (e ≠ x) as Hex by (intros ->; by apply elem_of_cons in Hein as [|]).
  unfold InsertAsPredecessor.
  rewrite IsLonely_ok, !bool_decide_true by done. cbn [andb mbind outcome_bind cassert].
  unfold IsListHead at 1. rewrite bool_decide_false by done. cbn [negb mbind outcome_bind cassert].
  destruct (set_next_ok h x PHead Hx) as (h1 & -> & R1 & N1 & P1). cbn [mbind outcome_bind].
  rewrite get_prev_ok, P1, HP by done. cbn [mbind outcome_bind].
  destruct (set_prev_ok h1 x e) as (h2 & -> & R2 & P2 & N2); [by eapply relinked_valid|].
  pose proof (relinked_trans _ _ _ R1 R2) as R12. cbn [mbind outcome_bind].
  assert (prv h2 PHead = e) as HP2.
  { by rewrite P2, upd_ne, P1. }
  rewrite get_prev_ok, HP2 by done. cbn [mbind outcome_bind].
  destruct (set_next_ok h2 e x) as (h3 & -> & R3 & N3 & P3); [by eapply relinked_valid|].
  pose proof (relinked_trans _ _ _ R12 R3) as R13. cbn [mbind outcome_bind].
  destruct (set_prev_ok h3 PHead x) as (h4 & -> & R4 & P4 & N4); [done|].
  pose proof (relinked_trans _ _ _ R13 R4) as R14. cbn [mbind outcome_bind].
  assert (∀ r, nxt h4 r = upd (upd (nxt h) x PHead) e x r) as HN4.
  { intros r. rewrite N4, N3. unfold upd. case_decide; [done|]. by rewrite N2, N1. }
  assert (∀ r, prv h4 r = upd (upd (prv h) x e) PHead x r) as HP4.
  { intros r. rewrite P4. unfold upd. case_decide; [done|]. rewrite P3, P2. unfold upd.
    by rewrite P1. }
  rewrite IsLonely_ok by by eapply relinked_valid.
  rewrite HN4, upd_ne, upd_eq by done. rewrite bool_decide_false by congruence. cbn [andb negb mbind outcome_bind cassert].
  exists h4. split; [done|]. split; [done|].
  apply NoDup_cons in Hnd as [Hh HndL]. split.
  - rewrite <- app_assoc. apply path_app. fold e. split.
    + apply (path_frame (nxt h) (prv h)); [done|by apply NoDup_cons| |].
      * intros r Hr. by rewrite HP4, !upd_ne by congruence.
      * intros r Hr Hre. rewrite HN4, !upd_ne; [done| |done].
        intros ->. by apply elem_of_cons in Hr as [|].
    + cbn [path app]. rewrite !HN4, !HP4. unfold upd.
      repeat case_decide; naive_solver.
  - apply (NoDup_app (PHead :: L) [x]). split; [by apply NoDup_cons|]. split; [|apply NoDup_singleton].
    intros r Hr ->%list_elem_of_singleton. by apply elem_of_cons in Hr as [|].
  - intros p [Hin| ->%list_elem_of_singleton]%elem_of_app; eapply relinked_valid; eauto.
Qed.

(** The neighbours of an entry of the ring. *)
Lemma ring_split h L1 x L2 : ring h (L1 ++ x :: L2) →
  ∃ n R, L2 ++ [PHead] = n :: R ∧
    path (nxt h) (prv h) PHead L1 ∧ nxt h (endp PHead L1) = x ∧ prv h x = endp PHead L1 ∧
    nxt h x = n ∧ prv h n = x ∧ path (nxt h) (prv h) n R.
Proof.
  intros [Hpath _ _]. rewrite <- app_assoc in Hpath.
  apply path_app in Hpath as [H1 (H2 & H3 & H4)].
  destruct (L2 ++ [PHead]) as [|n R] eqn:HL2; [by destruct L2|].
  destruct H4 as (H4 & H5 & H6). by exists n, R.
Qed.

Lemma endp_notin L1 (x : ptr) L2 : NoDup (PHead :: L1 ++ x :: L2) →
  endp PHead L1 ≠ x ∧ endp PHead L1 ∉ L2 ∧ x ≠ PHead ∧ x ∉ L1 ∧ x ∉ L2.
Proof.
  intros Hnd. apply (NoDup_app (PHead :: L1) (x :: L2)) in Hnd as (Hnd1 & Hdis & Hnd2).
  apply NoDup_cons in Hnd2 as [Hx _].
  pose proof (Hdis _ (endp_in PHead L1)) as He.
  assert (x ∉ PHead :: L1) as HxL by (intros Hin; apply (Hdis x Hin); by left).
  apply not_elem_of_cons in He as [? ?]. by apply not_elem_of_cons in HxL as [? ?].
Qed.

(** The ring after its links bypass an entry. *)
Lemma ring_unlink h h' L1 x L2 e n : ring h (L1 ++ x :: L2) → relinked h h' →
  e = endp PHead L1 → nxt h x = n →
  (∀ r, nxt h' r = upd (upd (nxt h) e n) x x r) →
  (∀ r, prv h' r = upd (upd (prv h) n e) x x r) → ring h' (L1 ++ L2).
Proof.
  intros Hring Hrel He Hn HN HP. pose proof Hring as [_ Hnd Hval].
  destruct (ring_split _ _ _ _ Hring) as (n' & R & HL2 & Hp1 & _ & _ & Hn' & _ & Hp2).
  assert (n' = n) as -> by congruence. clear Hn' Hn.
  destruct (endp_notin _ _ _ Hnd) as (Hex & HeL2 & Hxh & HxL1 & HxL2).
  rewrite <- He in *.
  assert (NoDup (PHead :: L1) ∧ NoDup (n :: R)) as [Hnd1 Hnd2].
  { rewrite <- HL2. apply (NoDup_app (PHead :: L1) (x :: L2)) in Hnd as (? & Hdis & Hnd2).
    split; [done|]. apply NoDup_cons in Hnd2 as [_ ?]. apply NoDup_app. split; [done|].
    split; [|apply NoDup_singleton]. intros r Hr ->%list_elem_of_singleton.
    apply (Hdis PHead); [by left|by right]. }
  assert (x ∉ n :: R) as HxR.
  { rewrite <- HL2. intros [|?%list_elem_of_singleton]%elem_of_app; congruence. }
  split.
  - rewrite <- app_assoc, HL2. apply path_app. rewrite <- He. split.
    + apply (path_frame (nxt h) (prv h)); [done..| |].
      * intros r Hr. rewrite HP, !upd_ne; [done| |congruence]. intros ->.
        assert (n ∈ L2 ++ [PHead]) as Hin by (rewrite HL2; by left).
        apply elem_of_app in Hin as [Hin|Hin%list_elem_of_singleton].
        -- apply (NoDup_app (PHead :: L1) (x :: L2)) in Hnd as (_ & Hdis & _).
           apply (Hdis n); by right.
        -- subst n. by apply NoDup_cons in Hnd1 as [].
      * intros r Hr Hre. rewrite <- He in Hre. rewrite HN, !upd_ne; [done..|].
        intros ->. by apply elem_of_cons in Hr as [|].
    + assert (n ≠ x) by (intros ->; apply HxR; by left). cbn [path].
      split_and!; [rewrite HN, upd_ne by congruence; apply upd_eq
                  |rewrite HP, upd_ne by congruence; apply upd_eq|].
      apply (path_frame (nxt h) (prv h)); [done..| |].
      * intros r Hr. apply NoDup_cons in Hnd2 as [HnR _].
        rewrite HP, !upd_ne; [done|congruence|]. intros ->. apply HxR. by right.
      * intros r Hr Hre. rewrite HN, !upd_ne; [done| |congruence]. intros ->.
        rewrite <- HL2 in Hr. apply elem_of_app in Hr as [Hr|Hr%list_elem_of_singleton]; [done|].
        apply Hre. rewrite Hr. rewrite <- (endp_cons PHead), <- HL2.
        unfold endp. by rewrite last_snoc.
  - apply (NoDup_app (PHead :: L1) (x :: L2)) in Hnd as (? & Hdis & [_ ?]%NoDup_cons).
    apply (NoDup_app (PHead :: L1) L2). split_and!; [done| |done].
    intros r Hr Hr2. apply (Hdis r Hr). by right.
  - intros p Hp. eapply relinked_valid; [done|]. apply Hval.
    apply elem_of_app in Hp as [?|?]; apply elem_of_app; [by left|right; by right].
Qed.

Lemma RemoveFromList_ok h L1 x L2 : ring h (L1 ++ x :: L2) →
  ∃ h', RemoveFromList h x = Ret h' ∧ relinked h h' ∧ ring h' (L1 ++ L2) ∧
    nxt h' x = x ∧ prv h' x = x.
Proof.
  intros Hring. pose proof Hring as [_ Hnd Hval].
  destruct (ring_split _ _ _ _ Hring) as (n & R & HL2 & Hp1 & HNe & HPx & HNx & HPn & _).
  destruct (endp_notin _ _ _ Hnd) as (Hex & HeL2 & Hxh & HxL1 & HxL2).
  set (e := endp PHead L1) in *.
  assert (valid h x) as Hx by (apply Hval, elem_of_app; right; by left).
  assert (n ∈ L2 ++ [PHead]) as Hn by (rewrite HL2; by left).
  assert (valid h n ∧ n ≠ x) as [Hvn Hnx].
  { apply elem_of_app in Hn as [Hn| ->%list_elem_of_singleton]; [|done].
    split; [apply Hval, elem_of_app; right; by right|congruence]. }
  assert (valid h e) as Hve.
  { pose proof (endp_in PHead L1) as [He|He]%elem_of_cons; fold e in He; [by rewrite He|].
    apply Hval, elem_of_app. by left. }
  unfold RemoveFromList, IsListHead. rewrite bool_decide_false by done.
  cbn [negb mbind outcome_bind cassert]. rewrite IsLonely_ok by done.
  rewrite HNx, (bool_decide_false (n = x)) by done. cbn [negb andb mbind outcome_bind cassert].
  rewrite get_prev_ok, HPx by done. cbn [mbind outcome_bind].
  rewrite get_next_ok, HNx by done. cbn [mbind outcome_bind].
  destruct (set_next_ok h e n Hve) as (h1 & -> & R1 & N1 & P1). cbn [mbind outcome_bind].
  rewrite get_next_ok, N1, upd_ne, HNx by (done || by eapply relinked_valid).
  cbn [mbind outcome_bind].
  rewrite get_prev_ok, P1, HPx by (by eapply relinked_valid). cbn [mbind outcome_bind].
  destruct (set_prev_ok h1 n e) as (h2 & -> & R2 & P2 & N2); [by eapply relinked_valid|].
  pose proof (relinked_trans _ _ _ R1 R2) as R12. cbn [mbind outcome_bind].
  destruct (set_next_ok h2 x x) as (h3 & -> & R3 & N3 & P3); [by eapply relinked_valid|].
  pose proof (relinked_trans _ _ _ R12 R3) as R13. cbn [mbind outcome_bind].
  destruct (set_prev_ok h3 x x) as (h4 & -> & R4 & P4 & N4); [by eapply relinked_valid|].
  pose proof (relinked_trans _ _ _ R13 R4) as R14.
  assert (∀ r, nxt h4 r = upd (upd (nxt h) e n) x x r) as HN4.
  { intros r. rewrite N4, N3. unfold upd. case_decide; [done|]. by rewrite N2, N1. }
  assert (∀ r, prv h4 r = upd (upd (prv h) n e) x x r) as HP4.
  { intros r. rewrite P4. unfold upd. case_decide; [done|]. rewrite P3, P2. unfold upd.
    by rewrite P1. }
  exists h4. split_and!; [done|done| |by rewrite HN4, upd_eq|by rewrite HP4, upd_eq].
  by eapply (ring_unlink h h4 L1 x L2 e n).
Qed.

Lemma ring_ext h h' L : ring h L →
  (∀ p, p ∈ PHead :: L → nxt h' p = nxt h p ∧ prv h' p = prv h p) →
  (∀ p, p ∈ L → valid h' p) → ring h' L.
Proof.
  intros [Hpath Hnd _] Heq Hval. split; [|done|done].
  assert (∀ p, p ∈ L ++ [PHead] → p ∈ PHead :: L) as Hin.
  { intros p [?| ->%list_elem_of_singleton]%elem_of_app; [by right|by left]. }
  assert (PHead ∈ PHead :: L) as Hh by by left.
  revert Hpath Hin Hh. generalize (L ++ [PHead]). generalize PHead at 1 3 5.
  intros p L'. revert p. induction L' as [|x L' IH]; intros p; [done|].
  intros (HN & HP & Hpath) Hin Hp. cbn [path].
  rewrite (proj1 (Heq p Hp)), (proj2 (Heq x ltac:(apply Hin; by left))).
  split_and!; [done|done|]. apply IH; [done|intros; apply Hin; by right|apply Hin; by left].
Qed.

Definition slots (T : list (Z * Key)) : list ptr := PSlot <$> T.*1.

(** The heap holds the list [T] of slots with their contents, least recently
    used first; [A] is the set of slots in use. *)
Record list_inv h (T : list (Z * Key)) (A : gset Z) : Prop := {
  li_ring : ring h (slots T);
  li_contents : ∀ i k, (i, k) ∈ T → contents h i = Some k;
  li_pool : pool_ok (pool h) A;
  li_used : ∀ i, i ∈ T.*1 → i ∈ A
}.

Definition list_ok h T : Prop := list_inv h T (list_to_set T.*1).

Lemma slots_app T1 T2 : slots (T1 ++ T2) = slots T1 ++ slots T2.
Proof. unfold slots. by rewrite !fmap_app. Qed.

Lemma elem_of_slots T i : PSlot i ∈ slots T ↔ i ∈ T.*1.
Proof. unfold slots. rewrite list_elem_of_fmap. naive_solver. Qed.

Lemma elem_of_slots_inv T p : p ∈ slots T → ∃ i, p = PSlot i ∧ i ∈ T.*1.
Proof. unfold slots. rewrite list_elem_of_fmap. naive_solver. Qed.

Lemma ring_keys_nodup h T : ring h (slots T) → NoDup T.*1.
Proof. intros [_ [_ Hnd]%NoDup_cons _]. by apply NoDup_fmap_1 in Hnd. Qed.

Lemma pool_valid h A i : pool_ok (pool h) A → i ∈ A → valid h (PSlot i).
Proof.
  intros [Ha _ _] Hi. cbn. rewrite (bits_memory _ _ Ha). by apply (bits_range _ _ Ha).
Qed.

Lemma list_ok_size h T : list_ok h T → size (list_to_set T.*1 : gset Z) = length T.
Proof.
  intros [Hr _ _ _]. rewrite size_list_to_set by by eapply ring_keys_nodup.
  apply length_fmap.
Qed.

Lemma Construct_ok h T A k : list_inv h T A → Z.of_nat (size A) < num_slots_ (pool h) →
  ∃ h' i, Construct h k = Ret (h', PSlot i) ∧ i ∉ A ∧ list_inv h' T ({[i]} ∪ A) ∧
    contents h' i = Some k ∧ nxt h' (PSlot i) = PSlot i ∧ prv h' (PSlot i) = PSlot i ∧
    num_slots_ (pool h') = num_slots_ (pool h) ∧ pool_bytes_ (pool h') = pool_bytes_ (pool h).
Proof.
  intros [Hring Hc Hpool Hused] Hsz.
  destruct (PoolAllocate_ok _ _ Hpool Hsz) as (a & i & Hal & Hi & HiA & Hpool' & Hn & Hmem & Hby).
  assert (0 ≤ i < zlen (memory_ a)) as Hi'.
  { rewrite Hmem, (bits_memory _ _ (pool_bits _ _ Hpool)). done. }
  unfold Construct. rewrite Hal. cbn [mbind outcome_bind]. rewrite wr_in_range by done.
  cbn [mbind outcome_bind]. set (e := ListEntry (PSlot i) (PSlot i) k).
  assert (∀ p, nxt (set_pool h a) p = nxt h p ∧ prv (set_pool h a) p = prv h p) as Heq.
  { intros p. unfold nxt, prv. destruct p; cbn; by rewrite ?Hmem. }
  exists (store (set_pool h a) i e), i. split; [done|]. split; [done|]. split_and!.
  - split.
    + apply (ring_ext h); [done| |].
      * intros p Hp. rewrite nxt_store, prv_store, !upd_ne, !(proj1 (Heq p)), (proj2 (Heq p));
          try done; intros ->; apply HiA, Hused, elem_of_slots;
          by apply elem_of_cons in Hp as [|].
      * intros p Hp. apply (ring_valid _ _ Hring) in Hp. destruct p; cbn in *; [done..|].
        by rewrite zlen_lset, Hmem.
    + intros j k' Hj. rewrite <- (Hc j k') by done. unfold contents. cbn.
      rewrite lget_lset_ne, Hmem; [done|]. intros ->. apply HiA, Hused, list_elem_of_fmap.
      by exists (j, k').
    + destruct Hpool' as [[] ? ?]. split; [|done..]. split; try done. cbn. by rewrite zlen_lset.
    + intros j Hj%Hused. set_solver.
  - unfold contents. cbn. by rewrite lget_lset_eq.
  - by rewrite nxt_store, upd_eq.
  - by rewrite prv_store, upd_eq.
  - done.
  - done.
Qed.

Lemma PushBack_ok h T k : list_ok h T → Z.of_nat (length T) < num_slots_ (pool h) →
  ∃ h' i, PushBack h k = Ret (h', PSlot i) ∧ i ∉ T.*1 ∧ list_ok h' (T ++ [(i, k)]) ∧
    num_slots_ (pool h') = num_slots_ (pool h) ∧ pool_bytes_ (pool h') = pool_bytes_ (pool h).
Proof.
  intros Hok Hsz. destruct (Construct_ok h T _ k Hok) as
    (h1 & i & Hcon & HiA & [Hring Hc Hpool Hused] & Hk & Hn & Hp & Hs & Hby).
  { by rewrite (list_ok_size h). }
  assert (i ∉ T.*1) as HiT by set_solver.
  destruct (InsertAsPredecessor_ok h1 (slots T) (PSlot i)) as (h2 & Hins & Hrel & Hring2);
    try done; [by apply (pool_valid _ _ _ Hpool), elem_of_union_l, elem_of_singleton
              |by rewrite elem_of_slots|].
  unfold PushBack. rewrite Hcon. cbn [mbind outcome_bind]. rewrite Hins.
  exists h2, i. split; [done|]. split; [done|].
  split; [|by rewrite (rl_slots _ _ Hrel), (rl_bytes _ _ Hrel)]. split.
  - by rewrite slots_app.
  - intros j k' [Hj|Heq%list_elem_of_singleton]%elem_of_app; rewrite (rl_contents _ _ Hrel); [eauto|].
    congruence.
  - apply (relinked_pool h1); [done|]. rewrite fmap_app, list_to_set_app_L. cbn.
    by rewrite union_empty_r_L, union_comm_L.
  - intros j. by rewrite elem_of_list_to_set.
Qed.

Lemma list_inv_remove h h' T1 i k T2 A : list_inv h (T1 ++ (i, k) :: T2) A →
  relinked h h' → ring h' (slots (T1 ++ T2)) → list_inv h' (T1 ++ T2) A ∧ contents h' i = Some k.
Proof.
  intros [Hring Hc Hpool Hused] Hrel Hring'. split; [|rewrite (rl_contents _ _ Hrel); apply Hc;
    apply elem_of_app; right; by left]. split; [done| | |].
  - intros j k' Hj. rewrite (rl_contents _ _ Hrel). apply Hc.
    apply elem_of_app in Hj as [?|?]; apply elem_of_app; [by left|right; by right].
  - by eapply relinked_pool.
  - intros j Hj. apply Hused. rewrite fmap_app in *.
    apply elem_of_app in Hj as [?|?]; apply elem_of_app; [by left|right; by right].
Qed.

Lemma Destruct_pool h A i : pool_ok (pool h) A → i ∈ A →
  ∃ a, Destruct h (PSlot i) = Ret (set_pool h a) ∧ pool_ok a (A ∖ {[i]}) ∧
    (∀ p, nxt (set_pool h a) p = nxt h p ∧ prv (set_pool h a) p = prv h p) ∧
    same_pool (pool h) a.
Proof.
  intros Hpool HiA.
  destruct (Deallocate_ok _ _ i Hpool HiA) as (a & Hde & Hpool' & Hn & Hmem & Hby).
  unfold Destruct. rewrite Hde. cbn [mbind outcome_bind]. exists a.
  split_and!; try done. intros p. unfold nxt, prv. destruct p; cbn; by rewrite ?Hmem.
Qed.

Lemma Destruct_ok h T A i : list_inv h T A → i ∈ A → i ∉ T.*1 →
  ∃ h', Destruct h (PSlot i) = Ret h' ∧ list_inv h' T (A ∖ {[i]}) ∧
    num_slots_ (pool h') = num_slots_ (pool h) ∧ pool_bytes_ (pool h') = pool_bytes_ (pool h).
Proof.
  intros [Hring Hc Hpool Hused] HiA HiT.
  destruct (Destruct_pool h A i Hpool HiA) as (a & Hde & Hpool' & Heq & Hn & Hmem & Hby).
  exists (set_pool h a). split; [done|]. split; [|done]. split.
  - apply (ring_ext h); [done|by intros|]. intros p Hp%(ring_valid _ _ Hring).
    destruct p; cbn in *; by rewrite ?Hmem.
  - intros j k Hj. unfold contents. cbn. rewrite Hmem. by apply Hc.
  - done.
  - intros j Hj. apply elem_of_difference. split; [by apply Hused|].
    intros ->%elem_of_singleton. done.
Qed.

Lemma list_ok_nodup h T1 (i : Z) (k : Key) T2 : list_ok h (T1 ++ (i, k) :: T2) →
  i ∉ (T1 ++ T2).*1.
Proof.
  intros [Hring _ _ _]. apply ring_keys_nodup in Hring. rewrite fmap_app in *. cbn in Hring.
  apply NoDup_app in Hring as (_ & Hdis & [? _]%NoDup_cons).
  rewrite elem_of_app. intros [Hin|?]; [|done]. apply (Hdis i Hin). by left.
Qed.

Lemma list_to_set_remove T1 (i : Z) (k : Key) T2 : i ∉ (T1 ++ T2).*1 →
  list_to_set (T1 ++ (i, k) :: T2).*1 ∖ {[i]} = (list_to_set (T1 ++ T2).*1 : gset Z).
Proof.
  intros Hi. rewrite !fmap_app, fmap_cons in *. cbn [fst]. apply leibniz_equiv. intros j.
  rewrite elem_of_difference, !elem_of_list_to_set, !elem_of_app, elem_of_cons, elem_of_singleton.
  rewrite elem_of_app in Hi. destruct (decide (j = i)) as [->|]; intuition congruence.
Qed.

(** [RemoveFromList] followed by [Destruct]. *)
Lemma Unlink_ok h T1 i k T2 : list_ok h (T1 ++ (i, k) :: T2) →
  ∃ h1 h2, RemoveFromList h (PSlot i) = Ret h1 ∧ Destruct h1 (PSlot i) = Ret h2 ∧
    contents h i = Some k ∧ contents h1 i = Some k ∧ list_ok h2 (T1 ++ T2) ∧
    num_slots_ (pool h2) = num_slots_ (pool h) ∧ pool_bytes_ (pool h2) = pool_bytes_ (pool h).
Proof.
  intros Hok. pose proof (list_ok_nodup _ _ _ _ _ Hok) as Hi.
  destruct (RemoveFromList_ok h (slots T1) (PSlot i) (slots T2))
    as (h1 & Hrem & Hrel & Hring & _ & _).
  { pose proof (li_ring _ _ _ Hok) as Hr. by rewrite slots_app in Hr. }
  rewrite <- slots_app in Hring.
  destruct (list_inv_remove _ h1 _ _ _ _ _ Hok Hrel Hring) as [Hok1 Hk].
  destruct (Destruct_ok h1 _ _ i Hok1) as (h2 & Hde & Hok2 & Hs & Hby); [|done|].
  { apply elem_of_list_to_set. rewrite fmap_app. apply elem_of_app. right. by left. }
  rewrite list_to_set_remove in Hok2 by done.
  exists h1, h2. split_and!; try done.
  - by rewrite <- (rl_contents _ _ Hrel).
  - by rewrite Hs, (rl_slots _ _ Hrel).
  - by rewrite Hby, (rl_bytes _ _ Hrel).
Qed.

Lemma content_ok h i k : contents h i = Some k → content h (PSlot i) = Ret k.
Proof.
  unfold contents, content, rd. destruct (lget _ i) as [e|]; [|done]. cbn. by intros [= ->].
Qed.

Lemma Pop_ok h T1 i k T2 : list_ok h (T1 ++ (i, k) :: T2) →
  ∃ h', Pop h (PSlot i) = Ret (h', k) ∧ list_ok h' (T1 ++ T2) ∧
    num_slots_ (pool h') = num_slots_ (pool h) ∧ pool_bytes_ (pool h') = pool_bytes_ (pool h).
Proof.
  intros Hok. destruct (Unlink_ok _ _ _ _ _ Hok) as (h1 & h2 & Hrem & Hde & _ & Hk & Hok2 & ?).
  unfold Pop, IsListHead. rewrite bool_decide_false by done.
  cbn [negb cassert mbind outcome_bind]. rewrite Hrem. cbn [mbind outcome_bind].
  rewrite (content_ok _ _ _ Hk). cbn [mbind outcome_bind]. rewrite Hde. by exists h2.
Qed.

Lemma IsEmpty_ok h T : list_ok h T → IsLonely h PHead = Ret (bool_decide (T = [])).
Proof.
  intros [[Hpath Hnd _] _ _ _]. rewrite IsLonely_ok by done.
  destruct T as [|[i k] T]; destruct Hpath as (HN & HP & _).
  - by rewrite HN, HP.
  - by rewrite HN, !bool_decide_false by done.
Qed.

Lemma PopFront_ok h i k T : list_ok h ((i, k) :: T) →
  ∃ h', PopFront h = Ret (h', k) ∧ list_ok h' T ∧
    num_slots_ (pool h') = num_slots_ (pool h) ∧ pool_bytes_ (pool h') = pool_bytes_ (pool h).
Proof.
  intros Hok. unfold PopFront. rewrite (IsEmpty_ok _ _ Hok), bool_decide_false by done.
  cbn [negb cassert mbind outcome_bind]. rewrite get_next_ok by done.
  pose proof (li_ring _ _ _ Hok) as [(-> & _) _ _]. cbn [mbind outcome_bind].
  by apply (Pop_ok h [] i k T).
Qed.

Lemma MoveToBack_ok h T1 i k T2 : list_ok h (T1 ++ (i, k) :: T2) →
  ∃ h', MoveToBack h (PSlot i) = Ret h' ∧ list_ok h' ((T1 ++ T2) ++ [(i, k)]) ∧
    num_slots_ (pool h') = num_slots_ (pool h) ∧ pool_bytes_ (pool h') = pool_bytes_ (pool h).
Proof.
  intros Hok. pose proof (list_ok_nodup _ _ _ _ _ Hok) as Hi.
  assert (ring h (slots T1 ++ PSlot i :: slots T2)) as Hr.
  { pose proof (li_ring _ _ _ Hok) as Hr. by rewrite slots_app in Hr. }
  destruct (RemoveFromList_ok _ _ _ _ Hr) as (h1 & Hrem & Hrel & Hring & Hn & Hp).
  rewrite <- slots_app in Hring.
  destruct (list_inv_remove _ h1 _ _ _ _ _ Hok Hrel Hring) as [[_ Hc Hpool Hused] Hk].
  assert (valid h (PSlot i)) as Hvi by (apply (ring_valid _ _ Hr), elem_of_app; right; by left).
  destruct (InsertAsPredecessor_ok h1 _ (PSlot i) Hring) as (h2 & Hins & Hrel2 & Hring2);
    try done; [by eapply relinked_valid|by rewrite elem_of_slots|].
  unfold MoveToBack. rewrite IsLonely_ok by done.
  destruct (ring_split _ _ _ _ Hr) as (n & R & HL2 & _ & _ & _ & HNx & _ & _).
  destruct (endp_notin _ _ _ (ring_nodup _ _ Hr)) as (_ & _ & _ & _ & HxL2).
  rewrite HNx, (bool_decide_false (n = _)).
  2:{ intros ->. assert (PSlot i ∈ slots T2 ++ [PHead]) as Hin by (rewrite HL2; by left).
      by apply elem_of_app in Hin as [|?%list_elem_of_singleton]. }
  cbn [negb andb cassert mbind outcome_bind]. rewrite Hrem. cbn [mbind outcome_bind].
  rewrite Hins. exists h2. split; [done|].
  split; [|by rewrite (rl_slots _ _ Hrel2), (rl_bytes _ _ Hrel2), (rl_slots _ _ Hrel),
             (rl_bytes _ _ Hrel)]. split.
  - by rewrite slots_app.
  - intros j k' [Hj|Heq%list_elem_of_singleton]%elem_of_app; rewrite (rl_contents _ _ Hrel2);
      [eauto|congruence].
  - eapply relinked_pool; [done|]. replace (list_to_set _ : gset Z)
      with (list_to_set (T1 ++ (i, k) :: T2).*1 : gset Z); [done|].
    rewrite !fmap_app, fmap_cons, !list_to_set_app_L, list_to_set_cons. cbn.
    clear. set_solver.
  - intros j. by rewrite elem_of_list_to_set.
Qed.

Lemma clear_loop_ok T : ∀ fuel h p A, (length T < fuel)%nat → NoDup T.*1 →
  path (nxt h) (prv h) p (slots T ++ [PHead]) → pool_ok (pool h) A →
  (∀ i, i ∈ T.*1 → i ∈ A) →
  ∃ a, clear_loop fuel h (nxt h p) = Ret (set_pool h a) ∧
    pool_ok a (A ∖ list_to_set T.*1) ∧ same_pool (pool h) a.
Proof.
  induction T as [|[i k] T IH]; intros [|fuel] h p A Hf Hnd Hpath Hpool Hsub;
    try (cbn in Hf; lia).
  - destruct Hpath as (-> & _). exists (pool h). cbn. split; [by destruct h|].
    rewrite difference_empty_L. done.
  - destruct Hpath as (-> & HP & Hpath). fold (slots T) in Hpath.
    apply NoDup_cons in Hnd as [Hi Hnd].
    destruct (Destruct_pool h A i Hpool) as (a & Hde & Hpool' & Heq & Hsame);
      [apply Hsub; by left|].
    cbn [clear_loop]. unfold IsListHead. rewrite bool_decide_false by done.
    rewrite get_next_ok by (eapply pool_valid; [done|apply Hsub; by left]).
    cbn [mbind outcome_bind fst]. rewrite Hde. cbn [mbind outcome_bind].
    rewrite <- (proj1 (Heq (PSlot i))).
    destruct (IH fuel (set_pool h a) (PSlot i) (A ∖ {[i]})) as (a' & Hcl & Hpool2 & Hsame2).
    + cbn in Hf. lia.
    + done.
    + apply (path_ext (nxt h) (prv h)); [done|intros; apply Heq..].
    + done.
    + intros j Hj. apply elem_of_difference. split; [apply Hsub; by right|].
      intros ->%elem_of_singleton. by destruct Hi.
    + exists a'. split; [done|]. rewrite fmap_cons, list_to_set_cons.
      rewrite <- difference_difference_l_L. split; [done|].
      destruct Hsame as (? & ? & ?), Hsame2 as (? & ? & ?). cbn in *. split_and!; congruence.
Qed.

Lemma clear_ok h T : list_ok h T →
  ∃ h', clear h = Ret h' ∧ list_ok h' [] ∧
    num_slots_ (pool h') = num_slots_ (pool h) ∧ pool_bytes_ (pool h') = pool_bytes_ (pool h).
Proof.
  intros Hok. pose proof Hok as [Hring _ Hpool Hused].
  destruct (clear_loop_ok T (S (Z.to_nat (num_slots_ (pool h)))) h PHead (list_to_set T.*1))
    as (a & Hcl & Hpool' & Hn & Hmem & Hby).
  - pose proof (used_bound _ _ (pool_bits _ _ Hpool)) as Hb.
    rewrite (list_ok_size h) in Hb by done. lia.
  - by eapply ring_keys_nodup.
  - apply (ring_path _ _ Hring).
  - done.
  - done.
  - unfold clear. change (head_next h) with (nxt h PHead). rewrite Hcl.
    cbn [mbind outcome_bind pool set_pool]. eexists. split; [done|]. split; [|done].
    rewrite difference_diag_L in Hpool'. split; [split|..]; cbn; try done.
    + apply NoDup_singleton.
    + by intros p ?%elem_of_nil.
    + by intros i k ?%elem_of_nil.
    + by intros i ?%elem_of_nil.
Qed.
End ListTheory.
