(* ===== verification/LruCache.v ===== *)
(** * The LRU cache, part 2: the cache (src/cvmfs/lru.h)

    [LruCache] keeps its entries in a hash map and their order in the list of
    [LruList].  The cache
    refines a list of key-value pairs from the least to the most recently used
    one. *)

From stdpp Require Import base list numbers gmap.
From S2P Require Import Prelude Interfaces LruList.

Open Scope Z_scope.

(** ** The cache: [LruCache] *)

(** The performance counters. *)
Inductive counter :=
| sz_size | n_hit | n_miss | n_insert | n_insert_negative | n_update
| n_update_value | n_replace | n_forget | n_drop | sz_allocated.

#[export] Instance counter_eq_dec : EqDecision counter.
Proof. solve_decision. Defined.

Definition Xadd (c : counter → Z) (id : counter) (n : Z) : counter → Z :=
  λ x, if decide (x = id) then i64 (c x + n) else c x.
Definition Set_ (c : counter → Z) (id : counter) (n : Z) : counter → Z :=
  λ x, if decide (x = id) then i64 n else c x.
Definition Inc (c : counter → Z) (id : counter) : counter → Z := Xadd c id 1.

Record cache_entry (Value : Type) := CacheEntry { entry_ptr : ptr; entry_value : Value }.
Arguments CacheEntry {Value} _ _.
Arguments entry_ptr {Value} _.
Arguments entry_value {Value} _.

Section LruCache.
Context {Key Value M : Type} `{Countable Key} `{!BoundedMap Key (cache_entry Value) M}.
(** Zeroed memory read as a key, and the size of a list entry. *)
Context (key0 : Key) (sizeof_Entry : Z).

Record lru := Lru {
  counters_ : counter → Z;
  pause_ : bool;
  cache_gauge_ : Z;
  cache_size_ : Z;
  lru_list_ : heap Key;
  cache_ : M;
  filter_entry_ : option ptr;
  lock_ : bool
}.

Definition count (s : lru) (id : counter) : lru :=
  Lru (Inc (counters_ s) id) (pause_ s) (cache_gauge_ s) (cache_size_ s)
    (lru_list_ s) (cache_ s) (filter_entry_ s) (lock_ s).
Definition set_counters (s : lru) (c : counter → Z) : lru :=
  Lru c (pause_ s) (cache_gauge_ s) (cache_size_ s) (lru_list_ s) (cache_ s)
    (filter_entry_ s) (lock_ s).
Definition set_pause (s : lru) (b : bool) : lru :=
  Lru (counters_ s) b (cache_gauge_ s) (cache_size_ s) (lru_list_ s) (cache_ s)
    (filter_entry_ s) (lock_ s).
Definition set_gauge (s : lru) (n : Z) : lru :=
  Lru (counters_ s) (pause_ s) n (cache_size_ s) (lru_list_ s) (cache_ s)
    (filter_entry_ s) (lock_ s).
Definition set_list (s : lru) (h : heap Key) : lru :=
  Lru (counters_ s) (pause_ s) (cache_gauge_ s) (cache_size_ s) h (cache_ s)
    (filter_entry_ s) (lock_ s).
Definition set_cache (s : lru) (m : M) : lru :=
  Lru (counters_ s) (pause_ s) (cache_gauge_ s) (cache_size_ s) (lru_list_ s) m
    (filter_entry_ s) (lock_ s).
Definition set_filter (s : lru) (p : option ptr) : lru :=
  Lru (counters_ s) (pause_ s) (cache_gauge_ s) (cache_size_ s) (lru_list_ s) (cache_ s)
    p (lock_ s).
Definition set_lock (s : lru) (b : bool) : lru :=
  Lru (counters_ s) (pause_ s) (cache_gauge_ s) (cache_size_ s) (lru_list_ s) (cache_ s)
    (filter_entry_ s) b.

(** The mutex is not recursive. *)
Definition Lock (s : lru) : outcome lru :=
  if lock_ s then Fail Deadlock else Ret (set_lock s true).
Definition Unlock (s : lru) : lru := set_lock s false.

Definition zero_entry : list_entry Key := ListEntry PNull PNull key0.

(** The constructor; [cache_size] is a [uint32_t]. *)
Definition LruInit (cache_size : Z) : outcome lru :=
  pool ← AllocatorInit zero_entry sizeof_Entry cache_size;
  _ ← cassert (cache_size >? 0);
  let cache := bm_init cache_size in
  let c := Set_ (λ _, 0) sz_size cache_size in
  let c := Xadd c sz_allocated (u64 (pool_bytes_ pool + bm_bytes_allocated cache)) in
  Ret (Lru c false 0 cache_size (Heap PHead PHead pool) cache None false).

Definition IsFull (s : lru) : bool := cache_gauge_ s >=? cache_size_ s.
Definition IsEmpty (s : lru) : bool := cache_gauge_ s =? 0.

Definition DoLookup (s : lru) (key : Key) : outcome (option (cache_entry Value)) :=
  bm_lookup (cache_ s) key.

Definition Touch (s : lru) (entry : cache_entry Value) : outcome lru :=
  h ← MoveToBack (lru_list_ s) (entry_ptr entry);
  Ret (set_list s h).

Definition DeleteOldest (s : lru) : outcome lru :=
  _ ← cassert (negb (IsEmpty s));
  let s := count s n_replace in
  '(h, delete_me) ← PopFront (lru_list_ s);
  let s := set_list s h in
  '(c, _) ← bm_erase (cache_ s) delete_me;
  let s := set_cache s c in
  Ret (set_gauge s (u32 (cache_gauge_ s - 1))).

Definition Insert (s : lru) (key : Key) (value : Value) : outcome (lru * bool) :=
  s ← Lock s;
  if pause_ s then Ret (Unlock s, false)
  else
    r ← DoLookup s key;
    match r with
    | Some entry =>
        let s := count s n_update in
        let entry := CacheEntry (entry_ptr entry) value in
        c ← bm_insert (cache_ s) key entry;
        s ← Touch (set_cache s c) entry;
        Ret (Unlock s, false)
    | None =>
        let s := count s n_insert in
        s ← (if IsFull s then DeleteOldest s else Ret s);
        '(h, p) ← PushBack (lru_list_ s) key;
        let s := set_list s h in
        c ← bm_insert (cache_ s) key (CacheEntry p value);
        let s := set_cache s c in
        let s := set_gauge s (u32 (cache_gauge_ s + 1)) in
        Ret (Unlock s, true)
    end.

Definition Update (s : lru) (key : Key) : outcome lru :=
  s ← Lock s;
  _ ← cassert (negb (pause_ s));
  r ← DoLookup s key;
  match r with
  | None => Fail AssertFailed
  | Some entry =>
      let s := count s n_update in
      s ← Touch s entry;
      Ret (Unlock s)
  end.

Definition UpdateValue (s : lru) (key : Key) (value : Value) : outcome (lru * bool) :=
  s ← Lock s;
  if pause_ s then Ret (Unlock s, false)
  else
    r ← DoLookup s key;
    match r with
    | None => Ret (Unlock s, false)
    | Some entry =>
        let s := count s n_update_value in
        c ← bm_insert (cache_ s) key (CacheEntry (entry_ptr entry) value);
        Ret (Unlock (set_cache s c), true)
    end.

(** [Lookup]: the value on a hit. *)
Definition Lookup (s : lru) (key : Key) (update_lru : bool)
    : outcome (lru * option Value) :=
  s ← Lock s;
  if pause_ s then Ret (Unlock s, None)
  else
    r ← DoLookup s key;
    match r with
    | Some entry =>
        let s := count s n_hit in
        s ← (if update_lru then Touch s entry else Ret s);
        Ret (Unlock s, Some (entry_value entry))
    | None => Ret (Unlock (count s n_miss), None)
    end.

Definition Forget (s : lru) (key : Key) : outcome (lru * bool) :=
  s ← Lock s;
  if pause_ s then Ret (Unlock s, false)
  else
    r ← DoLookup s key;
    match r with
    | Some entry =>
        let s := count s n_forget in
        h ← RemoveFromList (lru_list_ s) (entry_ptr entry);
        h ← Destruct h (entry_ptr entry);
        let s := set_list s h in
        '(c, _) ← bm_erase (cache_ s) key;
        let s := set_cache s c in
        Ret (Unlock (set_gauge s (u32 (cache_gauge_ s - 1))), true)
    | None => Ret (Unlock s, false)
    end.

Definition Drop (s : lru) : outcome lru :=
  s ← Lock s;
  let s := set_gauge s 0 in
  h ← clear (lru_list_ s);
  let s := set_list s h in
  let s := set_cache s (bm_clear (cache_ s)) in
  let s := count s n_drop in
  let c := Set_ (counters_ s) sz_allocated 0 in
  let c := Xadd c sz_allocated
    (u64 (pool_bytes_ (pool (lru_list_ s)) + bm_bytes_allocated (cache_ s))) in
  Ret (Unlock (set_counters s c)).

Definition Pause (s : lru) : outcome lru :=
  s ← Lock s; Ret (Unlock (set_pause s true)).
Definition Resume (s : lru) : outcome lru :=
  s ← Lock s; Ret (Unlock (set_pause s false)).

(** *** Iteration in the order of the list, under the lock *)

Definition FilterBegin (s : lru) : outcome lru :=
  _ ← cassert (bool_decide (filter_entry_ s = None));
  s ← Lock s;
  Ret (set_filter s (Some PHead)).

Definition filter_ptr (s : lru) : outcome ptr :=
  match filter_entry_ s with Some p => Ret p | None => Fail AssertFailed end.

Definition FilterGet (s : lru) : outcome (Key * Value) :=
  p ← filter_ptr s;
  _ ← cassert (negb (IsListHead p));
  key ← content (lru_list_ s) p;
  r ← DoLookup s key;
  match r with
  | Some entry => Ret (key, entry_value entry)
  | None => Fail AssertFailed
  end.

Definition FilterNext (s : lru) : outcome (lru * bool) :=
  p ← filter_ptr s;
  n ← get_next (lru_list_ s) p;
  Ret (set_filter s (Some n), negb (IsListHead n)).

Definition FilterDelete (s : lru) : outcome lru :=
  p ← filter_ptr s;
  _ ← cassert (negb (IsListHead p));
  new_current ← get_prev (lru_list_ s) p;
  let s := count s n_forget in
  k ← content (lru_list_ s) p;
  h ← RemoveFromList (lru_list_ s) p;
  h ← Destruct h p;
  let s := set_list s h in
  '(c, _) ← bm_erase (cache_ s) k;
  let s := set_cache s c in
  let s := set_gauge s (u32 (cache_gauge_ s - 1)) in
  Ret (set_filter s (Some new_current)).

Definition FilterEnd (s : lru) : outcome lru :=
  _ ← filter_ptr s;
  Ret (Unlock (set_filter s None)).
End LruCache.
Arguments lru : clear implicits.

(** ** The specification: a list of key-value pairs, least recently used first *)

Section LruSpec.
Context {Key Value : Type} `{EqDecision Key}.
Implicit Types (E : list (Key * Value)).

Fixpoint assoc (k : Key) E : option Value :=
  match E with
  | [] => None
  | (k', v) :: E => if decide (k' = k) then Some v else assoc k E
  end.

Definition without (k : Key) E : list (Key * Value) := filter (λ e, e.1 ≠ k) E.

Definition revalue (k : Key) (v : Value) E : list (Key * Value) :=
  (λ e, if decide (e.1 = k) then (k, v) else e) <$> E.

(** [cursor]: position of an open filter, [0] for the list head and [S j]
    for entry [j]. *)
Record lru_spec := LruSpec {
  entries : list (Key * Value);
  paused : bool;
  cursor : option nat
}.

Inductive lru_op :=
| OInsert (k : Key) (v : Value) | OUpdate (k : Key) | OUpdateValue (k : Key) (v : Value)
| OLookup (k : Key) (update_lru : bool) | OForget (k : Key) | ODrop | OPause | OResume
| OFilterBegin | OFilterGet | OFilterNext | OFilterDelete | OFilterEnd.

Inductive lru_reply :=
| RUnit | RBool (b : bool) | RValue (v : option Value) | REntry (k : Key) (v : Value).

(** The operations outside of a filter operation. *)
Definition spec_op (capacity : nat) E (paused : bool) (o : lru_op)
    : option (list (Key * Value) * bool * lru_reply) :=
  match o with
  | OInsert k v =>
      if paused then Some (E, paused, RBool false)
      else match assoc k E with
           | Some _ => Some (without k E ++ [(k, v)], paused, RBool false)
           | None =>
               let E := if (capacity <=? length E)%nat then tail E else E in
               Some (E ++ [(k, v)], paused, RBool true)
           end
  | OUpdate k =>
      if paused then None
      else match assoc k E with
           | Some v => Some (without k E ++ [(k, v)], paused, RUnit)
           | None => None
           end
  | OUpdateValue k v =>
      if paused then Some (E, paused, RBool false)
      else match assoc k E with
           | Some _ => Some (revalue k v E, paused, RBool true)
           | None => Some (E, paused, RBool false)
           end
  | OLookup k update_lru =>
      if paused then Some (E, paused, RValue None)
      else match assoc k E with
           | Some v =>
               Some (if update_lru then without k E ++ [(k, v)] else E, paused, RValue (Some v))
           | None => Some (E, paused, RValue None)
           end
  | OForget k =>
      if paused then Some (E, paused, RBool false)
      else Some (without k E, paused, RBool (bool_decide (is_Some (assoc k E))))
  | ODrop => Some ([], paused, RUnit)
  | OPause => Some (E, true, RUnit)
  | OResume => Some (E, false, RUnit)
  | _ => None
  end.

(** The operations of a filter operation at position [c]. *)
Definition spec_filter E (c : nat) (o : lru_op)
    : option (list (Key * Value) * option nat * lru_reply) :=
  match o with
  | OFilterGet =>
      match c with
      | O => None
      | S j => '(k, v) ← E !! j; Some (E, Some c, REntry k v)
      end
  | OFilterNext =>
      if (c <? length E)%nat then Some (E, Some (S c), RBool true)
      else Some (E, Some 0%nat, RBool false)
  | OFilterDelete =>
      match c with O => None | S j => Some (delete j E, Some j, RUnit) end
  | OFilterEnd => Some (E, None, RUnit)
  | _ => None
  end.

Definition lru_spec_step (capacity : nat) (sp : lru_spec) (o : lru_op)
    : option (lru_spec * lru_reply) :=
  match cursor sp, o with
  | None, OFilterBegin => Some (LruSpec (entries sp) (paused sp) (Some 0%nat), RUnit)
  | None, _ =>
      '(E, p, r) ← spec_op capacity (entries sp) (paused sp) o;
      Some (LruSpec E p None, r)
  | Some c, _ =>
      '(E, c, r) ← spec_filter (entries sp) c o;
      Some (LruSpec E (paused sp) c, r)
  end.

Fixpoint lru_spec_run (capacity : nat) (sp : lru_spec) (ops : list lru_op)
    : option (lru_spec * list lru_reply) :=
  match ops with
  | [] => Some (sp, [])
  | o :: ops =>
      '(sp, r) ← lru_spec_step capacity sp o;
      '(sp, rs) ← lru_spec_run capacity sp ops;
      Some (sp, r :: rs)
  end.

(** *** Lists split at a key *)

Lemma assoc_None k E : assoc k E = None ↔ k ∉ E.*1.
Proof.
  induction E as [|[k' v] E IH]; cbn [assoc]; [split; [|done]; intros _; apply not_elem_of_nil|].
  rewrite fmap_cons, not_elem_of_cons. cbn [fst]. destruct (decide _); [naive_solver|].
  rewrite IH. naive_solver.
Qed.

Lemma assoc_split k v E1 E2 : k ∉ E1.*1 → assoc k (E1 ++ (k, v) :: E2) = Some v.
Proof.
  induction E1 as [|[k' v'] E1 IH]; cbn [assoc app]; [by rewrite decide_True|].
  rewrite fmap_cons, not_elem_of_cons. cbn [fst]. intros [? ?].
  rewrite decide_False by congruence. auto.
Qed.

Lemma without_notin k E : k ∉ E.*1 → without k E = E.
Proof.
  intros Hk. apply filter_all. intros [k' v] Hin. cbn. intros ->. apply Hk.
  apply list_elem_of_fmap. by exists (k, v).
Qed.

Lemma without_split k v E1 E2 : k ∉ E1.*1 → k ∉ E2.*1 →
  without k (E1 ++ (k, v) :: E2) = E1 ++ E2.
Proof.
  intros. unfold without. rewrite filter_app, filter_cons_False by naive_solver.
  fold (without k E1) (without k E2). by rewrite !without_notin.
Qed.

Lemma revalue_notin k v E : k ∉ E.*1 → revalue k v E = E.
Proof.
  unfold revalue. induction E as [|[k' v'] E IH]; [done|].
  rewrite fmap_cons, not_elem_of_cons, fmap_cons. cbn [fst]. intros [? ?].
  rewrite decide_False by congruence. f_equal. auto.
Qed.

Lemma revalue_split k v v' E1 E2 : k ∉ E1.*1 → k ∉ E2.*1 →
  revalue k v' (E1 ++ (k, v) :: E2) = E1 ++ (k, v') :: E2.
Proof.
  intros. unfold revalue. rewrite fmap_app, fmap_cons. cbn [fst].
  rewrite decide_True by done. fold (revalue k v' E1) (revalue k v' E2).
  by rewrite !revalue_notin.
Qed.
End LruSpec.
Arguments lru_spec : clear implicits.
Arguments lru_op : clear implicits.
Arguments lru_reply : clear implicits.

(** ** The cache refines the specification *)

Section LruTheory.
Context {Key Value M : Type} `{Countable Key} `{!BoundedMap Key (cache_entry Value) M}.
Context (key0 : Key) (sizeof_Entry : Z).
Notation lru := (lru Key M).
(** Slot, key and value of the entries in the order of the list. *)
Notation triples := (list (Z * Key * Value)).
Implicit Types (s : lru) (T : triples).

Definition pair_of (t : Z * Key * Value) : Key * Value := (t.1.2, t.2).
Definition bind_of (t : Z * Key * Value) : Key * cache_entry Value :=
  (t.1.2, CacheEntry (PSlot t.1.1) t.2).

Definition pairs T : list (Key * Value) := pair_of <$> T.
Definition keys_of T : list Key := (pairs T).*1.
Definition map_of T : gmap Key (cache_entry Value) := list_to_map (bind_of <$> T).

Record lru_rep s T : Prop := {
  lr_list : list_ok (lru_list_ s) T.*1;
  lr_keys : NoDup (keys_of T);
  lr_nonempty : ∀ k, k ∈ keys_of T → k ≠ bm_empty_key;
  lr_map : bm_represents (cache_ s) (map_of T);
  lr_gauge : cache_gauge_ s = Z.of_nat (length T);
  lr_size : Z.of_nat (length T) ≤ cache_size_ s < 2 ^ 31;
  lr_pool : num_slots_ (pool (lru_list_ s)) = cache_size_ s;
  lr_slots : cache_size_ s < bm_slots (cache_ s)
}.

Lemma keys_of_bind T : (bind_of <$> T).*1 = keys_of T.
Proof. unfold keys_of, pairs. by rewrite <- !list_fmap_compose. Qed.

Lemma keys_of_app T1 T2 : keys_of (T1 ++ T2) = keys_of T1 ++ keys_of T2.
Proof. unfold keys_of, pairs. by rewrite !fmap_app. Qed.

Lemma keys_of_split T1 i k v T2 : NoDup (keys_of (T1 ++ (i, k, v) :: T2)) →
  k ∉ keys_of T1 ∧ k ∉ keys_of T2 ∧ NoDup (keys_of (T1 ++ T2)).
Proof.
  rewrite !keys_of_app. intros (? & Hdis & [Hk ?]%NoDup_cons)%NoDup_app.
  split_and!; [|done|].
  - intros Hin. apply (Hdis k Hin). by left.
  - apply NoDup_app. split_and!; [done| |done]. intros k' Hk1 Hk2. apply (Hdis k' Hk1). by right.
Qed.

Lemma map_of_size T : NoDup (keys_of T) → size (map_of T) = length T.
Proof.
  intros. unfold map_of. rewrite map_size_list_to_map by by rewrite keys_of_bind.
  apply length_fmap.
Qed.

Lemma map_of_notin T k : k ∉ keys_of T → map_of T !! k = None.
Proof. intros. apply not_elem_of_list_to_map_1. by rewrite keys_of_bind. Qed.

Lemma map_of_split T1 i k v T2 : NoDup (keys_of (T1 ++ (i, k, v) :: T2)) →
  map_of (T1 ++ (i, k, v) :: T2) = <[k := CacheEntry (PSlot i) v]> (map_of (T1 ++ T2)) ∧
  map_of (T1 ++ T2) !! k = None.
Proof.
  intros Hnd. destruct (keys_of_split _ _ _ _ _ Hnd) as (Hk1 & Hk2 & _). split.
  - change (<[k := CacheEntry (PSlot i) v]> (map_of (T1 ++ T2)))
      with (map_of ((i, k, v) :: T1 ++ T2)).
    unfold map_of. apply list_to_map_proper; [by rewrite keys_of_bind|].
    apply fmap_Permutation. by rewrite Permutation_middle.
  - apply map_of_notin. rewrite keys_of_app. by intros [|]%elem_of_app.
Qed.

Lemma map_of_lookup T k e : NoDup (keys_of T) → map_of T !! k = Some e →
  ∃ T1 i v T2, T = T1 ++ (i, k, v) :: T2 ∧ e = CacheEntry (PSlot i) v.
Proof.
  intros Hnd He. apply elem_of_list_to_map_2, list_elem_of_fmap in He as ([[i k'] v] & Heq & Hin).
  injection Heq as -> ->. apply list_elem_of_split in Hin as (T1 & T2 & ->).
  by exists T1, i, v, T2.
Qed.

(** Case analysis of a lookup. *)
Lemma DoLookup_cases s T k : lru_rep s T → k ≠ bm_empty_key →
  (DoLookup s k = Ret None ∧ k ∉ keys_of T) ∨
  ∃ T1 i v T2, T = T1 ++ (i, k, v) :: T2 ∧
    DoLookup s k = Ret (Some (CacheEntry (PSlot i) v)).
Proof.
  intros Hrep Hk. unfold DoLookup. rewrite (bm_lookup_ok _ (map_of T)).
  - destruct (map_of T !! k) as [e|] eqn:He.
    + right. destruct (map_of_lookup _ _ _ (lr_keys _ _ Hrep) He) as (T1 & i & v & T2 & -> & ->).
      by exists T1, i, v, T2.
    + left. split; [done|]. rewrite <- keys_of_bind. by apply not_elem_of_list_to_map_2.
  - apply (lr_map _ _ Hrep).
  - done.
  - rewrite map_of_size by apply (lr_keys _ _ Hrep).
    pose proof (lr_size _ _ Hrep). pose proof (lr_slots _ _ Hrep). lia.
Qed.

(** What the helpers leave alone. *)
Definition flags s := (pause_ s, filter_entry_ s, lock_ s, cache_size_ s).

Lemma list_split T1 i k v T2 :
  (T1 ++ (i, k, v) :: T2).*1 = T1.*1 ++ (i, k) :: T2.*1.
Proof. by rewrite fmap_app. Qed.

Lemma rep_bound s T : lru_rep s T → Z.of_nat (size (map_of T)) < bm_slots (cache_ s).
Proof. intros []. rewrite map_of_size by done. lia. Qed.

Lemma rep_key s T1 i k v T2 : lru_rep s (T1 ++ (i, k, v) :: T2) → k ≠ bm_empty_key.
Proof.
  intros Hrep. apply (lr_nonempty _ _ Hrep). rewrite keys_of_app. apply elem_of_app.
  right. by left.
Qed.

Lemma keys_of_move T1 t T2 : keys_of ((T1 ++ T2) ++ [t]) ≡ₚ keys_of (T1 ++ t :: T2).
Proof.
  unfold keys_of, pairs. do 2 apply fmap_Permutation.
  rewrite <- app_assoc. apply Permutation_app_head. by rewrite Permutation_app_comm.
Qed.

Lemma Touch_ok s T1 i k v T2 (w : Value) : lru_rep s (T1 ++ (i, k, v) :: T2) →
  ∃ s', Touch s (CacheEntry (PSlot i) w) = Ret s' ∧
    lru_rep s' ((T1 ++ T2) ++ [(i, k, v)]) ∧ flags s' = flags s.
Proof.
  intros [Hlist Hkeys Hne Hmap Hg Hsz Hpool Hsl]. rewrite list_split in Hlist.
  destruct (MoveToBack_ok _ _ _ _ _ Hlist) as (h & Hmv & Hok & Hs & _).
  unfold Touch. cbn [entry_ptr]. rewrite Hmv. cbn [mbind outcome_bind].
  pose proof (keys_of_move T1 (i, k, v) T2) as Hperm.
  exists (set_list s h). split; [done|]. split; [|done]. split; cbn; try done.
  - by rewrite !fmap_app.
  - by rewrite Hperm.
  - intros k'. rewrite Hperm. apply Hne.
  - replace (map_of _) with (map_of (T1 ++ (i, k, v) :: T2)); [done|].
    unfold map_of. apply list_to_map_proper; [by rewrite keys_of_bind|].
    apply fmap_Permutation. rewrite <- app_assoc. apply Permutation_app_head.
    by rewrite Permutation_app_comm.
  - rewrite Hg, !length_app. cbn. lia.
  - rewrite !length_app in *. cbn in *. lia.
  - congruence.
Qed.

Lemma set_value_ok s T1 i k v T2 w : lru_rep s (T1 ++ (i, k, v) :: T2) →
  ∃ c, bm_insert (cache_ s) k (CacheEntry (PSlot i) w) = Ret c ∧
    lru_rep (set_cache s c) (T1 ++ (i, k, w) :: T2).
Proof.
  intros Hrep. destruct (bm_insert_ok _ _ k (CacheEntry (PSlot i) w) (lr_map _ _ Hrep))
    as (c & Hins & Hmap' & Hsl'); [by eapply rep_key|by apply rep_bound|].
  destruct Hrep as [Hlist Hkeys Hne Hmap Hg Hsz Hpool Hsl].
  assert (keys_of (T1 ++ (i, k, w) :: T2) = keys_of (T1 ++ (i, k, v) :: T2)) as Hk.
  { by rewrite !keys_of_app. }
  exists c. split; [done|]. split; cbn; rewrite ?Hk; try done.
  - by rewrite list_split in *.
  - destruct (map_of_split T1 i k v T2 Hkeys) as [Heq _]. rewrite Heq, insert_insert_eq in Hmap'.
    rewrite <- Hk in Hkeys. destruct (map_of_split T1 i k w T2 Hkeys) as [-> _]. done.
  - rewrite Hg, !length_app. done.
  - rewrite !length_app in *. done.
  - lia.
Qed.

(** The rest of a removal once the list entry is gone. *)
Lemma erase_ok s T1 i k v T2 h : lru_rep s (T1 ++ (i, k, v) :: T2) →
  list_ok h (T1.*1 ++ T2.*1) → num_slots_ (pool h) = num_slots_ (pool (lru_list_ s)) →
  ∃ c, bm_erase (cache_ s) k = Ret (c, true) ∧
    ∀ s', lru_list_ s' = h → cache_ s' = c → cache_gauge_ s' = u32 (cache_gauge_ s - 1) →
      cache_size_ s' = cache_size_ s → lru_rep s' (T1 ++ T2).
Proof.
  intros Hrep Hok Hs. destruct (bm_erase_ok _ _ k (lr_map _ _ Hrep))
    as (c & Her & Hmap' & Hsl'); [by eapply rep_key|by apply rep_bound|].
  destruct Hrep as [Hlist Hkeys Hne Hmap Hg Hsz Hpool Hsl].
  destruct (map_of_split _ _ _ _ _ Hkeys) as [Heq Hnone].
  rewrite Heq, lookup_insert_eq, bool_decide_true in Her by done.
  exists c. split; [done|]. intros s' Hl Hc Hg' Hsz'.
  destruct (keys_of_split _ _ _ _ _ Hkeys) as (_ & _ & Hnd).
  rewrite !length_app in Hg, Hsz. cbn in Hg, Hsz.
  split; rewrite ?Hl, ?Hc, ?Hsz'; try done.
  - by rewrite fmap_app.
  - intros k' Hk'. apply Hne. rewrite keys_of_app in *.
    apply elem_of_app in Hk' as [?|?]; apply elem_of_app; [by left|right; by right].
  - rewrite Heq, delete_insert_eq, delete_id in Hmap' by done. done.
  - rewrite Hg', Hg, u32_small, length_app by (unfold is_u32; lia). lia.
  - rewrite length_app. lia.
  - congruence.
  - congruence.
Qed.

Lemma DeleteOldest_ok s t T : lru_rep s (t :: T) →
  ∃ s', DeleteOldest s = Ret s' ∧ lru_rep s' T ∧ flags s' = flags s.
Proof.
  destruct t as [[i k] v]. intros Hrep. unfold DeleteOldest, IsEmpty.
  rewrite (lr_gauge _ _ Hrep). cbn [length Z.of_nat Z.eqb negb cassert mbind outcome_bind].
  destruct (PopFront_ok _ i k T.*1 (lr_list _ _ Hrep)) as (h & Hpop & Hok & Hs & _).
  change (lru_list_ (count s n_replace)) with (lru_list_ s). rewrite Hpop.
  cbn [mbind outcome_bind]. destruct (erase_ok s [] i k v T h Hrep Hok Hs) as (c & Her & Hr).
  change (cache_ (set_list (count s n_replace) h)) with (cache_ s). rewrite Her.
  cbn [mbind outcome_bind]. eexists. split; [done|]. split; [by apply Hr|done].
Qed.

(** A new entry at the end of the list. *)
Lemma push_ok s T k v : lru_rep s T → k ∉ keys_of T → k ≠ bm_empty_key →
  Z.of_nat (length T) < cache_size_ s →
  ∃ h i c, PushBack (lru_list_ s) k = Ret (h, PSlot i) ∧
    bm_insert (cache_ s) k (CacheEntry (PSlot i) v) = Ret c ∧
    ∀ s', lru_list_ s' = h → cache_ s' = c → cache_gauge_ s' = u32 (cache_gauge_ s + 1) →
      cache_size_ s' = cache_size_ s → lru_rep s' (T ++ [(i, k, v)]).
Proof.
  intros Hrep Hk Hne' Hlt.
  destruct (PushBack_ok _ _ k (lr_list _ _ Hrep)) as (h & i & Hpush & Hi & Hok & Hs & _).
  { rewrite length_fmap, (lr_pool _ _ Hrep). done. }
  destruct (bm_insert_ok _ _ k (CacheEntry (PSlot i) v) (lr_map _ _ Hrep))
    as (c & Hins & Hmap' & Hsl'); [done|by apply rep_bound|].
  destruct Hrep as [Hlist Hkeys Hne Hmap Hg Hsz Hpool Hsl].
  assert (NoDup (keys_of (T ++ [(i, k, v)]))) as Hnd.
  { rewrite keys_of_app. apply NoDup_app. split_and!; [done| |apply NoDup_singleton].
    by intros k' ? ->%list_elem_of_singleton. }
  exists h, i, c. split; [done|]. split; [done|]. intros s' Hl Hc Hg' Hsz'.
  split; rewrite ?Hl, ?Hc, ?Hsz'.
  - by rewrite fmap_app.
  - done.
  - intros k'. rewrite keys_of_app. intros [?| ->%list_elem_of_singleton]%elem_of_app; eauto.
  - destruct (map_of_split T i k v [] Hnd) as [-> _]. by rewrite app_nil_r.
  - rewrite Hg', Hg, u32_small, length_app by (unfold is_u32; lia). cbn. lia.
  - rewrite length_app. cbn. lia.
  - congruence.
  - congruence.
Qed.

Lemma rep_same s s' T : lru_rep s T → lru_list_ s' = lru_list_ s → cache_ s' = cache_ s →
  cache_gauge_ s' = cache_gauge_ s → cache_size_ s' = cache_size_ s → lru_rep s' T.
Proof. intros [] Hl Hc Hg Hsz. split; rewrite ?Hl, ?Hc, ?Hg, ?Hsz; done. Qed.

Lemma pairs_app T1 T2 : pairs (T1 ++ T2) = pairs T1 ++ pairs T2.
Proof. apply fmap_app. Qed.

(** The specification of a list split at a key. *)
Lemma spec_split s T1 i k v T2 : lru_rep s (T1 ++ (i, k, v) :: T2) →
  assoc k (pairs (T1 ++ (i, k, v) :: T2)) = Some v ∧
  without k (pairs (T1 ++ (i, k, v) :: T2)) = pairs (T1 ++ T2) ∧
  ∀ w, revalue k w (pairs (T1 ++ (i, k, v) :: T2)) = pairs (T1 ++ (i, k, w) :: T2).
Proof.
  intros Hrep. destruct (keys_of_split _ _ _ _ _ (lr_keys _ _ Hrep)) as (Hk1 & Hk2 & _).
  rewrite !pairs_app. change (pairs ((i, k, v) :: T2)) with ((k, v) :: pairs T2).
  split_and!; [by apply assoc_split|by apply without_split|].
  intros w. rewrite pairs_app. by apply revalue_split.
Qed.

Definition lru_step s (o : lru_op Key Value) : outcome (lru * lru_reply Key Value) :=
  match o with
  | OInsert k v => '(s, b) ← Insert s k v; Ret (s, RBool b)
  | OUpdate k => s ← Update s k; Ret (s, RUnit)
  | OUpdateValue k v => '(s, b) ← UpdateValue s k v; Ret (s, RBool b)
  | OLookup k u => '(s, v) ← Lookup s k u; Ret (s, RValue v)
  | OForget k => '(s, b) ← Forget s k; Ret (s, RBool b)
  | ODrop => s ← Drop s; Ret (s, RUnit)
  | OPause => s ← Pause s; Ret (s, RUnit)
  | OResume => s ← Resume s; Ret (s, RUnit)
  | OFilterBegin => s ← FilterBegin s; Ret (s, RUnit)
  | OFilterGet => '(k, v) ← FilterGet s; Ret (s, REntry k v)
  | OFilterNext => '(s, b) ← FilterNext s; Ret (s, RBool b)
  | OFilterDelete => s ← FilterDelete s; Ret (s, RUnit)
  | OFilterEnd => s ← FilterEnd s; Ret (s, RUnit)
  end.

Definition op_key (o : lru_op Key Value) : Prop :=
  match o with
  | OInsert k _ | OUpdate k | OUpdateValue k _ | OLookup k _ | OForget k => k ≠ bm_empty_key
  | _ => True
  end.

(** The cache agrees with the specification after an operation outside of a
    filter operation. *)
Definition idle_agrees s (o : lru_op Key Value)
    (spec : option (list (Key * Value) * bool * lru_reply Key Value)) : Prop :=
  match spec with
  | Some (E, p, r) =>
      ∃ s' T', lru_step s o = Ret (s', r) ∧ lru_rep s' T' ∧ pairs T' = E ∧
        flags s' = (p, None, false, cache_size_ s)
  | None => ∃ f, lru_step s o = Fail f
  end.

Definition idle s : Prop := lock_ s = false ∧ filter_entry_ s = None.

Lemma Lock_idle s : idle s → Lock s = Ret (set_lock s true).
Proof. unfold Lock. by intros [-> _]. Qed.

Ltac exec := cbn [mbind outcome_bind entry_ptr entry_value cassert negb andb fst snd].

(** Closes the branches that answer [r] in a state that holds [T]. *)
Ltac settle :=
  do 2 eexists; split; [done|];
  split; [by (eapply rep_same; [eassumption|..])|];
  split; [by rewrite ?pairs_app|];
  unfold flags in *; cbn in *; congruence.

Lemma idle_start s T k : lru_rep s T → idle s → k ≠ bm_empty_key →
  Lock s = Ret (set_lock s true) ∧ pause_ (set_lock s true) = pause_ s ∧
  filter_entry_ s = None ∧
  ((DoLookup (set_lock s true) k = Ret None ∧ k ∉ keys_of T) ∨
   ∃ T1 i v T2, T = T1 ++ (i, k, v) :: T2 ∧
     DoLookup (set_lock s true) k = Ret (Some (CacheEntry (PSlot i) v))).
Proof.
  intros Hrep Hidle Hk. split; [by apply Lock_idle|]. split; [done|].
  split; [apply Hidle|]. apply DoLookup_cases; [|done]. by eapply rep_same.
Qed.

Lemma make_room_ok s T : lru_rep s T → 0 < cache_size_ s →
  let E := if (Z.to_nat (cache_size_ s) <=? length (pairs T))%nat then tail (pairs T)
           else pairs T in
  ∃ s' T', (if IsFull s then DeleteOldest s else Ret s) = Ret s' ∧ lru_rep s' T' ∧
    pairs T' = E ∧ (∀ k, k ∈ keys_of T' → k ∈ keys_of T) ∧
    Z.of_nat (length T') < cache_size_ s ∧ flags s' = flags s.
Proof.
  intros Hrep Hpos E. pose proof (lr_size _ _ Hrep) as Hsz. unfold IsFull.
  rewrite (lr_gauge _ _ Hrep). subst E.
  replace (length (pairs T)) with (length T) by (symmetry; apply length_fmap).
  destruct (Nat.leb_spec (Z.to_nat (cache_size_ s)) (length T)) as [Hfull|Hfree].
  - rewrite (proj2 (Z.geb_le _ _)) by lia. destruct T as [|t T]; [cbn in *; lia|].
    destruct (DeleteOldest_ok _ _ _ Hrep) as (s' & -> & Hrep' & Hfl). exists s', T.
    split_and!; try done; [|cbn in *; lia]. intros k Hk. by right.
  - rewrite Z.geb_leb, (proj2 (Z.leb_gt _ _)) by lia. exists s, T. split_and!; done || lia.
Qed.

Lemma Insert_agrees s T k v : lru_rep s T → idle s → k ≠ bm_empty_key → 0 < cache_size_ s →
  idle_agrees s (OInsert k v)
    (spec_op (Z.to_nat (cache_size_ s)) (pairs T) (pause_ s) (OInsert k v)).
Proof.
  intros Hrep Hidle Hk Hpos. destruct (idle_start s T k Hrep Hidle Hk) as (Hl & Hps & Hf & HD).
  cbn [spec_op]. unfold idle_agrees. cbn [lru_step]. unfold Insert. rewrite Hl. exec.
  rewrite Hps. destruct (pause_ s) eqn:Hp; [settle|].
  destruct HD as [[-> Hnotin]|(T1 & i & w & T2 & -> & ->)]; exec.
  - rewrite (proj2 (assoc_None k (pairs T))) by done.
    destruct (make_room_ok (count (set_lock s true) n_insert) T)
      as (s1 & T1 & -> & Hrep1 & HE & Hkeys & Hlen & Hfl); [by eapply rep_same|done|]. exec.
    destruct (push_ok s1 T1 k v Hrep1) as (h & i & c & -> & Hins & Hr); [naive_solver|done| |].
    { unfold flags in Hfl. cbn in Hfl, Hlen.
      assert (cache_size_ s1 = cache_size_ s) by congruence. lia. }
    exec. change (cache_ (set_list s1 h)) with (cache_ s1). rewrite Hins. exec.
    exists (Unlock (set_gauge (set_cache (set_list s1 h) c)
      (u32 (cache_gauge_ (set_cache (set_list s1 h) c) + 1)))), (T1 ++ [(i, k, v)]).
    split; [done|]. split; [by apply Hr|]. split; [rewrite pairs_app, HE; done|].
    unfold flags in *. cbn in *. congruence.
  - destruct (spec_split _ _ _ _ _ _ Hrep) as (-> & -> & _).
    destruct (set_value_ok (count (set_lock s true) n_update) T1 i k w T2 v)
      as (c & -> & Hrep2); [by eapply rep_same|]. exec.
    destruct (Touch_ok _ _ _ _ _ _ v Hrep2) as (s' & -> & Hrep3 & Hfl). exec. settle.
Qed.

Lemma Update_agrees s T k : lru_rep s T → idle s → k ≠ bm_empty_key →
  idle_agrees s (OUpdate k)
    (spec_op (Z.to_nat (cache_size_ s)) (pairs T) (pause_ s) (OUpdate k)).
Proof.
  intros Hrep Hidle Hk. destruct (idle_start s T k Hrep Hidle Hk) as (Hl & Hps & Hf & HD).
  cbn [spec_op]. unfold idle_agrees. cbn [lru_step]. unfold Update. rewrite Hl. exec.
  rewrite Hps. destruct (pause_ s) eqn:Hp; exec; [by eexists|].
  destruct HD as [[-> Hnotin]|(T1 & i & w & T2 & -> & ->)]; exec.
  - rewrite (proj2 (assoc_None k (pairs T))) by done. by eexists.
  - destruct (spec_split _ _ _ _ _ _ Hrep) as (-> & -> & _).
    destruct (Touch_ok (count (set_lock s true) n_update) T1 i k w T2 w)
      as (s' & -> & Hrep3 & Hfl); [by eapply rep_same|]. exec. settle.
Qed.

Lemma UpdateValue_agrees s T k v : lru_rep s T → idle s → k ≠ bm_empty_key →
  idle_agrees s (OUpdateValue k v)
    (spec_op (Z.to_nat (cache_size_ s)) (pairs T) (pause_ s) (OUpdateValue k v)).
Proof.
  intros Hrep Hidle Hk. destruct (idle_start s T k Hrep Hidle Hk) as (Hl & Hps & Hf & HD).
  cbn [spec_op]. unfold idle_agrees. cbn [lru_step]. unfold UpdateValue. rewrite Hl. exec.
  rewrite Hps. destruct (pause_ s) eqn:Hp; [settle|].
  destruct HD as [[-> Hnotin]|(T1 & i & w & T2 & -> & ->)]; exec.
  - rewrite (proj2 (assoc_None k (pairs T))) by done. settle.
  - destruct (spec_split _ _ _ _ _ _ Hrep) as (-> & _ & Hre).
    destruct (set_value_ok (count (set_lock s true) n_update_value) T1 i k w T2 v)
      as (c & -> & Hrep2); [by eapply rep_same|]. exec. rewrite Hre. settle.
Qed.

Lemma Lookup_agrees s T k u : lru_rep s T → idle s → k ≠ bm_empty_key →
  idle_agrees s (OLookup k u)
    (spec_op (Z.to_nat (cache_size_ s)) (pairs T) (pause_ s) (OLookup k u)).
Proof.
  intros Hrep Hidle Hk. destruct (idle_start s T k Hrep Hidle Hk) as (Hl & Hps & Hf & HD).
  cbn [spec_op]. unfold idle_agrees. cbn [lru_step]. unfold Lookup. rewrite Hl. exec.
  rewrite Hps. destruct (pause_ s) eqn:Hp; [settle|].
  destruct HD as [[-> Hnotin]|(T1 & i & w & T2 & -> & ->)]; exec.
  - rewrite (proj2 (assoc_None k (pairs T))) by done. settle.
  - destruct (spec_split _ _ _ _ _ _ Hrep) as (-> & -> & _). destruct u; exec; [|settle].
    destruct (Touch_ok (count (set_lock s true) n_hit) T1 i k w T2 w)
      as (s' & -> & Hrep3 & Hfl); [by eapply rep_same|]. exec. settle.
Qed.

Lemma Forget_agrees s T k : lru_rep s T → idle s → k ≠ bm_empty_key →
  idle_agrees s (OForget k)
    (spec_op (Z.to_nat (cache_size_ s)) (pairs T) (pause_ s) (OForget k)).
Proof.
  intros Hrep Hidle Hk. destruct (idle_start s T k Hrep Hidle Hk) as (Hl & Hps & Hf & HD).
  cbn [spec_op]. unfold idle_agrees. cbn [lru_step]. unfold Forget. rewrite Hl. exec.
  rewrite Hps. destruct (pause_ s) eqn:Hp; [settle|].
  destruct HD as [[-> Hnotin]|(T1 & i & w & T2 & -> & ->)]; exec.
  - rewrite (proj2 (assoc_None k (pairs T))), without_notin by done. settle.
  - destruct (spec_split _ _ _ _ _ _ Hrep) as (-> & -> & _).
    pose proof (lr_list _ _ Hrep) as Hlist. rewrite list_split in Hlist.
    destruct (Unlink_ok _ _ _ _ _ Hlist) as (h1 & h2 & Hrem & Hde & _ & _ & Hok & Hs & _).
    change (lru_list_ (count (set_lock s true) n_forget)) with (lru_list_ s).
    rewrite Hrem. exec. rewrite Hde. exec.
    destruct (erase_ok s T1 i k w T2 h2 Hrep Hok Hs) as (c & Her & Hr).
    match goal with |- context [bm_erase ?x k] => change x with (cache_ s) end.
    rewrite Her. exec. rewrite bool_decide_true by done. do 2 eexists. split; [done|].
    split; [by apply Hr|]. split; [done|]. unfold flags. cbn. congruence.
Qed.

Lemma Drop_agrees s T : lru_rep s T → idle s →
  idle_agrees s ODrop (spec_op (Z.to_nat (cache_size_ s)) (pairs T) (pause_ s) ODrop).
Proof.
  intros Hrep Hidle. cbn [spec_op]. unfold idle_agrees. cbn [lru_step]. unfold Drop.
  rewrite Lock_idle by done. exec. destruct (clear_ok _ _ (lr_list _ _ Hrep)) as (h & Hcl & Hok & Hs & _).
  change (lru_list_ (set_gauge (set_lock s true) 0)) with (lru_list_ s). rewrite Hcl. exec.
  destruct (bm_clear_ok _ _ (lr_map _ _ Hrep)) as [Hmap Hsl].
  destruct Hrep as [_ _ _ _ _ Hsz Hpool Hslots], Hidle as [_ Hf].
  do 2 eexists. split; [done|]. split; [|split; [|unfold flags; cbn; by rewrite Hf]].
  2: by instantiate (1 := []). split; cbn; try done; try lia; try congruence.
  - apply NoDup_nil_2.
  - by intros k ?%elem_of_nil.
Qed.

(** *** Filter operations *)

(** The list entry at a cursor position. *)
Definition ptr_at T (c : nat) : ptr := endp PHead (slots (take c T).*1).

Lemma slots_split T1 (i : Z) (k : Key) (v : Value) T2 :
  slots (T1 ++ (i, k, v) :: T2).*1 = slots T1.*1 ++ PSlot i :: slots T2.*1.
Proof. by rewrite list_split, slots_app. Qed.

Lemma ptr_at_S T1 (i : Z) (k : Key) (v : Value) T2 :
  ptr_at (T1 ++ (i, k, v) :: T2) (S (length T1)) = PSlot i.
Proof.
  unfold ptr_at. replace (S (length T1)) with (length (T1 ++ [(i, k, v)]))
    by (rewrite length_app; cbn; lia).
  replace (T1 ++ (i, k, v) :: T2) with ((T1 ++ [(i, k, v)]) ++ T2) by (by rewrite <- app_assoc).
  rewrite take_app_length, slots_split. unfold endp. change (slots _) with (@nil ptr) at 2.
  by rewrite last_snoc.
Qed.

Lemma ptr_at_length T1 T2 : ptr_at (T1 ++ T2) (length T1) = endp PHead (slots T1.*1).
Proof. unfold ptr_at. by rewrite take_app_length. Qed.

(** A cursor behind the head is at an entry. *)
Lemma cursor_split T j : (S j ≤ length T)%nat →
  ∃ T1 i k v T2, T = T1 ++ (i, k, v) :: T2 ∧ length T1 = j.
Proof.
  intros Hj. destruct (lookup_lt_is_Some_2 T j) as [[[i k] v] Ht]; [lia|].
  exists (take j T), i, k, v, (drop (S j) T).
  rewrite take_drop_middle by done. split; [done|]. rewrite length_take. lia.
Qed.

Definition filter_agrees s (o : lru_op Key Value)
    (spec : option (list (Key * Value) * option nat * lru_reply Key Value)) : Prop :=
  match spec with
  | Some (E, c, r) =>
      ∃ s' T', lru_step s o = Ret (s', r) ∧ lru_rep s' T' ∧ pairs T' = E ∧
        (∀ c', c = Some c' → (c' ≤ length T')%nat) ∧
        flags s' = (pause_ s, ptr_at T' <$> c, bool_decide (is_Some c), cache_size_ s)
  | None => ∃ f, lru_step s o = Fail f
  end.

Definition filtering s T (c : nat) : Prop :=
  lock_ s = true ∧ filter_entry_ s = Some (ptr_at T c) ∧ (c ≤ length T)%nat.

Lemma FilterGet_agrees s T c : lru_rep s T → filtering s T c →
  filter_agrees s OFilterGet (spec_filter (pairs T) c OFilterGet).
Proof.
  intros Hrep (Hl & Hf & Hc). unfold filter_agrees. cbn [spec_filter lru_step].
  unfold FilterGet, filter_ptr. rewrite Hf. exec. destruct c as [|j].
  { by eexists. }
  destruct (cursor_split T j Hc) as (T1 & i & k & v & T2 & -> & <-).
  rewrite ptr_at_S. unfold IsListHead. rewrite bool_decide_false by done. exec.
  pose proof (lr_list _ _ Hrep) as [_ Hco _ _].
  rewrite (content_ok _ i k) by (apply Hco; rewrite list_split; apply elem_of_app; right; by left).
  exec. replace (pairs _ !! _) with (Some (k, v)).
  2:{ symmetry. unfold pairs. rewrite list_lookup_fmap, list_lookup_middle by done. done. }
  destruct (DoLookup_cases s _ k Hrep) as [[_ Hnot]|(T1' & i' & v' & T2' & Heq & ->)].
  { by eapply rep_key. }
  { destruct Hnot. rewrite keys_of_app. apply elem_of_app. right. by left. }
  exec. assert (v' = v) as ->.
  { pose proof (proj1 (spec_split _ _ _ _ _ _ Hrep)) as Hv. rewrite Heq in Hrep, Hv.
    rewrite (proj1 (spec_split _ _ _ _ _ _ Hrep)) in Hv. congruence. }
  do 2 eexists. split; [done|]. split; [done|]. split; [done|].
  split; [by intros c' [= <-]|]. unfold flags. cbn. congruence.
Qed.

Lemma next_at s T c : lru_rep s T → (c ≤ length T)%nat →
  get_next (lru_list_ s) (ptr_at T c)
  = Ret (if (c <? length T)%nat then ptr_at T (S c) else PHead).
Proof.
  intros Hrep Hc. pose proof (lr_list _ _ Hrep) as [Hring _ _ _].
  rewrite get_next_ok.
  - pose proof (ring_path _ _ Hring) as Hp. destruct (Nat.ltb_spec c (length T)) as [Hlt|Hge].
    + destruct (cursor_split T c Hlt) as (T1 & i & k & v & T2 & -> & <-).
      rewrite ptr_at_S, ptr_at_length. rewrite slots_split, <- app_assoc in Hp.
      apply path_app in Hp as [_ (-> & _)]. done.
    + unfold ptr_at. rewrite take_ge by lia. apply path_app in Hp as [_ (-> & _)]. done.
  - unfold ptr_at. pose proof (endp_in PHead (slots (take c T).*1)) as [->|Hin]%elem_of_cons; [done|].
    apply (ring_valid _ _ Hring). replace (slots T.*1)
      with (slots (take c T).*1 ++ slots (drop c T).*1)
      by (by rewrite <- slots_app, <- fmap_app, take_drop).
    apply elem_of_app. by left.
Qed.

Lemma FilterNext_agrees s T c : lru_rep s T → filtering s T c →
  filter_agrees s OFilterNext (spec_filter (pairs T) c OFilterNext).
Proof.
  intros Hrep (Hl & Hf & Hc). unfold filter_agrees. cbn [spec_filter lru_step].
  unfold FilterNext, filter_ptr. rewrite Hf. exec. rewrite (next_at s T c Hrep Hc). exec.
  replace (length (pairs T)) with (length T) by (symmetry; apply length_fmap).
  destruct (Nat.ltb_spec c (length T)) as [Hlt|Hge].
  - destruct (cursor_split T c Hlt) as (T1 & i & k & v & T2 & -> & <-).
    rewrite ptr_at_S. unfold IsListHead. rewrite bool_decide_false by done.
    do 2 eexists. split; [done|]. split; [by eapply rep_same|]. split; [done|].
    split; [intros c' [= <-]; lia|]. unfold flags. cbn.
    rewrite ptr_at_S. congruence.
  - do 2 eexists. split; [done|]. split; [by eapply rep_same|]. split; [done|].
    split; [intros c' [= <-]; lia|]. unfold flags. change (ptr_at T <$> Some 0%nat) with (Some PHead).
    cbn. congruence.
Qed.

Lemma prev_at s T1 i k v T2 : lru_rep s (T1 ++ (i, k, v) :: T2) →
  get_prev (lru_list_ s) (PSlot i) = Ret (ptr_at (T1 ++ T2) (length T1)).
Proof.
  intros Hrep. pose proof (lr_list _ _ Hrep) as [Hring _ _ _]. rewrite slots_split in Hring.
  rewrite get_prev_ok by (apply (ring_valid _ _ Hring), elem_of_app; right; by left).
  rewrite ptr_at_length.
  destruct (ring_split _ _ _ _ Hring) as (n & R & _ & _ & _ & -> & _). done.
Qed.

Lemma FilterDelete_agrees s T c : lru_rep s T → filtering s T c →
  filter_agrees s OFilterDelete (spec_filter (pairs T) c OFilterDelete).
Proof.
  intros Hrep (Hl & Hf & Hc). unfold filter_agrees. cbn [spec_filter lru_step].
  unfold FilterDelete, filter_ptr. rewrite Hf. exec. destruct c as [|j].
  { by eexists. }
  destruct (cursor_split T j Hc) as (T1 & i & k & v & T2 & -> & <-).
  rewrite ptr_at_S. unfold IsListHead. rewrite bool_decide_false by done. exec.
  rewrite (prev_at _ _ _ _ _ _ Hrep). exec.
  change (lru_list_ (count s n_forget)) with (lru_list_ s).
  pose proof (lr_list _ _ Hrep) as Hlist. rewrite list_split in Hlist.
  destruct (Unlink_ok _ _ _ _ _ Hlist) as (h1 & h2 & Hrem & Hde & Hk & _ & Hok & Hs & _).
  rewrite (content_ok _ _ _ Hk). exec. rewrite Hrem. exec. rewrite Hde. exec.
  destruct (erase_ok s T1 i k v T2 h2 Hrep Hok Hs) as (cc & Her & Hr).
  match goal with |- context [bm_erase ?x k] => change x with (cache_ s) end.
  rewrite Her. exec. do 2 eexists. split; [done|]. split; [by apply Hr|]. split.
  { rewrite !pairs_app. replace (length T1) with (length (pairs T1)) by apply length_fmap.
    symmetry. apply delete_middle. }
  split; [intros c' [= <-]; rewrite length_app; lia|]. unfold flags. cbn. congruence.
Qed.

(** The cache in state [s] holds what the specification holds in [sp]. *)
Definition refines s (sp : lru_spec Key Value) : Prop :=
  ∃ T, lru_rep s T ∧ entries sp = pairs T ∧ paused sp = pause_ s ∧
    match cursor sp with
    | None => idle s
    | Some c => filtering s T c
    end.

Lemma filter_unopened s T o : lru_rep s T → idle s → op_key o → 0 < cache_size_ s →
  o ≠ OFilterBegin →
  idle_agrees s o (spec_op (Z.to_nat (cache_size_ s)) (pairs T) (pause_ s) o).
Proof.
  intros Hrep Hidle Hk Hpos Ho. pose proof Hidle as [_ Hf].
  assert (∀ p, Lock s = Ret (set_lock s true) ∧
    flags (Unlock (set_pause (set_lock s true) p)) = (p, None, false, cache_size_ s)) as Hpr.
  { intros p. split; [by apply Lock_idle|]. unfold flags. cbn. by rewrite Hf. }
  destruct o; cbn [op_key] in Hk; try done.
  - by apply Insert_agrees.
  - by apply Update_agrees.
  - by apply UpdateValue_agrees.
  - by apply Lookup_agrees.
  - by apply Forget_agrees.
  - by apply Drop_agrees.
  - destruct (Hpr true) as [Hl Hfl]. unfold idle_agrees. cbn [spec_op lru_step].
    unfold Pause. rewrite Hl. exec. do 2 eexists. split; [done|].
    split; [by eapply rep_same|]. done.
  - destruct (Hpr false) as [Hl Hfl]. unfold idle_agrees. cbn [spec_op lru_step].
    unfold Resume. rewrite Hl. exec. do 2 eexists. split; [done|].
    split; [by eapply rep_same|]. done.
  - unfold idle_agrees. cbn. unfold FilterGet, filter_ptr. rewrite Hf. by eexists.
  - unfold idle_agrees. cbn. unfold FilterNext, filter_ptr. rewrite Hf. by eexists.
  - unfold idle_agrees. cbn. unfold FilterDelete, filter_ptr. rewrite Hf. by eexists.
  - unfold idle_agrees. cbn. unfold FilterEnd, filter_ptr. rewrite Hf. by eexists.
Qed.

Lemma filter_step s T c o : lru_rep s T → filtering s T c →
  filter_agrees s o (spec_filter (pairs T) c o).
Proof.
  intros Hrep Hfil. pose proof Hfil as (Hlk & Hfe & _). destruct o;
    try (unfold filter_agrees; cbn [spec_filter lru_step];
         unfold Insert, Update, UpdateValue, Lookup, Forget, Drop, Pause, Resume, Lock;
         rewrite Hlk; by eexists).
  - unfold filter_agrees. cbn [spec_filter lru_step]. unfold FilterBegin. rewrite Hfe.
    by eexists.
  - by apply FilterGet_agrees.
  - by apply FilterNext_agrees.
  - by apply FilterDelete_agrees.
  - destruct Hfil as (Hl & Hf & Hc). unfold filter_agrees. cbn [spec_filter lru_step].
    unfold FilterEnd, filter_ptr. rewrite Hf. exec. do 2 eexists. split; [done|].
    split; [by eapply rep_same|]. done.
Qed.

Lemma step_refines s sp o : refines s sp → op_key o → 0 < cache_size_ s →
  match lru_spec_step (Z.to_nat (cache_size_ s)) sp o with
  | Some (sp', r) =>
      ∃ s', lru_step s o = Ret (s', r) ∧ refines s' sp' ∧ cache_size_ s' = cache_size_ s
  | None => ∃ f, lru_step s o = Fail f
  end.
Proof.
  intros (T & Hrep & HE & Hp & Hcur) Hk Hpos. unfold lru_spec_step. rewrite HE, Hp.
  destruct (cursor sp) as [c|].
  - pose proof (filter_step s T c o Hrep Hcur) as Ha. unfold filter_agrees in Ha.
    destruct (spec_filter (pairs T) c o) as [[[E c'] r]|]; [|done].
    destruct Ha as (s' & T' & Hs & Hrep' & <- & Hc' & Hfl). exists s'.
    unfold flags in Hfl. injection Hfl as Hp' Hf' Hl' Hsz'.
    split; [done|]. split; [|done]. exists T'. split_and!; try done.
    cbn. destruct c'; cbn in *; [|done]. split_and!; try done. by apply Hc'.
  - assert (o = OFilterBegin ∨ o ≠ OFilterBegin) as [->|Ho]
      by (destruct o; (by left) || by right).
    + destruct Hcur as [Hl Hf]. cbn. unfold FilterBegin, Lock. rewrite Hf, Hl.
      exec. cbn. eexists. split; [done|]. split; [|done]. exists T.
      split_and!; try done; [by eapply rep_same|]. split_and!; cbn; [done|done|lia].
    + pose proof (filter_unopened s T o Hrep Hcur Hk Hpos Ho) as Ha.
      unfold idle_agrees in Ha.
      assert ((match o with OFilterBegin => Some (LruSpec (pairs T) (pause_ s) (Some 0%nat), RUnit)
        | _ => '(E, p, r) ← spec_op (Z.to_nat (cache_size_ s)) (pairs T) (pause_ s) o;
               Some (LruSpec E p None, r) end)
        = '(E, p, r) ← spec_op (Z.to_nat (cache_size_ s)) (pairs T) (pause_ s) o;
          Some (LruSpec E p None, r)) as -> by (by destruct o).
      destruct (spec_op _ _ _ o) as [[[E p] r]|]; [|done].
      destruct Ha as (s' & T' & Hs & Hrep' & <- & Hfl). exists s'.
      unfold flags in Hfl. injection Hfl as Hp' Hf' Hl' Hsz'. cbn.
      split; [done|]. split; [|done]. exists T'. split_and!; done.
Qed.

(** *** The operations for clients, outside of a filter operation *)

Notation idle_spec L := (LruSpec L false None).

Definition touched (k : Key) (L : list (Key * Value)) : list (Key * Value) :=
  match assoc k L with Some v => without k L ++ [(k, v)] | None => L end.

Lemma lru_Lookup s L k u : refines s (idle_spec L) → k ≠ bm_empty_key → 0 < cache_size_ s →
  ∃ s', Lookup s k u = Ret (s', assoc k L) ∧
    refines s' (idle_spec (if u then touched k L else L)) ∧ cache_size_ s' = cache_size_ s.
Proof.
  intros Hr Hk Hpos. pose proof (step_refines s _ (OLookup k u) Hr Hk Hpos) as Hs.
  unfold lru_spec_step, touched in *. cbn [cursor entries paused spec_op] in Hs.
  destruct (assoc k L); cbn in Hs; destruct Hs as (s' & Hs & Hr' & Hsz);
    apply bind_Ret in Hs as ([s'' r] & Hl & [= -> ->]); exists s'; destruct u; done.
Qed.

Lemma lru_Insert_update s L k v w : refines s (idle_spec L) → k ≠ bm_empty_key →
  0 < cache_size_ s → assoc k L = Some w →
  ∃ s', Insert s k v = Ret (s', false) ∧ refines s' (idle_spec (without k L ++ [(k, v)])) ∧
    cache_size_ s' = cache_size_ s.
Proof.
  intros Hr Hk Hpos Ha. pose proof (step_refines s _ (OInsert k v) Hr Hk Hpos) as Hs.
  unfold lru_spec_step in Hs. cbn [cursor entries paused spec_op] in Hs. rewrite Ha in Hs.
  destruct Hs as (s' & Hs & Hr' & Hsz). apply bind_Ret in Hs as ([s'' b] & Hl & [= -> ->]).
  by exists s'.
Qed.

Lemma lru_Insert_new s L k v : refines s (idle_spec L) → k ≠ bm_empty_key →
  0 < cache_size_ s → assoc k L = None → zlen L < cache_size_ s →
  ∃ s', Insert s k v = Ret (s', true) ∧ refines s' (idle_spec (L ++ [(k, v)])) ∧
    cache_size_ s' = cache_size_ s.
Proof.
  intros Hr Hk Hpos Ha Hlen. pose proof (step_refines s _ (OInsert k v) Hr Hk Hpos) as Hs.
  unfold lru_spec_step in Hs. cbn [cursor entries paused spec_op] in Hs. rewrite Ha in Hs.
  rewrite (proj2 (Nat.leb_gt _ _)) in Hs by (unfold zlen in Hlen; lia).
  destruct Hs as (s' & Hs & Hr' & Hsz). apply bind_Ret in Hs as ([s'' b] & Hl & [= -> ->]).
  by exists s'.
Qed.

Lemma lru_UpdateValue s L k v w : refines s (idle_spec L) → k ≠ bm_empty_key →
  0 < cache_size_ s → assoc k L = Some w →
  ∃ s', UpdateValue s k v = Ret (s', true) ∧ refines s' (idle_spec (revalue k v L)) ∧
    cache_size_ s' = cache_size_ s.
Proof.
  intros Hr Hk Hpos Ha. pose proof (step_refines s _ (OUpdateValue k v) Hr Hk Hpos) as Hs.
  unfold lru_spec_step in Hs. cbn [cursor entries paused spec_op] in Hs. rewrite Ha in Hs.
  destruct Hs as (s' & Hs & Hr' & Hsz). apply bind_Ret in Hs as ([s'' b] & Hl & [= -> ->]).
  by exists s'.
Qed.

Lemma lru_Forget s L k w : refines s (idle_spec L) → k ≠ bm_empty_key →
  0 < cache_size_ s → assoc k L = Some w →
  ∃ s', Forget s k = Ret (s', true) ∧ refines s' (idle_spec (without k L)) ∧
    cache_size_ s' = cache_size_ s.
Proof.
  intros Hr Hk Hpos Ha. pose proof (step_refines s _ (OForget k) Hr Hk Hpos) as Hs.
  unfold lru_spec_step in Hs. cbn [cursor entries paused spec_op] in Hs. rewrite Ha in Hs.
  destruct Hs as (s' & Hs & Hr' & Hsz). apply bind_Ret in Hs as ([s'' b] & Hl & [= -> ->]).
  by exists s'.
Qed.

Lemma refines_facts s sp : refines s sp →
  NoDup (entries sp).*1 ∧ zlen (entries sp) ≤ cache_size_ s ∧
  cache_gauge_ s = zlen (entries sp) ∧ (∀ k, k ∈ (entries sp).*1 → k ≠ bm_empty_key).
Proof.
  intros (T & Hrep & -> & _ & _). unfold zlen, pairs. rewrite length_fmap.
  split_and!; [apply (lr_keys _ _ Hrep)|apply (lr_size _ _ Hrep)|apply (lr_gauge _ _ Hrep)
              |apply (lr_nonempty _ _ Hrep)].
Qed.

Fixpoint lru_run s (ops : list (lru_op Key Value)) : outcome (lru * list (lru_reply Key Value)) :=
  match ops with
  | [] => Ret (s, [])
  | o :: ops =>
      '(s, r) ← lru_step s o;
      '(s, rs) ← lru_run s ops;
      Ret (s, r :: rs)
  end.

Lemma run_refines ops : ∀ s sp, refines s sp → Forall op_key ops → 0 < cache_size_ s →
  match lru_spec_run (Z.to_nat (cache_size_ s)) sp ops with
  | Some (sp', rs) => ∃ s', lru_run s ops = Ret (s', rs) ∧ refines s' sp'
  | None => ∃ f, lru_run s ops = Fail f
  end.
Proof.
  induction ops as [|o ops IH]; intros s sp Hr Hk Hpos; cbn [lru_spec_run lru_run]; [by exists s|].
  apply Forall_cons in Hk as [Ho Hk].
  pose proof (step_refines s sp o Hr Ho Hpos) as Hstep.
  destruct (lru_spec_step _ sp o) as [[sp1 r]|]; cbn; [|by destruct Hstep as [f ->]; exists f].
  destruct Hstep as (s1 & -> & Hr1 & Hsz). cbn. specialize (IH s1 sp1 Hr1 Hk).
  rewrite Hsz in IH. specialize (IH Hpos).
  destruct (lru_spec_run _ sp1 ops) as [[sp2 rs]|]; cbn.
  - destruct IH as (s2 & -> & Hr2). by exists s2.
  - destruct IH as [f ->]. by exists f.
Qed.

Lemma LruInit_ok n : n mod 64 = 0 → 128 ≤ n < 2 ^ 31 →
  ∃ s, LruInit key0 sizeof_Entry n = Ret s ∧ refines s (LruSpec [] false None) ∧
    cache_size_ s = n.
Proof.
  intros Hm Hn. unfold LruInit.
  destruct (AllocatorInit_ok (zero_entry key0) sizeof_Entry n Hm) as (a & -> & Hpool & Hs); [lia|].
  cbn [mbind outcome_bind]. rewrite Z.gtb_ltb, (proj2 (Z.ltb_lt _ _)) by lia.
  cbn [cassert mbind outcome_bind]. destruct (bm_init_ok n) as [Hmap Hsl]; [lia|].
  eexists. split; [done|]. split; [|done]. exists []. split_and!; try done.
  split; cbn; try done; try lia.
  - split; [split|..]; cbn; try done.
    + apply NoDup_singleton.
    + by intros p ?%elem_of_nil.
    + by intros i k ?%elem_of_nil.
    + by intros i ?%elem_of_nil.
  - apply NoDup_nil_2.
  - by intros k ?%elem_of_nil.
Qed.

End LruTheory.
