(* ===== verification/LruInstance.v ===== *)
(** * The LRU cache over the fixed-size hash map

    [LruCache] as it is built: its map is [SmallHashFixed] of SmallHash, which
    keeps the contract of Interfaces. *)

From stdpp Require Import base list numbers gmap.
From S2P Require Import Prelude Interfaces SmallHash LruList LruCache.

Open Scope Z_scope.

Module LruWitness.
(** 64 bit keys without -1, a hash function on their low bits. *)
Definition hash (k : Z) : Z := u32 (k * 2654435761).

#[local] Instance lru_map : BoundedMap Z (cache_entry Z) (@table Z (cache_entry Z)) :=
  fixed_bounded_map hash (-1) 0 (CacheEntry PNull 0) 8 16.

(** Fills the cache of 128 entries, touches the oldest entry and inserts one
    more: the second oldest is replaced. *)
Definition fill : list (lru_op Z Z) := (λ k, OInsert k (k + 1000)) <$> seqZ 0 128.
Definition ops : list (lru_op Z Z) :=
  fill ++ [OLookup 0 true; OInsert 500 1; OLookup 1 true; OLookup 0 false;
           OUpdateValue 2 7; OForget 3; OFilterBegin; OFilterNext; OFilterGet;
           OFilterDelete; OFilterNext; OFilterGet; OFilterEnd; OPause; OLookup 0 true;
           OResume; OUpdate 4; ODrop; OLookup 0 true].
Definition replies : list (lru_reply Z Z) :=
  replicate 128 (RBool true) ++
    [RValue (Some 1000); RBool true; RValue None; RValue (Some 1000);
     RBool true; RBool true; RUnit; RBool true; REntry 2 7;
     RUnit; RBool true; REntry 4 1004; RUnit; RUnit; RValue None;
     RUnit; RUnit; RUnit; RValue None].

Lemma ops_keys : Forall op_key ops.
Proof.
  unfold ops, fill. apply Forall_app. split.
  - apply Forall_fmap, Forall_forall. intros k Hk%elem_of_seqZ. cbn. lia.
  - repeat constructor; cbn; lia.
Qed.

End LruWitness.
