(* ===== verification/FdTable.v ===== *)
(** * The file descriptor table (src/cvmfs/fd_table.h)

    A table of at most [max_open_fds] open descriptors with constant time
    operations: [fd_index_] is a permutation of the descriptors, the used ones
    first, and every used descriptor knows its position in it.  The table
    refines a finite map from descriptors to handles. *)

From stdpp Require Import base list numbers gmap.
From S2P Require Import Prelude.

Open Scope Z_scope.

Section FdTable.
Context {HandleT : Type}.
(** [operator ==] of the handles. *)
Context (heq : HandleT → HandleT → bool) (heq_refl : ∀ h, heq h h = true).

Record FdWrapper := FdWrap { handle : HandleT; index : Z }.

Record fd_table := FdTable {
  invalid_handle_ : HandleT;
  fd_pivot_ : Z;
  fd_index_ : list Z;
  open_fds_ : list FdWrapper
}.

(** The loop of the constructor from [i] on. *)
Fixpoint init_loop (n : nat) (i : Z) (t : fd_table) : outcome fd_table :=
  match n with
  | O => Ret t
  | S n =>
      idx ← wr (fd_index_ t) i i;
      w ← rd (open_fds_ t) i;
      fds ← wr (open_fds_ t) i (FdWrap (handle w) i);
      init_loop n (i + 1) (FdTable (invalid_handle_ t) (fd_pivot_ t) idx fds)
  end.

Definition FdInit (max_open_fds : Z) (invalid_handle : HandleT) : outcome fd_table :=
  _ ← cassert (max_open_fds >? 0);
  let n := Z.to_nat max_open_fds in
  init_loop n 0
    (FdTable invalid_handle 0 (replicate n 0) (replicate n (FdWrap invalid_handle 0))).

(** The copy loop of [AssignFrom] and [Clone]. *)
Fixpoint copy_loop (n : nat) (i : Z) (t other : fd_table) : outcome fd_table :=
  match n with
  | O => Ret t
  | S n =>
      x ← rd (fd_index_ other) i;
      idx ← wr (fd_index_ t) i x;
      w ← rd (open_fds_ other) i;
      fds ← wr (open_fds_ t) i w;
      copy_loop n (i + 1) (FdTable (invalid_handle_ t) (fd_pivot_ t) idx fds) other
  end.

(** [std::vector::resize] *)
Definition resize {A} (n : Z) (x : A) (l : list A) : list A :=
  take (Z.to_nat n) l ++ replicate (Z.to_nat n - length l) x.

Definition AssignFrom (t other : fd_table) : outcome fd_table :=
  let invalid := invalid_handle_ other in
  let idx := resize (zlen (fd_index_ other)) 0 (fd_index_ t) in
  let fds := resize (zlen (open_fds_ other)) (FdWrap invalid 0) (open_fds_ t) in
  copy_loop (length idx) 0 (FdTable invalid (fd_pivot_ other) idx fds) other.

Definition Clone (t : fd_table) : outcome fd_table :=
  result ← FdInit (u32 (zlen (open_fds_ t))) (invalid_handle_ t);
  let result := FdTable (invalid_handle_ result) (fd_pivot_ t) (fd_index_ result)
                  (open_fds_ result) in
  copy_loop (length (fd_index_ t)) 0 result t.

Definition IsValid (t : fd_table) (fd : Z) : outcome bool :=
  if (fd <? 0) || (fd >=? zlen (open_fds_ t)) then Ret false
  else w ← rd (open_fds_ t) fd; Ret (negb (heq (handle w) (invalid_handle_ t))).

Definition OpenFd (t : fd_table) (h : HandleT) : outcome (fd_table * Z) :=
  if heq h (invalid_handle_ t) then Ret (t, - EINVAL)
  else if fd_pivot_ t >=? zlen (fd_index_ t) then Ret (t, - ENFILE)
  else
    next_fd ← rd (fd_index_ t) (fd_pivot_ t);
    _ ← cassert (next_fd <? zlen (open_fds_ t));
    w ← rd (open_fds_ t) next_fd;
    _ ← cassert (heq (handle w) (invalid_handle_ t));
    fds ← wr (open_fds_ t) next_fd (FdWrap h (fd_pivot_ t));
    Ret (FdTable (invalid_handle_ t) (u32 (fd_pivot_ t + 1)) (fd_index_ t) fds, i32 next_fd).

Definition GetHandle (t : fd_table) (fd : Z) : outcome HandleT :=
  v ← IsValid t fd;
  if v : bool then w ← rd (open_fds_ t) fd; Ret (handle w) else Ret (invalid_handle_ t).

Definition CloseFd (t : fd_table) (fd : Z) : outcome (fd_table * Z) :=
  v ← IsValid t fd;
  if negb v then Ret (t, - EBADF)
  else
    w ← rd (open_fds_ t) fd;
    let idx := index w in
    _ ← cassert (idx <? zlen (fd_index_ t));
    _ ← cassert (fd_pivot_ t <=? zlen (fd_index_ t));
    _ ← cassert (fd_pivot_ t >? 0);
    fds ← wr (open_fds_ t) fd (FdWrap (invalid_handle_ t) (index w));
    let pivot := u32 (fd_pivot_ t - 1) in
    if idx <? pivot then
      other ← rd (fd_index_ t) pivot;
      _ ← cassert (other <? zlen fds);
      wo ← rd fds other;
      _ ← cassert (negb (heq (handle wo) (invalid_handle_ t)));
      fds ← wr fds other (FdWrap (handle wo) idx);
      fi ← wr (fd_index_ t) idx other;
      fi ← wr fi pivot fd;
      Ret (FdTable (invalid_handle_ t) pivot fi fds, 0)
    else Ret (FdTable (invalid_handle_ t) pivot (fd_index_ t) fds, 0).

Definition GetMaxFds (t : fd_table) : Z := u32 (zlen (fd_index_ t)).

(** ** The invariant *)

(** [t] holds the open descriptors [m]. *)
Record fd_rep (t : fd_table) (m : gmap Z HandleT) : Prop := {
  fr_len : 0 < zlen (fd_index_ t) < 2 ^ 31;
  fr_fds : zlen (open_fds_ t) = zlen (fd_index_ t);
  fr_pivot : fd_pivot_ t = Z.of_nat (size m);
  fr_bound : fd_pivot_ t ≤ zlen (fd_index_ t);
  fr_range : ∀ i fd, lget (fd_index_ t) i = Some fd → 0 ≤ fd < zlen (fd_index_ t);
  fr_onto : ∀ fd, 0 ≤ fd < zlen (fd_index_ t) → ∃ i, lget (fd_index_ t) i = Some fd;
  fr_inj : ∀ i j fd, lget (fd_index_ t) i = Some fd → lget (fd_index_ t) j = Some fd → i = j;
  fr_used : ∀ i fd, lget (fd_index_ t) i = Some fd → i < fd_pivot_ t →
    ∃ h, lget (open_fds_ t) fd = Some (FdWrap h i) ∧ heq h (invalid_handle_ t) = false ∧ m !! fd = Some h;
  fr_free : ∀ i fd, lget (fd_index_ t) i = Some fd → fd_pivot_ t ≤ i →
    m !! fd = None ∧ ∃ j, lget (open_fds_ t) fd = Some (FdWrap (invalid_handle_ t) j);
  fr_dom : ∀ fd h, m !! fd = Some h → 0 ≤ fd < zlen (fd_index_ t)
}.

(** The slot of a descriptor in range. *)
Lemma fd_slot t m fd : fd_rep t m → 0 ≤ fd < zlen (fd_index_ t) →
  (∃ i h, 0 ≤ i < fd_pivot_ t ∧ lget (fd_index_ t) i = Some fd ∧
     lget (open_fds_ t) fd = Some (FdWrap h i) ∧ heq h (invalid_handle_ t) = false ∧ m !! fd = Some h) ∨
  (m !! fd = None ∧ ∃ j, lget (open_fds_ t) fd = Some (FdWrap (invalid_handle_ t) j)).
Proof.
  intros Hr Hfd. destruct (fr_onto _ _ Hr fd Hfd) as [i Hi].
  pose proof (lget_Some_range _ _ _ Hi). destruct (decide (i < fd_pivot_ t)).
  - left. destruct (fr_used _ _ Hr i fd Hi) as (h & ? & ? & ?); [done|].
    exists i, h. split_and!; done || lia.
  - right. by apply (fr_free _ _ Hr i fd Hi); lia.
Qed.

Lemma IsValid_ok t m fd : fd_rep t m → IsValid t fd = Ret (bool_decide (is_Some (m !! fd))).
Proof.
  intros Hr. unfold IsValid. rewrite (fr_fds _ _ Hr), Z.geb_leb.
  destruct (decide (0 ≤ fd < zlen (fd_index_ t))) as [Hfd|Hfd].
  - rewrite (proj2 (Z.ltb_ge _ _)), (proj2 (Z.leb_gt _ _)) by lia. exec.
    destruct (fd_slot t m fd Hr Hfd) as [(i & h & _ & _ & Ho & Hh & ->)|(-> & j & Ho)];
      rewrite (rd_Some _ _ _ Ho); exec; cbn [handle]; rewrite ?Hh, ?heq_refl;
      [by rewrite bool_decide_true|by rewrite bool_decide_false].
  - assert ((fd <? 0) || (zlen (fd_index_ t) <=? fd) = true) as ->.
    { destruct (Z.ltb_spec fd 0), (Z.leb_spec (zlen (fd_index_ t)) fd); done || lia. }
    rewrite bool_decide_false; [done|]. intros [h Hh]. by apply (fr_dom _ _ Hr) in Hh.
Qed.

Lemma GetHandle_ok t m fd : fd_rep t m →
  GetHandle t fd = Ret (default (invalid_handle_ t) (m !! fd)).
Proof.
  intros Hr. unfold GetHandle. rewrite (IsValid_ok t m fd Hr). exec.
  case_bool_decide as Hs; [|by rewrite (proj2 (eq_None_not_Some _) Hs)].
  destruct Hs as [h Hh].
  destruct (fd_slot t m fd Hr (fr_dom _ _ Hr _ _ Hh)) as [(i & h' & _ & _ & Ho & _ & Hm)|(Hm & _)];
    [|congruence].
  rewrite (rd_Some _ _ _ Ho), Hm. done.
Qed.

Lemma OpenFd_ok t m h : fd_rep t m → heq h (invalid_handle_ t) = false →
  Z.of_nat (size m) < zlen (fd_index_ t) →
  ∃ t' fd, OpenFd t h = Ret (t', fd) ∧ 0 ≤ fd < zlen (fd_index_ t) ∧ m !! fd = None ∧
    fd_rep t' (<[fd := h]> m) ∧ invalid_handle_ t' = invalid_handle_ t ∧
    zlen (fd_index_ t') = zlen (fd_index_ t).
Proof.
  intros Hr Hh Hroom. pose proof Hr as [Hl Hfds Hp Hb Hrng Honto Hinj Hused Hfree Hdom].
  destruct (lget_in_range (fd_index_ t) (fd_pivot_ t)) as [fd Hfd]; [lia|].
  destruct (Hfree _ _ Hfd) as (Hnone & j & Ho); [lia|].
  pose proof (Hrng _ _ Hfd) as Hfdr. unfold OpenFd. rewrite Hh.
  rewrite Z.geb_leb, (proj2 (Z.leb_gt _ _)) by lia. rewrite (rd_Some _ _ _ Hfd). exec.
  rewrite (proj2 (Z.ltb_lt _ _)) by lia. exec. rewrite (rd_Some _ _ _ Ho). exec.
  cbn [handle]. rewrite heq_refl. exec.
  rewrite wr_in_range by lia. exec. rewrite i32_small by lia.
  rewrite u32_small by (unfold is_u32; lia). do 2 eexists. split; [done|].
  split_and!; try done; try lia.
  split; cbn; rewrite ?zlen_lset; try done; try lia.
  - rewrite map_size_insert_None by done. lia.
  - intros i fd' Hi Hlt. destruct (decide (fd' = fd)) as [->|Hne].
    + assert (i = fd_pivot_ t) as -> by eauto. exists h.
      rewrite lget_lset_eq, lookup_insert_eq by lia. done.
    + assert (i ≠ fd_pivot_ t) by congruence.
      destruct (Hused i fd' Hi) as (h' & ? & ? & ?); [lia|]. exists h'.
      rewrite lget_lset_ne, lookup_insert_ne by done. done.
  - intros i fd' Hi Hge. assert (fd' ≠ fd).
    { intros ->. assert (i = fd_pivot_ t) by eauto. lia. }
    rewrite lget_lset_ne, lookup_insert_ne by done. apply (Hfree i); [done|lia].
  - intros fd' h' [[-> _]|[_ ?]]%lookup_insert_Some; eauto.
Qed.

(** A permutation with two entries swapped. *)
Lemma swap_index (l : list Z) i p x y : lget l i = Some x → lget l p = Some y →
  ∀ j, lget (lset (lset l i y) p x) j
     = if decide (j = p) then Some x else if decide (j = i) then Some y else lget l j.
Proof.
  intros Hi Hp j. rewrite lget_lset by (rewrite zlen_lset; by eapply lget_Some_range).
  destruct (decide (p = j)) as [->|]; [by rewrite decide_True|]. rewrite decide_False by done.
  rewrite lget_lset by (by eapply lget_Some_range).
  destruct (decide (i = j)) as [->|]; [by rewrite decide_True|]. by rewrite decide_False.
Qed.

(** The table with descriptor [fd], at position [i] before, at the first free
    position. *)
Lemma close_rep t m fd h i other t' : fd_rep t m → m !! fd = Some h →
  lget (fd_index_ t) i = Some fd → lget (fd_index_ t) (fd_pivot_ t - 1) = Some other →
  invalid_handle_ t' = invalid_handle_ t → fd_pivot_ t' = fd_pivot_ t - 1 →
  zlen (fd_index_ t') = zlen (fd_index_ t) → zlen (open_fds_ t') = zlen (open_fds_ t) →
  (∀ j, lget (fd_index_ t') j = if decide (j = fd_pivot_ t - 1) then Some fd
     else if decide (j = i) then Some other else lget (fd_index_ t) j) →
  (∀ x, lget (open_fds_ t') x
     = if decide (x = fd) then Some (FdWrap (invalid_handle_ t) i)
       else if decide (x = other) then (λ w, FdWrap (handle w) i) <$> lget (open_fds_ t) x
       else lget (open_fds_ t) x) →
  fd_rep t' (delete fd m).
Proof.
  intros [Hl Hfds Hp Hb Hrng Honto Hinj Hused Hfree Hdom] Hm Hi Ho Hinv Hp' Hl' Hf' Hidx Hopen.
  assert (Z.of_nat (size m) = Z.of_nat (size (delete fd m)) + 1) as Hsz.
  { rewrite map_size_delete_Some by by exists h.
    assert (size m ≠ 0%nat); [|lia]. intros Hz%map_size_empty_inv. set_solver. }
  assert (i < fd_pivot_ t) as Hip.
  { destruct (decide (i < fd_pivot_ t)); [done|]. destruct (Hfree _ _ Hi) as [? _]; [lia|congruence]. }
  assert (∀ j x, lget (fd_index_ t') j = Some x → ∃ j', lget (fd_index_ t) j' = Some x ∧
    ((j = fd_pivot_ t - 1 ∧ x = fd ∧ j' = i) ∨
     (j ≠ fd_pivot_ t - 1 ∧ j = i ∧ x = other ∧ j' = fd_pivot_ t - 1) ∨
     (j ≠ fd_pivot_ t - 1 ∧ j ≠ i ∧ j' = j))) as Hback.
  { intros j x. rewrite Hidx. repeat case_decide; intros Hx; simplify_eq; eauto 8. }
  split; rewrite ?Hinv, ?Hp', ?Hl'; try done; try lia.
  - intros j x (j' & ? & _)%Hback. eauto.
  - intros x Hx. destruct (Honto x Hx) as [j Hj].
    destruct (decide (j = i)) as [->|]; [|destruct (decide (j = fd_pivot_ t - 1)) as [->|]].
    + exists (fd_pivot_ t - 1). rewrite Hidx, decide_True by done. congruence.
    + exists i. rewrite Hidx. rewrite decide_False, decide_True by congruence. congruence.
    + exists j. rewrite Hidx. by rewrite !decide_False.
  - intros j1 j2 x (a & Ha & Hca)%Hback (b & Hb' & Hcb)%Hback.
    assert (a = b) as -> by eauto. intuition congruence.
  - intros j x (j' & Hj' & Hc)%Hback Hlt.
    assert (x ≠ fd) as Hxfd.
    { intros ->. assert (j' = i) by eauto. lia. }
    destruct (Hused j' x Hj') as (h' & Hox & Hne & Hmx); [lia|]. exists h'.
    rewrite Hopen, decide_False, lookup_delete_ne by done.
    destruct (decide (x = other)) as [->|Hxo].
    + rewrite Hox. cbn. assert (j' = fd_pivot_ t - 1) by eauto.
      assert (j = i) as -> by lia. done.
    + assert (j' = j) as ->; [|done].
      destruct Hc as [(?&?&?)|[(?&?&?&?)|(?&?&?)]]; congruence.
  - intros j x (j' & Hj' & Hc)%Hback Hge. rewrite Hopen.
    destruct (decide (x = fd)) as [->|Hxfd].
    { rewrite lookup_delete_eq. eauto. }
    assert (j' = j) as -> by lia. assert (fd_pivot_ t ≤ j).
    { destruct (decide (j = fd_pivot_ t - 1)); [|lia]. lia. }
    destruct (Hfree j x Hj') as (? & k & Hk); [lia|].
    rewrite decide_False, lookup_delete_ne by (try congruence; intros ->; assert (j = fd_pivot_ t - 1) by eauto; lia).
    eauto.
  - intros x h' [_ ?]%lookup_delete_Some. eauto.
Qed.

Lemma CloseFd_ok t m fd h : fd_rep t m → m !! fd = Some h →
  ∃ t', CloseFd t fd = Ret (t', 0) ∧ fd_rep t' (delete fd m) ∧
    invalid_handle_ t' = invalid_handle_ t ∧ zlen (fd_index_ t') = zlen (fd_index_ t).
Proof.
  intros Hr Hm. pose proof (fr_dom _ _ Hr _ _ Hm) as Hfd.
  destruct (fd_slot t m fd Hr Hfd) as [(i & h' & Hip & Hi & Ho & Hne & _)|[? _]]; [|congruence].
  pose proof Hr as [Hl Hfds Hp Hb Hrng Honto Hinj Hused Hfree Hdom].
  destruct (lget_in_range (fd_index_ t) (fd_pivot_ t - 1)) as [other Hot]; [lia|].
  unfold CloseFd. rewrite (IsValid_ok t m fd Hr), bool_decide_true by by exists h. exec.
  rewrite (rd_Some _ _ _ Ho). exec. cbn [index handle].
  rewrite (proj2 (Z.ltb_lt i (zlen (fd_index_ t)))) by lia. exec.
  rewrite (proj2 (Z.leb_le _ _)) by lia. exec.
  rewrite Z.gtb_ltb, (proj2 (Z.ltb_lt 0 (fd_pivot_ t))) by lia. exec.
  rewrite wr_in_range by lia. exec. rewrite u32_small by (unfold is_u32; lia).
  destruct (Z.ltb_spec i (fd_pivot_ t - 1)) as [Hlt|Hge].
  - assert (other ≠ fd) as Hof.
    { intros ->. assert (i = fd_pivot_ t - 1) by eauto. lia. }
    destruct (Hused _ _ Hot) as (ho & Hoo & Hhne & _); [lia|].
    pose proof (Hrng _ _ Hot). rewrite (rd_Some _ _ _ Hot). exec.
    rewrite zlen_lset, (proj2 (Z.ltb_lt _ _)) by lia. exec.
    rewrite (rd_Some _ other (FdWrap ho (fd_pivot_ t - 1))) by (by rewrite lget_lset_ne).
    exec. cbn [handle]. rewrite Hhne. exec.
    rewrite (wr_in_range (fd_index_ t) i) by lia.
    rewrite (wr_in_range (lset _ fd _) other) by (rewrite zlen_lset; lia). exec.
    rewrite (wr_in_range (lset _ i _)) by (rewrite zlen_lset; lia). exec.
    eexists. split; [done|]. split; [|cbn; by rewrite !zlen_lset].
    eapply close_rep; try done; cbn; rewrite ?zlen_lset; try done.
    + apply swap_index; done.
    + intros x. rewrite lget_lset by (rewrite zlen_lset; lia).
      destruct (decide (other = x)) as [<-|].
      { rewrite decide_False, decide_True, Hoo by done. done. }
      rewrite lget_lset by lia. destruct (decide (fd = x)) as [<-|].
      { by rewrite decide_True. }
      by rewrite !decide_False.
  - assert (i = fd_pivot_ t - 1) as -> by lia. assert (other = fd) as -> by congruence.
    eexists. split; [done|]. split; [|done].
    eapply close_rep; try done; cbn; rewrite ?zlen_lset; try done.
    + intros j. repeat case_decide; congruence.
    + intros x. rewrite lget_lset by lia. repeat case_decide; congruence.
Qed.

Lemma init_loop_ok inv n : ∀ i t, invalid_handle_ t = inv →
  0 ≤ i → zlen (fd_index_ t) = i + Z.of_nat n → zlen (open_fds_ t) = i + Z.of_nat n →
  (∀ j w, lget (open_fds_ t) j = Some w → handle w = inv) →
  (∀ j, 0 ≤ j < i → lget (fd_index_ t) j = Some j) →
  ∃ t', init_loop n i t = Ret t' ∧ invalid_handle_ t' = inv ∧ fd_pivot_ t' = fd_pivot_ t ∧
    zlen (fd_index_ t') = i + Z.of_nat n ∧ zlen (open_fds_ t') = i + Z.of_nat n ∧
    (∀ j w, lget (open_fds_ t') j = Some w → handle w = inv) ∧
    (∀ j, 0 ≤ j < i + Z.of_nat n → lget (fd_index_ t') j = Some j).
Proof.
  induction n as [|n IH]; intros i t Hinv H0 Hl Ho Hh Hidx; cbn [init_loop].
  { exists t. split_and!; try done. intros j Hj. apply Hidx. lia. }
  rewrite wr_in_range by lia. exec.
  destruct (lget_in_range (open_fds_ t) i) as [w Hw]; [lia|].
  rewrite (rd_Some _ _ _ Hw). exec. rewrite wr_in_range by lia. exec.
  match goal with |- ∃ t', init_loop n _ ?t1 = _ ∧ _ =>
    destruct (IH (i + 1) t1) as (t' & -> & ? & ? & ? & ? & ? & ?) end;
    cbn; rewrite ?zlen_lset; try done; try lia.
  - intros j w'. rewrite lget_lset by lia. case_decide; [|apply Hh].
    intros [= <-]. cbn. eauto.
  - intros j Hj. rewrite lget_lset by lia. case_decide; [congruence|]. apply Hidx. lia.
  - exists t'. rewrite Nat2Z.inj_succ. split_and!; try done; try lia.
    intros j Hj. auto with lia.
Qed.

Lemma FdInit_ok n inv : 0 < n < 2 ^ 31 →
  ∃ t, FdInit n inv = Ret t ∧ fd_rep t ∅ ∧ invalid_handle_ t = inv ∧ zlen (fd_index_ t) = n.
Proof.
  intros Hn. unfold FdInit. rewrite Z.gtb_ltb, (proj2 (Z.ltb_lt _ _)) by lia. exec.
  destruct (init_loop_ok inv (Z.to_nat n) 0
    (FdTable inv 0 (replicate (Z.to_nat n) 0) (replicate (Z.to_nat n) (FdWrap inv 0))))
    as (t & -> & Hinv & Hp & Hl & Ho & Hh & Hidx); cbn; try done.
  - unfold zlen. rewrite length_replicate. lia.
  - unfold zlen. rewrite length_replicate. lia.
  - intros j w ->%lget_replicate_inv. done.
  - lia.
  - rewrite Z.add_0_l, Z2Nat.id in Hl, Ho, Hidx by lia. exists t. split_and!; try done.
    assert (∀ i fd, lget (fd_index_ t) i = Some fd → fd = i ∧ 0 ≤ i < n) as Hid.
    { intros i fd Hi. pose proof (lget_Some_range _ _ _ Hi). rewrite Hidx in Hi by lia.
      split; [congruence|lia]. }
    cbn in Hp. split; rewrite ?Hl; try done; try lia.
    + intros i fd [-> ?]%Hid. lia.
    + intros fd Hfd. exists fd. auto.
    + intros i j fd [-> _]%Hid [-> _]%Hid. done.
    + intros i fd [-> ?]%Hid. lia.
    + intros i fd [-> ?]%Hid _. rewrite lookup_empty. split; [done|].
      destruct (lget_in_range (open_fds_ t) i) as [[h j] Hw]; [lia|]. exists j.
      apply Hh in Hw as Hhw. cbn in Hhw. by rewrite Hw, Hhw, Hinv.
Qed.

Lemma copy_loop_ok n : ∀ i t other, 0 ≤ i →
  zlen (fd_index_ other) = i + Z.of_nat n → zlen (open_fds_ other) = i + Z.of_nat n →
  zlen (fd_index_ t) = i + Z.of_nat n → zlen (open_fds_ t) = i + Z.of_nat n →
  (∀ j, 0 ≤ j < i → lget (fd_index_ t) j = lget (fd_index_ other) j) →
  (∀ j, 0 ≤ j < i → lget (open_fds_ t) j = lget (open_fds_ other) j) →
  copy_loop n i t other
  = Ret (FdTable (invalid_handle_ t) (fd_pivot_ t) (fd_index_ other) (open_fds_ other)).
Proof.
  induction n as [|n IH]; intros i t other H0 Hl1 Ho1 Hl2 Ho2 Hidx Hfds; cbn [copy_loop].
  - destruct t as [inv p idx fds]. cbn in *. do 2 f_equal; apply lget_ext; intros j;
      (destruct (decide (0 ≤ j < i)); [auto|]); rewrite !lget_out_of_range; done || lia.
  - destruct (lget_in_range (fd_index_ other) i) as [x Hx]; [lia|].
    destruct (lget_in_range (open_fds_ other) i) as [w Hw]; [lia|].
    rewrite (rd_Some _ _ _ Hx). exec. rewrite (wr_in_range (fd_index_ t)) by lia. exec.
    rewrite (rd_Some _ _ _ Hw). exec. rewrite (wr_in_range (open_fds_ t)) by lia. exec.
    rewrite IH; cbn; rewrite ?zlen_lset; try done; try lia.
    + intros j Hj. rewrite lget_lset by lia. case_decide; [congruence|]. apply Hidx. lia.
    + intros j Hj. rewrite lget_lset by lia. case_decide; [congruence|]. apply Hfds. lia.
Qed.

Lemma zlen_resize {A} n (x : A) l : 0 ≤ n → zlen (resize n x l) = n.
Proof.
  intros. unfold zlen, resize. rewrite length_app, length_take, length_replicate. lia.
Qed.

(** ** Sequences of operations *)

Inductive fd_op := OpOpen (h : HandleT) | OpGet (fd : Z) | OpClose (fd : Z).
Inductive fd_reply := ReplyInt (z : Z) | ReplyHandle (h : HandleT).

Definition fd_step (t : fd_table) (o : fd_op) : outcome (fd_table * fd_reply) :=
  match o with
  | OpOpen h => '(t, r) ← OpenFd t h; Ret (t, ReplyInt r)
  | OpGet fd => h ← GetHandle t fd; Ret (t, ReplyHandle h)
  | OpClose fd => '(t, r) ← CloseFd t fd; Ret (t, ReplyInt r)
  end.

Fixpoint fd_run (t : fd_table) (ops : list fd_op) : outcome (fd_table * list fd_reply) :=
  match ops with
  | [] => Ret (t, [])
  | o :: ops => '(t, r) ← fd_step t o; '(t, rs) ← fd_run t ops; Ret (t, r :: rs)
  end.

(** What a table of [n] descriptors may answer when [m] are open: a new
    descriptor is any unused one. *)
Inductive fd_spec (n : Z) (inv : HandleT) :
    gmap Z HandleT → fd_op → gmap Z HandleT → fd_reply → Prop :=
| spec_open_invalid m h : heq h inv = true →
    fd_spec n inv m (OpOpen h) m (ReplyInt (- EINVAL))
| spec_open_full m h : heq h inv = false → Z.of_nat (size m) = n →
    fd_spec n inv m (OpOpen h) m (ReplyInt (- ENFILE))
| spec_open m h fd : heq h inv = false → Z.of_nat (size m) < n → 0 ≤ fd < n → m !! fd = None →
    fd_spec n inv m (OpOpen h) (<[fd := h]> m) (ReplyInt fd)
| spec_get m fd : fd_spec n inv m (OpGet fd) m (ReplyHandle (default inv (m !! fd)))
| spec_close_bad m fd : m !! fd = None → fd_spec n inv m (OpClose fd) m (ReplyInt (- EBADF))
| spec_close m fd h : m !! fd = Some h →
    fd_spec n inv m (OpClose fd) (delete fd m) (ReplyInt 0).

Inductive fd_trace (n : Z) (inv : HandleT) :
    gmap Z HandleT → list fd_op → gmap Z HandleT → list fd_reply → Prop :=
| trace_nil m : fd_trace n inv m [] m []
| trace_cons m o m' r ops m'' rs : fd_spec n inv m o m' r → fd_trace n inv m' ops m'' rs →
    fd_trace n inv m (o :: ops) m'' (r :: rs).

Lemma fd_step_ok t m o : fd_rep t m →
  ∃ t' m' r, fd_step t o = Ret (t', r) ∧ fd_rep t' m' ∧
    fd_spec (zlen (fd_index_ t)) (invalid_handle_ t) m o m' r ∧
    invalid_handle_ t' = invalid_handle_ t ∧ zlen (fd_index_ t') = zlen (fd_index_ t).
Proof.
  intros Hr. destruct o as [h|fd|fd]; cbn [fd_step].
  - destruct (heq h (invalid_handle_ t)) eqn:Hh.
    { unfold OpenFd. rewrite Hh. exec. do 3 eexists.
      split; [done|]. split; [done|]. split; [by constructor|done]. }
    destruct (decide (Z.of_nat (size m) < zlen (fd_index_ t))) as [Hlt|Hge].
    + destruct (OpenFd_ok t m h Hr Hh Hlt) as (t' & fd & -> & Hfd & Hnone & Hr' & Hinv & Hl).
      exec. do 3 eexists. split; [done|]. split; [done|]. split; [by constructor|done].
    + pose proof (fr_pivot _ _ Hr). pose proof (fr_bound _ _ Hr).
      unfold OpenFd. rewrite Hh, Z.geb_leb, (proj2 (Z.leb_le _ _)) by lia.
      exec. do 3 eexists. split; [done|]. split; [done|]. split; [constructor; done || lia|done].
  - rewrite (GetHandle_ok t m fd Hr). exec. do 3 eexists. split; [done|]. split; [done|].
    split; [constructor|done].
  - destruct (m !! fd) as [h|] eqn:Hm.
    + destruct (CloseFd_ok t m fd h Hr Hm) as (t' & -> & Hr' & Hinv & Hl). exec.
      do 3 eexists. split; [done|]. split; [done|]. split; [by econstructor|done].
    + unfold CloseFd. rewrite (IsValid_ok t m fd Hr), Hm. exec. cbn.
      do 3 eexists. split; [done|]. split; [done|]. split; [by constructor|done].
Qed.

Lemma fd_run_ok ops : ∀ t m, fd_rep t m →
  ∃ t' m' rs, fd_run t ops = Ret (t', rs) ∧ fd_rep t' m' ∧
    fd_trace (zlen (fd_index_ t)) (invalid_handle_ t) m ops m' rs.
Proof.
  induction ops as [|o ops IH]; intros t m Hr; cbn [fd_run].
  { exists t, m, []. split; [done|]. split; [done|constructor]. }
  destruct (fd_step_ok t m o Hr) as (t1 & m1 & r & -> & Hr1 & Hs & Hinv & Hl). exec.
  destruct (IH t1 m1 Hr1) as (t2 & m2 & rs & -> & Hr2 & Htr). rewrite Hinv, Hl in Htr. exec.
  exists t2, m2, (r :: rs). split; [done|]. split; [done|]. by econstructor.
Qed.

(** C27. A file descriptor table for [n] descriptors never dies and
    answers any sequence of [OpenFd], [GetHandle] and [CloseFd] as a finite map
    from descriptors to handles: [OpenFd] returns an unused number, [-EINVAL]
    for the invalid handle and [-ENFILE] only when all [n] are open. *)
Theorem fd_table_refines_map n inv ops : 0 < n < 2 ^ 31 →
  ∃ t t' m rs, FdInit n inv = Ret t ∧ fd_run t ops = Ret (t', rs) ∧
    fd_rep t' m ∧ fd_trace n inv ∅ ops m rs.
Proof.
  intros Hn. destruct (FdInit_ok n inv Hn) as (t & Ht & Hr & Hinv & Hl).
  destruct (fd_run_ok ops t ∅ Hr) as (t' & m & rs & Hrun & Hr' & Htr).
  rewrite Hinv, Hl in Htr. eauto 10.
Qed.

Lemma Clone_ok t m : fd_rep t m → Clone t = Ret t.
Proof.
  intros Hr. pose proof Hr as [Hl Hfds _ _ _ _ _ _ _ _]. unfold Clone.
  rewrite u32_small by (unfold is_u32; lia).
  destruct (FdInit_ok (zlen (open_fds_ t)) (invalid_handle_ t)) as (t1 & -> & Hr1 & Hinv & Hl1);
    [lia|]. exec. pose proof (fr_fds _ _ Hr1). unfold zlen in *.
  rewrite copy_loop_ok; cbn; unfold zlen; try done; try lia.
  rewrite Hinv. by destruct t.
Qed.

Lemma AssignFrom_ok t0 t : zlen (open_fds_ t) = zlen (fd_index_ t) → AssignFrom t0 t = Ret t.
Proof.
  intros Hl. pose proof (zlen_nonneg (fd_index_ t)). unfold AssignFrom.
  set (idx := resize _ 0 _). set (fds := resize _ _ (open_fds_ t0)).
  assert (zlen idx = zlen (fd_index_ t)) by (by apply zlen_resize).
  assert (zlen fds = zlen (fd_index_ t)) by (rewrite <- Hl; apply zlen_resize; lia).
  unfold zlen in *. rewrite copy_loop_ok; cbn; unfold zlen; try done; try lia. by destruct t.
Qed.

(** Saving the state of a table with [Clone] and restoring it
    with [AssignFrom] into any other table gives back the table itself. *)
Theorem save_restore t m t0 : fd_rep t m →
  (saved ← Clone t; AssignFrom t0 saved) = Ret t.
Proof.
  intros Hr. rewrite (Clone_ok t m Hr). exec. apply AssignFrom_ok, (fr_fds _ _ Hr).
Qed.
End FdTable.
Arguments fd_table : clear implicits.

Module FdTableWitness.
Definition fd_ops : list (fd_op (HandleT := Z)) :=
  [OpOpen 7; OpOpen 8; OpOpen 0; OpOpen 9; OpClose 0; OpGet 0; OpGet 1; OpOpen 5; OpClose 17].

Lemma fd_table_refines_map_witness :
  ∃ t t' m rs, FdInit 2 0 = Ret t ∧ fd_run Z.eqb t fd_ops = Ret (t', rs) ∧
    fd_rep Z.eqb t' m ∧ fd_trace Z.eqb 2 0 ∅ fd_ops m rs.
Proof. apply (fd_table_refines_map Z.eqb Z.eqb_refl 2 0 fd_ops). lia. Defined.

(** The replies of the run above. *)
Lemma fd_replies :
  (t ← FdInit 2 0; '(_, rs) ← fd_run Z.eqb t fd_ops; Ret rs)
  = Ret [ReplyInt 0; ReplyInt 1; ReplyInt (-22); ReplyInt (-23); ReplyInt 0; ReplyHandle 0;
         ReplyHandle 8; ReplyInt 0; ReplyInt (-9)].
Proof. vm_compute. reflexivity. Qed.

Lemma save_restore_witness :
  ∃ t, FdInit 2 0 = Ret t ∧
    (saved ← Clone t; AssignFrom (FdTable (-1) 0 [] []) saved) = Ret t.
Proof.
  destruct (FdInit_ok Z.eqb 2 0) as (t & Ht & Hr & _ & _); [lia|].
  exists t. split; [exact Ht|]. exact (save_restore Z.eqb t ∅ (FdTable (-1) 0 [] []) Hr).
Defined.
End FdTableWitness.
