(* ===== verification/Bytes.v ===== *)
(** * Bytes and memory areas

    Bytes are integers from 0 to 255, a memory area is a list of bytes.
    Little and big endian encodings of machine integers, and the block
    operations [memcpy] and [memmove] as checked loads and stores. *)

From stdpp Require Import base numbers list.
From S2P Require Import Prelude.

Open Scope Z_scope.

Definition bytes : Type := list Z.

Definition bytes_ok (l : bytes) : Prop := Forall is_u8 l.

(** ** Encodings of integers *)

Fixpoint le_encode (n : nat) (z : Z) : bytes :=
  match n with
  | O => []
  | S n => u8 z :: le_encode n (z / 256)
  end.

Fixpoint le_decode (l : bytes) : Z :=
  match l with
  | [] => 0
  | b :: l => b + 256 * le_decode l
  end.

Definition be_encode (n : nat) (z : Z) : bytes := reverse (le_encode n z).
Definition be_decode (l : bytes) : Z := le_decode (reverse l).

Lemma length_le_encode n z : length (le_encode n z) = n.
Proof. revert z. induction n; intros; cbn; auto. Qed.

Lemma length_be_encode n z : length (be_encode n z) = n.
Proof. unfold be_encode. by rewrite length_reverse, length_le_encode. Qed.

Lemma le_encode_ok n z : bytes_ok (le_encode n z).
Proof. revert z. induction n; intros; cbn; constructor; auto with words. apply IHn. Qed.

Lemma be_encode_ok n z : bytes_ok (be_encode n z).
Proof. apply Forall_reverse, le_encode_ok. Qed.

Lemma pow256_succ n : 2 ^ (8 * Z.of_nat (S n)) = 256 * 2 ^ (8 * Z.of_nat n).
Proof.
  rewrite Nat2Z.inj_succ. replace (8 * Z.succ (Z.of_nat n)) with (8 + 8 * Z.of_nat n) by lia.
  rewrite Z.pow_add_r by lia. done.
Qed.

Lemma le_decode_encode n z : le_decode (le_encode n z) = z mod 2 ^ (8 * Z.of_nat n).
Proof.
  revert z. induction n as [|n IH]; intros z; cbn [le_encode le_decode].
  { by rewrite Z.mod_1_r. }
  rewrite IH, pow256_succ. unfold u8. change (2 ^ 8) with 256.
  rewrite Z.rem_mul_r by lia. done.
Qed.

Lemma be_decode_encode n z : be_decode (be_encode n z) = z mod 2 ^ (8 * Z.of_nat n).
Proof. unfold be_decode, be_encode. by rewrite reverse_involutive, le_decode_encode. Qed.

Lemma le_decode_range l : bytes_ok l → 0 ≤ le_decode l < 2 ^ (8 * Z.of_nat (length l)).
Proof.
  induction l as [|b l IH]; intros Hl; [done|]. inversion Hl as [|? ? Hb Hl']; subst.
  cbn [le_decode length]. rewrite pow256_succ. specialize (IH Hl').
  unfold is_u8 in Hb. change (2 ^ 8) with 256 in Hb. lia.
Qed.

Lemma be_decode_range l : bytes_ok l → 0 ≤ be_decode l < 2 ^ (8 * Z.of_nat (length l)).
Proof.
  intros. unfold be_decode. rewrite <- length_reverse. apply le_decode_range.
  by apply Forall_reverse.
Qed.

Lemma le_encode_decode l : bytes_ok l → le_encode (length l) (le_decode l) = l.
Proof.
  induction l as [|b l IH]; intros Hl; [done|]. inversion Hl as [|? ? Hb Hl']; subst.
  cbn [le_decode length le_encode]. unfold is_u8 in Hb. change (2 ^ 8) with 256 in Hb.
  unfold u8. change (2 ^ 8) with 256.
  rewrite (Z.add_comm b), (Z.mul_comm 256), Z.add_comm, Z_mod_plus_full, Z.mod_small by lia.
  rewrite Z.div_add, Z.div_small, Z.add_0_l by lia. f_equal. by apply IH.
Qed.

Lemma be_encode_decode l : bytes_ok l → be_encode (length l) (be_decode l) = l.
Proof.
  intros. unfold be_encode, be_decode. rewrite <- length_reverse, le_encode_decode.
  - apply reverse_involutive.
  - by apply Forall_reverse.
Qed.

(** ** Loads and stores *)

Definition load (mem : bytes) (off n : Z) : outcome bytes :=
  if decide (0 ≤ off ∧ 0 ≤ n ∧ off + n ≤ zlen mem)
  then Ret (take (Z.to_nat n) (drop (Z.to_nat off) mem))
  else Fail OutOfBounds.

Definition store (mem : bytes) (off : Z) (b : bytes) : outcome bytes :=
  if decide (0 ≤ off ∧ off + zlen b ≤ zlen mem)
  then Ret (take (Z.to_nat off) mem ++ b ++ drop (Z.to_nat off + length b) mem)
  else Fail OutOfBounds.

Lemma zlen_app {A} (l1 l2 : list A) : zlen (l1 ++ l2) = zlen l1 + zlen l2.
Proof. unfold zlen. rewrite length_app. lia. Qed.

Lemma zlen_cons {A} (x : A) l : zlen (x :: l) = 1 + zlen l.
Proof. unfold zlen. cbn [length]. lia. Qed.

Lemma take_app_zlen {A} (l1 l2 : list A) n : n = zlen l1 → take (Z.to_nat n) (l1 ++ l2) = l1.
Proof. intros ->. unfold zlen. by rewrite Nat2Z.id, take_app_length. Qed.

Lemma drop_app_zlen {A} (l1 l2 : list A) n : n = zlen l1 → drop (Z.to_nat n) (l1 ++ l2) = l2.
Proof. intros ->. unfold zlen. by rewrite Nat2Z.id, drop_app_length. Qed.

Lemma split_zlen {A} (l : list A) n : 0 ≤ n ≤ zlen l → ∃ l1 l2, l = l1 ++ l2 ∧ zlen l1 = n.
Proof.
  intros Hn. exists (take (Z.to_nat n) l), (drop (Z.to_nat n) l). rewrite take_drop. split; [done|].
  unfold zlen in *. rewrite length_take. lia.
Qed.

Lemma zlen_take {A} n (l : list A) : 0 ≤ n → zlen (take (Z.to_nat n) l) = Z.min n (zlen l).
Proof. intros Hn. unfold zlen. rewrite length_take. lia. Qed.

Lemma zlen_zero {A} (l : list A) : zlen l = 0 → l = [].
Proof. destruct l; unfold zlen; cbn; [done|lia]. Qed.

Lemma zlen_pos {A} (l : list A) : l ≠ [] → 0 < zlen l.
Proof. destruct l as [|x l]; [done|]. rewrite zlen_cons. pose proof (zlen_nonneg l). lia. Qed.

Lemma load_app pre mid post off n : off = zlen pre → n = zlen mid →
  load (pre ++ mid ++ post) off n = Ret mid.
Proof.
  intros -> ->. unfold load. rewrite decide_True by (rewrite !zlen_app; unfold zlen; lia).
  unfold zlen. rewrite !Nat2Z.id, drop_app_length, take_app_length. done.
Qed.

Lemma load_tail l1 l2 : load (l1 ++ l2) (zlen l1) (zlen l2) = Ret l2.
Proof. rewrite <- (app_nil_r l2) at 1. by apply load_app. Qed.

Lemma store_app pre old post off b : off = zlen pre → length b = length old →
  store (pre ++ old ++ post) off b = Ret (pre ++ b ++ post).
Proof.
  intros -> Hb. unfold store. rewrite decide_True by (rewrite !zlen_app; unfold zlen; lia).
  unfold zlen. rewrite !Nat2Z.id, take_app_length. do 3 f_equal.
  rewrite Hb, <- length_app, app_assoc, drop_app_length. done.
Qed.

Lemma zlen_store mem off b mem' : store mem off b = Ret mem' → zlen mem' = zlen mem.
Proof.
  unfold store. case_decide as Hb; [|done]. intros [= <-]. unfold zlen in *.
  rewrite !length_app, length_take, length_drop. lia.
Qed.

(** ** 64 bit signed integers in memory, little endian *)

Definition load_i64 (mem : bytes) (off : Z) : outcome Z :=
  b ← load mem off 8; Ret (i64 (le_decode b)).
Definition store_i64 (mem : bytes) (off z : Z) : outcome bytes := store mem off (le_encode 8 z).

Lemma load_i64_app pre z post off : off = zlen pre → - 2 ^ 63 ≤ z < 2 ^ 63 →
  load_i64 (pre ++ le_encode 8 z ++ post) off = Ret z.
Proof.
  intros -> Hz. unfold load_i64. rewrite load_app by done. exec.
  rewrite le_decode_encode. change (8 * Z.of_nat 8) with 64. do 2 f_equal.
  unfold i64. rewrite Zplus_mod_idemp_l, Z.mod_small by lia. lia.
Qed.

Lemma store_i64_app pre old z post off : off = zlen pre → length old = 8%nat →
  store_i64 (pre ++ old ++ post) off z = Ret (pre ++ le_encode 8 z ++ post).
Proof. intros -> Ho. apply store_app; [done|]. by rewrite length_le_encode. Qed.

Lemma load_sub pre mid post off n : 0 ≤ off → 0 ≤ n → off + n ≤ zlen mid →
  load (pre ++ mid ++ post) (zlen pre + off) n
  = Ret (take (Z.to_nat n) (drop (Z.to_nat off) mid)).
Proof.
  intros Ho Hn Hl. unfold load.
  rewrite decide_True by (rewrite !zlen_app; unfold zlen in *; lia). f_equal.
  unfold zlen in *. replace (Z.to_nat (Z.of_nat (length pre) + off))
    with (length pre + Z.to_nat off)%nat by lia.
  rewrite <- drop_drop, drop_app_length, drop_app_le, take_app_le by (rewrite ?length_drop; lia). done.
Qed.

Lemma lget_app {A} (l1 l2 : list A) i :
  lget (l1 ++ l2) i = if decide (i < zlen l1) then lget l1 i else lget l2 (i - zlen l1).
Proof.
  unfold lget, zlen. repeat case_decide; try lia; try done.
  - apply lookup_app_l. lia.
  - rewrite lookup_app_r by lia. f_equal. lia.
Qed.

Lemma rd_app_at {A} (pre : list A) x post i : i = zlen pre → rd (pre ++ x :: post) i = Ret x.
Proof.
  intros ->. apply rd_Some. rewrite lget_app, decide_False by lia. by rewrite Z.sub_diag.
Qed.

(** ** Bit operations as arithmetic *)

Lemma lor_disjoint a b n : 0 ≤ n → 0 ≤ b < 2 ^ n → Z.lor (a * 2 ^ n) b = a * 2 ^ n + b.
Proof.
  intros Hn Hb. assert (Z.land (a * 2 ^ n) b = 0) as Hl.
  { apply Z.bits_inj'. intros i Hi. rewrite Z.land_spec, Z.bits_0.
    destruct (Z.lt_ge_cases i n).
    - by rewrite Z.mul_pow2_bits_low by lia.
    - destruct (decide (b = 0)) as [->|]; [by rewrite Z.bits_0, andb_false_r|].
      rewrite (Z.bits_above_log2 b), andb_false_r; [done|lia|].
      apply Z.lt_le_trans with n; [apply Z.log2_lt_pow2; lia|lia]. }
  rewrite <- Z.lxor_lor by done. by rewrite Z.add_nocarry_lxor.
Qed.

(** The four bytes of a 32 bit integer, most significant first. *)
Lemma join_u32 a b c d : is_u8 a → is_u8 b → is_u8 c → is_u8 d →
  Z.lor (Z.lor (Z.lor (u32 (Z.shiftl a 24)) (u32 (Z.shiftl b 16))) (u32 (Z.shiftl c 8))) d
  = a * 2 ^ 24 + b * 2 ^ 16 + c * 2 ^ 8 + d.
Proof.
  intros Ha Hb Hc Hd. rewrite !Z.shiftl_mul_pow2 by lia. unfold_words.
  change (2 ^ 24) with 16777216. 
  rewrite !Z.mod_small by lia.
  pose proof (lor_disjoint a (b * 65536) 24 ltac:(lia) ltac:(change (2 ^ 24) with 16777216; lia)) as E1.
  change (2 ^ 24) with 16777216 in E1. rewrite E1.
  replace (a * 16777216 + b * 65536) with ((a * 256 + b) * 65536) by lia.
  pose proof (lor_disjoint (a * 256 + b) (c * 256) 16 ltac:(lia) ltac:(change (2 ^ 16) with 65536; lia)) as E2.
  change (2 ^ 16) with 65536 in E2. rewrite E2.
  replace ((a * 256 + b) * 65536 + c * 256) with ((a * 65536 + b * 256 + c) * 256) by lia.
  pose proof (lor_disjoint (a * 65536 + b * 256 + c) d 8 ltac:(lia) ltac:(change (2 ^ 8) with 256; lia)) as E3.
  change (2 ^ 8) with 256 in E3. rewrite E3. lia.
Qed.

Lemma split_u32 v : is_u32 v →
  u8 (Z.shiftr v 24) * 2 ^ 24 + u8 (Z.shiftr v 16) * 2 ^ 16 + u8 (Z.shiftr v 8) * 2 ^ 8 + u8 v = v.
Proof.
  intros Hv. rewrite !Z.shiftr_div_pow2 by lia. unfold_words.
  change (2 ^ 24) with 16777216 in *. dlia.
Qed.

Lemma join_u64 hi lo : is_u32 hi → is_u32 lo → Z.lor (u64 (Z.shiftl hi 32)) lo = hi * 2 ^ 32 + lo.
Proof.
  intros Hh Hl. rewrite Z.shiftl_mul_pow2 by lia. rewrite u64_small by (unfold_words; lia).
  apply lor_disjoint; [lia|done].
Qed.

Lemma split_u64 v : is_u64 v → u32 (Z.shiftr v 32) * 2 ^ 32 + u32 v = v.
Proof. intros Hv. rewrite Z.shiftr_div_pow2 by lia. unfold_words. dlia. Qed.
