(* ===== verification/MallocHeap.v ===== *)
(** * The compacting heap (src/cvmfs/malloc_heap.cc, malloc_heap.h)

    A memory area of [capacity_] bytes from which blocks are allocated one
    behind the other.  Every block is preceded by an 8 byte tag with its size,
    negative for free blocks.  [Compact] slides the reserved blocks together
    and reports every block it moves to a callback.  A heap is a sequence of
    blocks; pointers are offsets into the area. *)

From stdpp Require Import base numbers list.
From S2P Require Import Prelude Bytes.

Open Scope Z_scope.

(** [RoundUp8] of util/smalloc.h *)
Definition RoundUp8 (size : Z) : Z := Z.land (u64 (size + 7)) (u64 (Z.lnot 7)).

Definition kMinCapacity : Z := 1024.
Definition sizeof_Tag : Z := 8.

Record malloc_heap := MallocHeap {
  capacity_ : Z;
  gauge_ : Z;
  stored_ : Z;
  num_blocks_ : Z;
  heap_ : bytes
}.

Definition HeapInit (capacity : Z) : outcome malloc_heap :=
  _ ← cassert (capacity >? kMinCapacity);
  _ ← cassert (capacity mod 8 =? 0);
  Ret (MallocHeap capacity 0 0 0 (replicate (Z.to_nat capacity) 0)).

(** [Tag::GetSize] and [Tag::JumpToNext] *)
Definition tag_size (size : Z) : Z := if size <? 0 then u64 (- size) else size.
Definition jump (tag size : Z) : Z := tag + sizeof_Tag + tag_size size.

Definition Allocate (h : malloc_heap) (size : Z) (header : bytes)
    : outcome (malloc_heap * option Z) :=
  _ ← cassert (size >? 0);
  _ ← cassert (zlen header <=? size);
  let rounded_size := RoundUp8 size in
  let real_size := i64 (rounded_size + sizeof_Tag) in
  if u64 (gauge_ h + real_size) >? capacity_ h then Ret (h, None)
  else
    let new_block := gauge_ h in
    mem ← store_i64 (heap_ h) new_block (i64 rounded_size);
    let new_block := new_block + sizeof_Tag in
    mem ← store mem new_block header;
    Ret (MallocHeap (capacity_ h) (u64 (gauge_ h + real_size)) (u64 (stored_ h + rounded_size))
           (u64 (num_blocks_ h + 1)) mem, Some new_block).

Definition GetSize (h : malloc_heap) (block : Z) : outcome Z :=
  size ← load_i64 (heap_ h) (block - sizeof_Tag);
  _ ← cassert (size >? 0);
  Ret size.

Definition MarkFree (h : malloc_heap) (block : Z) : outcome malloc_heap :=
  size ← load_i64 (heap_ h) (block - sizeof_Tag);
  _ ← cassert (size >? 0);
  mem ← store_i64 (heap_ h) (block - sizeof_Tag) (- size);
  Ret (MallocHeap (capacity_ h) (gauge_ h) (u64 (stored_ h - tag_size (- size)))
         (u64 (num_blocks_ h - 1)) mem).

(** [Expand]; the [header_size] of [Allocate] is an [unsigned]. *)
Definition Expand (h : malloc_heap) (block new_size : Z) : outcome (malloc_heap * option Z) :=
  old_size ← GetSize h block;
  _ ← cassert (old_size <=? new_size);
  header ← load (heap_ h) block (u32 old_size);
  '(h, new_block) ← Allocate h new_size header;
  match new_block with
  | None => Ret (h, None)
  | Some b => h ← MarkFree h block; Ret (h, Some b)
  end.

Definition HasSpaceFor (h : malloc_heap) (nbytes : Z) : bool :=
  RoundUp8 (u64 (gauge_ h + nbytes + sizeof_Tag)) <=? capacity_ h.

Definition utilization (h : malloc_heap) : double :=
  ddiv (double_of_Z (stored_ h)) (double_of_Z (gauge_ h)).

Definition compacted_bytes (h : malloc_heap) : Z :=
  u64 (stored_ h + num_blocks_ h * sizeof_Tag).

Section Compact.
(** The callback gets its state, the memory and the new address of a block. *)
Context {S : Type} (callback : S → bytes → Z → outcome S).

(** The sliding window of [Compact]. *)
Fixpoint compact_loop (fuel : nat) (mem : bytes) (s : S) (current next top : Z)
    : outcome (bytes * S * Z) :=
  match fuel with
  | O => Fail OutOfFuel
  | Datatypes.S fuel =>
      if next <? top then
        csize ← load_i64 mem current;
        nsize ← load_i64 mem next;
        if csize <? 0 then
          if nsize <? 0 then
            mem ← store_i64 mem current (csize - (sizeof_Tag + tag_size nsize));
            compact_loop fuel mem s current (jump next nsize) top
          else
            let free_space := csize in
            mem ← store_i64 mem current nsize;
            block ← load mem (next + sizeof_Tag) (tag_size nsize);
            mem ← store mem (current + sizeof_Tag) block;
            s ← callback s mem (current + sizeof_Tag);
            let next := jump current nsize in
            mem ← store_i64 mem next free_space;
            compact_loop fuel mem s current next top
        else compact_loop fuel mem s next (jump next nsize) top
      else Ret (mem, s, current)
  end.

Definition Compact (h : malloc_heap) (s : S) : outcome (malloc_heap * S) :=
  if gauge_ h =? 0 then Ret (h, s)
  else
    first ← load_i64 (heap_ h) 0;
    '(mem, s, current) ← compact_loop (Z.to_nat (gauge_ h)) (heap_ h) s 0 (jump 0 first) (gauge_ h);
    csize ← load_i64 mem current;
    let gauge := if csize <? 0 then current else current + sizeof_Tag + tag_size csize in
    Ret (MallocHeap (capacity_ h) gauge (stored_ h) (num_blocks_ h) mem, s).
End Compact.

(** ** Heaps as sequences of blocks *)

Record block := Block { free : bool; payload : bytes }.

Definition tag_of (b : block) : Z := if free b then - zlen (payload b) else zlen (payload b).
Definition encode_block (b : block) : bytes := le_encode 8 (tag_of b) ++ payload b.
Definition encode (bs : list block) : bytes := concat (encode_block <$> bs).

Definition block_ok (b : block) : Prop :=
  0 < zlen (payload b) < 2 ^ 62 ∧ zlen (payload b) mod 8 = 0.

Definition reserved (b : block) : Prop := free b = false.

#[export] Instance reserved_dec b : Decision (reserved b).
Proof. unfold reserved. apply _. Defined.

Definition stored_of (bs : list block) : Z :=
  foldr (λ b n, zlen (payload b) + n) 0 (filter reserved bs).

Record heap_ok (h : malloc_heap) (bs : list block) : Prop := {
  ho_mem : ∃ rest, heap_ h = encode bs ++ rest;
  ho_gauge : gauge_ h = zlen (encode bs);
  ho_len : zlen (heap_ h) = capacity_ h;
  ho_cap : 0 < capacity_ h < 2 ^ 62;
  ho_blocks : Forall block_ok bs;
  ho_stored : stored_ h = stored_of bs;
  ho_num : num_blocks_ h = zlen (filter reserved bs)
}.

(** Addresses and contents of the reserved blocks. *)
Fixpoint addrs (off : Z) (bs : list block) : list (Z * bytes) :=
  match bs with
  | [] => []
  | b :: bs =>
      (if free b then [] else [(off + 8, payload b)]) ++ addrs (off + 8 + zlen (payload b)) bs
  end.

Lemma encode_app bs1 bs2 : encode (bs1 ++ bs2) = encode bs1 ++ encode bs2.
Proof. unfold encode. by rewrite fmap_app, concat_app. Qed.

Lemma encode_cons b bs : encode (b :: bs) = encode_block b ++ encode bs.
Proof. done. Qed.

Lemma zlen_encode_block b : zlen (encode_block b) = 8 + zlen (payload b).
Proof. unfold encode_block. rewrite zlen_app. unfold zlen. rewrite length_le_encode. lia. Qed.

Lemma tag_size_of b : block_ok b → tag_size (tag_of b) = zlen (payload b).
Proof.
  intros [? _]. unfold tag_size, tag_of. destruct (free b).
  - rewrite (proj2 (Z.ltb_lt _ _)), Z.opp_involutive, u64_small by (unfold is_u64; lia). done.
  - rewrite (proj2 (Z.ltb_ge _ _)) by lia. done.
Qed.

Lemma tag_free b : block_ok b → (tag_of b <? 0) = free b.
Proof.
  intros [? _]. unfold tag_of. destruct (free b); [apply Z.ltb_lt|apply Z.ltb_ge]; lia.
Qed.

Lemma load_tag pre b post off : block_ok b → off = zlen pre →
  load_i64 (pre ++ encode_block b ++ post) off = Ret (tag_of b).
Proof.
  intros [? _] ->. unfold encode_block. rewrite <- app_assoc. apply load_i64_app; [done|].
  unfold tag_of. destruct (free b); lia.
Qed.

(** ** The operations *)

Lemma RoundUp8_eq size : 0 ≤ size < 2 ^ 63 → RoundUp8 size = (size + 7) / 8 * 8.
Proof.
  intros Hs. unfold RoundUp8. rewrite (u64_small (size + 7)) by (unfold is_u64; lia).
  change (u64 (Z.lnot 7)) with (Z.shiftl (Z.ones 61) 3).
  rewrite <- (Z.shiftl_mul_pow2 _ 3), <- (Z.shiftr_div_pow2 _ 3) by lia.
  apply Z.bits_inj'. intros n Hn. rewrite Z.land_spec.
  destruct (decide (n < 3)).
  - rewrite !Z.shiftl_spec_low by lia. by rewrite andb_false_r.
  - rewrite !Z.shiftl_spec by lia. rewrite Z.shiftr_spec by lia.
    replace (n - 3 + 3) with n by lia. destruct (decide (n < 64)).
    + rewrite Z.ones_spec_low by lia. apply andb_true_r.
    + rewrite Z.ones_spec_high, andb_false_r by lia. symmetry.
      apply Z.bits_above_log2; [lia|]. apply Z.log2_lt_pow2; [lia|].
      assert (2 ^ 64 ≤ 2 ^ n) by (apply Z.pow_le_mono_r; lia). lia.
Qed.

Lemma RoundUp8_bounds size : 0 < size < 2 ^ 62 →
  size ≤ RoundUp8 size < size + 8 ∧ RoundUp8 size mod 8 = 0 ∧ 0 < RoundUp8 size.
Proof.
  intros. rewrite RoundUp8_eq by lia. split_and!; [Z.to_euclidean_division_equations; lia..| |].
  - apply Z.mod_mul. lia.
  - Z.to_euclidean_division_equations; lia.
Qed.

Lemma stored_of_cons b bs :
  stored_of (b :: bs) = (if free b then 0 else zlen (payload b)) + stored_of bs.
Proof.
  unfold stored_of. rewrite filter_cons.
  case_decide as Hd; unfold reserved in Hd; [by rewrite Hd|by destruct (free b)].
Qed.

Lemma count_cons b bs :
  zlen (filter reserved (b :: bs)) = (if free b then 0 else 1) + zlen (filter reserved bs).
Proof.
  rewrite filter_cons. unfold zlen. case_decide as Hd; unfold reserved in Hd.
  - rewrite Hd. cbn [length]. lia.
  - by destruct (free b).
Qed.

Lemma stored_of_app bs1 bs2 : stored_of (bs1 ++ bs2) = stored_of bs1 + stored_of bs2.
Proof.
  unfold stored_of. rewrite filter_app, foldr_app.
  induction (filter reserved bs1); cbn; lia.
Qed.

Lemma zlen_encode_cons b bs : zlen (encode (b :: bs)) = 8 + zlen (payload b) + zlen (encode bs).
Proof. rewrite encode_cons, zlen_app, zlen_encode_block. lia. Qed.

Lemma stored_bound bs : Forall block_ok bs →
  0 ≤ stored_of bs ∧ stored_of bs + 8 * zlen (filter reserved bs) ≤ zlen (encode bs).
Proof.
  induction bs as [|b bs IH]; intros Hok; [done|].
  apply Forall_cons in Hok as [[? _] Hok]. specialize (IH Hok).
  rewrite zlen_encode_cons, stored_of_cons, count_cons. destruct (free b); lia.
Qed.

Lemma HeapInit_ok capacity : kMinCapacity < capacity < 2 ^ 62 → capacity mod 8 = 0 →
  ∃ h, HeapInit capacity = Ret h ∧ heap_ok h [] ∧ capacity_ h = capacity.
Proof.
  unfold kMinCapacity. intros Hc Hm. unfold HeapInit, kMinCapacity.
  rewrite Z.gtb_ltb, (proj2 (Z.ltb_lt _ _)), (proj2 (Z.eqb_eq _ _)) by lia. exec.
  eexists. split; [done|]. split; [|done]. split; cbn; try done; try lia.
  - by eexists.
  - unfold zlen. rewrite length_replicate. lia.
Qed.

Lemma Allocate_full h bs size header : heap_ok h bs → 0 < size < 2 ^ 62 → zlen header ≤ size →
  capacity_ h < gauge_ h + 8 + RoundUp8 size → Allocate h size header = Ret (h, None).
Proof.
  intros Hok Hs Hh Hfull. pose proof (RoundUp8_bounds size Hs) as (Hr & _ & _).
  pose proof (ho_cap _ _ Hok). destruct (ho_mem _ _ Hok) as [rest Hm].
  assert (gauge_ h ≤ capacity_ h).
  { rewrite (ho_gauge _ _ Hok), <- (ho_len _ _ Hok), Hm, zlen_app. pose proof (zlen_nonneg rest). lia. }
  assert (0 ≤ gauge_ h) by (rewrite (ho_gauge _ _ Hok); apply zlen_nonneg).
  unfold Allocate, sizeof_Tag. rewrite (gtb_true size 0) by lia. exec.
  rewrite leb_true by lia. exec. rewrite i64_small by lia.
  rewrite u64_small by (unfold is_u64; lia).
  rewrite gtb_true by lia. done.
Qed.

Lemma Allocate_ok h bs size header : heap_ok h bs → 0 < size < 2 ^ 62 → zlen header ≤ size →
  gauge_ h + 8 + RoundUp8 size ≤ capacity_ h →
  ∃ h' tail, Allocate h size header = Ret (h', Some (gauge_ h + 8)) ∧
    heap_ok h' (bs ++ [Block false (header ++ tail)]) ∧
    zlen (header ++ tail) = RoundUp8 size ∧ capacity_ h' = capacity_ h.
Proof.
  intros Hok Hs Hh Hroom. pose proof (RoundUp8_bounds size Hs) as (Hr & Hr8 & Hr0).
  destruct Hok as [[rest Hm] Hg Hl Hc Hbs Hst Hn]. pose proof (stored_bound bs Hbs) as [Hs0 Hsb].
  rewrite Hm, zlen_app in Hl. pose proof (zlen_nonneg (encode bs)).
  pose proof (zlen_nonneg (filter reserved bs)). pose proof (zlen_nonneg header).
  set (r := RoundUp8 size) in *.
  assert (∃ old hd tail rest', rest = old ++ hd ++ tail ++ rest' ∧ length old = 8%nat ∧
    length hd = length header ∧ zlen (header ++ tail) = r) as (old & hd & tail & rest' & -> & Ho & Hhd & Ht).
  { exists (take 8 rest), (take (length header) (drop 8 rest)),
      (take (Z.to_nat r - length header) (drop (8 + length header) rest)),
      (drop (8 + Z.to_nat r) rest).
    unfold zlen in *. rewrite length_app, !length_take, !length_drop. split_and!; try lia.
    rewrite <- (take_drop 8 rest) at 1. f_equal.
    rewrite <- (take_drop (length header) (drop 8 rest)) at 1. f_equal. rewrite drop_drop.
    rewrite <- (take_drop (Z.to_nat r - length header) (drop (8 + length header) rest)) at 1.
    f_equal. rewrite drop_drop. f_equal. lia. }
  unfold Allocate, sizeof_Tag. rewrite (gtb_true size 0) by lia. exec.
  rewrite leb_true by lia. exec. fold r. rewrite !i64_small by lia.
  rewrite !u64_small by (unfold is_u64; lia).
  rewrite gtb_false by lia. rewrite Hm.
  rewrite (store_i64_app (encode bs) old) by done. exec.
  rewrite app_assoc, (store_app (encode bs ++ le_encode 8 r) hd).
  2:{ rewrite Hg, zlen_app. unfold zlen. rewrite length_le_encode. lia. }
  2: done. exec. do 2 eexists. split; [done|]. split_and!; [|done|done].
  assert (zlen (encode (bs ++ [Block false (header ++ tail)])) = gauge_ h + (r + 8)) as Hlen.
  { rewrite encode_app, zlen_app, zlen_encode_cons. cbn [payload]. rewrite Ht. change (zlen (encode [])) with 0. lia. }
  split; cbn [heap_ gauge_ capacity_ stored_ num_blocks_].
  - exists rest'. rewrite encode_app, encode_cons. unfold encode_block, tag_of. cbn [free payload].
    rewrite Ht. change (encode []) with (@nil Z). rewrite app_nil_r, <- !app_assoc. done.
  - done.
  - unfold zlen in *. rewrite !length_app, length_le_encode in *. lia.
  - done.
  - apply Forall_app. split; [done|]. apply Forall_singleton. unfold block_ok. cbn [payload].
    rewrite Ht. split; [lia|done].
  - rewrite stored_of_app, stored_of_cons. cbn [free payload]. rewrite Ht.
    change (stored_of []) with 0. lia.
  - rewrite filter_app, zlen_app, count_cons, Hn. done.
Qed.

(** Updating the tag of a block in place. *)
Lemma retag_ok h bs1 b b' bs2 off : heap_ok h (bs1 ++ b :: bs2) →
  payload b' = payload b → off = zlen (encode bs1) →
  ∃ mem, store_i64 (heap_ h) off (tag_of b') = Ret mem ∧
    (∃ rest, mem = encode (bs1 ++ b' :: bs2) ++ rest) ∧ zlen mem = zlen (heap_ h) ∧
    Forall block_ok (bs1 ++ b' :: bs2) ∧
    zlen (encode (bs1 ++ b' :: bs2)) = zlen (encode (bs1 ++ b :: bs2)).
Proof.
  intros [[rest Hm] _ _ _ Hbs _ _] Hp ->.
  assert (zlen (encode (bs1 ++ b' :: bs2)) = zlen (encode (bs1 ++ b :: bs2))) as Hlen.
  { rewrite !encode_app, !zlen_app, !zlen_encode_cons. by rewrite Hp. }
  rewrite <- Hlen. clear Hlen. rewrite Hm, (encode_app bs1 (b :: bs2)), encode_cons.
  unfold encode_block at 1. rewrite <- !app_assoc.
  rewrite (store_i64_app (encode bs1)) by (done || apply length_le_encode).
  eexists. split; [done|]. split_and!.
  - exists rest. rewrite encode_app, encode_cons. unfold encode_block.
    by rewrite Hp, <- !app_assoc.
  - unfold zlen. rewrite !length_app, !length_le_encode. done.
  - apply Forall_app in Hbs as [? [[??] ?]%Forall_cons]. apply Forall_app. split; [done|].
    apply Forall_cons. split; [|done]. unfold block_ok. by rewrite Hp.
  - done.
Qed.

Lemma load_tag_heap h bs1 b bs2 : heap_ok h (bs1 ++ b :: bs2) →
  load_i64 (heap_ h) (zlen (encode bs1)) = Ret (tag_of b).
Proof.
  intros [[rest Hm] _ _ _ Hbs _ _]. rewrite Hm, encode_app, encode_cons, <- !app_assoc.
  apply Forall_app in Hbs as [_ [? _]%Forall_cons]. by apply load_tag.
Qed.

Lemma MarkFree_ok h bs1 c bs2 : heap_ok h (bs1 ++ Block false c :: bs2) →
  ∃ h', MarkFree h (zlen (encode bs1) + 8) = Ret h' ∧
    heap_ok h' (bs1 ++ Block true c :: bs2) ∧ capacity_ h' = capacity_ h.
Proof.
  intros Hok. unfold MarkFree, sizeof_Tag.
  replace (zlen (encode bs1) + 8 - 8) with (zlen (encode bs1)) by lia.
  rewrite (load_tag_heap _ _ _ _ Hok). exec.
  pose proof (ho_blocks _ _ Hok) as [_ [[Hc _] _]%Forall_cons]%Forall_app.
  cbn [payload] in Hc. change (tag_of (Block false c)) with (zlen c).
  rewrite (gtb_true (zlen c)) by lia. exec.
  destruct (retag_ok h bs1 (Block false c) (Block true c) bs2 _ Hok eq_refl eq_refl)
    as (mem & Hst & Hmem & Hl & Hbs & Henc).
  change (tag_of (Block true c)) with (- zlen c) in Hst. rewrite Hst. exec.
  eexists. split; [done|]. split; [|done].
  pose proof (stored_bound _ (ho_blocks _ _ Hok)) as [Hs0 Hsb].
  pose proof (stored_bound _ Hbs) as [Hs0' _]. destruct Hok as [[rest Hm] Hg Hlen Hcap _ Hs Hn].
  assert (zlen (encode (bs1 ++ Block false c :: bs2)) ≤ capacity_ h).
  { rewrite <- Hlen, Hm, zlen_app. pose proof (zlen_nonneg rest). lia. }
  rewrite stored_of_app, stored_of_cons in Hs, Hs0, Hsb, Hs0'.
  rewrite filter_app, zlen_app, count_cons in Hn, Hsb. cbn [free payload] in *.
  pose proof (zlen_nonneg (filter reserved bs1)). pose proof (zlen_nonneg (filter reserved bs2)).
  split; cbn [heap_ gauge_ capacity_ stored_ num_blocks_]; try done; try congruence.
  - change (- zlen c) with (tag_of (Block true c)).
    rewrite (tag_size_of (Block true c)) by (split; [cbn; lia|];
      apply Forall_app in Hbs as [_ [[_ ?] _]%Forall_cons]; done).
    cbn [payload]. rewrite stored_of_app, stored_of_cons. cbn [free].
    rewrite u64_small by (unfold is_u64; lia). lia.
  - rewrite filter_app, zlen_app, count_cons. cbn [free].
    rewrite u64_small by (unfold is_u64; lia). lia.
Qed.

Lemma GetSize_ok h bs1 c bs2 : heap_ok h (bs1 ++ Block false c :: bs2) →
  GetSize h (zlen (encode bs1) + 8) = Ret (zlen c).
Proof.
  intros Hok. unfold GetSize, sizeof_Tag.
  replace (zlen (encode bs1) + 8 - 8) with (zlen (encode bs1)) by lia.
  rewrite (load_tag_heap _ _ _ _ Hok). exec.
  pose proof (ho_blocks _ _ Hok) as [_ [[Hc _] _]%Forall_cons]%Forall_app.
  unfold tag_of. cbn [free payload] in *. by rewrite gtb_true by lia.
Qed.

(** Freeing a block that is free already aborts. *)
Lemma MarkFree_twice h bs1 c bs2 : heap_ok h (bs1 ++ Block true c :: bs2) →
  MarkFree h (zlen (encode bs1) + 8) = Fail AssertFailed.
Proof.
  intros Hok. unfold MarkFree, sizeof_Tag.
  replace (zlen (encode bs1) + 8 - 8) with (zlen (encode bs1)) by lia.
  rewrite (load_tag_heap _ _ _ _ Hok). exec.
  pose proof (ho_blocks _ _ Hok) as [_ [[Hc _] _]%Forall_cons]%Forall_app.
  unfold tag_of. cbn [free payload] in *. by rewrite gtb_false by lia.
Qed.

(** ** Compaction *)

Section CompactTheory.
Context {S : Type} (callback : S → bytes → Z → outcome S).
(** What holds of the callback's state when the reserved blocks are where the
    list says; the callback re-establishes it for a moved block. *)
Context (I : S → list (Z * bytes) → Prop).
Context (callback_ok : ∀ s l1 a a' c l2 mem, I s (l1 ++ (a, c) :: l2) →
  load mem a' (zlen c) = Ret c →
  ∃ s', callback s mem a' = Ret s' ∧ I s' (l1 ++ (a', c) :: l2)).

Lemma addrs_app off bs1 bs2 :
  addrs off (bs1 ++ bs2) = addrs off bs1 ++ addrs (off + zlen (encode bs1)) bs2.
Proof.
  revert off. induction bs1 as [|b bs1 IH]; intros off; cbn [addrs app].
  { by rewrite Z.add_0_r. }
  rewrite IH, zlen_encode_cons, <- app_assoc. do 3 f_equal. lia.
Qed.

(** Merging two adjacent free blocks. *)
Lemma merge_free pre f g post off : block_ok (Block true f) → block_ok (Block true g) →
  off = zlen pre →
  ∃ p, store_i64 (pre ++ encode_block (Block true f) ++ encode_block (Block true g) ++ post) off
      (tag_of (Block true f) - (8 + tag_size (tag_of (Block true g))))
    = Ret (pre ++ encode_block (Block true p) ++ post) ∧ zlen p = zlen f + 8 + zlen g.
Proof.
  intros Hf Hg ->. rewrite tag_size_of by done. unfold encode_block, tag_of. cbn [free payload].
  rewrite <- !app_assoc. rewrite (store_i64_app pre) by (done || apply length_le_encode).
  exists (f ++ le_encode 8 (- zlen g) ++ g). cbn [free payload].
  assert (zlen (f ++ le_encode 8 (- zlen g) ++ g) = zlen f + 8 + zlen g) as Hl.
  { rewrite !zlen_app. unfold zlen at 2. rewrite length_le_encode. lia. }
  rewrite Hl, <- !app_assoc. split; [|done]. do 4 f_equal. lia.
Qed.

(** Sliding a reserved block over the free block before it. *)
Lemma slide pre f c post : block_ok (Block true f) → block_ok (Block false c) →
  ∃ mem1 mem2 f', 
    store_i64 (pre ++ encode_block (Block true f) ++ encode_block (Block false c) ++ post)
      (zlen pre) (zlen c) = Ret mem1 ∧
    load mem1 (zlen pre + 8 + zlen f + 8) (zlen c) = Ret c ∧
    store mem1 (zlen pre + 8) c = Ret mem2 ∧
    load mem2 (zlen pre + 8) (zlen c) = Ret c ∧
    store_i64 mem2 (zlen pre + 8 + zlen c) (- zlen f)
    = Ret (pre ++ encode_block (Block false c) ++ encode_block (Block true f') ++ post) ∧
    zlen f' = zlen f.
Proof.
  intros [Hf _] [Hc _]. cbn [payload] in *. unfold encode_block, tag_of. cbn [free payload].
  rewrite <- !app_assoc. rewrite (store_i64_app pre) by (done || apply length_le_encode).
  set (t := le_encode 8 (zlen c)). assert (zlen t = 8) as Ht.
  { subst t. unfold zlen. by rewrite length_le_encode. }
  eexists. set (area := f ++ t ++ c).
  assert (zlen area = zlen f + 8 + zlen c) as Ha by (subst area; rewrite !zlen_app; lia).
  exists (pre ++ t ++ (c ++ drop (length c) area) ++ post).
  exists (drop (length c + 8) area).
  split; [done|]. split_and!.
  - rewrite (app_assoc pre), (app_assoc _ f), (app_assoc _ t). apply load_app; [|done].
    rewrite !zlen_app. lia.
  - replace (pre ++ t ++ f ++ t ++ c ++ post)
      with ((pre ++ t) ++ (take (length c) area) ++ (drop (length c) area ++ post)).
    2:{ rewrite (app_assoc (take _ _)), take_drop. subst area. by rewrite <- !app_assoc. }
    rewrite (store_app (pre ++ t)).
    + f_equal. by rewrite <- !app_assoc.
    + rewrite zlen_app. lia.
    + rewrite length_take. unfold zlen in *. lia.
  - rewrite <- !app_assoc, (app_assoc pre). apply load_app; [|done]. rewrite zlen_app. lia.
  - replace (pre ++ t ++ (c ++ drop (length c) area) ++ post)
      with (((pre ++ t) ++ c) ++ take 8 (drop (length c) area)
              ++ (drop 8 (drop (length c) area) ++ post)).
    2:{ rewrite (app_assoc (take 8 _)), take_drop. by rewrite <- !app_assoc. }
    rewrite (store_i64_app ((pre ++ t) ++ c)).
    + rewrite drop_drop, <- !app_assoc. do 4 f_equal.
      replace (- zlen (drop (length c + 8) area)) with (- zlen f); [done|].
      unfold zlen in *. rewrite length_drop. lia.
    + rewrite !zlen_app. lia.
    + rewrite length_take, length_drop. unfold zlen in *. lia.
  - unfold zlen in *. rewrite length_drop. lia.
Qed.

(** The heap during compaction: packed reserved blocks, the current block and
    the blocks behind it. *)
Record window (mem : bytes) (s : S) (packed : list block) (cur : block) (bs : list block)
    (top : Z) : Prop := {
  wi_mem : ∃ rest, mem = encode (packed ++ cur :: bs) ++ rest;
  wi_top : zlen (encode (packed ++ cur :: bs)) = top;
  wi_bound : top < 2 ^ 62;
  wi_blocks : Forall block_ok (packed ++ cur :: bs);
  wi_packed : Forall reserved packed;
  wi_state : I s (addrs 0 (packed ++ cur :: bs))
}.

Lemma addrs_free off f bs : addrs off (Block true f :: bs) = addrs (off + 8 + zlen f) bs.
Proof. done. Qed.

Lemma window_merge mem s packed f g bs top :
  window mem s packed (Block true f) (Block true g :: bs) top →
  ∃ mem' p, store_i64 mem (zlen (encode packed))
      (tag_of (Block true f) - (8 + tag_size (tag_of (Block true g)))) = Ret mem' ∧
    zlen p = zlen f + 8 + zlen g ∧ window mem' s packed (Block true p) bs top.
Proof.
  intros [[rest ->] Ht Hb Hbs Hp Hs].
  apply Forall_app in Hbs as [Hbp [Hf [Hg Hbb]%Forall_cons]%Forall_cons].
  destruct (merge_free (encode packed) f g (encode bs ++ rest) _ Hf Hg eq_refl) as (p & Hst & Hl).
  rewrite encode_app, !encode_cons, <- !app_assoc, Hst. do 2 eexists. split; [done|].
  split; [done|]. rewrite encode_app, !zlen_app, !zlen_encode_cons in Ht. cbn [payload] in Ht.
  pose proof (zlen_nonneg (encode packed)). pose proof (zlen_nonneg (encode bs)).
  destruct Hf as [? ?], Hg as [? ?]. cbn [payload] in *.
  split; try done.
  - exists rest. by rewrite encode_app, encode_cons, <- !app_assoc.
  - rewrite encode_app, zlen_app, zlen_encode_cons. cbn [payload]. lia.
  - apply Forall_app. split; [done|]. apply Forall_cons. split; [|done]. unfold block_ok.
    cbn [payload]. split; [lia|]. rewrite Hl. Z.to_euclidean_division_equations; lia.
  - rewrite addrs_app, !addrs_free in *. rewrite Hl.
    replace (0 + zlen (encode packed) + 8 + (zlen f + 8 + zlen g))
      with (0 + zlen (encode packed) + 8 + zlen f + 8 + zlen g) by lia. done.
Qed.

Lemma window_slide mem s packed f c bs top :
  window mem s packed (Block true f) (Block false c :: bs) top →
  let cur := zlen (encode packed) in
  ∃ mem1 mem2 s' mem3 f', store_i64 mem cur (zlen c) = Ret mem1 ∧
    load mem1 (cur + 8 + zlen f + 8) (zlen c) = Ret c ∧ store mem1 (cur + 8) c = Ret mem2 ∧
    callback s mem2 (cur + 8) = Ret s' ∧
    store_i64 mem2 (cur + 8 + zlen c) (- zlen f) = Ret mem3 ∧ zlen f' = zlen f ∧
    window mem3 s' packed (Block false c) (Block true f' :: bs) top.
Proof.
  intros [[rest ->] Ht Hb Hbs Hp Hs] cur.
  apply Forall_app in Hbs as [Hbp [Hf [Hc Hbb]%Forall_cons]%Forall_cons].
  destruct (slide (encode packed) f c (encode bs ++ rest) Hf Hc)
    as (mem1 & mem2 & f' & H1 & H2 & H3 & H4 & H5 & Hl). fold cur in H1, H2, H3, H4, H5.
  rewrite addrs_app, addrs_free in Hs. cbn [addrs free payload app] in Hs. fold cur in Hs.
  destruct (callback_ok _ _ _ (cur + 8) _ _ mem2 Hs H4) as (s' & Hcb & Hs').
  exists mem1, mem2, s', (encode packed ++ encode_block (Block false c)
    ++ encode_block (Block true f') ++ encode bs ++ rest), f'.
  rewrite encode_app, !encode_cons, <- !app_assoc. split_and!; try done.
  rewrite encode_app, !zlen_app, !zlen_encode_cons in Ht. cbn [payload] in Ht.
  split; try done.
  - exists rest. by rewrite encode_app, !encode_cons, <- !app_assoc.
  - rewrite encode_app, zlen_app, !zlen_encode_cons. cbn [payload]. lia.
  - apply Forall_app. split; [done|]. apply Forall_cons. split; [done|].
    apply Forall_cons. split; [|done]. unfold block_ok in *. cbn [payload] in *. by rewrite Hl.
  - rewrite addrs_app. cbn [addrs free payload app]. fold cur.
    replace (0 + cur + 8) with (cur + 8) by lia.
    replace (cur + 8 + zlen c + 8 + zlen f')
      with (0 + cur + 8 + zlen f + 8 + zlen c) by lia. done.
Qed.

Lemma window_next mem s packed c nx bs top :
  window mem s packed (Block false c) (nx :: bs) top →
  window mem s (packed ++ [Block false c]) nx bs top.
Proof.
  intros [Hm Ht Hb Hbs Hp Hs].
  assert (packed ++ Block false c :: nx :: bs = (packed ++ [Block false c]) ++ nx :: bs) as Heq
    by by rewrite <- app_assoc.
  rewrite Heq in *. split; try done. apply Forall_app. split; [done|]. by apply Forall_singleton.
Qed.

Lemma compact_loop_ok fuel : ∀ mem s packed cur bs top,
  window mem s packed cur bs top → (2 * length bs + 1 < fuel + (if free cur then 0 else 1))%nat →
  ∃ mem' s' packed' cur',
    compact_loop callback fuel mem s (zlen (encode packed))
      (zlen (encode packed) + 8 + zlen (payload cur)) top
    = Ret (mem', s', zlen (encode packed')) ∧
    window mem' s' packed' cur' [] top ∧
    filter reserved (packed' ++ [cur']) = filter reserved (packed ++ cur :: bs).
Proof.
  induction fuel as [|fuel IH]; intros mem s packed cur bs top Hw Hfuel.
  { destruct (free cur); lia. }
  pose proof Hw as [[rest Hm] Ht Hb Hbs Hp Hs].
  rewrite encode_app, zlen_app, zlen_encode_cons in Ht. cbn [compact_loop].
  destruct bs as [|nx bs].
  { change (zlen (encode [])) with 0 in Ht. rewrite ltb_false by lia.
    exists mem, s, packed, cur. done. }
  apply Forall_app in Hbs as [Hbp [Hcur [Hnx Hbb]%Forall_cons]%Forall_cons].
  rewrite zlen_encode_cons in Ht. pose proof (zlen_nonneg (encode bs)).
  destruct Hnx as [Hnx0 Hnx8]. rewrite ltb_true by lia.
  assert (load_i64 mem (zlen (encode packed)) = Ret (tag_of cur)) as ->.
  { rewrite Hm, encode_app, encode_cons, <- !app_assoc. by apply load_tag. }
  assert (load_i64 mem (zlen (encode packed) + 8 + zlen (payload cur)) = Ret (tag_of nx)) as ->.
  { rewrite Hm, encode_app, !encode_cons, <- !app_assoc, app_assoc. apply load_tag; [done|].
    rewrite zlen_app, zlen_encode_block. lia. }
  exec. rewrite !tag_free by done. unfold jump, sizeof_Tag. cbn [length] in Hfuel.
  destruct cur as [[|] f]; cbn [free payload] in *.
  2:{ rewrite tag_size_of by done. apply window_next in Hw.
      destruct (IH _ _ _ _ _ _ Hw) as (m2 & s2 & p2 & c2 & Heq & Hw2 & Hf2);
        [destruct (free nx); lia|].
      exists m2, s2, p2, c2. rewrite encode_app, zlen_app, zlen_encode_cons in Heq.
      change (zlen (encode [])) with 0 in Heq. cbn [payload] in Heq. rewrite <- Heq.
      split; [f_equal; lia|]. split; [done|]. by rewrite Hf2, <- app_assoc. }
  destruct nx as [[|] c]; cbn [free payload] in *.
  - destruct (window_merge _ _ _ _ _ _ _ Hw) as (mem' & p & -> & Hl & Hw'). exec.
    destruct (IH _ _ _ _ _ _ Hw') as (m2 & s2 & p2 & c2 & Heq & Hw2 & Hf2); [cbn; lia|].
    exists m2, s2, p2, c2. cbn [payload] in Heq. rewrite tag_size_of by done. cbn [payload].
    replace (zlen (encode packed) + 8 + zlen f + 8 + zlen c)
      with (zlen (encode packed) + 8 + zlen p) by lia.
    split; [done|]. split; [done|]. rewrite Hf2, !filter_app.
    by rewrite !filter_cons_False by done.
  - destruct (window_slide _ _ _ _ _ _ _ Hw)
      as (m1 & m2 & s' & m3 & f' & H1 & H2 & H3 & H4 & H5 & Hl & Hw').
    change (tag_of (Block true f)) with (- zlen f). change (tag_of (Block false c)) with (zlen c).
    assert (tag_size (zlen c) = zlen c) as Hts by (by apply (tag_size_of (Block false c))).
    rewrite H1. exec. rewrite Hts, H2. exec. rewrite H3. exec. rewrite H4. exec. rewrite H5. exec.
    destruct (IH _ _ _ _ _ _ Hw') as (m4 & s4 & p4 & c4 & Heq & Hw4 & Hf4); [cbn; lia|].
    exists m4, s4, p4, c4. split; [done|]. split; [done|]. rewrite Hf4, !filter_app.
    rewrite (filter_cons_True _ (Block false c)) by done.
    rewrite !(filter_cons_False _ (Block true _)) by done.
    by rewrite (filter_cons_True _ (Block false c)) by done.
Qed.

Lemma filter_reserved_all bs : Forall reserved bs → filter reserved bs = bs.
Proof. intros Hall. apply filter_all. by apply Forall_forall. Qed.

Lemma length_encode bs : Forall block_ok bs → 16 * zlen bs ≤ zlen (encode bs).
Proof.
  induction bs as [|b bs IH]; intros Hok; [done|].
  apply Forall_cons in Hok as [[? ?] Hok]. specialize (IH Hok). rewrite zlen_encode_cons.
  assert (8 ≤ zlen (payload b)) by (Z.to_euclidean_division_equations; lia).
  unfold zlen in *. cbn [length]. lia.
Qed.

Lemma stored_of_filter bs : stored_of (filter reserved bs) = stored_of bs.
Proof.
  unfold stored_of. f_equal. apply filter_all. intros b Hb.
  by apply list_elem_of_filter in Hb as [? _].
Qed.

Lemma filter_filter_reserved (bs : list block) : filter reserved (filter reserved bs) = filter reserved bs.
Proof. apply filter_all. intros b Hb. by apply list_elem_of_filter in Hb as [? _]. Qed.

(** The end of [Compact]: a free block at the top is cut off. *)
Lemma window_end mem s packed cur top : window mem s packed cur [] top →
  ∃ bs rest, bs = filter reserved (packed ++ [cur]) ∧ mem = encode bs ++ rest ∧
    Forall block_ok bs ∧ I s (addrs 0 bs) ∧
    (if tag_of cur <? 0 then zlen (encode packed)
     else zlen (encode packed) + 8 + tag_size (tag_of cur)) = zlen (encode bs).
Proof.
  intros [[rest Hm] Ht Hb Hbs Hp Hs]. pose proof Hbs as [Hbp [Hc _]%Forall_cons]%Forall_app.
  rewrite tag_free, tag_size_of by done. rewrite filter_app, (filter_reserved_all packed Hp).
  rewrite encode_app, encode_cons in Hm. destruct cur as [[|] c]; cbn [free payload].
  - rewrite filter_cons_False by done. exists packed, (encode_block (Block true c) ++ rest).
    rewrite app_nil_r. split_and!; try done.
    + rewrite Hm. cbn. by rewrite app_nil_r, <- !app_assoc.
    + rewrite addrs_app, addrs_free, app_nil_r in Hs. done.
  - rewrite filter_cons_True by done. exists (packed ++ [Block false c]), rest.
    split_and!; try done.
    + by rewrite Hm, encode_app, encode_cons.
    + rewrite encode_app, zlen_app, zlen_encode_cons. change (zlen (encode [])) with 0.
      cbn [payload]. lia.
Qed.

Lemma compact_loop_len fuel : ∀ mem s cur nx top mem' s' cur',
  compact_loop callback fuel mem s cur nx top = Ret (mem', s', cur') → zlen mem' = zlen mem.
Proof.
  induction fuel as [|fuel IH]; intros mem s cur nx top mem' s' cur'; cbn [compact_loop]; [done|].
  destruct (nx <? top); [|congruence]. intros Hr. inv_ret. repeat case_match; inv_ret;
    repeat match goal with H : store_i64 _ _ _ = Ret _ |- _ => apply zlen_store in H
                         | H : store _ _ _ = Ret _ |- _ => apply zlen_store in H
                         | H : compact_loop _ _ _ _ _ _ _ = Ret _ |- _ => apply IH in H end;
    congruence.
Qed.

Lemma Compact_ok h bs s : heap_ok h bs → I s (addrs 0 bs) →
  ∃ h' s', Compact callback h s = Ret (h', s') ∧
    heap_ok h' (filter reserved bs) ∧ I s' (addrs 0 (filter reserved bs)) ∧
    capacity_ h' = capacity_ h.
Proof.
  intros [[rest Hm] Hg Hl Hc Hbs Hst Hn] Hs. unfold Compact. destruct bs as [|b bs].
  { rewrite eqb_true by done. exists h, s. split_and!; try done. split; try done. by eexists. }
  pose proof (length_encode _ Hbs) as Hlen. rewrite zlen_encode_cons in *.
  pose proof (zlen_nonneg (encode bs)). pose proof Hbs as [Hb Hbs']%Forall_cons.
  destruct Hb as [Hb0 Hb8]. rewrite eqb_false by lia.
  assert (load_i64 (heap_ h) 0 = Ret (tag_of b)) as ->.
  { rewrite Hm, encode_cons, <- app_assoc. by apply (load_tag []). }
  exec. unfold jump, sizeof_Tag. rewrite tag_size_of by done.
  assert (gauge_ h ≤ capacity_ h).
  { rewrite Hg, <- Hl, Hm, zlen_app, zlen_encode_cons. pose proof (zlen_nonneg rest). lia. }
  destruct (compact_loop_ok (Z.to_nat (gauge_ h)) (heap_ h) s [] b bs (gauge_ h))
    as (mem' & s' & packed & cur & Hloop & Hw & Hf).
  { split; try done; [by eexists|by rewrite app_nil_l, zlen_encode_cons|lia]. }
  { unfold zlen in *. cbn [length] in *. destruct (free b); lia. }
  change (zlen (encode [])) with 0 in Hloop. rewrite Hloop. exec.
  pose proof Hw as [[rest' Hm'] _ _ Hbs2 _ _].
  pose proof Hbs2 as [_ [Hcur _]%Forall_cons]%Forall_app.
  assert (load_i64 mem' (zlen (encode packed)) = Ret (tag_of cur)) as ->.
  { rewrite Hm', encode_app, encode_cons, <- !app_assoc. by apply load_tag. }
  exec. destruct (window_end _ _ _ _ _ Hw) as (fs & rest2 & Hfs & Hm2 & Hok2 & Hs2 & Hg2).
  rewrite Hf in Hfs. cbn [app] in Hfs. rewrite Hg2. do 2 eexists. split; [done|].
  rewrite <- Hfs. split_and!; try done. split; cbn [heap_ gauge_ capacity_ stored_ num_blocks_]; try done.
  - by eexists.
  - apply compact_loop_len in Hloop. congruence.
  - rewrite Hst, Hfs. by rewrite stored_of_filter.
  - rewrite Hn, Hfs. by rewrite filter_filter_reserved.
Qed.
End CompactTheory.

(** ** The main properties *)

(** [Allocate] fails exactly when the rounded size and its tag
    do not fit behind the last block; otherwise the new block starts with the
    header, has the size rounded up to a multiple of 8, and all blocks
    allocated before are where and what they were. *)
Theorem allocate_appends h bs size header : heap_ok h bs → 0 < size < 2 ^ 62 →
  zlen header ≤ size →
  (capacity_ h < gauge_ h + 8 + RoundUp8 size ∧ Allocate h size header = Ret (h, None)) ∨
  (gauge_ h + 8 + RoundUp8 size ≤ capacity_ h ∧
   ∃ h' tail, Allocate h size header = Ret (h', Some (gauge_ h + 8)) ∧
     heap_ok h' (bs ++ [Block false (header ++ tail)]) ∧
     zlen (header ++ tail) = RoundUp8 size ∧
     addrs 0 (bs ++ [Block false (header ++ tail)])
     = addrs 0 bs ++ [(gauge_ h + 8, header ++ tail)]).
Proof.
  intros Hok Hs Hh. destruct (decide (gauge_ h + 8 + RoundUp8 size ≤ capacity_ h)) as [Hr|Hr].
  - right. split; [done|].
    destruct (Allocate_ok _ _ _ _ Hok Hs Hh Hr) as (h' & tail & Ha & Hok' & Hl & _).
    exists h', tail. split_and!; try done. rewrite addrs_app. cbn [addrs free payload app].
    by rewrite <- (ho_gauge _ _ Hok).
  - left. split; [lia|]. apply (Allocate_full _ bs); done || lia.
Qed.

Lemma encode_reserved_len bs : Forall reserved bs →
  zlen (encode bs) = stored_of bs + 8 * zlen bs.
Proof.
  induction bs as [|b bs IH]; intros Hall; [done|]. apply Forall_cons in Hall as [Hb Hall].
  rewrite zlen_encode_cons, stored_of_cons, Hb, IH by done. unfold zlen. cbn [length]. lia.
Qed.

(** C13. [Compact] leaves exactly the reserved blocks, in their
    order and with their contents, without gaps; for every block it moves the
    callback is called with the new address while the block's bytes are
    already there, so that an index of the blocks that the callback maintains
    is up to date afterwards.  The used bytes are then the compacted bytes. *)
Theorem compact_packs {S} (callback : S → bytes → Z → outcome S)
    (I : S → list (Z * bytes) → Prop) h bs s :
  (∀ s l1 a a' c l2 mem, I s (l1 ++ (a, c) :: l2) → load mem a' (zlen c) = Ret c →
    ∃ s', callback s mem a' = Ret s' ∧ I s' (l1 ++ (a', c) :: l2)) →
  heap_ok h bs → I s (addrs 0 bs) →
  ∃ h' s', Compact callback h s = Ret (h', s') ∧ heap_ok h' (filter reserved bs) ∧
    I s' (addrs 0 (filter reserved bs)) ∧ gauge_ h' = compacted_bytes h'.
Proof.
  intros Hcb Hok Hs. destruct (Compact_ok callback I Hcb h bs s Hok Hs)
    as (h' & s' & Hc & Hok' & Hs' & _).
  exists h', s'. split_and!; try done. unfold compacted_bytes, sizeof_Tag.
  destruct (ho_mem _ _ Hok') as [rest Hm].
  rewrite (ho_gauge _ _ Hok'), (ho_stored _ _ Hok'), (ho_num _ _ Hok'), filter_filter_reserved.
  pose proof (ho_cap _ _ Hok'). pose proof (ho_len _ _ Hok') as Hl. rewrite Hm, zlen_app in Hl.
  pose proof (zlen_nonneg rest). pose proof (zlen_nonneg (encode (filter reserved bs))).
  rewrite encode_reserved_len in * by (apply Forall_forall; intros b Hb;
    by apply list_elem_of_filter in Hb as [? _]).
  rewrite u64_small by (unfold is_u64; lia). lia.
Qed.

Lemma load_payload h bs1 b bs2 : heap_ok h (bs1 ++ b :: bs2) →
  load (heap_ h) (zlen (encode bs1) + 8) (zlen (payload b)) = Ret (payload b).
Proof.
  intros [[rest Hm] _ _ _ _ _ _]. rewrite Hm, encode_app, encode_cons. unfold encode_block.
  rewrite <- !app_assoc, app_assoc. apply load_app; [|done].
  rewrite zlen_app. unfold zlen. rewrite length_le_encode. lia.
Qed.

(** [Expand] of a block below 4 GiB copies it to the new end
    of the heap and frees the old one, or fails without a change. *)
Theorem expand_moves h bs1 c bs2 new_size : heap_ok h (bs1 ++ Block false c :: bs2) →
  zlen c < 2 ^ 32 → zlen c ≤ new_size < 2 ^ 62 →
  Expand h (zlen (encode bs1) + 8) new_size = Ret (h, None) ∨
  ∃ h' tail, Expand h (zlen (encode bs1) + 8) new_size = Ret (h', Some (gauge_ h + 8)) ∧
    heap_ok h' ((bs1 ++ Block true c :: bs2) ++ [Block false (c ++ tail)]) ∧
    zlen (c ++ tail) = RoundUp8 new_size.
Proof.
  intros Hok Hc32 Hn. pose proof (ho_blocks _ _ Hok) as [_ [[Hc _] _]%Forall_cons]%Forall_app.
  cbn [payload] in Hc. unfold Expand. rewrite (GetSize_ok _ _ _ _ Hok). exec.
  rewrite leb_true by lia. exec. rewrite u32_small by (unfold is_u32; lia).
  rewrite (load_payload _ _ _ _ Hok : load _ _ (zlen c) = Ret c). exec.
  destruct (decide (gauge_ h + 8 + RoundUp8 new_size ≤ capacity_ h)) as [Hr|Hr].
  - right. destruct (Allocate_ok _ _ new_size c Hok) as (h1 & tail & -> & Hok1 & Hl & _);
      try done; [lia|lia|]. exec. rewrite <- app_assoc in Hok1. cbn [app] in Hok1.
    destruct (MarkFree_ok _ _ _ _ Hok1) as (h2 & -> & Hok2 & _). exec. exists h2, tail.
    split; [done|]. split; [|done]. by rewrite <- app_assoc.
  - left. rewrite (Allocate_full _ _ _ _ Hok) by lia. done.
Qed.

Module MallocHeapWitness.
Definition the_blocks : list block :=
  [Block true (replicate 16 1); Block false (replicate 8 2); Block true (replicate 8 3);
   Block true (replicate 8 4); Block false (replicate 16 5); Block true (replicate 8 6)].

Definition the_heap : malloc_heap :=
  MallocHeap 2048 (zlen (encode the_blocks)) 24 2
    (encode the_blocks ++ replicate (2048 - length (encode the_blocks)) 0).

Lemma the_heap_ok : heap_ok the_heap the_blocks.
Proof.
  split.
  - exists (replicate (2048 - length (encode the_blocks)) 0). reflexivity.
  - reflexivity.
  - vm_compute. reflexivity.
  - cbn. lia.
  - unfold the_blocks. repeat (apply Forall_cons; split; [split; [split|]; vm_compute; reflexivity|]).
    apply Forall_nil_2.
  - vm_compute. reflexivity.
  - vm_compute. reflexivity.
Qed.

Lemma allocate_appends_witness :
  (capacity_ the_heap < gauge_ the_heap + 8 + RoundUp8 10 ∧
     Allocate the_heap 10 [7; 8] = Ret (the_heap, None)) ∨
  (gauge_ the_heap + 8 + RoundUp8 10 ≤ capacity_ the_heap ∧
   ∃ h' tail, Allocate the_heap 10 [7; 8] = Ret (h', Some (gauge_ the_heap + 8)) ∧
     heap_ok h' (the_blocks ++ [Block false ([7; 8] ++ tail)]) ∧
     zlen ([7; 8] ++ tail) = RoundUp8 10 ∧
     addrs 0 (the_blocks ++ [Block false ([7; 8] ++ tail)])
     = addrs 0 the_blocks ++ [(gauge_ the_heap + 8, [7; 8] ++ tail)]).
Proof.
  apply (allocate_appends the_heap the_blocks 10 [7; 8] the_heap_ok).
  - lia.
  - unfold zlen. cbn. lia.
Defined.

(** The callback records the addresses it is told. *)
Definition record_move (s : list Z) (mem : bytes) (a : Z) : outcome (list Z) := Ret (s ++ [a]).

Lemma compact_packs_witness :
  ∃ h' s', Compact record_move the_heap [] = Ret (h', s') ∧
    heap_ok h' [Block false (replicate 8 2); Block false (replicate 16 5)] ∧
    gauge_ h' = compacted_bytes h'.
Proof.
  destruct (compact_packs record_move (λ _ _, True) the_heap the_blocks []) as (h' & s' & Hc & Hok & _ & Hg).
  - intros s l1 a a' c l2 mem _ _. by eexists.
  - exact the_heap_ok.
  - done.
  - exists h', s'. split; [exact Hc|]. split; [exact Hok|exact Hg].
Defined.

(** The two reserved blocks are moved once each. *)
Lemma compact_moves :
  ('(_, s) ← Compact record_move the_heap []; Ret s) = Ret [8; 24].
Proof. vm_compute. reflexivity. Qed.

Lemma expand_moves_witness :
  Expand the_heap (zlen (encode (take 1 the_blocks)) + 8) 20 = Ret (the_heap, None) ∨
  ∃ h' tail, Expand the_heap (zlen (encode (take 1 the_blocks)) + 8) 20
      = Ret (h', Some (gauge_ the_heap + 8)) ∧
    heap_ok h' ((take 1 the_blocks ++ Block true (replicate 8 2) :: drop 2 the_blocks)
                  ++ [Block false (replicate 8 2 ++ tail)]) ∧
    zlen (replicate 8 2 ++ tail) = RoundUp8 20.
Proof.
  apply (expand_moves the_heap (take 1 the_blocks) (replicate 8 2) (drop 2 the_blocks) 20).
  - exact the_heap_ok.
  - vm_compute. reflexivity.
  - split; [vm_compute; discriminate|lia].
Defined.
End MallocHeapWitness.
