(* ===== verification/Hash.v ===== *)
(** * Content hashes (src/cvmfs/crypto/hash.h, hash.cc)

    [shash::Any]: a digest with its algorithm and a suffix, its hexadecimal
    representation, the parsers, the paths in the content-addressed storage,
    the comparison operators and HMAC.  The hash functions themselves belong
    to the nettle library and are parameters. *)

From stdpp Require Import base numbers list.
From S2P Require Import Prelude Bytes.

Open Scope Z_scope.

Inductive Algorithms := kMd5 | kSha1 | kRmd160 | kShake128 | kAny.

#[export] Instance Algorithms_eq_dec : EqDecision Algorithms.
Proof. solve_decision. Defined.

(** The value of the enumeration constants. *)
Definition alg_code (a : Algorithms) : Z :=
  match a with kMd5 => 0 | kSha1 => 1 | kRmd160 => 2 | kShake128 => 3 | kAny => 4 end.

Definition kMaxDigestSize : Z := 20.
Definition kSuffixNone : Z := 0.

Definition kDigestSizes (a : Algorithms) : Z :=
  match a with kMd5 => 16 | _ => 20 end.

Definition kAlgorithmIdSizes (a : Algorithms) : Z :=
  match a with kRmd160 => 7 | kShake128 => 9 | _ => 0 end.

(** "-rmd160" and "-shake128" *)
Definition kAlgorithmIds (a : Algorithms) : bytes :=
  match a with
  | kRmd160 => [45; 114; 109; 100; 49; 54; 48]
  | kShake128 => [45; 115; 104; 97; 107; 101; 49; 50; 56]
  | _ => []
  end.

(** [shash::Any]; the digest buffer has [kMaxDigestSize] bytes. *)
Record any := Any { digest : bytes; algorithm : Algorithms; suffix : Z }.

(** The default constructor. *)
Definition null_any : any := Any (replicate 20 0) kAny kSuffixNone.

(** A [char] of a string is signed. *)
Definition schar (c : Z) : Z := if c <? 128 then c else c - 256.

(** ** Hexadecimal representation: class [Hex] *)

Definition hash_length (h : any) : Z := 2 * kDigestSizes (algorithm h).
Definition hex_length (h : any) : Z := hash_length h + kAlgorithmIdSizes (algorithm h).

Definition ToHex (c : Z) : Z := u8 (c + (if c <=? 9 then 48 else 97 - 10)).

Definition GetHashChar (h : any) (position : Z) : outcome Z :=
  _ ← cassert (position <? hash_length h);
  d ← rd (digest h) (position / 2);
  Ret (ToHex (if position mod 2 =? 0 then d / 16 else d mod 16)).

Definition GetAlgorithmIdentifierChar (h : any) (position : Z) : outcome Z :=
  _ ← cassert (position >=? hash_length h);
  rd (kAlgorithmIds (algorithm h)) (position - hash_length h).

Definition hex_at (h : any) (position : Z) : outcome Z :=
  _ ← cassert (position <? hex_length h);
  if position <? hash_length h then GetHashChar h position
  else GetAlgorithmIdentifierChar h position.

Definition HasSuffix (h : any) : bool := negb (suffix h =? kSuffixNone).

(** Collects the characters at positions [i], [i + 1], ... *)
Fixpoint hex_chars (h : any) (n : nat) (i : Z) : outcome bytes :=
  match n with
  | O => Ret []
  | S n => c ← hex_at h i; cs ← hex_chars h n (i + 1); Ret (c :: cs)
  end.

Definition ToString (h : any) (with_suffix : bool) : outcome bytes :=
  let use_suffix := with_suffix && HasSuffix h in
  cs ← hex_chars h (Z.to_nat (hex_length h)) 0;
  Ret (cs ++ (if use_suffix then [suffix h] else [])).

Definition ToStringWithSuffix (h : any) : outcome bytes := ToString h true.

(** [toupper] in the C locale *)
Definition toupper (c : Z) : Z := if (97 <=? c) && (c <=? 122) then c - 32 else c.

(** The loop of [ToFingerprint] from position [hex_i] on. *)
Fixpoint fingerprint_chars (h : any) (n : nat) (hex_i : Z) : outcome bytes :=
  match n with
  | O => Ret []
  | S n =>
      c ← hex_at h hex_i;
      cs ← fingerprint_chars h n (hex_i + 1);
      Ret (toupper c ::
             (if (hex_i <? 2 * kDigestSizes (algorithm h) - 1) && (hex_i mod 2 =? 1)
              then [58] else []) ++ cs)
  end.

Definition ToFingerprint (h : any) (with_suffix : bool) : outcome bytes :=
  let use_suffix := with_suffix && HasSuffix h in
  cs ← fingerprint_chars h (Z.to_nat (hex_length h)) 0;
  let result := cs ++ (if use_suffix then [suffix h] else []) in
  _ ← cassert (zlen result =? hex_length h + kDigestSizes (algorithm h) - 1
                              + (if use_suffix then 1 else 0));
  Ret result.

(** The loop of [MakePathExplicit] from position [i] on. *)
Fixpoint path_chars (h : any) (dir_levels digits_per_level : Z) (n : nat) (i : Z)
    : outcome bytes :=
  match n with
  | O => Ret []
  | S n =>
      c ← hex_at h i;
      cs ← path_chars h dir_levels digits_per_level n (i + 1);
      Ret ((if (i >? 0) && (i mod digits_per_level =? 0)
               && (i / digits_per_level <=? dir_levels) then [47] else []) ++ c :: cs)
  end.

Definition MakePathExplicit (h : any) (dir_levels digits_per_level hash_suffix : Z)
    : outcome bytes :=
  let use_suffix := negb (hash_suffix =? kSuffixNone) in
  cs ← path_chars h dir_levels digits_per_level (Z.to_nat (hex_length h)) 0;
  let result := cs ++ (if use_suffix then [hash_suffix] else []) in
  _ ← cassert (zlen result =? hex_length h + dir_levels + (if use_suffix then 1 else 0));
  Ret result.

Definition MakePath (h : any) : outcome bytes := MakePathExplicit h 1 2 (suffix h).
Definition MakePathWithoutSuffix (h : any) : outcome bytes := MakePathExplicit h 1 2 kSuffixNone.

(** ".cvmfsalt-" and the suffixed hash *)
Definition MakeAlternativePath (h : any) : outcome bytes :=
  s ← ToStringWithSuffix h;
  Ret ([46; 99; 118; 109; 102; 115; 97; 108; 116; 45] ++ s).

(** ** Parsing *)

Definition hex_digit (c : Z) : Z := if schar c <=? 57 then schar c - 48 else schar c - 97 + 10.

(** The loop of the constructor from a [HexPtr]. *)
Fixpoint parse_digits (n : nat) (str : bytes) (i : Z) : outcome bytes :=
  match n with
  | O => Ret []
  | S n =>
      c1 ← rd str i;
      c2 ← rd str (i + 1);
      ds ← parse_digits n str (i + 2);
      Ret (u8 (hex_digit c1 * 16 + hex_digit c2) :: ds)
  end.

(** [Any(a, hex, s)]; the bytes of the buffer behind the digest are not
    initialised, they are zero here. *)
Definition any_of_hex (a : Algorithms) (hex : bytes) (s : Z) : outcome any :=
  let char_size := 2 * kDigestSizes a in
  _ ← cassert (zlen hex >=? char_size);
  ds ← parse_digits (Z.to_nat (kDigestSizes a)) hex 0;
  Ret (Any (ds ++ replicate (20 - length ds) 0) a s).

Definition any_of_buffer (a : Algorithms) (buf : bytes) (s : Z) : outcome any :=
  d ← load buf 0 (kDigestSizes a);
  Ret (Any (d ++ replicate (20 - length d) 0) a s).

(** [HexPtr::IsValid]: the first loop, up to a dash. *)
Fixpoint scan_hex (str : bytes) (i : Z) : option Z :=
  match str with
  | [] => Some i
  | c :: str =>
      if c =? 45 then Some i
      else if (schar c <? 48) || (schar c >? 102) || ((schar c >? 57) && (schar c <? 97))
      then None
      else scan_hex str (i + 1)
  end.

(** The number of characters that agree with the algorithm's identifier. *)
Fixpoint match_id (str id : bytes) : Z :=
  match str, id with
  | c :: str, x :: id => if c =? x then 1 + match_id str id else 0
  | _, _ => 0
  end.

Definition valid_for (str : bytes) (i : Z) (a : Algorithms) : bool :=
  let hex_length := 2 * kDigestSizes a in
  let l := zlen str in
  (i =? hex_length) &&
  (i + match_id (drop (Z.to_nat hex_length) str) (kAlgorithmIds a) =? l) &&
  (l =? hex_length + kAlgorithmIdSizes a).

Definition IsValid (str : bytes) : bool :=
  if zlen str =? 0 then false
  else match scan_hex str 0 with
       | None => false
       | Some i => existsb (valid_for str i) [kMd5; kSha1; kRmd160; kShake128]
       end.

Definition ParseHashAlgorithm (option : bytes) : Algorithms :=
  if decide (option = [115; 104; 97; 49]) then kSha1
  else if decide (option = [114; 109; 100; 49; 54; 48]) then kRmd160
  else if decide (option = [115; 104; 97; 107; 101; 49; 50; 56]) then kShake128
  else kAny.

(** The chain of [if] statements on the length; at most one of them applies. *)
Definition set_suffix (h : any) (s : Z) : any := Any (digest h) (algorithm h) s.

Definition MkFromHexPtr (hex : bytes) (suffix : Z) : outcome any :=
  let length := zlen hex in
  let result := null_any in
  result ← (if length =? 2 * kDigestSizes kMd5 then any_of_hex kMd5 hex 0 else Ret result);
  result ← (if length =? 2 * kDigestSizes kSha1 then any_of_hex kSha1 hex 0 else Ret result);
  result ← (if length =? 2 * kDigestSizes kRmd160 + kAlgorithmIdSizes kRmd160
            then any_of_hex kRmd160 hex 0 else Ret result);
  result ← (if length =? 2 * kDigestSizes kShake128 + kAlgorithmIdSizes kShake128
            then any_of_hex kShake128 hex 0 else Ret result);
  Ret (set_suffix result suffix).

(** One branch of [MkFromSuffixedHexPtr]. *)
Definition suffixed_branch (a : Algorithms) (hex : bytes) (result : any) : outcome any :=
  let length := zlen hex in
  let size := 2 * kDigestSizes a + kAlgorithmIdSizes a in
  if (length =? size) || (length =? size + 1) then
    s ← (if length =? size + 1 then rd hex (length - 1) else Ret kSuffixNone);
    any_of_hex a hex s
  else Ret result.

Definition MkFromSuffixedHexPtr (hex : bytes) : outcome any :=
  result ← suffixed_branch kMd5 hex null_any;
  result ← suffixed_branch kSha1 hex result;
  result ← suffixed_branch kRmd160 hex result;
  suffixed_branch kShake128 hex result.

(** ** Comparison *)

Definition significant (h : any) : bytes := take (Z.to_nat (kDigestSizes (algorithm h))) (digest h).

Definition IsNull (h : any) : bool := forallb (Z.eqb 0) (significant h).

(** The loops over the first [n] digest bytes. *)
Fixpoint digest_eq (n : nat) (d1 d2 : bytes) : bool :=
  match n, d1, d2 with
  | S n, x :: d1, y :: d2 => if x =? y then digest_eq n d1 d2 else false
  | _, _, _ => true
  end.

Fixpoint digest_lt (n : nat) (d1 d2 : bytes) : bool :=
  match n, d1, d2 with
  | S n, x :: d1, y :: d2 => if x >? y then false else if x <? y then true else digest_lt n d1 d2
  | _, _, _ => false
  end.

Definition any_eq (h1 h2 : any) : bool :=
  if decide (algorithm h1 = algorithm h2)
  then digest_eq (Z.to_nat (kDigestSizes (algorithm h1))) (digest h1) (digest h2)
  else false.

Definition any_lt (h1 h2 : any) : bool :=
  if decide (algorithm h1 = algorithm h2)
  then digest_lt (Z.to_nat (kDigestSizes (algorithm h1))) (digest h1) (digest h2)
  else alg_code (algorithm h1) <? alg_code (algorithm h2).

Definition Partial32 (h : any) : outcome Z := b ← load (digest h) 0 4; Ret (be_decode b).

(** [Md5(lo, hi)] and [ToIntPair] *)
Definition md5_of_ints (lo hi : Z) : any :=
  Any (le_encode 8 lo ++ le_encode 8 hi) kMd5 kSuffixNone.
Definition ToIntPair (h : any) : outcome (Z * Z) :=
  lo ← load (digest h) 0 8;
  hi ← load (digest h) 8 8;
  Ret (le_decode lo, le_decode hi).

(** ** Theory: printing and parsing *)

Record any_ok (h : any) : Prop := {
  any_digest : length (digest h) = 20%nat;
  any_bytes : bytes_ok (digest h);
  any_algorithm : algorithm h ≠ kAny;
  any_suffix : is_u8 (suffix h)
}.

Fixpoint hex_of (d : bytes) : bytes :=
  match d with
  | [] => []
  | b :: d => ToHex (b / 16) :: ToHex (b mod 16) :: hex_of d
  end.

Definition hex_string (h : any) : bytes := hex_of (significant h) ++ kAlgorithmIds (algorithm h).

Lemma zlen_hex_of d : zlen (hex_of d) = 2 * zlen d.
Proof. induction d as [|b d IH]; [done|]. cbn [hex_of]. rewrite !zlen_cons, IH. lia. Qed.

Lemma zlen_ids a : zlen (kAlgorithmIds a) = kAlgorithmIdSizes a.
Proof. by destruct a. Qed.

Lemma digest_size_bounds a : 0 < kDigestSizes a ≤ 20.
Proof. destruct a; cbn; lia. Qed.

Lemma zlen_significant h : length (digest h) = 20%nat →
  zlen (significant h) = kDigestSizes (algorithm h).
Proof.
  intros Hl. pose proof (digest_size_bounds (algorithm h)).
  unfold significant, zlen. rewrite length_take. lia.
Qed.

Lemma zlen_hex_string h : length (digest h) = 20%nat → zlen (hex_string h) = hex_length h.
Proof.
  intros. unfold hex_string, hex_length, hash_length.
  by rewrite zlen_app, zlen_hex_of, zlen_ids, zlen_significant.
Qed.

Lemma lget_cons {A} (x : A) l i : lget (x :: l) i = if decide (i = 0) then Some x else lget l (i - 1).
Proof.
  unfold lget. destruct (decide (i = 0)) as [->|]; [done|]. repeat case_decide; try lia; try done.
  by replace (Z.to_nat i) with (S (Z.to_nat (i - 1))) by lia.
Qed.

Lemma lget_hex_of d i : 0 ≤ i →
  lget (hex_of d) i = (λ b, ToHex (if i mod 2 =? 0 then b / 16 else b mod 16)) <$> lget d (i / 2).
Proof.
  revert i. induction d as [|b d IH]; intros i Hi; cbn [hex_of].
  { unfold lget. repeat case_decide; done. }
  rewrite !lget_cons. destruct (decide (i = 0)) as [->|]; [done|].
  destruct (decide (i - 1 = 0)) as [H1|].
  { assert (i = 1) as -> by lia. done. }
  replace (i - 1 - 1) with (i - 2) by lia. rewrite IH by lia.
  replace ((i - 2) / 2) with (i / 2 - 1) by (Z.to_euclidean_division_equations; lia).
  rewrite (decide_False (P := i / 2 = 0)) by (Z.to_euclidean_division_equations; lia).
  by replace ((i - 2) mod 2) with (i mod 2) by (Z.to_euclidean_division_equations; lia).
Qed.

Lemma lget_take {A} (l : list A) n i : i < n → lget (take (Z.to_nat n) l) i = lget l i.
Proof. unfold lget. intros. case_decide; [|done]. apply lookup_take_lt. lia. Qed.

Lemma hex_at_ok h i : length (digest h) = 20%nat → 0 ≤ i < hex_length h →
  hex_at h i = rd (hex_string h) i.
Proof.
  intros Hl Hi. unfold hex_at. rewrite (ltb_true i (hex_length h)) by lia. exec.
  unfold rd, hex_string. rewrite lget_app, zlen_hex_of, zlen_significant by done.
  destruct (Z.ltb_spec i (hash_length h)) as [Hlt|Hge]; unfold hash_length in *.
  - rewrite decide_True by lia. unfold GetHashChar, hash_length. rewrite ltb_true by lia. exec.
    rewrite lget_hex_of by lia. unfold rd, significant.
    rewrite lget_take by (Z.to_euclidean_division_equations; lia).
    by destruct (lget (digest h) (i / 2)).
  - rewrite decide_False by lia. unfold GetAlgorithmIdentifierChar, hash_length.
    rewrite geb_true by lia. exec. done.
Qed.

Lemma drop_lget {A} (l : list A) i x : lget l i = Some x →
  drop (Z.to_nat i) l = x :: drop (Z.to_nat (i + 1)) l.
Proof.
  intros Hx. pose proof (lget_Some_range _ _ _ Hx). unfold lget in Hx.
  rewrite decide_True in Hx by lia. rewrite (drop_S _ _ _ Hx). do 2 f_equal. lia.
Qed.

Lemma hex_chars_ok h : length (digest h) = 20%nat → ∀ n i, 0 ≤ i →
  i + Z.of_nat n = hex_length h → hex_chars h n i = Ret (drop (Z.to_nat i) (hex_string h)).
Proof.
  intros Hl. induction n as [|n IH]; intros i Hi Hn; cbn [hex_chars].
  { rewrite drop_ge; [done|]. pose proof (zlen_hex_string h Hl). unfold zlen in *. lia. }
  rewrite hex_at_ok by (done || lia).
  destruct (lget_in_range (hex_string h) i) as [c Hc]; [rewrite zlen_hex_string by done; lia|].
  rewrite (rd_Some _ _ _ Hc). exec. rewrite IH by lia. exec. by rewrite (drop_lget _ _ _ Hc).
Qed.

Lemma ToString_ok h b : any_ok h →
  ToString h b = Ret (hex_string h ++ (if b && HasSuffix h then [suffix h] else [])).
Proof.
  intros [Hl _ _ _]. unfold ToString.
  rewrite (hex_chars_ok h Hl _ 0); [|lia|].
  - exec. done.
  - pose proof (zlen_hex_string h Hl). pose proof (zlen_nonneg (hex_string h)). lia.
Qed.

Lemma hex_digit_ToHex v : 0 ≤ v < 16 → hex_digit (ToHex v) = v.
Proof.
  intros Hv. unfold hex_digit, ToHex, schar.
  destruct (Z.leb_spec v 9); rewrite u8_small by (unfold is_u8; lia);
    rewrite ltb_true by lia; repeat case_match; lia.
Qed.

Lemma parse_hex_of d : bytes_ok d → ∀ pre rest,
  parse_digits (length d) (pre ++ hex_of d ++ rest) (zlen pre) = Ret d.
Proof.
  induction d as [|b d IH]; intros Hd pre rest; [done|].
  apply Forall_cons in Hd as [Hb Hd]. unfold is_u8 in Hb. cbn [length parse_digits hex_of app].
  rewrite (rd_Some _ (zlen pre) (ToHex (b / 16))).
  2:{ rewrite lget_app, decide_False, lget_cons, decide_True by lia. done. }
  exec. rewrite (rd_Some _ (zlen pre + 1) (ToHex (b mod 16))).
  2:{ rewrite lget_app, decide_False, lget_cons, decide_False, lget_cons, decide_True by lia. done. }
  exec. specialize (IH Hd (pre ++ [ToHex (b / 16); ToHex (b mod 16)]) rest).
  rewrite <- app_assoc, zlen_app in IH. cbn [app] in IH.
  change (zlen [ToHex (b / 16); ToHex (b mod 16)]) with 2 in IH. rewrite IH. exec.
  rewrite !hex_digit_ToHex by (Z.to_euclidean_division_equations; lia).
  do 2 f_equal. replace (b / 16 * 16 + b mod 16) with b by (Z.to_euclidean_division_equations; lia).
  by apply u8_small.
Qed.

Lemma any_of_hex_ok a d rest s : bytes_ok d → zlen d = kDigestSizes a →
  any_of_hex a (hex_of d ++ rest) s = Ret (Any (d ++ replicate (20 - length d) 0) a s).
Proof.
  intros Hd Hl. unfold any_of_hex. pose proof (zlen_nonneg rest).
  rewrite geb_true by (rewrite zlen_app, zlen_hex_of; lia). exec. rewrite <- Hl.
  unfold zlen. rewrite Nat2Z.id.
  by rewrite (parse_hex_of d Hd [] rest : parse_digits _ (hex_of d ++ rest) 0 = _).
Qed.

(** A digest of algorithm [a] in the buffer of an [Any]. *)
Definition padded (d : bytes) (a : Algorithms) (s : Z) : any :=
  Any (d ++ replicate (20 - length d) 0) a s.

Lemma MkFromHexPtr_ok a d s : a ≠ kAny → bytes_ok d → zlen d = kDigestSizes a →
  MkFromHexPtr (hex_of d ++ kAlgorithmIds a) s = Ret (padded d a s).
Proof.
  intros Ha Hd Hl. unfold MkFromHexPtr. rewrite zlen_app, zlen_hex_of, zlen_ids, Hl.
  destruct a; [..|done];
    cbv [kDigestSizes kAlgorithmIdSizes Z.mul Z.add Pos.mul Pos.add Pos.succ Z.eqb Pos.eqb]; exec;
    rewrite any_of_hex_ok by done; done.
Qed.

Lemma suffixed_other a b d rest r : zlen d = kDigestSizes b →
  zlen rest = kAlgorithmIdSizes b ∨ zlen rest = kAlgorithmIdSizes b + 1 →
  a ≠ kAny → b ≠ kAny → a ≠ b → suffixed_branch a (hex_of d ++ rest) r = Ret r.
Proof.
  intros Hd Hr Ha Hb Hab. unfold suffixed_branch. rewrite zlen_app, zlen_hex_of, Hd.
  rewrite !eqb_false; [done|..]; destruct Hr as [-> | ->], a, b; cbn; congruence || lia.
Qed.

Lemma MkFromSuffixedHexPtr_ok a d s : a ≠ kAny → bytes_ok d → zlen d = kDigestSizes a →
  MkFromSuffixedHexPtr (hex_of d ++ kAlgorithmIds a ++ (if s =? kSuffixNone then [] else [s]))
  = Ret (padded d a s).
Proof.
  intros Ha Hd Hl. set (tail := if s =? kSuffixNone then [] else [s]).
  assert (zlen (kAlgorithmIds a ++ tail)
          = kAlgorithmIdSizes a + (if s =? kSuffixNone then 0 else 1)) as Ht.
  { rewrite zlen_app, zlen_ids. subst tail. by destruct (s =? kSuffixNone). }
  assert (∀ r, suffixed_branch a (hex_of d ++ kAlgorithmIds a ++ tail) r = Ret (padded d a s)) as Hself.
  { intros r. unfold suffixed_branch. rewrite zlen_app, zlen_hex_of, Hl, Ht.
    destruct (s =? kSuffixNone) eqn:Hs.
    - rewrite (eqb_true _ (2 * kDigestSizes a + kAlgorithmIdSizes a)) by lia. exec.
      rewrite eqb_false by lia. exec. rewrite any_of_hex_ok by done. by apply Z.eqb_eq in Hs as ->.
    - rewrite (eqb_true _ (2 * kDigestSizes a + kAlgorithmIdSizes a + 1)) by lia.
      rewrite orb_true_r. subst tail. rewrite (rd_Some _ _ s).
      + exec. by rewrite any_of_hex_ok.
      + rewrite app_assoc, lget_app, decide_False by (rewrite zlen_app, zlen_hex_of, zlen_ids; lia).
        rewrite zlen_app, zlen_hex_of, zlen_ids, Hl, lget_cons, decide_True by lia. done. }
  assert (∀ b r, b ≠ kAny → b ≠ a →
    suffixed_branch b (hex_of d ++ kAlgorithmIds a ++ tail) r = Ret r) as Hother.
  { intros b r Hb Hba. apply (suffixed_other b a); try done. rewrite Ht.
    destruct (s =? kSuffixNone); [left|right]; lia. }
  unfold MkFromSuffixedHexPtr.
  destruct a; [..|done]; repeat (first [rewrite Hself|rewrite Hother by done]; exec); done.
Qed.

Lemma digest_eq_take n d1 d2 : take n d1 = take n d2 → digest_eq n d1 d2 = true.
Proof.
  revert d1 d2. induction n as [|n IH]; intros [|x d1] [|y d2]; cbn; try done.
  intros [= -> ?]. rewrite Z.eqb_refl. auto.
Qed.

Lemma padded_eq h s : any_ok h →
  any_eq (padded (significant h) (algorithm h) s) h = true.
Proof.
  intros [Hl _ _ _]. unfold any_eq. cbn [padded algorithm digest]. rewrite decide_True by done.
  apply digest_eq_take. pose proof (zlen_significant h Hl) as Hs. unfold zlen in Hs.
  rewrite take_app_le by lia. unfold significant. by rewrite take_take, Nat.min_id.
Qed.

Lemma significant_ok h : any_ok h → bytes_ok (significant h).
Proof. intros [_ Hb _ _]. by apply Forall_take. Qed.

Lemma scan_hex_digits d rest i : bytes_ok d →
  scan_hex (hex_of d ++ rest) i = scan_hex rest (i + 2 * zlen d).
Proof.
  intros Hd. revert i. induction d as [|b d IH]; intros i.
  { cbn. by rewrite Z.add_0_r. }
  apply Forall_cons in Hd as [Hb Hd]. unfold is_u8 in Hb. specialize (IH Hd).
  assert (∀ v, 0 ≤ v < 16 → (ToHex v =? 45) = false ∧
    (schar (ToHex v) <? 48) || (schar (ToHex v) >? 102)
      || ((schar (ToHex v) >? 57) && (schar (ToHex v) <? 97)) = false) as Hhex.
  { intros v Hv. unfold ToHex, schar.
    destruct (Z.leb_spec v 9); rewrite u8_small by (unfold is_u8; lia).
    - rewrite (ltb_true _ 128), eqb_false, ltb_false, !gtb_false by lia. done.
    - rewrite (ltb_true _ 128), eqb_false, (ltb_false _ 48), (gtb_false _ 102), (ltb_false _ 97) by lia.
      by rewrite andb_false_r. }
  cbn [hex_of app scan_hex].
  destruct (Hhex (b / 16)) as [-> ->]; [Z.to_euclidean_division_equations; lia|].
  destruct (Hhex (b mod 16)) as [-> ->]; [Z.to_euclidean_division_equations; lia|].
  rewrite IH, zlen_cons. f_equal. lia.
Qed.

Lemma match_id_self id : match_id id id = zlen id.
Proof. induction id as [|c id IH]; [done|]. cbn [match_id]. by rewrite Z.eqb_refl, IH, zlen_cons. Qed.

Lemma IsValid_print a d : a ≠ kAny → bytes_ok d → zlen d = kDigestSizes a →
  IsValid (hex_of d ++ kAlgorithmIds a) = true.
Proof.
  intros Ha Hd Hl. unfold IsValid.
  pose proof (digest_size_bounds a). rewrite zlen_app, zlen_hex_of, zlen_ids, Hl.
  rewrite eqb_false by (destruct a; cbn; lia). rewrite scan_hex_digits by done.
  assert (scan_hex (kAlgorithmIds a) (0 + 2 * zlen d) = Some (2 * kDigestSizes a)) as ->.
  { rewrite Hl. destruct a; done. }
  apply existsb_exists. exists a. split; [destruct a; cbn; tauto|].
  unfold valid_for. rewrite zlen_app, zlen_hex_of, zlen_ids, Hl.
  replace (drop (Z.to_nat (2 * kDigestSizes a)) (hex_of d ++ kAlgorithmIds a))
    with (kAlgorithmIds a).
  - rewrite match_id_self, zlen_ids, !Z.eqb_refl. done.
  - rewrite <- Hl, <- zlen_hex_of. unfold zlen. by rewrite Nat2Z.id, drop_app_length.
Qed.

Definition hex_char (c : Z) : Prop := 48 ≤ c ≤ 57 ∨ 97 ≤ c ≤ 102.

Lemma hex_char_digit c : hex_char c → 0 ≤ hex_digit c < 16 ∧ ToHex (hex_digit c) = c.
Proof.
  intros Hc. unfold hex_digit, schar, ToHex. unfold hex_char in Hc. rewrite ltb_true by lia.
  destruct (Z.leb_spec c 57).
  - rewrite leb_true, u8_small by (unfold is_u8; lia). lia.
  - rewrite leb_false, u8_small by (unfold is_u8; lia). lia.
Qed.

Lemma scan_hex_inv s i0 i : bytes_ok s → scan_hex s i0 = Some i →
  ∃ hx rest, s = hx ++ rest ∧ i = i0 + zlen hx ∧ Forall hex_char hx.
Proof.
  intros Hs. revert i0. induction s as [|c s IH]; intros i0 Hi; cbn [scan_hex] in Hi.
  { injection Hi as <-. exists [], []. split_and!; [done|unfold zlen; cbn; lia|constructor]. }
  apply Forall_cons in Hs as [Hc Hs]. unfold is_u8 in Hc. destruct (c =? 45).
  { injection Hi as <-. exists [], (c :: s). split_and!; [done|unfold zlen; cbn; lia|constructor]. }
  destruct (_ || _) eqn:Hb in Hi; [done|].
  destruct (IH Hs _ Hi) as (hx & rest & -> & -> & Hhx). exists (c :: hx), rest.
  split_and!; [done|rewrite zlen_cons; lia|]. constructor; [|done].
  apply orb_false_iff in Hb as [[Hb1 Hb2]%orb_false_iff Hb3].
  apply Z.ltb_ge in Hb1. rewrite Z.gtb_ltb in Hb2. apply Z.ltb_ge in Hb2.
  unfold hex_char, schar in *. destruct (Z.ltb_spec c 128); [|lia].
  rewrite Z.gtb_ltb in Hb3. apply andb_false_iff in Hb3 as [Hb3|Hb3]; apply Z.ltb_ge in Hb3; lia.
Qed.

Lemma unhex n : ∀ hx, length hx = (2 * n)%nat → Forall hex_char hx →
  ∃ d, hx = hex_of d ∧ bytes_ok d ∧ length d = n.
Proof.
  induction n as [|n IH]; intros hx Hl Hhx.
  { destruct hx; [|done]. exists []. split_and!; [done|constructor|done]. }
  destruct hx as [|c1 [|c2 hx]]; cbn in Hl; try lia.
  apply Forall_cons in Hhx as [H1 [H2 Hhx]%Forall_cons].
  destruct (hex_char_digit c1 H1) as [? E1], (hex_char_digit c2 H2) as [? E2].
  destruct (IH hx) as (d & -> & Hd & Hld); [lia|done|].
  set (b := hex_digit c1 * 16 + hex_digit c2).
  assert (b / 16 = hex_digit c1 ∧ b mod 16 = hex_digit c2) as [Hq Hr]
    by (subst b; Z.to_euclidean_division_equations; lia).
  exists (b :: d). split_and!.
  - cbn [hex_of]. by rewrite Hq, Hr, E1, E2.
  - constructor; [|done]. unfold is_u8. subst b. lia.
  - cbn. lia.
Qed.

Lemma match_id_le s id : match_id s id ≤ zlen s.
Proof.
  revert id. induction s as [|c s IH]; intros [|x id]; cbn [match_id]; try (unfold zlen; lia).
  rewrite zlen_cons. specialize (IH id). pose proof (zlen_nonneg s). case_match; lia.
Qed.

Lemma match_id_full s id : match_id s id = zlen s → zlen s = zlen id → s = id.
Proof.
  revert id. induction s as [|c s IH]; intros [|x id]; cbn [match_id].
  - done.
  - rewrite zlen_cons. pose proof (zlen_nonneg id). change (zlen []) with 0. lia.
  - rewrite zlen_cons. pose proof (zlen_nonneg s). change (zlen []) with 0. lia.
  - rewrite !zlen_cons. pose proof (zlen_nonneg s). destruct (Z.eqb_spec c x) as [->|]; [|lia].
    intros. f_equal. apply IH; lia.
Qed.

Lemma IsValid_inv s : bytes_ok s → IsValid s = true →
  ∃ a d, a ≠ kAny ∧ bytes_ok d ∧ zlen d = kDigestSizes a ∧ s = hex_of d ++ kAlgorithmIds a.
Proof.
  intros Hs. unfold IsValid. destruct (zlen s =? 0); [done|].
  destruct (scan_hex s 0) as [i|] eqn:Hi; [|done]. intros (a & Ha & Hv)%existsb_exists.
  destruct (scan_hex_inv _ _ _ Hs Hi) as (hx & rest & -> & -> & Hhx).
  unfold valid_for in Hv. apply andb_true_iff in Hv as [[H1 H2]%andb_true_iff H3].
  apply Z.eqb_eq in H1, H2, H3. rewrite Z.add_0_l in *. rewrite zlen_app in H2, H3.
  pose proof (digest_size_bounds a).
  rewrite <- H1 in H2. unfold zlen in H2 at 2. rewrite Nat2Z.id, drop_app_length in H2.
  assert (rest = kAlgorithmIds a) as -> by (apply match_id_full; rewrite ?zlen_ids; lia).
  destruct (unhex (Z.to_nat (kDigestSizes a)) hx) as (d & -> & Hd & Hl);
    [unfold zlen in H1; lia|done|].
  exists a, d. split_and!; try done.
  - intros ->. cbn in Ha. intuition discriminate.
  - unfold zlen. lia.
Qed.

(** ** The main properties of the textual representation *)

(** C35. The hexadecimal form of a hash is valid and parses back to
    an equal hash, with the suffix inside the string as well as without. *)
Theorem hash_print_parse h : any_ok h →
  ∃ s s' h1 h2, ToString h false = Ret s ∧ IsValid s = true ∧
    MkFromHexPtr s (suffix h) = Ret h1 ∧ any_eq h1 h = true ∧ suffix h1 = suffix h ∧
    ToStringWithSuffix h = Ret s' ∧
    MkFromSuffixedHexPtr s' = Ret h2 ∧ any_eq h2 h = true ∧ suffix h2 = suffix h.
Proof.
  intros Hok. pose proof (significant_ok h Hok) as Hb.
  pose proof (zlen_significant h (any_digest h Hok)) as Hl.
  unfold ToStringWithSuffix. rewrite !ToString_ok by done. cbn [andb]. rewrite app_nil_r.
  exists (hex_string h), (hex_string h ++ (if HasSuffix h then [suffix h] else [])).
  exists (padded (significant h) (algorithm h) (suffix h)),
    (padded (significant h) (algorithm h) (suffix h)).
  split_and!; try done.
  - apply IsValid_print; [apply Hok|done|done].
  - apply MkFromHexPtr_ok; [apply Hok|done|done].
  - by apply padded_eq.
  - rewrite <- (MkFromSuffixedHexPtr_ok _ _ (suffix h) (any_algorithm h Hok) Hb Hl).
    unfold hex_string, HasSuffix. rewrite <- app_assoc. by destruct (suffix h =? kSuffixNone).
  - by apply padded_eq.
Qed.

(** Every string that [HexPtr::IsValid] accepts is the
    hexadecimal form of the hash that [MkFromHexPtr] makes of it. *)
Theorem hash_parse_print s : bytes_ok s → IsValid s = true →
  ∃ h, MkFromHexPtr s kSuffixNone = Ret h ∧ ToString h false = Ret s ∧ any_ok h.
Proof.
  intros Hs Hv. destruct (IsValid_inv s Hs Hv) as (a & d & Ha & Hd & Hl & ->).
  exists (padded d a kSuffixNone). split; [by apply MkFromHexPtr_ok|].
  pose proof (digest_size_bounds a). unfold zlen in Hl.
  assert (any_ok (padded d a kSuffixNone)) as Hok.
  { split; cbn; try done.
    - rewrite length_app, length_replicate. lia.
    - apply Forall_app. split; [done|]. apply Forall_replicate. done. }
  split; [|done]. rewrite ToString_ok by done. cbn [andb]. rewrite app_nil_r.
  unfold hex_string, significant. cbn [padded algorithm digest].
  rewrite <- Hl, Nat2Z.id, take_app_length. done.
Qed.

(** ** Paths *)

Lemma path_chars_tail h n : ∀ i, length (digest h) = 20%nat → 3 ≤ i →
  i + Z.of_nat n = hex_length h →
  path_chars h 1 2 n i = Ret (drop (Z.to_nat i) (hex_string h)).
Proof.
  induction n as [|n IH]; intros i Hl Hi Hn; cbn [path_chars].
  { rewrite drop_ge; [done|]. pose proof (zlen_hex_string h Hl). unfold zlen in *. lia. }
  rewrite hex_at_ok by (done || lia).
  destruct (lget_in_range (hex_string h) i) as [c Hc]; [rewrite zlen_hex_string by done; lia|].
  rewrite (rd_Some _ _ _ Hc). exec. rewrite IH by (done || lia). exec.
  rewrite (drop_lget _ _ _ Hc).
  destruct (Z.eqb_spec (i mod 2) 0); rewrite ?andb_false_r; [|done].
  rewrite (leb_false (i / 2)), andb_false_r by (Z.to_euclidean_division_equations; lia). done.
Qed.

(** The path of a hash: two digits, a slash, the rest. *)
Lemma MakePathExplicit_ok h s : any_ok h →
  MakePathExplicit h 1 2 s
  = Ret (take 2 (hex_string h) ++ [47] ++ drop 2 (hex_string h)
           ++ (if s =? kSuffixNone then [] else [s])).
Proof.
  intros Hok. pose proof (any_digest h Hok) as Hl. pose proof (zlen_hex_string h Hl) as Hz.
  unfold MakePathExplicit.
  assert (32 ≤ hex_length h).
  { unfold hex_length, hash_length. destruct (algorithm h); cbn; lia. }
  destruct (hex_string h) as [|c0 [|c1 [|c2 cs]]] eqn:Hs; try (unfold zlen in Hz; cbn in Hz; lia).
  replace (Z.to_nat (hex_length h)) with (S (S (S (length cs))))
    by (rewrite <- Hz; unfold zlen; cbn [length]; lia).
  cbn [path_chars]. change (0 + 1) with 1. change (1 + 1) with 2. change (2 + 1) with 3.
  rewrite !hex_at_ok, Hs by (done || lia). unfold rd. cbn. fold (path_chars h 1 2).
  rewrite path_chars_tail; [|done|lia|rewrite <- Hz; unfold zlen; cbn [length]; lia].
  rewrite Hs. change (lget (c0 :: c1 :: c2 :: cs) 0) with (Some c0).
  change (lget (c0 :: c1 :: c2 :: cs) 1) with (Some c1).
  change (lget (c0 :: c1 :: c2 :: cs) 2) with (Some c2). exec.
  change ((2 mod 2 =? 0) && (2 / 2 <=? 1)) with true.
  change ((1 mod 2 =? 0) && (1 / 2 <=? 1)) with false. cbn [app drop Z.to_nat Pos.to_nat].
  rewrite (eqb_true (zlen _)).
  2:{ rewrite <- Hz, !zlen_cons, zlen_app. change (drop (Z.to_nat 3) (c0 :: c1 :: c2 :: cs)) with cs.
      destruct (s =? kSuffixNone); cbn [negb]; rewrite ?zlen_cons; change (zlen []) with 0; lia. }
  exec. by destruct (s =? kSuffixNone).
Qed.

(** The path of an object in the storage is the first two
    hexadecimal digits as the directory and the rest, with the suffix, as the
    file name; without the slash it is the suffixed hash. *)
Theorem make_path_splits h : any_ok h →
  ∃ d1 d2 rest, ToStringWithSuffix h = Ret (d1 :: d2 :: rest) ∧
    MakePath h = Ret (d1 :: d2 :: 47 :: rest).
Proof.
  intros Hok. unfold ToStringWithSuffix, MakePath. rewrite ToString_ok, MakePathExplicit_ok by done.
  pose proof (zlen_hex_string h (any_digest h Hok)) as Hz.
  assert (32 ≤ hex_length h).
  { unfold hex_length, hash_length. destruct (algorithm h); cbn; lia. }
  destruct (hex_string h) as [|c0 [|c1 cs]]; try (unfold zlen in Hz; cbn in Hz; lia).
  do 3 eexists. split; [done|]. cbn. unfold HasSuffix. by destruct (suffix h =? kSuffixNone).
Qed.

(** ** Comparison *)

Lemma digest_eq_iff n d1 d2 : (n ≤ length d1)%nat → (n ≤ length d2)%nat →
  digest_eq n d1 d2 = true ↔ take n d1 = take n d2.
Proof.
  revert d1 d2. induction n as [|n IH]; intros [|x d1] [|y d2] H1 H2; cbn in *; try done; try lia.
  destruct (Z.eqb_spec x y) as [->|].
  - rewrite IH by lia. split; congruence.
  - split; congruence.
Qed.

Lemma digest_lt_trans n d1 d2 d3 :
  (n ≤ length d1)%nat → (n ≤ length d2)%nat → (n ≤ length d3)%nat →
  digest_lt n d1 d2 = true → digest_lt n d2 d3 = true → digest_lt n d1 d3 = true.
Proof.
  revert d1 d2 d3. induction n as [|n IH]; intros [|x d1] [|y d2] [|z d3] L1 L2 L3;
    cbn [digest_lt length] in *; try done; try lia. rewrite !Z.gtb_ltb.
  destruct (Z.ltb_spec y x), (Z.ltb_spec x y), (Z.ltb_spec z y), (Z.ltb_spec y z),
    (Z.ltb_spec z x), (Z.ltb_spec x z); try done; try lia. apply IH; lia.
Qed.

Lemma digest_lt_irrefl n d : digest_lt n d d = false.
Proof.
  revert d. induction n as [|n IH]; intros [|x d]; cbn [digest_lt]; try done.
  by rewrite gtb_false, ltb_false by lia.
Qed.

Lemma digest_trichotomy n d1 d2 : (n ≤ length d1)%nat → (n ≤ length d2)%nat →
  digest_lt n d1 d2 = true ∨ digest_eq n d1 d2 = true ∨ digest_lt n d2 d1 = true.
Proof.
  revert d1 d2. induction n as [|n IH]; intros [|x d1] [|y d2] L1 L2;
    cbn [digest_lt digest_eq length] in *; try (by right; left); try lia.
  rewrite !Z.gtb_ltb. destruct (Z.ltb_spec y x), (Z.ltb_spec x y), (Z.eqb_spec x y);
    try lia; auto. apply IH; lia.
Qed.

(** C37. The order of hashes, which keeps them in sorted
    containers, is a strict total order up to [operator ==]. *)
Theorem hash_order h1 h2 h3 : any_ok h1 → any_ok h2 → any_ok h3 →
  any_lt h1 h1 = false ∧
  (any_lt h1 h2 = true → any_lt h2 h3 = true → any_lt h1 h3 = true) ∧
  (any_lt h1 h2 = true ∨ any_eq h1 h2 = true ∨ any_lt h2 h1 = true) ∧
  (any_eq h1 h2 = true ↔ algorithm h1 = algorithm h2 ∧ significant h1 = significant h2).
Proof.
  intros [L1 _ _ _] [L2 _ _ _] [L3 _ _ _]. unfold any_lt, any_eq.
  assert (∀ a, (Z.to_nat (kDigestSizes a) ≤ 20)%nat) as Hn.
  { intros a. pose proof (digest_size_bounds a). lia. }
  split_and!.
  - rewrite decide_True by done. apply digest_lt_irrefl.
  - intros H12 H23. destruct (decide (algorithm h1 = algorithm h2)) as [E12|],
      (decide (algorithm h2 = algorithm h3)) as [E23|], (decide (algorithm h1 = algorithm h3));
      try congruence.
    + rewrite <- E12 in H23. apply (digest_lt_trans _ _ (digest h2)); rewrite ?L1, ?L2, ?L3; try apply Hn; done.
    + rewrite ?Z.ltb_lt in *. assert (alg_code (algorithm h1) < alg_code (algorithm h1)); [|lia].
      etrans; [done|]. congruence.
    + rewrite ?Z.ltb_lt in *. lia.
  - destruct (decide (algorithm h1 = algorithm h2)) as [Heq|Hne].
    + rewrite (decide_True (P := algorithm h2 = algorithm h1)), <- Heq by done.
      apply digest_trichotomy; rewrite ?L1, ?L2; apply Hn.
    + rewrite (decide_False (P := algorithm h2 = algorithm h1)) by congruence.
      rewrite !Z.ltb_lt. destruct (algorithm h1), (algorithm h2); cbn; try congruence; lia.
  - unfold significant. case_decide as Heq; [|naive_solver].
    rewrite digest_eq_iff, Heq by (rewrite ?L1, ?L2; apply Hn). naive_solver.
Qed.

(** ** Hashing memory and files, HMAC

    The hash contexts of nettle: [Init], [Update] and [Final] dispatch on the
    algorithm and [PANIC] on [kAny]. *)

Section Hashing.
Context {context : Type}.
Context (init : Algorithms → context) (update : context → bytes → context)
        (final : context → bytes).

Definition Init (a : Algorithms) : outcome context :=
  if decide (a = kAny) then Fail AssertFailed else Ret (init a).

Definition Final (c : context) (a : Algorithms) (s : Z) : any :=
  let d := final c in Any (d ++ replicate (20 - length d) 0) a s.

Definition HashMem (buffer : bytes) (any_digest : any) : outcome any :=
  let a := algorithm any_digest in
  c ← Init a;
  Ret (Final (update c buffer) a (suffix any_digest)).

(** The results of successive [read] calls. *)
Inductive read_result := ReadBytes (b : bytes) | ReadEintr | ReadError.

(** The loop of [HashFd]; the empty read is the end of the file. *)
Fixpoint hash_reads (c : context) (reads : list read_result) : option context :=
  match reads with
  | [] | ReadBytes [] :: _ => Some c
  | ReadBytes b :: reads => hash_reads (update c b) reads
  | ReadEintr :: reads => hash_reads c reads
  | ReadError :: _ => None
  end.

Definition HashFd (reads : list read_result) (any_digest : any) : outcome (option any) :=
  let a := algorithm any_digest in
  c ← Init a;
  Ret ((λ c, Final c a (suffix any_digest)) <$> hash_reads c reads).

Definition kBlockSizes (a : Algorithms) : Z :=
  match a with kShake128 => 168 | _ => 64 end.

(** [memset] of the key block, then the key or its hash at its start. *)
Definition hmac_key_block (a : Algorithms) (key : bytes) : outcome bytes :=
  let block_size := kBlockSizes a in
  let zero := replicate (Z.to_nat block_size) 0 in
  if zlen key >? block_size then
    hash_key ← HashMem key (Any (replicate 20 0) a kSuffixNone);
    d ← load (digest hash_key) 0 (kDigestSizes a);
    store zero 0 d
  else if zlen key >? 0 then store zero 0 key
  else Ret zero.

Definition pad_block (key_block : bytes) (x : Z) : bytes := (λ b, Z.lxor b x) <$> key_block.

Definition Hmac (key buffer : bytes) (any_digest : any) : outcome any :=
  let a := algorithm any_digest in
  _ ← cassert (bool_decide (a ≠ kAny));
  key_block ← hmac_key_block a key;
  inner ← Init a;
  let hash_inner := Final (update (update inner (pad_block key_block 54)) buffer) a kSuffixNone in
  outer ← Init a;
  d ← load (digest hash_inner) 0 (kDigestSizes a);
  Ret (Final (update (update outer (pad_block key_block 92)) d) a (suffix any_digest)).

(** The documented behaviour of the contexts: hashing in pieces is hashing the
    whole, and the digest has the size of the algorithm. *)
Context (H : Algorithms → bytes → bytes).
Context (H_pieces : ∀ a pieces, a ≠ kAny → final (foldl update (init a) pieces) = H a (concat pieces)).
Context (H_size : ∀ a m, a ≠ kAny → zlen (H a m) = kDigestSizes a).

Definition hash_of (a : Algorithms) (s : Z) (m : bytes) : any := padded (H a m) a s.

Lemma Final_ok a s pieces : a ≠ kAny →
  Final (foldl update (init a) pieces) a s = hash_of a s (concat pieces).
Proof. intros Ha. unfold Final. by rewrite H_pieces. Qed.

Lemma load_hash a s m : a ≠ kAny →
  load (digest (hash_of a s m)) 0 (kDigestSizes a) = Ret (H a m).
Proof.
  intros Ha. apply (load_app [] (H a m)); [done|]. symmetry. by apply H_size.
Qed.

Lemma hash_reads_ok reads b : b = concat (omap (λ r, match r with ReadBytes b => Some b | _ => None end) reads) →
  Forall (λ r, r ≠ ReadError ∧ r ≠ ReadBytes []) reads →
  ∀ a pieces, a ≠ kAny →
  ∃ c, hash_reads (foldl update (init a) pieces) reads = Some c ∧
    ∀ s, Final c a s = hash_of a s (concat pieces ++ b).
Proof.
  intros ->. induction reads as [|r reads IH]; intros Hall a pieces Ha; cbn [hash_reads].
  { eexists. split; [done|]. intros s. by rewrite Final_ok, app_nil_r. }
  apply Forall_cons in Hall as [[He Hn] Hall]. destruct r as [[|x b]| |]; try done.
  - specialize (IH Hall a (pieces ++ [x :: b]) Ha). rewrite foldl_app in IH. cbn [foldl] in IH.
    destruct IH as (c & Hc & Hf). exists c. split; [done|]. intros s. rewrite Hf.
    rewrite concat_app. cbn. by rewrite app_nil_r, <- app_assoc.
  - by apply IH.
Qed.

(** Hashing a file gives the hash of its contents, however
    the [read] calls split it and are interrupted; a read error gives no
    hash. *)
Theorem hash_file_is_hash_of_contents reads d : algorithm d ≠ kAny →
  Forall (λ r, r ≠ ReadError ∧ r ≠ ReadBytes []) reads →
  (∃ h, HashFd reads d = Ret (Some h) ∧
     HashMem (concat (omap (λ r, match r with ReadBytes b => Some b | _ => None end) reads)) d
     = Ret h) ∧
  HashFd (reads ++ [ReadError]) d = Ret None.
Proof.
  intros Ha Hall. unfold HashFd, HashMem, Init. rewrite decide_False by done. exec. split.
  - destruct (hash_reads_ok reads _ eq_refl Hall (algorithm d) [] Ha) as (c & Hc & Hf).
    cbn [foldl] in Hc. rewrite Hc. eexists. split; [done|]. f_equal. rewrite Hf. cbn [concat app].
    match goal with |- Final (update _ ?m) _ _ = _ =>
      pose proof (Final_ok (algorithm d) (suffix d) [m] Ha) as HF end.
    cbn [foldl concat] in HF. by rewrite HF, app_nil_r.
  - do 2 f_equal. generalize (init (algorithm d)). induction Hall as [|r reads [He Hn] Hall IH];
      intros c; [done|]. destruct r as [[|x b]| |]; try done; cbn; apply IH.
Qed.

(** The key padded to a block as in RFC 2104. *)
Definition rfc2104_key (a : Algorithms) (key : bytes) : bytes :=
  let k := if zlen key >? kBlockSizes a then H a key else key in
  k ++ replicate (Z.to_nat (kBlockSizes a) - length k) 0.

Lemma store_zeros n (b : bytes) : zlen b ≤ Z.of_nat n →
  store (replicate n 0) 0 b = Ret (b ++ replicate (n - length b) 0).
Proof.
  intros Hb. unfold zlen in Hb. replace (replicate n 0) with
    ([] ++ replicate (length b) 0 ++ replicate (n - length b) 0).
  - rewrite (store_app []) by (done || by rewrite length_replicate). done.
  - cbn. rewrite <- replicate_add. f_equal. lia.
Qed.

Lemma hmac_key_block_ok a key : a ≠ kAny → hmac_key_block a key = Ret (rfc2104_key a key).
Proof.
  intros Ha. unfold hmac_key_block, rfc2104_key.
  assert (20 ≤ kBlockSizes a) by (by destruct a).
  pose proof (digest_size_bounds a). destruct (zlen key >? kBlockSizes a) eqn:Hk.
  - unfold HashMem. cbn [algorithm suffix]. unfold Init. rewrite decide_False by done. exec.
    rewrite (Final_ok a kSuffixNone [key] Ha : Final (update (init a) key) a kSuffixNone = _).
    cbn [concat]. rewrite app_nil_r, load_hash by done. exec.
    rewrite store_zeros by (rewrite H_size by done; lia). done.
  - rewrite Z.gtb_ltb in *. apply Z.ltb_ge in Hk. destruct (Z.ltb_spec 0 (zlen key)).
    + rewrite store_zeros by lia. done.
    + destruct key; [|unfold zlen in *; cbn in *; lia]. cbn [app length]. by rewrite Nat.sub_0_r.
Qed.

End Hashing.

Module HashWitness.
Definition sample (k : Z) (a : Algorithms) : any := Any (seqZ k 20) a 67.

Lemma sample_ok k a : 0 ≤ k ≤ 200 → a ≠ kAny → any_ok (sample k a).
Proof.
  intros Hk Ha. split; cbn; try done.
  - unfold bytes_ok. apply Forall_forall. intros x Hx%elem_of_seqZ. unfold is_u8. lia.
Qed.

Lemma hash_print_parse_witness :
  let h := sample 7 kShake128 in
  ∃ s s' h1 h2, ToString h false = Ret s ∧ IsValid s = true ∧
    MkFromHexPtr s (suffix h) = Ret h1 ∧ any_eq h1 h = true ∧ suffix h1 = suffix h ∧
    ToStringWithSuffix h = Ret s' ∧
    MkFromSuffixedHexPtr s' = Ret h2 ∧ any_eq h2 h = true ∧ suffix h2 = suffix h.
Proof. apply (hash_print_parse (sample 7 kShake128)), sample_ok; [lia|discriminate]. Defined.

(** "0a" repeated, a SHA-1 hash *)
Definition sha1_text : bytes := concat (replicate 20 [48; 97]).

Lemma hash_parse_print_witness :
  ∃ h, MkFromHexPtr sha1_text kSuffixNone = Ret h ∧ ToString h false = Ret sha1_text ∧ any_ok h.
Proof.
  apply (hash_parse_print sha1_text).
  - unfold sha1_text. cbn. repeat (constructor; [done|]). constructor.
  - vm_compute. reflexivity.
Defined.

Lemma make_path_splits_witness :
  ∃ d1 d2 rest, ToStringWithSuffix (sample 0 kMd5) = Ret (d1 :: d2 :: rest) ∧
    MakePath (sample 0 kMd5) = Ret (d1 :: d2 :: 47 :: rest).
Proof. apply (make_path_splits (sample 0 kMd5)), sample_ok; [lia|discriminate]. Defined.

Lemma hash_order_witness :
  let h1 := sample 1 kSha1 in let h2 := sample 2 kSha1 in let h3 := sample 0 kRmd160 in
  any_lt h1 h1 = false ∧
  (any_lt h1 h2 = true → any_lt h2 h3 = true → any_lt h1 h3 = true) ∧
  (any_lt h1 h2 = true ∨ any_eq h1 h2 = true ∨ any_lt h2 h1 = true) ∧
  (any_eq h1 h2 = true ↔ algorithm h1 = algorithm h2 ∧ significant h1 = significant h2).
Proof. apply (hash_order (sample 1 kSha1) (sample 2 kSha1) (sample 0 kRmd160));
  apply sample_ok; lia || discriminate. Defined.

(** A checksum in the place of the hash functions. *)
Definition checksum (a : Algorithms) (m : bytes) : bytes :=
  replicate (Z.to_nat (kDigestSizes a)) (u8 (foldr Z.add 0 m)).
Definition ck_init (a : Algorithms) : Algorithms * bytes := (a, []).
Definition ck_update (c : Algorithms * bytes) (b : bytes) : Algorithms * bytes := (c.1, c.2 ++ b).
Definition ck_final (c : Algorithms * bytes) : bytes := checksum c.1 c.2.

Lemma ck_pieces a pieces : a ≠ kAny →
  ck_final (foldl ck_update (ck_init a) pieces) = checksum a (concat pieces).
Proof.
  intros _. change (concat pieces) with ((ck_init a).2 ++ concat pieces).
  change a with (ck_init a).1 at 2. generalize (ck_init a).
  induction pieces as [|p pieces IH]; intros c; cbn [foldl concat].
  - by rewrite app_nil_r.
  - rewrite IH. cbn [ck_update fst snd]. by rewrite <- app_assoc.
Qed.

Lemma ck_size a m : a ≠ kAny → zlen (checksum a m) = kDigestSizes a.
Proof. intros _. unfold checksum, zlen. rewrite length_replicate. by destruct a. Qed.

Definition the_reads : list read_result := [ReadBytes [1; 2]; ReadEintr; ReadBytes [3]].

Lemma hash_file_is_hash_of_contents_witness :
  (∃ h, HashFd ck_init ck_update ck_final the_reads (sample 0 kSha1) = Ret (Some h) ∧
     HashMem ck_init ck_update ck_final [1; 2; 3] (sample 0 kSha1) = Ret h) ∧
  HashFd ck_init ck_update ck_final (the_reads ++ [ReadError]) (sample 0 kSha1) = Ret None.
Proof.
  apply (hash_file_is_hash_of_contents ck_init ck_update ck_final checksum ck_pieces
           the_reads (sample 0 kSha1)).
  - discriminate.
  - repeat (constructor; [split; discriminate|]). constructor.
Defined.

End HashWitness.
