(* ===== verification/KvStore.v ===== *)
(** * The in-memory key-value store (src/cvmfs/kvstore.cc, kvstore.h)

    [MemoryKvStore] keeps objects under their content hash: an LRU cache maps
    the hash to a [MemoryBuffer] that points to the object's memory, which
    comes from libc's [malloc] or from a [MallocHeap].  Objects in the heap
    start with a header that names their hash so that [OnBlockMove] can follow
    a compaction.  The store refines a list of objects from the least to the
    most recently used one. *)

From stdpp Require Import base numbers list gmap.
From Corelib Require Import SpecFloat.
From S2P Require Import Prelude Interfaces LruList LruCache Bytes Hash MallocHeap.

Open Scope Z_scope.

(** ** Keys: hashes up to [operator ==] *)

Definition hkey : Type := Algorithms * bytes.

#[export] Instance Algorithms_countable : Countable Algorithms.
Proof.
  refine (inj_countable' (λ a, match a with kMd5 => 0 | kSha1 => 1 | kRmd160 => 2
                               | kShake128 => 3 | kAny => 4 end)
    (λ n, match n with 0 => kMd5 | 1 => kSha1 | 2 => kRmd160 | 3 => kShake128 | _ => kAny end) _).
  by intros [].
Defined.

Definition key_of (id : any) : hkey := (algorithm id, significant id).

Definition null_key : hkey := key_of null_any.

(** [hasher_any]: the second word of the digest *)
Definition hasher_any (k : hkey) : Z := le_decode (take 4 (drop 4 k.2)).

(** ** [AllocHeader]: a version byte and the hash, in the layout of the ABI *)

Definition sizeof_AllocHeader : Z := 32.

Definition alloc_header (id : any) : bytes :=
  [0; 0; 0; 0] ++ digest id ++ le_encode 4 (alg_code (algorithm id)) ++ [suffix id; 0; 0; 0].

Definition alg_of_code (c : Z) : Algorithms :=
  match c with 0 => kMd5 | 1 => kSha1 | 2 => kRmd160 | 3 => kShake128 | _ => kAny end.

(** Version and hash of a header. *)
Definition read_header (b : bytes) : outcome (Z * any) :=
  version ← rd b 0;
  d ← load b 4 20;
  a ← load b 24 4;
  s ← rd b 28;
  Ret (version, Any d (alg_of_code (le_decode a)) s).

(** ** State *)

Record MemoryBuffer := MkBuffer {
  address : option Z;
  bsize : Z;
  refcount : Z;
  object_flags : Z;
  bid : any
}.

Definition null_buffer : MemoryBuffer := MkBuffer None 0 0 0 null_any.

(** The object memory: blocks of libc's allocator by address, or the heap. *)
Inductive objmem := LibcMem (blocks : gmap Z bytes) | HeapMem (h : malloc_heap).

Inductive kv_counter :=
| kv_sz_size | kv_n_getsize | kv_n_getrefcount | kv_n_incref | kv_n_unref | kv_n_read
| kv_n_commit | kv_n_delete | kv_n_shrinkto | kv_sz_read | kv_sz_committed | kv_sz_deleted
| kv_sz_shrunk.

#[export] Instance kv_counter_eq_dec : EqDecision kv_counter.
Proof. solve_decision. Defined.

Definition kv_xadd (c : kv_counter → Z) (i : kv_counter) (n : Z) : kv_counter → Z :=
  λ x, if decide (x = i) then i64 (c x + n) else c x.
Definition kv_set (c : kv_counter → Z) (i : kv_counter) (n : Z) : kv_counter → Z :=
  λ x, if decide (x = i) then i64 n else c x.

Definition SSIZE_MAX : Z := 2 ^ 63 - 1.
Definition UINT_MAX : Z := 2 ^ 32 - 1.
Definition ENOMEM : Z := 12.

Section KvStore.
Context {M : Type} `{!BoundedMap hkey (cache_entry MemoryBuffer) M}.
(** [malloc] of libc: the address of a new block, or failure. *)
Context (malloc : gmap Z bytes → Z → option Z).
Context (sizeof_Entry : Z).

Record kvstore := MkKv {
  used_bytes_ : Z;
  entry_count_ : Z;
  max_entries_ : Z;
  entries_ : lru hkey M;
  mem_ : objmem;
  kv_counters_ : kv_counter → Z
}.

Definition kv_set_entries (s : kvstore) (l : lru hkey M) : kvstore :=
  MkKv (used_bytes_ s) (entry_count_ s) (max_entries_ s) l (mem_ s) (kv_counters_ s).
Definition kv_set_mem (s : kvstore) (m : objmem) : kvstore :=
  MkKv (used_bytes_ s) (entry_count_ s) (max_entries_ s) (entries_ s) m (kv_counters_ s).
Definition kv_count (s : kvstore) (i : kv_counter) (n : Z) : kvstore :=
  MkKv (used_bytes_ s) (entry_count_ s) (max_entries_ s) (entries_ s) (mem_ s)
    (kv_xadd (kv_counters_ s) i n).
Definition kv_inc (s : kvstore) (i : kv_counter) : kvstore := kv_count s i 1.
(** Assignment to [used_bytes_] and the counter [sz_size] that follows it. *)
Definition kv_set_used (s : kvstore) (n : Z) : kvstore :=
  MkKv n (entry_count_ s) (max_entries_ s) (entries_ s) (mem_ s)
    (kv_set (kv_counters_ s) kv_sz_size n).
Definition kv_set_entry_count (s : kvstore) (n : Z) : kvstore :=
  MkKv (used_bytes_ s) n (max_entries_ s) (entries_ s) (mem_ s) (kv_counters_ s).

Inductive MemoryAllocator := kMallocLibc | kMallocHeap.

(** The constructor; [alloc_size] is an [unsigned]. *)
Definition KvInit (cache_entries : Z) (alloc : MemoryAllocator) (alloc_size : Z)
    : outcome kvstore :=
  l ← LruInit null_key sizeof_Entry cache_entries;
  m ← match alloc with
      | kMallocHeap => h ← HeapInit (u32 alloc_size); Ret (HeapMem h)
      | kMallocLibc => Ret (LibcMem ∅)
      end;
  Ret (MkKv 0 0 cache_entries l m (λ _, 0)).

(** The callback of the heap's compaction. *)
Definition OnBlockMove (l : lru hkey M) (heap : bytes) (pointer : Z) : outcome (lru hkey M) :=
  a ← load heap pointer sizeof_AllocHeader;
  '(version, a_id) ← read_header a;
  _ ← cassert (version =? 0);
  '(l, r) ← Lookup l (key_of a_id) false;
  match r with
  | None => Fail AssertFailed
  | Some buf =>
      let buf := MkBuffer (Some (pointer + sizeof_AllocHeader)) (bsize buf) (refcount buf)
                   (object_flags buf) (bid buf) in
      '(l, ok) ← UpdateValue l (key_of (bid buf)) buf;
      _ ← cassert ok;
      Ret l
  end.

Definition Contains (s : kvstore) (i : any) : outcome (kvstore * bool) :=
  '(l, r) ← Lookup (entries_ s) (key_of i) false;
  Ret (kv_set_entries s l, bool_decide (is_Some r)).

(** [DoMalloc]: an error code or the buffer with its new address. *)
Definition DoMalloc (m : objmem) (buf : MemoryBuffer) : outcome (objmem * (Z + MemoryBuffer)) :=
  let with_address a := MkBuffer a (bsize buf) (refcount buf) (object_flags buf) (bid buf) in
  if bsize buf >? 0 then
    match m with
    | LibcMem blocks =>
        match malloc blocks (bsize buf) with
        | None => Ret (m, inl (- ENOMEM))
        | Some a =>
            Ret (LibcMem (<[a := replicate (Z.to_nat (bsize buf)) 0]> blocks),
                 inr (with_address (Some a)))
        end
    | HeapMem h =>
        '(h, p) ← Allocate h (u64 (bsize buf + sizeof_AllocHeader)) (alloc_header (bid buf));
        match p with
        | None => Ret (HeapMem h, inl (- ENOMEM))
        | Some a => Ret (HeapMem h, inr (with_address (Some (a + sizeof_AllocHeader))))
        end
    end
  else Ret (m, inr (with_address None)).

Definition DoFree (m : objmem) (buf : MemoryBuffer) : outcome objmem :=
  match address buf with
  | None => Ret m
  | Some a =>
      match m with
      | LibcMem blocks =>
          match blocks !! a with
          | Some _ => Ret (LibcMem (delete a blocks))
          | None => Fail OutOfBounds
          end
      | HeapMem h => h ← MarkFree h (a - sizeof_AllocHeader); Ret (HeapMem h)
      end
  end.

(** [memcpy] to and from object memory. *)
Definition mem_write (m : objmem) (a : option Z) (b : bytes) : outcome objmem :=
  match b, a with
  | [], _ => Ret m
  | _, None => Fail OutOfBounds
  | _, Some a =>
      match m with
      | LibcMem blocks =>
          match blocks !! a with
          | Some old => c ← store old 0 b; Ret (LibcMem (<[a := c]> blocks))
          | None => Fail OutOfBounds
          end
      | HeapMem h =>
          c ← store (heap_ h) a b;
          Ret (HeapMem (MallocHeap (capacity_ h) (gauge_ h) (stored_ h) (num_blocks_ h) c))
      end
  end.

Definition mem_read (m : objmem) (a : option Z) (off n : Z) : outcome bytes :=
  if n =? 0 then Ret []
  else match a with
  | None => Fail OutOfBounds
  | Some a =>
      match m with
      | LibcMem blocks =>
          match blocks !! a with Some b => load b off n | None => Fail OutOfBounds end
      | HeapMem h => load (heap_ h) (a + off) n
      end
  end.

(** The literal 0.8 *)
Definition kCompactThreshold : double := S754_finite false 7205759403792794 (-53).

Definition CompactMemory (s : kvstore) : outcome (kvstore * bool) :=
  match mem_ s with
  | HeapMem h =>
      let u := utilization h in
      if SFltb u kCompactThreshold then
        '(h, l) ← Compact OnBlockMove h (entries_ s);
        Ret (kv_set_mem (kv_set_entries s l) (HeapMem h), SFltb u (utilization h))
      else Ret (s, false)
  | LibcMem _ => Ret (s, false)
  end.

Definition GetSize (s : kvstore) (i : any) : outcome (kvstore * Z) :=
  let s := kv_inc s kv_n_getsize in
  '(l, r) ← Lookup (entries_ s) (key_of i) false;
  Ret (kv_set_entries s l, match r with Some mem => i64 (bsize mem) | None => - ENOENT end).

Definition GetRefcount (s : kvstore) (i : any) : outcome (kvstore * Z) :=
  let s := kv_inc s kv_n_getrefcount in
  '(l, r) ← Lookup (entries_ s) (key_of i) false;
  Ret (kv_set_entries s l, match r with Some mem => refcount mem | None => - ENOENT end).

Definition set_refcount (b : MemoryBuffer) (n : Z) : MemoryBuffer :=
  MkBuffer (address b) (bsize b) n (object_flags b) (bid b).

Definition IncRef (s : kvstore) (i : any) : outcome (kvstore * bool) :=
  let s := kv_inc s kv_n_incref in
  '(l, r) ← Lookup (entries_ s) (key_of i) true;
  match r with
  | Some mem =>
      _ ← cassert (refcount mem <? UINT_MAX);
      let mem := set_refcount mem (u32 (refcount mem + 1)) in
      '(l, _) ← Insert l (key_of i) mem;
      Ret (kv_set_entries s l, true)
  | None => Ret (kv_set_entries s l, false)
  end.

Definition Unref (s : kvstore) (i : any) : outcome (kvstore * bool) :=
  let s := kv_inc s kv_n_unref in
  '(l, r) ← Lookup (entries_ s) (key_of i) true;
  match r with
  | Some mem =>
      _ ← cassert (refcount mem >? 0);
      let mem := set_refcount mem (u32 (refcount mem - 1)) in
      '(l, _) ← Insert l (key_of i) mem;
      Ret (kv_set_entries s l, true)
  | None => Ret (kv_set_entries s l, false)
  end.

(** [Read]: the number of bytes and the bytes copied to the caller. *)
Definition Read (s : kvstore) (i : any) (n offset : Z) : outcome (kvstore * Z * bytes) :=
  let s := kv_inc s kv_n_read in
  '(l, r) ← Lookup (entries_ s) (key_of i) true;
  let s := kv_set_entries s l in
  match r with
  | None => Ret (s, - ENOENT, [])
  | Some mem =>
      if offset >? bsize mem then Ret (s, 0, [])
      else
        let copy_size := Z.min (bsize mem - offset) n in
        b ← mem_read (mem_ s) (address mem) offset copy_size;
        Ret (kv_count s kv_sz_read copy_size, i64 copy_size, b)
  end.

(** The second half of [DoCommit], once [mem] describes the new object;
    [data] is the memory of the transaction buffer. *)
Definition commit_store (s : kvstore) (mem : MemoryBuffer) (data : bytes)
    : outcome (kvstore * Z) :=
  if entry_count_ s =? max_entries_ s then Ret (s, - ENFILE)
  else
    '(m, res) ← DoMalloc (mem_ s) mem;
    let s := kv_set_mem s m in
    match res with
    | inl _ => Ret (s, - EIO)
    | inr mem =>
        _ ← cassert (u64 (SSIZE_MAX - bsize mem) >? used_bytes_ s);
        b ← load data 0 (bsize mem);
        m ← mem_write (mem_ s) (address mem) b;
        let s := kv_set_mem s m in
        '(l, _) ← Insert (entries_ s) (key_of (bid mem)) mem;
        let s := kv_set_entries s l in
        let s := kv_set_entry_count s (u32 (entry_count_ s + 1)) in
        let s := kv_set_used s (u64 (used_bytes_ s + bsize mem)) in
        Ret (kv_count s kv_sz_committed (bsize mem), 0)
    end.

Definition DoCommit (s : kvstore) (buf : MemoryBuffer) (data : bytes) : outcome (kvstore * Z) :=
  '(s, _) ← CompactMemory s;
  let s := kv_inc s kv_n_commit in
  '(l, r) ← Lookup (entries_ s) (key_of (bid buf)) true;
  let s := kv_set_entries s l in
  '(s, ref) ← match r with
      | Some mem =>
          m ← DoFree (mem_ s) mem;
          let s := kv_set_mem s m in
          let s := kv_set_used s (u64 (used_bytes_ s - bsize mem)) in
          Ret (kv_set_entry_count s (u32 (entry_count_ s - 1)), refcount mem)
      | None => Ret (s, refcount buf)
      end;
  commit_store s (MkBuffer None (bsize buf) ref (object_flags buf) (bid buf)) data.

Definition DoDelete (s : kvstore) (i : any) : outcome (kvstore * bool) :=
  '(l, r) ← Lookup (entries_ s) (key_of i) true;
  let s := kv_set_entries s l in
  match r with
  | None => Ret (s, false)
  | Some buf =>
      if refcount buf >? 0 then Ret (s, false)
      else
        _ ← cassert (entry_count_ s >? 0);
        let s := kv_set_entry_count s (u32 (entry_count_ s - 1)) in
        let s := kv_set_used s (u64 (used_bytes_ s - bsize buf)) in
        let s := kv_count s kv_sz_deleted (bsize buf) in
        m ← DoFree (mem_ s) buf;
        let s := kv_set_mem s m in
        '(l, _) ← Forget (entries_ s) (key_of i);
        Ret (kv_set_entries s l, true)
  end.

Definition Delete (s : kvstore) (i : any) : outcome (kvstore * bool) :=
  DoDelete (kv_inc s kv_n_delete) i.

(** The loop of [ShrinkTo]. *)
Fixpoint shrink_loop (fuel : nat) (s : kvstore) (target : Z) : outcome kvstore :=
  match fuel with
  | O => Fail OutOfFuel
  | S fuel =>
      '(l, more) ← FilterNext (entries_ s);
      let s := kv_set_entries s l in
      if negb more then Ret s
      else if used_bytes_ s <=? target then Ret s
      else
        '(_, buf) ← FilterGet (entries_ s);
        if refcount buf >? 0 then shrink_loop fuel s target
        else
          _ ← cassert (entry_count_ s >? 0);
          let s := kv_set_entry_count s (u32 (entry_count_ s - 1)) in
          l ← FilterDelete (entries_ s);
          let s := kv_set_entries s l in
          let used := u64 (used_bytes_ s - bsize buf) in
          let s := kv_set_used (kv_count s kv_sz_shrunk (bsize buf)) used in
          m ← DoFree (mem_ s) buf;
          shrink_loop fuel (kv_set_mem s m) target
  end.

Definition ShrinkTo (s : kvstore) (target : Z) : outcome (kvstore * bool) :=
  let s := kv_inc s kv_n_shrinkto in
  if used_bytes_ s <=? target then Ret (s, true)
  else
    l ← FilterBegin (entries_ s);
    s ← shrink_loop (S (Z.to_nat (cache_gauge_ l))) (kv_set_entries s l) target;
    l ← FilterEnd (entries_ s);
    let s := kv_set_entries s l in
    Ret (s, used_bytes_ s <=? target).
End KvStore.
Arguments kvstore : clear implicits.

(** ** Object memory *)

(** The bytes of an object, and in a heap the rest of its block. *)
Record gobj := GObj { g_buf : MemoryBuffer; g_data : bytes; g_tail : bytes }.

Definition gobj_ok (k : hkey) (g : gobj) : Prop :=
  key_of (bid (g_buf g)) = k ∧ any_ok (bid (g_buf g)) ∧
  bsize (g_buf g) = zlen (g_data g) ∧ is_u32 (refcount (g_buf g)) ∧
  (address (g_buf g) = None ↔ g_data g = []).

Notation objects := (list (hkey * gobj)).

(** The heap blocks and the libc blocks of objects. *)
Definition heap_block (kg : hkey * gobj) : option (Z * bytes) :=
  let g := kg.2 in
  (λ a, (a - 32, alloc_header (bid (g_buf g)) ++ g_data g ++ g_tail g)) <$> address (g_buf g).
Definition libc_block (kg : hkey * gobj) : option (Z * bytes) :=
  (λ a, (a, g_data kg.2)) <$> address (g_buf kg.2).

Definition mem_rep (m : objmem) (G : objects) : Prop :=
  match m with
  | HeapMem h => ∃ bs, heap_ok h bs ∧ omap heap_block G ≡ₚ addrs 0 bs
  | LibcMem blocks =>
      NoDup (omap libc_block G).*1 ∧ blocks = list_to_map (omap libc_block G)
  end.

Lemma length_alloc_header i : any_ok i → length (alloc_header i) = 32%nat.
Proof.
  intros [Hl _ _ _]. unfold alloc_header. rewrite !length_app, length_le_encode, Hl. done.
Qed.

Lemma alg_of_code_ok a : alg_of_code (alg_code a) = a.
Proof. by destruct a. Qed.

Lemma read_alloc_header i : any_ok i → read_header (alloc_header i) = Ret (0, i).
Proof.
  intros [Hl _ _ _]. unfold read_header.
  change (rd (alloc_header i) 0) with (Ret (A := Z) 0). exec. unfold alloc_header.
  rewrite (load_app [0; 0; 0; 0] (digest i) _ 4 20) by (done || (unfold zlen; rewrite Hl; done)). exec.
  rewrite app_assoc, (load_app ([0; 0; 0; 0] ++ digest i) (le_encode 4 _) _ 24 4).
  2:{ unfold zlen. by rewrite length_app, Hl. }
  2:{ unfold zlen. by rewrite length_le_encode. }
  exec. rewrite app_assoc, (rd_Some _ 28 (suffix i)).
  2:{ assert (∀ x, zlen (([0; 0; 0; 0] ++ digest i) ++ le_encode 4 x) = 28) as Hz
        by (intros; unfold zlen; rewrite !length_app, length_le_encode, Hl; done).
      rewrite lget_app, Hz. done. }
  exec. rewrite le_decode_encode, Z.mod_small.
  - rewrite alg_of_code_ok. by destruct i.
  - destruct (algorithm i); cbn; lia.
Qed.

Lemma mem_rep_perm m G G' : G ≡ₚ G' → mem_rep m G → mem_rep m G'.
Proof.
  intros Hp. destruct m as [blocks|h]; cbn.
  - intros [Hnd ->]. assert (omap libc_block G ≡ₚ omap libc_block G') as Hp'
      by by apply omap_Permutation. split; [by rewrite <- Hp'|]. by apply list_to_map_proper.
  - intros (bs & Hok & Hbs). exists bs. split; [done|]. by rewrite <- Hp.
Qed.

(** The memory only depends on address, hash and contents of the objects. *)
Lemma mem_rep_same m G1 k g g' G2 : heap_block (k, g') = heap_block (k, g) →
  libc_block (k, g') = libc_block (k, g) →
  mem_rep m (G1 ++ (k, g) :: G2) → mem_rep m (G1 ++ (k, g') :: G2).
Proof.
  intros Hh Hl. unfold mem_rep. rewrite !omap_app. cbn [omap list_omap]. by rewrite Hh, Hl.
Qed.

(** A reserved block by its address. *)
Lemma addrs_elem off bs a c : (a, c) ∈ addrs off bs →
  ∃ bs1 bs2, bs = bs1 ++ Block false c :: bs2 ∧ a = off + zlen (encode bs1) + 8.
Proof.
  revert off. induction bs as [|[f p] bs IH]; intros off; cbn [addrs free payload].
  { by intros ?%elem_of_nil. }
  intros [Hin|Hin]%elem_of_app.
  - destruct f; [by apply elem_of_nil in Hin|]. apply list_elem_of_singleton in Hin as [= -> ->].
    exists [], bs. split; [done|]. change (zlen (encode [])) with 0. lia.
  - destruct (IH _ Hin) as (bs1 & bs2 & -> & ->). exists (Block f p :: bs1), bs2.
    split; [done|]. rewrite zlen_encode_cons. cbn [payload]. lia.
Qed.

Lemma addrs_split off bs1 b bs2 : addrs off (bs1 ++ b :: bs2)
  = addrs off bs1 ++ addrs (off + zlen (encode bs1)) [b]
    ++ addrs (off + zlen (encode bs1) + 8 + zlen (payload b)) bs2.
Proof. rewrite addrs_app. cbn [addrs app]. by rewrite app_nil_r. Qed.

Lemma omap_split {A B} (f : A → option B) G1 x G2 :
  omap f (G1 ++ x :: G2) = omap f G1 ++ match f x with Some y => [y] | None => [] end ++ omap f G2.
Proof. rewrite omap_app. cbn. by destruct (f x). Qed.

(** Freeing a block of the heap given by its address. *)
Lemma heap_free h bs l1 a c l2 : heap_ok h bs → l1 ++ (a, c) :: l2 ≡ₚ addrs 0 bs →
  ∃ h' bs', MarkFree h a = Ret h' ∧ heap_ok h' bs' ∧ l1 ++ l2 ≡ₚ addrs 0 bs' ∧
    MarkFree h' a = Fail AssertFailed.
Proof.
  intros Hok Hp. assert ((a, c) ∈ addrs 0 bs) as Hin.
  { rewrite <- Hp. apply elem_of_app. right. by left. }
  destruct (addrs_elem _ _ _ _ Hin) as (bs1 & bs2 & -> & ->).
  destruct (MarkFree_ok _ _ _ _ Hok) as (h' & Hf & Hok' & _). rewrite Z.add_0_l in *.
  exists h', (bs1 ++ Block true c :: bs2). split_and!; try done.
  - rewrite addrs_split in *. cbn [addrs free payload app] in *. rewrite Z.add_0_l in *.
    apply (Permutation_cons_inv (a := (zlen (encode bs1) + 8, c))).
    by rewrite !Permutation_middle.
  - by eapply MarkFree_twice.
Qed.

(** Memory can be released once. *)
Lemma DoFree_ok m G1 k g G2 : mem_rep m (G1 ++ (k, g) :: G2) →
  ∃ m', DoFree m (g_buf g) = Ret m' ∧ mem_rep m' (G1 ++ G2) ∧
    (address (g_buf g) ≠ None → ∃ f, DoFree m' (g_buf g) = Fail f).
Proof.
  intros Hm. unfold DoFree.
  pose proof (omap_split libc_block G1 (k, g) G2) as HL.
  pose proof (omap_split heap_block G1 (k, g) G2) as HH.
  unfold libc_block at 3 in HL. unfold heap_block at 3 in HH. cbn [snd] in HL, HH.
  destruct (address (g_buf g)) as [a|]; cbn [fmap option_fmap option_map app] in HL, HH.
  2:{ exists m. split; [done|]. split; [|done]. unfold mem_rep in *.
      by rewrite HL, HH, <- !omap_app in Hm. }
  destruct m as [blocks|h]; cbn [mem_rep] in *; rewrite ?HL, ?HH in Hm.
  - destruct Hm as [Hnd ->].
    assert (list_to_map (omap libc_block G1 ++ (a, g_data g) :: omap libc_block G2)
      = <[a := g_data g]> (list_to_map (omap libc_block G1 ++ omap libc_block G2) : gmap Z bytes)) as Heq.
    { rewrite <- list_to_map_cons. apply list_to_map_proper; [done|].
      by rewrite Permutation_middle. }
    rewrite Heq, lookup_insert_eq. eexists. split; [done|]. cbn [mem_rep]. rewrite omap_app.
    rewrite fmap_app, fmap_cons in Hnd. cbn [fst] in Hnd.
    assert (a ∉ ((omap libc_block G1).*1 ++ (omap libc_block G2).*1)) as Ha.
    { apply NoDup_app in Hnd as (_ & Hdis & [? _]%NoDup_cons).
      intros [Hin|?]%elem_of_app; [|done]. apply (Hdis a Hin). by left. }
    split_and!.
    + rewrite fmap_app. apply NoDup_app in Hnd as (? & Hdis & [_ ?]%NoDup_cons).
      apply NoDup_app. split_and!; try done. intros x Hx1 Hx2. apply (Hdis x Hx1). by right.
    + rewrite delete_insert_id; [done|]. apply not_elem_of_list_to_map_1. by rewrite fmap_app.
    + intros _. rewrite lookup_delete_eq. by eexists.
  - destruct Hm as (bs & Hok & Hp). unfold sizeof_AllocHeader.
    destruct (heap_free _ _ _ _ _ _ Hok Hp) as (h' & bs' & -> & Hok' & Hp' & Htw).
    eexists. split; [done|]. split; [exists bs'; split; [done|]; by rewrite omap_app|].
    intros _. rewrite Htw. by eexists.
Qed.

Lemma heap_update h bs1 hd old new tl bs2 :
  heap_ok h (bs1 ++ Block false (hd ++ old ++ tl) :: bs2) → length new = length old →
  ∃ c, store (heap_ h) (zlen (encode bs1) + 8 + zlen hd) new = Ret c ∧
    heap_ok (MallocHeap (capacity_ h) (gauge_ h) (stored_ h) (num_blocks_ h) c)
      (bs1 ++ Block false (hd ++ new ++ tl) :: bs2).
Proof.
  intros [[rest Hm] Hg Hl Hc Hbs Hst Hn] Hlen.
  assert (zlen (hd ++ new ++ tl) = zlen (hd ++ old ++ tl)) as Hz
    by (unfold zlen; rewrite !length_app; lia).
  assert (zlen new = zlen old) as Hzn by (unfold zlen; lia).
  set (t := le_encode 8 (zlen (hd ++ old ++ tl))).
  assert (∀ b, encode (bs1 ++ Block false (hd ++ b ++ tl) :: bs2) ++ rest
    = (encode bs1 ++ le_encode 8 (zlen (hd ++ b ++ tl)) ++ hd) ++ b ++ (tl ++ encode bs2 ++ rest)) as Henc.
  { intros b. rewrite encode_app, encode_cons. unfold encode_block, tag_of. cbn [free payload].
    by rewrite <- !app_assoc. }
  rewrite Hm, Henc. fold t. rewrite (store_app (encode bs1 ++ t ++ hd) old).
  - eexists. split; [done|]. split; cbn [heap_ gauge_ capacity_ stored_ num_blocks_].
    + exists rest. rewrite Henc, Hz. done.
    + rewrite Hg, !encode_app, !zlen_app, !zlen_encode_cons. cbn [payload]. lia.
    + rewrite <- Hl, Hm, Henc. fold t. rewrite !zlen_app. lia.
    + done.
    + apply Forall_app in Hbs as [? [Hb ?]%Forall_cons]. apply Forall_app. split; [done|].
      apply Forall_cons. split; [|done]. unfold block_ok in *. cbn [payload] in *. by rewrite Hz.
    + rewrite Hst, !stored_of_app, !stored_of_cons. cbn [free payload]. lia.
    + rewrite Hn, !filter_app, !zlen_app, !count_cons. done.
  - rewrite !zlen_app. assert (zlen t = 8) by (unfold t, zlen; by rewrite length_le_encode). lia.
  - done.
Qed.

Lemma mem_read_ok m G1 k g G2 off n : mem_rep m (G1 ++ (k, g) :: G2) → gobj_ok k g →
  0 ≤ off → 0 ≤ n → off + n ≤ zlen (g_data g) →
  mem_read m (address (g_buf g)) off n = Ret (take (Z.to_nat n) (drop (Z.to_nat off) (g_data g))).
Proof.
  intros Hm (_ & Hid & _ & _ & Haddr) Ho Hn Hl. unfold mem_read.
  destruct (Z.eqb_spec n 0) as [->|Hn0]; [done|].
  pose proof (omap_split libc_block G1 (k, g) G2) as HL.
  pose proof (omap_split heap_block G1 (k, g) G2) as HH.
  unfold libc_block at 3 in HL. unfold heap_block at 3 in HH. cbn [snd] in HL, HH.
  destruct (address (g_buf g)) as [a|]; cbn [fmap option_fmap option_map app] in HL, HH.
  2:{ rewrite (proj1 Haddr) in Hl by done. unfold zlen in Hl. cbn in Hl. lia. }
  destruct m as [blocks|h]; cbn [mem_rep] in *; rewrite ?HL, ?HH in Hm.
  - destruct Hm as [Hnd ->]. rewrite (elem_of_list_to_map_1 _ a (g_data g)); [|done|].
    + pose proof (load_sub [] (g_data g) [] off n Ho Hn Hl) as Hld.
      by rewrite app_nil_r in Hld.
    + apply elem_of_app. right. by left.
  - destruct Hm as (bs & Hok & Hp). set (c := alloc_header _ ++ _ ++ _) in Hp.
    assert ((a - 32, c) ∈ addrs 0 bs) as Hin by (rewrite <- Hp; apply elem_of_app; right; by left).
    destruct (addrs_elem _ _ _ _ Hin) as (bs1 & bs2 & -> & Ha). rewrite Z.add_0_l in Ha.
    destruct (ho_mem _ _ Hok) as [rest ->]. rewrite encode_app, encode_cons.
    unfold encode_block. cbn [payload]. subst c.
    set (t := le_encode 8 _).
    replace ((encode bs1 ++ (t ++ alloc_header (bid (g_buf g)) ++ g_data g ++ g_tail g)
              ++ encode bs2) ++ rest)
      with ((encode bs1 ++ t ++ alloc_header (bid (g_buf g))) ++ g_data g
              ++ (g_tail g ++ encode bs2 ++ rest)) by (by rewrite <- !app_assoc).
    assert (zlen (encode bs1 ++ t ++ alloc_header (bid (g_buf g))) = a) as Hz.
    { rewrite !zlen_app. assert (zlen t = 8) by (unfold t, zlen; by rewrite length_le_encode).
      unfold zlen at 3. rewrite length_alloc_header by done. lia. }
    rewrite <- Hz. by apply load_sub.
Qed.

(** ** The specification: objects from the least to the most recently used *)

Record kv_entry := KvEntry { e_data : bytes; e_refcount : Z; e_flags : Z; e_id : any }.

Definition entry_of (g : gobj) : kv_entry :=
  KvEntry (g_data g) (refcount (g_buf g)) (object_flags (g_buf g)) (bid (g_buf g)).

Notation kv_list := (list (hkey * kv_entry)).

Definition ents (G : objects) : kv_list := (λ kg, (kg.1, entry_of kg.2)) <$> G.

Definition set_e_refcount (e : kv_entry) (n : Z) : kv_entry :=
  KvEntry (e_data e) n (e_flags e) (e_id e).

Definition bytes_total (E : kv_list) : Z := foldr (λ ke n, zlen (e_data ke.2) + n) 0 E.

(** Moves a key to the end, with a new entry. *)
Definition renewed (k : hkey) (e : kv_entry) (E : kv_list) : kv_list := without k E ++ [(k, e)].

(** Drops unreferenced objects from the least recently used one on until
    [used] bytes are at most [target]. *)
Fixpoint shrunk (used target : Z) (E : kv_list) : kv_list :=
  match E with
  | [] => []
  | (k, e) :: E =>
      if used <=? target then (k, e) :: E
      else if e_refcount e >? 0 then (k, e) :: shrunk used target E
      else shrunk (used - zlen (e_data e)) target E
  end.

Inductive kv_op :=
| KContains (i : any) | KGetSize (i : any) | KGetRefcount (i : any) | KIncRef (i : any)
| KUnref (i : any) | KRead (i : any) (n offset : Z) | KCommit (buf : MemoryBuffer) (data : bytes)
| KDelete (i : any) | KShrinkTo (target : Z).

Inductive kv_reply := KBool (b : bool) | KInt (z : Z) | KData (z : Z) (b : bytes).

(** What the operations require: valid hashes, a transaction buffer of the
    announced size, reference counts that neither overflow nor drop below
    zero. *)
Definition kv_pre (E : kv_list) (o : kv_op) : Prop :=
  match o with
  | KContains i | KGetSize i | KGetRefcount i | KDelete i => any_ok i
  | KRead i n offset => any_ok i ∧ 0 ≤ n ∧ 0 ≤ offset
  | KIncRef i => any_ok i ∧ ∀ e, assoc (key_of i) E = Some e → e_refcount e < UINT_MAX
  | KUnref i => any_ok i ∧ ∀ e, assoc (key_of i) E = Some e → 0 < e_refcount e
  | KCommit buf data => any_ok (bid buf) ∧ zlen data = bsize buf ∧ is_u32 (refcount buf) ∧
      bytes_total E + zlen data < SSIZE_MAX ∧ zlen data < 2 ^ 61
  | KShrinkTo target => 0 ≤ target
  end.

(** The answers of a store for [max] objects that holds [E]. *)
Inductive kv_spec (max : Z) : kv_list → kv_op → kv_list → kv_reply → Prop :=
| sp_contains E i :
    kv_spec max E (KContains i) E (KBool (bool_decide (is_Some (assoc (key_of i) E))))
| sp_size E i :
    kv_spec max E (KGetSize i) E
      (KInt (match assoc (key_of i) E with Some e => zlen (e_data e) | None => - ENOENT end))
| sp_refcount E i :
    kv_spec max E (KGetRefcount i) E
      (KInt (match assoc (key_of i) E with Some e => e_refcount e | None => - ENOENT end))
| sp_incref E i e : assoc (key_of i) E = Some e →
    kv_spec max E (KIncRef i)
      (renewed (key_of i) (set_e_refcount e (e_refcount e + 1)) E) (KBool true)
| sp_incref_miss E i : assoc (key_of i) E = None → kv_spec max E (KIncRef i) E (KBool false)
| sp_unref E i e : assoc (key_of i) E = Some e →
    kv_spec max E (KUnref i)
      (renewed (key_of i) (set_e_refcount e (e_refcount e - 1)) E) (KBool true)
| sp_unref_miss E i : assoc (key_of i) E = None → kv_spec max E (KUnref i) E (KBool false)
| sp_read E i n offset e : assoc (key_of i) E = Some e →
    let data := take (Z.to_nat n) (drop (Z.to_nat offset) (e_data e)) in
    kv_spec max E (KRead i n offset) (renewed (key_of i) e E) (KData (zlen data) data)
| sp_read_miss E i n offset : assoc (key_of i) E = None →
    kv_spec max E (KRead i n offset) E (KData (- ENOENT) [])
| sp_commit_full E buf data : assoc (key_of (bid buf)) E = None → zlen E = max →
    kv_spec max E (KCommit buf data) E (KInt (- ENFILE))
| sp_commit_nomem E buf data : assoc (key_of (bid buf)) E = None → zlen E < max →
    kv_spec max E (KCommit buf data) E (KInt (- EIO))
| sp_commit_new E buf data : assoc (key_of (bid buf)) E = None → zlen E < max →
    kv_spec max E (KCommit buf data)
      (E ++ [(key_of (bid buf), KvEntry data (refcount buf) (object_flags buf) (bid buf))])
      (KInt 0)
| sp_commit_again E buf data e : assoc (key_of (bid buf)) E = Some e →
    kv_spec max E (KCommit buf data)
      (renewed (key_of (bid buf))
         (KvEntry data (e_refcount e) (object_flags buf) (bid buf)) E) (KInt 0)
| sp_delete_miss E i : assoc (key_of i) E = None → kv_spec max E (KDelete i) E (KBool false)
| sp_delete_busy E i e : assoc (key_of i) E = Some e → 0 < e_refcount e →
    kv_spec max E (KDelete i) (renewed (key_of i) e E) (KBool false)
| sp_delete E i e : assoc (key_of i) E = Some e → e_refcount e = 0 →
    kv_spec max E (KDelete i) (without (key_of i) E) (KBool true)
| sp_shrink E target :
    let E' := shrunk (bytes_total E) target E in
    kv_spec max E (KShrinkTo target) E' (KBool (bytes_total E' <=? target)).

Section KvTheory.
Context {M : Type} `{!BoundedMap hkey (cache_entry MemoryBuffer) M}.
Context (malloc : gmap Z bytes → Z → option Z) (sizeof_Entry : Z).
(** [malloc] returns memory that is not in use. *)
Context (malloc_fresh : ∀ blocks n a, malloc blocks n = Some a → blocks !! a = None).
(** The key that marks free slots of the map is the null hash. *)
Context (empty_key_null : bm_empty_key = null_key).

(** There is memory for an object of [n] bytes. *)
Definition room (m : objmem) (n : Z) : Prop :=
  match m with
  | HeapMem h => gauge_ h + 8 + RoundUp8 (n + 32) ≤ capacity_ h
  | LibcMem blocks => ∀ blocks', blocks' ⊆ blocks → is_Some (malloc blocks' n)
  end.

Lemma DoMalloc_ok m G k buf data : mem_rep m G → any_ok (bid buf) → bsize buf = zlen data →
  zlen data < 2 ^ 61 →
  (∃ e, DoMalloc malloc m buf = Ret (m, inl e) ∧ data ≠ [] ∧ ¬ room m (zlen data)) ∨
  ∃ m1 a m2 tail, DoMalloc malloc m buf
      = Ret (m1, inr (MkBuffer a (bsize buf) (refcount buf) (object_flags buf) (bid buf))) ∧
    mem_write m1 a data = Ret m2 ∧ (a = None ↔ data = []) ∧
    mem_rep m2 (G ++ [(k, GObj (MkBuffer a (bsize buf) (refcount buf) (object_flags buf) (bid buf))
                          data tail)]).
Proof.
  intros Hm Hid Hsz Hlt. unfold DoMalloc, sizeof_AllocHeader. pose proof (zlen_nonneg data).
  destruct (decide (data = [])) as [->|Hne].
  { rewrite gtb_false by (rewrite Hsz; done). right. exists m, None, m, []. split_and!; try done.
    unfold mem_rep in *. rewrite !omap_app. cbn. by rewrite !app_nil_r. }
  assert (0 < zlen data) by (destruct data; [done|unfold zlen; cbn; lia]).
  rewrite gtb_true by lia. rewrite Hsz. destruct m as [blocks|h]; cbn [mem_rep] in Hm.
  - destruct (malloc blocks (zlen data)) as [a|] eqn:Hma.
    2:{ left. eexists. split; [done|]. split; [done|]. cbn. intros Hs. destruct (Hs _ (reflexivity _)). congruence. }
    right. destruct Hm as [Hnd ->]. apply malloc_fresh in Hma as Hfresh.
    exists (LibcMem (<[a := replicate (Z.to_nat (zlen data)) 0]> (list_to_map (omap libc_block G)))),
      (Some a), (LibcMem (<[a := data]> (list_to_map (omap libc_block G)))), [].
    split; [done|]. split; [|split; [done|]].
    + unfold mem_write. rewrite lookup_insert_eq. unfold zlen. rewrite Nat2Z.id.
      destruct data as [|x data]; [done|].
      replace (replicate _ 0) with ([] ++ replicate (length (x :: data)) 0 ++ []) by (by rewrite app_nil_r).
      rewrite (store_app []) by (done || by rewrite length_replicate). exec.
      by rewrite app_nil_r, insert_insert_eq.
    + cbn [mem_rep]. rewrite omap_app. cbn. rewrite fmap_app. split.
      * apply NoDup_app. split_and!; [done| |apply NoDup_singleton].
        intros x Hx ->%list_elem_of_singleton. cbn in Hx.
        apply (not_elem_of_list_to_map_2 _ _ Hfresh Hx).
      * rewrite <- list_to_map_cons. apply list_to_map_proper.
        -- cbn. apply NoDup_cons. split; [|done]. by apply not_elem_of_list_to_map_2.
        -- by rewrite Permutation_cons_append.
  - destruct Hm as (bs & Hok & Hp). rewrite u64_small by (unfold is_u64; lia).
    assert (zlen (alloc_header (bid buf)) = 32) as Hh by (unfold zlen; by rewrite length_alloc_header).
    destruct (decide (gauge_ h + 8 + RoundUp8 (zlen data + 32) ≤ capacity_ h)) as [Hr|Hr].
    2:{ left. rewrite (Allocate_full h bs) by (done || lia). exec. eexists. done. }
    right. destruct (Allocate_ok h bs (zlen data + 32) (alloc_header (bid buf)) Hok)
      as (h1 & tl & Hal & Hok1 & Hl & Hcap); [lia|lia|done|].
    rewrite Hal. exec.
    destruct (RoundUp8_bounds (zlen data + 32)) as (Hb & _ & _); [lia|].
    rewrite zlen_app in Hl. assert (zlen data ≤ zlen tl) by lia.
    rewrite <- (take_drop (length data) tl) in Hok1.
    destruct (heap_update h1 bs (alloc_header (bid buf)) (take (length data) tl) data
      (drop (length data) tl) [] Hok1) as (c & Hst & Hok2).
    { rewrite length_take. unfold zlen in *. lia. }
    rewrite <- (ho_gauge _ _ Hok), Hh in Hst.
    exists (HeapMem h1), (Some (gauge_ h + 8 + 32)). 
    exists (HeapMem (MallocHeap (capacity_ h1) (gauge_ h1) (stored_ h1) (num_blocks_ h1) c)),
      (drop (length data) tl).
    split; [done|].
    split; [|split; [done|]].
    + unfold mem_write. destruct data; [done|]. by rewrite Hst.
    + exists (bs ++ [Block false (alloc_header (bid buf) ++ data ++ drop (length data) tl)]).
      split; [done|]. rewrite omap_app, addrs_app, Hp. apply Permutation_app_head.
      cbn. rewrite <- (ho_gauge _ _ Hok).
      replace (gauge_ h + 8 + 32 - 32) with (gauge_ h + 8) by lia. reflexivity.
Qed.

(** ** The store *)

Definition lru_of (G : objects) : list (hkey * MemoryBuffer) := (λ kg, (kg.1, g_buf kg.2)) <$> G.
Definition total (G : objects) : Z := foldr (λ kg n, bsize (g_buf kg.2) + n) 0 G.

Record kv_rep (s : kvstore M) (G : objects) : Prop := {
  kr_lru : refines (entries_ s) (LruSpec (lru_of G) false None);
  kr_objs : Forall (λ kg, gobj_ok kg.1 kg.2) G;
  kr_mem : mem_rep (mem_ s) G;
  kr_used : used_bytes_ s = total G;
  kr_fits : total G < 2 ^ 63;
  kr_count : entry_count_ s = zlen G;
  kr_max : max_entries_ s = cache_size_ (entries_ s);
  kr_size : 0 < cache_size_ (entries_ s) < 2 ^ 31
}.

Lemma assoc_fmap {A B} (f : A → B) k (G : list (hkey * A)) :
  assoc k ((λ kg, (kg.1, f kg.2)) <$> G) = f <$> assoc k G.
Proof.
  induction G as [|[k' g] G IH]; [done|]. rewrite fmap_cons. cbn [assoc fst snd].
  destruct (decide (k' = k)); [done|]. apply IH.
Qed.

Lemma without_fmap {A B} (f : A → B) k (G : list (hkey * A)) :
  without k ((λ kg, (kg.1, f kg.2)) <$> G) = (λ kg, (kg.1, f kg.2)) <$> without k G.
Proof.
  unfold without. induction G as [|[k' g] G IH]; [done|]. rewrite fmap_cons, !filter_cons. cbn [fst].
  destruct (decide (k' ≠ k)); rewrite IH; done.
Qed.

Lemma touched_fmap {A B} (f : A → B) k (G : list (hkey * A)) :
  touched k ((λ kg, (kg.1, f kg.2)) <$> G) = (λ kg, (kg.1, f kg.2)) <$> touched k G.
Proof.
  unfold touched. rewrite assoc_fmap. destruct (assoc k G); cbn; [|done].
  by rewrite without_fmap, fmap_app.
Qed.

Lemma lru_of_keys G : (lru_of G).*1 = G.*1.
Proof. unfold lru_of. rewrite <- list_fmap_compose. by apply list_fmap_ext. Qed.

Lemma kv_nodup s G : kv_rep s G → NoDup G.*1.
Proof.
  intros Hr. rewrite <- lru_of_keys. apply (refines_facts _ _ (kr_lru _ _ Hr)).
Qed.

(** A list split at a key. *)
Lemma assoc_Some_split {A} k (G : list (hkey * A)) g : assoc k G = Some g →
  ∃ G1 G2, G = G1 ++ (k, g) :: G2.
Proof.
  induction G as [|[k' g'] G IH]; cbn [assoc]; [done|]. destruct (decide (k' = k)) as [->|].
  - intros [= ->]. by exists [], G.
  - intros (G1 & G2 & ->)%IH. by exists ((k', g') :: G1), G2.
Qed.

Lemma nodup_split {A} (G1 : list (hkey * A)) k g G2 : NoDup (G1 ++ (k, g) :: G2).*1 →
  k ∉ G1.*1 ∧ k ∉ G2.*1.
Proof.
  rewrite fmap_app, fmap_cons. cbn [fst]. intros (_ & Hdis & [? _]%NoDup_cons)%NoDup_app.
  split; [|done]. intros Hin. apply (Hdis k Hin). by left.
Qed.

Lemma touched_perm {A} k (G : list (hkey * A)) : NoDup G.*1 → touched k G ≡ₚ G.
Proof.
  intros Hnd. unfold touched. destruct (assoc k G) as [g|] eqn:Ha; [|done].
  destruct (assoc_Some_split _ _ _ Ha) as (G1 & G2 & ->).
  destruct (nodup_split _ _ _ _ Hnd). rewrite without_split by done.
  by rewrite <- Permutation_cons_append, Permutation_middle.
Qed.

Lemma total_app G1 G2 : total (G1 ++ G2) = total G1 + total G2.
Proof.
  unfold total. rewrite foldr_app. generalize (foldr (λ kg n, bsize (g_buf kg.2) + n) 0 G2).
  intros z. induction G1 as [|kg G1 IH]; cbn [foldr]; [lia|]. rewrite IH. lia.
Qed.

Lemma total_perm G G' : G ≡ₚ G' → total G = total G'.
Proof. unfold total. induction 1; cbn [foldr]; lia. Qed.

Lemma total_nonneg G : Forall (λ kg, gobj_ok kg.1 kg.2) G → 0 ≤ total G.
Proof.
  induction 1 as [|[k g] G (_ & _ & Hs & _) _ IH]; [done|].
  change (total ((k, g) :: G)) with (bsize (g_buf g) + total G). cbn [snd] in Hs. pose proof (zlen_nonneg (g_data g)). lia.
Qed.

(** Reordering the objects together with the LRU cache. *)
Lemma kv_rep_reorder s G l G' : kv_rep s G → G ≡ₚ G' →
  refines l (LruSpec (lru_of G') false None) → cache_size_ l = cache_size_ (entries_ s) →
  kv_rep (kv_set_entries s l) G'.
Proof.
  intros [] Hp Hr Hsz. split; cbn; try done.
  - by rewrite <- Hp.
  - by eapply mem_rep_perm.
  - by rewrite <- (total_perm _ _ Hp).
  - by rewrite <- (total_perm _ _ Hp).
  - unfold zlen in *. by rewrite <- Hp.
  - congruence.
  - by rewrite Hsz.
Qed.

Lemma key_nonempty i : any_ok i → key_of i ≠ bm_empty_key.
Proof. intros [_ _ Ha _]. rewrite empty_key_null. unfold null_key, key_of. cbn. congruence. Qed.

Lemma kv_lookup s G i u : kv_rep s G → any_ok i →
  ∃ l, Lookup (entries_ s) (key_of i) u = Ret (l, g_buf <$> assoc (key_of i) G) ∧
    kv_rep (kv_set_entries s l) (if u then touched (key_of i) G else G) ∧
    cache_size_ l = cache_size_ (entries_ s).
Proof.
  intros Hr Hi. destruct (lru_Lookup _ _ (key_of i) u (kr_lru _ _ Hr)) as (l & Hl & Href & Hsz).
  { by apply key_nonempty. }
  { apply (kr_size _ _ Hr). }
  exists l. unfold lru_of in Hl. rewrite assoc_fmap in Hl. split; [done|]. split; [|done].
  eapply kv_rep_reorder; [done| | |done].
  - destruct u; [|done]. symmetry. apply touched_perm. by eapply kv_nodup.
  - destruct u; [|done]. unfold lru_of in *. by rewrite touched_fmap in Href.
Qed.

(** ** Compaction *)

Lemma load_prefix (mem : bytes) a x y : load mem a (zlen (x ++ y)) = Ret (x ++ y) →
  load mem a (zlen x) = Ret x.
Proof.
  unfold load. repeat case_decide; try done; rewrite ?zlen_app in *.
  2:{ pose proof (zlen_nonneg x). pose proof (zlen_nonneg y). lia. }
  intros [= Heq]. f_equal. unfold zlen in *.
  replace (Z.to_nat (Z.of_nat (length x) + Z.of_nat (length y)))
    with (length x + length y)%nat in Heq by lia.
  rewrite Nat2Z.id. apply (f_equal (take (length x))) in Heq.
  rewrite take_take, take_app_length in Heq. by replace (length x `min` _)%nat with (length x) in Heq by lia.
Qed.

(** The LRU cache points to the heap blocks of the view. *)
Definition points_to (n : Z) (E : kv_list) (l : lru hkey M) (view : list (Z * bytes)) : Prop :=
  ∃ G, refines l (LruSpec (lru_of G) false None) ∧ Forall (λ kg, gobj_ok kg.1 kg.2) G ∧
    omap heap_block G ≡ₚ view ∧ ents G = E ∧ cache_size_ l = n.

Lemma heap_block_elem G a c : (a, c) ∈ omap heap_block G →
  ∃ G1 k g G2, G = G1 ++ (k, g) :: G2 ∧ address (g_buf g) = Some (a + 32) ∧
    c = alloc_header (bid (g_buf g)) ++ g_data g ++ g_tail g.
Proof.
  intros ([k g] & Hin & Hb)%list_elem_of_omap. unfold heap_block in Hb. cbn [snd] in Hb.
  destruct (address (g_buf g)) as [a'|] eqn:Ha; [|done]. injection Hb as <- <-.
  apply list_elem_of_split in Hin as (G1 & G2 & ->). exists G1, k, g, G2.
  split; [done|]. split; [|done]. rewrite Ha. f_equal. lia.
Qed.

Lemma OnBlockMove_ok n E l l1 a a' c l2 heap : 0 < n → points_to n E l (l1 ++ (a, c) :: l2) →
  load heap a' (zlen c) = Ret c →
  ∃ l', OnBlockMove l heap a' = Ret l' ∧ points_to n E l' (l1 ++ (a', c) :: l2).
Proof.
  intros Hpos (G & Href & Hall & Hview & HE & Hsz) Hld.
  assert ((a, c) ∈ omap heap_block G) as Hin by (rewrite Hview; apply elem_of_app; right; by left).
  destruct (heap_block_elem _ _ _ Hin) as (G1 & k & g & G2 & -> & Ha & ->).
  pose proof Hall as [_ [Hg _]%Forall_cons]%Forall_app. cbn [fst snd] in Hg.
  pose proof Hg as (Hkey & Hid & Hbs & Hrc & Hnone).
  pose proof (refines_facts _ _ Href) as (Hnd & _). cbn [entries] in Hnd. rewrite lru_of_keys in Hnd.
  destruct (nodup_split _ _ _ _ Hnd) as [Hk1 Hk2].
  assert (k ≠ bm_empty_key) as Hkne by (rewrite <- Hkey; by apply key_nonempty).
  unfold OnBlockMove. apply load_prefix in Hld. unfold zlen in Hld.
  rewrite length_alloc_header in Hld by done. unfold sizeof_AllocHeader.
  change (Z.of_nat 32) with 32 in Hld. rewrite Hld. exec. rewrite read_alloc_header by done. exec.
  rewrite Z.eqb_refl. exec. rewrite Hkey.
  destruct (lru_Lookup l _ k false Href Hkne) as (l3 & -> & Href3 & Hsz3); [lia|]. exec.
  assert (assoc k (lru_of (G1 ++ (k, g) :: G2)) = Some (g_buf g)) as Has.
  { unfold lru_of. rewrite assoc_fmap, assoc_split by done. done. }
  rewrite Has. cbn [bid]. rewrite Hkey.
  set (buf := MkBuffer (Some (a' + 32)) _ _ _ _).
  destruct (lru_UpdateValue l3 _ k buf (g_buf g) Href3 Hkne) as (l4 & -> & Href4 & Hsz4); [lia|done|]. exec.
  exists l4. split; [done|]. exists (G1 ++ (k, GObj buf (g_data g) (g_tail g)) :: G2).
  split_and!.
  - unfold lru_of in *. rewrite !fmap_app, !fmap_cons in *. cbn [fst snd] in *.
    rewrite revalue_split in Href4; [done|..].
    + rewrite <- list_fmap_compose. done.
    + rewrite <- list_fmap_compose. done.
  - apply Forall_app in Hall as [? [? ?]%Forall_cons]. apply Forall_app. split; [done|].
    apply Forall_cons. split; [|done]. cbn. split_and!; try done. split; [done|].
    intros Hd. apply Hnone in Hd. congruence.
  - rewrite omap_split in *. unfold heap_block at 2 in Hview. unfold heap_block at 2.
    cbn [snd g_buf g_data g_tail address bid buf] in *. rewrite Ha in Hview.
    cbn [fmap option_fmap option_map app] in *.
    replace (a + 32 - 32) with a in Hview by lia. replace (a' + 32 - 32) with a' by lia.
    rewrite <- !Permutation_middle in *. by apply Permutation_cons, (Permutation_cons_inv Hview).
  - rewrite <- HE. unfold ents. by rewrite !fmap_app, !fmap_cons.
  - congruence.
Qed.

Lemma encode_filter_le bs : zlen (encode (filter reserved bs)) ≤ zlen (encode bs).
Proof.
  induction bs as [|b bs IH]; [done|]. rewrite filter_cons, zlen_encode_cons.
  pose proof (zlen_nonneg (payload b)). case_decide; rewrite ?zlen_encode_cons; lia.
Qed.

Lemma ents_total G : Forall (λ kg, gobj_ok kg.1 kg.2) G → total G = bytes_total (ents G).
Proof.
  unfold total, bytes_total, ents.
  induction 1 as [|[k g] G (_ & _ & Hs & _) _ IH]; [done|].
  rewrite fmap_cons. cbn [foldr fst snd entry_of e_data] in *. rewrite IH, Hs. done.
Qed.

Lemma CompactMemory_ok s G : kv_rep s G →
  ∃ s' b G', CompactMemory s = Ret (s', b) ∧ kv_rep s' G' ∧ ents G' = ents G ∧
    (∀ n, room (mem_ s) n → room (mem_ s') n) ∧ max_entries_ s' = max_entries_ s.
Proof.
  intros Hr. pose proof Hr as [Hl Hobj Hm Hu Hfit Hc Hmax Hsz]. unfold CompactMemory.
  destruct (mem_ s) as [blocks|h] eqn:Hmem.
  { exists s, false, G. split_and!; try done. by rewrite Hmem. }
  case_match.
  2:{ exists s, false, G. split_and!; try done. by rewrite Hmem. }
  destruct Hm as (bs & Hok & Hview).
  destruct (Compact_ok OnBlockMove (points_to (cache_size_ (entries_ s)) (ents G))
    ltac:(intros; eapply OnBlockMove_ok; [apply Hsz|done..]) h bs (entries_ s) Hok)
    as (h' & l & -> & Hok' & (G' & Href' & Hobj' & Hview' & HE & Hsz') & Hcap).
  { by exists G. }
  exec. do 2 eexists. exists G'. split; [done|]. split_and!; try done.
  - assert (total G' = total G) as Ht by (by rewrite !ents_total, HE).
    split; cbn; try done.
    + by eexists.
    + congruence.
    + congruence.
    + rewrite Hc. apply (f_equal zlen) in HE. unfold ents, zlen in HE. rewrite !length_fmap in HE.
      symmetry. done.
    + congruence.
    + by rewrite Hsz'.
  - intros n. cbn. rewrite (ho_gauge _ _ Hok), (ho_gauge _ _ Hok'), Hcap.
    pose proof (encode_filter_le bs). lia.
Qed.

(** ** The operations refine the specification *)

Definition kv_refines (s : kvstore M) (E : kv_list) : Prop := ∃ G, kv_rep s G ∧ ents G = E.

Definition kv_step (s : kvstore M) (o : kv_op) : outcome (kvstore M * kv_reply) :=
  match o with
  | KContains i => '(s, b) ← Contains s i; Ret (s, KBool b)
  | KGetSize i => '(s, z) ← GetSize s i; Ret (s, KInt z)
  | KGetRefcount i => '(s, z) ← GetRefcount s i; Ret (s, KInt z)
  | KIncRef i => '(s, b) ← IncRef s i; Ret (s, KBool b)
  | KUnref i => '(s, b) ← Unref s i; Ret (s, KBool b)
  | KRead i n offset => '(s, z, b) ← Read s i n offset; Ret (s, KData z b)
  | KCommit buf data => '(s, z) ← DoCommit malloc s buf data; Ret (s, KInt z)
  | KDelete i => '(s, b) ← Delete s i; Ret (s, KBool b)
  | KShrinkTo target => '(s, b) ← ShrinkTo s target; Ret (s, KBool b)
  end.

Lemma kv_rep_count s G c n : kv_rep s G → kv_rep (kv_count s c n) G.
Proof. by intros []. Qed.

Lemma ents_assoc k G : assoc k (ents G) = entry_of <$> assoc k G.
Proof. apply assoc_fmap. Qed.

Lemma ents_renewed k e G : ents (without k G ++ [(k, e)]) = renewed k (entry_of e) (ents G).
Proof. unfold renewed, ents. rewrite without_fmap, fmap_app. done. Qed.

Lemma kv_obj s G k g : kv_rep s G → assoc k G = Some g → gobj_ok k g.
Proof.
  intros Hr Ha. destruct (assoc_Some_split _ _ _ Ha) as (G1 & G2 & ->).
  by pose proof (kr_objs _ _ Hr) as [_ [? _]%Forall_cons]%Forall_app.
Qed.

(** An operation answers as specified. *)
Definition kv_agrees (s : kvstore M) (E : kv_list) (o : kv_op) : Prop :=
  ∃ s' E' r, kv_step s o = Ret (s', r) ∧ kv_spec (max_entries_ s) E o E' r ∧
    kv_refines s' E' ∧ max_entries_ s' = max_entries_ s.

Lemma Contains_agrees s G i : kv_rep s G → any_ok i → kv_agrees s (ents G) (KContains i).
Proof.
  intros Hr Hi. destruct (kv_lookup s G i false Hr Hi) as (l & Hl & Hr' & Hsz).
  unfold kv_agrees. cbn [kv_step]. unfold Contains. rewrite Hl. exec. do 3 eexists. split; [done|].
  split; [|split; [by exists G|done]].
  replace (bool_decide _) with (bool_decide (is_Some (assoc (key_of i) (ents G)))); [constructor|].
  rewrite ents_assoc. destruct (assoc _ _); done.
Qed.

Lemma kv_size_small s G k g : kv_rep s G → assoc k G = Some g → 0 ≤ zlen (g_data g) < 2 ^ 63.
Proof.
  intros Hr Ha. destruct (assoc_Some_split _ _ _ Ha) as (G1 & G2 & ->).
  pose proof (kr_fits _ _ Hr) as Hf. pose proof (kr_objs _ _ Hr) as Ho.
  rewrite total_app in Hf. pose proof Ho as [H1 [H2 H3]%Forall_cons]%Forall_app.
  change (total ((k, g) :: G2)) with (bsize (g_buf g) + total G2) in Hf.
  pose proof (total_nonneg _ H1). pose proof (total_nonneg _ H3).
  destruct H2 as (_ & _ & Hs & _). cbn [snd] in Hs. pose proof (zlen_nonneg (g_data g)). lia.
Qed.

Lemma GetSize_agrees s G i : kv_rep s G → any_ok i → kv_agrees s (ents G) (KGetSize i).
Proof.
  intros Hr Hi. apply (kv_rep_count _ _ kv_n_getsize 1) in Hr as Hr1.
  destruct (kv_lookup _ G i false Hr1 Hi) as (l & Hl & Hr' & Hsz).
  unfold kv_agrees. cbn [kv_step]. unfold GetSize, kv_inc. rewrite Hl. exec.
  do 3 eexists. split; [done|]. split; [|split; [by exists G|done]].
  pose proof (sp_size (max_entries_ s) (ents G) i) as Hsp. rewrite ents_assoc in Hsp.
  destruct (assoc (key_of i) G) as [g|] eqn:Ha; [|done].
  pose proof (kv_obj _ _ _ _ Hr Ha) as (_ & _ & Hs & _).
  pose proof (kv_size_small _ _ _ _ Hr Ha). cbn in *. rewrite Hs, i64_small; [done|]. lia.
Qed.

Lemma GetRefcount_agrees s G i : kv_rep s G → any_ok i → kv_agrees s (ents G) (KGetRefcount i).
Proof.
  intros Hr Hi. apply (kv_rep_count _ _ kv_n_getrefcount 1) in Hr as Hr1.
  destruct (kv_lookup _ G i false Hr1 Hi) as (l & Hl & Hr' & Hsz).
  unfold kv_agrees. cbn [kv_step]. unfold GetRefcount, kv_inc. rewrite Hl. exec.
  do 3 eexists. split; [done|]. split; [|split; [by exists G|done]].
  pose proof (sp_refcount (max_entries_ s) (ents G) i) as Hsp. rewrite ents_assoc in Hsp.
  destruct (assoc (key_of i) G) as [g|]; done.
Qed.

Lemma without_touched {A} k (G : list (hkey * A)) : without k (touched k G) = without k G.
Proof.
  unfold touched. destruct (assoc k G); [|done]. unfold without.
  rewrite filter_app, filter_cons. case_decide; [done|]. rewrite filter_nil, app_nil_r.
  rewrite list_filter_filter_l; [done|]. done.
Qed.

Lemma assoc_touched {A} k (G : list (hkey * A)) : NoDup G.*1 → assoc k (touched k G) = assoc k G.
Proof.
  intros Hnd. unfold touched. destruct (assoc k G) as [g|] eqn:Ha; [|done].
  apply assoc_split. destruct (assoc_Some_split _ _ _ Ha) as (G1 & G2 & ->).
  destruct (nodup_split _ _ _ _ Hnd). rewrite without_split, fmap_app by done. set_solver.
Qed.

(** An object that keeps its memory becomes the most recently used one. *)
Lemma kv_renew s G k g g' l : kv_rep s G → assoc k G = Some g → gobj_ok k g' →
  heap_block (k, g') = heap_block (k, g) → libc_block (k, g') = libc_block (k, g) →
  bsize (g_buf g') = bsize (g_buf g) →
  refines l (LruSpec (lru_of (without k G ++ [(k, g')])) false None) →
  cache_size_ l = cache_size_ (entries_ s) →
  kv_rep (kv_set_entries s l) (without k G ++ [(k, g')]).
Proof.
  intros Hr Ha Hg Hh Hlc Hb Href Hsz. pose proof (kv_nodup _ _ Hr) as Hnd.
  destruct (assoc_Some_split _ _ _ Ha) as (G1 & G2 & ->).
  destruct (nodup_split _ _ _ _ Hnd). rewrite without_split in * by done.
  pose proof Hr as [_ Hobj Hm Hu Hfit Hc Hmax Hpos].
  apply Forall_app in Hobj as [? [? ?]%Forall_cons].
  assert ((G1 ++ G2) ++ [(k, g')] ≡ₚ G1 ++ (k, g') :: G2) as Hp
    by (by rewrite <- Permutation_cons_append, Permutation_middle).
  assert (total ((G1 ++ G2) ++ [(k, g')]) = total (G1 ++ (k, g) :: G2)) as Ht.
  { rewrite (total_perm _ _ Hp), !total_app. f_equal. unfold total. cbn [foldr snd]. lia. }
  split; cbn [kv_set_entries used_bytes_ entry_count_ max_entries_ entries_ mem_]; try done.
  - rewrite Hp. apply Forall_app. split; [done|]. by apply Forall_cons.
  - eapply mem_rep_perm; [symmetry; exact Hp|]. by eapply mem_rep_same.
  - by rewrite Ht.
  - by rewrite Ht.
  - unfold zlen in *. rewrite Hp, Hc, !length_app. done.
  - congruence.
  - by rewrite Hsz.
Qed.

(** Storing a new reference count. *)
Lemma Insert_refcount s G k g n : kv_rep s G → assoc k G = Some g → is_u32 n →
  let g' := GObj (set_refcount (g_buf g) n) (g_data g) (g_tail g) in
  ∃ l, Insert (entries_ s) k (g_buf g') = Ret (l, false) ∧
    kv_rep (kv_set_entries s l) (without k G ++ [(k, g')]) ∧
    cache_size_ l = cache_size_ (entries_ s).
Proof.
  intros Hr Ha Hn g'. pose proof (kv_obj _ _ _ _ Hr Ha) as (Hk & Hid & Hs & Hrc & Hnone).
  destruct (lru_Insert_update _ _ k (g_buf g') (g_buf g) (kr_lru _ _ Hr)) as (l & Hl & Href & Hsz).
  - rewrite <- Hk. by apply key_nonempty.
  - apply (kr_size _ _ Hr).
  - unfold lru_of. by rewrite assoc_fmap, Ha.
  - exists l. split; [done|]. split; [|done]. eapply kv_renew; try done.
    unfold lru_of in *. rewrite without_fmap in Href. by rewrite fmap_app.
Qed.

Lemma IncRef_agrees s G i : kv_rep s G → any_ok i →
  (∀ e, assoc (key_of i) (ents G) = Some e → e_refcount e < UINT_MAX) →
  kv_agrees s (ents G) (KIncRef i).
Proof.
  intros Hr Hi Hmax. apply (kv_rep_count _ _ kv_n_incref 1) in Hr as Hr1.
  destruct (kv_lookup _ G i true Hr1 Hi) as (l & Hl & Hr2 & Hsz).
  rewrite ents_assoc in Hmax. pose proof (kv_nodup _ _ Hr) as Hnd.
  pose proof (assoc_touched (key_of i) G Hnd) as Hat. pose proof (without_touched (key_of i) G) as Hwt.
  unfold kv_agrees. cbn [kv_step]. unfold IncRef, kv_inc. rewrite Hl. exec.
  destruct (assoc (key_of i) G) as [g|] eqn:Ha; cbn [fmap option_fmap option_map].
  2:{ do 3 eexists. split; [done|]. unfold touched in Hr2. rewrite Ha in Hr2.
      split; [constructor; by rewrite ents_assoc, Ha|]. split; [by exists G|done]. }
  pose proof (kv_obj _ _ _ _ Hr Ha) as (_ & _ & _ & Hrc & _).
  specialize (Hmax _ eq_refl). cbn in Hmax. unfold UINT_MAX, is_u32 in *.
  rewrite ltb_true by done. exec. rewrite u32_small by (unfold is_u32; lia).
  destruct (Insert_refcount _ _ _ _ (refcount (g_buf g) + 1) Hr2 Hat) as (l' & Hl' & Hr3 & Hsz');
    [unfold is_u32; lia|].
  cbn [g_buf kv_set_entries entries_] in Hl'. rewrite Hl'. exec. rewrite Hwt in Hr3.
  do 3 eexists. split; [done|]. split; [apply (sp_incref _ _ _ (entry_of g)); by rewrite ents_assoc, Ha|].
  split; [|done]. eexists. split; [exact Hr3|]. by rewrite ents_renewed.
Qed.

Lemma Unref_agrees s G i : kv_rep s G → any_ok i →
  (∀ e, assoc (key_of i) (ents G) = Some e → 0 < e_refcount e) →
  kv_agrees s (ents G) (KUnref i).
Proof.
  intros Hr Hi Hmin. apply (kv_rep_count _ _ kv_n_unref 1) in Hr as Hr1.
  destruct (kv_lookup _ G i true Hr1 Hi) as (l & Hl & Hr2 & Hsz).
  rewrite ents_assoc in Hmin. pose proof (kv_nodup _ _ Hr) as Hnd.
  pose proof (assoc_touched (key_of i) G Hnd) as Hat. pose proof (without_touched (key_of i) G) as Hwt.
  unfold kv_agrees. cbn [kv_step]. unfold Unref, kv_inc. rewrite Hl. exec.
  destruct (assoc (key_of i) G) as [g|] eqn:Ha; cbn [fmap option_fmap option_map].
  2:{ do 3 eexists. split; [done|]. unfold touched in Hr2. rewrite Ha in Hr2.
      split; [constructor; by rewrite ents_assoc, Ha|]. split; [by exists G|done]. }
  pose proof (kv_obj _ _ _ _ Hr Ha) as (_ & _ & _ & Hrc & _).
  specialize (Hmin _ eq_refl). cbn in Hmin. unfold is_u32 in *.
  rewrite gtb_true by done. exec. rewrite u32_small by (unfold is_u32; lia).
  destruct (Insert_refcount _ _ _ _ (refcount (g_buf g) - 1) Hr2 Hat) as (l' & Hl' & Hr3 & Hsz');
    [unfold is_u32; lia|].
  cbn [g_buf kv_set_entries entries_] in Hl'. rewrite Hl'. exec. rewrite Hwt in Hr3.
  do 3 eexists. split; [done|]. split; [apply (sp_unref _ _ _ (entry_of g)); by rewrite ents_assoc, Ha|].
  split; [|done]. eexists. split; [exact Hr3|]. by rewrite ents_renewed.
Qed.

Lemma ents_touched k g G : assoc k G = Some g → ents (touched k G) = renewed k (entry_of g) (ents G).
Proof. intros Ha. unfold touched. rewrite Ha. apply ents_renewed. Qed.

Lemma zlen_slice (d : bytes) n off : 0 ≤ n → 0 ≤ off →
  zlen (take (Z.to_nat n) (drop (Z.to_nat off) d)) = Z.max 0 (Z.min (zlen d - off) n).
Proof. intros. unfold zlen. rewrite length_take, length_drop. lia. Qed.

Lemma Read_agrees s G i n offset : kv_rep s G → any_ok i → 0 ≤ n → 0 ≤ offset →
  kv_agrees s (ents G) (KRead i n offset).
Proof.
  intros Hr Hi Hn Ho. apply (kv_rep_count _ _ kv_n_read 1) in Hr as Hr1.
  destruct (kv_lookup _ G i true Hr1 Hi) as (l & Hl & Hr2 & Hsz).
  pose proof (kv_nodup _ _ Hr) as Hnd. pose proof (assoc_touched (key_of i) G Hnd) as Hat.
  unfold kv_agrees. cbn [kv_step]. unfold Read, kv_inc. rewrite Hl. exec.
  destruct (assoc (key_of i) G) as [g|] eqn:Ha; cbn [fmap option_fmap option_map].
  2:{ do 3 eexists. split; [done|]. unfold touched in Hr2. rewrite Ha in Hr2.
      split; [constructor; by rewrite ents_assoc, Ha|]. split; [by exists G|done]. }
  pose proof (kv_obj _ _ _ _ Hr Ha) as Hg. pose proof Hg as (_ & _ & Hs & _).
  pose proof (kv_size_small _ _ _ _ Hr Ha) as Hsm. rewrite Hs.
  pose proof (sp_read (max_entries_ s) (ents G) i n offset (entry_of g)) as Hsp.
  rewrite ents_assoc, Ha in Hsp. specialize (Hsp eq_refl). cbn zeta in Hsp. cbn [entry_of e_data] in Hsp.
  pose proof (zlen_slice (g_data g) n offset Hn Ho) as Hz.
  assert (∀ c, kv_refines (kv_count (kv_set_entries (kv_count s kv_n_read 1) l) kv_sz_read c)
    (renewed (key_of i) (entry_of g) (ents G))) as Href.
  { intros c. exists (touched (key_of i) G). split; [by apply kv_rep_count|]. by apply ents_touched. }
  destruct (decide (zlen (g_data g) < offset)) as [Hgt|Hle].
  - rewrite gtb_true by lia. exec. do 3 eexists. split; [done|].
    assert (take (Z.to_nat n) (drop (Z.to_nat offset) (g_data g)) = []) as Hnil.
    { apply nil_length_inv. unfold zlen in *. lia. }
    rewrite Hnil in Hsp. split; [exact Hsp|]. split; [|done].
    exists (touched (key_of i) G). split; [done|]. by apply ents_touched.
  - rewrite gtb_false by lia. destruct (assoc_Some_split _ _ _ Hat) as (G1 & G2 & HG).
    pose proof (kr_mem _ _ Hr2) as Hm. rewrite HG in Hm.
    rewrite (mem_read_ok _ _ _ _ _ offset (Z.min (zlen (g_data g) - offset) n) Hm Hg) by lia.
    exec. do 3 eexists. split; [done|]. split; [|split; [apply Href|done]].
    rewrite i64_small by lia.
    replace (take (Z.to_nat (Z.min _ _)) _) with (take (Z.to_nat n) (drop (Z.to_nat offset) (g_data g))).
    { rewrite Hz in Hsp. rewrite Z.max_r in Hsp by lia. exact Hsp. }
    destruct (decide (n ≤ zlen (g_data g) - offset)); [by rewrite Z.min_r|].
    rewrite !take_ge; [done|..]; rewrite length_drop; unfold zlen in *; lia.
Qed.

Lemma DoFree_room m buf m' n : DoFree m buf = Ret m' → room m n → room m' n.
Proof.
  unfold DoFree. destruct (address buf) as [a|]; [|by intros [= ->]].
  destruct m as [blocks|h].
  - destruct (blocks !! a); [|done]. intros [= <-] Hs blocks' Hsub. apply Hs.
    etrans; [done|]. apply delete_subseteq.
  - unfold MarkFree. intros (h' & Hf & [= <-])%bind_Ret. cbn [room].
    repeat first [apply bind_Ret in Hf as (? & _ & Hf) | case_match]; try done;
      by injection Hf as <-.
Qed.

(** Releasing the memory of an object. *)
Lemma kv_free s G k g : kv_rep s G → assoc k G = Some g →
  ∃ m, DoFree (mem_ s) (g_buf g) = Ret m ∧
    (mem_rep m (without k G) ∧ (g_data g ≠ [] → ∃ f, DoFree m (g_buf g) = Fail f)) ∧
    total G = bsize (g_buf g) + total (without k G) ∧ zlen G = 1 + zlen (without k G) ∧
    Forall (λ kg, gobj_ok kg.1 kg.2) (without k G).
Proof.
  intros Hr Ha. pose proof (kv_nodup _ _ Hr) as Hnd.
  destruct (assoc_Some_split _ _ _ Ha) as (G1 & G2 & ->).
  destruct (nodup_split _ _ _ _ Hnd). rewrite without_split by done.
  destruct (DoFree_ok _ _ _ _ _ (kr_mem _ _ Hr)) as (m & Hf & Hm & Htw). exists m.
  pose proof (kr_objs _ _ Hr) as [? [(_ & _ & _ & _ & Haddr) ?]%Forall_cons]%Forall_app.
  split_and!; try done.
  - intros Hne. apply Htw. by intros ?%Haddr.
  - rewrite !total_app. change (total ((k, g) :: G2)) with (bsize (g_buf g) + total G2). lia.
  - unfold zlen. rewrite !length_app. cbn [length]. lia.
  - by apply Forall_app.
Qed.

Lemma Delete_agrees s G i : kv_rep s G → any_ok i → kv_agrees s (ents G) (KDelete i).
Proof.
  intros Hr Hi. apply (kv_rep_count _ _ kv_n_delete 1) in Hr as Hr1.
  destruct (kv_lookup _ G i true Hr1 Hi) as (l & Hl & Hr2 & Hsz).
  pose proof (kv_nodup _ _ Hr) as Hnd. pose proof (assoc_touched (key_of i) G Hnd) as Hat.
  pose proof (without_touched (key_of i) G) as Hwt.
  unfold kv_agrees. cbn [kv_step]. unfold Delete, DoDelete, kv_inc. rewrite Hl. exec.
  destruct (assoc (key_of i) G) as [g|] eqn:Ha; cbn [fmap option_fmap option_map].
  2:{ do 3 eexists. split; [done|]. unfold touched in Hr2. rewrite Ha in Hr2.
      split; [constructor; by rewrite ents_assoc, Ha|]. split; [by exists G|done]. }
  pose proof (kv_obj _ _ _ _ Hr Ha) as (_ & _ & Hs & Hrc & _). unfold is_u32 in Hrc.
  destruct (decide (0 < refcount (g_buf g))) as [Hbusy|Hfree].
  { rewrite gtb_true by lia. exec. do 3 eexists. split; [done|].
    split; [apply (sp_delete_busy _ _ _ (entry_of g)); [by rewrite ents_assoc, Ha|done]|].
    split; [|done]. exists (touched (key_of i) G). split; [done|]. by apply ents_touched. }
  rewrite gtb_false by lia. pose proof Hr2 as [Hlru _ Hm2 Hu Hfit Hc Hmax Hpos].
  destruct (kv_free _ _ _ _ Hr2 Hat) as (m & Hf & [Hm _] & Ht & Hz & Hobj). rewrite Hwt in *.
  pose proof (zlen_nonneg (without (key_of i) G)). pose proof (total_nonneg _ Hobj).
  pose proof (kv_size_small _ _ _ _ Hr Ha).
  destruct (refines_facts _ _ Hlru) as (_ & Hle & _). cbn [entries] in Hle.
  assert (zlen (lru_of (touched (key_of i) G)) = zlen (touched (key_of i) G)) as Hzl
    by (unfold zlen, lru_of; by rewrite length_fmap).
  cbn [kv_set_entries entry_count_ used_bytes_ kv_count entries_] in Hc, Hu, Hle, Hlru, Hpos.
  cbn [kv_set_entries entry_count_ kv_count]. rewrite gtb_true by lia. exec.
  cbn [kv_set_entries kv_count kv_set_used kv_set_entry_count mem_ entries_] in *. rewrite Hf. exec.
  destruct (lru_Forget _ _ (key_of i) (g_buf g) Hlru) as (l' & Hl' & Href' & Hsz').
  { by apply key_nonempty. }
  { lia. }
  { unfold lru_of. by rewrite assoc_fmap, Hat. }
  cbn [kv_set_entries kv_set_mem kv_set_used kv_count kv_set_entry_count entries_]. rewrite Hl'.
  exec. do 3 eexists. split; [done|].
  split; [apply (sp_delete _ _ _ (entry_of g)); [by rewrite ents_assoc, Ha|cbn; lia]|].
  split; [|done]. exists (without (key_of i) G). split; [|unfold ents; by rewrite without_fmap].
  split; cbn [kv_set_entries kv_set_mem kv_set_used kv_count kv_set_entry_count entries_ mem_
              used_bytes_ entry_count_ max_entries_] in *; try done.
  - unfold lru_of in *. by rewrite without_fmap, Hwt in Href'.
  - rewrite Hu, u64_small; [lia|unfold is_u64; lia].
  - lia.
  - rewrite Hc, u32_small; [lia|unfold is_u32; lia].
  - congruence.
  - lia.
Qed.

Ltac kv_cbn := cbn [kv_set_entries kv_set_mem kv_set_used kv_count kv_inc kv_set_entry_count entries_
  mem_ used_bytes_ entry_count_ max_entries_] in *.

Lemma assoc_without {A} k (L : list (hkey * A)) : assoc k L = None → without k L = L.
Proof. intros Ha. apply without_notin. by apply assoc_None. Qed.

(** Storing an object whose key is not among [G]; the LRU cache may still hold
    an old entry for it. *)
Lemma commit_store_ok s G k L mem data :
  refines (entries_ s) (LruSpec L false None) → without k L = lru_of G →
  Forall (λ kg, gobj_ok kg.1 kg.2) G → mem_rep (mem_ s) G → used_bytes_ s = total G →
  total G + zlen data < SSIZE_MAX → zlen data < 2 ^ 61 → entry_count_ s = zlen G →
  zlen G < max_entries_ s → max_entries_ s = cache_size_ (entries_ s) →
  cache_size_ (entries_ s) < 2 ^ 31 → any_ok (bid mem) → key_of (bid mem) = k →
  bsize mem = zlen data → is_u32 (refcount mem) →
  (commit_store malloc s mem data = Ret (kv_set_mem s (mem_ s), - EIO) ∧
     ¬ room (mem_ s) (zlen data)) ∨
  ∃ s' g, commit_store malloc s mem data = Ret (s', 0) ∧ kv_rep s' (G ++ [(k, g)]) ∧
    entry_of g = KvEntry data (refcount mem) (object_flags mem) (bid mem) ∧
    max_entries_ s' = max_entries_ s.
Proof.
  intros Href HL Hobj Hm Hu Hfit Hlt Hc Hmax Hcs Hpos Hid Hk Hs Hrc.
  pose proof (zlen_nonneg data). pose proof (zlen_nonneg G). pose proof (total_nonneg _ Hobj).
  unfold commit_store. rewrite eqb_false by lia.
  destruct (DoMalloc_ok _ _ k mem data Hm Hid Hs Hlt)
    as [(e & -> & _ & Hno)|(m1 & a & m2 & tail & -> & Hw & Ha & Hm2)]; exec; [by left|right].
  kv_cbn. cbn [bsize address bid refcount object_flags]. unfold SSIZE_MAX in *. rewrite Hs in Hm2 |- *.
  rewrite (u64_small (2 ^ 63 - 1 - zlen data)) by (unfold is_u64; lia). rewrite gtb_true by lia. exec.
  replace (load data 0 (zlen data)) with (Ret data).
  2:{ rewrite <- (app_nil_r data) at 2. symmetry. by apply (load_app [] data []). }
  exec. rewrite Hw. exec.
  assert (k ≠ bm_empty_key) by (rewrite <- Hk; by apply key_nonempty).
  set (buf := MkBuffer a _ _ _ _) in *.
  assert (∃ l b, Insert (entries_ s) k buf = Ret (l, b) ∧
    refines l (LruSpec (without k L ++ [(k, buf)]) false None) ∧
    cache_size_ l = cache_size_ (entries_ s)) as (l & b & Hl & Href' & Hsz).
  { destruct (assoc k L) as [w|] eqn:Hw'.
    - destruct (lru_Insert_update _ _ k buf w Href) as (l & ? & ? & ?); [done|lia|done|]. by exists l, false.
    - rewrite assoc_without in * by done.
      destruct (lru_Insert_new _ _ k buf Href) as (l & ? & ? & ?); [done|lia|done| |by exists l, true].
      rewrite HL. unfold zlen, lru_of in *. rewrite length_fmap. lia. }
  rewrite Hk, Hl. exec. do 2 eexists. split; [done|]. split; [|split; [|done]].
  2:{ instantiate (1 := GObj buf data tail). reflexivity. }
  assert (total (G ++ [(k, GObj buf data tail)]) = total G + zlen data) as Ht.
  { rewrite total_app. unfold total at 2. cbn. lia. }
  split; kv_cbn.
  - rewrite HL in Href'. unfold lru_of in *. by rewrite fmap_app.
  - apply Forall_app. split; [done|]. apply Forall_singleton. cbn. done.
  - done.
  - rewrite Ht, Hu, u64_small; [done|unfold is_u64; lia].
  - lia.
  - rewrite Hc, u32_small; [by rewrite zlen_app|unfold is_u32; lia].
  - congruence.
  - lia.
Qed.

(** The store after the memory of an object of [n] bytes is released. *)
Definition released (s : kvstore M) (m : objmem) (n : Z) : kvstore M :=
  kv_set_entry_count (kv_set_used (kv_set_mem s m) (u64 (used_bytes_ s - n)))
    (u32 (entry_count_ s - 1)).

(** The first half of [DoCommit]: compaction, the lookup, and releasing the
    memory of the old object. *)
Lemma Commit_start s G buf data : kv_rep s G → any_ok (bid buf) →
  let k := key_of (bid buf) in
  let mem rc := MkBuffer None (bsize buf) rc (object_flags buf) (bid buf) in
  ∃ s1 G1, ents G1 = ents G ∧ kv_rep s1 (touched k G1) ∧ NoDup G1.*1 ∧
    max_entries_ s1 = max_entries_ s ∧ (∀ n, room (mem_ s) n → room (mem_ s1) n) ∧
    match assoc k G1 with
    | Some g => ∃ m, DoFree (mem_ s1) (g_buf g) = Ret m ∧ gobj_ok k g ∧
        DoCommit malloc s buf data
        = commit_store malloc (released s1 m (bsize (g_buf g))) (mem (refcount (g_buf g))) data
    | None => DoCommit malloc s buf data = commit_store malloc s1 (mem (refcount buf)) data
    end.
Proof.
  intros Hr Hid k mem.
  destruct (CompactMemory_ok _ _ Hr) as (s1 & b1 & G1 & Hc1 & Hr1 & HE & Hroom & Hmx1).
  apply (kv_rep_count _ _ kv_n_commit 1) in Hr1 as Hr2.
  destruct (kv_lookup _ G1 (bid buf) true Hr2 Hid) as (l & Hl & Hr3 & Hsz).
  pose proof (kv_nodup _ _ Hr1) as Hnd. fold k in Hl, Hr3.
  exists (kv_set_entries (kv_count s1 kv_n_commit 1) l), G1. split_and!; try done.
  unfold DoCommit. rewrite Hc1. exec. unfold kv_inc. kv_cbn. fold k. rewrite Hl. exec.
  pose proof (assoc_touched k G1 Hnd) as Hat.
  destruct (assoc k G1) as [g|] eqn:Ha; cbn [fmap option_fmap option_map]; [|done].
  destruct (kv_free _ _ _ _ Hr3 Hat) as (m & Hf & _). kv_cbn. exists m. split; [done|].
  split; [by eapply kv_obj|]. rewrite Hf. exec. done.
Qed.

Lemma kv_rep_length s G : kv_rep s G → zlen G ≤ max_entries_ s.
Proof.
  intros Hr. destruct (refines_facts _ _ (kr_lru _ _ Hr)) as (_ & Hle & _).
  cbn [entries] in Hle. rewrite (kr_max _ _ Hr). unfold zlen, lru_of in *.
  by rewrite length_fmap in Hle.
Qed.

(** Replacing an object. *)
Lemma commit_replace s G k g m buf data : kv_rep s (touched k G) → NoDup G.*1 → assoc k G = Some g →
  gobj_ok k g → DoFree (mem_ s) (g_buf g) = Ret m → any_ok (bid buf) → key_of (bid buf) = k →
  bsize buf = zlen data → bytes_total (ents G) + zlen data < SSIZE_MAX → zlen data < 2 ^ 61 →
  refcount buf = refcount (g_buf g) →
  let s1 := released s m (bsize (g_buf g)) in
  (commit_store malloc s1 buf data = Ret (kv_set_mem s1 m, - EIO) ∧ ¬ room m (zlen data)) ∨
  ∃ s' g', commit_store malloc s1 buf data = Ret (s', 0) ∧
    kv_rep s' (without k G ++ [(k, g')]) ∧
    entry_of g' = KvEntry data (refcount buf) (object_flags buf) (bid buf) ∧
    max_entries_ s' = max_entries_ s.
Proof.
  intros Hr Hnd Ha (_ & _ & Hsg & Hrg & _) Hf Hid Hk Hs Hfit Hlt Hrc s1.
  pose proof (assoc_touched k G Hnd) as Hat. rewrite Ha in Hat. pose proof (without_touched k G) as Hwt.
  pose proof (kv_rep_length _ _ Hr) as Hle. pose proof Hr as [Hlru Hobj3 Hm3 Hu3 Hf3 Hc3 Hmax3 Hpos3].
  destruct (kv_free _ _ _ _ Hr Hat) as (m' & Hf' & [Hm _] & Ht & Hz & Hobj). rewrite Hwt in *.
  rewrite Hf in Hf'. injection Hf' as <-.
  assert (total (touched k G) = bytes_total (ents G)) as HE.
  { rewrite (total_perm _ _ (touched_perm k G Hnd)), ents_total; [done|].
    by rewrite <- (touched_perm k G Hnd). }
  pose proof (total_nonneg _ Hobj). pose proof (zlen_nonneg (g_data g)).
  pose proof (zlen_nonneg data). pose proof (zlen_nonneg (without k G)).
  destruct (commit_store_ok s1 (without k G) k (lru_of (touched k G)) buf data)
    as [?|?]; unfold s1, released in *; kv_cbn; try done; try by (left + right).
  - unfold lru_of. by rewrite without_fmap, Hwt.
  - rewrite Hu3, u64_small by (unfold is_u64; lia). lia.
  - unfold SSIZE_MAX in *. lia.
  - rewrite Hc3, u32_small by (unfold is_u32; lia). lia.
  - lia.
  - lia.
  - congruence.
Qed.

(** A commit answers as specified, except that replacing an object can fail
    for lack of memory; with enough memory it does not fail. *)
Lemma Commit_agrees s G buf data : kv_rep s G → kv_pre (ents G) (KCommit buf data) →
  ∃ s' r, kv_step s (KCommit buf data) = Ret (s', r) ∧ max_entries_ s' = max_entries_ s ∧
    (room (mem_ s) (zlen data) → r ≠ KInt (- EIO)) ∧
    ((∃ E', kv_spec (max_entries_ s) (ents G) (KCommit buf data) E' r ∧ kv_refines s' E') ∨
     is_Some (assoc (key_of (bid buf)) (ents G)) ∧ r = KInt (- EIO)).
Proof.
  intros Hr (Hid & Hs & Hrc & Hfit & Hlt).
  destruct (Commit_start s G buf data Hr Hid) as (s1 & G1 & HE & Hr1 & Hnd & Hmx1 & Hroom & Hc).
  rewrite <- HE in *. set (k := key_of (bid buf)) in *. cbn [kv_step].
  destruct (assoc k G1) as [g|] eqn:Ha.
  - destruct Hc as (m & Hf & Hg & ->).
    destruct (commit_replace s1 G1 k g m
      (MkBuffer None (bsize buf) (refcount (g_buf g)) (object_flags buf) (bid buf)) data)
      as [[-> Hno]|(s' & g' & -> & Hr' & Hg' & Hmx')]; try done; exec.
    + do 2 eexists. split; [done|]. split; [done|]. split.
      * intros Hro. by apply Hroom, (DoFree_room _ _ _ _ Hf) in Hro.
      * right. rewrite ents_assoc, Ha. by eauto.
    + do 2 eexists. split; [done|]. split; [congruence|]. split; [done|]. left.
      exists (renewed k (KvEntry data (refcount (g_buf g)) (object_flags buf) (bid buf)) (ents G1)).
      split; [|exists (without k G1 ++ [(k, g')]); split; [done|]].
      * apply (sp_commit_again _ _ _ _ (entry_of g)). fold k. by rewrite ents_assoc, Ha.
      * rewrite ents_renewed, Hg'. done.
  - assert (touched k G1 = G1) as Htk by (unfold touched; by rewrite Ha). rewrite Htk, Hc in *.
    assert (assoc k (ents G1) = None) as Hae by (by rewrite ents_assoc, Ha).
    assert (zlen (ents G1) = zlen G1) as Hze by (unfold zlen, ents; by rewrite length_fmap).
    pose proof (kv_rep_length _ _ Hr1). pose proof Hr1 as [Hlru ? ? ? ? ? ? [? ?]].
    rewrite <- ents_total in Hfit by done. 
    destruct (decide (zlen G1 = max_entries_ s1)) as [Hfull|Hnf].
    + unfold commit_store. rewrite eqb_true by lia. exec. do 2 eexists. split; [done|].
      split; [done|]. split; [done|]. left. exists (ents G1). split; [|by exists G1].
      apply sp_commit_full; [done|]. congruence.
    + destruct (commit_store_ok s1 G1 k (lru_of G1)
        (MkBuffer None (bsize buf) (refcount buf) (object_flags buf) (bid buf)) data)
        as [[-> Hno]|(s' & g' & -> & Hr' & Hg' & Hmx')]; try done; try lia; exec.
      * unfold lru_of. rewrite without_fmap, assoc_without; done.
      * do 2 eexists. split; [done|]. split; [done|]. split; [by intros ?%Hroom|].
        left. exists (ents G1). split; [|exists G1; split; [by destruct s1|done]].
        apply sp_commit_nomem; [done|]. rewrite Hze, <- Hmx1. lia.
      * do 2 eexists. split; [done|]. split; [congruence|]. split; [done|]. left.
        eexists. split; [apply sp_commit_new; [done|rewrite Hze, <- Hmx1; lia]|].
        exists (G1 ++ [(k, g')]). split; [done|]. unfold ents. rewrite fmap_app. cbn. by rewrite Hg'.
Qed.

(** *** Shrinking *)

(** The store during a filter operation at position [c]. *)
Record kv_at (s : kvstore M) (G : objects) (c : option nat) : Prop := {
  ka_lru : refines (entries_ s) (LruSpec (lru_of G) false c);
  ka_objs : Forall (λ kg, gobj_ok kg.1 kg.2) G;
  ka_mem : mem_rep (mem_ s) G;
  ka_used : used_bytes_ s = total G;
  ka_fits : total G < 2 ^ 63;
  ka_count : entry_count_ s = zlen G;
  ka_max : max_entries_ s = cache_size_ (entries_ s);
  ka_size : 0 < cache_size_ (entries_ s) < 2 ^ 31
}.

Lemma lru_of_lookup G1 k g G2 : lru_of (G1 ++ (k, g) :: G2) !! length G1 = Some (k, g_buf g).
Proof.
  unfold lru_of. rewrite fmap_app, lookup_app_r by (by rewrite length_fmap).
  rewrite length_fmap, Nat.sub_diag. done.
Qed.

Lemma lru_of_delete G1 k g G2 : delete (length G1) (lru_of (G1 ++ (k, g) :: G2)) = lru_of (G1 ++ G2).
Proof.
  unfold lru_of. rewrite !fmap_app, fmap_cons.
  rewrite <- (length_fmap (λ kg : hkey * gobj, (kg.1, g_buf kg.2)) G1) at 1.
  by rewrite delete_middle.
Qed.

(** One step of a filter operation of the LRU cache. *)
Lemma lru_filter l L c o L' c' r : refines l (LruSpec L false (Some c)) → 0 < cache_size_ l →
  op_key o → spec_filter L c o = Some (L', c', r) →
  ∃ l', lru_step l o = Ret (l', r) ∧ refines l' (LruSpec L' false c') ∧
    cache_size_ l' = cache_size_ l.
Proof.
  intros Hr Hpos Hk Hs. pose proof (step_refines l _ o Hr Hk Hpos) as H'.
  unfold lru_spec_step in H'. cbn [cursor entries paused] in H'. rewrite Hs in H'. done.
Qed.

Lemma kv_at_next s G c : kv_at s G (Some c) →
  ∃ l b, FilterNext (entries_ s) = Ret (l, b) ∧ b = (c <? length G)%nat ∧
    kv_at (kv_set_entries s l) G (Some (if b then S c else 0%nat)).
Proof.
  intros [Hl ? ? ? ? ? ? [Hpos ?]].
  destruct (lru_filter (entries_ s) (lru_of G) c (@OFilterNext hkey MemoryBuffer) (lru_of G)
    (Some (if (c <? length G)%nat then S c else 0%nat)) (RBool (c <? length G)%nat))
    as (l & Hs & Hr & Hsz); try done.
  { cbn [spec_filter]. unfold lru_of at 1. rewrite length_fmap. by destruct (c <? length G)%nat. }
  cbn [lru_step] in Hs. apply bind_Ret in Hs as ([l' b] & Hn & [= -> ->]).
  exists l, (c <? length G)%nat. split_and!; try done. split; kv_cbn; try done.
  - congruence.
  - by rewrite Hsz.
Qed.

Lemma kv_at_get s G1 k g G2 : kv_at s (G1 ++ (k, g) :: G2) (Some (S (length G1))) →
  FilterGet (entries_ s) = Ret (k, g_buf g).
Proof.
  intros [Hl ? ? ? ? ? ? [Hpos ?]].
  destruct (lru_filter (entries_ s) _ (S (length G1)) (@OFilterGet hkey MemoryBuffer)
    (lru_of (G1 ++ (k, g) :: G2)) (Some (S (length G1))) (REntry k (g_buf g)) Hl)
    as (l & Hs & _); try done.
  { cbn [spec_filter]. by rewrite lru_of_lookup. }
  cbn [lru_step] in Hs. by apply bind_Ret in Hs as ([k' b] & Hn & [= _ <- <-]).
Qed.

Lemma kv_at_delete s G1 k g G2 : kv_at s (G1 ++ (k, g) :: G2) (Some (S (length G1))) →
  ∃ l m, FilterDelete (entries_ s) = Ret l ∧ DoFree (mem_ s) (g_buf g) = Ret m ∧
    entry_count_ s >? 0 = true ∧
    ∀ c, kv_at (MkKv (u64 (used_bytes_ s - bsize (g_buf g))) (u32 (entry_count_ s - 1))
                  (max_entries_ s) l m c) (G1 ++ G2) (Some (length G1)).
Proof.
  intros [Hl Hobj Hm Hu Hfit Hc Hmax [Hpos Hlt]].
  destruct (lru_filter (entries_ s) _ (S (length G1)) (@OFilterDelete hkey MemoryBuffer)
    (lru_of (G1 ++ G2)) (Some (length G1)) RUnit Hl) as (l & Hs & Hr & Hsz); try done.
  { cbn [spec_filter]. by rewrite lru_of_delete. }
  cbn [lru_step] in Hs. apply bind_Ret in Hs as (l' & Hn & [= ->]).
  destruct (DoFree_ok _ _ _ _ _ Hm) as (m & Hf & Hm' & _).
  apply Forall_app in Hobj as [Ho1 [(_ & _ & Hs & _) Ho2]%Forall_cons]. cbn [snd] in Hs.
  destruct (refines_facts _ _ Hl) as (_ & Hle & _). cbn [entries] in Hle.
  unfold lru_of, zlen in Hle. rewrite length_fmap in Hle.
  rewrite total_app in Hu, Hfit. change (total ((k, g) :: G2)) with (bsize (g_buf g) + total G2) in *.
  pose proof (zlen_nonneg (g_data g)). pose proof (total_nonneg _ Ho1). pose proof (total_nonneg _ Ho2).
  unfold zlen in Hc. rewrite length_app in Hc, Hle. cbn [length] in Hc, Hle.
  exists l, m. split_and!; try done; [apply gtb_true; lia|].
  intros c. split; kv_cbn; try done.
  - by apply Forall_app.
  - rewrite u64_small by (unfold is_u64; lia). rewrite total_app. lia.
  - rewrite total_app. lia.
  - rewrite u32_small by (unfold is_u32; lia). unfold zlen. rewrite length_app. lia.
  - congruence.
  - by rewrite Hsz.
Qed.

Lemma shrink_loop_ok target G2 : ∀ fuel s G1, kv_at s (G1 ++ G2) (Some (length G1)) →
  (length G2 < fuel)%nat →
  ∃ s' G' c, shrink_loop fuel s target = Ret s' ∧ kv_at s' G' (Some c) ∧
    ents G' = ents G1 ++ shrunk (used_bytes_ s) target (ents G2) ∧
    max_entries_ s' = max_entries_ s.
Proof.
  induction G2 as [|[k g] G2 IH]; intros [|fuel] s G1 Hat Hfuel; cbn [length] in Hfuel; try lia;
    cbn [shrink_loop]; destruct (kv_at_next _ _ _ Hat) as (l & b & -> & -> & Hat1); exec.
  { rewrite app_nil_r, Nat.ltb_irrefl in *. cbn [negb]. do 2 eexists. exists 0%nat.
    split; [done|]. split; [exact Hat1|]. cbn. by rewrite app_nil_r. }
  rewrite (proj2 (Nat.ltb_lt _ _)) in * by (rewrite length_app; cbn [length]; lia). cbn [negb].
  change (ents ((k, g) :: G2)) with ((k, entry_of g) :: ents G2). cbn [shrunk]. kv_cbn.
  destruct (used_bytes_ s <=? target).
  { do 3 eexists. split; [done|]. split; [exact Hat1|]. split; [|done].
    unfold ents. by rewrite fmap_app. }
  pose proof (kv_at_get _ _ _ _ _ Hat1) as Hget. kv_cbn. rewrite Hget. exec. cbn [entry_of e_refcount e_data].
  destruct (refcount (g_buf g) >? 0).
  { replace (G1 ++ (k, g) :: G2) with ((G1 ++ [(k, g)]) ++ G2) in Hat1 by (by rewrite <- app_assoc).
    destruct (IH fuel (kv_set_entries s l) (G1 ++ [(k, g)])) as (s' & G' & c & Hs & Hat' & HG & Hmx).
    - rewrite length_app, Nat.add_1_r. done.
    - lia.
    - exists s', G', c. split_and!; try done. rewrite HG. unfold ents. rewrite fmap_app.
      by rewrite <- app_assoc. }
  destruct (kv_at_delete _ _ _ _ _ Hat1) as (l' & m & Hd & Hf & Hc & Hat2). kv_cbn.
  rewrite Hc. exec. rewrite Hd. exec. rewrite Hf. exec.
  pose proof (ka_objs _ _ _ Hat) as [_ [(_ & _ & Hsg & _) _]%Forall_cons]%Forall_app. cbn [snd] in Hsg.
  assert (u64 (used_bytes_ s - bsize (g_buf g)) = used_bytes_ s - zlen (g_data g)) as Hus.
  { pose proof (ka_used _ _ _ (Hat2 (kv_counters_ s))) as Hu2. pose proof (ka_used _ _ _ Hat) as Hu1.
    cbn [used_bytes_] in Hu2. rewrite Hu2, Hu1, <- Hsg, !total_app.
    change (total ((k, g) :: G2)) with (bsize (g_buf g) + total G2). lia. }
  rewrite Hus in *. destruct (IH fuel _ G1 (Hat2 (kv_set (kv_xadd (kv_counters_ s) kv_sz_shrunk
    (bsize (g_buf g))) kv_sz_size (used_bytes_ s - zlen (g_data g)))))
    as (s' & G' & c & Hs & Hat' & HG & Hmx); [lia|].
  exists s', G', c. split_and!; [exact Hs|done|exact HG|done].
Qed.

Lemma shrunk_noop used target E : used ≤ target → shrunk used target E = E.
Proof. intros. destruct E as [|[k e] E]; [done|]. cbn. by rewrite leb_true. Qed.

Lemma ShrinkTo_agrees s G target : kv_rep s G → kv_agrees s (ents G) (KShrinkTo target).
Proof.
  intros Hr. unfold kv_agrees. cbn [kv_step]. unfold ShrinkTo, kv_inc. kv_cbn.
  pose proof Hr as [Hlru Hobj Hm Hu Hfit Hc Hmax [Hpos Hlt]].
  pose proof (ents_total _ Hobj) as Ht.
  pose proof (sp_shrink (max_entries_ s) (ents G) target) as Hsp. cbn zeta in Hsp.
  rewrite <- Ht, <- Hu in Hsp. destruct (Z.leb_spec (used_bytes_ s) target) as [Hle|Hgt].
  { exec. rewrite shrunk_noop in Hsp by done. rewrite <- Ht, <- Hu, leb_true in Hsp by done.
    do 3 eexists. split; [done|]. split; [done|]. split; [|done]. exists G.
    split; [by apply kv_rep_count|done]. }
  pose proof (step_refines _ _ (@OFilterBegin hkey MemoryBuffer) Hlru I Hpos) as Hb.
  cbn [lru_spec_step cursor entries paused] in Hb. destruct Hb as (l & Hb & Href & Hsz).
  cbn [lru_step] in Hb. apply bind_Ret in Hb as (l' & Hb & [= ->]). rewrite Hb. exec.
  destruct (refines_facts _ _ Href) as (_ & _ & Hg & _). cbn [entries] in Hg. rewrite Hg.
  destruct (shrink_loop_ok target G (S (Z.to_nat (zlen (lru_of G))))
    (kv_set_entries (kv_count s kv_n_shrinkto 1) l) []) as (s' & G' & c & Hs & Hat & HG & Hmx).
  { split; kv_cbn; try done; [congruence|lia]. }
  { unfold zlen, lru_of. rewrite length_fmap. lia. }
  rewrite Hs. exec. change (ents [] ++ ?x) with x in HG. kv_cbn.
  pose proof Hat as [Hlru' Hobj' Hm' Hu' Hfit' Hc' Hmax' [Hpos' Hlt']].
  destruct (lru_filter _ _ _ (@OFilterEnd hkey MemoryBuffer) _ _ _ Hlru' Hpos' I eq_refl)
    as (l2 & He & Href2 & Hsz2).
  cbn [lru_step] in He. apply bind_Ret in He as (l3 & He & [= ->]). rewrite He. exec. kv_cbn.
  do 3 eexists. split; [done|]. rewrite <- HG in Hsp. rewrite <- ents_total, <- Hu' in Hsp by done.
  split; [exact Hsp|]. split; [|done]. exists G'. split; [|done].
  split; kv_cbn; try done; [congruence|lia].
Qed.

(** Replacing an object failed for lack of memory. *)
Definition lost_update (E : kv_list) (o : kv_op) (r : kv_reply) : Prop :=
  match o with
  | KCommit buf _ => is_Some (assoc (key_of (bid buf)) E) ∧ r = KInt (- EIO)
  | _ => False
  end.

Lemma kv_step_refines s E o : kv_refines s E → kv_pre E o →
  ∃ s' r, kv_step s o = Ret (s', r) ∧ max_entries_ s' = max_entries_ s ∧
    ((∃ E', kv_spec (max_entries_ s) E o E' r ∧ kv_refines s' E') ∨ lost_update E o r).
Proof.
  intros (G & Hr & <-) Hpre.
  assert (kv_agrees s (ents G) o → ∃ s' r, kv_step s o = Ret (s', r) ∧
    max_entries_ s' = max_entries_ s ∧
    ((∃ E', kv_spec (max_entries_ s) (ents G) o E' r ∧ kv_refines s' E') ∨ lost_update (ents G) o r))
    as Hag.
  { intros (s' & E' & r & ? & ? & ? & ?). exists s', r. split_and!; try done. left. by exists E'. }
  destruct o; cbn [kv_pre] in Hpre.
  - by apply Hag, Contains_agrees.
  - by apply Hag, GetSize_agrees.
  - by apply Hag, GetRefcount_agrees.
  - destruct Hpre. apply Hag. by apply IncRef_agrees.
  - destruct Hpre. apply Hag. by apply Unref_agrees.
  - destruct Hpre as (? & ? & ?). apply Hag. by apply Read_agrees.
  - destruct (Commit_agrees _ _ _ _ Hr Hpre) as (s' & r & ? & ? & _ & ?). by exists s', r.
  - by apply Hag, Delete_agrees.
  - by apply Hag, ShrinkTo_agrees.
Qed.

(** *** The operations for clients *)

Ltac kv_client Hag := destruct Hag as (s' & E' & r & Hs & Hsp & Href & Hmx); cbn [kv_step] in Hs;
  apply bind_Ret in Hs as ([s1 r1] & Hs & [= -> <-]); exists s'; inversion Hsp; subst;
  simplify_eq; try done.

Lemma kv_Contains s E i : kv_refines s E → any_ok i →
  ∃ s', Contains s i = Ret (s', bool_decide (is_Some (assoc (key_of i) E))) ∧ kv_refines s' E ∧
    max_entries_ s' = max_entries_ s.
Proof using malloc malloc_fresh empty_key_null. intros (G & Hr & <-) Hi. kv_client (Contains_agrees s G i Hr Hi). Qed.

Lemma kv_GetSize s E i : kv_refines s E → any_ok i →
  ∃ s', GetSize s i = Ret (s', match assoc (key_of i) E with
      | Some e => zlen (e_data e) | None => - ENOENT end) ∧
    kv_refines s' E ∧ max_entries_ s' = max_entries_ s.
Proof using malloc malloc_fresh empty_key_null. intros (G & Hr & <-) Hi. kv_client (GetSize_agrees s G i Hr Hi). Qed.

Lemma kv_IncRef s E i e : kv_refines s E → any_ok i → assoc (key_of i) E = Some e →
  e_refcount e < UINT_MAX →
  ∃ s', IncRef s i = Ret (s', true) ∧
    kv_refines s' (renewed (key_of i) (set_e_refcount e (e_refcount e + 1)) E) ∧
    max_entries_ s' = max_entries_ s.
Proof using malloc malloc_fresh empty_key_null.
  intros (G & Hr & <-) Hi Ha Hlt.
  assert (∀ e', assoc (key_of i) (ents G) = Some e' → e_refcount e' < UINT_MAX) as Hm
    by (intros e'; rewrite Ha; by intros [= <-]).
  kv_client (IncRef_agrees s G i Hr Hi Hm).
Qed.

Lemma kv_Unref s E i e : kv_refines s E → any_ok i → assoc (key_of i) E = Some e →
  0 < e_refcount e →
  ∃ s', Unref s i = Ret (s', true) ∧
    kv_refines s' (renewed (key_of i) (set_e_refcount e (e_refcount e - 1)) E) ∧
    max_entries_ s' = max_entries_ s.
Proof using malloc malloc_fresh empty_key_null.
  intros (G & Hr & <-) Hi Ha Hlt.
  assert (∀ e', assoc (key_of i) (ents G) = Some e' → 0 < e_refcount e') as Hm
    by (intros e'; rewrite Ha; by intros [= <-]).
  kv_client (Unref_agrees s G i Hr Hi Hm).
Qed.

Lemma kv_Read s E i n offset e : kv_refines s E → any_ok i → 0 ≤ n → 0 ≤ offset →
  assoc (key_of i) E = Some e →
  let data := take (Z.to_nat n) (drop (Z.to_nat offset) (e_data e)) in
  ∃ s', Read s i n offset = Ret (s', zlen data, data) ∧
    kv_refines s' (renewed (key_of i) e E) ∧ max_entries_ s' = max_entries_ s.
Proof using malloc malloc_fresh empty_key_null.
  intros (G & Hr & <-) Hi Hn Ho Ha data.
  destruct (Read_agrees s G i n offset Hr Hi Hn Ho) as (s' & E' & r & Hs & Hsp & Href & Hmx).
  cbn [kv_step] in Hs. apply bind_Ret in Hs as ([[s1 r1] b] & Hs & [= -> <-]).
  exists s'. inversion Hsp; subst; simplify_eq; done.
Qed.

Lemma kv_ShrinkTo s E target : kv_refines s E →
  ∃ s' b, ShrinkTo s target = Ret (s', b) ∧ kv_refines s' (shrunk (bytes_total E) target E) ∧
    max_entries_ s' = max_entries_ s.
Proof using malloc malloc_fresh empty_key_null.
  intros (G & Hr & <-). kv_client (ShrinkTo_agrees s G target Hr). by eexists.
Qed.

Lemma kv_used s E : kv_refines s E → used_bytes_ s = bytes_total E ∧ 0 ≤ bytes_total E < 2 ^ 63.
Proof.
  intros (G & Hr & <-). pose proof (kr_objs _ _ Hr) as Ho. rewrite <- ents_total by done.
  pose proof (total_nonneg _ Ho). pose proof (kr_fits _ _ Hr). by rewrite (kr_used _ _ Hr).
Qed.

Lemma kv_keys s E : kv_refines s E → NoDup E.*1.
Proof.
  intros (G & Hr & <-). pose proof (kv_nodup _ _ Hr) as Hnd. unfold ents.
  rewrite <- list_fmap_compose. exact Hnd.
Qed.

(** *** Sequences of operations *)

Fixpoint kv_run (s : kvstore M) (ops : list kv_op) : outcome (kvstore M * list kv_reply) :=
  match ops with
  | [] => Ret (s, [])
  | o :: ops =>
      '(s, r) ← kv_step s o;
      '(s, rs) ← kv_run s ops;
      Ret (s, r :: rs)
  end.

Inductive kv_trace (max : Z) : kv_list → list kv_op → list kv_reply → kv_list → Prop :=
| kt_nil E : kv_trace max E [] [] E
| kt_cons E o E1 r ops rs E2 : kv_spec max E o E1 r → kv_trace max E1 ops rs E2 →
    kv_trace max E (o :: ops) (r :: rs) E2.

(** Every operation of the sequence is used as required. *)
Fixpoint kv_legal (max : Z) (E : kv_list) (ops : list kv_op) : Prop :=
  match ops with
  | [] => True
  | o :: ops => kv_pre E o ∧ ∀ E' r, kv_spec max E o E' r → kv_legal max E' ops
  end.

(** The run answers as specified to its end, or up to a replacement that
    found no memory. *)
Definition kv_correct (max : Z) (E : kv_list) (ops : list kv_op)
    (run : list kv_op → outcome (kvstore M * list kv_reply)) : Prop :=
  (∃ s rs E', run ops = Ret (s, rs) ∧ kv_trace max E ops rs E') ∨
  (∃ ops1 o ops2 s rs r E1, ops = ops1 ++ o :: ops2 ∧
     run (ops1 ++ [o]) = Ret (s, rs ++ [r]) ∧ kv_trace max E ops1 rs E1 ∧ lost_update E1 o r).

Lemma kv_run_refines ops : ∀ s E, kv_refines s E → kv_legal (max_entries_ s) E ops →
  kv_correct (max_entries_ s) E ops (kv_run s).
Proof.
  induction ops as [|o ops IH]; intros s E Hr Hlegal.
  { left. exists s, [], E. split; [done|constructor]. }
  destruct Hlegal as [Hpre Hlegal].
  destruct (kv_step_refines s E o Hr Hpre) as (s1 & r & Hs & Hmx & [(E1 & Hsp & Hr1)|Hlost]).
  - destruct (IH s1 E1 Hr1) as [(s2 & rs & E2 & Hrun & Ht)|
      (ops1 & o' & ops2 & s2 & rs & r' & E2 & -> & Hrun & Ht & Hl)]; rewrite ?Hmx in *.
    + by eapply Hlegal.
    + left. exists s2, (r :: rs), E2. cbn [kv_run]. rewrite Hs. exec. rewrite Hrun. exec.
      split; [done|]. by econstructor.
    + right. exists (o :: ops1), o', ops2, s2, (r :: rs), r', E2. cbn [app kv_run]. rewrite Hs. exec.
      rewrite Hrun. exec. split_and!; try done. by econstructor.
  - right. exists [], o, ops, s1, [], r, E. cbn [app kv_run]. rewrite Hs. exec.
    split_and!; try done. constructor.
Qed.

Lemma KvInit_ok n alloc size : n mod 64 = 0 → 128 ≤ n < 2 ^ 31 →
  (alloc = kMallocHeap → kMinCapacity < size < 2 ^ 32 ∧ size mod 8 = 0) →
  ∃ s, KvInit sizeof_Entry n alloc size = Ret s ∧ kv_refines s [] ∧ max_entries_ s = n.
Proof.
  intros Hm Hn Ha. unfold KvInit.
  destruct (LruInit_ok null_key sizeof_Entry n Hm Hn) as (l & -> & Hl & Hsz). exec.
  assert (∃ m, (match alloc with
    | kMallocHeap => h ← HeapInit (u32 size); Ret (HeapMem h)
    | kMallocLibc => Ret (LibcMem ∅) end) = Ret m ∧ mem_rep m []) as (m & -> & Hmr).
  { destruct alloc.
    - eexists. split; [done|]. cbn. split; [apply NoDup_nil_2|done].
    - destruct (Ha eq_refl) as [Hs H8]. unfold kMinCapacity in *.
      destruct (HeapInit_ok size) as (h & Hi & Hok & _); [unfold kMinCapacity; lia|done|].
      rewrite u32_small, Hi by (unfold is_u32; lia). eexists. split; [done|]. by exists []. }
  exec. eexists. split; [done|]. split; [|done]. exists []. split; [|done].
  split; cbn; try done. lia.
Qed.


(** A commit of an object for which there is memory does not fail with
    [-EIO], so with a free entry or an object to replace it stores the
    object. *)
Theorem commit_with_room s E buf data : kv_refines s E → kv_pre E (KCommit buf data) →
  room (mem_ s) (zlen data) →
  zlen E < max_entries_ s ∨ is_Some (assoc (key_of (bid buf)) E) →
  let rc := match assoc (key_of (bid buf)) E with Some e => e_refcount e | None => refcount buf end in
  ∃ s', DoCommit malloc s buf data = Ret (s', 0) ∧
    kv_refines s' (renewed (key_of (bid buf)) (KvEntry data rc (object_flags buf) (bid buf)) E).
Proof.
  intros (G & Hr & <-) Hpre Hroom Hspace rc.
  destruct (Commit_agrees _ _ _ _ Hr Hpre) as (s' & r & Hs & _ & Hne & [(E' & Hsp & Href)|[_ ->]]);
    [|by destruct (Hne Hroom)].
  cbn [kv_step] in Hs. apply bind_Ret in Hs as ([s'' z] & Hc & [= -> <-]). exists s'.
  specialize (Hne Hroom). inversion Hsp as [| | | | | | | | |? ? ? Hna Hfull|? ? ? Hna|? ? ? Hna|? ? ? ? Ha| | | |]; subst.
  - exfalso. rewrite Hna in Hspace. destruct Hspace as [?|[? ?]]; [lia|done].
  - done.
  - split; [done|]. unfold renewed, rc. by rewrite Hna, assoc_without.
  - split; [done|]. unfold rc. by rewrite Ha.
Qed.

(** A replacement that finds no memory leaves an entry behind whose
    memory is already released: deleting that object afterwards releases the
    memory a second time, or fails the check of the number of entries. *)
Theorem lost_update_dangles s E buf data e s' : kv_refines s E → kv_pre E (KCommit buf data) →
  assoc (key_of (bid buf)) E = Some e → e_refcount e = 0 → e_data e ≠ [] →
  DoCommit malloc s buf data = Ret (s', - EIO) →
  ∃ f, Delete s' (bid buf) = Fail f.
Proof.
  intros (G & Hr & <-) (Hid & Hs & Hrc & Hfit & Hlt) He Hrc0 Hne Hcommit.
  destruct (Commit_start s G buf data Hr Hid) as (s1 & G1 & HE & Hr1 & Hnd & _ & _ & Hc).
  rewrite <- HE, ents_assoc in *. set (k := key_of (bid buf)) in *.
  destruct (assoc k G1) as [g|] eqn:Ha; [|done]. injection He as <-. cbn [entry_of e_refcount e_data] in *.
  destruct Hc as (m & Hf & Hg & Hc). rewrite Hc in Hcommit.
  pose proof (assoc_touched k G1 Hnd) as Hat. rewrite Ha in Hat.
  destruct (commit_replace s1 G1 k g m
    (MkBuffer None (bsize buf) (refcount (g_buf g)) (object_flags buf) (bid buf)) data)
    as [[Hst _]|(s2 & g' & Hst & _)]; try done; rewrite Hst in Hcommit; [|done].
  injection Hcommit as <-.
  destruct (kv_free _ _ _ _ Hr1 Hat) as (m' & Hf' & [_ Htw] & _). rewrite Hf in Hf'. injection Hf' as <-.
  destruct (Htw Hne) as [f Hff]. unfold Delete, DoDelete, released. kv_cbn.
  destruct (lru_Lookup _ _ k true (kr_lru _ _ Hr1)) as (l & Hl & _).
  { by apply key_nonempty. }
  { apply (kr_size _ _ Hr1). }
  fold k. rewrite Hl. exec. unfold lru_of. rewrite assoc_fmap, Hat. cbn [fmap option_fmap option_map].
  rewrite Hrc0. cbn [Z.gtb Z.compare]. kv_cbn.
  destruct (_ >? 0); exec; [|by eexists]. rewrite Hff. exec. by eexists.
Qed.

(** The size of the heap is truncated to 32 bits: a store created with a
    heap of a multiple of 4 GiB does not start. *)
Theorem kv_heap_size_truncated n size : n mod 64 = 0 → 128 ≤ n < 2 ^ 31 → size mod 2 ^ 32 = 0 →
  KvInit sizeof_Entry n kMallocHeap size = Fail AssertFailed.
Proof.
  intros Hm Hn Hs. unfold KvInit.
  destruct (LruInit_ok null_key sizeof_Entry n Hm Hn) as (l & -> & _). exec.
  unfold u32. rewrite Hs. done.
Qed.
End KvTheory.
