(* ===== verification/KvInstance.v ===== *)
(** * The object store over the fixed-size hash map

    [MemoryKvStore] as it is built: the map of its LRU cache is
    [SmallHashFixed] with [hasher_any] as its hash function. *)

From stdpp Require Import base list numbers gmap infinite.
From S2P Require Import Prelude Interfaces SmallHash LruList LruCache Bytes Hash MallocHeap KvStore.

Open Scope Z_scope.

Module KvWitness.
#[local] Instance kv_map : BoundedMap hkey (cache_entry MemoryBuffer) (@table hkey (cache_entry MemoryBuffer)) :=
  fixed_bounded_map hasher_any null_key null_key (CacheEntry PNull null_buffer) 8 16.

(** An allocator for blocks of at most 100 bytes. *)
Definition malloc (blocks : gmap Z bytes) (n : Z) : option Z :=
  if n <=? 100 then Some (fresh (dom (D := gset Z) blocks)) else None.

Lemma malloc_fresh blocks n a : malloc blocks n = Some a → blocks !! a = None.
Proof.
  unfold malloc. destruct (n <=? 100); [|done]. intros [= <-].
  apply not_elem_of_dom, is_fresh.
Qed.

Definition object (b : Z) : any := Any (replicate 20 b) kSha1 0.
Definition buffer (b : Z) (data : bytes) (rc : Z) : MemoryBuffer :=
  MkBuffer None (zlen data) rc 0 (object b).

Lemma object_ok b : is_u8 b → any_ok (object b).
Proof.
  intros Hb. split; [done| |done|unfold is_u8; cbn; lia].
  apply Forall_forall. intros x Hx. apply elem_of_replicate in Hx as [-> _]. exact Hb.
Qed.

(** Commits an object, reads from it and drops it. *)
Definition ops : list kv_op :=
  [KCommit (buffer 1 [10; 20; 30] 0) [10; 20; 30]; KRead (object 1) 100 1; KShrinkTo 2;
   KContains (object 1)].

Lemma ops_legal : kv_legal 128 [] ops.
Proof.
  assert (any_ok (object 1)) as Ho by (apply object_ok; unfold is_u8; lia).
  split; [cbn; unfold is_u32, SSIZE_MAX, zlen; cbn; split_and!; (done || lia)|].
  intros E1 r1 _. split; [split_and!; (done || lia)|].
  intros E2 r2 _. split; [cbn; lia|]. intros E3 r3 _. split; [done|]. by intros.
Qed.


(** A store that holds one object. *)
Definition data1 : bytes := [1; 2; 3].
Definition data2 : bytes := replicate 200 7.

Lemma one_object : ∃ s0 s1, KvInit 32 128 kMallocLibc 0 = Ret s0 ∧
  DoCommit malloc s0 (buffer 1 data1 0) data1 = Ret (s1, 0) ∧
  kv_refines s1 [(key_of (object 1), KvEntry data1 0 0 (object 1))].
Proof.
  assert (any_ok (object 1)) as Ho by (apply object_ok; unfold is_u8; lia).
  destruct (KvInit_ok (BoundedMap0 := kv_map) 32 128 kMallocLibc 0 eq_refl ltac:(lia) ltac:(discriminate))
    as (s0 & Hs0 & Hr0 & Hmx).
  assert ((s ← KvInit (BoundedMap0 := kv_map) 32 128 kMallocLibc 0;
           '(_, r) ← DoCommit malloc s (buffer 1 data1 0) data1; Ret r) = Ret 0) as Hc
    by (vm_compute; reflexivity).
  rewrite Hs0 in Hc. cbn [mbind outcome_bind] in Hc. apply bind_Ret in Hc as ([s1 r] & Hc & [= ->]).
  destruct (kv_step_refines (BoundedMap0 := kv_map) malloc malloc_fresh eq_refl s0 [] (KCommit (buffer 1 data1 0) data1) Hr0)
    as (s' & r & Hs & _ & [(E' & Hsp & Hr)|[[? ?] _]]); [|exists s0, s1|done].
  - cbn. unfold is_u32, SSIZE_MAX, zlen. cbn. split_and!; (done || lia).
  - cbn [kv_step] in Hs. rewrite Hc in Hs. injection Hs as <- <-.
    split; [exact Hs0|]. split; [exact Hc|].
    inversion Hsp; subst; done.
Qed.

Lemma commit_pre data : zlen data < 1000 →
  kv_pre [(key_of (object 1), KvEntry data1 0 0 (object 1))] (KCommit (buffer 1 data 0) data).
Proof.
  intros Hz. cbn. unfold is_u32, SSIZE_MAX. change (zlen data1) with 3.
  split_and!; (done || lia || by apply object_ok; unfold is_u8; lia).
Qed.

Lemma commit_with_room_witness : ∃ s1 s2,
  kv_refines s1 [(key_of (object 1), KvEntry data1 0 0 (object 1))] ∧
  DoCommit malloc s1 (buffer 1 [9] 0) [9] = Ret (s2, 0) ∧
  kv_refines s2 [(key_of (object 1), KvEntry [9] 0 0 (object 1))].
Proof.
  destruct one_object as (s0 & s1 & Hs0 & Hc & Hr). exists s1.
  destruct (commit_with_room (BoundedMap0 := kv_map) malloc malloc_fresh eq_refl s1 _ (buffer 1 [9] 0) [9] Hr)
    as (s2 & Hc2 & Hr2).
  - by apply commit_pre.
  - assert ((s ← KvInit (BoundedMap0 := kv_map) 32 128 kMallocLibc 0;
           '(s, r) ← DoCommit malloc s (buffer 1 data1 0) data1;
           Ret (match mem_ s with LibcMem _ => true | _ => false end)) = Ret true) as Hm
      by (vm_compute; reflexivity).
    rewrite Hs0 in Hm. cbn [mbind outcome_bind] in Hm. rewrite Hc in Hm. cbn [mbind outcome_bind] in Hm.
    destruct (mem_ s1); [|done]. intros blocks' _. by eexists.
  - right. by eexists.
  - exists s2. split; [exact Hr|]. split; [exact Hc2|]. exact Hr2.
Defined.

Lemma lost_update_dangles_witness : ∃ s1 s2 f,
  DoCommit malloc s1 (buffer 1 data2 0) data2 = Ret (s2, - EIO) ∧ Delete s2 (object 1) = Fail f.
Proof.
  destruct one_object as (s0 & s1 & Hs0 & Hc & Hr). exists s1.
  assert ((s ← KvInit (BoundedMap0 := kv_map) 32 128 kMallocLibc 0;
           '(s, _) ← DoCommit malloc s (buffer 1 data1 0) data1;
           '(_, r) ← DoCommit malloc s (buffer 1 data2 0) data2; Ret r) = Ret (- EIO)) as Hm
    by (vm_compute; reflexivity).
  rewrite Hs0 in Hm. cbn [mbind outcome_bind] in Hm. rewrite Hc in Hm. cbn [mbind outcome_bind] in Hm.
  apply bind_Ret in Hm as ([s2 r] & Hm & [= ->]).
  destruct (lost_update_dangles (BoundedMap0 := kv_map) malloc malloc_fresh eq_refl s1 _
    (buffer 1 data2 0) data2 (KvEntry data1 0 0 (object 1)) s2 Hr) as [f Hf].
  - by apply commit_pre.
  - reflexivity.
  - reflexivity.
  - discriminate.
  - exact Hm.
  - exists s2, f. split; [exact Hm|exact Hf].
Defined.

Lemma kv_heap_size_truncated_witness :
  KvInit (BoundedMap0 := kv_map) 32 128 kMallocHeap (2 ^ 32) = Fail AssertFailed.
Proof.
  exact (kv_heap_size_truncated (BoundedMap0 := kv_map) 32 128 (2 ^ 32) eq_refl ltac:(lia) eq_refl).
Defined.
End KvWitness.
