(* ===== verification/RamCache.v ===== *)
(** * The in-memory cache manager (src/cvmfs/cache_ram.cc, cache_ram.h)

    [RamCacheManager] keeps file contents in two object stores of KvStore, for
    regular and for volatile objects, and open files in a descriptor table of
    FdTable.  Every open descriptor holds a reference to its object, so that
    making room for new objects never removes an object that is in use; the
    objects of both stores together stay below the size limit.

    Transactions collect the contents of a new object in a buffer of libc's
    allocator.  The caller's transaction memory is passed and returned. *)

From stdpp Require Import base list numbers gmap.
From S2P Require Import Prelude Interfaces LruList LruCache Bytes Hash FdTable MallocHeap KvStore.

Open Scope Z_scope.

Definition kSizeUnknown : Z := 2 ^ 64 - 1.
Definition kPageSize : Z := 4096.
Definition kLabelCatalog : Z := 1.
Definition kLabelPinned : Z := 2.
Definition kLabelVolatile : Z := 4.

Definition kInvalidHandle : any := null_any.

Record ReadOnlyHandle := ROHandle { ro_handle : any; is_volatile : bool }.

Definition null_handle : ReadOnlyHandle := ROHandle kInvalidHandle false.
Definition handle_eq (h1 h2 : ReadOnlyHandle) : bool := any_eq (ro_handle h1) (ro_handle h2).

(** The buffer's memory is [t_data]; its address is null if that is [None]. *)
Record Transaction := Txn {
  t_buffer : MemoryBuffer;
  t_data : option bytes;
  expected_size : Z;
  pos : Z;
  description : bytes
}.

Inductive ram_counter :=
| rc_getsize | rc_close | rc_pread | rc_dup | rc_readahead | rc_starttxn | rc_write | rc_reset
| rc_aborttxn | rc_committxn | rc_enfile | rc_openregular | rc_openvolatile | rc_openmiss
| rc_overrun | rc_full | rc_realloc.

#[export] Instance ram_counter_eq_dec : EqDecision ram_counter.
Proof. solve_decision. Defined.

Section RamCache.
Context {M : Type} `{!BoundedMap hkey (cache_entry MemoryBuffer) M}.
(** libc: blocks of the object store, new transaction buffers with arbitrary
    contents, and grown transaction buffers. *)
Context (malloc : gmap Z bytes → Z → option Z).
Context (txn_malloc : Z → option bytes) (txn_realloc : option bytes → Z → option bytes).
Context (sizeof_Entry : Z).

Record ram_cache := RamCache {
  max_size_ : Z;
  fd_table_ : @fd_table ReadOnlyHandle;
  regular_entries_ : kvstore M;
  volatile_entries_ : kvstore M;
  ram_counters_ : ram_counter → Z
}.

Definition rinc (s : ram_cache) (i : ram_counter) : ram_cache :=
  RamCache (max_size_ s) (fd_table_ s) (regular_entries_ s) (volatile_entries_ s)
    (λ x, if decide (x = i) then i64 (ram_counters_ s x + 1) else ram_counters_ s x).
Definition set_fds (s : ram_cache) t : ram_cache :=
  RamCache (max_size_ s) t (regular_entries_ s) (volatile_entries_ s) (ram_counters_ s).

(** The two stores; [GetStore]. *)
Definition get_store (s : ram_cache) (v : bool) : kvstore M :=
  if v then volatile_entries_ s else regular_entries_ s.
Definition set_store (s : ram_cache) (v : bool) (kv : kvstore M) : ram_cache :=
  if v then RamCache (max_size_ s) (fd_table_ s) (regular_entries_ s) kv (ram_counters_ s)
  else RamCache (max_size_ s) (fd_table_ s) kv (volatile_entries_ s) (ram_counters_ s).
Definition GetStore (s : ram_cache) (h : ReadOnlyHandle) : kvstore M :=
  get_store s (is_volatile h).

Definition RamInit (max_size max_entries : Z) (alloc : MemoryAllocator) : outcome ram_cache :=
  t ← FdInit max_entries null_handle;
  regular ← KvInit sizeof_Entry max_entries alloc (u32 max_size);
  volatile ← KvInit sizeof_Entry max_entries alloc (u32 max_size);
  Ret (RamCache max_size t regular volatile (λ _, 0)).

Definition AddFd (s : ram_cache) (h : ReadOnlyHandle) : outcome (ram_cache * Z) :=
  '(t, result) ← OpenFd handle_eq (fd_table_ s) h;
  let s := set_fds s t in
  Ret (if result =? - ENFILE then rinc s rc_enfile else s, result).

Definition DoOpen (s : ram_cache) (i : any) : outcome (ram_cache * Z) :=
  '(kv, in_regular) ← Contains (regular_entries_ s) i;
  let s := set_store s false kv in
  '(kv, in_volatile) ← if negb in_regular then Contains (volatile_entries_ s) i
                       else Ret (volatile_entries_ s, false);
  let s := set_store s true kv in
  let found := if negb in_regular then if negb in_volatile then None else Some true
               else Some false in
  match found with
  | None => Ret (rinc s rc_openmiss, - ENOENT)
  | Some v =>
      '(s, fd) ← AddFd s (ROHandle i v);
      if fd <? 0 then Ret (s, fd)
      else
        let s := rinc s (if v then rc_openvolatile else rc_openregular) in
        '(kv, ok) ← IncRef (get_store s v) i;
        let s := set_store s v kv in
        _ ← cassert ok;
        Ret (s, fd)
  end.

Definition Open (s : ram_cache) (i : any) : outcome (ram_cache * Z) := DoOpen s i.

Definition GetSize (s : ram_cache) (fd : Z) : outcome (ram_cache * Z) :=
  h ← GetHandle handle_eq (fd_table_ s) fd;
  if any_eq (ro_handle h) kInvalidHandle then Ret (s, - EBADF)
  else
    let s := rinc s rc_getsize in
    '(kv, n) ← KvStore.GetSize (GetStore s h) (ro_handle h);
    Ret (set_store s (is_volatile h) kv, n).

Definition Close (s : ram_cache) (fd : Z) : outcome (ram_cache * Z) :=
  h ← GetHandle handle_eq (fd_table_ s) fd;
  if any_eq (ro_handle h) kInvalidHandle then Ret (s, - EBADF)
  else
    '(kv, rc) ← Unref (GetStore s h) (ro_handle h);
    let s := set_store s (is_volatile h) kv in
    _ ← cassert rc;
    '(t, rc_int) ← CloseFd handle_eq (fd_table_ s) fd;
    let s := set_fds s t in
    _ ← cassert (rc_int =? 0);
    Ret (rinc s rc_close, 0).

Definition Pread (s : ram_cache) (fd size offset : Z) : outcome (ram_cache * Z * bytes) :=
  h ← GetHandle handle_eq (fd_table_ s) fd;
  if any_eq (ro_handle h) kInvalidHandle then Ret (s, - EBADF, [])
  else
    let s := rinc s rc_pread in
    '(kv, n, b) ← Read (GetStore s h) (ro_handle h) size offset;
    Ret (set_store s (is_volatile h) kv, n, b).

Definition Dup (s : ram_cache) (fd : Z) : outcome (ram_cache * Z) :=
  h ← GetHandle handle_eq (fd_table_ s) fd;
  if any_eq (ro_handle h) kInvalidHandle then Ret (s, - EBADF)
  else
    '(s, rc) ← AddFd s h;
    if rc <? 0 then Ret (s, rc)
    else
      '(kv, ok) ← IncRef (GetStore s h) (ro_handle h);
      let s := set_store s (is_volatile h) kv in
      _ ← cassert ok;
      Ret (rinc s rc_dup, rc).

Definition Readahead (s : ram_cache) (fd : Z) : outcome (ram_cache * Z) :=
  h ← GetHandle handle_eq (fd_table_ s) fd;
  if any_eq (ro_handle h) kInvalidHandle then Ret (s, - EBADF)
  else Ret (rinc s rc_readahead, 0).
(** ** Transactions *)

Definition set_buffer (b : MemoryBuffer) (size rc flags : Z) : MemoryBuffer :=
  MkBuffer None size rc flags (bid b).

Definition StartTxn (s : ram_cache) (i : any) (size : Z) : ram_cache * Transaction * Z :=
  let bsz := if size =? kSizeUnknown then kPageSize else size in
  let data := txn_malloc bsz in
  let txn := Txn (MkBuffer None bsz 0 0 i) data size 0 [] in
  if bool_decide (data = None) && (size >? 0) then (s, txn, - ENOMEM)
  else (rinc s rc_starttxn, txn, 0).

Definition CtrlTxn (desc : bytes) (flags : Z) (txn : Transaction) : Transaction :=
  let b := t_buffer txn in
  Txn (set_buffer b (bsize b) (refcount b) flags) (t_data txn) (expected_size txn) (pos txn) desc.

(** [memcpy] into the buffer at [p]; nothing if either pointer is null. *)
Definition txn_copy (data : option bytes) (p : Z) (buf : option bytes) (size : Z)
    : outcome (option bytes) :=
  match data, buf with
  | Some d, Some b => b ← load b 0 size; d ← store d p b; Ret (Some d)
  | _, _ => Ret data
  end.

Definition Write (s : ram_cache) (buf : option bytes) (size : Z) (txn : Transaction)
    : outcome (ram_cache * Transaction * Z) :=
  let b := t_buffer txn in
  _ ← cassert (pos txn <=? bsize b);
  let copy s data n :=
    data ← txn_copy data (pos txn) buf size;
    Ret (rinc s rc_write,
         Txn (set_buffer b n (refcount b) (object_flags b)) data (expected_size txn)
           (u64 (pos txn + size)) (description txn),
         i64 size) in
  if u64 (pos txn + size) >? bsize b then
    if expected_size txn =? kSizeUnknown then
      let s := rinc s rc_realloc in
      let new_size := Z.max (u64 (2 * bsize b)) (u64 (size + pos txn)) in
      match txn_realloc (t_data txn) new_size with
      | None => Ret (s, txn, - EIO)
      | Some d => copy s (Some d) new_size
      end
    else Ret (s, txn, - EFBIG)
  else copy s (t_data txn) (bsize b).

Definition Reset (s : ram_cache) (txn : Transaction) : ram_cache * Transaction * Z :=
  (rinc s rc_reset,
   Txn (t_buffer txn) (t_data txn) (expected_size txn) 0 (description txn), 0).

Definition AbortTxn (s : ram_cache) (txn : Transaction) : ram_cache * Z :=
  (rinc s rc_aborttxn, 0).

(** [GetUsed] as an [int64_t] *)
Definition used (kv : kvstore M) : Z := i64 (used_bytes_ kv).

(** The part of [CommitToKvStore] that makes room for [size] bytes: the
    bytes still missing, at most 0 if there is room. *)
Definition make_space (s : ram_cache) (size : Z) : outcome (ram_cache * Z) :=
  let regular_size := used (regular_entries_ s) in
  let volatile_size := used (volatile_entries_ s) in
  let overrun := i64 (u64 (regular_size + volatile_size + size - max_size_ s)) in
  '(s, overrun) ←
    (if overrun >? 0 then
       let overrun := Z.max overrun (Z.shiftr (i64 (max_size_ s)) 2) in
       let s := rinc s rc_overrun in
       '(kv, _) ← ShrinkTo (volatile_entries_ s) (Z.max 0 (i64 (volatile_size - overrun)));
       Ret (set_store s true kv, overrun)
     else Ret (s, overrun));
  let overrun := i64 (u64 (overrun - u64 (volatile_size - used_bytes_ (volatile_entries_ s)))) in
  s ← (if overrun >? 0 then
         '(kv, _) ← ShrinkTo (regular_entries_ s) (Z.max 0 (i64 (regular_size - overrun)));
         Ret (set_store s false kv)
       else Ret s);
  Ret (s, i64 (u64 (overrun - u64 (regular_size - used_bytes_ (regular_entries_ s))))).

(** The flags select the store and pin the object. The reference count of the
    transaction's own buffer is set again by every commit. *)
Definition CommitToKvStore (s : ram_cache) (txn : Transaction) : outcome (ram_cache * Z) :=
  let b := t_buffer txn in
  let flags := object_flags b in
  let v := negb (Z.land flags kLabelVolatile =? 0) in
  let rc := if negb (Z.land flags kLabelPinned =? 0) || negb (Z.land flags kLabelCatalog =? 0)
            then 1 else 0 in
  '(s, overrun) ← make_space s (bsize b);
  if overrun >? 0 then Ret (rinc s rc_full, - ENOSPC)
  else
    '(kv, rc) ← DoCommit malloc (get_store s v) (set_buffer b (bsize b) rc flags)
                  (default [] (t_data txn));
    Ret (set_store s v kv, if rc <? 0 then rc else 0).

Definition OpenFromTxn (s : ram_cache) (txn : Transaction) : outcome (ram_cache * Z) :=
  '(s, retval) ← CommitToKvStore s txn;
  if retval <? 0 then Ret (s, i32 retval)
  else DoOpen (rinc s rc_committxn) (bid (t_buffer txn)).

Definition CommitTxn (s : ram_cache) (txn : Transaction) : outcome (ram_cache * Z) :=
  let s := rinc s rc_committxn in
  '(s, rc) ← CommitToKvStore s txn;
  Ret (s, i32 rc).
End RamCache.
Arguments ram_cache : clear implicits.

(** ** The state of the cache manager, abstractly *)

Notation kv_list := (list (hkey * kv_entry)).

Record ram_spec := RamSpec { a_fds : gmap Z ReadOnlyHandle; a_regular : kv_list; a_volatile : kv_list }.

Definition a_store (a : ram_spec) (v : bool) : kv_list := if v then a_volatile a else a_regular a.
Definition a_set_store (a : ram_spec) (v : bool) (E : kv_list) : ram_spec :=
  if v then RamSpec (a_fds a) (a_regular a) E else RamSpec (a_fds a) E (a_volatile a).
Definition a_set_fds (a : ram_spec) m : ram_spec := RamSpec m (a_regular a) (a_volatile a).

(** The descriptors that refer to object [k] of store [v]. *)
Definition refers (v : bool) (k : hkey) (h : ReadOnlyHandle) : Prop :=
  is_volatile h = v ∧ key_of (ro_handle h) = k.
Definition refs (m : gmap Z ReadOnlyHandle) (v : bool) (k : hkey) : Z :=
  Z.of_nat (size (filter (λ fh : Z * ReadOnlyHandle, refers v k fh.2) m)).

Lemma refs_insert m fd h v k : m !! fd = None →
  refs (<[fd := h]> m) v k = refs m v k + (if decide (refers v k h) then 1 else 0).
Proof.
  intros Hn. unfold refs. case_decide as Hd.
  - rewrite map_filter_insert_True by exact Hd. rewrite map_size_insert_None; [lia|].
    apply map_lookup_filter_None. by left.
  - rewrite map_filter_insert_False by exact Hd. rewrite delete_id by done. lia.
Qed.

Lemma refs_delete m fd h v k : m !! fd = Some h →
  refs (delete fd m) v k = refs m v k - (if decide (refers v k h) then 1 else 0).
Proof.
  intros Hs. rewrite <- (insert_delete_id m fd h Hs) at 2.
  rewrite refs_insert by apply lookup_delete_eq. lia.
Qed.

Lemma refs_bounds m v k : 0 ≤ refs m v k ≤ Z.of_nat (size m).
Proof.
  unfold refs. split; [lia|]. apply inj_le, map_subseteq_size, map_filter_subseteq.
Qed.

Lemma refs_open m fd h : m !! fd = Some h → 0 < refs m (is_volatile h) (key_of (ro_handle h)).
Proof.
  intros Hs. pose proof (refs_bounds (delete fd m) (is_volatile h) (key_of (ro_handle h))).
  rewrite (refs_delete _ _ h) in * by done. rewrite decide_True in * by done. lia.
Qed.

(** Object lists *)

Lemma assoc_without_ne k k' (E : kv_list) : k' ≠ k → assoc k' (without k E) = assoc k' E.
Proof.
  intros Hne. unfold without. induction E as [|[k1 e1] E IH]; [done|]. rewrite filter_cons. cbn [fst].
  case_decide; cbn [assoc]; rewrite IH; [done|]. rewrite decide_False; [done|]. naive_solver.
Qed.

Lemma assoc_app k (E1 E2 : kv_list) :
  assoc k (E1 ++ E2) = match assoc k E1 with Some e => Some e | None => assoc k E2 end.
Proof. induction E1 as [|[k1 e1] E1 IH]; [done|]. cbn. by destruct (decide (k1 = k)). Qed.

Lemma assoc_without_eq k (E : kv_list) : assoc k (without k E) = None.
Proof.
  unfold without. induction E as [|[k1 e1] E IH]; [done|]. rewrite filter_cons. cbn [fst].
  case_decide; [cbn [assoc]; by rewrite decide_False|done].
Qed.

Lemma assoc_renewed k e k' (E : kv_list) :
  assoc k' (renewed k e E) = if decide (k' = k) then Some e else assoc k' E.
Proof.
  unfold renewed. rewrite assoc_app. case_decide as Hd.
  - subst. rewrite assoc_without_eq. cbn. by rewrite decide_True.
  - rewrite assoc_without_ne by done. destruct (assoc k' E); [done|]. cbn. by rewrite decide_False.
Qed.

Lemma bytes_total_app E1 E2 : bytes_total (E1 ++ E2) = bytes_total E1 + bytes_total E2.
Proof.
  unfold bytes_total. rewrite foldr_app.
  generalize (foldr (λ ke n, zlen (e_data ke.2) + n) 0 E2).
  intros z. induction E1 as [|ke E1 IH]; cbn [foldr]; [lia|]. rewrite IH. lia.
Qed.

Lemma bytes_total_nonneg E : 0 ≤ bytes_total E.
Proof.
  induction E as [|[k e] E IH]; [done|].
  change (bytes_total ((k, e) :: E)) with (zlen (e_data e) + bytes_total E).
  pose proof (zlen_nonneg (e_data e)). lia.
Qed.

Lemma bytes_total_renewed k e (E : kv_list) : NoDup E.*1 →
  bytes_total (renewed k e E)
  = bytes_total E - match assoc k E with Some e0 => zlen (e_data e0) | None => 0 end + zlen (e_data e).
Proof.
  intros Hnd. unfold renewed. rewrite bytes_total_app.
  assert (bytes_total [(k, e)] = zlen (e_data e)) as -> by (unfold bytes_total; cbn; lia).
  destruct (assoc k E) as [e0|] eqn:Ha.
  - destruct (assoc_Some_split _ _ _ Ha) as (E1 & E2 & ->). destruct (nodup_split _ _ _ _ Hnd).
    rewrite without_split, !bytes_total_app by done.
    change (bytes_total ((k, e0) :: E2)) with (zlen (e_data e0) + bytes_total E2). lia.
  - rewrite assoc_without by done. lia.
Qed.

Lemma shrunk_assoc used target k e (E : kv_list) : NoDup E.*1 →
  (assoc k (shrunk used target E) = Some e → assoc k E = Some e) ∧
  (assoc k E = Some e → 0 < e_refcount e → assoc k (shrunk used target E) = Some e).
Proof.
  revert used. induction E as [|[k1 e1] E IH]; intros used Hnd; [done|].
  apply NoDup_cons in Hnd as [Hk1 Hnd]. cbn [shrunk]. destruct (used <=? target); [done|].
  destruct (Z.gtb_spec (e_refcount e1) 0).
  - cbn [assoc]. destruct (decide (k1 = k)); [done|]. by apply IH.
  - cbn [assoc]. destruct (IH (used - zlen (e_data e1)) Hnd) as [IH1 IH2].
    destruct (decide (k1 = k)) as [->|]; [|done]. split.
    + intros Ha%IH1. exfalso. apply (proj2 (assoc_None k E)) in Hk1. congruence.
    + intros [= ->]. lia.
Qed.

Lemma shrunk_total used target (E : kv_list) : 0 ≤ bytes_total (shrunk used target E) ≤ bytes_total E.
Proof.
  split; [apply bytes_total_nonneg|]. revert used.
  induction E as [|[k e] E IH]; intros used; [done|]. cbn [shrunk].
  change (bytes_total ((k, e) :: E)) with (zlen (e_data e) + bytes_total E).
  pose proof (zlen_nonneg (e_data e)).
  destruct (used <=? target); [done|]. destruct (e_refcount e >? 0).
  - change (bytes_total ((k, e) :: shrunk used target E))
      with (zlen (e_data e) + bytes_total (shrunk used target E)). specialize (IH used). lia.
  - specialize (IH (used - zlen (e_data e))). lia.
Qed.

(** ** The invariant *)

(** Open descriptors refer to objects in the cache, an object is referenced
    once for every descriptor, and once more if it is pinned; all objects
    together fit. *)
Record ram_inv (max : Z) (a : ram_spec) : Prop := {
  ri_refs v k e : assoc k (a_store a v) = Some e →
    e_refcount e = refs (a_fds a) v k ∨ e_refcount e = refs (a_fds a) v k + 1;
  ri_open fd h : a_fds a !! fd = Some h →
    any_ok (ro_handle h) ∧ is_Some (assoc (key_of (ro_handle h)) (a_store a (is_volatile h)));
  ri_quota : bytes_total (a_regular a) + bytes_total (a_volatile a) ≤ max
}.

Lemma a_store_set a v E v' :
  a_store (a_set_store a v E) v' = if decide (v = v') then E else a_store a v'.
Proof. by destruct v, v'. Qed.
Lemma a_fds_set a v E : a_fds (a_set_store a v E) = a_fds a.
Proof. by destruct v. Qed.
Lemma a_total_set a v E :
  bytes_total (a_regular (a_set_store a v E)) + bytes_total (a_volatile (a_set_store a v E))
  = bytes_total (a_regular a) + bytes_total (a_volatile a) - bytes_total (a_store a v) + bytes_total E.
Proof. destruct v; cbn [a_store a_set_store a_regular a_volatile]; lia. Qed.

(** Changing the reference count of an object along with the descriptors. *)
Lemma ram_inv_count max a m v k e d :
  ram_inv max a → NoDup (a_store a v).*1 → assoc k (a_store a v) = Some e →
  (∀ v' k', refs m v' k' = refs (a_fds a) v' k' + (if decide (v = v' ∧ k = k') then d else 0)) →
  (∀ fd h, m !! fd = Some h → (a_fds a !! fd = Some h) ∨
     (any_ok (ro_handle h) ∧ refers v k h)) →
  ram_inv max (a_set_store (a_set_fds a m) v
                 (renewed k (set_e_refcount e (e_refcount e + d)) (a_store a v))).
Proof.
  intros [Hrefs Hopen Hq] Hnd Ha Hm Hfds. split.
  - intros v' k' e'. rewrite a_store_set, a_fds_set. cbn [a_fds a_set_fds]. rewrite Hm.
    destruct (decide (v = v')) as [->|Hv].
    + rewrite assoc_renewed. destruct (decide (k' = k)) as [->|Hk].
      * intros [= <-]. rewrite decide_True by done. cbn. destruct (Hrefs _ _ _ Ha); lia.
      * intros He. rewrite decide_False by naive_solver. rewrite Z.add_0_r. by apply Hrefs.
    + intros He. rewrite decide_False by naive_solver. rewrite Z.add_0_r. by apply Hrefs.
  - intros fd h. rewrite a_fds_set. cbn [a_fds a_set_fds]. intros Hh. rewrite a_store_set.
    change (a_store (a_set_fds a m)) with (a_store a).
    destruct (Hfds _ _ Hh) as [Hold|[Hok [<- <-]]].
    + destruct (Hopen _ _ Hold) as [? Hs]. split; [done|]. case_decide as Hv; [|done]. subst v.
      rewrite assoc_renewed. case_decide; [by eexists|done].
    + split; [done|]. rewrite decide_True by done. rewrite assoc_renewed, decide_True by done. by eexists.
  - rewrite a_total_set. change (a_store (a_set_fds a m)) with (a_store a).
    rewrite bytes_total_renewed, Ha by done. cbn [set_e_refcount e_data a_set_fds a_regular a_volatile].
    lia.
Qed.

Lemma ram_inv_open max a fd h e : ram_inv max a → NoDup (a_store a (is_volatile h)).*1 →
  any_ok (ro_handle h) → a_fds a !! fd = None →
  assoc (key_of (ro_handle h)) (a_store a (is_volatile h)) = Some e →
  ram_inv max (a_set_store (a_set_fds a (<[fd := h]> (a_fds a))) (is_volatile h)
    (renewed (key_of (ro_handle h)) (set_e_refcount e (e_refcount e + 1)) (a_store a (is_volatile h)))).
Proof.
  intros Hi Hnd Hok Hn Ha. eapply ram_inv_count; try done.
  - intros v k. rewrite refs_insert by done. unfold refers. by repeat case_decide.
  - intros fd' h' [[-> <-]|[_ ?]]%lookup_insert_Some; [by right|by left].
Qed.

Lemma ram_inv_close max a fd h e : ram_inv max a → NoDup (a_store a (is_volatile h)).*1 →
  a_fds a !! fd = Some h →
  assoc (key_of (ro_handle h)) (a_store a (is_volatile h)) = Some e →
  ram_inv max (a_set_store (a_set_fds a (delete fd (a_fds a))) (is_volatile h)
    (renewed (key_of (ro_handle h)) (set_e_refcount e (e_refcount e - 1)) (a_store a (is_volatile h)))).
Proof.
  intros Hi Hnd Hs Ha. eapply ram_inv_count; try done.
  - intros v k. rewrite (refs_delete _ _ h) by done. unfold refers. repeat case_decide; lia || naive_solver.
  - intros fd' h' [_ ?]%lookup_delete_Some. by left.
Qed.

Lemma set_e_same e : set_e_refcount e (e_refcount e + 0) = e.
Proof. destruct e. unfold set_e_refcount. cbn. by rewrite Z.add_0_r. Qed.

Lemma ram_inv_touch max a v k e : ram_inv max a → NoDup (a_store a v).*1 →
  assoc k (a_store a v) = Some e → ram_inv max (a_set_store a v (renewed k e (a_store a v))).
Proof.
  intros Hi Hnd Ha. rewrite <- (set_e_same e).
  replace a with (a_set_fds a (a_fds a)) at 1 by (by destruct a).
  eapply ram_inv_count; try done.
  - intros v' k'. case_decide; lia.
  - by left.
Qed.

(** ** The specification *)

Inductive ram_op :=
| ROpen (i : any) | RGetSize (fd : Z) | RClose (fd : Z) | RPread (fd size offset : Z)
| RDup (fd : Z) | RReadahead (fd : Z) | ROpenFromTxn (txn : Transaction)
| RCommitTxn (txn : Transaction).

Inductive ram_reply := RInt (z : Z) | RData (z : Z) (b : bytes).

(** The store of an object; regular objects come first. *)
Definition located (a : ram_spec) (i : any) : option bool :=
  match assoc (key_of i) (a_regular a) with
  | Some _ => Some false
  | None => match assoc (key_of i) (a_volatile a) with Some _ => Some true | None => None end
  end.

(** A new descriptor for [h], which takes a reference to its object. *)
Definition opened (n : Z) (a : ram_spec) (h : ReadOnlyHandle) (a' : ram_spec) (r : ram_reply) : Prop :=
  (Z.of_nat (size (a_fds a)) = n ∧ a' = a ∧ r = RInt (- ENFILE)) ∨
  ∃ fd e, 0 ≤ fd < n ∧ a_fds a !! fd = None ∧ r = RInt fd ∧
    assoc (key_of (ro_handle h)) (a_store a (is_volatile h)) = Some e ∧
    a' = a_set_store (a_set_fds a (<[fd := h]> (a_fds a))) (is_volatile h)
           (renewed (key_of (ro_handle h)) (set_e_refcount e (e_refcount e + 1))
              (a_store a (is_volatile h))).

Definition total_bytes (a : ram_spec) : Z := bytes_total (a_regular a) + bytes_total (a_volatile a).

(** Unreferenced objects dropped from the stores, the least recently used ones
    first. *)
Definition dropped (a a' : ram_spec) : Prop :=
  a_fds a' = a_fds a ∧
  ∀ v, ∃ target, a_store a' v = shrunk (bytes_total (a_store a v)) target (a_store a v).

Definition txn_volatile (t : Transaction) : bool :=
  negb (Z.land (object_flags (t_buffer t)) kLabelVolatile =? 0).
Definition txn_pins (t : Transaction) : Z :=
  if negb (Z.land (object_flags (t_buffer t)) kLabelPinned =? 0)
     || negb (Z.land (object_flags (t_buffer t)) kLabelCatalog =? 0) then 1 else 0.
Definition txn_key (t : Transaction) : hkey := key_of (bid (t_buffer t)).

(** The object a transaction puts into the objects [E]. *)
Definition txn_entry (t : Transaction) (E : kv_list) : kv_entry :=
  KvEntry (default [] (t_data t))
    (match assoc (txn_key t) E with Some e => e_refcount e | None => txn_pins t end)
    (object_flags (t_buffer t)) (bid (t_buffer t)).

Definition committed (n max : Z) (a : ram_spec) (t : Transaction) (a' : ram_spec) (z : Z) : Prop :=
  let v := txn_volatile t in let size := bsize (t_buffer t) in
  ∃ a1, dropped a a1 ∧ (total_bytes a + size ≤ max → a1 = a) ∧
    ((z = - ENOSPC ∧ max < total_bytes a + size ∧ a' = a1) ∨
     (z = 0 ∧ total_bytes a1 + size ≤ max ∧
        a' = a_set_store a1 v (renewed (txn_key t) (txn_entry t (a_store a1 v)) (a_store a1 v))) ∨
     (z = - ENFILE ∧ zlen (a_store a1 v) = n ∧ assoc (txn_key t) (a_store a1 v) = None ∧ a' = a1) ∨
     (z = - EIO ∧ assoc (txn_key t) (a_store a1 v) = None ∧ a' = a1)).

(** The answers of a cache manager for [n] objects of [max] bytes in total. *)
Definition answers (n max : Z) (a : ram_spec) (o : ram_op) (a' : ram_spec) (r : ram_reply) : Prop :=
  let on_open fd (P : ReadOnlyHandle → kv_entry → Prop) :=
    match a_fds a !! fd with
    | None => a' = a ∧ r = RInt (- EBADF)
    | Some h => ∃ e, assoc (key_of (ro_handle h)) (a_store a (is_volatile h)) = Some e ∧ P h e
    end in
  let renew h e := renewed (key_of (ro_handle h)) e (a_store a (is_volatile h)) in
  match o with
  | ROpen i =>
      match located a i with
      | None => a' = a ∧ r = RInt (- ENOENT)
      | Some v => opened n a (ROHandle i v) a' r
      end
  | RGetSize fd => on_open fd (λ h e, a' = a ∧ r = RInt (zlen (e_data e)))
  | RClose fd => on_open fd (λ h e, r = RInt 0 ∧
      a' = a_set_store (a_set_fds a (delete fd (a_fds a))) (is_volatile h)
             (renew h (set_e_refcount e (e_refcount e - 1))))
  | RPread fd size offset => on_open fd (λ h e,
      let data := take (Z.to_nat size) (drop (Z.to_nat offset) (e_data e)) in
      r = RData (zlen data) data ∧ a' = a_set_store a (is_volatile h) (renew h e))
  | RDup fd => on_open fd (λ h e, opened n a h a' r)
  | RReadahead fd => on_open fd (λ h e, a' = a ∧ r = RInt 0)
  | RCommitTxn t => ∃ z, committed n max a t a' z ∧ r = RInt z
  | ROpenFromTxn t => ∃ a1 z, committed n max a t a1 z ∧
      if z =? 0 then
        ∃ v, located a1 (bid (t_buffer t)) = Some v ∧ opened n a1 (ROHandle (bid (t_buffer t)) v) a' r
      else a' = a1 ∧ r = RInt z
  end.

Section RamTheory.
Context {M : Type} `{!BoundedMap hkey (cache_entry MemoryBuffer) M}.
Context (malloc : gmap Z bytes → Z → option Z).
Context (malloc_fresh : ∀ blocks n a, malloc blocks n = Some a → blocks !! a = None).
Context (empty_key_null : bm_empty_key = null_key).

(** The cache manager for [n] objects and descriptors in the state [a]. *)
Record ram_rep (n : Z) (s : ram_cache M) (a : ram_spec) : Prop := {
  rr_fds : fd_rep handle_eq (fd_table_ s) (a_fds a);
  rr_invalid : invalid_handle_ (fd_table_ s) = null_handle;
  rr_len : zlen (fd_index_ (fd_table_ s)) = n;
  rr_store v : kv_refines (get_store s v) (a_store a v);
  rr_entries v : max_entries_ (get_store s v) = n
}.

Lemma handle_eq_refl h : handle_eq h h = true.
Proof.
  unfold handle_eq, any_eq. rewrite decide_True by done. by apply digest_eq_take.
Qed.

Lemma any_ok_valid i : any_ok i → any_eq i kInvalidHandle = false.
Proof. intros [_ _ Ha _]. unfold any_eq. by rewrite decide_False. Qed.

Lemma ram_rep_inc n s a c : ram_rep n s a → ram_rep n (rinc s c) a.
Proof. intros []. by split. Qed.

Lemma get_set_store s v kv v' :
  get_store (M := M) (set_store s v kv) v' = if decide (v = v') then kv else get_store s v'.
Proof. by destruct v, v'. Qed.
Lemma fds_set_store s v kv : fd_table_ (M := M) (set_store s v kv) = fd_table_ s.
Proof. by destruct v. Qed.
Lemma max_set_store s v kv : max_size_ (M := M) (set_store s v kv) = max_size_ s.
Proof. by destruct v. Qed.

Lemma ram_rep_store n s a v kv E : ram_rep n s a → kv_refines kv E → max_entries_ kv = n →
  ram_rep n (set_store s v kv) (a_set_store a v E).
Proof.
  intros [] Hk Hn. split; rewrite ?fds_set_store, ?a_fds_set; try done.
  - intros v'. rewrite get_set_store, a_store_set. by case_decide.
  - intros v'. rewrite get_set_store. by case_decide.
Qed.

Lemma a_set_same a v : a_set_store a v (a_store a v) = a.
Proof. by destruct a, v. Qed.

Lemma ram_rep_store_same n s a v kv : ram_rep n s a → kv_refines kv (a_store a v) →
  max_entries_ kv = n → ram_rep n (set_store s v kv) a.
Proof. intros. rewrite <- (a_set_same a v). by apply ram_rep_store. Qed.

Lemma ram_keys n s a v : ram_rep n s a → NoDup (a_store a v).*1.
Proof. intros Hr. apply (kv_keys _ _ (rr_store _ _ _ Hr v)). Qed.

(** The handle of a descriptor. *)
Lemma ram_handle n s max a fd : ram_rep n s a → ram_inv max a →
  ∃ h, GetHandle handle_eq (fd_table_ s) fd = Ret h ∧
    match a_fds a !! fd with
    | Some h' => h = h' ∧ any_eq (ro_handle h) kInvalidHandle = false
    | None => any_eq (ro_handle h) kInvalidHandle = true
    end.
Proof.
  intros Hr Hi. rewrite (GetHandle_ok handle_eq handle_eq_refl _ _ fd (rr_fds _ _ _ Hr)).
  eexists. split; [done|]. destruct (a_fds a !! fd) as [h|] eqn:Hh; cbn [default].
  - split; [done|]. apply any_ok_valid. by apply (ri_open _ _ Hi fd).
  - by rewrite (rr_invalid _ _ _ Hr).
Qed.

Lemma AddFd_ok n s a h : ram_rep n s a → any_ok (ro_handle h) →
  (∃ s', AddFd s h = Ret (s', - ENFILE) ∧ Z.of_nat (size (a_fds a)) = n ∧ ram_rep n s' a ∧
     max_size_ s' = max_size_ s) ∨
  (∃ s' fd, AddFd s h = Ret (s', fd) ∧ 0 ≤ fd < n ∧ a_fds a !! fd = None ∧
     ram_rep n s' (a_set_fds a (<[fd := h]> (a_fds a))) ∧ max_size_ s' = max_size_ s).
Proof.
  intros Hr Hok. pose proof Hr as [Hf Hinv Hn Hst Hen]. unfold AddFd.
  assert (handle_eq h (invalid_handle_ (fd_table_ s)) = false) as Hv.
  { rewrite Hinv. by apply any_ok_valid. }
  destruct (decide (Z.of_nat (size (a_fds a)) < zlen (fd_index_ (fd_table_ s)))) as [Hlt|Hge].
  - right. destruct (OpenFd_ok handle_eq handle_eq_refl _ _ h Hf Hv Hlt)
      as (t & fd & -> & Hfd & Hnone & Hf' & Hi' & Hl'). exec.
    rewrite eqb_false by (unfold ENFILE; lia).
    exists (set_fds s t), fd. split; [done|]. rewrite <- Hn. split_and!; try done; try lia.
    split; cbn; try congruence; try done. intros v. rewrite <- Hn in Hen. apply Hen.
  - left. pose proof (fr_pivot _ _ _ Hf) as Hp. pose proof (fr_bound _ _ _ Hf).
    unfold OpenFd. rewrite Hv, Z.geb_leb, (proj2 (Z.leb_le _ _)) by lia. exec.
    eexists. split; [done|]. split; [lia|]. split; [|done]. by apply ram_rep_inc.
Qed.

Definition ram_step (s : ram_cache M) (o : ram_op) : outcome (ram_cache M * ram_reply) :=
  match o with
  | ROpen i => '(s, z) ← Open s i; Ret (s, RInt z)
  | RGetSize fd => '(s, z) ← GetSize s fd; Ret (s, RInt z)
  | RClose fd => '(s, z) ← Close s fd; Ret (s, RInt z)
  | RPread fd size offset =>
      '(s, z, b) ← Pread s fd size offset; Ret (s, if z <? 0 then RInt z else RData z b)
  | RDup fd => '(s, z) ← Dup s fd; Ret (s, RInt z)
  | RReadahead fd => '(s, z) ← Readahead s fd; Ret (s, RInt z)
  | ROpenFromTxn t => '(s, z) ← OpenFromTxn malloc s t; Ret (s, RInt z)
  | RCommitTxn t => '(s, z) ← CommitTxn malloc s t; Ret (s, RInt z)
  end.

(** A state that stands for [a] and keeps the invariant. *)
Definition ram_good (n max : Z) (s : ram_cache M) (a : ram_spec) : Prop :=
  ram_rep n s a ∧ ram_inv max a ∧ max_size_ s = max.

Definition ram_agrees (n max : Z) (s : ram_cache M) (a : ram_spec) (o : ram_op) : Prop :=
  ∃ s' a' r, ram_step s o = Ret (s', r) ∧ answers n max a o a' r ∧ ram_good n max s' a'.

(** The references of descriptors do not overflow the reference count. *)
Lemma refcount_bounds n s max a v k e : ram_rep n s a → ram_inv max a →
  assoc k (a_store a v) = Some e → 0 ≤ e_refcount e < UINT_MAX.
Proof.
  intros Hr Hi Ha. pose proof (refs_bounds (a_fds a) v k) as Hb.
  pose proof (fr_pivot _ _ _ (rr_fds _ _ _ Hr)). pose proof (fr_bound _ _ _ (rr_fds _ _ _ Hr)).
  pose proof (fr_len _ _ _ (rr_fds _ _ _ Hr)). unfold UINT_MAX.
  destruct (ri_refs _ _ Hi _ _ _ Ha); lia.
Qed.

(** Taking a reference for a descriptor that was just opened. *)
Lemma ram_opened n max s0 s a fd h e : ram_good n max s0 a → any_ok (ro_handle h) →
  assoc (key_of (ro_handle h)) (a_store a (is_volatile h)) = Some e → a_fds a !! fd = None →
  ram_rep n s (a_set_fds a (<[fd := h]> (a_fds a))) → max_size_ s = max →
  ∃ kv, IncRef (get_store s (is_volatile h)) (ro_handle h) = Ret (kv, true) ∧
    ram_good n max (set_store s (is_volatile h) kv)
      (a_set_store (a_set_fds a (<[fd := h]> (a_fds a))) (is_volatile h)
        (renewed (key_of (ro_handle h)) (set_e_refcount e (e_refcount e + 1))
           (a_store a (is_volatile h)))).
Proof.
  intros (Hr0 & Hi & Hmx) Hok Ha Hn Hr Hmx'.
  destruct (refcount_bounds _ _ _ _ _ _ _ Hr0 Hi Ha) as [_ Hlt].
  destruct (kv_IncRef malloc malloc_fresh empty_key_null _ _ (ro_handle h) e (rr_store _ _ _ Hr (is_volatile h)) Hok Ha Hlt)
    as (kv & Hs & Href & Hen).
  exists kv. split; [done|]. split_and!.
  - apply ram_rep_store; try done. by rewrite Hen, (rr_entries _ _ _ Hr).
  - apply ram_inv_open; try done. by eapply ram_keys.
  - by rewrite max_set_store.
Qed.

Lemma ram_open n max s a h : ram_good n max s a → any_ok (ro_handle h) →
  is_Some (assoc (key_of (ro_handle h)) (a_store a (is_volatile h))) →
  ∀ cnt, ∃ s' a' z,
    ('(s, fd) ← AddFd s h;
     if fd <? 0 then Ret (s, fd)
     else
       let s := rinc s cnt in
       '(kv, ok) ← IncRef (get_store s (is_volatile h)) (ro_handle h);
       let s := set_store s (is_volatile h) kv in
       _ ← cassert ok; Ret (s, fd)) = Ret (s', z) ∧
    opened n a h a' (RInt z) ∧ ram_good n max s' a'.
Proof.
  intros Hg Hok [e Ha] cnt. pose proof Hg as (Hr & Hi & Hmx).
  destruct (AddFd_ok n s a h Hr Hok) as [(s' & -> & Hfull & Hr' & Hmx')|
    (s' & fd & -> & Hfd & Hn & Hr' & Hmx')]; exec.
  - exists s', a, (- ENFILE). split; [done|]. split; [by left|].
    split; [done|]. split; [done|congruence].
  - rewrite ltb_false by lia. apply (ram_rep_inc _ _ _ cnt) in Hr'.
    destruct (ram_opened n max s (rinc s' cnt) a fd h e Hg Hok Ha Hn Hr') as (kv & -> & Hg'); [cbn; congruence|].
    exec. do 3 eexists. split; [done|]. split; [right; by exists fd, e|done].
Qed.

Lemma DoOpen_agrees n max s a i : ram_good n max s a → any_ok i →
  ∃ s' a' z, DoOpen s i = Ret (s', z) ∧ ram_good n max s' a' ∧
    match located a i with
    | None => a' = a ∧ z = - ENOENT
    | Some v => opened n a (ROHandle i v) a' (RInt z)
    end.
Proof.
  intros (Hr & Hi & Hmx) Hok. unfold DoOpen, located.
  destruct (kv_Contains malloc malloc_fresh empty_key_null _ _ i (rr_store _ _ _ Hr false) Hok)
    as (kv1 & Hc1 & Hk1 & Hn1). cbn [get_store a_store] in *. rewrite Hc1. exec.
  pose proof (rr_entries _ _ _ Hr false) as Hen. cbn [get_store] in Hen. rewrite Hen in Hn1.
  apply (ram_rep_store_same _ _ _ false kv1) in Hr as Hr1; [|done|done].
  assert (∃ kv2, (if negb (bool_decide (is_Some (assoc (key_of i) (a_regular a))))
      then Contains (volatile_entries_ (set_store s false kv1)) i
      else Ret (volatile_entries_ (set_store s false kv1), false))
     = Ret (kv2, negb (bool_decide (is_Some (assoc (key_of i) (a_regular a)))) &&
                 bool_decide (is_Some (assoc (key_of i) (a_volatile a)))) ∧
     ram_good n max (set_store (set_store s false kv1) true kv2) a) as (kv2 & -> & Hg2).
  { case_bool_decide; cbn [negb andb].
    - eexists. split; [done|]. split_and!; [|done|done]. apply ram_rep_store_same; [done|..].
      + apply (rr_store _ _ _ Hr1 true).
      + apply (rr_entries _ _ _ Hr1 true).
    - destruct (kv_Contains malloc malloc_fresh empty_key_null _ _ i (rr_store _ _ _ Hr1 true) Hok)
        as (kv2 & Hc2 & Hk2 & Hn2). cbn [get_store a_store] in *. rewrite Hc2.
      eexists. split; [done|]. split_and!; [|done|done]. apply ram_rep_store_same; [done|done|].
      rewrite Hn2. apply (rr_entries _ _ _ Hr1 true). }
  exec. set (s2 := set_store _ true kv2) in *.
  destruct (assoc (key_of i) (a_regular a)) as [e|] eqn:Ea; cbn [negb andb bool_decide decide_rel].
  { rewrite bool_decide_true by by eexists. cbn [negb andb].
    destruct (ram_open n max s2 a (ROHandle i false) Hg2 Hok ltac:(by exists e) rc_openregular)
      as (s' & a' & z & Hs & Ho & Hg'). cbn [is_volatile ro_handle] in Hs. rewrite Hs. by exists s', a', z. }
  rewrite bool_decide_false by by intros [? ?]. cbn [negb andb].
  destruct (assoc (key_of i) (a_volatile a)) as [e|] eqn:Ev.
  { rewrite bool_decide_true by by eexists. cbn [negb andb].
    destruct (ram_open n max s2 a (ROHandle i true) Hg2 Hok ltac:(by exists e) rc_openvolatile)
      as (s' & a' & z & Hs & Ho & Hg'). cbn [is_volatile ro_handle] in Hs. rewrite Hs. by exists s', a', z. }
  rewrite bool_decide_false by by intros [? ?]. cbn [negb andb].
  do 2 eexists. exists (- ENOENT). split; [done|]. split; [|by split].
  destruct Hg2 as (? & ? & ?). split_and!; [by apply ram_rep_inc|done|done].
Qed.

Lemma Open_agrees n max s a i : ram_good n max s a → any_ok i → ram_agrees n max s a (ROpen i).
Proof.
  intros Hg Hok. destruct (DoOpen_agrees n max s a i Hg Hok) as (s' & a' & z & Hs & Hg' & Ho).
  exists s', a', (RInt z). cbn [ram_step answers]. unfold Open. rewrite Hs. exec. split; [done|].
  split; [|done]. destruct (located a i); [done|]. by destruct Ho as [-> ->].
Qed.

(** The handle of an open descriptor and its object. *)
Lemma ram_object max a fd h : ram_inv max a → a_fds a !! fd = Some h → any_ok (ro_handle h) ∧
  ∃ e, assoc (key_of (ro_handle h)) (a_store a (is_volatile h)) = Some e ∧ 0 < e_refcount e.
Proof.
  intros Hi Hh. destruct (ri_open _ _ Hi _ _ Hh) as [Hok [e He]]. split; [done|]. exists e.
  split; [done|]. pose proof (refs_open _ _ _ Hh). destruct (ri_refs _ _ Hi _ _ _ He); lia.
Qed.

Ltac on_handle fd := match goal with
  | Hg : ram_good ?n ?max ?s ?a |- _ =>
      let Hr := fresh "Hr" in let Hi := fresh "Hi" in let Hmx := fresh "Hmx" in
      pose proof Hg as (Hr & Hi & Hmx);
      let h := fresh "h" in let Hh := fresh "Hh" in let Hb := fresh "Hb" in
      destruct (ram_handle n s max a fd Hr Hi) as (h & Hh & Hb);
      unfold ram_agrees; cbn [ram_step answers];
      let E := fresh "Efd" in destruct (a_fds a !! fd) eqn:E
  end.

Lemma RamGetSize_agrees n max s a fd : ram_good n max s a → ram_agrees n max s a (RGetSize fd).
Proof.
  intros Hg. on_handle fd; unfold GetSize; rewrite Hh; exec.
  2:{ rewrite Hb. exec. by exists s, a, (RInt (- EBADF)). }
  destruct Hb as [-> ->]. destruct (ram_object _ _ _ _ Hi Efd) as (Hok & e & He & _).
  destruct (kv_GetSize malloc malloc_fresh empty_key_null _ _ _ (rr_store _ _ _ Hr (is_volatile r)) Hok)
    as (kv & Hs & Hk & Hn). rewrite He in Hs.
  unfold GetStore. change (get_store (rinc s rc_getsize)) with (get_store s). rewrite Hs. exec.
  do 3 eexists. split; [done|]. split; [by exists e|]. split_and!; [|done|by rewrite max_set_store].
  apply ram_rep_store_same; [by apply ram_rep_inc|done|]. by rewrite Hn, (rr_entries _ _ _ Hr).
Qed.

Lemma Readahead_agrees n max s a fd : ram_good n max s a → ram_agrees n max s a (RReadahead fd).
Proof.
  intros Hg. on_handle fd; unfold Readahead; rewrite Hh; exec.
  2:{ rewrite Hb. exec. by exists s, a, (RInt (- EBADF)). }
  destruct Hb as [-> ->]. destruct (ram_object _ _ _ _ Hi Efd) as (_ & e & He & _). exec.
  do 3 eexists. split; [done|]. split; [by exists e|]. split_and!; [by apply ram_rep_inc|done|done].
Qed.

Lemma Pread_agrees n max s a fd size offset : ram_good n max s a → 0 ≤ size → 0 ≤ offset →
  ram_agrees n max s a (RPread fd size offset).
Proof.
  intros Hg Hsz Hoff. on_handle fd; unfold Pread; rewrite Hh; exec.
  2:{ rewrite Hb. exec. by exists s, a, (RInt (- EBADF)). }
  destruct Hb as [-> ->]. destruct (ram_object _ _ _ _ Hi Efd) as (Hok & e & He & _).
  destruct (kv_Read malloc malloc_fresh empty_key_null _ _ _ size offset e
    (rr_store _ _ _ Hr (is_volatile r)) Hok Hsz Hoff He) as (kv & Hs & Hk & Hn).
  unfold GetStore. change (get_store (rinc s rc_pread)) with (get_store s). rewrite Hs. exec.
  rewrite ltb_false by apply zlen_nonneg. do 3 eexists. split; [done|]. split; [by exists e|].
  split_and!.
  - apply ram_rep_store; [by apply ram_rep_inc|done|]. by rewrite Hn, (rr_entries _ _ _ Hr).
  - apply ram_inv_touch; try done. by eapply ram_keys.
  - by rewrite max_set_store.
Qed.

Lemma Dup_agrees n max s a fd : ram_good n max s a → ram_agrees n max s a (RDup fd).
Proof.
  intros Hg. on_handle fd; unfold Dup; rewrite Hh; exec.
  2:{ rewrite Hb. exec. by exists s, a, (RInt (- EBADF)). }
  destruct Hb as [-> ->]. destruct (ram_object _ _ _ _ Hi Efd) as (Hok & e & He & _).
  destruct (AddFd_ok n s a r Hr Hok) as [(s' & -> & Hfull & Hr' & Hmx')|
    (s' & fd' & -> & Hfd & Hn & Hr' & Hmx')]; exec.
  - do 3 eexists. split; [done|]. split; [exists e; split; [done|by left]|].
    split; [done|]. split; [done|congruence].
  - rewrite ltb_false by lia.
    destruct (ram_opened n max s s' a fd' r e Hg Hok He Hn Hr') as (kv & Hs & (Hg1 & Hg2 & Hg3)); [congruence|].
    unfold GetStore. rewrite Hs. exec. do 3 eexists. split; [done|].
    split; [exists e; split; [done|]; right; by exists fd', e|].
    split_and!; [by apply ram_rep_inc|done|done].
Qed.

Lemma Close_agrees n max s a fd : ram_good n max s a → ram_agrees n max s a (RClose fd).
Proof.
  intros Hg. on_handle fd; unfold Close; rewrite Hh; exec.
  2:{ rewrite Hb. exec. by exists s, a, (RInt (- EBADF)). }
  destruct Hb as [-> ->]. destruct (ram_object _ _ _ _ Hi Efd) as (Hok & e & He & Hpos).
  destruct (kv_Unref malloc malloc_fresh empty_key_null _ _ _ e
    (rr_store _ _ _ Hr (is_volatile r)) Hok He Hpos) as (kv & Hs & Hk & Hn).
  unfold GetStore. rewrite Hs. exec. rewrite fds_set_store.
  destruct (CloseFd_ok handle_eq handle_eq_refl _ _ fd r (rr_fds _ _ _ Hr) Efd)
    as (t & -> & Hf & Hinv & Hlen). exec. rewrite Z.eqb_refl. exec.
  do 3 eexists. split; [done|]. split; [by exists e|]. split_and!.
  - apply ram_rep_inc. rewrite (rr_entries _ _ _ Hr (is_volatile r)) in Hn.
    destruct (ram_rep_store _ _ _ (is_volatile r) kv _ Hr Hk Hn) as [_ _ _ Hst Hen].
    destruct Hr as [_ Hinv0 Hlen0 _ _]. split; try done.
    + by rewrite a_fds_set.
    + cbn. congruence.
    + cbn. congruence.
    + intros v. specialize (Hst v). by rewrite a_store_set in *.
  - apply ram_inv_close; try done. by eapply ram_keys.
  - cbn. by rewrite max_set_store.
Qed.

(** *** Commits *)

Lemma dropped_inv max a a1 : ram_inv max a → (∀ v, NoDup (a_store a v).*1) → dropped a a1 →
  ram_inv max a1 ∧ total_bytes a1 ≤ total_bytes a.
Proof.
  intros [Hrefs Hopen Hq] Hnd [Hf Hd].
  assert (∀ v, bytes_total (a_store a1 v) ≤ bytes_total (a_store a v)) as Hle.
  { intros v. destruct (Hd v) as [t ->]. apply shrunk_total. }
  pose proof (Hle false) as H1. pose proof (Hle true) as H2. cbn [a_store] in H1, H2.
  unfold total_bytes. split; [split|lia].
  - intros v k e. destruct (Hd v) as [t ->]. rewrite Hf. intros Ha.
    apply Hrefs. by apply (shrunk_assoc _ _ _ _ _ (Hnd v)) in Ha.
  - intros fd h. rewrite Hf. intros Hh. destruct (Hopen _ _ Hh) as [Hok [e He]]. split; [done|].
    destruct (Hd (is_volatile h)) as [t ->]. exists e. apply shrunk_assoc; try done.
    pose proof (refs_open _ _ _ Hh). destruct (Hrefs _ _ _ He); lia.
  - lia.
Qed.

Lemma dropped_refl a : dropped a a.
Proof. split; [done|]. intros v. exists (bytes_total (a_store a v)). by rewrite shrunk_noop. Qed.

(** Shrinking one of the stores. *)
Lemma ram_shrink n s a v target : ram_rep n s a →
  ∃ kv b, ShrinkTo (get_store s v) target = Ret (kv, b) ∧
    let E := shrunk (bytes_total (a_store a v)) target (a_store a v) in
    ram_rep n (set_store s v kv) (a_set_store a v E) ∧ used_bytes_ kv = bytes_total E.
Proof.
  intros Hr. destruct (kv_ShrinkTo malloc malloc_fresh empty_key_null _ _ target (rr_store _ _ _ Hr v))
    as (kv & b & Hs & Hk & Hn).
  exists kv, b. split; [done|]. split; [|by apply kv_used].
  apply ram_rep_store; [done|done|]. by rewrite Hn, (rr_entries _ _ _ Hr).
Qed.

Lemma ram_used n s a v : ram_rep n s a →
  used_bytes_ (get_store s v) = bytes_total (a_store a v) ∧
  used (get_store s v) = bytes_total (a_store a v) ∧ 0 ≤ bytes_total (a_store a v).
Proof.
  intros Hr. destruct (kv_used _ _ (rr_store _ _ _ Hr v)) as [Hu Hb]. unfold used.
  rewrite Hu, i64_small by lia. split_and!; [done|done|lia].
Qed.

Lemma i64_sub a b : - 2 ^ 63 ≤ a - b < 2 ^ 63 → i64 (u64 (a - u64 b)) = a - b.
Proof. intros. by rewrite u64_sub_l, i64_u64, i64_small. Qed.

Lemma dropped_set a v target :
  dropped a (a_set_store a v (shrunk (bytes_total (a_store a v)) target (a_store a v))).
Proof.
  split; [by rewrite a_fds_set|]. intros v'. rewrite a_store_set. case_decide as Hd.
  - subst. by eexists.
  - by apply dropped_refl.
Qed.

Lemma make_space_ok n max s a size : ram_good n max s a → 0 ≤ size < 2 ^ 61 → 0 ≤ max < 2 ^ 62 →
  ∃ s' a1 overrun, make_space s size = Ret (s', overrun) ∧ ram_rep n s' a1 ∧ max_size_ s' = max ∧
    dropped a a1 ∧ (total_bytes a + size ≤ max → a1 = a ∧ overrun ≤ 0) ∧
    (overrun ≤ 0 → total_bytes a1 + size ≤ max).
Proof.
  intros (Hr & Hi & Hmx) Hsz Hmax. unfold make_space.
  destruct (ram_used n s a false Hr) as (Hr1 & Hr2 & Hr3).
  destruct (ram_used n s a true Hr) as (Hv1 & Hv2 & Hv3). cbn [get_store a_store] in *.
  pose proof (ri_quota _ _ Hi) as Hq. unfold total_bytes.
  rewrite Hr2, Hv2, Hmx, i64_u64, (i64_small (_ - max)) by lia.
  set (R := bytes_total (a_regular a)) in *. set (V := bytes_total (a_volatile a)) in *.
  destruct (Z.gtb_spec (R + V + size - max) 0) as [Hov|Hok].
  2:{ exec. rewrite Hv1. fold V. rewrite i64_sub by lia. rewrite gtb_false by lia. exec.
      rewrite Hr1. fold R. rewrite i64_sub by lia. do 3 eexists. split; [done|]. split_and!; try done.
      - apply dropped_refl.
      - split; [done|lia].
      - lia. }
  rewrite Z.shiftr_div_pow2, (i64_small max) by lia. change (2 ^ 2) with 4.
  pose proof (Z.div_pos max 4) as Hd1. pose proof (Z.div_le_upper_bound max 4 max) as Hd2.
  set (ov := Z.max _ (max / 4)). assert (R + V + size - max ≤ ov < 2 ^ 62) as Hovb by lia.
  destruct (ram_shrink n (rinc s rc_overrun) a true (Z.max 0 (i64 (V - ov)))) as (kv & b & Hs & Hr' & Hu).
  { by apply ram_rep_inc. }
  cbn [get_store a_store rinc volatile_entries_] in *. rewrite Hs. exec. fold V in Hr', Hu |- *.
  pose proof (shrunk_total V (Z.max 0 (i64 (V - ov))) (a_volatile a)) as Hsh. fold V in Hsh.
  set (E1 := shrunk V _ _) in *. set (a1 := a_set_store a true E1) in *.
  set (s1 := set_store _ _ kv) in *. change (volatile_entries_ s1) with kv.
  rewrite Hu, i64_sub by lia.
  assert (dropped a a1) as Hd by apply dropped_set.
  destruct (Z.gtb_spec (ov - (V - bytes_total E1)) 0) as [Hov2|Hok2].
  - destruct (ram_shrink n s1 a1 false (Z.max 0 (i64 (R - (ov - (V - bytes_total E1)))))) as (kv2 & b2 & Hs2 & Hr2' & Hu2);
      [done|].
    change (regular_entries_ s1) with (get_store s1 false). rewrite Hs2. exec.
    cbn [a_store a1 a_set_store a_regular] in Hu2, Hr2'. fold R in Hu2, Hr2'.
    pose proof (shrunk_total R (Z.max 0 (i64 (R - (ov - (V - bytes_total E1))))) (a_regular a)) as Hsh2.
    fold R in Hsh2. set (E2 := shrunk R _ _) in *.
    change (regular_entries_ (set_store s1 false kv2)) with kv2. rewrite Hu2, i64_sub by lia.
    do 3 eexists. split; [done|]. split; [exact Hr2'|]. split; [done|]. split; [|split; [lia|]].
    + split; [done|]. intros [].
      * destruct (proj2 Hd true) as [t Ht]. by exists t.
      * by eexists.
    + cbn [a_regular a_volatile a_set_store a1]. lia.
  - exec. change (regular_entries_ s1) with (regular_entries_ s). rewrite Hr1. fold R. rewrite i64_sub by lia.
    do 3 eexists. split; [done|]. split; [exact Hr'|]. split; [done|]. split; [done|].
    split; [lia|]. cbn [a_regular a_volatile a_set_store a1]. fold R. lia.
Qed.

Definition txn_ok (t : Transaction) : Prop :=
  any_ok (bid (t_buffer t)) ∧ zlen (default [] (t_data t)) = bsize (t_buffer t) ∧
  bsize (t_buffer t) < 2 ^ 61.

Lemma refs_none m v k : (∀ fd h, m !! fd = Some h → ¬ refers v k h) → refs m v k = 0.
Proof.
  intros Hn. unfold refs. rewrite (proj2 (map_size_empty_iff _)); [done|].
  apply map_empty. intros fd. apply map_lookup_filter_None. right. intros h Hh. by apply (Hn fd h).
Qed.

(** Storing the object of a transaction. *)
Lemma ram_inv_commit max a t : ram_inv max a → NoDup (a_store a (txn_volatile t)).*1 →
  zlen (default [] (t_data t)) = bsize (t_buffer t) →
  total_bytes a + bsize (t_buffer t) ≤ max →
  ram_inv max (a_set_store a (txn_volatile t)
    (renewed (txn_key t) (txn_entry t (a_store a (txn_volatile t))) (a_store a (txn_volatile t)))).
Proof.
  intros Hi Hnd Hlen Hfit. pose proof Hi as [Hrefs Hopen Hq].
  set (v := txn_volatile t) in *. set (k := txn_key t). split.
  - intros v' k' e'. rewrite a_store_set, a_fds_set.
    destruct (decide (v = v')) as [<-|Hv]; [|apply Hrefs].
    rewrite assoc_renewed. destruct (decide (k' = k)) as [->|Hk]; [|apply Hrefs].
    intros [= <-]. unfold txn_entry. fold k. cbn [e_refcount].
    destruct (assoc k (a_store a v)) as [e|] eqn:Ha; [by apply Hrefs|].
    rewrite refs_none; [unfold txn_pins; destruct (_ || _); auto|].
    intros fd h Hh [Hv Hk]. destruct (Hopen _ _ Hh) as [_ [e He]]. rewrite Hv, Hk in He. congruence.
  - intros fd h. rewrite a_fds_set. intros Hh. destruct (Hopen _ _ Hh) as [Hok Hs]. split; [done|].
    rewrite a_store_set. case_decide as Hv; [|done]. rewrite assoc_renewed. case_decide; [by eexists|].
    by rewrite Hv.
  - rewrite a_total_set, bytes_total_renewed by done. unfold total_bytes in Hfit.
    unfold txn_entry at 1. cbn [e_data]. rewrite Hlen.
    destruct (assoc k (a_store a v)) as [e|]; [pose proof (zlen_nonneg (e_data e))|]; lia.
Qed.

(** The commit to the object store, once there is space. *)
Lemma ram_commit n max s a t : ram_rep n s a → ram_inv max a → max_size_ s = max → txn_ok t →
  max < 2 ^ 62 → total_bytes a + bsize (t_buffer t) ≤ max →
  let v := txn_volatile t in
  let b := t_buffer t in
  ∃ kv z, DoCommit malloc (get_store s v) (set_buffer b (bsize b) (txn_pins t) (object_flags b))
            (default [] (t_data t)) = Ret (kv, z) ∧
    ((∃ a', (z = 0 ∧ a' = a_set_store a v
                 (renewed (txn_key t) (txn_entry t (a_store a v)) (a_store a v)) ∨
             z = - ENFILE ∧ zlen (a_store a v) = n ∧ assoc (txn_key t) (a_store a v) = None ∧ a' = a ∨
             z = - EIO ∧ assoc (txn_key t) (a_store a v) = None ∧ a' = a) ∧
        ram_good n max (set_store s v kv) a') ∨
     (z = - EIO ∧ is_Some (assoc (txn_key t) (a_store a v)))).
Proof.
  intros Hr Hi Hmx (Hid & Hlen & Hlt) Hmax Hfit v b.
  set (buf := set_buffer _ _ (txn_pins t) _).
  destruct (kv_step_refines malloc malloc_fresh empty_key_null (get_store s v) (a_store a v)
    (KCommit buf (default [] (t_data t))) (rr_store _ _ _ Hr v)) as (kv & r & Hs & Hmk & Hcase).
  { cbn. split; [done|]. split; [done|]. split.
    - unfold txn_pins, is_u32. destruct (_ || _); lia.
    - pose proof (bytes_total_nonneg (a_regular a)). pose proof (bytes_total_nonneg (a_volatile a)).
      unfold total_bytes, SSIZE_MAX in *. destruct v; cbn [a_store]; lia. }
  cbn [kv_step] in Hs. apply bind_Ret in Hs as ([kv' z] & Hs & [= -> <-]).
  rewrite (rr_entries _ _ _ Hr v) in Hmk, Hcase.
  assert (∀ E, kv_refines kv E → ram_rep n (set_store s v kv) (a_set_store a v E)) as Hst
    by (intros; by apply ram_rep_store).
  assert (max_size_ (set_store s v kv) = max) as Hmx' by (by rewrite max_set_store).
  pose proof (ram_inv_commit max a t Hi (ram_keys _ _ _ _ Hr) Hlen Hfit) as Hic.
  exists kv, z. split; [done|]. destruct Hcase as [(E' & Hsp & Hk)|[He [= ->]]]; [left|by right].
  assert (E' = a_store a v → ram_good n max (set_store s v kv) a) as Hsame.
  { intros ->. split_and!; try done. rewrite <- (a_set_same a v). by apply Hst. }
  set (a' := a_set_store a v (renewed (txn_key t) (txn_entry t (a_store a v)) (a_store a v))).
  assert (E' = renewed (txn_key t) (txn_entry t (a_store a v)) (a_store a v) →
    ram_good n max (set_store s v kv) a') as Hnew.
  { intros ->. split_and!; try done. by apply Hst. }
  inversion Hsp as [| | | | | | | | |? ? ? Hna Hfull|? ? ? Hna|? ? ? Hna|? ? ? ? Ha| | | |]; subst.
  - exists a. split; [right; left; done|by apply Hsame].
  - exists a. split; [right; right; done|by apply Hsame].
  - exists a'. split; [by left|]. apply Hnew. unfold renewed, txn_entry.
    change (txn_key t) with (key_of (bid buf)). by rewrite Hna, assoc_without.
  - exists a'. split; [by left|]. apply Hnew. unfold txn_entry.
    change (txn_key t) with (key_of (bid buf)). by rewrite Ha.
Qed.

Lemma CommitToKvStore_agrees n max s a t : ram_good n max s a → txn_ok t → 0 ≤ max < 2 ^ 62 →
  ∃ s' z, CommitToKvStore malloc s t = Ret (s', z) ∧
    ((∃ a', committed n max a t a' z ∧ ram_good n max s' a') ∨
     (z = - EIO ∧ is_Some (assoc (txn_key t) (a_store a (txn_volatile t))))).
Proof.
  intros Hg Ht Hmax. pose proof Ht as (_ & Hlen & Hlt).
  pose proof (zlen_nonneg (default [] (t_data t))) as Hnn.
  unfold CommitToKvStore. fold (txn_volatile t). fold (txn_pins t).
  destruct (make_space_ok n max s a (bsize (t_buffer t)) Hg)
    as (s1 & a1 & ov & -> & Hr1 & Hmx1 & Hd & Hfit & Hov); [lia|done|]. exec.
  destruct Hg as (Hr & Hi & Hmx).
  destruct (dropped_inv max a a1 Hi (λ v, ram_keys _ _ _ v Hr) Hd) as [Hi1 Htot].
  destruct (Z.gtb_spec ov 0) as [Hfull|Hroom].
  { do 2 eexists. split; [done|]. left. exists a1. split; [|split_and!; [by apply ram_rep_inc|done|done]].
    exists a1. split; [done|]. split; [by intros [? ?]%Hfit|]. left. split_and!; try done.
    destruct (decide (total_bytes a + bsize (t_buffer t) ≤ max)) as [[? ?]%Hfit|]; lia. }
  specialize (Hov Hroom).
  destruct (ram_commit n max s1 a1 t Hr1 Hi1 Hmx1 Ht ltac:(lia) Hov) as (kv & z & -> & Hcase). exec.
  exists (set_store s1 (txn_volatile t) kv), (if z <? 0 then z else 0). split; [done|].
  destruct Hcase as [(a' & Hz & Hg')|[-> [e He]]].
  - left. exists a'. split; [|done]. exists a1. split; [done|]. split; [by intros [? ?]%Hfit|]. right.
    destruct Hz as [[-> ->]|[(-> & ? & ? & ->)|(-> & ? & ->)]]; [by left|right; by left|right; by right].
  - right. split; [done|]. destruct (proj2 Hd (txn_volatile t)) as [tg Htg]. rewrite Htg in He. exists e.
    by apply (shrunk_assoc _ _ _ _ _ (ram_keys _ _ _ (txn_volatile t) Hr)) in He.
Qed.

Lemma CommitTxn_agrees n max s a t : ram_good n max s a → txn_ok t → 0 ≤ max < 2 ^ 62 →
  ∃ s' r, ram_step s (RCommitTxn t) = Ret (s', r) ∧
    ((∃ a', answers n max a (RCommitTxn t) a' r ∧ ram_good n max s' a') ∨
     (r = RInt (- EIO) ∧ is_Some (assoc (txn_key t) (a_store a (txn_volatile t))))).
Proof.
  intros Hg Ht Hmax. cbn [ram_step answers]. unfold CommitTxn.
  assert (ram_good n max (rinc s rc_committxn) a) as Hg1
    by (destruct Hg as (? & ? & ?); split_and!; [by apply ram_rep_inc|done|done]).
  destruct (CommitToKvStore_agrees n max _ a t Hg1 Ht Hmax) as (s' & z & -> & Hcase). exec.
  do 2 eexists. split; [done|]. destruct Hcase as [(a' & Hc & Hg')|[-> He]]; [left|by right].
  assert (i32 z = z) as ->.
  { destruct Hc as (a1 & _ & _ & [[-> _]|[[-> _]|[[-> _]|[-> _]]]]); done. }
  exists a'. split; [by exists z|done].
Qed.

(** A committed object can be opened. *)
Lemma committed_located n max a t a' : committed n max a t a' 0 →
  is_Some (located a' (bid (t_buffer t))).
Proof.
  intros (a1 & _ & _ & [[? _]|[(_ & _ & ->)|[[? _]|[? _]]]]); try done.
  unfold located. fold (txn_key t).
  set (E := renewed _ _ _). assert (is_Some (assoc (txn_key t) E)) as [e He].
  { unfold E. rewrite assoc_renewed, decide_True by done. by eexists. }
  destruct (txn_volatile t); cbn [a_set_store a_regular a_volatile]; rewrite He;
    [destruct (assoc (txn_key t) (a_regular a1))|]; cbn; by eexists.
Qed.

Lemma OpenFromTxn_agrees n max s a t : ram_good n max s a → txn_ok t → 0 ≤ max < 2 ^ 62 →
  ∃ s' r, ram_step s (ROpenFromTxn t) = Ret (s', r) ∧
    ((∃ a', answers n max a (ROpenFromTxn t) a' r ∧ ram_good n max s' a') ∨
     (r = RInt (- EIO) ∧ is_Some (assoc (txn_key t) (a_store a (txn_volatile t))))).
Proof.
  intros Hg Ht Hmax. cbn [ram_step answers]. unfold OpenFromTxn.
  destruct (CommitToKvStore_agrees n max s a t Hg Ht Hmax) as (s1 & z & -> & Hcase). exec.
  destruct Hcase as [(a1 & Hc & Hg1)|[-> He]].
  2:{ rewrite ltb_true by done. exec. do 2 eexists. split; [done|]. by right. }
  assert (z = 0 ∨ z < 0 ∧ i32 z = z) as [->|[Hz Hi]].
  { destruct Hc as (a2 & _ & _ & [[-> _]|[[-> _]|[[-> _]|[-> _]]]]); by (left + right). }
  - rewrite ltb_false by done. destruct (committed_located _ _ _ _ _ Hc) as [v Hv].
    assert (ram_good n max (rinc s1 rc_committxn) a1) as Hg2
      by (destruct Hg1 as (? & ? & ?); split_and!; [by apply ram_rep_inc|done|done]).
    destruct (DoOpen_agrees n max _ a1 _ Hg2 (proj1 Ht)) as (s2 & a2 & z & -> & Hg3 & Ho). exec.
    rewrite Hv in Ho. do 2 eexists. split; [done|]. left. exists a2. split; [|done].
    exists a1, 0. split; [done|]. cbn. by exists v.
  - rewrite ltb_true by done. exec. do 2 eexists. split; [done|]. left. exists a1. split; [|done].
    exists a1, z. split; [done|]. rewrite eqb_false by lia. by rewrite Hi.
Qed.

(** ** Sequences of operations *)

Definition ram_pre (o : ram_op) : Prop :=
  match o with
  | ROpen i => any_ok i
  | RPread _ size offset => 0 ≤ size ∧ 0 ≤ offset
  | ROpenFromTxn t | RCommitTxn t => txn_ok t
  | _ => True
  end.

(** Replacing an object failed for lack of memory. *)
Definition ram_lost (a : ram_spec) (o : ram_op) (r : ram_reply) : Prop :=
  match o with
  | ROpenFromTxn t | RCommitTxn t =>
      r = RInt (- EIO) ∧ is_Some (assoc (txn_key t) (a_store a (txn_volatile t)))
  | _ => False
  end.

Lemma ram_step_refines n max s a o : ram_good n max s a → ram_pre o → 0 ≤ max < 2 ^ 62 →
  ∃ s' r, ram_step s o = Ret (s', r) ∧
    ((∃ a', answers n max a o a' r ∧ ram_good n max s' a') ∨ ram_lost a o r).
Proof.
  intros Hg Hp Hmax.
  assert (ram_agrees n max s a o → ∃ s' r, ram_step s o = Ret (s', r) ∧
    ((∃ a', answers n max a o a' r ∧ ram_good n max s' a') ∨ ram_lost a o r)) as Hag.
  { intros (s' & a' & r & ? & ? & ?). exists s', r. split; [done|]. left. by exists a'. }
  destruct o; cbn [ram_pre] in Hp.
  - by apply Hag, Open_agrees.
  - by apply Hag, RamGetSize_agrees.
  - by apply Hag, Close_agrees.
  - destruct Hp. by apply Hag, Pread_agrees.
  - by apply Hag, Dup_agrees.
  - by apply Hag, Readahead_agrees.
  - by apply OpenFromTxn_agrees.
  - by apply CommitTxn_agrees.
Qed.

Fixpoint ram_run (s : ram_cache M) (ops : list ram_op) : outcome (ram_cache M * list ram_reply) :=
  match ops with
  | [] => Ret (s, [])
  | o :: ops =>
      '(s, r) ← ram_step s o;
      '(s, rs) ← ram_run s ops;
      Ret (s, r :: rs)
  end.

Inductive ram_trace (n max : Z) : ram_spec → list ram_op → list ram_reply → ram_spec → Prop :=
| rt_nil a : ram_trace n max a [] [] a
| rt_cons a o a1 r ops rs a2 : answers n max a o a1 r → ram_trace n max a1 ops rs a2 →
    ram_trace n max a (o :: ops) (r :: rs) a2.

(** The run answers as specified to its end, or up to a replacement that found
    no memory. *)
Definition ram_correct (n max : Z) (a : ram_spec) (ops : list ram_op)
    (run : list ram_op → outcome (ram_cache M * list ram_reply)) : Prop :=
  (∃ s rs a', run ops = Ret (s, rs) ∧ ram_trace n max a ops rs a' ∧ ram_inv max a') ∨
  (∃ ops1 o ops2 s rs r a1, ops = ops1 ++ o :: ops2 ∧ run (ops1 ++ [o]) = Ret (s, rs ++ [r]) ∧
     ram_trace n max a ops1 rs a1 ∧ ram_inv max a1 ∧ ram_lost a1 o r).

Lemma ram_run_refines n max ops : 0 ≤ max < 2 ^ 62 → ∀ s a, ram_good n max s a →
  Forall ram_pre ops → ram_correct n max a ops (ram_run s).
Proof.
  intros Hmax. induction ops as [|o ops IH]; intros s a Hg Hpre.
  { left. exists s, [], a. split_and!; [done|constructor|apply Hg]. }
  apply Forall_cons in Hpre as [Ho Hpre].
  destruct (ram_step_refines n max s a o Hg Ho Hmax) as (s1 & r & Hs & [(a1 & Ha & Hg1)|Hlost]).
  - destruct (IH s1 a1 Hg1 Hpre) as [(s2 & rs & a2 & Hrun & Ht & Hi)|
      (ops1 & o' & ops2 & s2 & rs & r' & a2 & -> & Hrun & Ht & Hi & Hl)].
    + left. exists s2, (r :: rs), a2. cbn [ram_run]. rewrite Hs. exec. rewrite Hrun. exec.
      split_and!; try done. by econstructor.
    + right. exists (o :: ops1), o', ops2, s2, (r :: rs), r', a2. cbn [app ram_run]. rewrite Hs. exec.
      rewrite Hrun. exec. split_and!; try done. by econstructor.
  - right. exists [], o, ops, s1, [], r, a. cbn [app ram_run]. rewrite Hs. exec.
    split_and!; try done; [constructor|apply Hg].
Qed.

Context (sizeof_Entry : Z).

Lemma RamInit_ok n max alloc : n mod 64 = 0 → 128 ≤ n < 2 ^ 31 → 0 ≤ max →
  (alloc = kMallocHeap → kMinCapacity < max < 2 ^ 32 ∧ max mod 8 = 0) →
  ∃ s, RamInit sizeof_Entry max n alloc = Ret s ∧ ram_good n max s (RamSpec ∅ [] []).
Proof.
  intros Hm Hn Hmax Ha. unfold RamInit.
  destruct (FdInit_ok handle_eq n null_handle) as (t & -> & Hf & Hi & Hl); [lia|]. exec.
  destruct (KvInit_ok sizeof_Entry n alloc (u32 max) Hm Hn) as (s & -> & Hr & Hmx).
  { intros [Hb H8]%Ha. rewrite u32_small by (unfold is_u32, kMinCapacity in *; lia). done. }
  exec. eexists. split; [done|]. split_and!.
  - split; try done; by intros [].
  - split; try done. by intros [].
  - done.
Qed.

End RamTheory.

(** ** Transactions collect the written bytes *)

Section TxnTheory.
Context {M : Type}.
Context (txn_malloc : Z → option bytes) (txn_realloc : option bytes → Z → option bytes).
(** A new buffer has the requested size; a grown buffer keeps its contents. *)
Context (malloc_size : ∀ n d, 0 ≤ n → txn_malloc n = Some d → zlen d = n).
Context (realloc_keeps : ∀ d n d', 0 ≤ n → txn_realloc (Some d) n = Some d' →
  zlen d' = n ∧ take (Z.to_nat (Z.min (zlen d) n)) d' = take (Z.to_nat (Z.min (zlen d) n)) d).

(** [txn] has collected [b]. *)
Definition collected (txn : Transaction) (b : bytes) : Prop :=
  ∃ tail, t_data txn = Some (b ++ tail) ∧ bsize (t_buffer txn) = zlen (b ++ tail) ∧
    pos txn = zlen b ∧ zlen (b ++ tail) < 2 ^ 62.

Lemma txn_copy_ok (b old tail c : bytes) : length c = length old →
  txn_copy (Some (b ++ old ++ tail)) (zlen b) (Some c) (zlen c) = Ret (Some ((b ++ c) ++ tail)).
Proof.
  intros Hl. unfold txn_copy.
  pose proof (load_app [] c [] 0 (zlen c) eq_refl eq_refl) as Hld. rewrite app_nil_r in Hld. cbn [app] in Hld.
  rewrite Hld. exec. rewrite (store_app b old) by done. exec. by rewrite <- app_assoc.
Qed.

(** A write of the announced or of unknown size appends; it fails only if it
    exceeds the announced size or if the buffer cannot grow. *)
Lemma Write_ok (s : ram_cache M) txn (b c : bytes) : collected txn b → zlen b + zlen c < 2 ^ 61 →
  ∃ s' txn' r, Write txn_realloc s (Some c) (zlen c) txn = Ret (s', txn', r) ∧
    expected_size txn' = expected_size txn ∧ bid (t_buffer txn') = bid (t_buffer txn) ∧
    object_flags (t_buffer txn') = object_flags (t_buffer txn) ∧
    ((r = zlen c ∧ collected txn' (b ++ c) ∧
        (expected_size txn ≠ kSizeUnknown → bsize (t_buffer txn') = bsize (t_buffer txn))) ∨
     (txn' = txn ∧ (r = - EFBIG ∧ expected_size txn ≠ kSizeUnknown ∧
                      bsize (t_buffer txn) < zlen b + zlen c ∨
                    r = - EIO ∧ expected_size txn = kSizeUnknown))).
Proof.
  intros (tail & Hd & Hs & Hp & Hlt) Hfit. unfold Write. rewrite Hp, Hs, Hd.
  pose proof (zlen_nonneg b). pose proof (zlen_nonneg c). pose proof (zlen_nonneg tail).
  rewrite zlen_app in *. rewrite leb_true by lia. exec.
  rewrite !(u64_small (zlen b + zlen c)) by (unfold is_u64; lia).
  destruct (Z.gtb_spec (zlen b + zlen c) (zlen b + zlen tail)) as [Hgt|Hle].
  - destruct (Z.eqb_spec (expected_size txn) kSizeUnknown) as [Hu|Hu].
    2:{ do 3 eexists. split; [done|]. split_and!; try done. right. split; [done|]. left. lia. }
    rewrite (Z.add_comm (zlen c)), !(u64_small (zlen b + zlen c)) by (unfold is_u64; lia).
    rewrite u64_small by (unfold is_u64; lia). set (n := Z.max _ _).
    destruct (txn_realloc (Some (b ++ tail)) n) as [d|] eqn:Hr.
    2:{ do 3 eexists. split; [done|]. split_and!; try done. right. auto. }
    destruct (realloc_keeps (b ++ tail) n d ltac:(unfold n; lia) Hr) as [Hn Htake]. rewrite zlen_app in Htake.
    assert (take (length b) d = b) as Hb.
    { apply (f_equal (take (length b))) in Htake. rewrite !take_take in Htake.
      unfold zlen in *. rewrite !Nat.min_l in Htake by lia. by rewrite take_app_length in Htake. }
    assert (∃ rest, d = b ++ rest) as [rest ->].
    { exists (drop (length b) d). rewrite <- Hb at 1. by rewrite take_drop. }
    rewrite zlen_app in Hn.
    rewrite <- (take_drop (length c) rest), (txn_copy_ok b (take (length c) rest)).
    2:{ rewrite length_take. unfold zlen in *. lia. }
    exec. do 3 eexists. split; [done|]. split_and!; try done. left. split; [apply i64_small; lia|].
    split; [|done]. exists (drop (length c) rest).
    assert (zlen (drop (length c) rest) = n - zlen b - zlen c) as Hz.
    { unfold zlen in *. rewrite length_drop. lia. }
    cbn [t_data t_buffer bsize pos set_buffer]. rewrite !zlen_app, Hz. split_and!; try done; lia.
  - rewrite <- (take_drop (length c) tail), (txn_copy_ok b (take (length c) tail)).
    2:{ rewrite length_take. unfold zlen in *. lia. }
    exec. do 3 eexists. split; [done|]. split_and!; try done. left. split; [apply i64_small; lia|].
    split; [|done]. exists (drop (length c) tail).
    assert (zlen (drop (length c) tail) = zlen tail - zlen c) as Hz.
    { unfold zlen in *. rewrite length_drop. lia. }
    cbn [t_data t_buffer bsize pos set_buffer]. rewrite take_drop, !zlen_app, Hz. split_and!; try done; lia.
Qed.

(** Writes pieces one after the other, until one fails. *)
Fixpoint write_all (s : ram_cache M) (cs : list bytes) (txn : Transaction)
    : outcome (ram_cache M * Transaction * Z) :=
  match cs with
  | [] => Ret (s, txn, 0)
  | c :: cs =>
      '(s, txn, r) ← Write txn_realloc s (Some c) (zlen c) txn;
      if r <? 0 then Ret (s, txn, r) else write_all s cs txn
  end.

Lemma write_all_ok cs : ∀ (s : ram_cache M) txn b, collected txn b →
  expected_size txn ≠ kSizeUnknown → zlen b + zlen (concat cs) ≤ bsize (t_buffer txn) →
  bsize (t_buffer txn) < 2 ^ 61 →
  ∃ s' txn', write_all s cs txn = Ret (s', txn', 0) ∧ collected txn' (b ++ concat cs) ∧
    bsize (t_buffer txn') = bsize (t_buffer txn) ∧ bid (t_buffer txn') = bid (t_buffer txn).
Proof.
  induction cs as [|c cs IH]; intros s txn b Hc Hu Hfit Hlt; cbn [concat write_all] in *.
  { do 2 eexists. split; [done|]. by rewrite app_nil_r. }
  rewrite zlen_app in Hfit. pose proof (zlen_nonneg (concat cs)). pose proof (zlen_nonneg c).
  destruct (Write_ok s txn b c Hc) as (s1 & txn1 & r & -> & He & Hid & _ & Hcase); [lia|]. exec.
  destruct Hcase as [(-> & Hc1 & Hsz)|[_ [(_ & _ & ?)|[_ ?]]]]; [|lia|done].
  rewrite ltb_false by lia. specialize (Hsz Hu).
  destruct (IH s1 txn1 (b ++ c) Hc1) as (s2 & txn2 & Hs & Hc2 & Hsz2 & Hid2);
    rewrite ?He, ?Hsz, ?zlen_app in *; try done; [lia|].
  rewrite <- app_assoc in Hc2. exists s2, txn2. split_and!; try done; congruence.
Qed.

(** A transaction of announced size that is written in pieces holds
    exactly the written bytes, whatever the pieces are, and can be
    committed. *)
Theorem txn_collects (s : ram_cache M) i size (cs : list bytes) (d : bytes) : any_ok i → 0 ≤ size < 2 ^ 61 →
  txn_malloc size = Some d → zlen (concat cs) = size →
  let '(s1, txn, r) := StartTxn txn_malloc s i size in
  r = 0 ∧ ∃ s2 txn2, write_all s1 cs txn = Ret (s2, txn2, 0) ∧ t_data txn2 = Some (concat cs) ∧
    bid (t_buffer txn2) = i ∧ txn_ok txn2.
Proof.
  intros Hok Hsz Hm Hl. unfold StartTxn. rewrite eqb_false by (unfold kSizeUnknown; lia).
  rewrite Hm. rewrite bool_decide_false by done. cbn [andb]. split; [done|].
  pose proof (malloc_size _ _ (proj1 Hsz) Hm) as Hd.
  destruct (write_all_ok cs (rinc s rc_starttxn) (Txn (MkBuffer None size 0 0 i) (Some d) size 0 []) [])
    as (s2 & txn2 & Hs & (tail & Hd2 & Hb2 & _) & Hsz2 & Hid2).
  - exists d. cbn. rewrite Hd. split_and!; try done. lia.
  - cbn. unfold kSizeUnknown. lia.
  - cbn [t_buffer bsize]. change (zlen (A := Z) []) with 0. lia.
  - cbn. lia.
  - exists s2, txn2. cbn [t_buffer bsize bid] in *. split; [done|]. cbn [app] in *.
    assert (tail = []) as ->.
    { rewrite Hsz2, zlen_app in Hb2. destruct tail; [done|]. unfold zlen in *. cbn [length] in *. lia. }
    rewrite app_nil_r in *. split_and!; try done. unfold txn_ok. rewrite Hid2, Hd2, Hsz2. split_and!; [done|done|lia].
Qed.

(** A transaction of unknown size is committed with its whole buffer: a
    file of fewer than [kPageSize] bytes becomes an object of [kPageSize]
    bytes, the rest of which is what the allocator left in the buffer. *)
Theorem unknown_size_is_padded (s : ram_cache M) i (b d : bytes) : txn_malloc kPageSize = Some d →
  zlen b < kPageSize →
  let '(s1, txn, r) := StartTxn txn_malloc s i kSizeUnknown in
  ∃ s2 txn2 e, Write txn_realloc s1 (Some b) (zlen b) txn = Ret (s2, txn2, zlen b) ∧
    pos txn2 = zlen b ∧ txn_entry txn2 [] = e ∧ zlen (e_data e) = kPageSize ∧
    e_data e = b ++ drop (length b) d.
Proof.
  intros Hm Hb. unfold StartTxn. rewrite Z.eqb_refl, Hm, bool_decide_false by done. cbn [andb].
  pose proof (malloc_size kPageSize _ ltac:(done) Hm) as Hd. pose proof (zlen_nonneg b). unfold Write, kPageSize in *.
  cbn [pos t_buffer bsize t_data expected_size]. cbn [Z.leb Z.compare]. exec.
  rewrite u64_small by (unfold is_u64; lia). rewrite gtb_false by lia.
  assert (txn_copy (Some d) 0 (Some b) (zlen b) = Ret (Some (b ++ drop (length b) d))) as Hcp.
  { pose proof (txn_copy_ok [] (take (length b) d) (drop (length b) d) b) as Hcp.
    cbn [app] in Hcp. rewrite take_drop in Hcp. apply Hcp. rewrite length_take. unfold zlen in *. lia. }
  cbn [pos t_buffer t_data bsize description]. rewrite Hcp.
  exec. do 3 eexists. split; [by rewrite i64_small by lia|]. split; [done|]. split; [done|]. cbn.
  split; [|done]. rewrite zlen_app. unfold zlen in *. rewrite length_drop. lia.
Qed.
End TxnTheory.
