(* ===== verification/RamInstance.v ===== *)
(** * The in-memory cache manager over the fixed-size hash map

    [RamCacheManager] as it is built, over [SmallHashFixed] and an allocator
    that always finds a free address. *)

From stdpp Require Import base list numbers gmap infinite.
From S2P Require Import Prelude Interfaces SmallHash LruList LruCache Bytes Hash FdTable MallocHeap KvStore RamCache.

Open Scope Z_scope.

Module RamWitness.
#[local] Instance ram_map : BoundedMap hkey (cache_entry MemoryBuffer) (@table hkey (cache_entry MemoryBuffer)) :=
  fixed_bounded_map hasher_any null_key null_key (CacheEntry PNull null_buffer) 8 16.

Definition malloc (blocks : gmap Z bytes) (n : Z) : option Z :=
  Some (fresh (dom (D := gset Z) blocks)).

Lemma ram_malloc_fresh blocks n a : malloc blocks n = Some a → blocks !! a = None.
Proof. intros [= <-]. apply not_elem_of_dom, is_fresh. Qed.

Definition object (b : Z) : any := Any (replicate 20 b) kSha1 0.

Lemma ram_object_ok b : is_u8 b → any_ok (object b).
Proof.
  intros Hb. split; [done| |done|unfold is_u8; cbn; lia].
  apply Forall_forall. intros x Hx. apply elem_of_replicate in Hx as [-> _]. exact Hb.
Qed.

(** A transaction that has collected [n] bytes. *)
Definition txn (b n flags : Z) : Transaction :=
  Txn (MkBuffer None n 0 flags (object b)) (Some (replicate (Z.to_nat n) b)) n n [].

Lemma txn_is_ok b n flags : is_u8 b → 0 ≤ n < 2 ^ 61 → txn_ok (txn b n flags).
Proof.
  intros Hb Hn. split_and!; cbn; [by apply ram_object_ok| |lia].
  unfold zlen. rewrite length_replicate. lia.
Qed.

(** Stores two objects, opens one of them, makes room by dropping the other
    one, and reads. *)
Definition ops : list ram_op :=
  [RCommitTxn (txn 1 60 0); ROpenFromTxn (txn 2 30 0); RCommitTxn (txn 3 60 0); RPread 0 10 25;
   ROpen (object 1); RGetSize 0; RDup 0; RClose 0; RPread 1 2 0; RReadahead 7].
Definition replies : list ram_reply :=
  [RInt 0; RInt 0; RInt 0; RData 5 [2; 2; 2; 2; 2]; RInt (- ENOENT); RInt 30; RInt 1; RInt 0;
   RData 2 [2; 2]; RInt (- EBADF)].

Lemma ops_pre : Forall ram_pre ops.
Proof.
  repeat constructor; try (apply txn_is_ok || apply ram_object_ok); unfold is_u8; try lia.
Qed.


(** A commit can be refused for lack of space although the object would
    fit: with 85 pinned and 5 unpinned bytes of 100, an object of 15 bytes fits
    once the 5 bytes are dropped, but a quarter of the cache, which the commit
    tries to free, cannot be freed. *)
Theorem commit_refuses_fitting_object :
  ('(s, rs) ← (s ← RamInit (BoundedMap0 := ram_map) 32 100 128 kMallocLibc;
     ram_run malloc s [RCommitTxn (txn 1 85 kLabelPinned); RCommitTxn (txn 2 5 0);
                       RCommitTxn (txn 3 15 0)]);
   Ret (rs, used (regular_entries_ s) + used (volatile_entries_ s)))
  = Ret ([RInt 0; RInt 0; RInt (- ENOSPC)], 85).
Proof. vm_compute. reflexivity. Qed.

(** Transaction memory filled with ones. *)
Definition txn_malloc (n : Z) : option bytes := Some (replicate (Z.to_nat n) 1).
Definition txn_realloc (d : option bytes) (n : Z) : option bytes :=
  Some (take (Z.to_nat n) (default [] d) ++ replicate (Z.to_nat n - length (default [] d)) 0).

Lemma txn_malloc_size n d : 0 ≤ n → txn_malloc n = Some d → zlen d = n.
Proof. intros Hn [= <-]. unfold zlen. rewrite length_replicate. lia. Qed.

Lemma txn_realloc_keeps d n d' : 0 ≤ n → txn_realloc (Some d) n = Some d' →
  zlen d' = n ∧ take (Z.to_nat (Z.min (zlen d) n)) d' = take (Z.to_nat (Z.min (zlen d) n)) d.
Proof.
  intros Hn [= <-]. unfold zlen. cbn [default]. rewrite length_app, length_take, length_replicate.
  split; [lia|]. rewrite take_app_le by (rewrite length_take; lia).
  rewrite take_take. f_equal. lia.
Qed.

Lemma txn_collects_witness :
  ∃ (s1 : ram_cache (@table hkey (cache_entry MemoryBuffer))) txn s2 txn2,
  StartTxn txn_malloc s1 (object 1) 5 = (s2, txn, 0) ∧
  write_all txn_realloc s2 [[1; 2]; []; [3; 4; 5]] txn = Ret (txn2.1, txn2.2, 0) ∧
  t_data txn2.2 = Some [1; 2; 3; 4; 5].
Proof.
  destruct (RamInit_ok (BoundedMap0 := ram_map) 32 128 100 kMallocLibc eq_refl ltac:(lia) ltac:(lia)
    ltac:(discriminate)) as (s & _ & _).
  destruct (txn_collects txn_malloc txn_realloc txn_malloc_size txn_realloc_keeps s (object 1) 5
    [[1; 2]; []; [3; 4; 5]] _ ltac:(apply ram_object_ok; unfold is_u8; lia) ltac:(lia) eq_refl eq_refl)
    as (Hr & s2 & txn2 & Hw & Hd & _).
  exists s, (StartTxn txn_malloc s (object 1) 5).1.2, (StartTxn txn_malloc s (object 1) 5).1.1, (s2, txn2).
  split; [reflexivity|]. split; [exact Hw|exact Hd].
Defined.

Lemma unknown_size_is_padded_witness :
  ∃ (s1 : ram_cache (@table hkey (cache_entry MemoryBuffer))) s2 txn2,
  Write txn_realloc s1 (Some [7; 7]) 2 (StartTxn txn_malloc s1 (object 1) kSizeUnknown).1.2
    = Ret (s2, txn2, 2) ∧
  zlen (e_data (txn_entry txn2 [])) = kPageSize.
Proof.
  destruct (RamInit_ok (BoundedMap0 := ram_map) 32 128 100 kMallocLibc eq_refl ltac:(lia) ltac:(lia)
    ltac:(discriminate)) as (s & _ & _).
  destruct (unknown_size_is_padded txn_malloc txn_realloc txn_malloc_size s (object 1) [7; 7] _ eq_refl eq_refl)
    as (s2 & txn2 & e & Hw & _ & He & Hz & _).
  exists (StartTxn txn_malloc s (object 1) kSizeUnknown).1.1, s2, txn2. rewrite He. split; [exact Hw|exact Hz].
Defined.
End RamWitness.
