(* ===== verification/RingBuffer.v ===== *)
(** * The ring buffer (src/cvmfs/ring_buffer.{h,cc})

    A fixed memory area that holds objects, each with its size in front of it.
    Objects are appended at the front and removed at the back; they wrap around the
    end of the area.  The streaming cache manager keeps recently read objects in it.
    It behaves as a queue: every object can be read under its handle until it is
    removed. *)

From stdpp Require Import base numbers list.
From S2P Require Import Prelude Bytes.

Open Scope Z_scope.

(** ** The buffer *)

Record RingBuffer := mkRing {
  total_size_ : Z;
  free_space_ : Z;
  front_ : Z;
  back_ : Z;
  buffer_ : bytes
}.

Definition kInvalidObjectHandle : Z := 2 ^ 64 - 1.
Definition sizeof_size_t : Z := 8.

(** [sxmmap] returns memory that is filled with zeros. *)
Definition new_ring (total_size : Z) : outcome RingBuffer :=
  _ ← cassert (total_size >=? sizeof_size_t);
  Ret (mkRing total_size total_size 0 0 (replicate (Z.to_nat total_size) 0)).

Definition Put (r : RingBuffer) (data : bytes) : outcome RingBuffer :=
  let size := zlen data in
  let size_head := Z.min size (u64 (total_size_ r - front_ r)) in
  buffer ← (if size_head >? 0 then store (buffer_ r) (front_ r) (take (Z.to_nat size_head) data) else Ret (buffer_ r));
  buffer ← (if size_head <? size then store buffer 0 (drop (Z.to_nat size_head) data) else Ret buffer);
  Ret (mkRing (total_size_ r) (u64 (free_space_ r - size)) (u64 (front_ r + size) mod total_size_ r) (back_ r) buffer).

Definition Get (r : RingBuffer) (from size : Z) : outcome bytes :=
  let size_head := Z.min size (u64 (total_size_ r - from)) in
  head ← (if size_head >? 0 then load (buffer_ r) from size_head else Ret []);
  tail ← (if size_head <? size then load (buffer_ r) 0 (size - size_head) else Ret []);
  Ret (head ++ tail).

Definition Shrink (r : RingBuffer) (by_ : Z) : RingBuffer :=
  mkRing (total_size_ r) (u64 (free_space_ r + by_)) (front_ r) (u64 (back_ r + by_) mod total_size_ r) (buffer_ r).

Definition GetObjectSize (r : RingBuffer) (handle : Z) : outcome Z :=
  tag ← Get r handle sizeof_size_t;
  let size_tag := le_decode tag in
  _ ← cassert (size_tag <=? total_size_ r);
  Ret size_tag.

Definition PushFront (r : RingBuffer) (obj : bytes) : outcome (Z * RingBuffer) :=
  let size_tag := zlen obj in
  let size := u64 (size_tag + sizeof_size_t) in
  if size >? free_space_ r then Ret (kInvalidObjectHandle, r)
  else
    let result := front_ r in
    r ← Put r (le_encode 8 size_tag);
    r ← Put r obj;
    Ret (result, r).

Definition RemoveBack (r : RingBuffer) : outcome (Z * RingBuffer) :=
  let result := back_ r in
  size_tag ← GetObjectSize r result;
  let r := Shrink r sizeof_size_t in
  Ret (result, Shrink r size_tag).

Definition CopyObject (r : RingBuffer) (handle : Z) : outcome bytes :=
  size_tag ← GetObjectSize r handle;
  let object := u64 (handle + sizeof_size_t) mod total_size_ r in
  Get r object size_tag.

Definition CopySlice (r : RingBuffer) (handle size offset : Z) : outcome bytes :=
  let begin := u64 (handle + sizeof_size_t + offset) mod total_size_ r in
  Get r begin size.

Definition GetMaxObjectSize (r : RingBuffer) : Z := u64 (total_size_ r - sizeof_size_t).
Definition HasSpaceFor (r : RingBuffer) (size : Z) : bool := free_space_ r >=? u64 (size + sizeof_size_t).

(** ** The area from a position on *)

Definition rot {A} (k : Z) (l : list A) : list A := drop (Z.to_nat k) l ++ take (Z.to_nat k) l.

Lemma rot_app {A} (a b : list A) k : k = zlen a → rot k (a ++ b) = b ++ a.
Proof. intros ->. unfold rot. by rewrite take_app_zlen, drop_app_zlen. Qed.

Lemma length_rot {A} k (l : list A) : zlen (rot k l) = zlen l.
Proof. unfold rot, zlen. rewrite length_app, length_drop, length_take. lia. Qed.

(** Going on by the length of the first part. *)
Lemma rot_step {A} k (l x y : list A) : 0 ≤ k < zlen l → rot k l = x ++ y → rot ((k + zlen x) mod zlen l) l = y ++ x.
Proof.
  intros Hk Hr. destruct (split_zlen l k ltac:(lia)) as (a & b & -> & Ha). rewrite (rot_app a b) in Hr by done. rewrite zlen_app in *.
  apply app_eq_inv in Hr as [(d & -> & ->)|(d & -> & ->)]; rewrite !zlen_app in *.
  - destruct d as [|c d].
    + change (zlen (A := A) []) with 0. rewrite <- Ha, Z.add_0_r, Z_mod_same_full. unfold rot. cbn. by rewrite !app_nil_r.
    + rewrite zlen_cons in *. rewrite Z.mod_small by (unfold zlen in *; lia). rewrite (app_assoc a x), (rot_app (a ++ x)) by (rewrite zlen_app; lia). by rewrite app_assoc.
  - replace (k + (zlen b + zlen d)) with (zlen d + 1 * (zlen d + zlen y + zlen b)) by lia. rewrite Z_mod_plus_full.
    rewrite Z.mod_small by (unfold zlen in *; lia). rewrite <- app_assoc, (rot_app d) by done. by rewrite app_assoc.
Qed.

(** The buffer [r] and its memory; every position is within the area. *)
Record area_ok (r : RingBuffer) : Prop := {
  ar_size : zlen (buffer_ r) = total_size_ r;
  ar_limit : total_size_ r < 2 ^ 62;
  ar_front : 0 ≤ front_ r < total_size_ r
}.

Lemma Get_ok r from x y : area_ok r → 0 ≤ from < total_size_ r → rot from (buffer_ r) = x ++ y → Get r from (zlen x) = Ret x.
Proof.
  intros [Hsize Hlim _] Hfrom Hr. unfold Get. rewrite u64_small by (unfold is_u64; lia). rewrite <- Hsize in *.
  destruct (split_zlen (buffer_ r) from ltac:(lia)) as (a & b & Hbuf & Ha). rewrite Hbuf, (rot_app a b) in Hr by done. rewrite Hbuf, zlen_app in *.
  pose proof (zlen_nonneg x). apply app_eq_inv in Hr as [(d & -> & ->)|(d & -> & ->)]; rewrite !zlen_app in *; pose proof (zlen_nonneg d).
  - rewrite Z.min_l, ltb_false by lia. destruct (Z.gtb_spec (zlen x) 0); [rewrite load_app by done; exec; by rewrite app_nil_r|].
    by rewrite (zlen_zero x) by lia.
  - rewrite Z.min_r, gtb_true by lia. pose proof (load_tail (d ++ y) b) as Hb. rewrite zlen_app, Ha in Hb.
    replace (zlen d + zlen y + zlen b - from) with (zlen b) by lia. rewrite Hb. exec.
    destruct (Z.ltb_spec (zlen b) (zlen b + zlen d)); [|rewrite (zlen_zero d) by lia; done].
    rewrite <- (app_assoc d y b). pose proof (load_app [] d (y ++ b) 0 (zlen b + zlen d - zlen b) eq_refl ltac:(lia)) as Ht.
    cbn [app] in Ht. by rewrite Ht.
Qed.

Definition put_state (r : RingBuffer) (n : Z) (buffer : bytes) : RingBuffer :=
  mkRing (total_size_ r) (u64 (free_space_ r - n)) ((front_ r + n) mod total_size_ r) (back_ r) buffer.

Lemma Put_ok r data old y : area_ok r → rot (front_ r) (buffer_ r) = old ++ y → zlen old = zlen data →
  ∃ buffer, let r' := put_state r (zlen data) buffer in Put r data = Ret r' ∧ area_ok r' ∧ rot (front_ r') buffer = y ++ data.
Proof.
  intros [Hsize Hlim Hfront] Hr Hold. pose proof (zlen_nonneg data). unfold Put.
  assert (zlen data ≤ total_size_ r) as Hfit by (rewrite <- Hsize, <- (length_rot (front_ r) (buffer_ r)), Hr, zlen_app; pose proof (zlen_nonneg y); lia).
  rewrite (u64_small (total_size_ r - _)), (u64_small (front_ r + _)) by (unfold is_u64; lia).
  assert (∃ buffer, (buffer0 ← (if Z.min (zlen data) (total_size_ r - front_ r) >? 0
                                then store (buffer_ r) (front_ r) (take (Z.to_nat (Z.min (zlen data) (total_size_ r - front_ r))) data) else Ret (buffer_ r));
    if Z.min (zlen data) (total_size_ r - front_ r) <? zlen data then store buffer0 0 (drop (Z.to_nat (Z.min (zlen data) (total_size_ r - front_ r))) data) else Ret buffer0)
    = Ret buffer ∧ zlen buffer = total_size_ r ∧ rot (front_ r) buffer = data ++ y) as (buffer & Hb & Hlen & Hrot).
  { destruct (split_zlen (buffer_ r) (front_ r) ltac:(lia)) as (a & b & Hbuf & Ha). rewrite Hbuf, (rot_app a b) in Hr by done. rewrite Hbuf, zlen_app in *.
    apply app_eq_inv in Hr as [(d & -> & ->)|(d & -> & ->)]; rewrite !zlen_app in *; pose proof (zlen_nonneg d).
    - rewrite Z.min_l, ltb_false by lia. exists (a ++ data ++ d). rewrite (take_ge data) by (unfold zlen; lia). split.
      + destruct (Z.gtb_spec (zlen data) 0); [rewrite store_app by (done || (unfold zlen in *; lia)); done|].
        rewrite (zlen_zero data), (zlen_zero old) by lia. done.
      + rewrite !zlen_app. split; [lia|]. rewrite rot_app by done. by rewrite app_assoc.
    - destruct (split_zlen data (zlen b) ltac:(lia)) as (d1 & d2 & -> & Hd1). rewrite zlen_app in *. rewrite Z.min_r, gtb_true by lia.
      replace (total_size_ r - front_ r) with (zlen d1) by lia. rewrite take_app_zlen, drop_app_zlen by done. exists (d2 ++ y ++ d1).
      rewrite <- (app_nil_r b), (store_app (d ++ y) b [] (front_ r) d1) by (rewrite ?zlen_app; unfold zlen in *; lia). exec. rewrite app_nil_r, <- app_assoc. split.
      + destruct (Z.ltb_spec (zlen d1) (zlen d1 + zlen d2)); [apply (store_app [] d); [done|unfold zlen in *; lia]|].
        by rewrite (zlen_zero d), (zlen_zero d2) by lia.
      + rewrite !zlen_app. split; [lia|]. rewrite app_assoc, rot_app by (rewrite zlen_app; lia). by rewrite app_assoc. }
  exists buffer. cbn zeta. split; [|split].
  - apply bind_Ret in Hb as (buffer0 & -> & Hb). exec. apply bind_Ret. exists buffer. by split; [exact Hb|].
  - split; cbn; [done|done|]. apply Z.mod_pos_bound. lia.
  - cbn. rewrite <- Hlen in *. by apply rot_step.
Qed.

(** ** The buffer as a queue *)

(** An object in memory. *)
Definition framed (obj : bytes) : bytes := le_encode 8 (zlen obj) ++ obj.
Definition frames (q : list (Z * bytes)) : bytes := concat (framed ∘ snd <$> q).

(** The objects from the back to the front, with their handles; [front] is the
    position at which the next object is put. *)
Record queue := mkQueue { q_front : Z; q_objects : list (Z * bytes) }.

Inductive ring_op :=
  | RPush (obj : bytes)
  | RRemove
  | RSize (handle : Z)
  | RCopy (handle : Z)
  | RSlice (handle size offset : Z).

Inductive ring_answer := AHandle (handle : Z) | ASize (size : Z) | AData (data : bytes).

Definition ring_step (r : RingBuffer) (op : ring_op) : outcome (ring_answer * RingBuffer) :=
  match op with
  | RPush obj => '(h, r) ← PushFront r obj; Ret (AHandle h, r)
  | RRemove => '(h, r) ← RemoveBack r; Ret (AHandle h, r)
  | RSize h => n ← GetObjectSize r h; Ret (ASize n, r)
  | RCopy h => data ← CopyObject r h; Ret (AData data, r)
  | RSlice h size offset => data ← CopySlice r h size offset; Ret (AData data, r)
  end.

Fixpoint run_ring (r : RingBuffer) (ops : list ring_op) : outcome (list ring_answer * RingBuffer) :=
  match ops with
  | [] => Ret ([], r)
  | op :: ops => '(a, r) ← ring_step r op; '(l, r) ← run_ring r ops; Ret (a :: l, r)
  end.

Fixpoint find_object (objs : list (Z * bytes)) (handle : Z) : option bytes :=
  match objs with
  | [] => None
  | (h, obj) :: objs => if h =? handle then Some obj else find_object objs handle
  end.

(** What the operations promise; [None] if they may not be used. *)
Definition queue_step (total : Z) (q : queue) (op : ring_op) : option (ring_answer * queue) :=
  match op with
  | RPush obj =>
      let size := zlen (framed obj) in
      if zlen obj <? 2 ^ 63 then
        Some (if size + zlen (frames (q_objects q)) <=? total
              then (AHandle (q_front q), mkQueue ((q_front q + size) mod total) (q_objects q ++ [(q_front q, obj)]))
              else (AHandle kInvalidObjectHandle, q))
      else None
  | RRemove => match q_objects q with [] => None | (h, _) :: objs => Some (AHandle h, mkQueue (q_front q) objs) end
  | RSize h => obj ← find_object (q_objects q) h; Some (ASize (zlen obj), q)
  | RCopy h => obj ← find_object (q_objects q) h; Some (AData obj, q)
  | RSlice h size offset =>
      obj ← find_object (q_objects q) h;
      if (0 <=? size) && (0 <=? offset) && (offset + size <=? zlen obj)
      then Some (AData (take (Z.to_nat size) (drop (Z.to_nat offset) obj)), q) else None
  end.

Fixpoint run_queue (total : Z) (q : queue) (ops : list ring_op) : option (list ring_answer * queue) :=
  match ops with
  | [] => Some ([], q)
  | op :: ops => '(a, q) ← queue_step total q op; '(l, q) ← run_queue total q ops; Some (a :: l, q)
  end.

(** ** Refinement *)

(** The handles of objects that start at [pos]. *)
Fixpoint placed (total pos : Z) (objs : list (Z * bytes)) : Prop :=
  match objs with
  | [] => True
  | (h, obj) :: objs => h = pos mod total ∧ placed total (pos + zlen (framed obj)) objs
  end.

(** From the front on there is first the free space, then the objects. *)
Record ring_ok (r : RingBuffer) (q : queue) (free : bytes) : Prop := {
  ro_area : area_ok r;
  ro_front : front_ r = q_front q;
  ro_free : free_space_ r = zlen free;
  ro_back : back_ r = (front_ r + zlen free) mod total_size_ r;
  ro_rot : rot (front_ r) (buffer_ r) = free ++ frames (q_objects q);
  ro_placed : placed (total_size_ r) (front_ r + zlen free) (q_objects q)
}.

Lemma frames_app q1 q2 : frames (q1 ++ q2) = frames q1 ++ frames q2.
Proof. unfold frames. by rewrite fmap_app, concat_app. Qed.
Lemma frames_cons h obj q : frames ((h, obj) :: q) = framed obj ++ frames q.
Proof. done. Qed.
Lemma zlen_framed obj : zlen (framed obj) = sizeof_size_t + zlen obj.
Proof. unfold framed. rewrite zlen_app. unfold zlen at 1. by rewrite length_le_encode. Qed.

Lemma placed_app total q1 : ∀ pos q2, placed total pos (q1 ++ q2) ↔ placed total pos q1 ∧ placed total (pos + zlen (frames q1)) q2.
Proof.
  induction q1 as [|[h obj] q1 IH]; intros pos q2; cbn [app placed].
  - change (zlen (frames [])) with 0. rewrite Z.add_0_r. naive_solver.
  - rewrite IH, frames_cons, zlen_app, Z.add_assoc. naive_solver.
Qed.

Lemma placed_mod total q : ∀ pos pos', pos mod total = pos' mod total → placed total pos q → placed total pos' q.
Proof.
  induction q as [|[h obj] q IH]; intros pos pos' Hm; cbn [placed]; [done|]. intros [-> Hq]. split; [done|].
  apply (IH (pos + zlen (framed obj))); [|done]. rewrite Zplus_mod, Hm. by rewrite <- Zplus_mod.
Qed.

Lemma find_object_split objs h obj : find_object objs h = Some obj → ∃ q1 q2, objs = q1 ++ (h, obj) :: q2.
Proof.
  induction objs as [|[h' obj'] objs IH]; cbn [find_object]; [done|]. destruct (Z.eqb_spec h' h) as [->|].
  - intros [= ->]. by exists [], objs.
  - intros (q1 & q2 & ->)%IH. by exists ((h', obj') :: q1), q2.
Qed.

(** The memory at a handle. *)
Lemma rot_object r q free q1 h obj q2 : ring_ok r q free → q_objects q = q1 ++ (h, obj) :: q2 →
  0 ≤ h < total_size_ r ∧ rot h (buffer_ r) = framed obj ++ (frames q2 ++ free ++ frames q1).
Proof.
  intros [[Hsize Hlim Hfront] _ _ _ Hrot Hpl] Hq. rewrite Hq, frames_app, frames_cons, app_assoc in Hrot. rewrite Hq, placed_app in Hpl. destruct Hpl as [_ [-> _]].
  split; [apply Z.mod_pos_bound; lia|]. rewrite <- Hsize in *. apply rot_step in Hrot; [|lia]. rewrite zlen_app, Z.add_assoc in Hrot. by rewrite Hrot, <- app_assoc.
Qed.

Lemma object_fits r q free q1 h obj q2 : ring_ok r q free → q_objects q = q1 ++ (h, obj) :: q2 → sizeof_size_t + zlen obj ≤ total_size_ r.
Proof.
  intros Hr Hq. destruct (rot_object _ _ _ _ _ _ _ Hr Hq) as [_ Hrot]. destruct Hr as [[Hsize _ _] _ _ _ _ _].
  rewrite <- Hsize, <- (length_rot h (buffer_ r)), Hrot, zlen_app, zlen_framed. pose proof (zlen_nonneg (frames q2 ++ free ++ frames q1)). lia.
Qed.

Lemma GetObjectSize_ok r q free q1 h obj q2 : ring_ok r q free → q_objects q = q1 ++ (h, obj) :: q2 → GetObjectSize r h = Ret (zlen obj).
Proof.
  intros Hr Hq. destruct (rot_object _ _ _ _ _ _ _ Hr Hq) as [Hh Hrot]. pose proof (object_fits _ _ _ _ _ _ _ Hr Hq) as Hfit. pose proof (ro_area _ _ _ Hr) as Ha.
  unfold framed in Hrot. rewrite <- app_assoc in Hrot. apply Get_ok in Hrot; [|done..]. unfold zlen in Hrot at 1. rewrite length_le_encode in Hrot.
  unfold GetObjectSize. change sizeof_size_t with (Z.of_nat 8) at 1. rewrite Hrot. exec. rewrite le_decode_encode. destruct Ha as [_ Hlim _].
  pose proof (zlen_nonneg obj). unfold sizeof_size_t in Hfit. rewrite Z.mod_small by (change (8 * Z.of_nat 8) with 64; lia). by rewrite leb_true by lia.
Qed.

(** From an offset in an object on. *)
Lemma slice_ok r q free q1 h obj q2 offset size : ring_ok r q free → q_objects q = q1 ++ (h, obj) :: q2 → 0 ≤ offset → 0 ≤ size → offset + size ≤ zlen obj →
  CopySlice r h size offset = Ret (take (Z.to_nat size) (drop (Z.to_nat offset) obj)).
Proof.
  intros Hr Hq Ho Hs Hle. destruct (rot_object _ _ _ _ _ _ _ Hr Hq) as [Hh Hrot]. pose proof (object_fits _ _ _ _ _ _ _ Hr Hq) as Hfit.
  destruct (ro_area _ _ _ Hr) as [Hsize Hlim Hfr]. destruct (split_zlen obj offset ltac:(lia)) as (o1 & o2 & -> & Ho1). rewrite zlen_app in *.
  destruct (split_zlen o2 size ltac:(lia)) as (o3 & o4 & -> & Ho3). rewrite drop_app_zlen, take_app_zlen by done. unfold framed in Hrot.
  rewrite (app_assoc _ o1), <- (app_assoc _ (o3 ++ o4)) in Hrot. apply rot_step in Hrot; [|lia]. rewrite Hsize, zlen_app in Hrot. unfold zlen in Hrot at 1. rewrite length_le_encode, Ho1 in Hrot.
  unfold CopySlice. unfold sizeof_size_t in *. rewrite u64_small by (unfold is_u64; lia). rewrite <- Ho3. replace (h + 8 + offset) with (h + (Z.of_nat 8 + offset)) by lia.
  rewrite <- !app_assoc in Hrot. eapply Get_ok; [apply Hr|apply Z.mod_pos_bound; lia|exact Hrot].
Qed.

Lemma CopyObject_ok r q free q1 h obj q2 : ring_ok r q free → q_objects q = q1 ++ (h, obj) :: q2 → CopyObject r h = Ret obj.
Proof.
  intros Hr Hq. pose proof (slice_ok r q free q1 h obj q2 0 (zlen obj) Hr Hq ltac:(lia) (zlen_nonneg _) ltac:(lia)) as Hs.
  unfold CopyObject. rewrite (GetObjectSize_ok _ _ _ _ _ _ _ Hr Hq). exec. unfold CopySlice in Hs. rewrite Z.add_0_r in Hs. rewrite Hs.
  f_equal. apply take_ge. unfold zlen. cbn. lia.
Qed.

Lemma RemoveBack_ok r front h obj objs free : ring_ok r (mkQueue front ((h, obj) :: objs)) free →
  ∃ r', RemoveBack r = Ret (h, r') ∧ total_size_ r' = total_size_ r ∧ ring_ok r' (mkQueue front objs) (free ++ framed obj).
Proof.
  intros Hr. pose proof (GetObjectSize_ok r _ free [] h obj objs Hr eq_refl) as Hs. pose proof (object_fits r _ free [] h obj objs Hr eq_refl) as Hfit.
  destruct Hr as [Ha Hf Hfree Hback Hrot Hpl]. cbn [q_objects placed] in *. destruct Hpl as [Hh Hpl]. unfold RemoveBack. rewrite Hback, <- Hh, Hs. exec. eexists. split; [done|]. split; [done|].
  destruct Ha as [Hsize Hlim Hfr]. pose proof (zlen_nonneg obj). pose proof (zlen_nonneg free). unfold sizeof_size_t in *.
  assert (zlen free + (8 + zlen obj) ≤ total_size_ r) as Hall.
  { rewrite <- Hsize, <- (length_rot (front_ r) (buffer_ r)), Hrot, zlen_app, frames_cons, zlen_app, zlen_framed. pose proof (zlen_nonneg (frames objs)). unfold sizeof_size_t. lia. }
  split; cbn [Shrink put_state total_size_ free_space_ front_ back_ buffer_ q_front q_objects]; [done|done| | |by rewrite Hrot, frames_cons, <- app_assoc|].
  - rewrite Hfree, zlen_app, zlen_framed. unfold sizeof_size_t. rewrite !u64_small by (unfold is_u64; try rewrite u64_small; unfold is_u64; lia). lia.
  - rewrite Hback. set (T := total_size_ r) in *. pose proof (Z.mod_pos_bound (front_ r + zlen free) T ltac:(lia)).
    rewrite (u64_small (_ + 8)) by (unfold is_u64; lia). pose proof (Z.mod_pos_bound ((front_ r + zlen free) mod T + 8) T ltac:(lia)). rewrite u64_small by (unfold is_u64; lia).
    rewrite Zplus_mod_idemp_l, <- Z.add_assoc, Zplus_mod_idemp_l, zlen_app, zlen_framed. f_equal. unfold sizeof_size_t. lia.
  - by rewrite zlen_app, Z.add_assoc.
Qed.

Lemma PushFront_ok r q free obj : ring_ok r q free → zlen obj < 2 ^ 63 → zlen (framed obj) ≤ zlen free →
  ∃ r' free', PushFront r obj = Ret (q_front q, r') ∧ total_size_ r' = total_size_ r ∧
    ring_ok r' (mkQueue ((q_front q + zlen (framed obj)) mod total_size_ r) (q_objects q ++ [(q_front q, obj)])) free'.
Proof.
  intros [Ha Hf Hfree Hback Hrot Hpl] Hobj Hfit. rewrite zlen_framed in Hfit. pose proof (zlen_nonneg obj). unfold sizeof_size_t in Hfit.
  assert (zlen free + zlen (frames (q_objects q)) = total_size_ r) as Hsum by (by rewrite <- zlen_app, <- Hrot, length_rot, (ar_size _ Ha)).
  pose proof (zlen_nonneg (frames (q_objects q))).
  destruct (split_zlen free 8 ltac:(lia)) as (f1 & f2 & -> & Hf1). rewrite zlen_app in *. destruct (split_zlen f2 (zlen obj) ltac:(lia)) as (f3 & f4 & -> & Hf3). rewrite zlen_app in *.
  assert (zlen (le_encode 8 (zlen obj)) = 8) as Htag by (unfold zlen at 1; by rewrite length_le_encode).
  rewrite <- app_assoc in Hrot. destruct (Put_ok r (le_encode 8 (zlen obj)) _ _ Ha Hrot ltac:(lia)) as (b1 & Hp1 & Ha1 & Hr1). cbn zeta in *. rewrite Htag in *.
  rewrite <- !app_assoc in Hr1. destruct (Put_ok _ obj _ _ Ha1 Hr1 Hf3) as (b2 & Hp2 & Ha2 & Hr2). cbn zeta in *.
  unfold PushFront. unfold sizeof_size_t. pose proof (ar_limit _ Ha). rewrite (u64_small (zlen obj + 8)) by (unfold is_u64; lia). rewrite gtb_false by lia. rewrite Hp1. exec. rewrite Hp2. exec.
  exists (put_state (put_state r 8 b1) (zlen obj) b2), f4. rewrite Hf. split; [done|]. split; [done|]. pose proof (zlen_nonneg f4). set (T := total_size_ r) in *.
  assert ((((q_front q + 8) mod T + zlen obj) mod T) = (q_front q + (8 + zlen obj)) mod T) as Hmod by (rewrite Zplus_mod_idemp_l; f_equal; lia).
  assert (((q_front q + (8 + zlen obj)) mod T + zlen f4) mod T = (q_front q + (8 + (zlen obj + zlen f4))) mod T) as Hmod2 by (rewrite Zplus_mod_idemp_l; f_equal; lia).
  split; [done|..]; cbn [Shrink put_state total_size_ free_space_ front_ back_ buffer_ q_front q_objects]; rewrite ?zlen_framed; unfold sizeof_size_t; fold T; rewrite ?Hf, ?Hmod; [done| | | |].
  - rewrite Hfree, Hf1, Hf3, (u64_small (_ - 8)), u64_small by (unfold is_u64; lia). lia.
  - by rewrite Hback, Hmod2, Hf, Hf1, Hf3.
  - cbn [Shrink put_state total_size_ free_space_ front_ back_ buffer_ q_front q_objects] in Hr2. fold T in Hr2. rewrite Hf, Hmod in Hr2. rewrite Hr2, frames_app, frames_cons. unfold framed. by rewrite app_nil_r, <- !app_assoc.
  - rewrite placed_app. rewrite Hf1, Hf3, Hf in Hpl. split; [eapply placed_mod; [symmetry; exact Hmod2|done]|]. cbn [placed]. split; [|done].
    rewrite <- Zplus_mod_idemp_l, Hmod2, Zplus_mod_idemp_l. replace (q_front q + _ + _) with (q_front q + 1 * T) by lia.
    rewrite Z_mod_plus_full, Z.mod_small; [done|]. rewrite <- Hf. apply Ha.
Qed.


Lemma new_ring_ok total : sizeof_size_t ≤ total < 2 ^ 62 → ∃ r free, new_ring total = Ret r ∧ total_size_ r = total ∧ ring_ok r (mkQueue 0 []) free.
Proof.
  unfold sizeof_size_t. intros Ht. unfold new_ring. rewrite geb_true by (unfold sizeof_size_t; lia). exec. set (mem := replicate (Z.to_nat total) 0).
  assert (zlen mem = total) as Hm by (unfold mem, zlen; rewrite length_replicate; lia). eexists _, mem. split; [done|]. split; [done|].
  split; cbn [front_ back_ free_space_ buffer_ total_size_ q_front q_objects]; [split; cbn; lia|done|by rewrite Hm| |unfold rot; cbn; by rewrite drop_0|done].
  by rewrite Hm, Z.add_0_l, Z_mod_same_full.
Qed.

Lemma ring_step_ok r q free op a q' : ring_ok r q free → queue_step (total_size_ r) q op = Some (a, q') →
  ∃ r' free', ring_step r op = Ret (a, r') ∧ total_size_ r' = total_size_ r ∧ ring_ok r' q' free'.
Proof.
  intros Hr Hq. pose proof (ro_area _ _ _ Hr) as [Hsize Hlim Hfr]. destruct op as [obj| |h|h|h size offset]; cbn [queue_step] in Hq; cbn [ring_step].
  - destruct (Z.ltb_spec (zlen obj) (2 ^ 63)); [|done]. injection Hq as Hq.
    assert (zlen free + zlen (frames (q_objects q)) = total_size_ r) as Hsum by (by rewrite <- zlen_app, <- (ro_rot _ _ _ Hr), length_rot).
    destruct (Z.leb_spec (zlen (framed obj) + zlen (frames (q_objects q))) (total_size_ r)) as [Hle|Hgt]; injection Hq as <- <-.
    + destruct (PushFront_ok r q free obj Hr) as (r' & free' & -> & ? & ?); [done|lia|]. exec. by exists r', free'.
    + exists r, free. split; [|done]. unfold PushFront. rewrite zlen_framed in Hgt. pose proof (zlen_nonneg obj). unfold sizeof_size_t in *.
      rewrite u64_small by (unfold is_u64; lia). rewrite gtb_true by (rewrite (ro_free _ _ _ Hr); lia). done.
  - destruct q as [front [|[h obj] objs]]; [done|]. injection Hq as <- <-. destruct (RemoveBack_ok _ _ _ _ _ _ Hr) as (r' & -> & ? & ?). exec. by eexists _, _.
  - destruct (find_object _ h) as [obj|] eqn:Hf; [|done]. injection Hq as <- <-. destruct (find_object_split _ _ _ Hf) as (q1 & q2 & Hq).
    rewrite (GetObjectSize_ok _ _ _ _ _ _ _ Hr Hq). exec. by eexists _, _.
  - destruct (find_object _ h) as [obj|] eqn:Hf; [|done]. injection Hq as <- <-. destruct (find_object_split _ _ _ Hf) as (q1 & q2 & Hq).
    rewrite (CopyObject_ok _ _ _ _ _ _ _ Hr Hq). exec. by eexists _, _.
  - destruct (find_object _ h) as [obj|] eqn:Hf; [|done]. cbn in Hq. destruct ((0 <=? size) && _ && _) eqn:Hb; [|done]. injection Hq as <- <-.
    apply andb_true_iff in Hb as [[?%Z.leb_le ?%Z.leb_le]%andb_true_iff ?%Z.leb_le]. destruct (find_object_split _ _ _ Hf) as (q1 & q2 & Hq).
    rewrite (slice_ok _ _ _ _ _ _ _ offset size Hr Hq) by done. exec. by eexists _, _.
Qed.

Lemma run_ring_ok ops : ∀ r q free l q', ring_ok r q free → run_queue (total_size_ r) q ops = Some (l, q') →
  ∃ r' free', run_ring r ops = Ret (l, r') ∧ total_size_ r' = total_size_ r ∧ ring_ok r' q' free'.
Proof.
  induction ops as [|op ops IH]; intros r q free l q' Hr Hq; cbn in Hq.
  - injection Hq as <- <-. by exists r, free.
  - destruct (queue_step _ q op) as [[a q1]|] eqn:H1; [|done]. cbn in Hq. destruct (run_queue _ q1 ops) as [[l1 q2]|] eqn:H2; [|done]. injection Hq as <- <-.
    destruct (ring_step_ok _ _ _ _ _ _ Hr H1) as (r1 & f1 & Hs & Ht & Hr1). rewrite <- Ht in H2. destruct (IH _ _ _ _ _ Hr1 H2) as (r2 & f2 & Hs2 & Ht2 & Hr2).
    exists r2, f2. cbn [run_ring]. rewrite Hs. exec. rewrite Hs2. exec. by rewrite Ht2.
Qed.

(** Different objects have different handles. *)
Lemma placed_later total pos q h obj : placed total pos q → (h, obj) ∈ q → ∃ d, 0 ≤ d ∧ d + sizeof_size_t ≤ zlen (frames q) ∧ h = (pos + d) mod total.
Proof.
  intros Hp (q1 & q2 & ->)%list_elem_of_split. apply placed_app in Hp as [_ [-> _]]. exists (zlen (frames q1)). split; [apply zlen_nonneg|]. split; [|done].
  rewrite frames_app, frames_cons, !zlen_app, zlen_framed. pose proof (zlen_nonneg obj). pose proof (zlen_nonneg (frames q2)). lia.
Qed.

Lemma placed_NoDup total q : ∀ pos, zlen (frames q) ≤ total → placed total pos q → NoDup q.*1.
Proof.
  induction q as [|[h obj] q IH]; intros pos Hle Hp; [constructor|]. destruct Hp as [-> Hp]. rewrite frames_cons, zlen_app in Hle. pose proof (zlen_nonneg obj) as Ho.
  constructor; [|apply (IH _ ltac:(pose proof (zlen_nonneg (framed obj)); lia) Hp)].
  intros ([h' obj'] & Hh & Hin)%list_elem_of_fmap. cbn in Hh. destruct (placed_later _ _ _ _ _ Hp Hin) as (d & Hd & Hd2 & Hd3). rewrite zlen_framed in *. unfold sizeof_size_t in *.
  rewrite <- Hh, <- Z.add_assoc in Hd3. assert ((8 + zlen obj + d) mod total = 0) as H0.
  { replace (8 + zlen obj + d) with (pos + (8 + zlen obj + d) - pos) by lia. rewrite Zminus_mod, <- Hd3, Z.sub_diag. by rewrite Zmod_0_l. }
  rewrite Z.mod_small in H0; lia.
Qed.


(** [RemoveBack] does not notice that there is nothing to remove: it returns a
    handle, and more space is free than there is. *)
Lemma remove_from_empty total r : sizeof_size_t ≤ total < 2 ^ 62 → new_ring total = Ret r →
  ∃ r', RemoveBack r = Ret (0, r') ∧ free_space_ r' = total + sizeof_size_t.
Proof.
  intros Ht Hnew. destruct (new_ring_ok total Ht) as (r1 & f1 & Hnew1 & Htot & Hr). rewrite Hnew in Hnew1. injection Hnew1 as <-.
  unfold new_ring in Hnew. apply bind_Ret in Hnew as (? & _ & [= Hn]). unfold sizeof_size_t in *.
  assert (Get r 0 8 = Ret (replicate 8 0)) as Hget.
  { apply (Get_ok r 0 (replicate 8 0) (replicate (Z.to_nat total - 8) 0) (ro_area _ _ _ Hr)); [lia|]. rewrite <- Hn, <- replicate_add. unfold rot. cbn [buffer_].
    rewrite drop_0, app_nil_r. f_equal. lia. }
  unfold RemoveBack, GetObjectSize. assert (back_ r = 0) as -> by by rewrite <- Hn. change sizeof_size_t with 8. rewrite Hget. exec.
  change (le_decode (replicate 8 0)) with 0. rewrite leb_true by lia. exec. eexists. split; [done|]. rewrite <- Hn. cbn. rewrite !Z.add_0_r, !u64_small; unfold is_u64; rewrite ?u64_small; unfold is_u64; lia.
Qed.

(** ** Examples *)

Module RingWitness.

(** In 32 bytes: the second object is refused, the third one wraps around. *)
Definition ops_w : list ring_op :=
  [RPush [1; 2; 3; 4; 5; 6]; RPush (replicate 12 7); RPush [8; 9]; RRemove; RPush [10; 11; 12; 13]; RSize 24; RCopy 24; RSlice 24 2 1; RCopy 14].
Definition answers_w : list ring_answer :=
  [AHandle 0; AHandle kInvalidObjectHandle; AHandle 14; AHandle 0; AHandle 24; ASize 4; AData [10; 11; 12; 13]; AData [11; 12]; AData [8; 9]].

End RingWitness.
