(* ===== verification/StringUtil.v ===== *)
(** * String functions (src/cvmfs/util/string.cc)

    Strings are byte lists.  The functions that find, split, join, trim,
    encode and parse, with the C library functions they call ([strtoll],
    [sscanf], [snprintf] of integers, [std::string::find]) written out.  The
    theorems are round trips of splitting and joining, of Base64 in both of its
    alphabets, of decimal numbers and of the key-value format of manifests, and
    the inputs on which two of the loops never end. *)

From stdpp Require Import base numbers list gmap.
From S2P Require Import Prelude Bytes.

Open Scope Z_scope.

(** ** Characters *)

Definition chr_nl : Z := 10.
Definition chr_cr : Z := 13.
Definition chr_tab : Z := 9.
Definition chr_space : Z := 32.
Definition chr_plus : Z := 43.
Definition chr_minus : Z := 45.
Definition chr_slash : Z := 47.
Definition chr_eq : Z := 61.
Definition chr_Z : Z := 90.
Definition chr_underscore : Z := 95.
Definition chr_bar : Z := 124.

Definition is_digit (c : Z) : bool := (48 <=? c) && (c <=? 57).
(** [isspace], [toupper] and [tolower] of the C locale. *)
Definition isspace (c : Z) : bool := (c =? 32) || ((9 <=? c) && (c <=? 13)).
Definition toupper (c : Z) : Z := if (97 <=? c) && (c <=? 122) then c - 32 else c.
Definition tolower (c : Z) : Z := if (65 <=? c) && (c <=? 90) then c + 32 else c.

Definition bytes_eqb (a b : bytes) : bool := bool_decide (a = b).

(** [std::string::substr] with both arguments, and with the first one only. *)
Definition substr (s : bytes) (pos n : Z) : bytes := take (Z.to_nat n) (drop (Z.to_nat pos) s).
Definition substr_from (s : bytes) (pos : Z) : bytes := drop (Z.to_nat pos) s.

(** ** Numbers *)

Definition StringifyBool (value : bool) : bytes := if value then [121; 101; 115] else [110; 111].

(** The digits of a number that has at most [fuel] of them. *)
Fixpoint digits (fuel : nat) (n : Z) : bytes :=
  match fuel with
  | O => []
  | S fuel => (if n <? 10 then [] else digits fuel (n / 10)) ++ [48 + n mod 10]
  end.

(** [snprintf] with [PRIu64] and [PRId64]; 64 bit numbers have at most 20
    digits. *)
Definition StringifyUint (value : Z) : bytes := digits 20 value.
Definition StringifyInt (value : Z) : bytes :=
  if value <? 0 then chr_minus :: digits 20 (- value) else digits 20 value.

Definition hex_lower (c : Z) : Z := if c <? 10 then 48 + c else 87 + c.
Definition StringifyByteAsHex (value : Z) : bytes := [hex_lower (value / 16); hex_lower (value mod 16)].

Fixpoint skip_spaces (s : bytes) : bytes :=
  match s with
  | c :: s' => if isspace c then skip_spaces s' else s
  | [] => []
  end.

(** The digits at the beginning of [s]: their value, their number, the rest. *)
Fixpoint scan_digits (s : bytes) (acc n : Z) : Z * Z * bytes :=
  match s with
  | c :: s' => if is_digit c then scan_digits s' (acc * 10 + (c - 48)) (n + 1) else (acc, n, s)
  | [] => (acc, n, [])
  end.

Definition scan_sign (s : bytes) : bool * bytes :=
  match s with
  | c :: s' => if c =? chr_minus then (true, s') else if c =? chr_plus then (false, s') else (false, s)
  | [] => (false, [])
  end.

Definition LLONG_MAX : Z := 2 ^ 63 - 1.
Definition ERANGE : Z := 34.

(** [strtoll] in base 10: the value, the unread rest of the string, and
    [errno]. Without any digit nothing is read. *)
Definition strtoll (s : bytes) : Z * bytes * Z :=
  let '(negative, t) := scan_sign (skip_spaces s) in
  let '(v, n, rest) := scan_digits t 0 0 in
  if n =? 0 then (0, s, 0)
  else
    let v := if negative : bool then - v else v in
    if v >? LLONG_MAX then (LLONG_MAX, rest, ERANGE)
    else if v <? - 2 ^ 63 then (- 2 ^ 63, rest, ERANGE)
    else (v, rest, 0).

(** [String2Uint64Parse]: the result or [errno]. *)
Definition String2Uint64Parse (value : bytes) : Z + Z :=
  let '(myval, rest, errno) := strtoll value in
  if (zlen value =? 0) || negb (zlen rest =? 0) || (myval <? 0) then inr EINVAL
  else if negb (errno =? 0) then inr errno
  else inl myval.

(** [sscanf] with [PRIu64]: a number, if there is one. *)
Definition scan_u64 (s : bytes) : option Z :=
  let '(negative, t) := scan_sign (skip_spaces s) in
  let '(v, n, _) := scan_digits t 0 0 in
  if n =? 0 then None
  else if v >? 2 ^ 64 - 1 then Some (2 ^ 64 - 1)
  else Some (if negative : bool then u64 (- v) else v).

Definition String2Uint64 (value : bytes) : Z :=
  match scan_u64 value with Some v => v | None => 0 end.

(** ** Prefixes and suffixes *)

Fixpoint prefix_loop (ignore_case : bool) (s prefix : bytes) : bool :=
  match prefix, s with
  | [], _ => true
  | _, [] => false
  | p :: prefix, c :: s =>
      if ignore_case
      then if toupper c =? toupper p then prefix_loop ignore_case s prefix else false
      else if c =? p then prefix_loop ignore_case s prefix else false
  end.

Definition HasPrefix (s prefix : bytes) (ignore_case : bool) : bool :=
  if zlen prefix >? zlen s then false else prefix_loop ignore_case s prefix.

(** [std::equal] on reversed strings. *)
Fixpoint equal_by (f : Z → Z → bool) (a b : bytes) : bool :=
  match a, b with
  | [], _ => true
  | x :: a, y :: b => f x y && equal_by f a b
  | _ :: _, [] => false
  end.

Definition HasSuffix (s suffix : bytes) (ignore_case : bool) : bool :=
  if zlen suffix >? zlen s then false
  else if ignore_case
  then equal_by (λ a b, tolower a =? tolower b) (reverse suffix) (reverse s)
  else equal_by Z.eqb (reverse suffix) (reverse s).

(** ** Splitting and joining *)

(** The loop of [SplitStringBounded]: [pending] are the characters from
    position [i] on. *)
Fixpoint split_loop (pending : bytes) (max_chunks : Z) (str : bytes) (delim i marker chunks : Z)
    : list bytes :=
  match pending with
  | [] => [substr_from str marker]
  | c :: pending =>
      if c =? delim then
        let marker' := u32 (i + 1) in
        let chunks := u32 (chunks + 1) in
        substr str marker (i - marker) ::
          (if chunks =? max_chunks then [substr_from str marker']
           else split_loop pending max_chunks str delim (i + 1) marker' chunks)
      else split_loop pending max_chunks str delim (i + 1) marker chunks
  end.

Definition SplitStringBounded (max_chunks : Z) (str : bytes) (delim : Z) : list bytes :=
  if 1 =? max_chunks then [str]
  else split_loop (take (Z.to_nat (u32 (zlen str))) str) max_chunks str delim 0 0 1.

Definition SplitString (str : bytes) (delim : Z) : list bytes := SplitStringBounded 0 str delim.

(** [std::string::find]: the first occurrence of [needle] from [pos] on. *)
Fixpoint find_in (s needle : bytes) (pos : Z) : option Z :=
  if bool_decide (needle `prefix_of` s) then Some pos
  else match s with
       | [] => None
       | _ :: s => find_in s needle (pos + 1)
       end.
Definition find (s needle : bytes) (pos : Z) : option Z :=
  if pos >? zlen s then None else find_in (substr_from s pos) needle pos.

Fixpoint split_multi_loop (fuel : nat) (str delim : bytes) (pos_start : Z) : outcome (list bytes) :=
  match fuel with
  | O => Fail OutOfFuel
  | S fuel =>
      match find str delim pos_start with
      | Some pos_end =>
          rest ← split_multi_loop fuel str delim (pos_end + zlen delim);
          Ret (substr str pos_start (pos_end - pos_start) :: rest)
      | None => Ret [substr_from str pos_start]
      end
  end.

Definition SplitStringMultiChar (fuel : nat) (str delim : bytes) : outcome (list bytes) :=
  split_multi_loop fuel str delim 0.

Definition JoinStrings (strings : list bytes) (joint : bytes) : bytes :=
  match strings with
  | [] => []
  | s :: strings => foldl (λ result s, result ++ joint ++ s) s strings
  end.

(** ** Key-value pairs *)

Notation keyvals := (gmap Z bytes).

(** A complete line: a key and its value. The key [Z] collects its values. *)
Definition keyval_line (line : bytes) (content : keyvals) : keyvals :=
  match line with
  | [] => content
  | key :: tail =>
      if negb (key =? chr_Z) then <[key := tail]> content
      else match content !! key with
           | None => <[key := tail]> content
           | Some v => <[key := v ++ [chr_bar] ++ tail]> content
           end
  end.

(** The loop of [ParseKeyvalMem] with the line read so far. *)
Fixpoint keyval_loop (buffer line : bytes) (content : keyvals) : keyvals :=
  match buffer with
  | [] => content
  | c :: buffer =>
      if c =? chr_nl then
        if bytes_eqb line [chr_minus; chr_minus] then content
        else keyval_loop buffer [] (keyval_line line content)
      else keyval_loop buffer (line ++ [c]) content
  end.

Definition ParseKeyvalMem (buffer : bytes) (content : keyvals) : keyvals :=
  keyval_loop buffer [] content.

(** [ParseKeyvalPath] on a file that is opened and read in one go, [None] where
    that fails. *)
Definition ParseKeyvalPath (file : option bytes) (content : keyvals) : bool * keyvals :=
  match file with
  | None => (false, content)
  | Some data =>
      let num_bytes := Z.min (zlen data) 4096 in
      if (num_bytes <=? 0) || (num_bytes >=? 4096) then (false, content)
      else (true, ParseKeyvalMem (take (Z.to_nat num_bytes) data) content)
  end.

(** ** Lines *)

Fixpoint line_end (text : bytes) (size : nat) : nat :=
  match text, size with
  | c :: text, S size => if c =? chr_nl then O else S (line_end text size)
  | _, _ => O
  end.
Definition GetLineMem (text : bytes) (text_size : Z) : bytes :=
  take (line_end text (Z.to_nat text_size)) text.

(** Results of [read] of one byte. *)
Inductive read_byte := RbByte (c : Z) | RbEof | RbIntr | RbError.

(** The loop of [GetLineFd]: the line, whether the last [read] gave a byte, and
    the reads left. *)
Fixpoint get_line_loop (reads : list read_byte) (line : bytes) : bytes * bool * list read_byte :=
  match reads with
  | [] => (line, false, [])
  | RbEof :: reads => (line, false, reads)
  | RbIntr :: reads => get_line_loop reads line
  | RbError :: reads => (line, false, reads)
  | RbByte c :: reads =>
      if c =? chr_nl then (line, true, reads) else get_line_loop reads (line ++ [c])
  end.
Definition GetLineFd (reads : list read_byte) : bool * bytes * list read_byte :=
  let '(line, got, reads) := get_line_loop reads [] in
  (got || negb (zlen line =? 0), line, reads).

(** ** Trimming and replacing *)

Definition is_blank (trim_newline : bool) (c : Z) : bool :=
  (c =? chr_space) || (c =? chr_tab) || (trim_newline && ((c =? chr_nl) || (c =? chr_cr))).

Fixpoint trim_start (raw : bytes) (trim_newline : bool) (start_pos : Z) : Z :=
  match raw with
  | c :: raw => if is_blank trim_newline c then trim_start raw trim_newline (start_pos + 1) else start_pos
  | [] => start_pos
  end.

(** The second loop of [Trim]; [end_pos] is an [unsigned]. *)
Fixpoint trim_end (fuel : nat) (raw : bytes) (trim_newline : bool) (start_pos end_pos : Z) : outcome Z :=
  match fuel with
  | O => Fail OutOfFuel
  | S fuel =>
      if end_pos >=? start_pos then
        c ← rd raw end_pos;
        if is_blank trim_newline c then trim_end fuel raw trim_newline start_pos (u32 (end_pos - 1))
        else Ret end_pos
      else Ret end_pos
  end.

Definition Trim (raw : bytes) (trim_newline : bool) : outcome bytes :=
  if zlen raw =? 0 then Ret []
  else
    let start_pos := trim_start raw trim_newline 0 in
    end_pos ← trim_end (S (length raw)) raw trim_newline start_pos (u32 (zlen raw - 1));
    Ret (substr raw start_pos (u32 (end_pos - start_pos + 1))).

Definition ToUpper (mixed_case : bytes) : bytes := toupper <$> mixed_case.

Definition kTrimLeading : Z := 1.
Definition kTrimTrailing : Z := 2.

Fixpoint trim_leading (fuel : nat) (trimmed toTrim : bytes) : outcome bytes :=
  match fuel with
  | O => Fail OutOfFuel
  | S fuel =>
      if HasPrefix trimmed toTrim true && (zlen trimmed >? zlen toTrim)
      then trim_leading fuel (substr_from trimmed (zlen toTrim)) toTrim
      else Ret trimmed
  end.
Fixpoint trim_trailing (fuel : nat) (trimmed toTrim : bytes) : outcome bytes :=
  match fuel with
  | O => Fail OutOfFuel
  | S fuel =>
      if HasSuffix trimmed toTrim true && (zlen trimmed >? zlen toTrim)
      then trim_trailing fuel (substr trimmed 0 (zlen trimmed - zlen toTrim)) toTrim
      else Ret trimmed
  end.
Definition TrimString (fuel : nat) (path toTrim : bytes) (trimMode : Z) : outcome bytes :=
  if bytes_eqb path toTrim then Ret path
  else
    trimmed ← if negb (Z.land trimMode kTrimLeading =? 0) then trim_leading fuel path toTrim else Ret path;
    if negb (Z.land trimMode kTrimTrailing =? 0) then trim_trailing fuel trimmed toTrim else Ret trimmed.

Fixpoint replace_loop (fuel : nat) (result needle replace_by : bytes) (pos : Z) : outcome bytes :=
  match fuel with
  | O => Fail OutOfFuel
  | S fuel =>
      match find result needle pos with
      | Some pos =>
          replace_loop fuel (substr result 0 pos ++ replace_by ++ substr_from result (pos + zlen needle))
            needle replace_by pos
      | None => Ret result
      end
  end.
Definition ReplaceAll (fuel : nat) (haystack needle replace_by : bytes) : outcome bytes :=
  if zlen needle =? 0 then Ret haystack else replace_loop fuel haystack needle replace_by 0.

(** ** Base64 *)

Definition b64_table : bytes :=
  [65; 66; 67; 68; 69; 70; 71; 72; 73; 74; 75; 76; 77; 78; 79; 80; 81; 82; 83; 84; 85; 86; 87;
   88; 89; 90; 97; 98; 99; 100; 101; 102; 103; 104; 105; 106; 107; 108; 109; 110; 111; 112;
   113; 114; 115; 116; 117; 118; 119; 120; 121; 122; 48; 49; 50; 51; 52; 53; 54; 55; 56; 57;
   43; 47].

Definition db64_table : list Z :=
    replicate 43 (-1) ++ [62; (-1); 62; (-1); 63; 52; 53; 54; 55; 56; 57; 58; 59; 60; 61; (-1);
    (-1); (-1); 0; (-1); (-1); (-1); 0; 1; 2; 3; 4; 5; 6; 7; 8; 9; 10; 11; 12; 13; 14; 15; 16;
    17; 18; 19; 20; 21; 22; 23; 24; 25; (-1); (-1); (-1); (-1); 63; (-1); 26; 27; 28; 29; 30;
    31; 32; 33; 34; 35; 36; 37; 38; 39; 40; 41; 42; 43; 44; 45; 46; 47; 48; 49; 50; 51] ++
    replicate 133 (-1).

Definition Base64Block (i0 i1 i2 : Z) : outcome bytes :=
  o0 ← rd b64_table (Z.shiftr (Z.land i0 253) 2);
  o1 ← rd b64_table (Z.lor (Z.shiftl (Z.land i0 3) 4) (Z.shiftr (Z.land i1 240) 4));
  o2 ← rd b64_table (Z.lor (Z.shiftl (Z.land i1 15) 2) (Z.shiftr (Z.land i2 208) 6));
  o3 ← rd b64_table (Z.land i2 63);
  Ret [o0; o1; o2; o3].

(** Blocks of three bytes, then one or two bytes that are padded. *)
Fixpoint Base64 (data : bytes) : outcome bytes :=
  match data with
  | i0 :: i1 :: i2 :: data =>
      b ← Base64Block i0 i1 i2;
      rest ← Base64 data;
      Ret (b ++ rest)
  | [i0; i1] => b ← Base64Block i0 i1 0; Ret (take 3 b ++ [chr_eq])
  | [i0] => b ← Base64Block i0 0 0; Ret (take 2 b ++ [chr_eq; chr_eq])
  | [] => Ret []
  end.

Definition url_char (c : Z) : Z :=
  if c =? chr_plus then chr_minus else if c =? chr_slash then chr_underscore else c.
Definition Base64Url (data : bytes) : outcome bytes :=
  b ← Base64 data; Ret (map url_char b).

Definition Debase64Block (i0 i1 i2 i3 : Z) : outcome (option bytes) :=
  d0 ← rd db64_table i0;
  d1 ← rd db64_table i1;
  d2 ← rd db64_table i2;
  d3 ← rd db64_table i3;
  if (d0 <? 0) || (d1 <? 0) || (d2 <? 0) || (d3 <? 0) then Ret None
  else Ret (Some [u8 (Z.lor (Z.shiftl d0 2) (Z.shiftr d1 4));
                  u8 (Z.lor (Z.shiftl (Z.land d1 15) 4) (Z.shiftr d2 2));
                  u8 (Z.lor (Z.shiftl (Z.land d2 3) 6) d3)]).

Fixpoint debase64_loop (data : bytes) : outcome (option bytes) :=
  match data with
  | i0 :: i1 :: i2 :: i3 :: data =>
      b ← Debase64Block i0 i1 i2 i3;
      match b with
      | None => Ret None
      | Some b => rest ← debase64_loop data; Ret (option_map (app b) rest)
      end
  | _ => Ret (Some [])
  end.

(** One step of the last loop of [Debase64]: a padding character at [pos]
    drops the last byte. *)
Definition drop_padding (data decoded : bytes) (pos : Z) : outcome bytes :=
  c ← rd data pos;
  Ret (if c =? chr_eq then take (length decoded - 1) decoded else decoded).

(** The decoded string, [None] for a string that is not Base64. *)
Definition Debase64 (data : bytes) : outcome (option bytes) :=
  let length := zlen data in
  if length =? 0 then Ret (Some [])
  else if negb (length mod 4 =? 0) then Ret None
  else
    decoded ← debase64_loop data;
    match decoded with
    | None => Ret None
    | Some decoded =>
        decoded ← drop_padding data decoded (length - 1);
        decoded ← drop_padding data decoded (length - 2);
        Ret (Some decoded)
    end.

(** ** The last lines of a text *)

Fixpoint tail_loop (n : nat) (source : bytes) (num_lines : Z) : outcome bytes :=
  match n with
  | O => Ret source
  | S i =>
      c ← rd source (Z.of_nat i);
      if c =? chr_nl then
        if num_lines =? 0 then Ret (substr_from source (Z.of_nat i + 1))
        else tail_loop i source (num_lines - 1)
      else tail_loop i source num_lines
  end.
Definition Tail (source : bytes) (num_lines : Z) : outcome bytes :=
  if (zlen source =? 0) || (num_lines =? 0) then Ret []
  else tail_loop (length source) source num_lines.

(** ** Base64 round trips *)

Section Base64Theory.

(** The bit operations as arithmetic, checked for all bytes. *)
Lemma b64_index0 i : is_u8 i → Z.shiftr (Z.land i 253) 2 = i / 4.
Proof.
  intros Hi. apply Z.eqb_eq.
  apply (forall_below 256 (λ i, Z.shiftr (Z.land i 253) 2 =? i / 4)); [by vm_compute|exact Hi].
Qed.

Lemma pairs_below n m (P : Z → Z → bool) i j :
  forallb (λ i, forallb (P i) (seqZ 0 m)) (seqZ 0 n) = true → 0 ≤ i < n → 0 ≤ j < m → P i j = true.
Proof.
  intros Hall Hi Hj. apply (forall_below m); [|done].
  by apply (forall_below n (λ i, forallb (P i) (seqZ 0 m))).
Qed.

Lemma b64_index1 i j : is_u8 i → is_u8 j →
  Z.lor (Z.shiftl (Z.land i 3) 4) (Z.shiftr (Z.land j 240) 4) = i mod 4 * 16 + j / 16.
Proof.
  intros Hi Hj. apply Z.eqb_eq.
  apply (pairs_below 256 256 (λ i j,
    Z.lor (Z.shiftl (Z.land i 3) 4) (Z.shiftr (Z.land j 240) 4) =? i mod 4 * 16 + j / 16));
    [by vm_compute|exact Hi|exact Hj].
Qed.

Lemma b64_index2 i j : is_u8 i → is_u8 j →
  Z.lor (Z.shiftl (Z.land i 15) 2) (Z.shiftr (Z.land j 208) 6) = i mod 16 * 4 + j / 64.
Proof.
  intros Hi Hj. apply Z.eqb_eq.
  apply (pairs_below 256 256 (λ i j,
    Z.lor (Z.shiftl (Z.land i 15) 2) (Z.shiftr (Z.land j 208) 6) =? i mod 16 * 4 + j / 64));
    [by vm_compute|exact Hi|exact Hj].
Qed.

Lemma b64_index3 i : is_u8 i → Z.land i 63 = i mod 64.
Proof. intros _. exact (Z.land_ones i 6 ltac:(lia)). Qed.

(** Decoding undoes encoding of 6 bits, in both alphabets. *)
Lemma db64_b64 f i : f = (λ c, c) ∨ f = url_char → 0 ≤ i < 64 →
  ∃ c, rd b64_table i = Ret c ∧ rd db64_table (f c) = Ret i ∧ f c ≠ chr_eq.
Proof.
  intros Hf Hi. set (P f i := match rd b64_table i with
    | Ret c => match rd db64_table (f c) with Ret d => (d =? i) && negb (f c =? chr_eq) | _ => false end
    | _ => false end).
  assert (P f i = true) as HP.
  { destruct Hf as [-> | ->].
    - apply (forall_below 64 (P (λ c, c))); [by vm_compute|done].
    - apply (forall_below 64 (P url_char)); [by vm_compute|done]. }
  unfold P in HP. destruct (rd b64_table i) as [c|]; [|done]. exists c. split; [done|].
  destruct (rd db64_table (f c)) as [d|]; [|done].
  apply andb_true_iff in HP as [Hd%Z.eqb_eq Hc%negb_true_iff%Z.eqb_neq]. by subst.
Qed.

Lemma db64_byte0 d e : 0 ≤ d < 64 → 0 ≤ e < 64 →
  u8 (Z.lor (Z.shiftl d 2) (Z.shiftr e 4)) = d * 4 + e / 16.
Proof.
  intros Hd He. apply Z.eqb_eq.
  apply (pairs_below 64 64 (λ d e, u8 (Z.lor (Z.shiftl d 2) (Z.shiftr e 4)) =? d * 4 + e / 16));
    [by vm_compute|exact Hd|exact He].
Qed.
Lemma db64_byte1 d e : 0 ≤ d < 64 → 0 ≤ e < 64 →
  u8 (Z.lor (Z.shiftl (Z.land d 15) 4) (Z.shiftr e 2)) = d mod 16 * 16 + e / 4.
Proof.
  intros Hd He. apply Z.eqb_eq.
  apply (pairs_below 64 64 (λ d e,
    u8 (Z.lor (Z.shiftl (Z.land d 15) 4) (Z.shiftr e 2)) =? d mod 16 * 16 + e / 4));
    [by vm_compute|exact Hd|exact He].
Qed.
Lemma db64_byte2 d e : 0 ≤ d < 64 → 0 ≤ e < 64 →
  u8 (Z.lor (Z.shiftl (Z.land d 3) 6) e) = d mod 4 * 64 + e.
Proof.
  intros Hd He. apply Z.eqb_eq.
  apply (pairs_below 64 64 (λ d e, u8 (Z.lor (Z.shiftl (Z.land d 3) 6) e) =? d mod 4 * 64 + e));
    [by vm_compute|exact Hd|exact He].
Qed.

Context (f : Z → Z) (f_ok : f = (λ c, c) ∨ f = url_char).

(** One block: the padded last characters decode to zero bits. *)
Lemma block_round_trip i0 i1 i2 : is_u8 i0 → is_u8 i1 → is_u8 i2 →
  ∃ o0 o1 o2 o3, Base64Block i0 i1 i2 = Ret [o0; o1; o2; o3] ∧
    Debase64Block (f o0) (f o1) (f o2) (f o3) = Ret (Some [i0; i1; i2]) ∧
    (i2 = 0 → Debase64Block (f o0) (f o1) (f o2) chr_eq = Ret (Some [i0; i1; 0])) ∧
    (i1 = 0 → i2 = 0 → Debase64Block (f o0) (f o1) chr_eq chr_eq = Ret (Some [i0; 0; 0])) ∧
    f o1 ≠ chr_eq ∧ f o2 ≠ chr_eq ∧ f o3 ≠ chr_eq.
Proof.
  intros H0 H1 H2. pose proof H0 as B0. pose proof H1 as B1. pose proof H2 as B2. unfold is_u8 in B0, B1, B2.
  destruct (db64_b64 f (i0 / 4) f_ok) as (o0 & E0 & D0 & _); [dlia|].
  destruct (db64_b64 f (i0 mod 4 * 16 + i1 / 16) f_ok) as (o1 & E1 & D1 & N1); [dlia|].
  destruct (db64_b64 f (i1 mod 16 * 4 + i2 / 64) f_ok) as (o2 & E2 & D2 & N2); [dlia|].
  destruct (db64_b64 f (i2 mod 64) f_ok) as (o3 & E3 & D3 & N3); [dlia|].
  exists o0, o1, o2, o3. unfold Base64Block.
  rewrite b64_index0, b64_index1, b64_index2, b64_index3 by done.
  rewrite E0, E1, E2, E3. exec. split; [done|].
  assert (rd db64_table chr_eq = Ret 0) as Deq by reflexivity.
  unfold Debase64Block. rewrite D0, D1, D2, D3, Deq. exec.
  rewrite !ltb_false by dlia. cbn [orb].
  rewrite !db64_byte0, !db64_byte1, !db64_byte2 by dlia.
  split_and!; try done; intros; subst; match goal with
    | |- Ret (Some [?a; ?b; ?c]) = Ret (Some [?x; ?y; ?z]) =>
        replace a with x by dlia; replace b with y by dlia; replace c with z by dlia
    end; done.
Qed.

(** The encoded string ends in as many padding characters as there are padding
    bytes in its decoding. *)
Definition padded_end (e : bytes) (pad : nat) : Prop :=
  ∃ pre x y, e = pre ++ [x; y] ∧ (y = chr_eq ↔ (1 ≤ pad)%nat) ∧ (x = chr_eq ↔ pad = 2%nat).

Lemma f_eq : f chr_eq = chr_eq.
Proof. by destruct f_ok as [-> | ->]. Qed.

Lemma triple_ind (P : bytes → Prop) : P [] → (∀ a, P [a]) → (∀ a b, P [a; b]) →
  (∀ a b c l, P l → P (a :: b :: c :: l)) → ∀ l, P l.
Proof.
  intros H0 H1 H2 H3. fix IH 1. intros [|a [|b [|c l]]]; [exact H0|apply H1|apply H2|apply H3, IH].
Qed.

Lemma base64_blocks data : bytes_ok data → ∃ e pad, Base64 data = Ret e ∧
  (zlen e = 4 * ((zlen data + 2) / 3)) ∧
  debase64_loop (map f e) = Ret (Some (data ++ replicate pad 0)) ∧
  (data ≠ [] → padded_end (map f e) pad) ∧ (pad ≤ 2)%nat.
Proof.
  pose proof f_eq as Hfe. induction data as [|a|a b|a b c data IH] using triple_ind; intros Hok.
  - exists [], O. split_and!; done || lia.
  - apply Forall_cons in Hok as [Ha _].
    destruct (block_round_trip a 0 0) as (o0 & o1 & o2 & o3 & He & _ & _ & Hd & N1 & _); try done.
    cbn [Base64]. rewrite He. exec. eexists; exists 2%nat. split; [done|]. split; [done|]. cbn [map take app debase64_loop].
    rewrite Hfe, Hd by done. exec. split; [done|]. split; [|lia]. intros _. exists [f o0; f o1], chr_eq, chr_eq.
    split_and!; try done; lia.
  - apply Forall_cons in Hok as [Ha [Hb _]%Forall_cons].
    destruct (block_round_trip a b 0) as (o0 & o1 & o2 & o3 & He & _ & Hd & _ & N1 & N2 & _); try done.
    cbn [Base64]. rewrite He. exec. eexists; exists 1%nat. split; [done|]. split; [done|]. cbn [map take app debase64_loop].
    rewrite Hfe, Hd by done. exec. split; [done|]. split; [|lia]. intros _. exists [f o0; f o1], (f o2), chr_eq.
    split_and!; try done; lia.
  - apply Forall_cons in Hok as [Ha [Hb [Hc Hok]%Forall_cons]%Forall_cons].
    destruct (IH Hok) as (e & pad & He & Hl & Hd & Hp & Hpad).
    destruct (block_round_trip a b c) as (o0 & o1 & o2 & o3 & He' & Hd' & _ & _ & _ & N2 & N3); try done.
    cbn [Base64]. rewrite He', He. exec. exists ([o0; o1; o2; o3] ++ e), pad. split; [done|].
    split; [unfold zlen in *; cbn [length app]; rewrite !Nat2Z.inj_succ; dlia|].
    cbn [map app debase64_loop]. rewrite Hd'. exec. rewrite Hd. exec. split; [done|].
    split; [|done]. intros _. destruct (decide (data = [])) as [->|Hne].
    + assert (e = []) as -> by (injection He; done).
      exists [f o0; f o1], (f o2), (f o3). injection Hd as Hd. destruct pad; [|done].
      split_and!; try done; lia.
    + destruct (Hp Hne) as (pre & x & y & -> & Hx & Hy).
      by exists (f o0 :: f o1 :: f o2 :: f o3 :: pre), x, y.
Qed.

End Base64Theory.

Lemma take_drop_last (data : bytes) n :
  take (length (data ++ replicate (S n) 0) - 1) (data ++ replicate (S n) 0) = data ++ replicate n 0.
Proof.
  rewrite replicate_S_end, app_assoc, length_app. cbn [length].
  replace (length (data ++ replicate n 0%Z) + 1 - 1)%nat with (length (data ++ replicate n 0%Z)) by lia.
  by rewrite take_app_length.
Qed.

Lemma Debase64_ok e data pad : zlen e mod 4 = 0 → padded_end e pad → (pad ≤ 2)%nat →
  debase64_loop e = Ret (Some (data ++ replicate pad 0)) → Debase64 e = Ret (Some data).
Proof.
  intros Hm (pre & x & y & -> & Hy & Hx) Hp Hd. unfold Debase64.
  assert (zlen (pre ++ [x; y]) = zlen pre + 2) as Hz by (rewrite zlen_app; done).
  pose proof (zlen_nonneg pre). rewrite eqb_false by lia. rewrite Hm. cbn [negb Z.eqb]. rewrite Hd. exec.
  unfold drop_padding. rewrite Hz.
  replace (zlen pre + 2 - 1) with (zlen (pre ++ [x])) by (rewrite zlen_app; change (zlen [x]) with 1; lia).
  replace (zlen pre + 2 - 2) with (zlen pre) by lia.
  assert (rd (pre ++ [x; y]) (zlen (pre ++ [x])) = Ret y) as ->.
  { replace (pre ++ [x; y]) with ((pre ++ [x]) ++ [y]) by (by rewrite <- app_assoc). by apply rd_app_at. }
  exec. rewrite (rd_app_at pre) by done. exec. f_equal. f_equal.
  destruct pad as [|[|[|pad]]]; [..|lia].
  - rewrite !eqb_false by (intros ?; naive_solver lia). by rewrite app_nil_r.
  - rewrite (eqb_true y) by (apply Hy; lia). rewrite (eqb_false x) by (intros ?; naive_solver lia).
    rewrite take_drop_last. by rewrite app_nil_r.
  - rewrite (eqb_true y) by (apply Hy; lia). rewrite (eqb_true x) by (by apply Hx).
    rewrite !take_drop_last. by rewrite app_nil_r.
Qed.

Lemma Base64Url_ok data : bytes_ok data →
  ∃ u r, Base64Url data = Ret u ∧ Debase64 u = Ret (Some data) ∧ zlen u = 4 * ((zlen data + 2) / 3) ∧
    debase64_loop u = Ret (Some r).
Proof.
  intros Hok. destruct (base64_blocks url_char (or_intror eq_refl) data Hok) as (e & pad & He & Hl & Hd & Hp & Hpad).
  unfold Base64Url. rewrite He. exec. exists (map url_char e), (data ++ replicate pad 0). split; [done|].
  assert (zlen (map url_char e) = zlen e) as Hm by (unfold zlen; by rewrite length_map).
  split_and!; [|by rewrite Hm|done]. destruct (decide (data = [])) as [->|Hne]; [by injection He as <-|].
  apply (Debase64_ok _ data pad); [rewrite Hm, Hl; dlia|by apply Hp|done|done].
Qed.

(** A character that is in no Base64 alphabet does not occur in a string that
    is decoded. *)
Lemma debase64_chars c : lget db64_table c = Some (-1) → ∀ e r, zlen e mod 4 = 0 → debase64_loop e = Ret (Some r) → c ∉ e.
Proof.
  intros Hc e. induction e as [e IH] using (induction_ltof1 _ (@length Z)). unfold ltof in IH.
  destruct e as [|i0 [|i1 [|i2 [|i3 e]]]]; intros r Hm Hd; try by (unfold zlen in Hm; cbn in Hm).
  { apply not_elem_of_nil. }
  cbn [debase64_loop] in Hd. apply bind_Ret in Hd as (b & Hb & Hd). destruct b as [b|]; [|done].
  apply bind_Ret in Hd as (rest & Hrest & [= Hr]). destruct rest as [rest|]; [|done].
  unfold Debase64Block in Hb.
  apply bind_Ret in Hb as (d0 & H0%rd_Ret & Hb). apply bind_Ret in Hb as (d1 & H1%rd_Ret & Hb).
  apply bind_Ret in Hb as (d2 & H2%rd_Ret & Hb). apply bind_Ret in Hb as (d3 & H3%rd_Ret & Hb).
  destruct ((d0 <? 0) || (d1 <? 0) || (d2 <? 0) || (d3 <? 0)) eqn:Hneg; [done|].
  rewrite !orb_false_iff, !Z.ltb_ge in Hneg.
  assert (c ∉ e) by (apply (IH e ltac:(cbn; lia) rest); [unfold zlen in *; cbn [length] in Hm; rewrite !Nat2Z.inj_succ in Hm; dlia|done]).
  rewrite !not_elem_of_cons. split_and!; try done; intros ->; simplify_eq; lia.
Qed.


(** ** Splitting and joining *)

Lemma JoinStrings_cons s l j : l ≠ [] → JoinStrings (s :: l) j = s ++ j ++ JoinStrings l j.
Proof.
  destruct l as [|t l]; [done|]. intros _. cbn [JoinStrings foldl].
  assert (∀ l a b, foldl (λ r s, r ++ j ++ s) (a ++ b) l = a ++ foldl (λ r s, r ++ j ++ s) b l) as Hf.
  { clear. intros l. induction l as [|x l IH]; intros a b; [done|]. cbn [foldl].
    by rewrite <- app_assoc, IH. }
  by rewrite !Hf.
Qed.

Lemma split_loop_nonempty pending m str d i marker chunks :
  split_loop pending m str d i marker chunks ≠ [].
Proof.
  revert i marker chunks. induction pending as [|c pending IH]; intros; cbn [split_loop]; [done|].
  by destruct (c =? d).
Qed.

Lemma substr_app (pre cur post : bytes) : substr (pre ++ cur ++ post) (zlen pre) (zlen cur) = cur.
Proof. unfold substr, zlen. rewrite !Nat2Z.id, drop_app_length. apply take_app_length. Qed.

Lemma substr_from_app (pre post : bytes) : substr_from (pre ++ post) (zlen pre) = post.
Proof. unfold substr_from, zlen. rewrite Nat2Z.id. apply drop_app_length. Qed.

(** The loop cuts what is left of the string, at most into the remaining
    number of pieces; no piece but the last one contains the delimiter. *)
Lemma split_loop_ok d m str pending : ∀ pre cur chunks, str = pre ++ cur ++ pending →
  zlen str < 2 ^ 31 → d ∉ cur → 1 ≤ chunks → chunks ≤ zlen pre + zlen cur + 1 →
  let r := split_loop pending m str d (zlen (pre ++ cur)) (zlen pre) chunks in
  JoinStrings r [d] = cur ++ pending ∧ Forall (λ p, d ∉ p) (removelast r) ∧
  (chunks < m → zlen r ≤ m - chunks + 1) ∧ (m = 0 → Forall (λ p, d ∉ p) r).
Proof.
  induction pending as [|c pending IH]; intros pre cur chunks Hstr Hlt Hd Hc1 Hc2; cbn zeta.
  { cbn [split_loop]. rewrite Hstr, substr_from_app, app_nil_r. split; [done|]. split; [exact (Forall_nil_2 _)|].
    split; [intros; unfold zlen; cbn; lia|]. intros _. by apply Forall_singleton. }
  pose proof (zlen_nonneg pre). pose proof (zlen_nonneg cur). pose proof (zlen_nonneg pending).
  assert (zlen str = zlen pre + zlen cur + 1 + zlen pending) as Hz.
  { rewrite Hstr, !zlen_app. unfold zlen. cbn [length]. lia. }
  cbn [split_loop]. destruct (Z.eqb_spec c d) as [->|Hne].
  - rewrite (zlen_app pre), (u32_small (zlen pre + zlen cur + 1)), (u32_small (chunks + 1)) by (unfold is_u32; lia).
    replace (zlen pre + zlen cur - zlen pre) with (zlen cur) by lia.
    assert (substr str (zlen pre) (zlen cur) = cur) as -> by (rewrite Hstr; apply substr_app).
    assert (zlen pre + zlen cur + 1 = zlen (pre ++ cur ++ [d])) as Hpos
      by (rewrite !zlen_app; change (zlen [d]) with 1; lia).
    assert (str = (pre ++ cur ++ [d]) ++ [] ++ pending) as Hstr'
      by (rewrite Hstr, <- !app_assoc; done).
    destruct (Z.eqb_spec (chunks + 1) m) as [Hm|Hm].
    + assert (substr_from str (zlen pre + zlen cur + 1) = pending) as ->
        by (rewrite Hpos, Hstr'; apply (substr_from_app _ ([] ++ pending))).
      split_and!.
      * by rewrite JoinStrings_cons by done.
      * by apply Forall_singleton.
      * intros. unfold zlen. cbn. lia.
      * lia.
    + rewrite Hpos. specialize (IH (pre ++ cur ++ [d]) [] (chunks + 1) Hstr' Hlt).
      rewrite app_nil_r in IH. destruct IH as (IH1 & IH2 & IH3 & IH4).
      { apply not_elem_of_nil. }
      { lia. }
      { rewrite <- Hpos. change (zlen (A := Z) []) with 0. lia. }
      set (r := split_loop pending _ _ _ _ _ _) in *.
      assert (r ≠ []) as Hr by apply split_loop_nonempty. split_and!.
      * rewrite JoinStrings_cons by done. by rewrite IH1.
      * destruct r; [done|]. cbn [removelast] in *. by constructor.
      * intros Hcm. specialize (IH3 ltac:(lia)). unfold zlen in *. cbn [length]. lia.
      * intros Hm0. constructor; auto.
  - specialize (IH pre (cur ++ [c]) chunks). rewrite <- app_assoc in IH.
    assert (zlen (pre ++ cur ++ [c]) = zlen (pre ++ cur) + 1) as Hpos
      by (rewrite !zlen_app; change (zlen [c]) with 1; lia).
    rewrite Hpos in IH. destruct IH as (IH1 & IH2 & IH3 & IH4); try done.
    { apply not_elem_of_app. split; [done|]. by intros ?%list_elem_of_singleton. }
    { rewrite zlen_app. change (zlen [c]) with 1. lia. }
Qed.

(** Splitting a string at a delimiter and joining the pieces
    with it gives the string back. There are at most as many pieces as asked
    for, only the last one can contain the delimiter, and without a bound none
    does. *)
Theorem split_join max_chunks str delim : zlen str < 2 ^ 31 → 0 ≤ max_chunks →
  let r := SplitStringBounded max_chunks str delim in
  JoinStrings r [delim] = str ∧ Forall (λ p, delim ∉ p) (removelast r) ∧
  (0 < max_chunks → zlen r ≤ max_chunks) ∧ (max_chunks = 0 → Forall (λ p, delim ∉ p) r).
Proof.
  intros Hlt Hmax. unfold SplitStringBounded. destruct (Z.eqb_spec 1 max_chunks) as [<-|Hne].
  { cbn zeta. split; [done|]. split; [exact (Forall_nil_2 _)|]. done. }
  pose proof (zlen_nonneg str). rewrite u32_small by (unfold is_u32; lia).
  replace (take (Z.to_nat (zlen str)) str) with str by (unfold zlen; by rewrite Nat2Z.id, firstn_all).
  destruct (split_loop_ok delim max_chunks str str [] [] 1) as (H1 & H2 & H3 & H4); try done.
  - apply not_elem_of_nil.
  - cbn zeta. split_and!; try done. intros. specialize (H3 ltac:(lia)). cbn [app] in *.
    change (zlen (A := Z) []) with 0 in *. lia.
Qed.

(** ** Decimal numbers *)

Definition value_of (l : bytes) (acc : Z) : Z := foldl (λ a c, a * 10 + (c - 48)) acc l.

Lemma scan_digits_ok l : ∀ acc n, Forall (λ c, is_digit c = true) l →
  scan_digits l acc n = (value_of l acc, n + zlen l, []).
Proof.
  induction l as [|c l IH]; intros acc n Hl; cbn [scan_digits value_of foldl].
  - by rewrite Z.add_0_r.
  - apply Forall_cons in Hl as [Hc Hl]. rewrite Hc, IH by done. unfold zlen. cbn [length].
    do 2 f_equal. lia.
Qed.

Lemma digit_range d : 0 ≤ d < 10 → is_digit (48 + d) = true.
Proof. intros Hd. unfold is_digit. by rewrite !leb_true by lia. Qed.

Lemma digits_ok fuel : ∀ n, 0 ≤ n < 10 ^ Z.of_nat fuel → (0 < fuel)%nat →
  Forall (λ c, is_digit c = true) (digits fuel n) ∧ value_of (digits fuel n) 0 = n ∧ digits fuel n ≠ [].
Proof.
  induction fuel as [|fuel IH]; intros n Hn Hf; [lia|]. cbn [digits].
  assert (is_digit (48 + n mod 10) = true) as Hd by (apply digit_range; dlia).
  rewrite Nat2Z.inj_succ, Z.pow_succ_r in Hn by lia. unfold value_of. rewrite foldl_app. cbn [foldl].
  destruct (Z.ltb_spec n 10) as [Hlt|Hge].
  - split_and!; [by apply Forall_singleton| |done]. cbn. dlia.
  - destruct fuel as [|fuel]; [cbn in Hn; lia|].
    destruct (IH (n / 10)) as (IH1 & IH2 & IH3); [dlia|lia|].
    split_and!.
    + apply Forall_app. split; [done|]. by apply Forall_singleton.
    + unfold value_of in IH2. rewrite IH2. dlia.
    + by intros [? ?]%app_nil.
Qed.

Lemma digit_first c : is_digit c = true → isspace c = false ∧ c ≠ chr_minus ∧ c ≠ chr_plus.
Proof.
  unfold is_digit, isspace, chr_minus, chr_plus. intros [H1%Z.leb_le H2%Z.leb_le]%andb_true_iff.
  rewrite eqb_false, (leb_false c 13), andb_false_r by lia. split_and!; [done|lia|lia].
Qed.

Lemma scan_number v : 0 ≤ v < 10 ^ 20 →
  scan_sign (skip_spaces (StringifyUint v)) = (false, StringifyUint v) ∧
  scan_digits (StringifyUint v) 0 0 = (v, zlen (StringifyUint v), []) ∧ zlen (StringifyUint v) ≠ 0.
Proof.
  intros Hv. destruct (digits_ok 20 v) as (Hd & Hval & Hne); [exact Hv|lia|]. unfold StringifyUint.
  rewrite scan_digits_ok, Hval by done. destruct (digits 20 v) as [|c l]; [done|].
  apply Forall_cons in Hd as [Hc _]. destruct (digit_first c Hc) as (Hs & Hm & Hp).
  cbn [skip_spaces]. rewrite Hs. cbn [scan_sign]. rewrite !eqb_false by done.
  split_and!; [done|done|]. unfold zlen. cbn. lia.
Qed.

Lemma String2Uint64_ok v : is_u64 v → String2Uint64 (StringifyUint v) = v.
Proof.
  intros Hv. unfold is_u64 in Hv. destruct (scan_number v) as (Hs & Hd & Hz); [lia|].
  unfold String2Uint64, scan_u64. by rewrite Hs, Hd, (eqb_false _ 0 Hz), gtb_false by lia.
Qed.

(** A printed 64 bit number is read back by [String2Uint64];
    [String2Uint64Parse] reads it back below 2^63 and reports a range error
    from there on. *)
Theorem decimal_round_trip v : is_u64 v →
  String2Uint64 (StringifyUint v) = v ∧
  String2Uint64Parse (StringifyUint v) = (if v <? 2 ^ 63 then inl v else inr ERANGE).
Proof.
  intros Hv. unfold is_u64 in Hv. destruct (scan_number v) as (Hs & Hd & Hz); [lia|].
  split; [by apply String2Uint64_ok|]. unfold String2Uint64Parse, strtoll. rewrite Hs, Hd.
  rewrite !(eqb_false _ 0 Hz). cbn [orb].
  - unfold LLONG_MAX. destruct (Z.ltb_spec v (2 ^ 63)).
    + rewrite gtb_false, (ltb_false v (- 2 ^ 63)) by lia. cbn [orb negb Z.eqb zlen length Z.of_nat].
      by rewrite ltb_false by lia.
    + by rewrite gtb_true by lia.
Qed.

(** ** Key-value pairs *)

(** Keys and values that a line can hold; the key [Z] is special, and a line of
    two dashes ends the text. *)
Definition keyval_ok (kv : Z * bytes) : Prop :=
  kv.1 ≠ chr_nl ∧ kv.1 ≠ chr_Z ∧ chr_nl ∉ kv.2 ∧ kv ≠ (chr_minus, [chr_minus]).

Definition keyval_text (kvs : list (Z * bytes)) : bytes :=
  concat ((λ kv, kv.1 :: kv.2 ++ [chr_nl]) <$> kvs).

Lemma keyval_loop_line rest content l : ∀ line, chr_nl ∉ l →
  keyval_loop (l ++ chr_nl :: rest) line content
  = if bytes_eqb (line ++ l) [chr_minus; chr_minus] then content
    else keyval_loop rest [] (keyval_line (line ++ l) content).
Proof.
  induction l as [|c l IH]; intros line Hl; cbn [app keyval_loop].
  - by rewrite app_nil_r.
  - apply not_elem_of_cons in Hl as [Hc Hl]. rewrite eqb_false by done. rewrite IH by done.
    by rewrite <- app_assoc.
Qed.

(** Parsing printed key-value lines, followed by the line of
    two dashes and any signature, gives the values of the last line for every
    key; what follows the dashes is ignored. *)
Theorem keyval_round_trip kvs rest content : Forall keyval_ok kvs →
  ParseKeyvalMem (keyval_text kvs ++ [chr_minus; chr_minus; chr_nl] ++ rest) content
  = foldl (λ m kv, <[kv.1 := kv.2]> m) content kvs.
Proof.
  unfold ParseKeyvalMem, keyval_text. revert content.
  induction kvs as [|[k v] kvs IH]; intros content Hok; [done|].
  apply Forall_cons in Hok as [(Hk & HkZ & Hv & Hd) Hok]. cbn [fst snd] in *.
  rewrite fmap_cons. cbn [concat fst snd foldl]. rewrite <- app_assoc. cbn [app].
  rewrite <- app_assoc. cbn [app].
  pose proof (keyval_loop_line (concat ((λ kv, kv.1 :: kv.2 ++ [chr_nl]) <$> kvs)
    ++ chr_minus :: chr_minus :: chr_nl :: rest) content (k :: v) []) as Hline.
  cbn [app] in Hline. rewrite Hline by (apply not_elem_of_cons; split; [congruence|done]).
  unfold bytes_eqb. rewrite bool_decide_false by (intros [= -> ->]; done).
  unfold keyval_line. rewrite eqb_false by done. cbn [negb]. by apply IH.
Qed.

(** ** Loops that do not end *)

Lemma find_in_hit s needle pre post : s = pre ++ needle ++ post → ∀ pos,
  ∃ p, find_in s needle pos = Some p ∧ pos ≤ p ≤ pos + zlen pre ∧
    needle `prefix_of` drop (Z.to_nat (p - pos)) s.
Proof.
  revert s. induction pre as [|c pre IH]; intros s -> pos.
  - exists pos. assert (needle `prefix_of` needle ++ post) by by exists post.
    replace (pos - pos) with 0 by lia. unfold zlen. cbn [length app drop Z.to_nat].
    destruct (needle ++ post) eqn:E; cbn [find_in]; rewrite bool_decide_true by done; split_and!; done || lia.
  - cbn [app find_in]. case_bool_decide as Hp.
    + exists pos. replace (pos - pos) with 0 by lia. split; [done|].
      split; [pose proof (zlen_nonneg (c :: pre)); lia|done].
    + destruct (IH _ eq_refl (pos + 1)) as (p & -> & Hb & Hpre). exists p. split; [done|].
      split; [unfold zlen in *; cbn [length]; lia|].
      replace (Z.to_nat (p - pos)) with (S (Z.to_nat (p - (pos + 1)))) by lia. done.
Qed.

(** The first occurrence, where the first character of [needle] does not occur
    before. *)
Lemma find_in_first x needle pre post : x ∉ pre → ∀ pos,
  find_in (pre ++ (x :: needle) ++ post) (x :: needle) pos = Some (pos + zlen pre).
Proof.
  induction pre as [|c pre IH]; intros Hx pos; cbn [app find_in].
  - rewrite bool_decide_true by by exists post. unfold zlen. cbn. f_equal. lia.
  - apply not_elem_of_cons in Hx as [Hc Hx]. rewrite bool_decide_false by (by intros [? [= ?]]).
    rewrite (IH Hx). rewrite zlen_cons. f_equal. lia.
Qed.

Lemma find_in_none x needle s : x ∉ s → ∀ pos, find_in s (x :: needle) pos = None.
Proof.
  induction s as [|c s IH]; intros Hx pos; cbn [find_in].
  - by rewrite bool_decide_false by (by intros [? [= ?]]).
  - apply not_elem_of_cons in Hx as [Hc Hx]. rewrite bool_decide_false by (by intros [? [= ?]]). by apply IH.
Qed.

(** [result] contains [needle] at or after [pos]. *)
Definition occurs_from (result needle : bytes) (pos : Z) : Prop :=
  ∃ pre post, result = pre ++ needle ++ post ∧ 0 ≤ pos ≤ zlen pre.

Lemma find_occurs result needle pos : occurs_from result needle pos →
  ∃ p, find result needle pos = Some p ∧ pos ≤ p ≤ zlen result.
Proof.
  intros (pre & post & -> & Hpos). unfold find. pose proof (zlen_nonneg needle). pose proof (zlen_nonneg post).
  rewrite gtb_false by (rewrite !zlen_app; lia). unfold substr_from.
  rewrite drop_app_le by (unfold zlen in *; lia).
  destruct (find_in_hit _ needle (drop (Z.to_nat pos) pre) post eq_refl pos) as (p & -> & Hb & _).
  exists p. split; [done|]. rewrite !zlen_app. unfold zlen in Hb at 1. rewrite length_drop in Hb.
  unfold zlen in *. lia.
Qed.

(** [ReplaceAll] searches the text it has just inserted
    again. If the replacement contains the search string, and the search string
    occurs, the function never returns. *)
Theorem replace_all_diverges haystack needle a b pre post fuel : needle ≠ [] →
  haystack = pre ++ needle ++ post →
  ReplaceAll fuel haystack needle (a ++ needle ++ b) = Fail OutOfFuel.
Proof.
  intros Hne ->. unfold ReplaceAll. rewrite eqb_false.
  2:{ destruct needle; [done|]. unfold zlen. cbn. lia. }
  assert (occurs_from (pre ++ needle ++ post) needle 0) as Hocc.
  { exists pre, post. split; [done|]. pose proof (zlen_nonneg pre). lia. }
  revert Hocc. generalize (pre ++ needle ++ post), 0.
  induction fuel as [|fuel IH]; intros result pos Hocc; [done|]. cbn [replace_loop].
  destruct (find_occurs _ _ _ Hocc) as (p & -> & Hp).
  destruct Hocc as (_ & _ & _ & Hpos & _). apply IH.
  exists (substr result 0 p ++ a), (b ++ substr_from result (p + zlen needle)).
  split; [by rewrite <- !app_assoc|]. rewrite zlen_app. pose proof (zlen_nonneg a).
  unfold substr, zlen in *. rewrite length_take, length_drop. lia.
Qed.

(** Trimming the empty string off a path, and splitting at an empty delimiter,
    do not end either. *)
Lemma trim_empty_diverges fuel path : path ≠ [] →
  TrimString fuel path [] kTrimLeading = Fail OutOfFuel.
Proof.
  intros Hne. unfold TrimString, bytes_eqb. rewrite bool_decide_false by done.
  assert (0 < zlen path) by (destruct path; [done|unfold zlen; cbn; lia]).
  assert (trim_leading fuel path [] = Fail OutOfFuel) as Ht.
  { destruct path as [|c path]; [done|].
    induction fuel as [|fuel IH]; [done|]. cbn [trim_leading]. unfold HasPrefix.
    change (zlen (A := Z) []) with 0. rewrite gtb_false, gtb_true by lia. cbn [prefix_loop andb]. apply IH. }
  unfold kTrimLeading. cbn [Z.land Pos.land Z.eqb negb]. by rewrite Ht.
Qed.

Lemma split_empty_diverges fuel str : SplitStringMultiChar fuel str [] = Fail OutOfFuel.
Proof.
  unfold SplitStringMultiChar. induction fuel as [|fuel IH]; [done|]. cbn [split_multi_loop].
  pose proof (zlen_nonneg str). unfold find. rewrite gtb_false by lia.
  assert (find_in (substr_from str 0) [] 0 = Some 0) as ->.
  { change (substr_from str 0) with str. destruct str; cbn [find_in]; by rewrite bool_decide_true by apply prefix_nil. }
  change (0 + zlen (A := Z) []) with 0. by rewrite IH.
Qed.

(** ** Trimming *)

Definition blanks (nl : bool) (l : bytes) : Prop := Forall (λ c, is_blank nl c = true) l.

Lemma trim_start_ok nl raw : ∀ n, ∃ l m, raw = l ++ m ∧ trim_start raw nl n = n + zlen l ∧ blanks nl l ∧
  (∀ c m', m = c :: m' → is_blank nl c = false).
Proof.
  induction raw as [|c raw IH]; intros n; cbn [trim_start].
  - exists [], []. split_and!; try done; [unfold zlen; cbn; lia|constructor].
  - destruct (is_blank nl c) eqn:Hc.
    + destruct (IH (n + 1)) as (l & m & -> & -> & Hl & Hm). exists (c :: l), m.
      split_and!; try done; [unfold zlen; cbn [length]; lia|by constructor].
    + exists [], (c :: raw). split_and!; try done; [unfold zlen; cbn; lia|constructor|].
      by intros c' m' [= <- <-].
Qed.

Lemma trim_end_ok nl l y : ∀ r fuel, (length y < fuel)%nat → zlen (l ++ y ++ r) < 2 ^ 32 →
  blanks nl r → (∀ c y', y = c :: y' → is_blank nl c = false) → (l = [] → y ≠ []) →
  ∃ m r', trim_end fuel (l ++ y ++ r) nl (zlen l) (zlen l + zlen y - 1) = Ret (zlen l + zlen m - 1) ∧
    y ++ r = m ++ r' ∧ blanks nl r' ∧ (∀ m' c, m = m' ++ [c] → is_blank nl c = false).
Proof.
  induction y as [|c y IH] using rev_ind; intros r [|fuel] Hfuel Hlt Hr Hhead Hne;
    rewrite ?length_app in Hfuel; try (cbn in Hfuel; lia); cbn [trim_end].
  { change (zlen (A := Z) []) with 0. rewrite geb_false by lia. exists [], r.
    change (zlen (A := Z) []) with 0. split_and!; try done. intros m' c Hm. by destruct m'. }
  pose proof (zlen_nonneg l). pose proof (zlen_nonneg y). pose proof (zlen_nonneg r).
  rewrite zlen_app. change (zlen [c]) with 1. rewrite geb_true by lia.
  replace (l ++ (y ++ [c]) ++ r) with ((l ++ y) ++ c :: r) by (by rewrite <- !app_assoc).
  rewrite (rd_app_at (l ++ y) c r) by (rewrite zlen_app; lia). exec.
  destruct (is_blank nl c) eqn:Hc.
  - rewrite u32_small.
    2:{ rewrite !zlen_app in Hlt. change (zlen [c]) with 1 in Hlt. unfold is_u32.
        destruct (decide (zlen l + zlen y = 0)); [|lia].
        assert (l = [] ∧ y = []) as [-> ->] by (destruct l, y; unfold zlen in *; cbn in *; try lia; done).
        specialize (Hhead c [] eq_refl). congruence. }
    destruct (IH (c :: r) fuel) as (m & r' & Hs & Hm & Hr' & Hl).
    + cbn in Hfuel. lia.
    + by rewrite <- app_assoc in Hlt.
    + by constructor.
    + intros c' y' ->. by apply (Hhead c' (y' ++ [c])).
    + intros Hl ->. specialize (Hhead c [] eq_refl). congruence.
    + rewrite <- app_assoc. replace (zlen l + (zlen y + 1) - 1 - 1) with (zlen l + zlen y - 1) by lia.
      rewrite Hs. exists m, r'. rewrite <- app_assoc. split_and!; try done.
  - exists (y ++ [c]), r. rewrite zlen_app. change (zlen [c]) with 1. split_and!; try done.
    intros m' c' [-> [= ->]]%app_inj_tail. done.
Qed.

(** [Trim] removes exactly the blanks at both ends: its result
    is surrounded by blanks in the original string and neither starts nor ends
    with one. It never reads outside of the string. *)
Theorem trim_strips raw nl : zlen raw < 2 ^ 32 →
  ∃ l m r, Trim raw nl = Ret m ∧ raw = l ++ m ++ r ∧ blanks nl l ∧ blanks nl r ∧
    (∀ c m', m = c :: m' → is_blank nl c = false) ∧ (∀ c m', m = m' ++ [c] → is_blank nl c = false).
Proof.
  intros Hlt. unfold Trim. destruct (Z.eqb_spec (zlen raw) 0) as [Hz|Hz].
  { destruct raw; [|unfold zlen in Hz; cbn in Hz; lia]. exists [], [], [].
    split_and!; try done; try constructor. by intros c [|??]. }
  destruct (trim_start_ok nl raw 0) as (l & y & -> & -> & Hl & Hy).
  rewrite zlen_app in *. pose proof (zlen_nonneg l). pose proof (zlen_nonneg y).
  rewrite u32_small by (unfold is_u32; lia). rewrite Z.add_0_l.
  destruct (trim_end_ok nl l y [] (S (length (l ++ y)))) as (m & r & Hs & Hm & Hr & Hlast); try done.
  - rewrite length_app. lia.
  - by rewrite !zlen_app, Z.add_0_r.
  - constructor.
  - intros -> ->. done.
  - rewrite app_nil_r in Hs, Hm. rewrite Hs. exec. exists l, m, r. subst y.
    rewrite zlen_app in Hlt. pose proof (zlen_nonneg m). pose proof (zlen_nonneg r).
    replace (zlen l + zlen m - 1 - zlen l + 1) with (zlen m) by lia.
    rewrite u32_small by (unfold is_u32; lia). rewrite substr_app. split_and!; try done.
    + intros c m' ->. by apply (Hy c (m' ++ r)).
    + intros c m' Hm. by apply (Hlast m').
Qed.

Module StringWitness.

Lemma split_join_witness :
  JoinStrings (SplitStringBounded 2 [97; 58; 98; 58; 99] 58) [58] = [97; 58; 98; 58; 99] ∧
  SplitStringBounded 2 [97; 58; 98; 58; 99] 58 = [[97]; [98; 58; 99]].
Proof.
  split; [|reflexivity]. apply (split_join 2 [97; 58; 98; 58; 99] 58); [reflexivity|discriminate].
Defined.

Lemma decimal_round_trip_witness : String2Uint64Parse (StringifyUint 1234567890123) = inl 1234567890123.
Proof.
  destruct (decimal_round_trip 1234567890123) as [_ H]; [split; reflexivity || discriminate|]. exact H.
Defined.

Lemma keyval_round_trip_witness :
  ParseKeyvalMem (keyval_text [(67, [49; 50]); (66, []); (67, [51])] ++ [45; 45; 10] ++ [1; 10; 2]) ∅
  = <[67 := [51]]> (<[66 := []]> (<[67 := [49; 50]]> ∅)).
Proof.
  apply (keyval_round_trip [(67, [49; 50]); (66, []); (67, [51])] [1; 10; 2] ∅).
  repeat constructor; cbn; try lia; try discriminate; rewrite ?not_elem_of_cons;
    repeat split; try discriminate; apply not_elem_of_nil.
Defined.

Lemma trim_strips_witness : ∃ l m r, Trim [32; 9; 97; 32; 98; 32] false = Ret m ∧
  [32; 9; 97; 32; 98; 32] = l ++ m ++ r ∧ m = [97; 32; 98].
Proof.
  destruct (trim_strips [32; 9; 97; 32; 98; 32] false eq_refl) as (l & m & r & Ht & Hr & _).
  exists l, m, r. split; [exact Ht|]. split; [exact Hr|].
  assert (Trim [32; 9; 97; 32; 98; 32] false = Ret [97; 32; 98]) as He by reflexivity.
  rewrite He in Ht. injection Ht as <-. reflexivity.
Defined.

Lemma replace_all_diverges_witness :
  ReplaceAll 1000 [97; 47; 98] [47] [47; 47] = Fail OutOfFuel.
Proof.
  apply (replace_all_diverges [97; 47; 98] [47] [47] [] [97] [98] 1000); [discriminate|reflexivity].
Defined.
End StringWitness.
