(* ===== verification/StdMap.v ===== *)
(** * [std::map]

    An ordered map as the list of its entries in ascending order of the keys,
    as [begin()] to [end()] visit them.  [KeyOrder] is what the map asks of the
    type of its keys, a strict total order that can be decided; strings are
    compared byte by byte, a prefix comes first, and pairs lexicographically. *)

From stdpp Require Import base numbers list sorting.
From S2P Require Import Prelude Bytes.

Open Scope Z_scope.

Class KeyOrder (K : Type) `{EqDecision K} := {
  key_ltb : K → K → bool;
  key_irrefl a : key_ltb a a = false;
  key_trans a b c : key_ltb a b = true → key_ltb b c = true → key_ltb a c = true;
  key_total a b : key_ltb a b = true ∨ a = b ∨ key_ltb b a = true
}.

Definition key_lt {K} `{KeyOrder K} (a b : K) : Prop := key_ltb a b = true.

#[export] Instance key_lt_trans {K} `{KeyOrder K} : Transitive key_lt.
Proof. intros a b c. apply key_trans. Qed.

Lemma key_lt_irrefl {K} `{KeyOrder K} a : ¬ key_lt a a.
Proof. unfold key_lt. by rewrite key_irrefl. Qed.

#[export] Program Instance Z_order : KeyOrder Z := {| key_ltb := Z.ltb |}.
Next Obligation. apply Z.ltb_irrefl. Qed.
Next Obligation. intros. lia. Qed.
Next Obligation. intros. lia. Qed.

Fixpoint bytes_ltb (a b : bytes) : bool :=
  match a, b with
  | [], [] => false
  | [], _ :: _ => true
  | _ :: _, [] => false
  | x :: a, y :: b => if x <? y then true else if x =? y then bytes_ltb a b else false
  end.

#[export] Program Instance bytes_order : KeyOrder bytes := {| key_ltb := bytes_ltb |}.
Next Obligation.
  intros a. induction a as [|x a IH]; [done|]. cbn [bytes_ltb]. by rewrite Z.ltb_irrefl, Z.eqb_refl.
Qed.
Next Obligation.
  intros a. induction a as [|x a IH]; intros [|y b] [|z c]; cbn [bytes_ltb]; try done.
  destruct (Z.ltb_spec x y), (Z.eqb_spec x y); try lia; try done; intros H1 H2;
    destruct (Z.ltb_spec y z), (Z.eqb_spec y z); try lia; try done.
  - by rewrite ltb_true by lia.
  - by rewrite ltb_true by lia.
  - by rewrite ltb_true by lia.
  - rewrite ltb_false, eqb_true by lia. by eapply IH.
Qed.
Next Obligation.
  intros a. induction a as [|x a IH]; intros [|y b]; cbn [bytes_ltb]; auto.
  destruct (Z.ltb_spec x y), (Z.eqb_spec x y); try lia; auto.
  - subst. rewrite Z.ltb_irrefl, Z.eqb_refl. destruct (IH b) as [|[->|]]; auto.
  - rewrite (ltb_true y x) by lia. auto.
Qed.

Definition pair_ltb {A B} `{KeyOrder A, KeyOrder B} (x y : A * B) : bool :=
  key_ltb x.1 y.1 || (bool_decide (x.1 = y.1) && key_ltb x.2 y.2).

#[export] Program Instance pair_order {A B} `{KeyOrder A, KeyOrder B} : KeyOrder (A * B) := {| key_ltb := pair_ltb |}.
Next Obligation.
  intros. unfold pair_ltb. by rewrite !key_irrefl, andb_false_r.
Qed.
Next Obligation.
  intros A B ? ? ? ? [a1 a2] [b1 b2] [c1 c2]. unfold pair_ltb. cbn [fst snd].
  rewrite !orb_true_iff, !andb_true_iff, !bool_decide_eq_true.
  intros [H1|[-> H1]] [H2|[-> H2]]; auto.
  - left. by eapply key_trans.
  - right. split; [done|]. by eapply key_trans.
Qed.
Next Obligation.
  intros A B ? ? ? ? [a1 a2] [b1 b2]. unfold pair_ltb. cbn [fst snd].
  rewrite !orb_true_iff, !andb_true_iff, !bool_decide_eq_true.
  destruct (key_total a1 b1) as [?|[->|?]]; auto.
  destruct (key_total a2 b2) as [?|[->|?]]; auto.
Qed.

Section StdMap.
Context {K : Type} `{KeyOrder K} {V : Type}.
Implicit Types (m : list (K * V)).

Fixpoint map_find (k : K) m : option V :=
  match m with
  | [] => None
  | (k', v) :: m => if bool_decide (k' = k) then Some v else map_find k m
  end.

(** [operator[]] with an assignment. *)
Fixpoint map_set (k : K) (v : V) m : list (K * V) :=
  match m with
  | [] => [(k, v)]
  | (k', v') :: m =>
      if key_ltb k k' then (k, v) :: (k', v') :: m
      else if bool_decide (k' = k) then (k, v) :: m
      else (k', v') :: map_set k v m
  end.

Definition map_erase (k : K) m : list (K * V) := filter (λ kv, kv.1 ≠ k) m.

(** In ascending order. *)
Definition map_ok m : Prop := StronglySorted key_lt m.*1.

Lemma map_ok_cons k v m : map_ok ((k, v) :: m) ↔ Forall (key_lt k) m.*1 ∧ map_ok m.
Proof.
  unfold map_ok. rewrite fmap_cons. cbn [fst]. split.
  - intros Hs. inversion Hs; subst. done.
  - intros [? ?]. by constructor.
Qed.

Lemma map_find_notin k m : k ∉ m.*1 → map_find k m = None.
Proof.
  induction m as [|[k' v] m IH]; [done|]. rewrite fmap_cons. cbn [fst map_find].
  intros [? ?]%not_elem_of_cons. rewrite bool_decide_false by congruence. auto.
Qed.

Lemma map_find_below k m : Forall (key_lt k) m.*1 → map_find k m = None.
Proof.
  intros Hall. apply map_find_notin. intros Hin. rewrite Forall_forall in Hall.
  by apply (key_lt_irrefl k), Hall.
Qed.

Lemma map_find_set k v m k' :
  map_find k' (map_set k v m) = if bool_decide (k' = k) then Some v else map_find k' m.
Proof.
  induction m as [|[k1 v1] m IH]; cbn [map_set map_find].
  - case_bool_decide; case_bool_decide; congruence.
  - destruct (key_ltb k k1); cbn [map_find].
    + repeat case_bool_decide; congruence.
    + destruct (bool_decide (k1 = k)) eqn:E; [apply bool_decide_eq_true in E|apply bool_decide_eq_false in E];
        cbn [map_find]; rewrite ?IH; repeat case_bool_decide; congruence.
Qed.

Lemma map_set_keys k v m x : x ∈ (map_set k v m).*1 → x = k ∨ x ∈ m.*1.
Proof.
  induction m as [|[k1 v1] m IH]; cbn [map_set].
  - rewrite fmap_cons. intros ?%elem_of_cons. naive_solver.
  - destruct (key_ltb k k1); [|destruct (bool_decide (k1 = k))]; rewrite !fmap_cons; cbn [fst];
      rewrite ?elem_of_cons; naive_solver.
Qed.

Lemma map_set_ok k v m : map_ok m → map_ok (map_set k v m).
Proof.
  induction m as [|[k1 v1] m IH]; cbn [map_set].
  { intros _. by repeat constructor. }
  intros Hok. pose proof Hok as [Hlt Hm]%map_ok_cons. destruct (key_ltb k k1) eqn:E.
  - apply map_ok_cons. split; [|done]. rewrite fmap_cons. constructor; [done|].
    eapply Forall_impl; [done|]. intros x Hx. by transitivity k1.
  - case_bool_decide as Hk.
    + subst. by apply map_ok_cons.
    + apply map_ok_cons. split; [|by apply IH]. apply Forall_forall. intros x [->|Hx]%map_set_keys.
      * destruct (key_total k1 k) as [?|[?|?]]; [done|done|]. unfold key_lt in *. congruence.
      * rewrite Forall_forall in Hlt. by apply Hlt.
Qed.

(** A key above all others goes to the end. *)
Lemma map_set_last k v m : Forall (λ k', key_lt k' k) m.*1 → map_set k v m = m ++ [(k, v)].
Proof.
  induction m as [|[k1 v1] m IH]; [done|]. rewrite fmap_cons. cbn [fst map_set app].
  intros [H1 Hm]%Forall_cons. destruct (key_ltb k k1) eqn:E.
  - exfalso. apply (key_lt_irrefl k). by transitivity k1.
  - rewrite bool_decide_false; [|by intros ->; apply (key_lt_irrefl k)]. by rewrite IH.
Qed.

Lemma map_set_length k v m : (length (map_set k v m) ≤ S (length m))%nat.
Proof.
  induction m as [|[k1 v1] m IH]; cbn [map_set length]; [lia|].
  destruct (key_ltb k k1), (bool_decide (k1 = k)); cbn [length]; lia.
Qed.

Lemma map_filter_ok (P : K * V → Prop) `{HP : ∀ x, Decision (P x)} m : map_ok m → map_ok (filter P m).
Proof.
  induction m as [|[k v] m IH]; [done|]. intros [Hlt Hm]%map_ok_cons. rewrite filter_cons.
  case_decide; [|by apply IH]. apply map_ok_cons. split; [|by apply IH].
  apply Forall_forall. intros x ([k' v'] & -> & [_ Hin]%list_elem_of_filter)%list_elem_of_fmap.
  rewrite Forall_forall in Hlt. apply Hlt, list_elem_of_fmap. by exists (k', v').
Qed.

Lemma map_find_erase k m k' :
  map_find k' (map_erase k m) = if bool_decide (k' = k) then None else map_find k' m.
Proof.
  unfold map_erase. induction m as [|[k1 v1] m IH]; [by case_bool_decide|]. rewrite filter_cons.
  destruct (decide (k1 = k)) as [Hk|Hk].
  - rewrite decide_False by (cbn; tauto). cbn [map_find]. rewrite IH. repeat case_bool_decide; congruence.
  - rewrite decide_True by done. cbn [map_find]. rewrite IH. repeat case_bool_decide; congruence.
Qed.

Lemma map_set_elem k v m x : x ∈ map_set k v m → x = (k, v) ∨ x ∈ m.
Proof.
  induction m as [|[k1 v1] m IH]; cbn [map_set]; [rewrite elem_of_cons; naive_solver|].
  destruct (key_ltb k k1), (bool_decide (k1 = k)); rewrite ?elem_of_cons; naive_solver.
Qed.

Lemma map_find_elem k v m : map_find k m = Some v → (k, v) ∈ m.
Proof.
  induction m as [|[k1 v1] m IH]; [done|]. cbn [map_find]. case_bool_decide; [intros [= ->]; subst; left|].
  intros. right. auto.
Qed.

Lemma map_elem_find k v m : map_ok m → (k, v) ∈ m → map_find k m = Some v.
Proof.
  induction m as [|[k1 v1] m IH]; [by intros _ ?%elem_of_nil|]. intros [Hlt Hm]%map_ok_cons Hin.
  cbn [map_find]. apply elem_of_cons in Hin as [[= -> ->]|Hin]; [by rewrite bool_decide_true|].
  rewrite bool_decide_false; [by apply IH|]. intros ->. rewrite Forall_forall in Hlt.
  apply (key_lt_irrefl k), Hlt, list_elem_of_fmap. by exists (k, v).
Qed.

Lemma map_erase_ok k m : map_ok m → map_ok (map_erase k m).
Proof. apply map_filter_ok. Qed.

Lemma map_erase_elem k m x : x ∈ map_erase k m ↔ x ∈ m ∧ x.1 ≠ k.
Proof. unfold map_erase. rewrite list_elem_of_filter. tauto. Qed.

Lemma Forall_map_set (P : K * V → Prop) k v m : Forall P m → P (k, v) → Forall P (map_set k v m).
Proof. rewrite !Forall_forall. intros Hm Hk x [->|Hx]%map_set_elem; auto. Qed.

Lemma Forall_map_erase (P : K * V → Prop) k m : Forall P m → Forall P (map_erase k m).
Proof. rewrite !Forall_forall. intros Hm x [Hx _]%map_erase_elem. auto. Qed.

Lemma Forall_map_find (P : K * V → Prop) k v m : Forall P m → map_find k m = Some v → P (k, v).
Proof. rewrite Forall_forall. intros Hm Hk. by apply Hm, map_find_elem. Qed.

Lemma map_set_present k v m : map_ok m → map_find k m ≠ None → length (map_set k v m) = length m.
Proof.
  induction m as [|[k1 v1] m IH]; [done|]. intros [Hlt Hm]%map_ok_cons. cbn [map_set map_find].
  destruct (key_ltb k k1) eqn:E.
  - rewrite bool_decide_false; [|intros ->; by apply (key_lt_irrefl k)].
    rewrite map_find_below; [done|]. eapply Forall_impl; [done|]. intros x Hx. by transitivity k1.
  - case_bool_decide; [done|]. intros. cbn [length]. by rewrite IH.
Qed.
End StdMap.

Lemma Forall_filter_sub {A} (P Q : A → Prop) `{∀ x, Decision (Q x)} l : Forall P l → Forall P (filter Q l).
Proof. rewrite !Forall_forall. intros Hl x [_ Hx]%list_elem_of_filter. by apply Hl. Qed.

(** ** Maps as multisets of entries *)

Section StdMapPerm.
Context {K : Type} `{KeyOrder K} {V : Type}.
Implicit Types (m : list (K * V)).

Lemma map_erase_notin k m : k ∉ m.*1 → map_erase k m = m.
Proof.
  unfold map_erase. induction m as [|[k1 v1] m IH]; [done|]. rewrite fmap_cons. cbn [fst].
  intros [? ?]%not_elem_of_cons. rewrite filter_cons, decide_True by (cbn; congruence). by rewrite IH.
Qed.

Lemma map_below_notin k m : Forall (key_lt k) m.*1 → k ∉ m.*1.
Proof. rewrite Forall_forall. intros Hlt Hin. by apply (key_lt_irrefl k), Hlt. Qed.

(** Setting a key replaces its entry. *)
Lemma map_set_perm k v m : map_ok m → map_set k v m ≡ₚ (k, v) :: map_erase k m.
Proof.
  induction m as [|[k1 v1] m IH]; [done|]. intros [Hlt Hm]%map_ok_cons. cbn [map_set].
  destruct (key_ltb k k1) eqn:E.
  - rewrite map_erase_notin; [done|]. rewrite fmap_cons. cbn [fst]. apply not_elem_of_cons.
    split; [intros ->; by apply (key_lt_irrefl k1)|]. apply map_below_notin. eapply Forall_impl; [done|].
    intros x Hx. by transitivity k1.
  - unfold map_erase. rewrite filter_cons. case_bool_decide as Hk.
    + subst. rewrite decide_False by (cbn; tauto). fold (map_erase k m).
      by rewrite map_erase_notin by (by apply map_below_notin).
    + rewrite decide_True by done. fold (map_erase k m). rewrite IH by done. constructor.
Qed.

Lemma map_find_perm k v m : map_ok m → map_find k m = Some v → m ≡ₚ (k, v) :: map_erase k m.
Proof.
  induction m as [|[k1 v1] m IH]; [done|]. intros [Hlt Hm]%map_ok_cons. cbn [map_find].
  unfold map_erase. rewrite filter_cons. case_bool_decide as Hk.
  - intros [= ->]. subst. rewrite decide_False by (cbn; tauto). fold (map_erase k m).
    by rewrite map_erase_notin by (by apply map_below_notin).
  - intros Hf. rewrite decide_True by done. fold (map_erase k m). rewrite (IH Hm Hf) at 1. constructor.
Qed.

Lemma map_find_keys k m : map_find k m = None ↔ k ∉ m.*1.
Proof.
  split; [|apply map_find_notin]. intros Hf Hin. apply list_elem_of_fmap in Hin as ([k' v] & -> & Hin).
  cbn [fst] in Hf. revert Hf Hin. clear. induction m as [|[k1 v1] m IH]; [by intros _ ?%elem_of_nil|].
  cbn [map_find]. case_bool_decide; [done|]. intros Hf [[= <- <-]|?]%elem_of_cons; [done|auto].
Qed.

Lemma map_sub_ok m m' : m'.*1 `sublist_of` m.*1 → map_ok m → map_ok m'.
Proof.
  unfold map_ok. generalize (m.*1) (m'.*1). clear. intros l l' Hsub.
  induction Hsub as [|x l1 l2 Hsub IH|x l1 l2 Hsub IH]; intros Hs; [constructor| |].
  - inversion Hs as [|? ? Hs' Hf]; subst. constructor; [by apply IH|].
    rewrite Forall_forall in *. intros y Hy. apply Hf. by eapply elem_of_sublist.
  - inversion Hs; subst. by apply IH.
Qed.

Lemma map_set_same {A} (f : K * V → A) k v w m :
  map_find k m = Some w → map_ok m → f (k, v) = f (k, w) → f <$> map_set k v m = f <$> m.
Proof.
  intros Hk Hok Hf. induction m as [|[k1 v1] m IH]; [done|]. apply map_ok_cons in Hok as [Hlt Hok].
  cbn [map_find] in Hk. cbn [map_set]. case_bool_decide as E.
  - subst k1. injection Hk as ->. destruct (key_ltb k k) eqn:El; [by apply key_lt_irrefl in El|]. csimpl. by rewrite Hf.
  - destruct (key_ltb k k1) eqn:El; [|csimpl; f_equal; auto].
    apply map_find_elem in Hk. rewrite Forall_forall in Hlt. exfalso.
    apply (key_lt_irrefl k). eapply key_lt_trans; [exact El|]. apply Hlt. apply list_elem_of_fmap. by exists (k, w).
Qed.

Lemma map_set_fresh k v m : map_ok m → k ∉ m.*1 → map_set k v m ≡ₚ (k, v) :: m.
Proof. intros Hm Hk. rewrite map_set_perm by done. by rewrite map_erase_notin. Qed.

Lemma map_erase_sub {A} (f : K * V → A) k m : f <$> map_erase k m `sublist_of` f <$> m.
Proof. apply fmap_sublist, sublist_filter. Qed.
End StdMapPerm.
