(* ===== verification/Xattr.v ===== *)
(** * Extended attributes (src/cvmfs/xattr.{h,cc})

    A list of extended attributes, its operations, and the binary format in
    which the file catalogs store it.  [Deserialize] reads bytes that come from
    a catalog: the theorems say that no input makes it read out of bounds, and
    that it restores what [Serialize] wrote. *)

From stdpp Require Import base numbers list sorting.
From S2P Require Import Prelude Bytes StringUtil StdMap.

Open Scope Z_scope.

Definition kVersionSmall : Z := 1.
Definition kVersionBig : Z := 2.

Definition IsSupportedVersion (v : Z) : bool := (v =? kVersionSmall) || (v =? kVersionBig).

(** The [std::map xattrs_]. *)
Definition XattrList : Type := list (bytes * bytes).

Definition Has (xattrs : XattrList) (key : bytes) : bool :=
  match map_find key xattrs with Some _ => true | None => false end.

Definition Get (xattrs : XattrList) (key : bytes) : option bytes := map_find key xattrs.

Definition ListKeys (xattrs : XattrList) : list bytes := xattrs.*1.

Fixpoint posix_merge (xattrs : XattrList) (merge_list : list bytes) (result : bytes) : bytes :=
  match merge_list with
  | [] => result
  | m :: merge_list =>
      if (zlen m =? 0) || Has xattrs m then posix_merge xattrs merge_list result
      else posix_merge xattrs merge_list (result ++ m ++ [0])
  end.

Fixpoint posix_keys (xattrs : XattrList) (result : bytes) : bytes :=
  match xattrs with
  | [] => result
  | (k, _) :: xattrs => posix_keys xattrs (result ++ k ++ [0])
  end.

Definition ListKeysPosix (xattrs : XattrList) (merge_with : bytes) : bytes :=
  let result := if zlen merge_with =? 0 then []
                else posix_merge xattrs (SplitString merge_with 0) [] in
  posix_keys xattrs result.

Definition Set_ (xattrs : XattrList) (key value : bytes) : bool * XattrList :=
  if zlen key =? 0 then (false, xattrs)
  else if zlen key >? 255 then (false, xattrs)
  else if bool_decide (0 ∈ key) then (false, xattrs)
  else if zlen value >=? 64 * 1024 then (false, xattrs)
  else match map_find key xattrs with
       | Some _ => (true, map_set key value xattrs)
       | None => if zlen xattrs >=? 256 then (false, xattrs) else (true, map_set key value xattrs)
       end.

Definition Remove (xattrs : XattrList) (key : bytes) : bool * XattrList :=
  match map_find key xattrs with
  | Some _ => (true, map_erase key xattrs)
  | None => (false, xattrs)
  end.

(** ** Reading the attributes of a file *)

Section CreateFromFile.
(** [llistxattr]: what it says about the path, [None] for an error.
    [lgetxattr]: the value of a key, or the negative error number. *)
Context (llistxattr : option bytes) (lgetxattr : bytes → bytes + Z).

(** The system call with a buffer of [n] bytes: with an empty buffer only the
    length, and an error if the value does not fit. *)
Definition lgetxattr_buf (key : bytes) (n : Z) : (bytes * Z) + Z :=
  match lgetxattr key with
  | inr e => inr e
  | inl v => if n =? 0 then inl ([], zlen v)
             else if zlen v <=? n then inl (v, zlen v) else inr (- ERANGE)
  end.

Definition read_value (key : bytes) : option bytes :=
  match lgetxattr_buf key 255 with
  | inl (buffer, sz_value) => Some (take (Z.to_nat sz_value) buffer)
  | inr e =>
      if e =? - ERANGE then
        match lgetxattr_buf key 0 with
        | inl (_, sz_buffer) =>
            match lgetxattr_buf key sz_buffer with
            | inl (buffer, sz_value) => Some (take (Z.to_nat sz_value) buffer)
            | inr _ => None
            end
        | inr _ => None
        end
      else None
  end.

Fixpoint read_values (keys : list bytes) (result : XattrList) : XattrList :=
  match keys with
  | [] => result
  | k :: keys =>
      if zlen k =? 0 then read_values keys result
      else match read_value k with
           | Some v => read_values keys (Set_ result k v).2
           | None => read_values keys result
           end
  end.

Definition CreateFromFile : option XattrList :=
  match llistxattr with
  | None => None
  | Some list =>
      if zlen list >? 64 * 1024 then None
      else if zlen list =? 0 then Some []
      else Some (read_values (SplitString list 0) [])
  end.
End CreateFromFile.

(** ** Entries of the binary format *)

Definition GetHeaderSize (version : Z) : Z := if version =? kVersionBig then 3 else 2.

Definition XattrEntrySerializer (version : Z) : outcome Z :=
  _ ← cassert (IsSupportedVersion version); Ret version.

(** Writes into [mem] at [to]. *)
Definition EntrySerialize (version : Z) (key value : bytes) (mem : bytes) (to : Z) : outcome (Z * bytes) :=
  _ ← cassert (zlen key <? 256);
  _ ← cassert (zlen value <? (if version =? kVersionSmall then 256 else 64 * 1024));
  mem ← store mem to [u8 (zlen key)];
  let to := to + 1 in
  '(mem, to) ← (if version =? kVersionSmall then
                  mem ← store mem to [u8 (zlen value)]; Ret (mem, to + 1)
                else
                  _ ← cassert (version =? kVersionBig);
                  mem ← store mem to (le_encode 2 (u16 (zlen value))); Ret (mem, to + 2));
  mem ← store mem to key;
  let to := to + zlen key in
  mem ← store mem to value;
  Ret (u32 (GetHeaderSize version + zlen key + zlen value), mem).

(** Reads [mem] at [from]; [None] stands for the result 0. *)
Definition EntryDeserialize (version : Z) (mem : bytes) (from bufsize : Z) : outcome (option (Z * bytes * bytes)) :=
  if bufsize <? GetHeaderSize version then Ret None else
  let bufsize := u32 (bufsize - GetHeaderSize version) in
  lk ← load mem from 1;
  let len_key := le_decode lk in
  let from := from + 1 in
  '(len_value, from) ← (if version =? kVersionSmall then
                          lv ← load mem from 1; Ret (le_decode lv, from + 1)
                        else
                          _ ← cassert (version =? kVersionBig);
                          lv ← load mem from 2; Ret (le_decode lv, from + 2));
  if bufsize <? len_key + len_value then Ret None else
  key ← load mem from len_key;
  let from := from + len_key in
  value ← load mem from len_value;
  Ret (Some (u32 (GetHeaderSize version + len_key + len_value), key, value)).

(** ** The binary format *)

Fixpoint deserialize_loop (version : Z) (n : nat) (mem : bytes) (bufpos remain : Z) (result : XattrList)
    : outcome (option XattrList) :=
  match n with
  | O => Ret (Some result)
  | S n =>
      e ← EntryDeserialize version mem bufpos remain;
      match e with
      | None => Ret None
      | Some (nbytes, key, value) =>
          if nbytes =? 0 then Ret None else
          let '(retval, result) := Set_ result key value in
          if negb retval then Ret None
          else deserialize_loop version n mem (bufpos + nbytes) (u32 (remain - nbytes)) result
      end
  end.

Definition Deserialize (inbuf : option bytes) (size : Z) : outcome (option XattrList) :=
  match inbuf with
  | None => Ret (Some [])
  | Some mem =>
      if size <? 2 then Ret None else
      header ← load mem 0 2;
      version ← rd header 0;
      num_xattrs ← rd header 1;
      if negb (IsSupportedVersion version) then Ret None else
      version ← XattrEntrySerializer version;
      deserialize_loop version (Z.to_nat num_xattrs) mem 2 (u32 (size - 2)) []
  end.

Fixpoint serialize_size (xattrs : XattrList) (size version : Z) : Z * Z :=
  match xattrs with
  | [] => (size, version)
  | (k, v) :: xattrs =>
      serialize_size xattrs (u32 (u32 (size + zlen k) + zlen v))
        (if zlen v >? 255 then kVersionBig else version)
  end.

Definition blacklisted (blacklist : option (list bytes)) (key : bytes) : bool :=
  match blacklist with
  | None => false
  | Some bl => existsb (λ b, HasPrefix key b true) bl
  end.

Fixpoint serialize_loop (version : Z) (blacklist : option (list bytes)) (xattrs : XattrList)
    (mem : bytes) (bufpos num : Z) : outcome (bytes * Z) :=
  match xattrs with
  | [] => Ret (mem, num)
  | (k, v) :: xattrs =>
      if blacklisted blacklist k then serialize_loop version blacklist xattrs mem bufpos num
      else
        '(n, mem) ← EntrySerialize version k v mem bufpos;
        serialize_loop version blacklist xattrs mem (bufpos + n) (u8 (num + 1))
  end.

(** The buffer and [*size]; [smalloc] gives a new memory area. *)
Definition Serialize (smalloc : Z → bytes) (xattrs : XattrList) (blacklist : option (list bytes))
    : outcome (option bytes * Z) :=
  if bool_decide (xattrs = []) then Ret (None, 0) else
  let '(size, version) := serialize_size xattrs 2 kVersionSmall in
  version ← XattrEntrySerializer version;
  let size := u32 (size + zlen xattrs * GetHeaderSize version) in
  '(mem, num) ← serialize_loop version blacklist xattrs (smalloc size) 2 0;
  if num =? 0 then Ret (None, 0)
  else
    mem ← store mem 0 [version; num];
    Ret (Some mem, size).

(** ** Well-formed lists *)

Definition entry_ok (kv : bytes * bytes) : Prop :=
  1 ≤ zlen kv.1 ≤ 255 ∧ 0 ∉ kv.1 ∧ zlen kv.2 < 64 * 1024.

Definition xattr_ok (xattrs : XattrList) : Prop :=
  map_ok xattrs ∧ Forall entry_ok xattrs ∧ zlen xattrs ≤ 256.

Lemma Set_spec xattrs key value :
  entry_ok (key, value) → (map_find key xattrs ≠ None ∨ zlen xattrs < 256) →
  Set_ xattrs key value = (true, map_set key value xattrs).
Proof.
  intros (Hk & Hz & Hv) Hroom. cbn [fst snd] in *. unfold Set_.
  rewrite eqb_false, gtb_false, bool_decide_false, geb_false by (done || lia).
  destruct (map_find key xattrs); [done|]. destruct Hroom as [?|?]; [done|].
  by rewrite geb_false by lia.
Qed.

Lemma Set_refused xattrs key value :
  ¬ (entry_ok (key, value) ∧ (map_find key xattrs ≠ None ∨ zlen xattrs < 256)) →
  Set_ xattrs key value = (false, xattrs).
Proof.
  intros Hno. unfold Set_. pose proof (zlen_nonneg key). destruct (Z.eqb_spec (zlen key) 0); [done|].
  destruct (zlen key >? 255) eqn:E; [done|]. case_bool_decide; [done|].
  destruct (zlen value >=? 64 * 1024) eqn:E'; [done|].
  assert (entry_ok (key, value)) by (repeat split; cbn [fst snd]; (done || lia)).
  destruct (map_find key xattrs); [naive_solver|]. destruct (zlen xattrs >=? 256) eqn:E2; [done|].
  exfalso. apply Hno. split; [done|]. right. lia.
Qed.

Lemma Set_ok xattrs key value : xattr_ok xattrs → xattr_ok (Set_ xattrs key value).2.
Proof.
  intros (Hm & He & Hl).
  destruct (decide (entry_ok (key, value) ∧ (map_find key xattrs ≠ None ∨ zlen xattrs < 256))) as [[Hkv Hroom]|Hno].
  - rewrite Set_spec by done. cbn [snd]. split_and!; [by apply map_set_ok| |].
    + apply Forall_forall. intros x [->|Hx]%map_set_elem; [done|]. rewrite Forall_forall in He. by apply He.
    + destruct Hroom as [Hp|Hr]; unfold zlen in *.
      * by rewrite map_set_present.
      * pose proof (map_set_length key value xattrs). lia.
  - by rewrite Set_refused.
Qed.

Lemma Remove_ok xattrs key : xattr_ok xattrs → xattr_ok (Remove xattrs key).2.
Proof.
  intros Hok. unfold Remove. destruct (map_find key xattrs); [|done]. destruct Hok as (Hm & He & Hl).
  cbn [snd]. unfold map_erase. split_and!.
  - by apply map_filter_ok.
  - by apply Forall_filter_sub.
  - unfold zlen in *. pose proof (length_filter (λ kv : bytes * bytes, kv.1 ≠ key) xattrs). lia.
Qed.

(** ** Reading is safe *)

Lemma load_ok mem off n : 0 ≤ off → 0 ≤ n → off + n ≤ zlen mem →
  ∃ b, load mem off n = Ret b ∧ zlen b = n ∧ (bytes_ok mem → bytes_ok b).
Proof.
  intros Ho Hn Hl. unfold load. rewrite decide_True by lia. eexists. split; [done|]. split.
  - unfold zlen in *. rewrite length_take, length_drop. lia.
  - intros Hm. by apply Forall_take, Forall_drop.
Qed.

Lemma le_decode_len (b : bytes) n : bytes_ok b → zlen b = n → 0 ≤ n ≤ 2 →
  0 ≤ le_decode b < 65536 ∧ (n = 1 → le_decode b < 256).
Proof.
  intros Hb Hl Hn. pose proof (le_decode_range b Hb) as [H0 H1].
  assert (length b = 0 ∨ length b = 1 ∨ length b = 2)%nat as [E|[E|E]] by (unfold zlen in *; lia);
    unfold zlen in *; rewrite E in *; cbn in H1; lia.
Qed.

Lemma EntryDeserialize_safe version mem from remain :
  IsSupportedVersion version = true → bytes_ok mem → 0 ≤ from → 0 ≤ remain < 2 ^ 32 →
  from + remain = zlen mem →
  ∃ r, EntryDeserialize version mem from remain = Ret r
       ∧ ∀ n k v, r = Some (n, k, v) → 0 < n ≤ remain.
Proof.
  intros Hv Hm Hf Hr Hlen. unfold EntryDeserialize, GetHeaderSize. unfold_words.
  destruct (Z.ltb_spec remain (if version =? kVersionBig then 3 else 2)); [by exists None|].
  destruct (load_ok mem from 1) as (lk & -> & Hlk & Hok1); [lia|lia|destruct (version =? kVersionBig); lia|].
  exec. pose proof (le_decode_len lk 1 (Hok1 Hm) Hlk ltac:(lia)) as [Hk0 Hk1].
  unfold IsSupportedVersion in Hv. unfold kVersionBig, kVersionSmall in *.
  assert (∃ hv lv, (if version =? 1 then lv ← load mem (from + 1) 1; Ret (le_decode lv, from + 1 + 1)
            else _ ← cassert (version =? 2); lv ← load mem (from + 1) 2; Ret (le_decode lv, from + 1 + 2))
          = Ret (lv, from + 1 + hv) ∧ (if version =? 2 then 3 else 2) = 1 + hv ∧ 0 ≤ hv ∧ 0 ≤ lv < 65536) as (hv & lv & -> & Hhv & Hhv0 & Hlv).
  { destruct (Z.eqb_spec version 1) as [->|]; cbn [Z.eqb Pos.eqb] in *.
    - destruct (load_ok mem (from + 1) 1) as (b & -> & Hb & Hbo); [lia..|]. exists 1, (le_decode b).
      pose proof (le_decode_len b 1 (Hbo Hm) Hb ltac:(lia)) as [? _]. done.
    - destruct (Z.eqb_spec version 2) as [->|]; [|done]. exec.
      destruct (load_ok mem (from + 1) 2) as (b & -> & Hb & Hbo); [lia..|]. exists 2, (le_decode b).
      pose proof (le_decode_len b 2 (Hbo Hm) Hb ltac:(lia)) as [? _]. done. }
  rewrite Hhv in *. exec. rewrite Z.mod_small by lia.
  destruct (Z.ltb_spec (remain - (1 + hv)) (le_decode lk + lv)); [by exists None|].
  destruct (load_ok mem (from + 1 + hv) (le_decode lk)) as (k & -> & _); [lia..|]. exec.
  destruct (load_ok mem (from + 1 + hv + le_decode lk) lv) as (v & -> & _); [lia..|]. exec.
  eexists. split; [done|]. intros n k' v' [= <- _ _]. rewrite Z.mod_small; lia.
Qed.

Lemma deserialize_loop_safe version n : ∀ mem bufpos remain result,
  IsSupportedVersion version = true → bytes_ok mem → 0 ≤ bufpos → 0 ≤ remain < 2 ^ 32 →
  bufpos + remain = zlen mem → xattr_ok result →
  ∃ r, deserialize_loop version n mem bufpos remain result = Ret r
       ∧ ∀ xattrs, r = Some xattrs → xattr_ok xattrs.
Proof.
  induction n as [|n IH]; intros mem bufpos remain result Hv Hm Hp Hr Hlen Hok; cbn [deserialize_loop].
  { eexists. split; [done|]. by intros ? [= <-]. }
  destruct (EntryDeserialize_safe version mem bufpos remain) as (e & -> & He); [done..|]. exec.
  destruct e as [[[nbytes key] value]|]; [|by exists None].
  specialize (He _ _ _ eq_refl). rewrite eqb_false by lia.
  pose proof (Set_ok result key value Hok) as Hok'. destruct (Set_ result key value) as [[] result']; cbn [negb snd] in *.
  - apply IH; try done; rewrite ?u32_small; unfold_words; lia.
  - by exists None.
Qed.

Lemma xattr_ok_nil : xattr_ok [].
Proof. split_and!; [constructor|constructor|done]. Qed.

(** C28. Whatever bytes a catalog holds, [Deserialize] returns without
    reading outside of the buffer and without a failing assertion, and a list
    that it returns satisfies the restrictions on attribute lists. *)
Theorem deserialize_safe (mem : bytes) :
  bytes_ok mem → zlen mem < 2 ^ 32 →
  ∃ r, Deserialize (Some mem) (zlen mem) = Ret r ∧ ∀ xattrs, r = Some xattrs → xattr_ok xattrs.
Proof.
  intros Hm Hlen. unfold Deserialize. destruct (Z.ltb_spec (zlen mem) 2); [by exists None|].
  destruct mem as [|a [|b mem]]; [done|done|]. set (l := a :: b :: mem) in *.
  assert (load l 0 2 = Ret [a; b]) as ->.
  { unfold load. by rewrite decide_True by lia. }
  exec. change (rd [a; b] 0) with (Ret a). change (rd [a; b] 1) with (Ret b). exec.
  destruct (IsSupportedVersion a) eqn:Ha; [|by exists None]. cbn [negb].
  unfold XattrEntrySerializer. rewrite Ha. exec. rewrite u32_small by (unfold_words; lia).
  apply deserialize_loop_safe; try done; unfold_words; try lia. apply xattr_ok_nil.
Qed.

(** ** Writing and reading back *)

(** An entry as it lies in the buffer. *)
Definition entry_bytes (version : Z) (kv : bytes * bytes) : bytes :=
  [zlen kv.1] ++ (if version =? kVersionSmall then [zlen kv.2] else le_encode 2 (zlen kv.2)) ++ kv.1 ++ kv.2.

Definition entries_bytes (version : Z) (l : XattrList) : bytes := concat (entry_bytes version <$> l).

(** The version can hold the value. *)
Definition version_fits (version : Z) (kv : bytes * bytes) : Prop :=
  version = kVersionSmall ∧ zlen kv.2 < 256 ∨ version = kVersionBig.

Lemma zlen_entry_bytes version kv : version_fits version kv →
  zlen (entry_bytes version kv) = GetHeaderSize version + zlen kv.1 + zlen kv.2.
Proof.
  unfold entry_bytes, GetHeaderSize. intros [[-> _]| ->]; cbn [Z.eqb Pos.eqb kVersionSmall kVersionBig];
    rewrite !zlen_app; change (zlen (A := Z) [?x]) with 1; unfold zlen; cbn [length]; rewrite ?length_le_encode; lia.
Qed.

(** Writing over the first bytes of what follows [pre]. *)
Lemma store_front (pre rest b : bytes) off : off = zlen pre → zlen b ≤ zlen rest →
  store (pre ++ rest) off b = Ret ((pre ++ b) ++ drop (length b) rest).
Proof.
  intros -> Hb. unfold zlen in *.
  rewrite <- (take_drop (length b) rest) at 1.
  rewrite (store_app pre) by (unfold zlen; rewrite ?length_take; lia). by rewrite <- app_assoc.
Qed.

Lemma EntrySerialize_front version kv pre rest :
  entry_ok kv → version_fits version kv → zlen (entry_bytes version kv) ≤ zlen rest →
  EntrySerialize version kv.1 kv.2 (pre ++ rest) (zlen pre)
  = Ret (zlen (entry_bytes version kv),
         (pre ++ entry_bytes version kv) ++ drop (length (entry_bytes version kv)) rest).
Proof.
  intros (Hk & _ & Hv) Hver Hroom. pose proof (zlen_entry_bytes version kv Hver) as Hlen.
  pose proof (zlen_nonneg kv.2) as Hv0.
  unfold EntrySerialize, entry_bytes, version_fits in *. destruct kv as [k v]. cbn [fst snd] in *.
  rewrite (ltb_true (zlen k) 256) by lia. exec.
  set (hv := if version =? kVersionSmall then [zlen v] else le_encode 2 (zlen v)) in *.
  rewrite !zlen_app in Hlen, Hroom. change (zlen [zlen k]) with 1 in *. pose proof (zlen_nonneg hv).
  rewrite (ltb_true (zlen v)) by (destruct Hver as [[-> ?]| ->]; cbn [Z.eqb Pos.eqb kVersionSmall kVersionBig]; lia). exec.
  rewrite (u8_small (zlen k)) by (unfold_words; lia).
  rewrite store_front by (done || (change (zlen [zlen k]) with 1; lia)). exec.
  change (length [zlen k]) with 1%nat.
  set (rest1 := drop 1 rest). assert (zlen rest1 = zlen rest - 1) as Hr1 by (unfold rest1, zlen in *; rewrite length_drop; lia).
  assert ((if version =? kVersionSmall
           then mem ← store ((pre ++ [zlen k]) ++ rest1) (zlen pre + 1) [u8 (zlen v)]; Ret (mem, zlen pre + 1 + 1)
           else _ ← cassert (version =? kVersionBig);
                mem ← store ((pre ++ [zlen k]) ++ rest1) (zlen pre + 1) (le_encode 2 (u16 (zlen v)));
                Ret (mem, zlen pre + 1 + 2))
          = Ret (((pre ++ [zlen k]) ++ hv) ++ drop (length hv) rest1, zlen pre + 1 + zlen hv)) as ->.
  { unfold hv in *. destruct Hver as [[-> ?]| ->]; cbn [Z.eqb Pos.eqb kVersionSmall kVersionBig] in *; exec.
    - rewrite u8_small by (unfold_words; lia). rewrite store_front; [done|by rewrite zlen_app|].
      change (zlen [zlen v]) with 1 in *. lia.
    - rewrite u16_small by (unfold_words; lia). rewrite store_front; [done|by rewrite zlen_app|]. lia. }
  exec. set (rest2 := drop (length hv) rest1).
  assert (zlen rest2 = zlen rest1 - zlen hv) as Hr2 by (unfold rest2, zlen in *; rewrite length_drop; lia).
  rewrite store_front by (rewrite ?zlen_app; change (zlen [zlen k]) with 1; lia). exec.
  rewrite store_front by (rewrite ?zlen_app; change (zlen [zlen k]) with 1; unfold zlen in *; rewrite ?length_drop; lia).
  exec. rewrite u32_small by (unfold_words; unfold GetHeaderSize in *; destruct (version =? kVersionBig); lia).
  rewrite !zlen_app. change (zlen [zlen k]) with 1. f_equal. f_equal; [lia|].
  rewrite <- !app_assoc. do 5 f_equal. unfold rest2, rest1. rewrite !drop_drop. f_equal.
  rewrite !length_app. cbn [length]. lia.
Qed.

Definition retained (blacklist : option (list bytes)) (l : list (bytes * bytes)) : list (bytes * bytes) :=
  filter (λ kv, blacklisted blacklist kv.1 = false) l.

Lemma retained_cons blacklist kv l :
  retained blacklist (kv :: l)
  = if blacklisted blacklist kv.1 then retained blacklist l else kv :: retained blacklist l.
Proof.
  unfold retained. rewrite filter_cons. destruct (blacklisted blacklist kv.1); [by rewrite decide_False|].
  by rewrite decide_True.
Qed.

Lemma entries_cons version kv l :
  entries_bytes version (kv :: l) = entry_bytes version kv ++ entries_bytes version l.
Proof. done. Qed.

Lemma serialize_loop_front version blacklist l : ∀ (pre rest : bytes) num,
  Forall entry_ok l → Forall (version_fits version) l →
  zlen (entries_bytes version (retained blacklist l)) ≤ zlen rest →
  ∃ rest', serialize_loop version blacklist l (pre ++ rest) (zlen pre) num
           = Ret ((pre ++ entries_bytes version (retained blacklist l)) ++ rest',
                  fold_left (λ n _, u8 (n + 1)) (retained blacklist l) num)
    ∧ zlen (entries_bytes version (retained blacklist l)) + zlen rest' = zlen rest.
Proof.
  induction l as [|[k v] l IH]; intros pre rest num Hok Hfit Hroom; cbn [serialize_loop].
  { exists rest. split; [|done]. cbn. by rewrite app_nil_r. }
  apply Forall_cons in Hok as [Hkv Hok]. apply Forall_cons in Hfit as [Hf Hfit]. rewrite retained_cons in *. cbn [fst] in *.
  destruct (blacklisted blacklist k) eqn:Hb; [by apply IH|].
  rewrite !entries_cons, !zlen_app in *.
  pose proof (zlen_nonneg (entries_bytes version (retained blacklist l))).
  pose proof (EntrySerialize_front version (k, v) pre rest Hkv Hf ltac:(lia)) as Hes. cbn [fst snd] in Hes.
  rewrite Hes. exec. rewrite <- zlen_app.
  destruct (IH (pre ++ entry_bytes version (k, v)) (drop (length (entry_bytes version (k, v))) rest) (u8 (num + 1)))
    as (rest' & -> & Hr); [done|done|unfold zlen in *; rewrite length_drop; lia|].
  exists rest'. split; [by rewrite <- !app_assoc|]. unfold zlen in *. rewrite length_drop in Hr. lia.
Qed.

Lemma fold_count {A} (l : list A) n : 0 ≤ n < 256 → fold_left (λ n _, u8 (n + 1)) l n = u8 (n + zlen l).
Proof.
  revert n. induction l as [|x l IH]; intros n Hn; cbn [fold_left].
  - change (zlen (A := A) []) with 0. rewrite Z.add_0_r, u8_small; done.
  - rewrite IH by apply u8_range. unfold zlen, u8. cbn [length]. rewrite Zplus_mod_idemp_l. f_equal. lia.
Qed.

Definition payload (l : XattrList) : Z := foldr (λ kv n, zlen kv.1 + zlen kv.2 + n) 0 l.

Lemma payload_cons kv l : payload (kv :: l) = zlen kv.1 + zlen kv.2 + payload l.
Proof. done. Qed.

Lemma payload_bound l : Forall entry_ok l → 0 ≤ payload l ≤ 65790 * zlen l.
Proof.
  induction 1 as [|kv l (Hk & _ & Hv) _ IH]; [done|]. rewrite payload_cons, zlen_cons.
  pose proof (zlen_nonneg kv.2). lia.
Qed.

Definition format_version (l : XattrList) (version : Z) : Z :=
  if bool_decide (Exists (λ kv : bytes * bytes, 255 < zlen kv.2) l) then kVersionBig else version.

Lemma serialize_size_spec l : ∀ size version, Forall entry_ok l → 0 ≤ size → size + payload l < 2 ^ 32 →
  serialize_size l size version = (size + payload l, format_version l version).
Proof.
  unfold format_version. induction l as [|[k v] l IH]; intros size version Hok Hs Hb; cbn [serialize_size].
  { change (payload []) with 0. rewrite Z.add_0_r, bool_decide_false; [done|]. by intros ?%Exists_nil. }
  apply Forall_cons in Hok as [_ Hok]. rewrite payload_cons in *. cbn [fst snd] in *.
  pose proof (payload_bound l Hok) as [? _]. pose proof (zlen_nonneg k). pose proof (zlen_nonneg v).
  rewrite (u32_small (size + _)), u32_small by (unfold_words; lia).
  rewrite IH by (done || lia). f_equal; [lia|].
  destruct (zlen v >? 255) eqn:E.
  - rewrite (bool_decide_true (Exists _ ((k, v) :: l))) by (apply Exists_cons; left; cbn [snd]; lia). by case_bool_decide.
  - assert (bool_decide (Exists (λ kv : bytes * bytes, 255 < zlen kv.2) ((k, v) :: l))
            = bool_decide (Exists (λ kv : bytes * bytes, 255 < zlen kv.2) l)) as ->; [|done].
    apply bool_decide_ext. rewrite Exists_cons. cbn [snd]. split; [intros [?|?]; [lia|done]|auto].
Qed.

Lemma format_version_fits l : Forall (version_fits (format_version l kVersionSmall)) l.
Proof.
  unfold format_version, version_fits. case_bool_decide as He; apply Forall_forall; intros kv Hin; [by right|].
  left. split; [done|]. destruct (Z.ltb_spec (zlen kv.2) 256); [done|]. exfalso. apply He, Exists_exists.
  exists kv. split; [done|]. lia.
Qed.

Lemma entries_bytes_length version l : Forall (version_fits version) l →
  zlen (entries_bytes version l) = payload l + zlen l * GetHeaderSize version.
Proof.
  induction 1 as [|kv l Hf _ IH]; [done|]. rewrite entries_cons, zlen_app, IH, zlen_entry_bytes by done.
  rewrite payload_cons, zlen_cons. lia.
Qed.

Lemma retained_payload blacklist l : Forall entry_ok l →
  payload (retained blacklist l) ≤ payload l ∧ zlen (retained blacklist l) ≤ zlen l.
Proof.
  induction 1 as [|kv l (Hk & _ & Hv) _ IH]; [done|]. rewrite retained_cons.
  pose proof (zlen_nonneg kv.2). destruct (blacklisted _ _); rewrite ?payload_cons, ?zlen_cons; lia.
Qed.

Lemma EntryDeserialize_app version kv (pre post : bytes) remain :
  entry_ok kv → version_fits version kv →
  remain = zlen (entry_bytes version kv) + zlen post → remain < 2 ^ 32 →
  EntryDeserialize version (pre ++ entry_bytes version kv ++ post) (zlen pre) remain
  = Ret (Some (zlen (entry_bytes version kv), kv.1, kv.2)).
Proof.
  intros (Hk & _ & Hv) Hver Hrem Hlt. pose proof (zlen_entry_bytes version kv Hver) as Hlen.
  pose proof (zlen_nonneg kv.2) as Hv0. pose proof (zlen_nonneg post).
  unfold EntryDeserialize, version_fits in *. destruct kv as [k v]. cbn [fst snd] in *.
  assert (1 ≤ GetHeaderSize version ≤ 3) by (unfold GetHeaderSize; destruct (version =? kVersionBig); lia).
  rewrite ltb_false by lia. rewrite u32_small by (unfold_words; lia). rewrite Hlen in *. clear Hlen.
  unfold entry_bytes. cbn [fst snd]. set (hv := if version =? kVersionSmall then _ else _).
  assert (zlen hv = GetHeaderSize version - 1 ∧ le_decode hv = zlen v) as [Hhv Hdec].
  { unfold hv, GetHeaderSize. destruct Hver as [[-> ?]| ->]; cbn [Z.eqb Pos.eqb kVersionSmall kVersionBig].
    - split; [done|]. cbn [le_decode]. lia.
    - split; [by unfold zlen; rewrite length_le_encode|]. rewrite le_decode_encode. apply Z.mod_small.
      change (2 ^ (8 * Z.of_nat 2)) with 65536. lia. }
  rewrite <- !app_assoc. rewrite (load_app pre [zlen k] _ (zlen pre) 1) by done. exec.
  replace (le_decode [zlen k]) with (zlen k) by (cbn [le_decode]; lia).
  assert ((if version =? kVersionSmall then
             lv ← load (pre ++ [zlen k] ++ hv ++ k ++ v ++ post) (zlen pre + 1) 1; Ret (le_decode lv, zlen pre + 1 + 1)
           else _ ← cassert (version =? kVersionBig);
             lv ← load (pre ++ [zlen k] ++ hv ++ k ++ v ++ post) (zlen pre + 1) 2; Ret (le_decode lv, zlen pre + 1 + 2))
          = Ret (zlen v, zlen pre + 1 + zlen hv)) as ->.
  { rewrite (app_assoc pre). unfold GetHeaderSize in *.
    destruct Hver as [[-> ?]| ->]; cbn [Z.eqb Pos.eqb kVersionSmall kVersionBig] in *; exec;
      rewrite (load_app _ hv) by (rewrite ?zlen_app; change (zlen [zlen k]) with 1; lia); exec; by rewrite Hdec, Hhv. }
  exec. rewrite ltb_false by lia. replace (pre ++ _) with ((pre ++ [zlen k] ++ hv) ++ k ++ v ++ post) by (by rewrite <- !app_assoc).
  rewrite (load_app _ k _ _ (zlen k)) by (rewrite ?zlen_app; change (zlen [zlen k]) with 1; lia). exec.
  rewrite (app_assoc _ k). rewrite (load_app _ v) by (rewrite ?zlen_app; change (zlen [zlen k]) with 1; lia). exec.
  by rewrite u32_small by (unfold_words; lia).
Qed.

Lemma deserialize_loop_app version l : ∀ (pre post : bytes) acc remain,
  xattr_ok (acc ++ l) → Forall (version_fits version) l →
  remain = zlen (entries_bytes version l) + zlen post → remain < 2 ^ 32 →
  deserialize_loop version (length l) (pre ++ entries_bytes version l ++ post) (zlen pre) remain acc
  = Ret (Some (acc ++ l)).
Proof.
  induction l as [|[k v] l IH]; intros pre post acc remain Hok Hfit Hrem Hlt; cbn [length deserialize_loop].
  { by rewrite app_nil_r. }
  apply Forall_cons in Hfit as [Hf Hfit]. rewrite entries_cons, ?zlen_app in *. rewrite <- app_assoc.
  pose proof Hok as (Hsort & Hall & Hn). rewrite Forall_app, Forall_cons in Hall. destruct Hall as (_ & Hkv & _).
  pose proof (zlen_nonneg (entries_bytes version l)). pose proof (zlen_nonneg post).
  rewrite EntryDeserialize_app by (done || (rewrite ?zlen_app; lia)). exec.
  assert (zlen (entry_bytes version (k, v)) > 0) as Hpos.
  { rewrite zlen_entry_bytes by done. destruct Hkv as (? & _). unfold GetHeaderSize.
    pose proof (zlen_nonneg (k, v).2). destruct (version =? kVersionBig); lia. }
  rewrite eqb_false by lia. rewrite zlen_app, zlen_cons in Hn. pose proof (zlen_nonneg l).
  rewrite Set_spec by (done || (right; lia)). cbn [negb].
  rewrite map_set_last.
  2: { unfold map_ok in Hsort. rewrite fmap_app, fmap_cons in Hsort. apply Forall_forall. intros x Hx.
       apply StronglySorted_app in Hsort as (Hc & _). apply (Hc x k); [done|left]. }
  rewrite u32_small by (unfold_words; lia). rewrite (app_assoc pre), <- zlen_app.
  rewrite IH by (rewrite <- ?app_assoc; done || lia). by rewrite <- app_assoc.
Qed.

Lemma retained_ok blacklist l : xattr_ok l → xattr_ok (retained blacklist l).
Proof.
  intros (Hm & He & Hl). pose proof (retained_payload blacklist l He) as [_ ?].
  split_and!; [by apply map_filter_ok|by apply Forall_filter_sub|lia].
Qed.

(** What [Serialize] leaves in the buffer. *)
Lemma Serialize_spec (smalloc : Z → bytes) l blacklist :
  (∀ n, 0 ≤ n → zlen (smalloc n) = n) → xattr_ok l → l ≠ [] →
  let version := format_version l kVersionSmall in
  let num := u8 (zlen (retained blacklist l)) in
  if num =? 0 then Serialize smalloc l blacklist = Ret (None, 0)
  else ∃ rest,
    let buf := [version; num] ++ entries_bytes version (retained blacklist l) ++ rest in
    Serialize smalloc l blacklist = Ret (Some buf, zlen buf) ∧ zlen buf < 2 ^ 32.
Proof.
  intros Hmalloc (Hm & He & Hl) Hne version num. unfold Serialize. rewrite bool_decide_false by done.
  pose proof (payload_bound l He). pose proof (zlen_nonneg l).
  rewrite serialize_size_spec by (done || lia). fold version. unfold XattrEntrySerializer.
  assert (IsSupportedVersion version = true) as ->.
  { unfold version, format_version. by case_bool_decide. }
  exec. assert (2 ≤ GetHeaderSize version ≤ 3) as Hh by (unfold GetHeaderSize; destruct (version =? kVersionBig); lia).
  rewrite u32_small by (unfold_words; nia). set (size := 2 + payload l + _).
  assert (2 ≤ size < 2 ^ 32) as Hsize by (unfold size; nia).
  pose proof (Hmalloc size ltac:(lia)) as Hmem. destruct (smalloc size) as [|x [|y mem]]; [unfold zlen in Hmem; cbn [length] in Hmem; lia..|].
  assert (Forall (version_fits version) l) as Hfit by apply format_version_fits.
  pose proof (retained_payload blacklist l He) as [Hp Hn].
  destruct (serialize_loop_front version blacklist l [x; y] mem 0) as (rest & Hloop & Hrest); [done..| |].
  { rewrite entries_bytes_length by (by apply Forall_filter_sub). rewrite !zlen_cons in Hmem. nia. }
  change (zlen [x; y]) with 2 in Hloop. cbn [app] in Hloop |- *. rewrite Hloop. exec.
  rewrite fold_count by lia. rewrite Z.add_0_l. fold num. destruct (num =? 0); [done|].
  pose proof (store_app [] [x; y] (entries_bytes version (retained blacklist l) ++ rest) 0 [version; num]
    eq_refl eq_refl) as Hst. cbn [app] in Hst. rewrite Hst. exec. exists rest. cbn [app].
  assert (zlen (version :: num :: entries_bytes version (retained blacklist l) ++ rest) = size) as ->.
  { rewrite !zlen_cons, zlen_app. rewrite !zlen_cons in Hmem. lia. }
  split; [done|lia].
Qed.

(** C29. [Deserialize] restores the attributes that [Serialize] wrote,
    those without a blacklisted prefix, as long as there are at most 255 of
    them; with the empty list, [Serialize] gives no buffer and [Deserialize]
    the empty list. *)
Theorem xattr_round_trip (smalloc : Z → bytes) l blacklist :
  (∀ n, 0 ≤ n → zlen (smalloc n) = n) → xattr_ok l → zlen (retained blacklist l) ≤ 255 →
  ∃ buf size, Serialize smalloc l blacklist = Ret (buf, size)
              ∧ Deserialize buf size = Ret (Some (retained blacklist l)).
Proof.
  intros Hmalloc Hok Hn. destruct (decide (l = [])) as [->|Hne]; [by exists None, 0|].
  pose proof (Serialize_spec smalloc l blacklist Hmalloc Hok Hne) as Hs. cbn zeta in Hs.
  pose proof (zlen_nonneg (retained blacklist l)). rewrite u8_small in Hs by (unfold_words; lia).
  destruct (Z.eqb_spec (zlen (retained blacklist l)) 0) as [H0|H0].
  { exists None, 0. split; [done|]. destruct (retained blacklist l); [done|]. rewrite zlen_cons in H0.
    pose proof (zlen_nonneg l0). lia. }
  destruct Hs as (rest & Hs & Hsize). do 2 eexists. split; [exact Hs|]. clear Hs.
  set (version := format_version l kVersionSmall) in *. set (Y := retained blacklist l) in *.
  pose proof (zlen_nonneg (entries_bytes version Y)). pose proof (zlen_nonneg rest).
  unfold Deserialize. rewrite ltb_false by (rewrite !zlen_app; change (zlen [version; zlen Y]) with 2; lia).
  assert (load ([version; zlen Y] ++ entries_bytes version Y ++ rest) 0 2 = Ret [version; zlen Y]) as ->
    by exact (load_app [] [version; zlen Y] (entries_bytes version Y ++ rest) 0 2 eq_refl eq_refl). exec.
  change (rd [version; zlen Y] 0) with (Ret version). change (rd [version; zlen Y] 1) with (Ret (zlen Y)). exec.
  unfold XattrEntrySerializer. assert (IsSupportedVersion version = true) as ->.
  { unfold version, format_version. by case_bool_decide. }
  exec. unfold zlen at 1. rewrite Nat2Z.id. apply (deserialize_loop_app version Y [version; zlen Y] rest []).
  - by apply retained_ok.
  - apply Forall_filter_sub, format_version_fits.
  - rewrite !zlen_app in *. change (zlen [version; zlen Y]) with 2 in *. rewrite u32_small by (unfold_words; lia). lia.
  - apply u32_range.
Qed.

(** A list of exactly 256 attributes, the most that [Set] accepts,
    is lost by [Serialize]: the counter of the header wraps around to 0, and the
    result is that of an empty list. *)
Theorem xattr_256_lost (smalloc : Z → bytes) l :
  (∀ n, 0 ≤ n → zlen (smalloc n) = n) → xattr_ok l → zlen l = 256 →
  Serialize smalloc l None = Ret (None, 0).
Proof.
  intros Hmalloc Hok Hn. assert (l ≠ []) as Hne by (by intros ->).
  pose proof (Serialize_spec smalloc l None Hmalloc Hok Hne) as Hs. cbn zeta in Hs.
  assert (retained None l = l) as Hr.
  { unfold retained. clear. induction l as [|kv l IH]; [done|]. rewrite filter_cons, decide_True by done. by rewrite IH. }
  by rewrite Hr, Hn in Hs.
Qed.

(** [Set] succeeds on an admissible attribute if it replaces one
    or if there are less than 256 of them; then exactly this key has the new
    value, otherwise nothing changes, and the restrictions hold in any case. *)
Theorem xattr_set l key value :
  xattr_ok l →
  let '(success, l') := Set_ l key value in
  xattr_ok l'
  ∧ (success = true ↔ entry_ok (key, value) ∧ (Has l key = true ∨ zlen l < 256))
  ∧ (∀ k, Get l' k = if success && bool_decide (k = key) then Some value else Get l k).
Proof.
  intros Hok. pose proof (Set_ok l key value Hok) as Hok'.
  assert (Has l key = true ↔ map_find key l ≠ None) as Hhas by (unfold Has; destruct (map_find key l); naive_solver).
  destruct (decide (entry_ok (key, value) ∧ (map_find key l ≠ None ∨ zlen l < 256))) as [[H1 H2]|H].
  - rewrite Set_spec in * by done. rewrite Hhas. split_and!; [done|done|]. intros k. unfold Get. cbn [andb]. apply map_find_set.
  - rewrite Set_refused in * by done. rewrite Hhas. split_and!; [done|naive_solver|done].
Qed.

Module XattrWitness.
Definition smalloc (n : Z) : bytes := repeat 205 (Z.to_nat n).

Lemma smalloc_size n : 0 ≤ n → zlen (smalloc n) = n.
Proof. intros. unfold smalloc, zlen. rewrite repeat_length. lia. Qed.

Fixpoint ascending (l : list bytes) : bool :=
  match l with
  | a :: (b :: _) as l' => key_ltb a b && ascending l'
  | _ => true
  end.

Lemma ascending_ok (l : XattrList) : ascending l.*1 = true → map_ok l.
Proof.
  intros H. unfold map_ok. apply Sorted_StronglySorted; [intros a b c; apply key_lt_trans|]. revert H.
  induction (l.*1) as [|a [|b k] IH]; intros H; [by constructor|by repeat constructor|].
  change (key_ltb a b && ascending (b :: k) = true) in H. apply andb_true_iff in H as [H1 H2].
  constructor; [by apply IH|]. by constructor.
Qed.

(** "A.x" and "user.bin" with a value of 300 bytes, "user.foo", "xfs.y". *)
Definition attrs : XattrList :=
  [([65; 46; 120], []); ([117; 115; 101; 114; 46; 98; 105; 110], repeat 7 300);
   ([117; 115; 101; 114; 46; 102; 111; 111], [0; 1]); ([120; 102; 115; 46; 121], [2])].

Lemma attrs_ok : xattr_ok attrs.
Proof.
  split_and!; [by apply ascending_ok|by apply (bool_decide_unpack _)|by vm_compute].
Qed.

Lemma xattr_round_trip_witness :
  ∃ buf size, Serialize smalloc attrs (Some [[88; 70; 83]]) = Ret (buf, size)
              ∧ Deserialize buf size = Ret (Some (take 3 attrs)).
Proof.
  assert (retained (Some [[88; 70; 83]]) attrs = take 3 attrs) as <- by (by vm_compute).
  apply xattr_round_trip; [exact smalloc_size|exact attrs_ok|by vm_compute].
Defined.

Definition many : XattrList := (λ i, ([1 + i / 16; 1 + i mod 16], [i])) <$> seqZ 0 256.

Lemma many_ok : xattr_ok many.
Proof.
  split_and!; [apply ascending_ok; by vm_compute|by apply (bool_decide_unpack _)|by vm_compute].
Qed.

Lemma xattr_256_lost_witness : zlen many = 256 ∧ Serialize smalloc many None = Ret (None, 0).
Proof. split; [done|]. apply xattr_256_lost; [exact smalloc_size|exact many_ok|done]. Defined.

Lemma xattr_set_witness :
  xattr_ok attrs ∧ Get (Set_ attrs [97] [1; 2; 3]).2 [97] = Some [1; 2; 3].
Proof.
  split; [exact attrs_ok|]. destruct (xattr_set attrs [97] [1; 2; 3] attrs_ok) as (_ & _ & H). exact (H [97]).
Defined.

(** Two entries, the second one cut off. *)
Definition cut_off : bytes := [1; 2; 1; 1; 97; 98; 4; 4; 99].

Lemma deserialize_safe_witness :
  Deserialize (Some cut_off) 9 = Ret None
  ∧ ∃ r, Deserialize (Some cut_off) (zlen cut_off) = Ret r ∧ ∀ xattrs, r = Some xattrs → xattr_ok xattrs.
Proof. split; [done|]. apply deserialize_safe; [by apply (bool_decide_unpack _)|done]. Defined.
End XattrWitness.
