(* ===== verification/ChunkDetector.v ===== *)
(** * Where files are cut (src/cvmfs/ingestion/chunk_detector.{h,cc})

    Large files are stored in chunks.  [Xor32Detector] finds the cut marks with a
    rolling checksum over the last 32 bytes, while the file comes in blocks.  The
    marks are those of a function of the contents alone. *)

From stdpp Require Import base numbers list.
From S2P Require Import Prelude Bytes.

Open Scope Z_scope.

(** ** The detector *)

Definition kXor32Window : Z := 32.

Definition kMagicNumber : Z := (2 ^ 32 - 1) / 2.

Record Xor32Detector := mkDetector {
  minimal_chunk_size_ : Z;
  average_chunk_size_ : Z;
  maximal_chunk_size_ : Z;
  threshold_ : Z;
  last_cut_ : Z;
  offset_ : Z;
  xor32_ptr_ : Z;
  xor32_ : Z
}.

Definition new_detector (minimal_chunk_size average_chunk_size maximal_chunk_size : Z) : outcome Xor32Detector :=
  _ ← cassert ((average_chunk_size =? 0) || (minimal_chunk_size >? 0));
  _ ← (if minimal_chunk_size >? 0 then
         _ ← cassert (minimal_chunk_size >=? kXor32Window);
         _ ← cassert (minimal_chunk_size <? average_chunk_size);
         cassert (average_chunk_size <? maximal_chunk_size)
       else Ret ());
  Ret (mkDetector minimal_chunk_size average_chunk_size maximal_chunk_size
         (if average_chunk_size >? 0 then i32 ((2 ^ 32 - 1) / average_chunk_size) else 0) 0 0 0 0).

Definition MightFindChunks (d : Xor32Detector) (size : Z) : bool := size >? minimal_chunk_size_ d.

Definition set_xor32 (d : Xor32Detector) (x : Z) : Xor32Detector :=
  mkDetector (minimal_chunk_size_ d) (average_chunk_size_ d) (maximal_chunk_size_ d) (threshold_ d)
    (last_cut_ d) (offset_ d) (xor32_ptr_ d) x.

Definition DoCut (d : Xor32Detector) (offset : Z) : Z * Xor32Detector :=
  (offset, mkDetector (minimal_chunk_size_ d) (average_chunk_size_ d) (maximal_chunk_size_ d) (threshold_ d)
             offset (offset_ d) offset 0).

Definition NoCut (d : Xor32Detector) (offset : Z) : Z * Xor32Detector :=
  (0, mkDetector (minimal_chunk_size_ d) (average_chunk_size_ d) (maximal_chunk_size_ d) (threshold_ d)
        (last_cut_ d) (offset_ d) offset (xor32_ d)).

Definition xor32 (x byte : Z) : Z := Z.lxor (u32 (Z.shiftl x 1)) byte.

(** [abs] of an [int32_t]; the difference and the absolute value wrap around, as
    they do on the machines the code runs on. *)
Definition abs_i32 (z : Z) : Z := i32 (Z.abs z).

Definition CheckThreshold (d : Xor32Detector) (x : Z) : bool := abs_i32 (i32 (i32 x - kMagicNumber)) <? threshold_ d.

(** The first loop makes [n] turns, the second one at most [n]. *)
Fixpoint precompute_loop (n : nat) (data : bytes) (internal_offset x : Z) : outcome Z :=
  match n with
  | O => Ret x
  | S n => byte ← rd data internal_offset; precompute_loop n data (internal_offset + 1) (xor32 x byte)
  end.

Fixpoint search_loop (n : nat) (d : Xor32Detector) (data : bytes) (internal_offset x : Z) : outcome (bool * Z * Z) :=
  match n with
  | O => Ret (false, internal_offset, x)
  | S n =>
      byte ← rd data internal_offset;
      let x := xor32 x byte in
      if CheckThreshold d x then Ret (true, internal_offset, x) else search_loop n d data (internal_offset + 1) x
  end.

Definition DoFindNextCutMark (d : Xor32Detector) (data : bytes) : outcome (Z * Xor32Detector) :=
  _ ← cassert (minimal_chunk_size_ d >? 0);
  let size := zlen data in
  let global_offset := Z.max (u64 (last_cut_ d + u64 (minimal_chunk_size_ d - kXor32Window))) (xor32_ptr_ d) in
  if global_offset >=? u64 (offset_ d + size) then Ret (NoCut d global_offset)
  else
    let internal_offset := u64 (global_offset - offset_ d) in
    _ ← cassert (internal_offset <? size);
    let precompute_end := u64 (last_cut_ d + minimal_chunk_size_ d) in
    let internal_precompute_end := Z.min (i64 (u64 (precompute_end - offset_ d))) size in
    _ ← cassert (internal_precompute_end - i64 internal_offset <=? kXor32Window);
    x ← precompute_loop (Z.to_nat (internal_precompute_end - internal_offset)) data internal_offset (xor32_ d);
    let internal_offset := Z.max internal_offset internal_precompute_end in
    let internal_max_chunk_size_end := u64 (last_cut_ d + maximal_chunk_size_ d - offset_ d) in
    let internal_compute_end := Z.min internal_max_chunk_size_end size in
    '(found, internal_offset, x) ← search_loop (Z.to_nat (internal_compute_end - internal_offset)) d data internal_offset x;
    let d := set_xor32 d x in
    if (found : bool) || (internal_offset =? internal_max_chunk_size_end)
    then Ret (DoCut d (u64 (internal_offset + offset_ d)))
    else Ret (NoCut d (u64 (internal_offset + offset_ d))).

Definition FindNextCutMark (d : Xor32Detector) (data : bytes) : outcome (Z * Xor32Detector) :=
  '(result, d) ← DoFindNextCutMark d data;
  if result =? 0
  then Ret (0, mkDetector (minimal_chunk_size_ d) (average_chunk_size_ d) (maximal_chunk_size_ d) (threshold_ d)
                 (last_cut_ d) (u64 (offset_ d + zlen data)) (xor32_ptr_ d) (xor32_ d))
  else Ret (result, d).

(** ** The marks of a file *)

Section Marks.
Context (hit : Z → bool) (minimal maximal : nat).

(** From position [pos] with checksum [x]: the first byte at which the checksum
    hits, or the position after [room] bytes. *)
Fixpoint scan (room : nat) (x : Z) (data : bytes) (pos : nat) : option nat :=
  match room, data with
  | O, _ => Some pos
  | S _, [] => None
  | S room, byte :: data =>
      let x := xor32 x byte in
      if hit x then Some pos else scan room x data (S pos)
  end.

(** The next mark after the one at [cut]. *)
Definition next_cut (data : bytes) (cut : nat) : option nat :=
  scan (maximal - minimal) (foldl xor32 0 (take 32 (drop (cut + minimal - 32) data))) (drop (cut + minimal) data) (cut + minimal).

Lemma scan_app room : ∀ x S B pos,
  scan room x (S ++ B) pos = match scan room x S pos with
                             | Some k => Some k
                             | None => scan (room - length S) (foldl xor32 x S) B (pos + length S)
                             end.
Proof.
  induction room as [|room IH]; intros x S B pos; [by destruct S|]. destruct S as [|b S]; cbn [app scan length foldl].
  - by rewrite Nat.sub_0_r, Nat.add_0_r.
  - destruct (hit (xor32 x b)); [done|]. rewrite IH. cbn [Nat.sub]. by rewrite Nat.add_succ_comm.
Qed.

Lemma scan_range room : ∀ x data pos k, scan room x data pos = Some k → (pos ≤ k ≤ pos + room ∧ k ≤ pos + length data)%nat.
Proof.
  induction room as [|room IH]; intros x data pos k; cbn [scan]; [destruct data; intros [= <-]; lia|].
  destruct data as [|b data]; [done|]. destruct (hit _); [intros [= <-]; cbn; lia|]. intros Hk%IH. cbn. lia.
Qed.

Lemma scan_None room : ∀ x data pos, scan room x data pos = None → (length data < room)%nat.
Proof.
  induction room as [|room IH]; intros x data pos; cbn [scan]; [by destruct data|].
  destruct data as [|b data]; [cbn; lia|]. destruct (hit _); [done|]. intros ?%IH. cbn. lia.
Qed.

(** The same with [pre] bytes before the first check. *)
Definition phase (pre room : nat) (x : Z) (data : bytes) (pos : nat) : option nat :=
  scan room (foldl xor32 x (take pre data)) (drop pre data) (pos + pre).

Lemma phase_app pre room x S B pos : (0 < room)%nat →
  phase pre room x (S ++ B) pos = match phase pre room x S pos with
                                  | Some k => Some k
                                  | None => phase (pre - length S) (room - (length S - pre)) (foldl xor32 x S) B (pos + length S)
                                  end.
Proof.
  intros Hroom. unfold phase. destruct (decide (length S ≤ pre)%nat) as [Hle|Hgt].
  - rewrite (drop_ge S pre) by lia. rewrite take_app_ge, drop_app_ge by lia. rewrite foldl_app.
    assert (∀ y p, scan room y [] p = None) as -> by (intros; destruct room; [lia|done]). f_equal; lia.
  - rewrite take_app_le, drop_app_le by lia. replace (pre - length S)%nat with 0%nat by lia. cbn [take drop foldl].
    rewrite scan_app, length_drop, <- foldl_app, take_drop. case_match; [done|]. f_equal. lia.
Qed.

Hypothesis Hmin : (32 ≤ minimal)%nat.
Hypothesis Hmax : (minimal < maximal)%nat.

Definition first_byte (cut : nat) : nat := (cut + minimal - 32)%nat.

Lemma next_cut_phase data cut : next_cut data cut = phase 32 (maximal - minimal) 0 (drop (first_byte cut) data) (first_byte cut).
Proof. unfold next_cut, phase, first_byte. rewrite drop_drop. by replace (cut + minimal - 32 + 32)%nat with (cut + minimal)%nat by lia. Qed.

(** The search goes on where it stopped. *)
Lemma next_cut_app S B cut : next_cut S cut = None →
  next_cut (S ++ B) cut
  = let g := Nat.max (first_byte cut) (length S) in
    phase (cut + minimal - g) (cut + maximal - Nat.max g (cut + minimal)) (foldl xor32 0 (drop (first_byte cut) S))
      (drop (g - length S) B) g.
Proof.
  rewrite !next_cut_phase, drop_app. intros HS. rewrite phase_app, HS by lia. rewrite length_drop. unfold first_byte in *. cbn zeta.
  replace (Nat.max (cut + minimal - 32) (length S) - length S)%nat with (cut + minimal - 32 - length S)%nat by lia.
  f_equal; lia.
Qed.

Lemma next_cut_range data cut k : next_cut data cut = Some k →
  (cut + minimal ≤ k ≤ cut + maximal)%nat ∧ (k ≤ length data)%nat.
Proof.
  unfold next_cut. intros Hk. apply scan_range in Hk as H. rewrite length_drop in H. split; [lia|].
  destruct (decide (cut + minimal ≤ length data)%nat); [lia|]. rewrite (drop_ge data (cut + minimal)) in Hk by lia.
  destruct (maximal - minimal)%nat eqn:E; [lia|]. done.
Qed.

Lemma next_cut_short data cut : (length data < cut + minimal)%nat → next_cut data cut = None.
Proof. intros Hs. destruct (next_cut data cut) as [k|] eqn:Hk; [|done]. apply next_cut_range in Hk. lia. Qed.

Lemma next_cut_new S B cut k : next_cut S cut = None → next_cut (S ++ B) cut = Some k → (length S ≤ k)%nat.
Proof.
  intros HS. rewrite next_cut_app by done. cbn zeta. unfold phase. intros Hk%scan_range. lia.
Qed.
End Marks.

(** ** The detector finds the marks *)

Lemma rd_drop (data : bytes) i b rest : drop i data = b :: rest → rd data (Z.of_nat i) = Ret b.
Proof.
  intros Hd. apply rd_Some. unfold lget. rewrite decide_True by lia. rewrite Nat2Z.id, <- (Nat.add_0_r i), <- lookup_drop. by rewrite Hd.
Qed.

Lemma drop_S_tail (data : bytes) i b rest : drop i data = b :: rest → drop (S i) data = rest.
Proof. intros Hd. by rewrite <- Nat.add_1_r, <- drop_drop, Hd. Qed.

Lemma precompute_ok n : ∀ data i x, (i + n ≤ length data)%nat →
  precompute_loop n data (Z.of_nat i) x = Ret (foldl xor32 x (take n (drop i data))).
Proof.
  induction n as [|n IH]; intros data i x Hn; [done|]. cbn [precompute_loop].
  destruct (drop i data) as [|b rest] eqn:Hd; [apply (f_equal length) in Hd; rewrite length_drop in Hd; cbn in Hd; lia|].
  rewrite (rd_drop _ _ _ _ Hd). exec. replace (Z.of_nat i + 1) with (Z.of_nat (S i)) by lia.
  rewrite IH by lia. by rewrite (drop_S_tail _ _ _ _ Hd).
Qed.

Section Detector.
Context (minimal maximal : nat) (average threshold : Z).
Hypothesis Hmin : (32 ≤ minimal)%nat.
Hypothesis Hmax : (minimal < maximal)%nat.
Hypothesis Hsmall : Z.of_nat maximal < 2 ^ 62.

Definition hits (x : Z) : bool := abs_i32 (i32 (i32 x - kMagicNumber)) <? threshold.

Definition detector (cut : nat) (offset ptr x : Z) : Xor32Detector :=
  mkDetector (Z.of_nat minimal) average (Z.of_nat maximal) threshold (Z.of_nat cut) offset ptr x.

Definition marks : bytes → nat → option nat := next_cut hits minimal maximal.

(** The data [S] has been seen and has no mark after [cut]. *)
Definition detector_ok (cut : nat) (S : bytes) (ptr x : Z) : Prop :=
  Z.max (Z.of_nat (first_byte minimal cut)) ptr = Z.max (Z.of_nat (first_byte minimal cut)) (zlen S) ∧
  x = foldl xor32 0 (drop (first_byte minimal cut) S) ∧ marks S cut = None.

(** The second loop, with [room] bytes up to the maximal size. *)
Lemma search_ok d data n : threshold_ d = threshold → ∀ room i x pos, n = Nat.min room (length data - i) → (i ≤ length data)%nat →
  ∃ found j x', search_loop n d data (Z.of_nat i) x = Ret (found, Z.of_nat (i + j), x') ∧
    scan hits room x (drop i data) pos
      = (if found || (j =? room)%nat then Some (pos + j)%nat else None) ∧
    (found = false → j = n ∧ x' = foldl xor32 x (take n (drop i data))) ∧ (j ≤ n)%nat.
Proof.
  intros Hth. induction n as [|n IH]; intros room i x pos Hn Hi; cbn [search_loop].
  { exists false, 0%nat, x. rewrite Nat.add_0_r. split_and!; [done| |done|lia]. destruct room as [|room].
    - cbn. rewrite Nat.add_0_r. by destruct (drop i data).
    - rewrite drop_ge by lia. done. }
  destruct (drop i data) as [|b rest] eqn:Hd; [apply (f_equal length) in Hd; rewrite length_drop in Hd; cbn in Hd; lia|].
  rewrite (rd_drop _ _ _ _ Hd). exec. destruct room as [|room]; [lia|]. cbn [scan].
  replace (CheckThreshold d (xor32 x b)) with (hits (xor32 x b)) by (unfold hits, CheckThreshold; by rewrite Hth).
  destruct (hits (xor32 x b)) eqn:Hhit.
  { exists true, 0%nat, (xor32 x b). rewrite !Nat.add_0_r. split_and!; [done|done|done|lia]. }
  apply (f_equal length) in Hd as Hl. rewrite length_drop in Hl. cbn in Hl.
  destruct (IH room (S i) (xor32 x b) (S pos)) as (found & j & x' & Hs & Hscan & Hno & Hj); [lia|lia|].
  rewrite (drop_S_tail _ _ _ _ Hd) in *. replace (Z.of_nat i + 1) with (Z.of_nat (S i)) by lia.
  exists found, (S j), x'. rewrite Hs, Hscan. split_and!; [do 3 f_equal; lia| | |lia].
  - cbn. by rewrite Nat.add_succ_r.
  - intros Hf. destruct (Hno Hf) as [-> ->]. done.
Qed.

Lemma marks_None_short S cut : marks S cut = None → (length S < cut + maximal)%nat.
Proof. unfold marks, next_cut. intros HS%scan_None. rewrite length_drop in HS. lia. Qed.

(** The two loops from position [g] on. *)
Lemma loops_ok cut offset ptr x B g : (offset ≤ g)%nat → (first_byte minimal cut ≤ g < offset + length B)%nat → (g < cut + maximal)%nat →
  Z.of_nat (cut + maximal) < 2 ^ 63 → Z.of_nat (offset + length B) < 2 ^ 63 →
  Z.max (Z.of_nat (first_byte minimal cut)) ptr = Z.of_nat g →
  DoFindNextCutMark (detector cut (Z.of_nat offset) ptr x) B
    = Ret (match phase hits (cut + minimal - g) (cut + maximal - Nat.max g (cut + minimal)) x (drop (g - offset) B) g with
           | Some k => (Z.of_nat k, detector k (Z.of_nat offset) (Z.of_nat k) 0)
           | None => (0, detector cut (Z.of_nat offset) (Z.of_nat (offset + length B)) (foldl xor32 x (drop (g - offset) B)))
           end).
Proof.
  intros Hog Hg Hcm H63 He Hptr. unfold first_byte in *.
  unfold DoFindNextCutMark, detector. cbn [minimal_chunk_size_ last_cut_ xor32_ptr_ offset_ maximal_chunk_size_ xor32_].
  unfold kXor32Window. rewrite gtb_true by lia. exec.
  rewrite (u64_small (Z.of_nat minimal - 32)) by (unfold is_u64; lia). rewrite (u64_small (Z.of_nat cut + _)) by (unfold is_u64; lia).
  replace (Z.of_nat cut + (Z.of_nat minimal - 32)) with (Z.of_nat (cut + minimal - 32)) by lia. rewrite Hptr.
  unfold zlen. rewrite (u64_small (Z.of_nat offset + _)) by (unfold is_u64; lia). rewrite geb_false by lia.
  rewrite (u64_small (Z.of_nat g - _)) by (unfold is_u64; lia). rewrite ltb_true by lia. exec.
  rewrite (u64_small (Z.of_nat cut + Z.of_nat minimal)) by (unfold is_u64; lia). rewrite i64_u64, (i64_small (_ - Z.of_nat offset)) by lia.
  rewrite i64_small by lia. rewrite leb_true by lia. exec.
  set (R := drop (g - offset) B). assert (length R = offset + length B - g)%nat as HR by (unfold R; rewrite length_drop; lia).
  set (pre := (cut + minimal - g)%nat). set (n1 := Nat.min pre (length R)).
  replace (Z.to_nat (Z.min (Z.of_nat cut + Z.of_nat minimal - Z.of_nat offset) (Z.of_nat (length B)) - (Z.of_nat g - Z.of_nat offset))) with n1 by lia.
  replace (Z.of_nat g - Z.of_nat offset) with (Z.of_nat (g - offset)) by lia.
  rewrite precompute_ok by lia. exec. fold R.
  replace (Z.max (Z.of_nat (g - offset)) (Z.min (Z.of_nat cut + Z.of_nat minimal - Z.of_nat offset) (Z.of_nat (length B))))
    with (Z.of_nat (g - offset + n1)) by lia.
  rewrite (u64_small (Z.of_nat cut + Z.of_nat maximal - _)) by (unfold is_u64; lia).
  set (room := (cut + maximal - Nat.max g (cut + minimal))%nat).
  set (n2 := Nat.min room (length B - (g - offset + n1))).
  replace (Z.to_nat (Z.min (Z.of_nat cut + Z.of_nat maximal - Z.of_nat offset) (Z.of_nat (length B)) - Z.of_nat (g - offset + n1))) with n2 by lia.
  assert (foldl xor32 x (take n1 R) = foldl xor32 x (take pre R)) as ->.
  { unfold n1. destruct (decide (pre ≤ length R)%nat); [by rewrite Nat.min_l by lia|]. by rewrite Nat.min_r, !take_ge by lia. }
  assert (drop (g - offset + n1) B = drop pre R) as Hdrop.
  { unfold R. rewrite drop_drop. unfold n1. destruct (decide (pre ≤ length R)%nat); [by rewrite Nat.min_l by lia|]. by rewrite !drop_ge by lia. }
  destruct (search_ok (mkDetector (Z.of_nat minimal) average (Z.of_nat maximal) threshold (Z.of_nat cut) (Z.of_nat offset) ptr x)
    B n2 eq_refl room (g - offset + n1) (foldl xor32 x (take pre R)) (g + pre)) as (found & j & x' & -> & Hscan & Hno & Hj); [lia|lia|].
  exec. rewrite Hdrop in *. unfold phase. rewrite Hscan.
  replace (Z.of_nat (g - offset + n1 + j) =? Z.of_nat cut + Z.of_nat maximal - Z.of_nat offset) with (j =? room)%nat
    by (apply eq_bool_prop_intro; rewrite !Is_true_true, Nat.eqb_eq, Z.eqb_eq; lia).
  rewrite u64_small by (unfold is_u64; cbn; lia). cbn [set_xor32 offset_].
  destruct (found || (j =? room)%nat) eqn:Hcut.
  - assert (n1 = pre) as ->.
    { destruct (decide (pre ≤ length R)%nat); [lia|]. exfalso. rewrite (drop_ge R) in Hscan by lia. destruct room eqn:?; [lia|done]. }
    replace (g - offset + pre + j + offset)%nat with (g + pre + j)%nat by lia. unfold DoCut. cbn.
    replace (Z.of_nat (g - offset + pre + j) + Z.of_nat offset) with (Z.of_nat (g + pre + j)) by lia. done.
  - apply orb_false_iff in Hcut as [-> Hroom%Nat.eqb_neq]. destruct (Hno eq_refl) as [-> ->]. unfold NoCut. cbn.
    rewrite (take_ge (drop pre R)) by (rewrite length_drop; lia). rewrite <- foldl_app, take_drop.
    by replace (Z.of_nat (g - offset + n1 + n2) + Z.of_nat offset) with (Z.of_nat (offset + length B)) by lia.
Qed.

(** Nothing of the block counts yet. *)
Lemma skip_ok cut offset ptr x B g : (offset + length B ≤ g)%nat → Z.of_nat g < 2 ^ 63 →
  Z.max (Z.of_nat (first_byte minimal cut)) ptr = Z.of_nat g → Z.of_nat (cut + minimal) < 2 ^ 63 →
  DoFindNextCutMark (detector cut (Z.of_nat offset) ptr x) B = Ret (0, detector cut (Z.of_nat offset) (Z.of_nat g) x).
Proof.
  intros Hle Hg Hptr Hcut. unfold first_byte in *.
  unfold DoFindNextCutMark, detector. cbn [minimal_chunk_size_ last_cut_ xor32_ptr_ offset_ maximal_chunk_size_ xor32_].
  unfold kXor32Window. rewrite gtb_true by lia. exec.
  rewrite (u64_small (Z.of_nat minimal - 32)) by (unfold is_u64; lia). rewrite (u64_small (Z.of_nat cut + _)) by (unfold is_u64; lia).
  replace (Z.of_nat cut + (Z.of_nat minimal - 32)) with (Z.of_nat (cut + minimal - 32)) by lia. rewrite Hptr.
  rewrite (u64_small (Z.of_nat offset + _)) by (unfold is_u64, zlen; lia). by rewrite geb_true by (unfold zlen; lia).
Qed.

(** Calling [FindNextCutMark] with the next block. *)
Lemma FindNextCutMark_ok cut S ptr x B : detector_ok cut S ptr x → B ≠ [] → (cut ≤ length (S ++ B))%nat → zlen (S ++ B) < 2 ^ 62 →
  ∃ ptr' x', match marks (S ++ B) cut with
    | Some k => FindNextCutMark (detector cut (zlen S) ptr x) B = Ret (Z.of_nat k, detector k (zlen S) ptr' x') ∧
        detector_ok k S ptr' x' ∧ (length S ≤ k)%nat
    | None => FindNextCutMark (detector cut (zlen S) ptr x) B = Ret (0, detector cut (zlen (S ++ B)) ptr' x') ∧
        detector_ok cut (S ++ B) ptr' x'
    end.
Proof.
  intros (Hptr & Hx & HS) HB Hcut H62. apply zlen_pos in HB as HB0. apply marks_None_short in HS as Hshort.
  unfold detector_ok, marks in *. set (g := Nat.max (first_byte minimal cut) (length S)).
  assert (Z.max (Z.of_nat (first_byte minimal cut)) ptr = Z.of_nat g) as Hg by (rewrite Hptr; unfold zlen; lia).
  pose proof (next_cut_app hits minimal maximal Hmin Hmax S B cut HS) as Happ. cbn zeta in Happ. fold g in Happ. rewrite <- Hx in Happ.
  assert (drop (first_byte minimal cut) (S ++ B) = drop (first_byte minimal cut) S ++ drop (g - length S) B) as Hdrop.
  { rewrite drop_app. by replace (g - length S)%nat with (first_byte minimal cut - length S)%nat by lia. }
  unfold FindNextCutMark, zlen in *. rewrite length_app in *. rewrite Hdrop, foldl_app, <- Hx.
  destruct (decide (length S + length B ≤ g)%nat) as [Hle|Hgt].
  - rewrite (next_cut_short hits minimal maximal Hmin Hmax) by (rewrite length_app; unfold first_byte in *; lia).
    exists (Z.of_nat g), x. rewrite (skip_ok _ _ _ _ _ g) by (unfold first_byte in *; lia). exec. rewrite (drop_ge B) by lia. cbn -[Z.pow].
    rewrite u64_small by (unfold is_u64; lia). rewrite Nat2Z.inj_add. split_and!; [done|unfold first_byte in *; lia|done|done].
  - rewrite (loops_ok cut (length S) ptr x B g) by (unfold first_byte in *; lia). exec. rewrite Happ.
    destruct (phase _ _ _ _ _ _) as [k|] eqn:Hk.
    + apply next_cut_range in Happ as Hr; [|done|done]. apply (next_cut_new _ _ _ Hmin Hmax) in Happ as Hnew; [|done].
      exists (Z.of_nat k), 0. rewrite eqb_false by lia. split_and!; [done|unfold first_byte in *; lia| | |done].
      * rewrite drop_ge by (unfold first_byte in *; lia). done.
      * apply next_cut_short; [done|done|]. lia.
    + exists (Z.of_nat (length S + length B)), (foldl xor32 x (drop (g - length S) B)). change (0 =? 0) with true. cbn iota.
      cbn [minimal_chunk_size_ average_chunk_size_ maximal_chunk_size_ threshold_ last_cut_ xor32_ptr_ offset_ xor32_ detector].
      rewrite u64_small by (unfold is_u64; lia). rewrite Nat2Z.inj_add. split_and!; [done|lia|done|done].
Qed.

(** ** All marks of a file *)

(** Data that follows does not change a mark. *)
Lemma marks_app S B cut k : marks S cut = Some k → marks (S ++ B) cut = Some k.
Proof.
  unfold marks. rewrite !next_cut_phase, drop_app by done. intros Hk. by rewrite phase_app, Hk by lia.
Qed.

Lemma marks_range data cut k : marks data cut = Some k → (cut + minimal ≤ k ≤ cut + maximal)%nat ∧ (k ≤ length data)%nat.
Proof. by apply next_cut_range. Qed.

Fixpoint cuts_from (fuel : nat) (data : bytes) (cut : nat) : list nat :=
  match fuel with
  | O => []
  | S fuel => match marks data cut with Some k => k :: cuts_from fuel data k | None => [] end
  end.

Definition cuts (data : bytes) : list nat := cuts_from (length data) data 0.

(** The marks from [cut] on that are found in [data], up to the last one. *)
Inductive chain (data : bytes) : nat → list nat → nat → Prop :=
  | chain_nil cut : chain data cut [] cut
  | chain_cons cut k ks last : marks data cut = Some k → chain data k ks last → chain data cut (k :: ks) last.

Lemma chain_snoc data cut ks k k' : chain data cut ks k → marks data k = Some k' → chain data cut (ks ++ [k']) k'.
Proof. induction 1 as [|cut j ks last Hj _ IH]; intros Hk; cbn; econstructor; [done|constructor|done|by apply IH]. Qed.

Lemma chain_app data more cut ks last : chain data cut ks last → chain (data ++ more) cut ks last.
Proof. induction 1; econstructor; [by apply marks_app|done]. Qed.

Lemma chain_length data cut ks last : chain data cut ks last → (cut + length ks ≤ last)%nat ∧ (ks = [] ∨ last ≤ length data)%nat.
Proof.
  induction 1 as [|cut k ks last Hk Hc IH]; [cbn; split; [lia|by left]|]. apply marks_range in Hk as [Hr Hl]. cbn. split; [lia|].
  right. destruct IH as [_ [->|?]]; [inversion Hc; subst; lia|done].
Qed.

Lemma chain_cuts data cut ks last fuel : chain data cut ks last → marks data last = None → (length ks < fuel)%nat ∨ (length ks = 0 ∧ fuel = 0)%nat →
  cuts_from fuel data cut = ks.
Proof.
  intros Hc. revert fuel. induction Hc as [cut|cut k ks last Hk Hc IH]; intros fuel Hn Hf.
  - destruct fuel; [done|]. cbn. by rewrite Hn.
  - destruct fuel as [|fuel]; [cbn in Hf; lia|]. cbn. rewrite Hk. f_equal. apply IH; [done|].
    cbn in Hf. destruct (length ks); [destruct fuel; lia|lia].
Qed.

Lemma chain_all data ks last : chain data 0 ks last → marks data last = None → cuts data = ks.
Proof.
  intros Hc Hn. apply (chain_cuts _ _ _ last); [done|done|].
  destruct ks as [|k ks]; [destruct (length data); cbn; lia|]. left.
  pose proof (chain_length _ _ _ _ Hc) as [Hl [?|Hlast]]; [done|]. inversion Hc as [|? ? ? ? Hk Hc']; subst.
  apply marks_range in Hk as [Hr _]. apply chain_length in Hc' as [Hl' _]. cbn. lia.
Qed.
End Detector.

(** ** The interval of the checksum *)

(** The checksum hits if it is near the middle of its range, as the comments say:
    the overflow of the difference makes up for reading it as a signed number. *)
Lemma hits_interval threshold x : 0 ≤ x < 2 ^ 32 - 1 → hits threshold x = (Z.abs (x - kMagicNumber) <? threshold).
Proof.
  intros Hx. unfold hits, abs_i32, kMagicNumber. f_equal. change ((2 ^ 32 - 1) / 2) with 2147483647. unfold i32.
  destruct (Z.ltb_spec x (2 ^ 31)).
  - rewrite (Z.mod_small (x + 2 ^ 31)) by lia. rewrite (Z.mod_small (x + 2 ^ 31 - 2 ^ 31 - 2147483647 + 2 ^ 31)) by lia.
    rewrite Z.mod_small by lia. lia.
  - replace ((x + 2 ^ 31) mod 2 ^ 32) with (x - 2 ^ 31) by dlia.
    replace ((x - 2 ^ 31 - 2 ^ 31 - 2147483647 + 2 ^ 31) mod 2 ^ 32) with (x + 1) by dlia.
    rewrite Z.mod_small by lia. lia.
Qed.

(** The largest value is far from the middle, but [abs] of the smallest number is
    negative: it is always a mark. *)
Lemma all_ones_hit threshold : 0 ≤ threshold → hits threshold (2 ^ 32 - 1) = true.
Proof. intros Ht. unfold hits. change (abs_i32 _) with (- 2 ^ 31). apply ltb_true. lia. Qed.


(** ** The window of the checksum *)

Lemma u32_land z : u32 z = Z.land z (Z.ones 32).
Proof. unfold u32. by rewrite Z.land_ones by lia. Qed.

Lemma u32_lxor a b : u32 (Z.lxor a b) = Z.lxor (u32 a) (u32 b).
Proof.
  rewrite !u32_land. apply Z.bits_inj'. intros n Hn. rewrite !Z.land_spec, !Z.lxor_spec, !Z.land_spec.
  by destruct (Z.testbit a n), (Z.testbit b n), (Z.testbit (Z.ones 32) n).
Qed.

Lemma u32_shift z n : 0 ≤ n → u32 (Z.shiftl (u32 z) n) = u32 (Z.shiftl z n).
Proof. intros Hn. unfold u32. rewrite !Z.shiftl_mul_pow2 by done. by rewrite Zmult_mod_idemp_l. Qed.

(** What the checksum was before moves up by one bit with every byte. *)
Lemma xor32_linear W : ∀ c a, foldl xor32 (Z.lxor (u32 c) a) W = Z.lxor (u32 (Z.shiftl c (zlen W))) (foldl xor32 a W).
Proof.
  induction W as [|b W IH]; intros c a; cbn [foldl]; [by rewrite Z.shiftl_0_r|].
  replace (xor32 (Z.lxor (u32 c) a) b) with (Z.lxor (u32 (Z.shiftl c 1)) (xor32 a b)).
  - rewrite IH, Z.shiftl_shiftl by lia. by rewrite zlen_cons.
  - unfold xor32. rewrite Z.shiftl_lxor, u32_lxor, u32_shift by lia. by rewrite Z.lxor_assoc.
Qed.

(** The checksum depends on the last 32 bytes only. *)
Lemma xor32_window x A W : (32 ≤ length W)%nat → foldl xor32 x (A ++ W) = foldl xor32 0 W.
Proof.
  intros HW. rewrite foldl_app. set (y := foldl xor32 x A).
  assert (foldl xor32 y W = foldl xor32 (Z.lxor (u32 y) 0) W) as ->.
  { rewrite Z.lxor_0_r. destruct W as [|b W]; [cbn in HW; lia|]. cbn. f_equal. unfold xor32. by rewrite u32_shift by lia. }
  rewrite xor32_linear. replace (u32 (Z.shiftl y (zlen W))) with 0; [done|].
  symmetry. unfold u32. rewrite Z.shiftl_mul_pow2 by (unfold zlen; lia). replace (zlen W) with (zlen W - 32 + 32) by lia.
  rewrite Z.pow_add_r by (unfold zlen; lia). rewrite Z.mul_assoc. by apply Z.mod_mul.
Qed.

Section MarksSpec.
Context (minimal maximal : nat) (threshold : Z).
Hypothesis Hmin : (32 ≤ minimal)%nat.
Hypothesis Hmax : (minimal < maximal)%nat.

(** The checksum of the 32 bytes up to position [k] hits. *)
Definition hit_at (data : bytes) (k : nat) : bool := hits threshold (foldl xor32 0 (take 32 (drop (k - 31) data))).

Lemma scan_spec room : ∀ x data pos k, scan (hits threshold) room x data pos = Some k ↔
  ∃ j, k = (pos + j)%nat ∧ (∀ i, (i < j)%nat → hits threshold (foldl xor32 x (take (S i) data)) = false) ∧
    ((j = room ∧ j ≤ length data)%nat ∨ (j < room ∧ j < length data)%nat ∧ hits threshold (foldl xor32 x (take (S j) data)) = true).
Proof.
  induction room as [|room IH]; intros x data pos k.
  { cbn. split; [|intros (j & -> & _ & [[-> _]|[[? _] _]]); [destruct data; f_equal; lia|lia]].
    intros Hk. assert (k = pos) as -> by (destruct data; congruence). exists 0%nat. split; [lia|]. split; [lia|]. left. lia. }
  destruct data as [|b data]; cbn [scan].
  { split; [done|]. intros (j & _ & _ & [[-> Hj]|[[_ Hj] _]]); cbn in Hj; lia. }
  destruct (hits threshold (xor32 x b)) eqn:Hb.
  - split.
    + intros [= <-]. exists 0%nat. split; [lia|]. split; [lia|]. right. split; [cbn; lia|done].
    + intros (j & -> & Hno & _). destruct j as [|j]; [f_equal; lia|]. specialize (Hno 0%nat ltac:(lia)). change (hits threshold (xor32 x b) = false) in Hno. congruence.
  - rewrite IH. split.
    + intros (j & -> & Hno & Hend). exists (S j). split; [lia|]. split.
      * intros [|i] Hi; [done|]. apply Hno. lia.
      * destruct Hend as [[-> Hl]|[[H1 H2] Hh]]; [left; cbn; lia|right; split; [cbn; lia|done]].
    + intros ([|j] & -> & Hno & Hend).
      * destruct Hend as [[? _]|[_ Hh]]; [lia|]. change (hits threshold (xor32 x b) = true) in Hh. congruence.
      * exists j. split; [lia|]. split; [intros i Hi; apply (Hno (S i)); lia|].
        destruct Hend as [[? Hl]|[[H1 H2] Hh]]; [left; cbn in Hl; lia|right; cbn in H2; split; [lia|done]].
Qed.

(** Past the window, the checksum that the search carries along is that of the last 32 bytes. *)
Lemma carried_checksum data cut j : (cut + minimal + j < length data)%nat →
  hits threshold (foldl xor32 (foldl xor32 0 (take 32 (drop (cut + minimal - 32) data))) (take (S j) (drop (cut + minimal) data)))
  = hit_at data (cut + minimal + j).
Proof.
  intros Hj. unfold hit_at. f_equal. rewrite <- foldl_app.
  replace (drop (cut + minimal) data) with (drop 32 (drop (cut + minimal - 32) data)) by (rewrite drop_drop; f_equal; lia).
  set (E := drop (cut + minimal - 32) data). rewrite take_take_drop. replace (32 + S j)%nat with (S j + 32)%nat by lia.
  rewrite <- (take_take_drop E (S j) 32). rewrite xor32_window.
  - unfold E. rewrite drop_drop. by replace (cut + minimal - 32 + S j)%nat with (cut + minimal + j - 31)%nat by lia.
  - unfold E. rewrite length_take, !length_drop. lia.
Qed.

(** [k] is the next mark after the one at [cut]: it is the first position, not nearer
    than the minimal size, at which the checksum of the last 32 bytes hits; if there
    is none within the maximal size, it is at that distance. *)
Definition is_mark (data : bytes) (cut k : nat) : Prop :=
  (cut + minimal ≤ k ≤ cut + maximal)%nat ∧
  (∀ i, (cut + minimal ≤ i < k)%nat → hit_at data i = false) ∧
  ((k = cut + maximal)%nat ∧ (k ≤ length data)%nat ∨ (k < cut + maximal)%nat ∧ (k < length data)%nat ∧ hit_at data k = true).

Lemma marks_spec data cut k : marks minimal maximal threshold data cut = Some k ↔ is_mark data cut k.
Proof.
  unfold is_mark, marks, next_cut. rewrite scan_spec, length_drop. split.
  - intros (j & -> & Hno & Hend). split; [lia|]. split.
    + intros i Hi. replace i with (cut + minimal + (i - cut - minimal))%nat by lia. rewrite <- carried_checksum by lia. apply Hno. lia.
    + destruct Hend as [[Hj Hl]|[[Hj Hl] Hh]]; [left; lia|right]. split; [lia|]. split; [lia|]. by rewrite <- carried_checksum by lia.
  - intros (Hk & Hno & Hend). exists (k - cut - minimal)%nat. split; [lia|]. split.
    + intros i Hi. rewrite carried_checksum by lia. apply Hno. lia.
    + destruct Hend as [[Hj Hl]|(Hj & Hl & Hh)]; [left; lia|right]. split; [lia|]. rewrite carried_checksum by lia.
      by replace (cut + minimal + (k - cut - minimal))%nat with k by lia.
Qed.

Lemma scan_shift hit room : ∀ x data pos n, scan hit room x data (n + pos) = (λ k, n + k)%nat <$> scan hit room x data pos.
Proof.
  induction room as [|room IH]; intros x data pos n; [by destruct data|]. destruct data as [|b data]; [done|]. cbn [scan].
  destruct (hit _); [done|]. by rewrite <- IH, Nat.add_succ_r.
Qed.

(** The same data gives the same marks wherever it stands in a file: what precedes
    the last mark does not matter. *)
Theorem marks_shift prefix data cut :
  marks minimal maximal threshold (prefix ++ data) (length prefix + cut) = (λ k, length prefix + k)%nat <$> marks minimal maximal threshold data cut.
Proof.
  unfold marks, next_cut. rewrite <- scan_shift, (Nat.add_assoc (length prefix)).
  replace (length prefix + cut + minimal - 32)%nat with (length prefix + (cut + minimal - 32))%nat by lia.
  by rewrite <- !(Nat.add_assoc (length prefix)), !drop_app_add.
Qed.
End MarksSpec.

(** C22. The detector finds the marks. The data [S] of a file has been seen without a
    mark after the one at [cut], and the next block [B] comes: the answer is the
    first position, not nearer to [cut] than the minimal size, at which the checksum
    of the last 32 bytes hits; if there is none within the maximal size, it is that
    distance; 0 says that there is no mark yet.  How the file came in blocks, and
    how often the checksum was interrupted, does not matter. *)
Theorem cut_mark_found mn mx av threshold cut S ptr x B : (32 ≤ mn < mx)%nat → Z.of_nat mx < 2 ^ 62 →
  detector_ok mn mx threshold cut S ptr x → B ≠ [] → (cut ≤ length (S ++ B))%nat → zlen (S ++ B) < 2 ^ 62 →
  ∃ k d', FindNextCutMark (detector mn mx av threshold cut (zlen S) ptr x) B = Ret (Z.of_nat k, d') ∧
    ((0 < k)%nat ∧ is_mark mn mx threshold (S ++ B) cut k ∨ k = 0%nat ∧ ∀ j, ¬ is_mark mn mx threshold (S ++ B) cut j).
Proof.
  intros [Hmin Hmax] H62 Hok HB Hcut Hlen.
  destruct (FindNextCutMark_ok mn mx av threshold Hmin Hmax H62 cut S ptr x B Hok HB Hcut Hlen) as (ptr' & x' & HF).
  pose proof (λ k, marks_spec mn mx threshold Hmin Hmax (S ++ B) cut k) as Hspec.
  destruct (marks mn mx threshold (S ++ B) cut) as [k|].
  - destruct HF as (HF & _). exists k, (detector mn mx av threshold k (zlen S) ptr' x'). split; [done|]. left.
    pose proof (proj1 (Hspec k) eq_refl) as Hk. split; [destruct Hk; lia|done].
  - destruct HF as (HF & _). exists 0%nat. eexists. split; [exact HF|]. right. split; [done|]. intros j Hj%Hspec. done.
Qed.

(** 20 bytes, then 30 more: the minimal size is passed in the second block. *)
Lemma cut_mark_found_witness : ∃ k d', FindNextCutMark (detector 32 64 40 (2 ^ 31 - 1) 0 20 20 (foldl xor32 0 (replicate 20 7))) (replicate 30 7) = Ret (Z.of_nat k, d') ∧
  (0 < k)%nat ∧ is_mark 32 64 (2 ^ 31 - 1) (replicate 20 7 ++ replicate 30 7) 0 k.
Proof.
  destruct (cut_mark_found 32 64 40 (2 ^ 31 - 1) 0 (replicate 20 7) 20 (foldl xor32 0 (replicate 20 7)) (replicate 30 7)) as (k & d' & HF & Hk).
  - lia.
  - lia.
  - by vm_compute.
  - done.
  - cbn. lia.
  - by vm_compute.
  - exists k, d'. split; [exact HF|]. destruct Hk as [Hk|[-> _]]; [exact Hk|]. vm_compute in HF. congruence.
Defined.
