(* ===== verification/Ingestion.v ===== *)
(** * The ingestion pipeline (src/cvmfs/ingestion)

    Files that are published pass through a pipeline of tasks: [TaskRead] cuts them
    into blocks, [TaskChunk] assigns the blocks to chunks, [TaskCompress] and
    [TaskHash] process the chunks, [TaskWrite] hands them to the uploader.  Blocks
    with the same tag stay in order, since they are put in the same tube; blocks
    with different tags overtake each other.  Therefore each task is a function on
    blocks in any order, and the theorems are about the blocks of one tag.  This file
    holds [TaskRead] and [TaskChunk]; the later tasks are in Stages. *)

From stdpp Require Import base numbers list gmap.
From S2P Require Import Prelude Bytes ChunkDetector.

Open Scope Z_scope.

(** ** Items (item.h, item.cc) *)

Inductive BlockType := kBlockHollow | kBlockData | kBlockStop.
#[global] Instance BlockType_eq_dec : EqDecision BlockType.
Proof. solve_decision. Defined.

(** A block has one owner at a time; files and chunks are shared and named by
    their addresses. *)
Record BlockItem := mkBlock { bl_type : BlockType; bl_tag : Z; bl_file : Z; bl_chunk : option Z; bl_data : bytes }.

Record FileItem := mkFile {
  fl_size : Z;
  may_have_chunks_ : bool;
  has_legacy_bulk_chunk_ : bool;
  chunk_detector_ : Xor32Detector;
  nchunks_in_fly_ : Z;
  is_fully_chunked_ : Z
}.

Record ChunkItem := mkChunk { ck_file : Z; ck_offset : Z; ck_size : Z; is_bulk_chunk_ : bool }.

Definition kSizeUnknown : Z := 2 ^ 64 - 1.

Definition new_file (min_chunk_size avg_chunk_size max_chunk_size : Z) (may_have_chunks has_legacy_bulk_chunk : bool) : outcome FileItem :=
  d ← new_detector min_chunk_size avg_chunk_size max_chunk_size;
  Ret (mkFile kSizeUnknown may_have_chunks has_legacy_bulk_chunk d 0 0).

Definition IncNchunksInFly (f : FileItem) : FileItem :=
  mkFile (fl_size f) (may_have_chunks_ f) (has_legacy_bulk_chunk_ f) (chunk_detector_ f) (nchunks_in_fly_ f + 1) (is_fully_chunked_ f).

Definition set_is_fully_chunked (f : FileItem) : FileItem :=
  mkFile (fl_size f) (may_have_chunks_ f) (has_legacy_bulk_chunk_ f) (chunk_detector_ f) (nchunks_in_fly_ f) (is_fully_chunked_ f + 1).

Definition set_detector (f : FileItem) (d : Xor32Detector) : FileItem :=
  mkFile (fl_size f) (may_have_chunks_ f) (has_legacy_bulk_chunk_ f) d (nchunks_in_fly_ f) (is_fully_chunked_ f).

Definition MakeDataCopy (tag file : Z) (chunk : option Z) (data : bytes) : outcome BlockItem :=
  _ ← cassert (zlen data >? 0);
  Ret (mkBlock kBlockData tag file chunk data).

Definition stop_block (tag file : Z) (chunk : option Z) : BlockItem := mkBlock kBlockStop tag file chunk [].

(** ** [TaskRead] (task_read.cc) *)

(** [reads] are the results of [Read], up to the one that returns 0 at the end of
    the file. *)
Fixpoint read_blocks (tag file : Z) (reads : list bytes) : outcome (list BlockItem) :=
  match reads with
  | [] => Ret [stop_block tag file None]
  | data :: reads =>
      if zlen data =? 0 then Ret [stop_block tag file None]
      else
        block ← MakeDataCopy tag file None data;
        blocks ← read_blocks tag file reads;
        Ret (block :: blocks)
  end.

(** [size] is what [GetSize] returns.  The file is open; the throttling by the
    watermarks, which only delays, is left out. *)
Definition TaskRead_Process (f : FileItem) (file tag size : Z) (reads : list bytes) : outcome (list BlockItem * FileItem) :=
  let may_have_chunks := may_have_chunks_ f && MightFindChunks (chunk_detector_ f) size in
  let f := mkFile size may_have_chunks (has_legacy_bulk_chunk_ f) (chunk_detector_ f) (nchunks_in_fly_ f) (is_fully_chunked_ f) in
  blocks ← read_blocks tag file reads;
  Ret (blocks, f).

(** ** [TaskChunk] (task_chunk.h, task_chunk.cc) *)

Record ChunkInfo := mkInfo {
  ci_offset : Z;
  output_tag_chunk : Z;
  output_tag_bulk : Z;
  next_chunk : option Z;
  bulk_chunk : option Z
}.

(** The files, the chunks, the address of the next new chunk, the tags of the
    blocks, and the chunks of the files that are being processed. *)
Record TaskChunk := mkTask {
  files : gmap Z FileItem;
  chunks : gmap Z ChunkItem;
  next_address : Z;
  tag_seq_ : Z;
  tag_map_ : gmap Z ChunkInfo
}.

Definition get_file (s : TaskChunk) (f : Z) : outcome FileItem :=
  match files s !! f with Some x => Ret x | None => Fail OutOfBounds end.
Definition get_chunk (s : TaskChunk) (c : Z) : outcome ChunkItem :=
  match chunks s !! c with Some x => Ret x | None => Fail OutOfBounds end.

Definition put_file (s : TaskChunk) (f : Z) (x : FileItem) : TaskChunk :=
  mkTask (<[f := x]> (files s)) (chunks s) (next_address s) (tag_seq_ s) (tag_map_ s).
Definition put_chunk (s : TaskChunk) (c : Z) (x : ChunkItem) : TaskChunk :=
  mkTask (files s) (<[c := x]> (chunks s)) (next_address s) (tag_seq_ s) (tag_map_ s).
Definition put_info (s : TaskChunk) (m : gmap Z ChunkInfo) : TaskChunk :=
  mkTask (files s) (chunks s) (next_address s) (tag_seq_ s) m.

(** [new ChunkItem(file_item, offset)] *)
Definition new_chunk (s : TaskChunk) (f offset : Z) : outcome (Z * TaskChunk) :=
  x ← get_file s f;
  let a := next_address s in
  Ret (a, mkTask (<[f := IncNchunksInFly x]> (files s)) (<[a := mkChunk f offset 0 false]> (chunks s)) (a + 1) (tag_seq_ s) (tag_map_ s)).

Definition fetch_tag (s : TaskChunk) : Z * TaskChunk :=
  (tag_seq_ s, mkTask (files s) (chunks s) (next_address s) (tag_seq_ s + 1) (tag_map_ s)).

Definition set_size (s : TaskChunk) (c size : Z) : outcome TaskChunk :=
  x ← get_chunk s c;
  _ ← cassert (ck_size x =? 0);
  Ret (put_chunk s c (mkChunk (ck_file x) (ck_offset x) size (is_bulk_chunk_ x))).

Definition MakeBulkChunk (s : TaskChunk) (c : Z) : outcome TaskChunk :=
  x ← get_chunk s c;
  Ret (put_chunk s c (mkChunk (ck_file x) (ck_offset x) (ck_size x) true)).

(** The state for a file whose first block arrives. *)
Definition start_file (s : TaskChunk) (f : Z) : outcome (ChunkInfo * TaskChunk) :=
  x ← get_file s f;
  '(next, tag, s) ← (if may_have_chunks_ x then
                       '(c, s) ← new_chunk s f 0;
                       let '(t, s) := fetch_tag s in
                       Ret (Some c, t, s)
                     else Ret (None, -1, s));
  if negb (may_have_chunks_ x) || has_legacy_bulk_chunk_ x then
    '(c, s) ← new_chunk s f 0;
    s ← MakeBulkChunk s c;
    s ← set_size s c (fl_size x);
    let '(t, s) := fetch_tag s in
    Ret (mkInfo 0 tag t next (Some c), s)
  else Ret (mkInfo 0 tag (-1) next None, s).

(** The loop over the cut marks in a block. *)
Fixpoint chunk_loop (fuel : nat) (s : TaskChunk) (f : Z) (info : ChunkInfo) (c : Z) (data : bytes) (offset_in_block : Z) (out : list BlockItem)
    : outcome (list BlockItem * Z * ChunkInfo * Z * TaskChunk) :=
  match fuel with
  | O => Fail OutOfFuel
  | S fuel =>
      x ← get_file s f;
      '(cut_mark, d) ← FindNextCutMark (chunk_detector_ x) data;
      let s := put_file s f (set_detector x d) in
      if cut_mark =? 0 then Ret (out, offset_in_block, info, c, s)
      else
        _ ← cassert (cut_mark >=? u64 (ci_offset info + offset_in_block));
        let cut_mark_in_block := u64 (cut_mark - ci_offset info) in
        _ ← cassert (cut_mark_in_block >=? offset_in_block);
        _ ← cassert (cut_mark_in_block <=? zlen data);
        let tail_size := u32 (cut_mark_in_block - offset_in_block) in
        out ← (if tail_size >? 0 then
                 bytes ← load data offset_in_block tail_size;
                 block_tail ← MakeDataCopy (output_tag_chunk info) f (Some c) bytes;
                 Ret (out ++ [block_tail])
               else Ret out);
        x ← get_chunk s c;
        _ ← cassert (cut_mark >=? ck_offset x);
        y ← get_file s f;
        if cut_mark <? fl_size y then
          s ← set_size s c (u64 (cut_mark - ck_offset x));
          let out := out ++ [stop_block (output_tag_chunk info) f (Some c)] in
          '(c, s) ← new_chunk s f cut_mark;
          let '(t, s) := fetch_tag s in
          let info := mkInfo (ci_offset info) t (output_tag_bulk info) (Some c) (bulk_chunk info) in
          chunk_loop fuel s f info c data (u32 cut_mark_in_block) out
        else chunk_loop fuel s f info c data (u32 cut_mark_in_block) out
  end.

Definition chunk_stop (s : TaskChunk) (input : BlockItem) (info : ChunkInfo) : outcome (list BlockItem * TaskChunk) :=
  let f := bl_file input in
  x ← get_file s f;
  let s := put_file s f (set_is_fully_chunked x) in
  '(out, s) ← (match next_chunk info with
               | None => Ret ([], s)
               | Some c =>
                   y ← get_chunk s c;
                   _ ← cassert (fl_size x >=? ck_offset y);
                   s ← set_size s c (u64 (fl_size x - ck_offset y));
                   Ret ([stop_block (output_tag_chunk info) f (Some c)], s)
               end);
  let s := put_info s (delete (bl_tag input) (tag_map_ s)) in
  Ret (match bulk_chunk info with Some c => out ++ [stop_block (output_tag_bulk info) f (Some c)] | None => out end, s).

Definition chunk_data (s : TaskChunk) (input : BlockItem) (info : ChunkInfo) : outcome (list BlockItem * TaskChunk) :=
  let f := bl_file input in
  let data := bl_data input in
  bulk ← (match bulk_chunk info with
          | None => Ret []
          | Some c => block ← MakeDataCopy (output_tag_bulk info) f (Some c) data; Ret [block]
          end);
  '(out, info, s) ← (match next_chunk info with
                     | None => Ret ([], info, s)
                     | Some c =>
                         '(out, offset_in_block, info, c, s) ← chunk_loop (S (length data)) s f info c data 0 [];
                         let offset := u64 (ci_offset info + offset_in_block) in
                         _ ← cassert (zlen data >=? offset_in_block);
                         let tail_size := u32 (zlen data - offset_in_block) in
                         '(out, offset) ← (if tail_size >? 0 then
                                             bytes ← load data offset_in_block tail_size;
                                             block_tail ← MakeDataCopy (output_tag_chunk info) f (Some c) bytes;
                                             Ret (out ++ [block_tail], u64 (offset + tail_size))
                                           else Ret (out, offset));
                         Ret (out, mkInfo offset (output_tag_chunk info) (output_tag_bulk info) (next_chunk info) (bulk_chunk info), s)
                     end);
  Ret (out ++ bulk, put_info s (<[bl_tag input := info]> (tag_map_ s))).

Definition TaskChunk_Process (s : TaskChunk) (input : BlockItem) : outcome (list BlockItem * TaskChunk) :=
  _ ← get_file s (bl_file input);
  _ ← cassert (bl_tag input >=? 0);
  '(info, s) ← (match tag_map_ s !! bl_tag input with
                | Some info => Ret (info, s)
                | None =>
                    '(info, s) ← start_file s (bl_file input);
                    Ret (info, put_info s (<[bl_tag input := info]> (tag_map_ s)))
                end);
  _ ← cassert (bool_decide (is_Some (bulk_chunk info)) || bool_decide (is_Some (next_chunk info)));
  match bl_type input with
  | kBlockStop => chunk_stop s input info
  | kBlockData => chunk_data s input info
  | kBlockHollow => Fail AssertFailed
  end.

Fixpoint run_chunk (s : TaskChunk) (blocks : list BlockItem) : outcome (list BlockItem * TaskChunk) :=
  match blocks with
  | [] => Ret ([], s)
  | block :: blocks => '(out, s) ← TaskChunk_Process s block; '(outs, s) ← run_chunk s blocks; Ret (out ++ outs, s)
  end.
