(* ===== verification/Chunking.v ===== *)
(** * Files are cut as they should be

    [TaskChunk] of Ingestion.v on the blocks of any number of files, in any order
    that keeps the blocks of each file in sequence: every file is cut at the marks
    of its contents, and each chunk gets its part of the file. *)

From stdpp Require Import base numbers list gmap.
From S2P Require Import Prelude Bytes ChunkDetector Ingestion.

Open Scope Z_scope.

(** ** Streams of blocks *)

(** The blocks of a chunk. *)
Definition blocks_of (a : Z) (outs : list BlockItem) : list BlockItem := filter (λ b, bl_chunk b = Some a) outs.

Definition data_block (tag f a : Z) (data : bytes) : BlockItem := mkBlock kBlockData tag f (Some a) data.

(** Bytes [i] to [j] of a file. *)
Definition slice (data : bytes) (i j : nat) : bytes := take (j - i) (drop i data).

Lemma slice_app data i j k : (i ≤ j ≤ k)%nat → slice data i j ++ slice data j k = slice data i k.
Proof.
  intros Hij. unfold slice. replace (k - i)%nat with ((j - i) + (k - j))%nat by lia.
  rewrite <- (take_take_drop _ (j - i) (k - j)) , drop_drop. by replace (i + (j - i))%nat with j by lia.
Qed.

Lemma slice_nil data i : slice data i i = [].
Proof. unfold slice. by rewrite Nat.sub_diag. Qed.

Lemma slice_all data : slice data 0 (length data) = data.
Proof. unfold slice. rewrite Nat.sub_0_r, drop_0. by apply take_ge. Qed.

Lemma length_slice data i j : (j ≤ length data)%nat → length (slice data i j) = (j - i)%nat.
Proof. intros Hj. unfold slice. rewrite length_take, length_drop. lia. Qed.

(** The part of a block between two offsets. *)
Lemma slice_in_block (S B R : bytes) i j : (i ≤ j ≤ length B)%nat →
  slice (S ++ B ++ R) (length S + i) (length S + j) = take (j - i) (drop i B).
Proof.
  intros Hij. unfold slice. rewrite drop_app_ge, drop_app by lia. replace (length S + i - length S)%nat with i by lia.
  replace (length S + j - (length S + i))%nat with (j - i)%nat by lia. rewrite take_app_le; [done|]. rewrite length_drop. lia.
Qed.

(** The parts between the marks. *)
Fixpoint segments (off : nat) (ks : list nat) : list (nat * nat) :=
  match ks with
  | [] => []
  | k :: ks => (off, k) :: segments k ks
  end.

Fixpoint last_mark (off : nat) (ks : list nat) : nat :=
  match ks with
  | [] => off
  | k :: ks => last_mark k ks
  end.

Lemma last_mark_snoc ks : ∀ off k, last_mark off (ks ++ [k]) = k.
Proof. induction ks as [|j ks IH]; intros off k; [done|]. apply IH. Qed.

Lemma segments_snoc ks : ∀ off k, segments off (ks ++ [k]) = segments off ks ++ [(last_mark off ks, k)].
Proof. induction ks as [|j ks IH]; intros off k; [done|]. cbn. by rewrite IH. Qed.

Section Streams.
Context (K : Z).

(** The blocks of a chunk so far, and those of a complete one.  The tags of the
    blocks and the addresses of the chunks are handed out together. *)
Definition open_stream (outs : list BlockItem) (f a : Z) (data : bytes) : Prop :=
  ∃ datas, blocks_of a outs = (data_block (a + K) f a <$> datas) ∧ concat datas = data ∧ Forall (λ d, d ≠ []) datas.

Definition closed_stream (outs : list BlockItem) (f a : Z) (data : bytes) : Prop :=
  ∃ datas, blocks_of a outs = (data_block (a + K) f a <$> datas) ++ [stop_block (a + K) f (Some a)] ∧
    concat datas = data ∧ Forall (λ d, d ≠ []) datas.

Lemma open_data outs f a data d : open_stream outs f a data → d ≠ [] → open_stream (outs ++ [data_block (a + K) f a d]) f a (data ++ d).
Proof.
  intros (datas & Hb & Hc & Hne) Hd. exists (datas ++ [d]). unfold blocks_of in *. rewrite filter_app, Hb, fmap_app, concat_app, Hc.
  split_and!; [by rewrite filter_cons_True, filter_nil|cbn; by rewrite app_nil_r|by apply Forall_app; split; [|constructor]].
Qed.

Lemma open_stop outs f a data : open_stream outs f a data → closed_stream (outs ++ [stop_block (a + K) f (Some a)]) f a data.
Proof.
  intros (datas & Hb & Hc & Hne). exists datas. unfold blocks_of in *. rewrite filter_app, Hb.
  split_and!; [by rewrite filter_cons_True, filter_nil|done|done].
Qed.

Lemma blocks_of_app a outs new : blocks_of a (outs ++ new) = blocks_of a outs ++ blocks_of a new.
Proof. apply filter_app. Qed.

Lemma open_other outs new f a data : blocks_of a new = [] → open_stream outs f a data → open_stream (outs ++ new) f a data.
Proof. intros Hn (datas & Hb & ?). exists datas. by rewrite blocks_of_app, Hb, Hn, app_nil_r. Qed.

Lemma closed_other outs new f a data : blocks_of a new = [] → closed_stream outs f a data → closed_stream (outs ++ new) f a data.
Proof. intros Hn (datas & Hb & ?). exists datas. by rewrite blocks_of_app, Hb, Hn, app_nil_r. Qed.

Lemma open_new outs f a : blocks_of a outs = [] → open_stream outs f a [].
Proof. intros Hb. by exists []. Qed.
End Streams.

(** ** The loop over the marks in a block *)

(** Only chunk [c] of file [f] and new chunks are touched. *)
Record touched (f c : Z) (s s' : TaskChunk) (new : list BlockItem) : Prop := {
  tc_tags : tag_map_ s' = tag_map_ s;
  tc_files : ∀ f', f' ≠ f → files s' !! f' = files s !! f';
  tc_chunks : ∀ a, a ≠ c → a < next_address s → chunks s' !! a = chunks s !! a ∧ blocks_of a new = [];
  tc_next : next_address s ≤ next_address s';
  tc_blocks : ∀ b, b ∈ new → bl_file b = f ∧ ∃ a, bl_chunk b = Some a ∧ (a = c ∨ next_address s ≤ a) ∧ a < next_address s'
}.

Lemma touched_refl f c s : touched f c s s [].
Proof. split; try done. intros b []%not_elem_of_nil. Qed.

Lemma touched_trans f c c' s s1 s2 new1 new2 : touched f c s s1 new1 → touched f c' s1 s2 new2 → c' = c ∨ next_address s ≤ c' →
  touched f c s s2 (new1 ++ new2).
Proof.
  intros [Ht1 Hf1 Hc1 Hn1 Hb1] [Ht2 Hf2 Hc2 Hn2 Hb2] Hc'. split.
  - by rewrite Ht2.
  - intros f' Hf'. by rewrite Hf2, Hf1.
  - intros a Ha Hlt. destruct (Hc1 a Ha Hlt) as [E1 E2]. destruct (Hc2 a) as [E3 E4]; [lia|lia|].
    split; [by rewrite E3|]. by rewrite blocks_of_app, E2, E4.
  - lia.
  - intros b [Hb|Hb]%elem_of_app.
    + destruct (Hb1 b Hb) as (? & a & ? & ? & ?). split; [done|]. exists a. split_and!; [done|done|lia].
    + destruct (Hb2 b Hb) as (? & a & ? & ? & ?). split; [done|]. exists a. split_and!; [done|lia|done].
Qed.

Section Chunk.
Context (minimal maximal : nat) (average threshold K : Z).
Hypothesis Hmin : (32 ≤ minimal)%nat.
Hypothesis Hmax : (minimal < maximal)%nat.
Hypothesis Hsmall : Z.of_nat maximal < 2 ^ 62.

(** Addresses and tags are new. *)
Record fresh (s : TaskChunk) (outs : list BlockItem) : Prop := {
  fr_tags : tag_seq_ s = next_address s + K;
  fr_chunks : ∀ a x, chunks s !! a = Some x → a < next_address s;
  fr_blocks : ∀ b a, b ∈ outs → bl_chunk b = Some a → a < next_address s
}.

(** A chunk with bytes [off] to [end_] of the file, complete. *)
Definition chunk_done (s : TaskChunk) (outs : list BlockItem) (f : Z) (D : bytes) (seg : nat * nat) (a : Z) : Prop :=
  chunks s !! a = Some (mkChunk f (Z.of_nat seg.1) (Z.of_nat (seg.2 - seg.1)) false) ∧ closed_stream K outs f a (slice D seg.1 seg.2).

Definition inner (D : bytes) (ks : list nat) : list nat := filter (λ k, (k < length D)%nat) ks.

(** The chunks of file [f] with contents [D]: the marks [ks] up to [last] have been
    found, the detector has seen [T], the bytes up to [pos] are in the streams, and
    [c] is the current chunk. *)
Record chunks_at (s : TaskChunk) (outs : list BlockItem) (f : Z) (D T U : bytes) (x : FileItem) (info : ChunkInfo) (c : Z)
    (addrs : list Z) (ks : list nat) (last pos : nat) : Prop := {
  ca_file : files s !! f = Some x;
  ca_size : fl_size x = zlen D;
  ca_detector : ∃ ptr y, chunk_detector_ x = detector minimal maximal average threshold last (zlen T) ptr y ∧
                  detector_ok minimal maximal threshold last T ptr y;
  ca_chain : chain minimal maximal threshold U 0 ks last;
  ca_done : Forall2 (chunk_done s outs f D) (segments 0 (inner D ks)) addrs;
  ca_current : chunks s !! c = Some (mkChunk f (Z.of_nat (last_mark 0 (inner D ks))) 0 false);
  ca_stream : open_stream K outs f c (slice D (last_mark 0 (inner D ks)) pos);
  ca_pos : (last_mark 0 (inner D ks) ≤ pos)%nat;
  ca_info : output_tag_chunk info = c + K ∧ next_chunk info = Some c;
  ca_nodup : NoDup (c :: addrs)
}.

Lemma chunk_done_other s s' outs new f D seg a : chunks s' !! a = chunks s !! a → blocks_of a new = [] →
  chunk_done s outs f D seg a → chunk_done s' (outs ++ new) f D seg a.
Proof. intros Hc Hb [H1 H2]. split; [by rewrite Hc|by apply closed_other]. Qed.

Lemma Forall2_impl_elem {A B} (P Q : A → B → Prop) l l' : Forall2 P l l' → (∀ x y, y ∈ l' → P x y → Q x y) → Forall2 Q l l'.
Proof.
  induction 1 as [|x y l l' Hxy _ IH]; intros HPQ; constructor; [apply HPQ; [left|done]|]. apply IH. intros x' y' Hy. apply HPQ. by right.
Qed.

Lemma done_addr s outs f D segs addrs : Forall2 (chunk_done s outs f D) segs addrs → ∀ a, a ∈ addrs → ∃ x, chunks s !! a = Some x.
Proof. induction 1 as [|seg a segs addrs [Ha _] _ IH]; intros a' [->|Hin]%elem_of_cons || intros a' []%not_elem_of_nil; eauto. Qed.

(** The block that is written for bytes [i] to [j] of a block, if there are any. *)
Definition piece (tag f c : Z) (data : bytes) : list BlockItem :=
  match data with [] => [] | _ => [data_block tag f c data] end.

Lemma emit_ok tag f c B i j out : (i ≤ j ≤ length B)%nat → zlen B < 2 ^ 32 →
  (if u32 (Z.of_nat j - Z.of_nat i) >? 0
   then bytes ← load B (Z.of_nat i) (u32 (Z.of_nat j - Z.of_nat i)); block_tail ← MakeDataCopy tag f (Some c) bytes; Ret (out ++ [block_tail])
   else Ret out) = Ret (out ++ piece tag f c (take (j - i) (drop i B))).
Proof.
  intros Hij HB. unfold zlen in HB. rewrite u32_small by (unfold is_u32; lia). destruct (decide (i = j)) as [->|Hne].
  - rewrite Nat.sub_diag, gtb_false by lia. cbn. by rewrite app_nil_r.
  - rewrite gtb_true by lia. unfold load. rewrite decide_True by (unfold zlen; lia). exec. rewrite Nat2Z.id.
    replace (Z.to_nat (Z.of_nat j - Z.of_nat i)) with (j - i)%nat by lia.
    assert (length (take (j - i) (drop i B)) = (j - i)%nat) as Hl by (rewrite length_take, length_drop; lia).
    unfold MakeDataCopy. rewrite gtb_true by (unfold zlen; lia). exec. destruct (take (j - i) (drop i B)); [cbn in Hl; lia|done].
Qed.

Lemma piece_other tag f c data a : a ≠ c → blocks_of a (piece tag f c data) = [].
Proof. intros Ha. unfold blocks_of, piece. destruct data; [done|]. rewrite filter_cons_False, filter_nil; [done|]. cbn. congruence. Qed.

Lemma open_piece outs f a data d : open_stream K outs f a data → open_stream K (outs ++ piece (a + K) f a d) f a (data ++ d).
Proof. intros Ho. destruct d as [|x d]; cbn [piece]; [by rewrite !app_nil_r|]. by apply open_data. Qed.

(** Bytes are added to the current chunk. *)
Lemma chunks_advance s outs f D T U x info c addrs ks last pos pos' :
  chunks_at s outs f D T U x info c addrs ks last pos → (pos ≤ pos')%nat →
  chunks_at s (outs ++ piece (c + K) f c (slice D pos pos')) f D T U x info c addrs ks last pos'.
Proof.
  intros [] Hpos. split; try done; [| |lia].
  - eapply Forall2_impl_elem; [done|]. intros seg a Ha. apply NoDup_cons in ca_nodup0 as [Hc _]. apply chunk_done_other; [done|].
    apply piece_other. by intros ->.
  - rewrite <- (slice_app D (last_mark 0 (inner D ks)) pos pos') by lia. by apply open_piece.
Qed.

Lemma fresh_blocks s outs new : fresh s outs → (∀ b a, b ∈ new → bl_chunk b = Some a → a < next_address s) → fresh s (outs ++ new).
Proof. intros [] Hn. split; [done|done|]. intros b a [Hb|Hb]%elem_of_app; [by apply fr_blocks0|by apply Hn]. Qed.

Lemma blocks_of_fresh s outs a : fresh s outs → next_address s ≤ a → blocks_of a outs = [].
Proof.
  intros Hf Ha. apply elem_of_nil_inv. intros b [Hc Hb]%list_elem_of_filter. pose proof (fr_blocks _ _ Hf b a Hb Hc). lia.
Qed.
Lemma stop_other tag f c a : a ≠ c → blocks_of a [stop_block tag f (Some c)] = [].
Proof. intros Ha. unfold blocks_of. rewrite filter_cons_False, filter_nil; [done|]. cbn. congruence. Qed.

Lemma inner_snoc_lt D ks k : (k < length D)%nat → inner D (ks ++ [k]) = inner D ks ++ [k].
Proof. intros Hk. unfold inner. by rewrite filter_app, filter_cons_True, filter_nil. Qed.

Lemma inner_snoc_ge D ks k : (length D ≤ k)%nat → inner D (ks ++ [k]) = inner D ks.
Proof. intros Hk. unfold inner. rewrite filter_app, filter_cons_False, filter_nil by lia. by rewrite app_nil_r. Qed.

(** A mark at the end of the file does not end the current chunk. *)
Lemma mark_at_end s outs f D T U x info c addrs ks last k ptr y : chunks_at s outs f D T U x info c addrs ks last k →
  marks minimal maximal threshold U last = Some k → (length D ≤ k)%nat → detector_ok minimal maximal threshold k T ptr y →
  let x' := set_detector x (detector minimal maximal average threshold k (zlen T) ptr y) in
  chunks_at (put_file s f x') outs f D T U x' info c addrs (ks ++ [k]) k k.
Proof.
  intros [] Hk Hge Hd x'. split; rewrite ?inner_snoc_ge by done; try done.
  - cbn. by rewrite lookup_insert_eq.
  - by exists ptr, y.
  - by eapply chain_snoc.
Qed.

(** The current chunk ends at [k], and a new one begins. *)
Definition next_state (s : TaskChunk) (f : Z) (x : FileItem) (c : Z) (cur k : nat) : TaskChunk :=
  mkTask (<[f := IncNchunksInFly x]> (files s))
    (<[next_address s := mkChunk f (Z.of_nat k) 0 false]> (<[c := mkChunk f (Z.of_nat cur) (Z.of_nat (k - cur)) false]> (chunks s)))
    (next_address s + 1) (tag_seq_ s + 1) (tag_map_ s).

Lemma mark_inside s outs f D T U x info c addrs ks last k ptr y : fresh s outs → chunks_at s outs f D T U x info c addrs ks last k →
  marks minimal maximal threshold U last = Some k → (k < length D)%nat → detector_ok minimal maximal threshold k T ptr y →
  let x' := set_detector x (detector minimal maximal average threshold k (zlen T) ptr y) in
  let s' := next_state (put_file s f x') f x' c (last_mark 0 (inner D ks)) k in
  let info' := mkInfo (ci_offset info) (tag_seq_ s) (output_tag_bulk info) (Some (next_address s)) (bulk_chunk info) in
  fresh s' (outs ++ [stop_block (c + K) f (Some c)]) ∧
  chunks_at s' (outs ++ [stop_block (c + K) f (Some c)]) f D T U (IncNchunksInFly x') info' (next_address s) (addrs ++ [c]) (ks ++ [k]) k k ∧
  touched f c s s' [stop_block (c + K) f (Some c)].
Proof.
  intros Hfr Hca Hk Hlt Hd x' s' info'. pose proof Hca as []. apply NoDup_cons in ca_nodup0 as [Hnin Hnd].
  assert (c < next_address s) as Hcl by (by eapply fr_chunks).
  assert (∀ a, a ≠ c → a < next_address s → chunks s' !! a = chunks s !! a ∧ blocks_of a [stop_block (c + K) f (Some c)] = []) as Hother.
  { intros a Ha Hal. split; [|by apply stop_other]. cbn. by rewrite !lookup_insert_ne by lia. }
  split_and!.
  - split; cbn.
    + rewrite (fr_tags _ _ Hfr). lia.
    + intros a z [[<- _]|[_ [[<- _]|[_ Ha]]%lookup_insert_Some]]%lookup_insert_Some; [lia|lia|]. pose proof (fr_chunks _ _ Hfr _ _ Ha). lia.
    + intros b a [Hb|Hb]%elem_of_app Ha; [pose proof (fr_blocks _ _ Hfr b a Hb Ha); lia|].
      apply list_elem_of_singleton in Hb as ->. cbn in Ha. injection Ha as <-. lia.
  - split; rewrite ?inner_snoc_lt, ?last_mark_snoc, ?segments_snoc by done; try done.
    + cbn. by rewrite lookup_insert_eq.
    + by exists ptr, y.
    + by eapply chain_snoc.
    + apply Forall2_app; [|constructor; [|constructor]].
      * eapply Forall2_impl_elem; [done|]. intros seg a Ha. destruct (done_addr _ _ _ _ _ _ ca_done0 a Ha) as [z Hz].
        apply chunk_done_other; apply Hother; try (intros ->; done); by eapply fr_chunks.
      * split; [cbn; by rewrite lookup_insert_ne, lookup_insert_eq by lia|]. cbn. by apply open_stop.
    + cbn. by rewrite lookup_insert_eq.
    + rewrite slice_nil. apply open_new. rewrite blocks_of_app, (blocks_of_fresh s) by (done || lia).
      apply stop_other. lia.
    + cbn. split; [apply Hfr|done].
    + apply NoDup_cons. split; [|apply NoDup_app; split_and!; [done|by intros a Ha ->%list_elem_of_singleton|apply NoDup_singleton]].
      intros [Hin|Hin%list_elem_of_singleton]%elem_of_app; [|lia].
      destruct (done_addr _ _ _ _ _ _ ca_done0 _ Hin) as [z Hz]. pose proof (fr_chunks _ _ Hfr _ _ Hz). lia.
  - split; cbn; [done| |done|lia|].
    + intros f' Hf'. by rewrite !lookup_insert_ne by done.
    + intros b ->%list_elem_of_singleton. split; [done|]. exists c. split_and!; [done|by left|lia].
Qed.

(** What a loop over a block leaves. *)
Definition same_file (x x' : FileItem) (n : Z) : Prop :=
  fl_size x' = fl_size x ∧ may_have_chunks_ x' = may_have_chunks_ x ∧ has_legacy_bulk_chunk_ x' = has_legacy_bulk_chunk_ x ∧
  is_fully_chunked_ x' = is_fully_chunked_ x ∧ nchunks_in_fly_ x' = nchunks_in_fly_ x + n.

Definition same_info (info info' : ChunkInfo) : Prop :=
  ci_offset info' = ci_offset info ∧ output_tag_bulk info' = output_tag_bulk info ∧ bulk_chunk info' = bulk_chunk info.

(** Position [n] of the file as an offset in the block after [S]. *)
Definition in_block (S : bytes) (last : nat) : Z := Z.of_nat (Nat.max (length S) last - length S).

Lemma get_file_ok s f x : files s !! f = Some x → get_file s f = Ret x.
Proof. intros Hx. unfold get_file. by rewrite Hx. Qed.

Lemma get_chunk_ok s c x : chunks s !! c = Some x → get_chunk s c = Ret x.
Proof. intros Hx. unfold get_chunk. by rewrite Hx. Qed.

Lemma chunks_at_pos s outs f D T U x info c addrs ks last pos pos' : pos = pos' →
  chunks_at s outs f D T U x info c addrs ks last pos → chunks_at s outs f D T U x info c addrs ks last pos'.
Proof. by intros ->. Qed.

Lemma loop_none fuel s f x info c B off out d : files s !! f = Some x → FindNextCutMark (chunk_detector_ x) B = Ret (0, d) →
  chunk_loop (S fuel) s f info c B off out = Ret (out, off, info, c, put_file s f (set_detector x d)).
Proof. intros Hx Hf. cbn [chunk_loop]. unfold get_file. rewrite Hx. exec. rewrite Hf. done. Qed.

Lemma same_file_detector x d : same_file x (set_detector x d) 0.
Proof. unfold same_file. cbn. rewrite Z.add_0_r. done. Qed.

Lemma touched_detector f c s x : touched f c s (put_file s f x) [].
Proof. split; try done; [|intros b []%not_elem_of_nil]. intros f' Hf'. cbn. by rewrite lookup_insert_ne. Qed.

Lemma elem_of_piece b tag f c data : b ∈ piece tag f c data → bl_file b = f ∧ bl_chunk b = Some c.
Proof. unfold piece. case_match; [by intros []%not_elem_of_nil|]. by intros ->%list_elem_of_singleton. Qed.

Lemma touched_piece f tag c s data : c < next_address s → touched f c s s (piece tag f c data).
Proof.
  intros Hc. split; try done.
  - intros a Ha _. split; [done|by apply piece_other].
  - intros b [Hf Hb]%elem_of_piece. split; [done|]. exists c. split_and!; [done|by left|done].
Qed.

Lemma fresh_piece s outs tag f c data : fresh s outs → c < next_address s → fresh s (outs ++ piece tag f c data).
Proof. intros Hfr Hc. apply fresh_blocks; [done|]. intros b a [_ Hb]%elem_of_piece Ha. rewrite Hb in Ha. by injection Ha as <-. Qed.

Lemma loop_mark fuel s f x info c B i j k cur n S out d : files s !! f = Some x → FindNextCutMark (chunk_detector_ x) B = Ret (Z.of_nat k, d) →
  chunks s !! c = Some (mkChunk f (Z.of_nat cur) 0 false) → ci_offset info = Z.of_nat n → fl_size x = S →
  k = (n + j)%nat → (0 < k)%nat → (i ≤ j ≤ length B)%nat → (cur ≤ k)%nat → zlen B < 2 ^ 32 → Z.of_nat k < 2 ^ 63 →
  let x' := set_detector x d in
  let out' := out ++ piece (output_tag_chunk info) f c (take (j - i) (drop i B)) in
  chunk_loop (Datatypes.S fuel) s f info c B (Z.of_nat i) out
  = if Z.of_nat k <? S
    then chunk_loop fuel (next_state (put_file s f x') f x' c cur k) f
           (mkInfo (ci_offset info) (tag_seq_ s) (output_tag_bulk info) (Some (next_address s)) (bulk_chunk info)) (next_address s)
           B (Z.of_nat j) (out' ++ [stop_block (output_tag_chunk info) f (Some c)])
    else chunk_loop fuel (put_file s f x') f info c B (Z.of_nat j) out'.
Proof.
  intros Hx Hf Hc Hoff HS -> Hk Hij Hcur HB Hbig x' out'. pose proof HB as HB'. unfold zlen in HB'.
  cbn [chunk_loop]. rewrite (get_file_ok _ _ _ Hx). cbn [mbind outcome_bind]. rewrite Hf. cbn [mbind outcome_bind].
  rewrite eqb_false by lia. rewrite Hoff. rewrite (u64_small (Z.of_nat n + _)) by (unfold is_u64; lia).
  rewrite (geb_true (Z.of_nat (n + j)) (Z.of_nat n + Z.of_nat i)) by lia. exec.
  rewrite (u64_small (Z.of_nat (n + j) - _)) by (unfold is_u64; lia). replace (Z.of_nat (n + j) - Z.of_nat n) with (Z.of_nat j) by lia.
  rewrite (geb_true (Z.of_nat j) (Z.of_nat i)) by lia. exec. rewrite leb_true by (unfold zlen; lia). exec. rewrite emit_ok by done. exec.
  rewrite (get_chunk_ok (put_file s f (set_detector x d)) c _ Hc). exec. cbn [ck_offset]. rewrite (geb_true _ (Z.of_nat cur)) by lia. exec.
  rewrite (get_file_ok (put_file s f (set_detector x d)) f (set_detector x d)) by (cbn; by rewrite lookup_insert_eq). exec. cbn [fl_size set_detector]. rewrite HS.
  rewrite (u32_small (Z.of_nat j)) by (unfold is_u32; lia).
  destruct (Z.of_nat (n + j) <? S); [|done].
  unfold set_size at 1. rewrite (get_chunk_ok (put_file s f (set_detector x d)) c _ Hc). exec. cbn [ck_size ck_file ck_offset is_bulk_chunk_]. change (0 =? 0) with true. exec.
  unfold new_chunk, get_file. cbn [files put_chunk put_file]. rewrite lookup_insert_eq. exec.
  rewrite u64_small by (unfold is_u64; lia). replace (Z.of_nat (n + j) - Z.of_nat cur) with (Z.of_nat (n + j - cur)) by lia. done.
Qed.

Lemma chunk_loop_ok f D S B R fuel : D = S ++ B ++ R → B ≠ [] → zlen D < 2 ^ 62 → zlen B < 2 ^ 32 →
  ∀ s outs x info c addrs ks last out, fresh s outs →
  chunks_at s outs f D S (S ++ B) x info c addrs ks last (Nat.max (length S) last) → ci_offset info = zlen S → (1 ≤ fuel)%nat →
  (length (S ++ B) < Nat.max (length S) (last + 32) + 32 * (fuel - 1))%nat → (last ≤ length (S ++ B))%nat →
  ∃ new s' x' info' c' more ks' last', chunk_loop fuel s f info c B (in_block S last) out = Ret (out ++ new, in_block S last', info', c', s') ∧
    fresh s' (outs ++ new) ∧
    chunks_at s' (outs ++ new) f D (S ++ B) (S ++ B) x' info' c' (addrs ++ more) ks' last' (Nat.max (length S) last') ∧
    touched f c s s' new ∧ (c' = c ∨ next_address s ≤ c') ∧ same_info info info' ∧ same_file x x' (zlen more) ∧
    (last' ≤ length (S ++ B))%nat ∧ marks minimal maximal threshold (S ++ B) last' = None.
Proof.
  intros HD HB H62 H32. induction fuel as [|fuel IH]; intros s outs x info c addrs ks last out Hfr Hca Hoff Hfuel Hn Hlast; [lia|].
  assert (length D = length S + length B + length R)%nat as HlD by (rewrite HD, !length_app; lia).
  pose proof Hca as [Hx Hsize (ptr & y & Hdet & Hdok) Hch Hdone Hcur Hstr Hpos [Htag Hnext] Hnd].
  destruct (FindNextCutMark_ok minimal maximal average threshold Hmin Hmax Hsmall last S ptr y B Hdok HB Hlast) as (ptr' & y' & Hfind).
  { rewrite zlen_app in *. unfold zlen in *. rewrite length_app in *. lia. }
  destruct (marks minimal maximal threshold (S ++ B) last) as [k|] eqn:Hk.
  2:{ destruct Hfind as [Hfind Hdok']. rewrite <- Hdet in Hfind. rewrite (loop_none _ _ _ _ _ _ _ _ _ _ Hx Hfind).
      eexists [], _, _, info, c, [], ks, last. rewrite !app_nil_r. split; [done|].
      split; [by destruct Hfr|]. split; [|split; [|split; [by left|split; [done|split; [apply same_file_detector|done]]]]].
      - split; try done; [cbn; by rewrite lookup_insert_eq|by exists ptr', y'].
      - apply touched_detector. }
  destruct Hfind as (Hfind & Hdok' & HkS). rewrite <- Hdet in Hfind. apply marks_range in Hk as Hr; [|done|done]. destruct Hr as [Hr Hrl].
  rewrite length_app in Hrl, Hn. set (j := (k - length S)%nat). set (i := (Nat.max (length S) last - length S)%nat).
  assert (i ≤ j ≤ length B)%nat as Hij by lia. unfold in_block at 1. fold i.
  pose proof (chunks_advance _ _ _ _ _ _ _ _ _ _ _ _ _ k Hca ltac:(lia)) as Hadv.
  assert (slice D (Nat.max (length S) last) k = take (j - i) (drop i B)) as Hsl.
  { rewrite HD. replace (Nat.max (length S) last) with (length S + i)%nat by lia. replace k with (length S + j)%nat by lia.
    by apply slice_in_block. }
  rewrite Hsl in Hadv. set (tail := piece (c + K) f c (take (j - i) (drop i B))) in *.
  assert (c < next_address s) as Hcl by (by eapply fr_chunks).
  assert (Nat.max (length S) k = k) as Hmk by lia.
  pose proof (fresh_piece s outs (c + K) f c (take (j - i) (drop i B)) Hfr Hcl) as Hfr1. fold tail in Hfr1.
  pose proof (touched_piece f (c + K) c s (take (j - i) (drop i B)) Hcl) as Ht1. fold tail in Ht1.
  rewrite (loop_mark fuel s f x info c B i j k (last_mark 0 (inner D ks)) (length S) (zlen D) out _ Hx Hfind Hcur Hoff Hsize)
    by (lia || unfold zlen in *; lia).
  rewrite Htag. fold tail.
  destruct (Z.ltb_spec (Z.of_nat k) (zlen D)) as [Hlt|Hge].
  - destruct (mark_inside s (outs ++ tail) f D S (S ++ B) x info c addrs ks last k ptr' y' Hfr1 Hadv Hk) as (Hfr2 & Hca2 & Ht2);
      [unfold zlen in Hlt; lia|done|]. apply (chunks_at_pos _ _ _ _ _ _ _ _ _ _ _ _ _ _ (eq_sym Hmk)) in Hca2.
    destruct (IH _ _ _ _ _ _ _ _ ((out ++ tail) ++ [stop_block (c + K) f (Some c)]) Hfr2 Hca2) as
      (new & s' & x' & info' & c' & more & ks' & last' & Hrun & Hfr3 & Hca3 & Ht3 & Hc' & Hi & Hx' & Hl & Hm); [done|lia|rewrite length_app; lia|rewrite length_app; lia|].
    exists (tail ++ [stop_block (c + K) f (Some c)] ++ new), s', x', info', c', (c :: more), ks', last'.
    unfold in_block at 1 in Hrun. rewrite Hmk in Hrun. fold j in Hrun. rewrite Hrun. rewrite <- !app_assoc in *. cbn [app] in *.
    split_and!; try done.
    + eapply touched_trans; [exact Ht1| |by left]. eapply (touched_trans _ _ _ _ _ _ [_]); [exact Ht2|exact Ht3|]. right. cbn. lia.
    + destruct Hc' as [->|Hc']; [right; lia|]. cbn in Hc'. right. lia.
    + destruct Hx' as (? & ? & ? & ? & Hn'). unfold same_file. rewrite zlen_cons. cbn in Hn'. split_and!; try done. lia.
  - assert (length D ≤ k)%nat as Hge' by (unfold zlen in Hge; lia).
    pose proof (mark_at_end _ _ _ _ _ _ _ _ _ _ _ _ _ ptr' y' Hadv Hk Hge' Hdok') as Hca2. cbn zeta in Hca2.
    apply (chunks_at_pos _ _ _ _ _ _ _ _ _ _ _ _ _ _ (eq_sym Hmk)) in Hca2.
    destruct (IH (put_file s f (set_detector x (detector minimal maximal average threshold k (zlen S) ptr' y'))) (outs ++ tail) _ _ _ _ _ _
      (out ++ tail) ltac:(by destruct Hfr1) Hca2) as
      (new & s' & x' & info' & c' & more & ks' & last' & Hrun & Hfr3 & Hca3 & Ht3 & Hc' & Hi & Hx' & Hl & Hm); [done|lia|rewrite length_app; lia|rewrite length_app; lia|].
    exists (tail ++ new), s', x', info', c', more, ks', last'.
    unfold in_block at 1 in Hrun. rewrite Hmk in Hrun. fold j in Hrun. rewrite Hrun. rewrite <- !app_assoc in *.
    split_and!; try done. eapply touched_trans; [exact Ht1| |by left].
    eapply (touched_trans _ _ _ _ _ _ []); [apply touched_detector|exact Ht3|by left].
Qed.

(** ** A file in progress *)

(** Only file [f] with tag [t] is touched. *)
Record framed (t f : Z) (s s' : TaskChunk) (new : list BlockItem) : Prop := {
  fm_tags : ∀ t', t' ≠ t → tag_map_ s' !! t' = tag_map_ s !! t';
  fm_files : ∀ f', f' ≠ f → files s' !! f' = files s !! f';
  fm_chunks : ∀ a y, chunks s !! a = Some y → ck_file y ≠ f → chunks s' !! a = Some y ∧ blocks_of a new = [];
  fm_blocks : ∀ b, b ∈ new → bl_file b = f ∧ ∃ a, bl_chunk b = Some a
}.

Lemma touched_framed t f c s s' new y : touched f c s s' new → fresh s [] → chunks s !! c = Some y ∧ ck_file y = f ∨ next_address s ≤ c →
  framed t f s s' new.
Proof.
  intros [Ht Hf Hc Hn Hb] Hfr Hown. split; [by rewrite Ht|done| |].
  - intros a z Ha Hz. pose proof (fr_chunks _ _ Hfr _ _ Ha). destruct (Hc a) as [-> ?]; [|lia|done]. intros ->.
    destruct Hown as [[Hy Hyf]|?]; [|lia]. congruence.
  - intros b Hb'. destruct (Hb b Hb') as (? & a & ? & _). eauto.
Qed.

Lemma framed_trans t f s s1 s2 new1 new2 : framed t f s s1 new1 → framed t f s1 s2 new2 → framed t f s s2 (new1 ++ new2).
Proof.
  intros [T1 F1 C1 B1] [T2 F2 C2 B2]. split.
  - intros t' Ht. by rewrite T2, T1.
  - intros f' Hf. by rewrite F2, F1.
  - intros a y Ha Hy. destruct (C1 a y Ha Hy) as [Ha1 Hb1]. destruct (C2 a y Ha1 Hy) as [Ha2 Hb2].
    split; [done|]. by rewrite blocks_of_app, Hb1, Hb2.
  - intros b [Hb|Hb]%elem_of_app; eauto.
Qed.

Lemma framed_info t f s m : (∀ t', t' ≠ t → m !! t' = tag_map_ s !! t') → framed t f s (put_info s m) [].
Proof. intros Hm. split; try done. intros b []%not_elem_of_nil. Qed.

(** The chunk of the whole file, if there is one. *)
Definition bulk_at (s : TaskChunk) (outs : list BlockItem) (f : Z) (D S : bytes) (x : FileItem) (info : ChunkInfo) (addrs : list Z) : Prop :=
  match bulk_chunk info with
  | None => may_have_chunks_ x = true ∧ has_legacy_bulk_chunk_ x = false
  | Some c => (may_have_chunks_ x = false ∨ has_legacy_bulk_chunk_ x = true) ∧ c ∉ addrs ∧ chunks s !! c = Some (mkChunk f 0 (zlen D) true) ∧
      output_tag_bulk info = c + K ∧ open_stream K outs f c S
  end.

Definition count_bulk (info : ChunkInfo) : Z := if bulk_chunk info then 1 else 0.

(** The data [S] of file [f] has been processed. *)
Definition running (s : TaskChunk) (outs : list BlockItem) (t f : Z) (D : bytes) (may bulk : bool) (S : bytes) (info : ChunkInfo) : Prop :=
  ∃ x addrs, tag_map_ s !! t = Some info ∧ files s !! f = Some x ∧ fl_size x = zlen D ∧ may_have_chunks_ x = may ∧
    has_legacy_bulk_chunk_ x = bulk ∧ is_fully_chunked_ x = 0 ∧ nchunks_in_fly_ x = zlen addrs + count_bulk info ∧ bulk_at s outs f D S x info addrs ∧
    match next_chunk info with
    | None => may = false ∧ addrs = []
    | Some c => may = true ∧ ci_offset info = zlen S ∧
        ∃ done ks last, addrs = done ++ [c] ∧ chunks_at s outs f D S S x info c done ks last (length S) ∧ (last ≤ length S)%nat
    end.

Definition not_started (s : TaskChunk) (t f : Z) (D : bytes) (may bulk : bool) : Prop :=
  tag_map_ s !! t = None ∧
  files s !! f = Some (mkFile (zlen D) may bulk (detector minimal maximal average threshold 0 0 0 0) 0 0).

Lemma detector_ok_start : detector_ok minimal maximal threshold 0 [] 0 0.
Proof. split_and!; [done|by rewrite drop_nil|]. apply next_cut_short; [done|done|]. cbn. lia. Qed.

Lemma fresh_nil s outs : fresh s outs → fresh s [].
Proof. intros []. split; try done. intros b a []%not_elem_of_nil. Qed.

(** A new chunk and its tag. *)
Definition with_chunk (s : TaskChunk) (f : Z) (x : FileItem) (y : ChunkItem) : TaskChunk :=
  mkTask (<[f := IncNchunksInFly x]> (files s)) (<[next_address s := y]> (chunks s)) (next_address s + 1) (tag_seq_ s + 1) (tag_map_ s).

Lemma with_chunk_fresh s outs f x y : fresh s outs → fresh (with_chunk s f x y) outs.
Proof.
  intros Hfr. split; cbn.
  - rewrite (fr_tags _ _ Hfr). lia.
  - intros a z [[<- _]|[_ Ha]]%lookup_insert_Some; [lia|]. pose proof (fr_chunks _ _ Hfr _ _ Ha). lia.
  - intros b a Hb Ha. pose proof (fr_blocks _ _ Hfr b a Hb Ha). lia.
Qed.

Lemma with_chunk_framed t s outs f x y : fresh s outs → ck_file y = f → framed t f s (with_chunk s f x y) [].
Proof.
  intros Hfr Hy. split; try done; [..|intros b []%not_elem_of_nil].
  - intros f' Hf. cbn. by rewrite lookup_insert_ne.
  - intros a z Ha _. cbn. pose proof (fr_chunks _ _ Hfr _ _ Ha). rewrite lookup_insert_ne by lia. done.
Qed.

Lemma bulk_steps {A} s f x n (k : Z → Z → TaskChunk → outcome A) : files s !! f = Some x →
  ('(c, s) ← new_chunk s f 0; s ← MakeBulkChunk s c; s ← set_size s c n; let '(t, s) := fetch_tag s in k c t s)
  = k (next_address s) (tag_seq_ s) (with_chunk s f x (mkChunk f 0 n true)).
Proof.
  intros Hx. unfold new_chunk. rewrite (get_file_ok _ _ _ Hx). exec. unfold MakeBulkChunk, get_chunk. cbn [chunks]. rewrite lookup_insert_eq. exec.
  unfold set_size, get_chunk, put_chunk. cbn [chunks ck_file ck_offset ck_size]. rewrite lookup_insert_eq. exec. cbn [ck_size]. change (0 =? 0) with true. exec.
  unfold fetch_tag, with_chunk, put_chunk. cbn. by rewrite !insert_insert_eq.
Qed.

Lemma next_steps s f x : files s !! f = Some x →
  ('(c, s) ← new_chunk s f 0; let '(t, s) := fetch_tag s in Ret (Some c, t, s))
  = Ret (Some (next_address s), tag_seq_ s, with_chunk s f x (mkChunk f 0 0 false)).
Proof. intros Hx. unfold new_chunk. rewrite (get_file_ok _ _ _ Hx). done. Qed.

(** The chunks of a file stay as they are. *)
Lemma chunks_frame s s' outs new f D T U x x' info info' c addrs ks last pos :
  chunks_at s outs f D T U x info c addrs ks last pos → files s' !! f = Some x' → fl_size x' = fl_size x →
  chunk_detector_ x' = chunk_detector_ x → output_tag_chunk info' = output_tag_chunk info → next_chunk info' = next_chunk info →
  (∀ a, a ∈ c :: addrs → chunks s' !! a = chunks s !! a ∧ blocks_of a new = []) →
  chunks_at s' (outs ++ new) f D T U x' info' c addrs ks last pos.
Proof.
  intros [] Hx' Hsz Hdet Htag Hnext Hsame. split; try done; rewrite ?Hsz, ?Hdet, ?Htag, ?Hnext; try done.
  - eapply Forall2_impl_elem; [done|]. intros seg a Ha. apply chunk_done_other; apply Hsame; by right.
  - destruct (Hsame c) as [-> _]; [left|done].
  - apply open_other; [|done]. apply Hsame. left.
Qed.

Lemma chunks_put_info s m outs f D T U x info c addrs ks last pos : chunks_at s outs f D T U x info c addrs ks last pos →
  chunks_at (put_info s m) outs f D T U x info c addrs ks last pos.
Proof. by intros []. Qed.

Lemma next_started s outs f D x info : fresh s outs → fl_size x = zlen D → chunk_detector_ x = detector minimal maximal average threshold 0 0 0 0 →
  output_tag_chunk info = tag_seq_ s → next_chunk info = Some (next_address s) →
  chunks_at (with_chunk s f x (mkChunk f 0 0 false)) outs f D [] [] (IncNchunksInFly x) info (next_address s) [] [] 0 0.
Proof.
  intros Hfr Hsz Hdet Htag Hnext. split; try done; cbn.
  - by rewrite lookup_insert_eq.
  - exists 0, 0. split; [done|apply detector_ok_start].
  - constructor.
  - by rewrite lookup_insert_eq.
  - apply open_new, (blocks_of_fresh s); [done|lia].
  - by rewrite Htag, (fr_tags _ _ Hfr).
  - apply NoDup_singleton.
Qed.

Lemma bulk_started s outs f D x x' info addrs : fresh s outs → bulk_chunk info = Some (next_address s) → output_tag_bulk info = tag_seq_ s →
  (may_have_chunks_ x' = false ∨ has_legacy_bulk_chunk_ x' = true) → (∀ a, a ∈ addrs → a < next_address s) →
  bulk_at (with_chunk s f x (mkChunk f 0 (zlen D) true)) outs f D [] x' info addrs.
Proof.
  intros Hfr Hb Htag Hx' Haddrs. unfold bulk_at. rewrite Hb. split_and!; [done| |cbn; by rewrite lookup_insert_eq|by rewrite Htag, (fr_tags _ _ Hfr)|].
  - intros Hin%Haddrs. lia.
  - apply open_new, (blocks_of_fresh s); [done|lia].
Qed.

(** The first block of a file. *)
Lemma start_ok s outs t f D may bulk : fresh s outs → not_started s t f D may bulk →
  ∃ info s', start_file s f = Ret (info, s') ∧ fresh (put_info s' (<[t := info]> (tag_map_ s'))) outs ∧
    running (put_info s' (<[t := info]> (tag_map_ s'))) outs t f D may bulk [] info ∧
    framed t f s (put_info s' (<[t := info]> (tag_map_ s'))) [].
Proof.
  intros Hfr [Ht Hx]. unfold start_file. rewrite (get_file_ok _ _ _ Hx). exec. cbn [may_have_chunks_ has_legacy_bulk_chunk_ fl_size].
  set (x := mkFile _ _ _ _ _ _) in *.
  assert (∀ s' m, framed t f s s' [] → fresh s' outs → fresh (put_info s' (<[t := m]> (tag_map_ s'))) outs ∧
    framed t f s (put_info s' (<[t := m]> (tag_map_ s'))) []) as Hput.
  { intros s' m Hs' Hfr'. split; [by destruct Hfr'|]. apply (framed_trans t f s s' _ [] []); [done|]. apply framed_info. intros t' Ht'. by rewrite lookup_insert_ne. }
  destruct may; exec; cbn [negb orb].
  - rewrite (next_steps s f x) by done. exec. set (s1 := with_chunk s f x (mkChunk f 0 0 false)).
    assert (fresh s1 outs) as Hfr1 by by apply with_chunk_fresh.
    assert (framed t f s s1 []) as Hfm1 by by eapply with_chunk_framed.
    destruct bulk.
    + rewrite (bulk_steps _ f (IncNchunksInFly x)) by (cbn; by rewrite lookup_insert_eq).
      set (s2 := with_chunk s1 f (IncNchunksInFly x) (mkChunk f 0 (zlen D) true)). eexists _, s2. split; [done|].
      destruct (Hput s2 (mkInfo 0 (tag_seq_ s) (tag_seq_ s1) (Some (next_address s)) (Some (next_address s1)))) as [Hfr2 Hfm2];
        [by eapply (framed_trans t f s s1 s2 [] []); [|eapply with_chunk_framed]|by apply with_chunk_fresh|].
      split_and!; [done| |done]. exists (IncNchunksInFly (IncNchunksInFly x)), [next_address s].
      split; [cbn; by rewrite lookup_insert_eq|]. split; [cbn; by rewrite lookup_insert_eq|]. do 5 (split; [done|]).
      split; [|split; [done|split; [done|]]].
      * apply (bulk_started s1); [done..|by right|]. intros a ->%list_elem_of_singleton. cbn. lia.
      * exists [], [], 0%nat. split_and!; [done| |done]. rewrite <- (app_nil_r outs).
        eapply (chunks_frame s1); [apply (next_started s outs f D x (mkInfo 0 (tag_seq_ s) 0 (Some (next_address s)) None)); done|..]; try done.
        -- cbn. by rewrite lookup_insert_eq.
        -- intros a ->%list_elem_of_singleton. cbn. rewrite lookup_insert_ne by lia. done.
    + eexists _, s1. split; [done|]. destruct (Hput s1 (mkInfo 0 (tag_seq_ s) (-1) (Some (next_address s)) None)) as [Hfr2 Hfm2]; [done|done|].
      split_and!; [done| |done]. exists (IncNchunksInFly x), [next_address s].
      split; [cbn; by rewrite lookup_insert_eq|]. split; [cbn; by rewrite lookup_insert_eq|]. do 5 (split; [done|]).
      split; [done|split; [done|split; [done|]]]. exists [], [], 0%nat. split_and!; [done| |done]. by apply chunks_put_info, next_started.
  - rewrite (bulk_steps _ f x) by done. set (s2 := with_chunk s f x (mkChunk f 0 (zlen D) true)). eexists _, s2. split; [done|].
    destruct (Hput s2 (mkInfo 0 (-1) (tag_seq_ s) None (Some (next_address s)))) as [Hfr2 Hfm2];
      [by eapply with_chunk_framed|by apply with_chunk_fresh|].
    split_and!; [done| |done]. exists (IncNchunksInFly x), [].
    split; [cbn; by rewrite lookup_insert_eq|]. split; [cbn; by rewrite lookup_insert_eq|]. do 5 (split; [done|]). split; [|done].
    apply (bulk_started s); [done..|by left|]. intros a []%not_elem_of_nil.
Qed.

(** ** Data blocks *)

(** The block of the chunk of the whole file. *)
Definition bulk_blocks (info : ChunkInfo) (f : Z) (B : bytes) : list BlockItem :=
  match bulk_chunk info with Some c => [data_block (output_tag_bulk info) f c B] | None => [] end.

Lemma bulk_blocks_ok info f B : B ≠ [] →
  (match bulk_chunk info with
   | None => Ret []
   | Some c => block ← MakeDataCopy (output_tag_bulk info) f (Some c) B; Ret [block]
   end) = Ret (bulk_blocks info f B).
Proof.
  intros HB. unfold bulk_blocks. destruct (bulk_chunk info); [|done]. unfold MakeDataCopy. apply zlen_pos in HB. by rewrite gtb_true by lia.
Qed.

Lemma bulk_blocks_other info f B a : bulk_chunk info ≠ Some a → blocks_of a (bulk_blocks info f B) = [].
Proof. intros Ha. unfold bulk_blocks. destruct (bulk_chunk info) as [c|]; [|done]. unfold blocks_of. by rewrite filter_cons_False, filter_nil. Qed.

(** The chunk of the whole file after the block. *)
Lemma bulk_advance s s' outs new f D S B x x' info info' addrs addrs' : bulk_at s outs f D S x info addrs → B ≠ [] →
  may_have_chunks_ x' = may_have_chunks_ x → has_legacy_bulk_chunk_ x' = has_legacy_bulk_chunk_ x →
  bulk_chunk info' = bulk_chunk info → output_tag_bulk info' = output_tag_bulk info →
  (∀ c, bulk_chunk info = Some c → c ∉ addrs' ∧ chunks s' !! c = chunks s !! c ∧ blocks_of c new = []) →
  bulk_at s' ((outs ++ new) ++ bulk_blocks info f B) f D (S ++ B) x' info' addrs'.
Proof.
  unfold bulk_at, bulk_blocks. intros Hb HB Hm Hl Hbc Htag Hsame. rewrite Hm, Hl, Hbc, Htag. destruct (bulk_chunk info) as [c|]; [|done].
  destruct Hb as (Hf & Hna & Hc & Ht & Ho). destruct (Hsame c eq_refl) as (Hna' & Hc' & Hbl). rewrite Hc', Ht.
  split_and!; [done|done|done|done|]. apply open_data; [by apply open_other|done].
Qed.

Lemma bulk_frame s s' outs new f D S x x' info info' addrs addrs' : bulk_at s outs f D S x info addrs →
  may_have_chunks_ x' = may_have_chunks_ x → has_legacy_bulk_chunk_ x' = has_legacy_bulk_chunk_ x →
  bulk_chunk info' = bulk_chunk info → output_tag_bulk info' = output_tag_bulk info →
  (∀ c, bulk_chunk info = Some c → c ∉ addrs' ∧ chunks s' !! c = chunks s !! c ∧ blocks_of c new = []) →
  bulk_at s' (outs ++ new) f D S x' info' addrs'.
Proof.
  unfold bulk_at. intros Hb Hm Hl Hbc Htag Hsame. rewrite Hm, Hl, Hbc, Htag. destruct (bulk_chunk info) as [c|]; [|done].
  destruct Hb as (Hf & Hna & Hc & Ht & Ho). destruct (Hsame c eq_refl) as (Hna' & Hc' & Hbl). rewrite Hc'.
  split_and!; [done|done|done|done|by apply open_other].
Qed.

Lemma bulk_owned s outs f D S x info addrs c : bulk_at s outs f D S x info addrs → bulk_chunk info = Some c →
  c ∉ addrs ∧ chunks s !! c = Some (mkChunk f 0 (zlen D) true).
Proof. unfold bulk_at. intros Hb Hc. rewrite Hc in Hb. by destruct Hb as (_ & ? & ? & _). Qed.

Lemma framed_bulk t f s outs D S x info addrs B : fresh s [] → bulk_at s outs f D S x info addrs → framed t f s s (bulk_blocks info f B).
Proof.
  intros Hfr Hb. split; try done.
  - intros a y Ha Hy. split; [done|]. apply bulk_blocks_other. intros Hc. destruct (bulk_owned _ _ _ _ _ _ _ _ _ Hb Hc) as [_ Hc'].
    rewrite Ha in Hc'. injection Hc' as ->. done.
  - intros b. unfold bulk_blocks. destruct (bulk_chunk info) as [c|]; [|by intros []%not_elem_of_nil].
    intros ->%list_elem_of_singleton. split; [done|]. by exists c.
Qed.

Lemma fresh_bulk s outs outs' f D S x info addrs B : fresh s outs → bulk_at s outs' f D S x info addrs → fresh s (outs ++ bulk_blocks info f B).
Proof.
  intros Hfr Hb. apply fresh_blocks; [done|]. intros b a Hin Ha. unfold bulk_blocks in Hin. destruct (bulk_chunk info) as [c|] eqn:Hc.
  - apply list_elem_of_singleton in Hin as ->. cbn in Ha. injection Ha as <-. destruct (bulk_owned _ _ _ _ _ _ _ _ _ Hb Hc) as [_ Hc'].
    by eapply fr_chunks.
  - by apply not_elem_of_nil in Hin.
Qed.

Lemma fresh_put_info s outs m : fresh s outs → fresh (put_info s m) outs.
Proof. by intros []. Qed.

(** The loop and the rest of the block. *)
Lemma chunk_tail_ok f D S B R s outs x info c addrs ks last : D = S ++ B ++ R → B ≠ [] → zlen D < 2 ^ 62 → zlen B < 2 ^ 32 → fresh s outs →
  chunks_at s outs f D S S x info c addrs ks last (length S) → ci_offset info = zlen S → (last ≤ length S)%nat →
  ∃ new s' x' info' c' more ks' last' off, chunk_loop (Datatypes.S (length B)) s f info c B 0 [] = Ret (off, in_block S last', info', c', s') ∧
    new = off ++ piece (output_tag_chunk info') f c' (drop (Nat.max (length S) last' - length S) B) ∧ (Nat.max (length S) last' - length S ≤ length B)%nat ∧
    fresh s' (outs ++ new) ∧
    chunks_at s' (outs ++ new) f D (S ++ B) (S ++ B) x' info' c' (addrs ++ more) ks' last' (length (S ++ B)) ∧
    touched f c s s' new ∧ same_info info info' ∧ same_file x x' (zlen more) ∧ (last' ≤ length (S ++ B))%nat.
Proof.
  intros HD HB H62 H32 Hfr Hca Hoff Hlast. destruct B as [|b0 B0] eqn:HBe; [done|]. rewrite <- HBe in *. assert (1 ≤ length B)%nat by (subst; cbn; lia).
  assert (chunks_at s outs f D S (S ++ B) x info c addrs ks last (Nat.max (length S) last)) as Hca0.
  { rewrite Nat.max_l by lia. destruct Hca. split; try done. by apply chain_app. }
  destruct (chunk_loop_ok f D S B R (Datatypes.S (length B)) HD HB H62 H32 s outs x info c addrs ks last [] Hfr Hca0 Hoff)
    as (new & s' & x' & info' & c' & more & ks' & last' & Hrun & Hfr' & Hca' & Ht & Hc' & Hi & Hx' & Hl & Hm); [lia|rewrite length_app; lia|rewrite length_app; lia|].
  unfold in_block at 1 in Hrun. rewrite Nat.max_l, Nat.sub_diag in Hrun by lia. cbn [app] in Hrun.
  pose proof Hca' as [_ _ _ _ Hdone' Hcur' _ _ [Htag' _] Hnd'].
  rewrite length_app in *. eexists _, s', x', info', c', more, ks', last', new. split; [exact Hrun|]. split; [done|]. split; [lia|].
  set (i := (Nat.max (length S) last' - length S)%nat).
  assert (slice D (Nat.max (length S) last') (length S + length B) = drop i B) as Hsl.
  { rewrite HD. replace (Nat.max (length S) last') with (length S + i)%nat by lia. rewrite slice_in_block by lia.
    apply take_ge. rewrite length_drop. lia. }
  apply (chunks_advance _ _ _ _ _ _ _ _ _ _ _ _ _ (length S + length B)) in Hca'; [|lia]. rewrite Hsl in Hca'.
  assert (c' < next_address s') as Hcl by (by eapply fr_chunks). rewrite Htag', app_assoc.
  split_and!; try done; [by apply fresh_piece|]. eapply touched_trans; [exact Ht|by apply touched_piece|done].
Qed.

Lemma chunk_not_bulk s outs f D T U x info c addrs ks last pos : chunks_at s outs f D T U x info c addrs ks last pos →
  ∀ a, a ∈ c :: addrs → ∃ o n, chunks s !! a = Some (mkChunk f o n false).
Proof.
  intros [] a [->|Hin]%elem_of_cons; [eauto|]. clear -Hin ca_done0. induction ca_done0 as [|seg a' segs addrs [Ha _] _ IH].
  - by apply not_elem_of_nil in Hin.
  - apply elem_of_cons in Hin as [->|Hin]; eauto.
Qed.

Lemma tail_ok tag f c B i n out : (i ≤ length B)%nat → zlen B < 2 ^ 32 → Z.of_nat (n + length B) < 2 ^ 63 →
  (if u32 (zlen B - Z.of_nat i) >? 0
   then bytes ← load B (Z.of_nat i) (u32 (zlen B - Z.of_nat i));
        block_tail ← MakeDataCopy tag f (Some c) bytes;
        Ret (out ++ [block_tail], u64 (Z.of_nat (n + i) + u32 (zlen B - Z.of_nat i)))
   else Ret (out, Z.of_nat (n + i))) = Ret (out ++ piece tag f c (drop i B), Z.of_nat (n + length B)).
Proof.
  intros Hi HB Hn. pose proof (emit_ok tag f c B i (length B) out ltac:(lia) HB) as He. rewrite (take_ge (drop i B)) in He by (rewrite length_drop; lia).
  unfold zlen in *. rewrite u32_small in * by (unfold is_u32; lia). destruct (Z.of_nat (length B) - Z.of_nat i >? 0) eqn:Hgt.
  - destruct (load B (Z.of_nat i) (Z.of_nat (length B) - Z.of_nat i)) as [bytes|e]; [|done]. cbn [mbind outcome_bind] in *.
    destruct (MakeDataCopy tag f (Some c) bytes) as [block|e]; [|done]. cbn [mbind outcome_bind] in *. injection He as ->.
    rewrite u64_small by (unfold is_u64; lia). do 3 f_equal. lia.
  - injection He as <-. rewrite Z.gtb_ltb in Hgt. apply Z.ltb_ge in Hgt. do 3 f_equal. lia.
Qed.

Lemma chunk_data_ok s outs t f ch D may bulk S B R info : fresh s outs → running s outs t f D may bulk S info → D = S ++ B ++ R → B ≠ [] →
  zlen D < 2 ^ 62 → zlen B < 2 ^ 32 →
  ∃ new s' info', chunk_data s (mkBlock kBlockData t f ch B) info = Ret (new, s') ∧ fresh s' (outs ++ new) ∧
    running s' (outs ++ new) t f D may bulk (S ++ B) info' ∧ framed t f s s' new.
Proof.
  intros Hfr (x & addrs & Ht & Hx & Hsize & Hm & Hb & Hfull & Hcount & Hbulk & Hnext) HD HB H62 H32.
  unfold chunk_data. cbn [bl_file bl_data bl_tag]. rewrite bulk_blocks_ok by done. exec.
  destruct (next_chunk info) as [c|] eqn:Hn; exec.
  2:{ destruct Hnext as [Hmay ->]. eexists _, _, info. split; [done|]. cbn [app].
      split_and!; [by eapply fresh_put_info, fresh_bulk| |].
      - exists x, []. rewrite Hn. split; [cbn; by rewrite lookup_insert_eq|]. do 6 (split; [done|]). split; [|done].
        rewrite <- (app_nil_r outs). eapply bulk_advance; try done. intros c Hc. destruct (bulk_owned _ _ _ _ _ _ _ _ _ Hbulk Hc). done.
      - rewrite <- (app_nil_r (bulk_blocks _ _ _)). eapply framed_trans; [by eapply framed_bulk; [eapply fresh_nil|]|].
        apply framed_info. intros t' Ht'. by rewrite lookup_insert_ne. }
  destruct Hnext as (Hmay & Hoff & done & ks & last & -> & Hca & Hlast).
  destruct (chunk_tail_ok f D S B R s outs x info c done ks last HD HB H62 H32 Hfr Hca Hoff Hlast)
    as (new & s' & x' & info' & c' & more & ks' & last' & off & -> & Hnew & Hi & Hfr' & Hca' & Htc & (Hi1 & Hi2 & Hi3) & (Hx1 & Hx2 & Hx3 & Hx4 & Hx5) & Hl).
  exec. unfold in_block. set (i := (Nat.max (length S) last' - length S)%nat) in *. rewrite Hi1, Hoff.
  pose proof H62 as H62'. rewrite HD, !zlen_app in H62'. unfold zlen in H62'.
  rewrite (u64_small (zlen S + _)) by (unfold is_u64, zlen; lia). rewrite (geb_true (zlen B)) by (unfold zlen; lia). exec.
  replace (zlen S + Z.of_nat i) with (Z.of_nat (length S + i)) by (unfold zlen; lia).
  rewrite tail_ok by (done || lia). exec. rewrite <- Hnew.
  set (info2 := mkInfo _ _ _ _ _). eexists _, _, info2. split; [done|]. rewrite app_assoc.
  assert (∀ cb, bulk_chunk info = Some cb → cb ∉ (done ++ more) ++ [c'] ∧ chunks s' !! cb = chunks s !! cb ∧ blocks_of cb new = []) as Hsame.
  { intros cb Hcb. destruct (bulk_owned _ _ _ _ _ _ _ _ _ Hbulk Hcb) as [Hna Hcb'].
    destruct (tc_chunks _ _ _ _ _ Htc cb) as [Hc1 Hc2]; [intros ->; apply Hna; set_solver|by eapply fr_chunks|]. split_and!; [|done|done].
    intros Hin. destruct (chunk_not_bulk _ _ _ _ _ _ _ _ _ _ _ _ _ Hca' cb) as (o & n & Ho); [set_solver|]. rewrite Hc1, Hcb' in Ho. done. }
  assert (bulk_at s' (outs ++ new) f D S x' info ((done ++ more) ++ [c'])) as Hb' by by eapply bulk_frame.
  split; [|split].
  - by eapply fresh_put_info, fresh_bulk.
  - exists x', ((done ++ more) ++ [c']). cbn [next_chunk info2]. rewrite (proj2 (ca_info _ _ _ _ _ _ _ _ _ _ _ _ _ Hca')).
    split; [cbn; by rewrite lookup_insert_eq|]. split; [apply Hca'|]. do 4 (split; [congruence|]).
    split; [unfold count_bulk; cbn; rewrite Hx5, Hcount, Hi3, !zlen_app; change (zlen [c]) with 1; change (zlen [c']) with 1; unfold count_bulk; lia|].
    split; [|split; [congruence|split; [cbn; unfold zlen; rewrite length_app; lia|]]].
    + eapply bulk_advance; try done.
    + exists (done ++ more), ks', last'. split; [done|]. split; [|done]. eapply chunks_frame; try done; [cbn; apply Hca'|].
      intros a Ha. split; [done|]. apply bulk_blocks_other. intros Hcb. destruct (Hsame a Hcb) as [Hna _]. apply Hna. set_solver.
  - eapply framed_trans; [eapply touched_framed; [done|by eapply fresh_nil|left; split; [apply Hca|done]]|].
    rewrite <- (app_nil_r (bulk_blocks _ _ _)). eapply framed_trans; [by eapply framed_bulk; [eapply fresh_nil|]|].
    apply framed_info. intros t' Ht'. by rewrite lookup_insert_ne.
Qed.

(** ** The end of a file *)

(** The parts of a file: between its marks, without one at the very end. *)
Definition file_segments (D : bytes) : list (nat * nat) :=
  segments 0 (inner D (cuts minimal maximal threshold D) ++ [length D]).

Definition finished (s : TaskChunk) (outs : list BlockItem) (t f : Z) (D : bytes) (may bulk : bool) : Prop :=
  tag_map_ s !! t = None ∧ ∃ x addrs, files s !! f = Some x ∧ fl_size x = zlen D ∧ is_fully_chunked_ x = 1 ∧
    nchunks_in_fly_ x = zlen addrs + (if negb may || bulk then 1 else 0) ∧ NoDup addrs ∧
    (if may then Forall2 (chunk_done s outs f D) (file_segments D) addrs else addrs = []) ∧
    (if negb may || bulk
     then ∃ c, c ∉ addrs ∧ chunks s !! c = Some (mkChunk f 0 (zlen D) true) ∧ closed_stream K outs f c D
     else True).

Definition stop_blocks (tag f : Z) (c : option Z) : list BlockItem := match c with Some c => [stop_block tag f (Some c)] | None => [] end.

(** The last chunk gets its size. *)
Lemma last_chunk_ok s outs f D x info c addrs ks last : fresh s outs → chunks_at s outs f D D D x info c addrs ks last (length D) → zlen D < 2 ^ 62 →
  ∃ s', (y ← get_chunk s c;
         _ ← cassert (fl_size x >=? ck_offset y);
         s ← set_size s c (u64 (fl_size x - ck_offset y));
         Ret ([stop_block (output_tag_chunk info) f (Some c)], s)) = Ret ([stop_block (c + K) f (Some c)], s') ∧
    files s' = files s ∧ tag_map_ s' = tag_map_ s ∧ fresh s' (outs ++ [stop_block (c + K) f (Some c)]) ∧
    touched f c s s' [stop_block (c + K) f (Some c)] ∧
    Forall2 (chunk_done s' (outs ++ [stop_block (c + K) f (Some c)]) f D) (file_segments D) (addrs ++ [c]).
Proof.
  intros Hfr [Hx Hsize (ptr & y & Hdet & _ & _ & HmD) Hch Hdone Hcur Hstr Hpos [Htag _] Hnd] H62.
  rewrite (get_chunk_ok _ _ _ Hcur). exec. cbn [ck_offset]. rewrite Hsize. unfold zlen in *. rewrite geb_true by lia. exec.
  unfold set_size. rewrite (get_chunk_ok _ _ _ Hcur). exec. cbn [ck_size ck_file ck_offset is_bulk_chunk_]. change (0 =? 0) with true. exec. rewrite Htag.
  rewrite u64_small by (unfold is_u64; lia). eexists. split; [done|]. split; [done|]. split; [done|].
  apply NoDup_cons in Hnd as [Hnin Hnd].
  assert (c < next_address s) as Hcl by (by eapply fr_chunks). split; [|split].
  - split; cbn; [apply Hfr| |].
    + intros a z [[<- _]|[_ Ha]]%lookup_insert_Some; [done|by eapply fr_chunks].
    + intros b a [Hb|Hb]%elem_of_app Ha; [by eapply fr_blocks|]. apply list_elem_of_singleton in Hb as ->. cbn in Ha. by injection Ha as <-.
  - split; try done; cbn.
    + intros a Ha _. split; [by rewrite lookup_insert_ne|by apply stop_other].
    + intros b ->%list_elem_of_singleton. split; [done|]. exists c. split_and!; [done|by left|done].
  - unfold file_segments. rewrite (chain_all minimal maximal threshold Hmin Hmax D ks last Hch HmD), segments_snoc.
    apply Forall2_app; [|constructor; [|constructor]].
    + eapply Forall2_impl_elem; [done|]. intros seg a Ha. assert (a ≠ c) by (intros ->; done).
      apply chunk_done_other; [cbn; by rewrite lookup_insert_ne|by apply stop_other].
    + split; [|by apply open_stop]. cbn. rewrite lookup_insert_eq. do 2 f_equal. lia.
Qed.

Lemma touched_framed_file t f c s s' new y : touched f c s s' new → fresh s [] → chunks s !! c = Some y → ck_file y = f → framed t f s s' new.
Proof. intros Ht Hfr Hc Hy. eapply touched_framed; eauto. Qed.

Lemma framed_put_file t f s x : framed t f s (put_file s f x) [].
Proof. split; try done; [|intros b []%not_elem_of_nil]. intros f' Hf. cbn. by rewrite lookup_insert_ne. Qed.

Lemma fresh_put_file s outs f x : fresh s outs → fresh (put_file s f x) outs.
Proof. by intros []. Qed.

(** The chunk of the whole file at its end. *)
Lemma bulk_stop s outs f D x info addrs : bulk_at s outs f D D x info addrs →
  if negb (may_have_chunks_ x) || has_legacy_bulk_chunk_ x
  then ∃ c, c ∉ addrs ∧ bulk_chunk info = Some c ∧ output_tag_bulk info = c + K ∧ chunks s !! c = Some (mkChunk f 0 (zlen D) true) ∧
    open_stream K outs f c D
  else bulk_chunk info = None.
Proof.
  unfold bulk_at. destruct (bulk_chunk info) as [c|].
  - intros (Hf & Hna & Hc & Ht & Ho). assert (negb (may_have_chunks_ x) || has_legacy_bulk_chunk_ x = true) as -> by (destruct Hf as [-> | ->]; by destruct (may_have_chunks_ x)).
    exists c. by split_and!.
  - intros [-> ->]. done.
Qed.

(** The stop block of the last regular chunk, if there are any. *)
Lemma regular_stop s outs t f D may x info addrs : fresh s outs → files s !! f = Some x → zlen D < 2 ^ 62 →
  match next_chunk info with
  | None => may = false ∧ addrs = []
  | Some c => may = true ∧ ci_offset info = zlen D ∧
      ∃ done ks last, addrs = done ++ [c] ∧ chunks_at s outs f D D D x info c done ks last (length D) ∧ (last ≤ length D)%nat
  end →
  ∃ out s', (match next_chunk info with
      | None => Ret ([], s)
      | Some c => y ← get_chunk s c; _ ← cassert (fl_size x >=? ck_offset y); s ← set_size s c (u64 (fl_size x - ck_offset y));
                  Ret ([stop_block (output_tag_chunk info) f (Some c)], s)
      end) = Ret (out, s') ∧ files s' = files s ∧ tag_map_ s' = tag_map_ s ∧ fresh s' (outs ++ out) ∧ framed t f s s' out ∧ NoDup addrs ∧
    (∀ a, a ∉ addrs → a < next_address s → chunks s' !! a = chunks s !! a ∧ blocks_of a out = []) ∧
    if may then Forall2 (chunk_done s' (outs ++ out) f D) (file_segments D) addrs else addrs = [].
Proof.
  intros Hfr Hx H62 Hnext. destruct (next_chunk info) as [c|].
  - destruct Hnext as (-> & Hoff & dones & ks & last & -> & Hca & Hlast).
    destruct (last_chunk_ok s outs f D x info c dones ks last Hfr Hca H62) as (s2 & -> & Hf & Htm & Hfr2 & Htc & Hsegs).
    eexists _, s2. split; [done|]. split_and!; try done.
    + eapply touched_framed_file; [done|by eapply fresh_nil|apply Hca|done].
    + destruct Hca as [_ _ _ _ _ _ _ _ _ Hnd]. by rewrite (Permutation_app_comm dones [c]).
    + intros a Ha Hlt. apply (tc_chunks _ _ _ _ _ Htc); [set_solver|done].
  - destruct Hnext as [-> ->]. exists [], s. rewrite app_nil_r. split_and!; try done; [|constructor].
    split; try done. intros b []%not_elem_of_nil.
Qed.

Lemma chunk_stop_ok s outs t f ch D may bulk info : fresh s outs → running s outs t f D may bulk D info → zlen D < 2 ^ 62 →
  ∃ new s', chunk_stop s (mkBlock kBlockStop t f ch []) info = Ret (new, s') ∧ fresh s' (outs ++ new) ∧
    finished s' (outs ++ new) t f D may bulk ∧ framed t f s s' new.
Proof.
  intros Hfr (x & addrs & Ht & Hx & Hsize & Hm & Hb & Hfull & Hcount & Hbulk & Hnext) H62.
  unfold chunk_stop. cbn [bl_file bl_tag]. rewrite (get_file_ok _ _ _ Hx). exec.
  set (x1 := set_is_fully_chunked x). set (s1 := put_file s f x1).
  assert (files s1 !! f = Some x1) as Hx1 by (cbn; by rewrite lookup_insert_eq).
  destruct (regular_stop s1 outs t f D may x1 info addrs) as (out & s2 & Heq & Hf2 & Ht2 & Hfr2 & Hfm2 & Hnd & Hother & Hseg); [by apply fresh_put_file|done|done|..].
  { destruct (next_chunk info) as [c|]; [|done]. destruct Hnext as (-> & Hoff & dones & ks & last & -> & Hca & Hlast).
    split_and!; try done. exists dones, ks, last. split_and!; try done. rewrite <- (app_nil_r outs). by eapply chunks_frame. }
  change (fl_size x1) with (fl_size x) in Heq. rewrite Heq. exec. pose proof (bulk_stop s outs f D x info addrs Hbulk) as Hbs. rewrite Hm, Hb in Hbs.
  set (s3 := put_info s2 (delete t (tag_map_ s2))).
  assert (framed t f s s3 out) as Hfm3.
  { apply (framed_trans t f s s1 _ [] out); [apply framed_put_file|]. rewrite <- (app_nil_r out). eapply framed_trans; [done|].
    apply framed_info. intros t' Ht'. by rewrite lookup_delete_ne. }
  assert (count_bulk info = if negb may || bulk then 1 else 0) as Hcb.
  { unfold count_bulk. destruct (negb may || bulk); [destruct Hbs as (c & _ & -> & _); done|by rewrite Hbs]. }
  rewrite Hcb in Hcount. destruct (negb may || bulk) eqn:Hmb.
  - destruct Hbs as (c & Hna & Hbc & Htag & Hc & Ho). rewrite Hbc, Htag.
    assert (c < next_address s) as Hcl by (by eapply fr_chunks). destruct (Hother c Hna Hcl) as [Hc2 Hcb2].
    assert (chunks s2 !! c = Some (mkChunk f 0 (zlen D) true)) as Hc3 by (by rewrite Hc2).
    eexists _, s3. split; [done|]. rewrite app_assoc. split; [|split].
    + apply fresh_put_info, fresh_blocks; [done|]. intros b a ->%list_elem_of_singleton [= <-]. by eapply fr_chunks.
    + split; [cbn; by rewrite lookup_delete_eq|]. exists x1, addrs. rewrite Hmb. split; [cbn; by rewrite Hf2|]. split; [done|].
      split; [cbn; lia|]. split; [done|]. split; [done|]. split.
      * destruct may; [|done]. eapply Forall2_impl_elem; [done|]. intros seg a Ha. apply chunk_done_other; [done|]. apply stop_other. by intros ->.
      * exists c. split_and!; [done|done|]. by apply open_stop, open_other.
    + rewrite <- (app_nil_r out), <- app_assoc. eapply (framed_trans t f s s3 s3 out); [done|]. split; try done.
      * intros a y Ha Hy. split; [done|]. apply stop_other. intros ->. change (chunks s3) with (chunks s2) in Ha. rewrite Hc3 in Ha. by injection Ha as <-.
      * intros b ->%list_elem_of_singleton. split; [done|]. by exists c.
  - rewrite Hbs. eexists _, s3. split; [done|]. split; [by apply fresh_put_info|split; [|done]].
    split; [cbn; by rewrite lookup_delete_eq|]. exists x1, addrs. rewrite Hmb. split; [cbn; by rewrite Hf2|]. split; [done|].
    split; [cbn; lia|]. done.
Qed.

(** ** [Process] *)

Definition at_data (s : TaskChunk) (outs : list BlockItem) (t f : Z) (D : bytes) (may bulk : bool) (S : bytes) : Prop :=
  (S = [] ∧ not_started s t f D may bulk) ∨ ∃ info, running s outs t f D may bulk S info.

(** The first part of [Process]: afterwards the file is known. *)
Lemma Process_begin s outs t f D may bulk S ty ch B : fresh s outs → at_data s outs t f D may bulk S → 0 ≤ t →
  ∃ info s1, TaskChunk_Process s (mkBlock ty t f ch B)
    = (match ty with
       | kBlockStop => chunk_stop s1 (mkBlock ty t f ch B) info
       | kBlockData => chunk_data s1 (mkBlock ty t f ch B) info
       | kBlockHollow => Fail AssertFailed
       end) ∧ fresh s1 outs ∧ running s1 outs t f D may bulk S info ∧ framed t f s s1 [].
Proof.
  intros Hfr Hat H0. unfold TaskChunk_Process. cbn [bl_tag bl_file bl_type].
  assert (∀ info s1, running s1 outs t f D may bulk S info → bool_decide (is_Some (bulk_chunk info)) || bool_decide (is_Some (next_chunk info)) = true) as Hone.
  { intros info s1 (x & addrs & _ & _ & _ & Hm & _ & _ & _ & Hb & Hn). unfold bulk_at in Hb. apply orb_true_iff. rewrite !bool_decide_eq_true.
    destruct (bulk_chunk info) as [c|]; [left; eauto|]. destruct (next_chunk info) as [c|]; [right; eauto|].
    destruct Hb as [Hb _], Hn as [Hn _]. congruence. }
  destruct Hat as [[-> Hns]|[info Hrun]].
  - destruct (start_ok s outs t f D may bulk Hfr Hns) as (info & s1 & Hs & Hfr1 & Hrun & Hfm). destruct Hns as [Ht Hx].
    rewrite (get_file_ok _ _ _ Hx). exec. rewrite geb_true by lia. exec. rewrite Ht, Hs. exec. rewrite (Hone _ _ Hrun). exec.
    eexists info, _. by split_and!.
  - pose proof Hrun as (x & addrs & Ht & Hx & _). rewrite (get_file_ok _ _ _ Hx). exec. rewrite geb_true by lia. exec. rewrite Ht. exec.
    rewrite (Hone _ _ Hrun). exec. exists info, s. split_and!; try done. split; try done. intros b []%not_elem_of_nil.
Qed.

Lemma Process_data_ok s outs t f D may bulk S B R : fresh s outs → at_data s outs t f D may bulk S → 0 ≤ t → D = S ++ B ++ R → B ≠ [] →
  zlen D < 2 ^ 62 → zlen B < 2 ^ 32 →
  ∃ new s', TaskChunk_Process s (mkBlock kBlockData t f None B) = Ret (new, s') ∧ fresh s' (outs ++ new) ∧
    at_data s' (outs ++ new) t f D may bulk (S ++ B) ∧ framed t f s s' new.
Proof.
  intros Hfr Hat H0 HD HB H62 H32. destruct (Process_begin s outs t f D may bulk S kBlockData None B Hfr Hat H0) as (info & s1 & -> & Hfr1 & Hrun & Hfm).
  destruct (chunk_data_ok s1 outs t f None D may bulk S B R info Hfr1 Hrun HD HB H62 H32) as (new & s' & info' & -> & Hfr' & Hrun' & Hfm').
  exists new, s'. split_and!; [done|done|right; by exists info'|]. by apply (framed_trans t f s s1 s' [] new).
Qed.

Lemma Process_stop_ok s outs t f D may bulk : fresh s outs → at_data s outs t f D may bulk D → 0 ≤ t → zlen D < 2 ^ 62 →
  ∃ new s', TaskChunk_Process s (stop_block t f None) = Ret (new, s') ∧ fresh s' (outs ++ new) ∧
    finished s' (outs ++ new) t f D may bulk ∧ framed t f s s' new.
Proof.
  intros Hfr Hat H0 H62. destruct (Process_begin s outs t f D may bulk D kBlockStop None [] Hfr Hat H0) as (info & s1 & Heq & Hfr1 & Hrun & Hfm).
  unfold stop_block. rewrite Heq.
  destruct (chunk_stop_ok s1 outs t f None D may bulk info Hfr1 Hrun H62) as (new & s' & -> & Hfr' & Hfin & Hfm').
  exists new, s'. split_and!; [done|done|done|]. by apply (framed_trans t f s s1 s' [] new).
Qed.

(** ** Other files *)

Lemma running_frame s s' outs new t f t' f' D may bulk S info : running s outs t' f' D may bulk S info → framed t f s s' new → t' ≠ t → f' ≠ f →
  running s' (outs ++ new) t' f' D may bulk S info.
Proof.
  intros (x & addrs & Ht & Hx & Hsize & Hm & Hb & Hfull & Hcount & Hbulk & Hnext) [T F C _] Hne Hfne.
  exists x, addrs. split; [by rewrite T|]. split; [by rewrite F|]. do 5 (split; [done|]). split.
  - eapply bulk_frame; try done. intros c Hc. destruct (bulk_owned _ _ _ _ _ _ _ _ _ Hbulk Hc) as [Hna Hc']. split; [done|].
    destruct (C c _ Hc') as [-> Hbl]; [done|]. by rewrite Hc'.
  - destruct (next_chunk info) as [c|]; [|done]. destruct Hnext as (Hmay & Hoff & dones & ks & last & -> & Hca & Hlast).
    split_and!; try done. exists dones, ks, last. split_and!; try done. eapply chunks_frame; try done; [by rewrite F; [apply Hca|]|].
    intros a Ha. destruct (chunk_not_bulk _ _ _ _ _ _ _ _ _ _ _ _ _ Hca a Ha) as (o & n & Ho). destruct (C a _ Ho) as [-> Hbl]; [done|]. by rewrite Ho.
Qed.

Lemma at_data_frame s s' outs new t f t' f' D may bulk S : at_data s outs t' f' D may bulk S → framed t f s s' new → t' ≠ t → f' ≠ f →
  at_data s' (outs ++ new) t' f' D may bulk S.
Proof.
  intros [[-> [Ht Hx]]|[info Hrun]] Hfm Hne Hfne.
  - left. split; [done|]. split; [by rewrite (fm_tags _ _ _ _ _ Hfm)|by rewrite (fm_files _ _ _ _ _ Hfm)].
  - right. exists info. by eapply running_frame.
Qed.

Lemma finished_frame s s' outs new t f t' f' D may bulk : finished s outs t' f' D may bulk → framed t f s s' new → t' ≠ t → f' ≠ f →
  finished s' (outs ++ new) t' f' D may bulk.
Proof.
  intros [Ht (x & addrs & Hx & Hsz & Hfull & Hcount & Hnd & Hseg & Hbulk)] [T F C _] Hne Hfne.
  split; [by rewrite T|]. exists x, addrs. split; [by rewrite F|]. do 4 (split; [done|]). split.
  - destruct may; [|done]. eapply Forall2_impl_elem; [done|]. intros seg a Ha [Hc Hst]. destruct (C a _ Hc) as [Hc' Hbl]; [done|].
    split; [done|by apply closed_other].
  - destruct (negb may || bulk); [|done]. destruct Hbulk as (c & Hna & Hc & Hst). exists c. destruct (C c _ Hc) as [Hc' Hbl]; [done|].
    split_and!; [done|done|by apply closed_other].
Qed.

(** ** All files *)

(** What is published: for each tag the file, its contents, and how it is to be
    stored. *)
Record job := mkJob { jb_file : Z; jb_data : bytes; jb_may : bool; jb_bulk : bool }.

Definition blocks_with (t : Z) (blocks : list BlockItem) : list BlockItem := filter (λ b, bl_tag b = t) blocks.

Definition good_piece (d : bytes) : Prop := d ≠ [] ∧ zlen d < 2 ^ 32.

(** The blocks of a file as [TaskRead] sends them. *)
Definition file_blocks (t f : Z) (datas : list bytes) : list BlockItem := ((λ d, mkBlock kBlockData t f None d) <$> datas) ++ [stop_block t f None].

Definition file_state (s : TaskChunk) (outs ins : list BlockItem) (t : Z) (j : job) : Prop :=
  (∃ S datas, blocks_with t ins = file_blocks t (jb_file j) datas ∧ jb_data j = S ++ concat datas ∧ Forall good_piece datas ∧
     at_data s outs t (jb_file j) (jb_data j) (jb_may j) (jb_bulk j) S) ∨
  (blocks_with t ins = [] ∧ finished s outs t (jb_file j) (jb_data j) (jb_may j) (jb_bulk j)).

Record jobs_ok (jobs : gmap Z job) : Prop := {
  jo_tag : ∀ t j, jobs !! t = Some j → 0 ≤ t ∧ zlen (jb_data j) < 2 ^ 62;
  jo_file : ∀ t t' j j', jobs !! t = Some j → jobs !! t' = Some j' → jb_file j = jb_file j' → t = t'
}.

Lemma file_state_frame s s' outs new b ins t j : file_state s outs (b :: ins) t j → bl_tag b ≠ t → jb_file j ≠ bl_file b →
  framed (bl_tag b) (bl_file b) s s' new → file_state s' (outs ++ new) ins t j.
Proof.
  intros Hst Hne Hf Hfm. assert (blocks_with t (b :: ins) = blocks_with t ins) as Hb by (by unfold blocks_with; rewrite filter_cons_False).
  unfold file_state in *. rewrite Hb in Hst. destruct Hst as [(S & datas & H1 & H2 & H3 & H4)|[H1 H2]].
  - left. exists S, datas. split_and!; try done. by eapply at_data_frame.
  - right. split; [done|]. by eapply finished_frame.
Qed.

Lemma run_chunk_ok jobs : jobs_ok jobs → ∀ ins s outs, fresh s outs → (∀ b, b ∈ ins → is_Some (jobs !! bl_tag b)) →
  (∀ t j, jobs !! t = Some j → file_state s outs ins t j) →
  ∃ new s', run_chunk s ins = Ret (new, s') ∧ fresh s' (outs ++ new) ∧
    ∀ t j, jobs !! t = Some j → finished s' (outs ++ new) t (jb_file j) (jb_data j) (jb_may j) (jb_bulk j).
Proof.
  intros Hjobs. induction ins as [|b ins IH]; intros s outs Hfr Hin Hst.
  { exists [], s. rewrite app_nil_r. split_and!; [done|done|]. intros t j Hj. destruct (Hst t j Hj) as [(S & datas & Hb & _)|[_ ?]]; [|done].
    unfold file_blocks in Hb. by destruct datas. }
  cbn [run_chunk]. destruct (Hin b) as [j Hj]; [left|]. destruct (jo_tag _ Hjobs _ _ Hj) as [H0 H62].
  assert (∃ new s', TaskChunk_Process s b = Ret (new, s') ∧ fresh s' (outs ++ new) ∧ bl_file b = jb_file j ∧
    framed (bl_tag b) (bl_file b) s s' new ∧ file_state s' (outs ++ new) ins (bl_tag b) j) as (new & s1 & -> & Hfr1 & Hf & Hfm & Hst1).
  { assert (blocks_with (bl_tag b) (b :: ins) = b :: blocks_with (bl_tag b) ins) as Hb by (by unfold blocks_with; rewrite filter_cons_True).
    destruct (Hst _ _ Hj) as [(S & datas & Hbl & HD & Hgood & Hat)|[Hbl _]]; [|by rewrite Hb in Hbl]. rewrite Hb in Hbl.
    destruct datas as [|d datas]; cbn in Hbl; injection Hbl as Hbe Hbl.
    - cbn in HD. rewrite app_nil_r in HD. rewrite <- HD in Hat.
      destruct (Process_stop_ok s outs _ _ _ _ _ Hfr Hat H0 H62) as (new & s' & Hp & Hfr' & Hfin & Hfm). rewrite <- Hbe in Hp.
      exists new, s'. assert (bl_file b = jb_file j) as Hf by (by rewrite Hbe). rewrite Hf. split_and!; try done. by right.
    - apply Forall_cons in Hgood as [[Hd H32] Hgood]. cbn in HD.
      destruct (Process_data_ok s outs _ _ _ _ _ S d (concat datas) Hfr Hat H0 HD Hd H62 H32) as (new & s' & Hp & Hfr' & Hat' & Hfm). rewrite <- Hbe in Hp.
      exists new, s'. assert (bl_file b = jb_file j) as Hf by (by rewrite Hbe). rewrite Hf. split_and!; try done.
      left. exists (S ++ d), datas. split_and!; try done. by rewrite <- app_assoc. }
  exec. destruct (IH s1 (outs ++ new) Hfr1) as (new2 & s2 & -> & Hfr2 & Hfin).
  - intros b' Hb'. apply Hin. by right.
  - intros t' j' Hj'. destruct (decide (t' = bl_tag b)) as [->|Hne]; [by rewrite Hj in Hj'; injection Hj' as <-|].
    apply (file_state_frame s s1 outs new b); [by apply Hst|done| |done]. rewrite Hf. intros Heq. by apply Hne, (jo_file _ Hjobs _ _ _ _ Hj' Hj).
  - exec. exists (new ++ new2), s2. rewrite !app_assoc. done.
Qed.
End Chunk.

(** ** The parts of a file *)

Section Segments.
Context (minimal maximal : nat) (threshold : Z).
Hypothesis Hmin : (32 ≤ minimal)%nat.
Hypothesis Hmax : (minimal < maximal)%nat.

Fixpoint ascending (off : nat) (ks : list nat) : Prop :=
  match ks with
  | [] => True
  | k :: ks => (off ≤ k)%nat ∧ ascending k ks
  end.

Lemma ascending_last ks : ∀ off, ascending off ks → (off ≤ last_mark off ks)%nat.
Proof. induction ks as [|k ks IH]; intros off; [done|]. intros [Hk Ha]. cbn. etrans; [done|by apply IH]. Qed.

(** The parts cover the file. *)
Lemma segments_cover (D : bytes) ks : ∀ off, ascending off ks →
  concat ((λ seg, slice D seg.1 seg.2) <$> segments off ks) = slice D off (last_mark off ks).
Proof.
  induction ks as [|k ks IH]; intros off; [intros _; cbn [last_mark]; by rewrite slice_nil|]. intros [Hk Ha]. cbn. rewrite IH by done.
  apply slice_app. split; [done|]. by apply ascending_last.
Qed.

Definition sizes_ok (segs : list (nat * nat)) : Prop :=
  Forall (λ seg, seg.2 - seg.1 ≤ maximal)%nat segs ∧ Forall (λ seg, minimal ≤ seg.2 - seg.1)%nat (removelast segs).

(** Their sizes are within the limits. *)
Lemma chain_segments D cut ks last : chain minimal maximal threshold D cut ks last → marks minimal maximal threshold D last = None → (cut ≤ length D)%nat →
  ascending cut (inner D ks ++ [length D]) ∧ sizes_ok (segments cut (inner D ks ++ [length D])).
Proof.
  induction 1 as [cut|cut k ks last Hk Hc IH]; intros Hn Hcut.
  - apply (marks_None_short minimal maximal threshold) in Hn; [|done..]. cbn. split; [done|]. split; [|constructor]. constructor; [cbn; lia|constructor].
  - apply marks_range in Hk as [Hr Hl]; [|done..]. destruct (decide (k < length D)%nat) as [Hlt|Hge].
    + destruct (IH Hn) as [Ha [H1 H2]]; [lia|]. unfold inner in *. rewrite filter_cons_True by done. cbn [app ascending segments].
      split; [split; [lia|done]|]. split; [constructor; [cbn; lia|done]|].
      destruct (segments k (filter (λ k0, (k0 < length D)%nat) ks ++ [length D])) as [|seg segs] eqn:Hs; [constructor|].
      cbn [removelast] in *. constructor; [cbn; lia|done].
    + assert (k = length D) as -> by lia. assert (ks = []) as ->.
      { inversion Hc as [|? k' ? ? Hk']; [done|]. apply marks_range in Hk' as [? ?]; [lia|done..]. }
      unfold inner. rewrite filter_cons_False by done. cbn. split; [lia|]. split; [|constructor]. constructor; [cbn; lia|constructor].
Qed.

Lemma chain_exists D n : ∀ cut, (length D - cut ≤ n)%nat → ∃ ks last, chain minimal maximal threshold D cut ks last ∧ marks minimal maximal threshold D last = None.
Proof.
  induction n as [|n IH]; intros cut Hn; destruct (marks minimal maximal threshold D cut) as [k|] eqn:Hk; try (exists [], cut; by split; [constructor|]).
  all: pose proof Hk as Hr; apply marks_range in Hr as [Hr Hl]; [|done..]. 1: lia.
  destruct (IH k) as (ks & last & Hc & Hm); [lia|]. exists (k :: ks), last. split; [by econstructor|done].
Qed.

Lemma file_segments_ok D :
  concat ((λ seg, slice D seg.1 seg.2) <$> file_segments minimal maximal threshold D) = D ∧ sizes_ok (file_segments minimal maximal threshold D).
Proof.
  destruct (chain_exists D (length D) 0) as (ks & last & Hc & Hm); [lia|]. unfold file_segments.
  rewrite (chain_all minimal maximal threshold Hmin Hmax D ks last Hc Hm). destruct (chain_segments D 0 ks last Hc Hm) as [Ha Hs]; [lia|].
  split; [|done]. rewrite segments_cover by done. rewrite last_mark_snoc. apply slice_all.
Qed.
End Segments.

(** The first tag of [TaskChunk]. *)
Definition kFirstTag : Z := Z.shiftl 2 28.

Lemma new_detector_limits mn av mx d : new_detector mn av mx = Ret d → 0 < mn →
  (32 ≤ Z.to_nat mn < Z.to_nat mx)%nat ∧ d = detector (Z.to_nat mn) (Z.to_nat mx) av (threshold_ d) 0 0 0 0.
Proof.
  intros Hd Hmn. unfold new_detector in Hd. rewrite (gtb_true mn) in Hd by done.
  apply bind_Ret in Hd as (? & _ & Hd). apply bind_Ret in Hd as (? & Hd' & Hd). apply bind_Ret in Hd' as (? & H1%cassert_Ret & Hd').
  apply bind_Ret in Hd' as (? & H2%cassert_Ret & H3%cassert_Ret). rewrite Z.geb_leb in H1. apply Z.leb_le in H1. apply Z.ltb_lt in H2, H3. unfold kXor32Window in H1.
  split; [lia|]. injection Hd as <-. unfold detector. cbn. by rewrite !Z2Nat.id by lia.
Qed.

Lemma chunked_ok mn av mx d files jobs ins : new_detector mn av mx = Ret d → 0 < mn → mx < 2 ^ 62 → jobs_ok jobs →
  (∀ t j, jobs !! t = Some j →
     files !! jb_file j = Some (mkFile (zlen (jb_data j)) (jb_may j) (jb_bulk j) d 0 0) ∧
     ∃ datas, blocks_with t ins = file_blocks t (jb_file j) datas ∧ concat datas = jb_data j ∧ Forall good_piece datas) →
  (∀ b, b ∈ ins → is_Some (jobs !! bl_tag b)) →
  ∃ outs s, run_chunk (mkTask files ∅ 0 kFirstTag ∅) ins = Ret (outs, s) ∧ ∀ t j, jobs !! t = Some j →
    finished (Z.to_nat mn) (Z.to_nat mx) (threshold_ d) kFirstTag s outs t (jb_file j) (jb_data j) (jb_may j) (jb_bulk j) ∧
    concat ((λ seg, slice (jb_data j) seg.1 seg.2) <$> file_segments (Z.to_nat mn) (Z.to_nat mx) (threshold_ d) (jb_data j)) = jb_data j ∧
    sizes_ok (Z.to_nat mn) (Z.to_nat mx) (file_segments (Z.to_nat mn) (Z.to_nat mx) (threshold_ d) (jb_data j)).
Proof.
  intros Hd Hmn Hmx Hjobs Hin Hall. destruct (new_detector_limits mn av mx d Hd Hmn) as [[Hmin Hmax] Hdet].
  destruct (run_chunk_ok (Z.to_nat mn) (Z.to_nat mx) av (threshold_ d) kFirstTag Hmin Hmax ltac:(lia) jobs Hjobs ins
    (mkTask files ∅ 0 kFirstTag ∅) []) as (outs & s & Hrun & _ & Hfin).
  - split; [done|done|]. intros b a []%not_elem_of_nil.
  - done.
  - intros t j Hj. destruct (Hin t j Hj) as (Hf & datas & Hb & Hc & Hg). left. exists [], datas. split_and!; try done. left. split; [done|].
    split; [done|]. by rewrite <- Hdet.
  - exists outs, s. split; [done|]. intros t j Hj. split; [by apply Hfin|]. by apply file_segments_ok.
Qed.

(** C5. Files are cut at the marks of their contents. Blocks of any number of files
    arrive in any order, those of a file in sequence and of any size: every file
    that may have chunks is cut into the parts that a function of its contents
    and of the size limits gives, all but the last one not smaller than the minimal
    and none larger than the maximal size, which cover the file.  For each part
    there is a chunk with its offset and size, and a stream of blocks with its
    data that ends with a stop block; likewise for the whole file if it is stored
    as such.  No assertion fails. *)
Theorem files_chunked mn av mx d files jobs ins : new_detector mn av mx = Ret d → 0 < mn → mx < 2 ^ 62 → jobs_ok jobs →
  (∀ t j, jobs !! t = Some j →
     files !! jb_file j = Some (mkFile (zlen (jb_data j)) (jb_may j) (jb_bulk j) d 0 0) ∧
     ∃ datas, blocks_with t ins = file_blocks t (jb_file j) datas ∧ concat datas = jb_data j ∧ Forall good_piece datas) →
  (∀ b, b ∈ ins → is_Some (jobs !! bl_tag b)) →
  ∃ outs s, run_chunk (mkTask files ∅ 0 kFirstTag ∅) ins = Ret (outs, s) ∧ ∀ t j, jobs !! t = Some j →
    finished (Z.to_nat mn) (Z.to_nat mx) (threshold_ d) kFirstTag s outs t (jb_file j) (jb_data j) (jb_may j) (jb_bulk j) ∧
    concat ((λ seg, slice (jb_data j) seg.1 seg.2) <$> file_segments (Z.to_nat mn) (Z.to_nat mx) (threshold_ d) (jb_data j)) = jb_data j ∧
    sizes_ok (Z.to_nat mn) (Z.to_nat mx) (file_segments (Z.to_nat mn) (Z.to_nat mx) (threshold_ d) (jb_data j)).
Proof. apply chunked_ok. Qed.

(** ** Witness *)

Module ChunkingWitness.
(** Two files, the first one also stored as a whole; their blocks alternate. *)
Definition d_w : Xor32Detector := match new_detector 32 40 64 with Ret d => d | Fail _ => mkDetector 0 0 0 0 0 0 0 0 end.
Definition data1 : bytes := (λ i, (i * i * 7 + i * 13) mod 256) <$> seqZ 0 250.
Definition data2 : bytes := replicate 130 7.
Definition files_w : gmap Z FileItem := <[1 := mkFile 250 true true d_w 0 0]> (<[2 := mkFile 130 true false d_w 0 0]> ∅).
Definition jobs_w : gmap Z job := <[5 := mkJob 1 data1 true true]> (<[6 := mkJob 2 data2 true false]> ∅).
Definition ins_w : list BlockItem :=
  [mkBlock kBlockData 5 1 None (take 100 data1); mkBlock kBlockData 6 2 None data2; mkBlock kBlockData 5 1 None (drop 100 data1);
   stop_block 6 2 None; stop_block 5 1 None].

Lemma jobs_w_cases t j : jobs_w !! t = Some j → (t = 5 ∧ j = mkJob 1 data1 true true) ∨ (t = 6 ∧ j = mkJob 2 data2 true false).
Proof. unfold jobs_w. intros [[<- <-]|[_ [[<- <-]|[_ ?]]%lookup_insert_Some]]%lookup_insert_Some; [by left|by right|done]. Qed.

Lemma files_chunked_witness : ∃ outs s, run_chunk (mkTask files_w ∅ 0 kFirstTag ∅) ins_w = Ret (outs, s) ∧
  finished 32 64 (threshold_ d_w) kFirstTag s outs 5 1 data1 true true ∧
  file_segments 32 64 (threshold_ d_w) data1 = [(0, 45); (45, 77); (77, 116); (116, 173); (173, 205); (205, 244); (244, 250)]%nat ∧
  finished 32 64 (threshold_ d_w) kFirstTag s outs 6 2 data2 true false ∧
  file_segments 32 64 (threshold_ d_w) data2 = [(0, 64); (64, 128); (128, 130)]%nat.
Proof.
  destruct (files_chunked 32 40 64 d_w files_w jobs_w ins_w) as (outs & s & Hrun & Hall); [by vm_compute|lia|lia|..].
  - split.
    + intros t j [[-> ->]|[-> ->]]%jobs_w_cases; by vm_compute.
    + intros t t' j j' [[-> ->]|[-> ->]]%jobs_w_cases [[-> ->]|[-> ->]]%jobs_w_cases; done.
  - intros t j [[-> ->]|[-> ->]]%jobs_w_cases; (split; [by vm_compute|]).
    + exists [take 100 data1; drop 100 data1]. split; [by vm_compute|]. split; [by vm_compute|].
      repeat (constructor; [by split; vm_compute|]). constructor.
    + exists [data2]. split; [by vm_compute|]. split; [by vm_compute|]. repeat (constructor; [by split; vm_compute|]). constructor.
  - intros b Hb. unfold ins_w in Hb. rewrite !elem_of_cons in Hb. destruct Hb as [->|[->|[->|[->|[->|[]%not_elem_of_nil]]]]]; eexists; by vm_compute.
  - exists outs, s. split; [done|]. destruct (Hall 5 (mkJob 1 data1 true true) eq_refl) as [H5 _].
    destruct (Hall 6 (mkJob 2 data2 true false) eq_refl) as [H6 _]. split_and!; [exact H5|by vm_compute|exact H6|by vm_compute].
Defined.
End ChunkingWitness.
