(* ===== verification/Stages.v ===== *)
(** * The later stages of the ingestion pipeline (src/cvmfs/ingestion)

    [TaskCompress] replaces the data of the blocks of a chunk by compressed data,
    [TaskHash] hashes it, [TaskWrite] hands it to the uploader.  When the uploader
    has stored a chunk, it is registered with its file; [TaskRegister] reports the
    files that are complete.  The compressors are those of compression.cc. *)

From stdpp Require Import base numbers list gmap.
From S2P Require Import Prelude Bytes Hash ChunkDetector Ingestion.

Open Scope Z_scope.

(** ** Compressors (compression.h, compression.cc) *)

(** [Deflate] takes the input and the room in the output buffer.  It returns
    whether it is done, the input that is left, and the output. *)
Class Compressor (C : Type) := {
  Construct : C;
  Deflate : C → bool → bytes → Z → outcome (bool * bytes * bytes * C)
}.

(** [EchoCompressor] has no state. *)
Definition Echo_Deflate (flush : bool) (inbuf : bytes) (outbufsize : Z) : outcome (bool * bytes * bytes * ()) :=
  let inbufsize := zlen inbuf in
  let bytes_to_copy := Z.min outbufsize inbufsize in
  out ← load inbuf 0 bytes_to_copy;
  Ret (bytes_to_copy =? inbufsize, drop (Z.to_nat bytes_to_copy) inbuf, out, ()).

Definition EchoCompressor : Compressor () := {| Construct := (); Deflate := λ _, Echo_Deflate |}.
#[global] Existing Instance EchoCompressor.

(** [ZlibCompressor] calls [deflate] of zlib: its result, the input that is left, the
    output, and the stream. *)
Inductive zlib_flush := Z_NO_FLUSH | Z_FINISH.
Inductive zlib_result := Z_OK | Z_STREAM_END | Z_OTHER.
#[global] Instance zlib_flush_eq_dec : EqDecision zlib_flush.
Proof. solve_decision. Defined.
#[global] Instance zlib_result_eq_dec : EqDecision zlib_result.
Proof. solve_decision. Defined.

Definition Zlib_Deflate {stream : Type} (deflate : stream → zlib_flush → bytes → Z → zlib_result * bytes * bytes * stream)
    (stream_ : stream) (flush : bool) (inbuf : bytes) (outbufsize : Z) : outcome (bool * bytes * bytes * stream) :=
  let flush_int := if flush then Z_FINISH else Z_NO_FLUSH in
  let '(retcode, avail_in, out, stream_) := deflate stream_ flush_int inbuf outbufsize in
  _ ← cassert (bool_decide (retcode = Z_OK) || bool_decide (retcode = Z_STREAM_END));
  Ret (bool_decide (flush_int = Z_NO_FLUSH) && bool_decide (retcode = Z_OK) && (zlen avail_in =? 0)
       || bool_decide (flush_int = Z_FINISH) && bool_decide (retcode = Z_STREAM_END), avail_in, out, stream_).

Definition ZlibCompressor {stream : Type} (deflateInit : stream)
    (deflate : stream → zlib_flush → bytes → Z → zlib_result * bytes * bytes * stream) : Compressor stream :=
  {| Construct := deflateInit; Deflate := Zlib_Deflate deflate |}.

(** ** [TaskCompress] (task_compress.h, task_compress.cc) *)

Definition kCompressedBlockSize : Z := 4096 * 2.

(** The output blocks by tag, and the compressors of the chunks. *)
Record TaskCompress (C : Type) := mkCompress { cp_tag_map : gmap Z BlockItem; compressor_ : gmap Z C }.
Arguments mkCompress {C} _ _.
Arguments cp_tag_map {C} _.
Arguments compressor_ {C} _.

Section Compress.
Context {C : Type} `{Compressor C}.

Definition GetCompressor (s : TaskCompress C) (c : Z) : C := default Construct (compressor_ s !! c).

Definition new_output (input : BlockItem) : outcome BlockItem :=
  _ ← cassert (bl_tag input >=? 0);
  Ret (mkBlock kBlockData (bl_tag input) (bl_file input) (bl_chunk input) []).

Definition extend (b : BlockItem) (data : bytes) : BlockItem :=
  mkBlock (bl_type b) (bl_tag b) (bl_file b) (bl_chunk b) (bl_data b ++ data).

(** The loop: [input_data] is what remains in the input, [outs] has been dispatched. *)
Fixpoint compress_loop (fuel : nat) (flush : bool) (input : BlockItem) (compressor : C) (input_data : bytes) (output : BlockItem)
    (outs : list BlockItem) : outcome (list BlockItem * BlockItem * C) :=
  match fuel with
  | O => Fail OutOfFuel
  | S fuel =>
      let size := zlen (bl_data output) in
      _ ← cassert (negb (size =? kCompressedBlockSize));
      '(finished, input_data, out, compressor) ← Deflate compressor flush input_data (kCompressedBlockSize - size);
      _ ← cassert (size + zlen out <=? kCompressedBlockSize);
      let output := extend output out in
      '(outs, output) ← (if zlen (bl_data output) =? kCompressedBlockSize
                         then new ← new_output input; Ret (outs ++ [output], new)
                         else Ret (outs, output));
      if (zlen input_data >? 0) || (flush && negb finished)
      then compress_loop fuel flush input compressor input_data output outs
      else Ret (outs, output, compressor)
  end.

Definition TaskCompress_Process (fuel : nat) (s : TaskCompress C) (input : BlockItem) : outcome (list BlockItem * TaskCompress C) :=
  match bl_chunk input with
  | None => Fail AssertFailed
  | Some c =>
      let tag := bl_tag input in
      let flush := bool_decide (bl_type input = kBlockStop) in
      output ← (match cp_tag_map s !! tag with Some output => Ret output | None => new_output input end);
      '(outs, output, compressor) ← compress_loop fuel flush input (GetCompressor s c) (bl_data input) output [];
      if flush then
        let outs := if zlen (bl_data output) >? 0 then outs ++ [output] else outs in
        Ret (outs ++ [stop_block tag (bl_file input) (Some c)], mkCompress (delete tag (cp_tag_map s)) (delete c (compressor_ s)))
      else Ret (outs, mkCompress (<[tag := output]> (cp_tag_map s)) (<[c := compressor]> (compressor_ s)))
  end.
End Compress.

(** ** [TaskHash] (task_hash.cc) *)

(** The contexts and the digests of the chunks; the constructor of a chunk leaves
    the initial context. *)
Record TaskHash (context : Type) := mkHasher { hash_ctx_ : gmap Z context; hash_value_ : gmap Z any }.
Arguments mkHasher {context} _ _.
Arguments hash_ctx_ {context} _.
Arguments hash_value_ {context} _.

Section HashStage.
Context {context : Type} (init : Algorithms → context) (update : context → bytes → context) (final : context → bytes).
Context (a : Algorithms).

Definition hash_ctx (s : TaskHash context) (c : Z) : context := default (init a) (hash_ctx_ s !! c).

Definition TaskHash_Process (s : TaskHash context) (input : BlockItem) : outcome (list BlockItem * TaskHash context) :=
  match bl_chunk input with
  | None => Fail AssertFailed
  | Some c =>
      match bl_type input with
      | kBlockData => Ret ([input], mkHasher (<[c := update (hash_ctx s c) (bl_data input)]> (hash_ctx_ s)) (hash_value_ s))
      | kBlockStop => Ret ([input], mkHasher (hash_ctx_ s) (<[c := Final final (hash_ctx s c) a kSuffixNone]> (hash_value_ s)))
      | kBlockHollow => Fail AssertFailed
      end
  end.
End HashStage.

(** ** [TaskWrite] (task_write.cc) *)

Definition kSuffixPartial : Z := 80.

Definition IsSolePiece (x : ChunkItem) (file_size : Z) : bool :=
  negb (is_bulk_chunk_ x) && (ck_offset x =? 0) && (ck_size x =? file_size).

(** The suffix of the hash of a chunk is set by its constructor and by [MakeBulkChunk]. *)
Definition chunk_suffix (x : ChunkItem) (hash_suffix : Z) : Z := if is_bulk_chunk_ x then hash_suffix else kSuffixPartial.

(** What a file has besides the members of [FileItem] in Ingestion.v. *)
Record FileChunk := mkFileChunk { content_hash : any; fc_offset : Z; fc_size : Z }.
Record FileRest := mkRest { path_ : bytes; hash_suffix_ : Z; bulk_hash_ : any; chunks_ : list FileChunk }.

Definition zero_hash (a : Algorithms) : any := Any (replicate 20 0) a kSuffixNone.
Definition new_rest (path : bytes) (hash_suffix : Z) (a : Algorithms) : FileRest := mkRest path hash_suffix (zero_hash a) [].

(** The calls of the uploader.  A chunk has one upload handle, which is named by the
    chunk. *)
Inductive UploadCall :=
  | InitStreamedUpload (chunk : Z)
  | ScheduleUpload (chunk : Z) (data : bytes)
  | ScheduleCommit (chunk : Z) (hash : any).

(** [upload_handle_] is the set of chunks that have a handle. *)
Record TaskWrite := mkWrite {
  wr_files : gmap Z FileItem;
  wr_rest : gmap Z FileRest;
  wr_chunks : gmap Z ChunkItem;
  upload_handle_ : gset Z
}.

Definition TaskWrite_Process (a : Algorithms) (hashes : gmap Z any) (s : TaskWrite) (input : BlockItem) : outcome (list UploadCall * TaskWrite) :=
  match bl_chunk input with
  | None => Fail OutOfBounds
  | Some c =>
      let calls := if decide (c ∈ upload_handle_ s) then [] else [InitStreamedUpload c] in
      let s := mkWrite (wr_files s) (wr_rest s) (wr_chunks s) ({[c]} ∪ upload_handle_ s) in
      match bl_type input with
      | kBlockData => Ret (calls ++ [ScheduleUpload c (bl_data input)], s)
      | kBlockStop =>
          match wr_chunks s !! c with
          | None => Fail OutOfBounds
          | Some x =>
              match wr_files s !! ck_file x, wr_rest s !! ck_file x with
              | Some y, Some r =>
                  let x := if IsSolePiece x (fl_size y) then mkChunk (ck_file x) (ck_offset x) (ck_size x) true else x in
                  let hash := set_suffix (default (zero_hash a) (hashes !! c)) (chunk_suffix x (hash_suffix_ r)) in
                  Ret (calls ++ [ScheduleCommit c hash], mkWrite (wr_files s) (wr_rest s) (<[c := x]> (wr_chunks s)) (upload_handle_ s))
              | _, _ => Fail OutOfBounds
              end
          end
      | kBlockHollow => Fail AssertFailed
      end
  end.

(** ** Registration (item.cc, task_write.cc, task_register.cc) *)

Definition DecNchunksInFly (f : FileItem) : FileItem :=
  mkFile (fl_size f) (may_have_chunks_ f) (has_legacy_bulk_chunk_ f) (chunk_detector_ f) (nchunks_in_fly_ f - 1) (is_fully_chunked_ f).

Definition RegisterChunk (f : FileItem) (r : FileRest) (file_chunk : FileChunk) : outcome (FileItem * FileRest) :=
  if suffix (content_hash file_chunk) =? kSuffixPartial then
    Ret (DecNchunksInFly f, mkRest (path_ r) (hash_suffix_ r) (bulk_hash_ r) (chunks_ r ++ [file_chunk]))
  else
    _ ← cassert (fc_offset file_chunk =? 0);
    _ ← cassert (fc_size file_chunk =? fl_size f);
    Ret (DecNchunksInFly f, mkRest (path_ r) (hash_suffix_ r) (content_hash file_chunk) (chunks_ r)).

Definition IsProcessed (f : FileItem) : bool := negb (is_fully_chunked_ f =? 0) && (nchunks_in_fly_ f =? 0).

(** [OnChunkComplete] up to [RegisterChunk]: the file of the chunk. *)
Definition complete_register (a : Algorithms) (hashes : gmap Z any) (s : TaskWrite) (return_code c : Z) : outcome (Z * TaskWrite) :=
  _ ← cassert (return_code =? 0);
  match wr_chunks s !! c with
  | None => Fail OutOfBounds
  | Some x =>
      let f := ck_file x in
      match wr_files s !! f, wr_rest s !! f with
      | Some y, Some r =>
          let hash := set_suffix (default (zero_hash a) (hashes !! c)) (chunk_suffix x (hash_suffix_ r)) in
          '(y, r) ← RegisterChunk y r (mkFileChunk hash (ck_offset x) (ck_size x));
          Ret (f, mkWrite (<[f := y]> (wr_files s)) (<[f := r]> (wr_rest s)) (delete c (wr_chunks s)) (upload_handle_ s))
      | _, _ => Fail OutOfBounds
      end
  end.

(** The rest: the file is dispatched if it is complete. *)
Definition complete_check (s : TaskWrite) (f : Z) : outcome (list Z) :=
  match wr_files s !! f with
  | None => Fail OutOfBounds
  | Some y => Ret (if IsProcessed y then [f] else [])
  end.

Definition OnChunkComplete (a : Algorithms) (hashes : gmap Z any) (s : TaskWrite) (return_code c : Z) : outcome (list Z * TaskWrite) :=
  '(f, s) ← complete_register a hashes s return_code c;
  dispatched ← complete_check s f;
  Ret (dispatched, s).

Record SpoolerResult := mkResult { sr_return_code : Z; local_path : bytes; sr_content_hash : any; file_chunks : list FileChunk }.

Definition TaskRegister_Process (a : Algorithms) (s : TaskWrite) (f : Z) : outcome (SpoolerResult * TaskWrite) :=
  match wr_files s !! f, wr_rest s !! f with
  | Some y, Some r =>
      _ ← cassert (negb (zlen (path_ r) =? 0));
      _ ← cassert (negb (has_legacy_bulk_chunk_ y) || negb (IsNull (bulk_hash_ r)));
      _ ← cassert (nchunks_in_fly_ y =? 0);
      _ ← cassert ((zlen (chunks_ r) >? 1) || negb (IsNull (bulk_hash_ r)));
      _ ← cassert (negb (zlen (chunks_ r) =? 1));
      _ ← cassert (hash_suffix_ r =? suffix (bulk_hash_ r));
      _ ← cassert (bool_decide (algorithm (bulk_hash_ r) = a));
      Ret (mkResult 0 (path_ r) (bulk_hash_ r) (chunks_ r), mkWrite (delete f (wr_files s)) (delete f (wr_rest s)) (wr_chunks s) (upload_handle_ s))
  | _, _ => Fail OutOfBounds
  end.
