(* ===== verification/Pipeline.v ===== *)
(** * What the later stages of the ingestion pipeline do

    Compression, hashing, upload and registration of chunks, in any interleaving.
    Each stage works on the chunks independently: its theorem is about the blocks
    of one chunk, and [keyed_run] lifts it to all interleavings. *)

From stdpp Require Import base numbers list gmap.
From S2P Require Import Prelude Bytes Hash ChunkDetector Ingestion Chunking Stages.

Open Scope Z_scope.

(** ** Stages that work on independent streams *)

Definition of_key {A} (key : A → option Z) (k : Z) (l : list A) : list A := filter (λ x, key x = Some k) l.

Lemma of_key_app {A} (key : A → option Z) k l1 l2 : of_key key k (l1 ++ l2) = of_key key k l1 ++ of_key key k l2.
Proof. apply filter_app. Qed.

Lemma of_key_all {A} (key : A → option Z) k l : Forall (λ x, key x = Some k) l → of_key key k l = l.
Proof. induction 1 as [|x l Hx _ IH]; [done|]. unfold of_key in *. rewrite filter_cons_True by done. by rewrite IH. Qed.

Lemma of_key_none {A} (key : A → option Z) k k' l : k ≠ k' → Forall (λ x, key x = Some k') l → of_key key k l = [].
Proof. intros Hk. induction 1 as [|x l Hx _ IH]; [done|]. unfold of_key in *. rewrite filter_cons_False by congruence. done. Qed.

Fixpoint run_stage {W B O} (Process : W → B → outcome (list O * W)) (w : W) (ins : list B) : outcome (list O * W) :=
  match ins with
  | [] => Ret ([], w)
  | b :: ins => '(out, w) ← Process w b; '(outs, w) ← run_stage Process w ins; Ret (out ++ outs, w)
  end.

Section Keyed.
Context {W B O : Type} (Process : W → B → outcome (list O * W)) (kin : B → option Z) (kout : O → option Z).
(** [inv k w i o]: in state [w], the items [i] of key [k] have been processed, with
    the results [o]. *)
Context (inv : Z → W → list B → list O → Prop) (S : Z → list B).
Hypothesis Hstep : ∀ k w i o b, inv k w i o → kin b = Some k → (i ++ [b]) `prefix_of` S k →
  ∃ new w', Process w b = Ret (new, w') ∧ inv k w' (i ++ [b]) (o ++ new) ∧ Forall (λ x, kout x = Some k) new ∧
    ∀ k' i' o', k' ≠ k → inv k' w i' o' → inv k' w' i' o'.

Lemma keyed_run ins : ∀ pre outs w, Forall (λ b, is_Some (kin b)) ins → (∀ k, of_key kin k (pre ++ ins) = S k) →
  (∀ k, inv k w (of_key kin k pre) (of_key kout k outs)) →
  ∃ new w', run_stage Process w ins = Ret (new, w') ∧ Forall (λ x, is_Some (kout x)) new ∧ ∀ k, inv k w' (S k) (of_key kout k (outs ++ new)).
Proof.
  induction ins as [|b ins IH]; intros pre outs w Hkeys HS Hinv; cbn [run_stage].
  { exists [], w. split; [done|]. split; [done|]. intros k. rewrite <- HS, !app_nil_r. done. }
  apply Forall_cons in Hkeys as [[k Hk] Hkeys].
  destruct (Hstep k w _ _ b (Hinv k) Hk) as (new & w1 & Hp & Hi & Hnew & Hframe).
  { rewrite <- HS. change (b :: ins) with ([b] ++ ins). rewrite !of_key_app, (of_key_all kin k [b]) by by constructor.
    exists (of_key kin k ins). by rewrite <- app_assoc. }
  destruct (IH (pre ++ [b]) (outs ++ new) w1) as (new' & w' & Hrun & Hkey & Hend).
  - done.
  - intros k'. rewrite <- app_assoc. apply HS.
  - intros k'. rewrite !of_key_app. destruct (decide (k' = k)) as [->|Hne].
    + rewrite (of_key_all kout k new), (of_key_all kin k [b]) by (done || by constructor). done.
    + rewrite (of_key_none kout k' k new), (of_key_none kin k' k [b]) by (done || by constructor). rewrite !app_nil_r. by apply Hframe.
  - exists (new ++ new'), w'. rewrite Hp. exec. rewrite Hrun. exec. split; [done|]. split; [|intros k'; by rewrite app_assoc].
    apply Forall_app. split; [|done]. eapply Forall_impl; [exact Hnew|]. by eexists.
Qed.
End Keyed.

(** ** Streams of blocks *)

(** A chunk's stream: its file, and the data of its blocks, then a stop block. *)
Definition stream_blocks (a : Z) (m : option (Z * list bytes)) : list BlockItem :=
  match m with
  | Some (f, datas) => (data_block (a + kFirstTag) f a <$> datas) ++ [stop_block (a + kFirstTag) f (Some a)]
  | None => []
  end.

(** The blocks of [l] are those of the streams [M], in some order that keeps the order in each stream. *)
Record streams (M : Z → option (Z * list bytes)) (l : list BlockItem) : Prop := {
  st_chunk : Forall (λ b, is_Some (bl_chunk b)) l;
  st_blocks : ∀ a, of_key bl_chunk a l = stream_blocks a (M a);
  st_data : ∀ a f datas, M a = Some (f, datas) → 0 ≤ a ∧ Forall (λ d, d ≠ []) datas
}.

(** A prefix of a stream that goes on with [b]. *)
Lemma stream_prefix a m i b : (i ++ [b]) `prefix_of` stream_blocks a m →
  ∃ f datas seen, m = Some (f, datas) ∧ i = (data_block (a + kFirstTag) f a <$> seen) ∧
    ((∃ d more, datas = seen ++ d :: more ∧ b = data_block (a + kFirstTag) f a d) ∨ (datas = seen ∧ b = stop_block (a + kFirstTag) f (Some a))).
Proof.
  intros [rest Hr]. destruct m as [[f datas]|]; cbn in Hr; [|by destruct i].
  exists f, datas, (take (length i) datas). split; [done|]. rewrite <- app_assoc in Hr. cbn in Hr.
  apply (f_equal (take (length i))) in Hr as Hi. rewrite take_app_length in Hi.
  apply (f_equal (drop (length i))) in Hr as Hd. rewrite drop_app_length in Hd.
  destruct (decide (length i < length datas)%nat) as [Hlt|Hge].
  - rewrite take_app_le, <- fmap_take in Hi by (rewrite length_fmap; lia). rewrite drop_app_le, <- fmap_drop in Hd by (rewrite length_fmap; lia).
    split; [done|]. left. destruct (drop (length i) datas) as [|d more] eqn:Hdd.
    { apply (f_equal length) in Hdd. rewrite length_drop in Hdd. cbn in Hdd. lia. }
    injection Hd as <- _. exists d, more. split; [|done]. by rewrite <- Hdd, take_drop.
  - apply (f_equal length) in Hr. rewrite !length_app, length_fmap in Hr. cbn in Hr. assert (length i = length datas) as Hl by lia.
    rewrite Hl, take_ge by done. rewrite Hl, drop_app_length' in Hd by by rewrite length_fmap. injection Hd as <- _.
    rewrite Hl, take_app_length' in Hi by by rewrite length_fmap. split; [done|]. by right.
Qed.

#[global] Instance data_block_inj t f a : Inj (=) (=) (data_block t f a).
Proof. by intros d d' [= ->]. Qed.

(** ** Compression *)

(** What a compressor promises. [c_inv c left X Y]: it has consumed [X] and produced
    [Y]; when it is being finished, [left] is the input that is still to come.  It
    consumes input until the output buffer is full.  When it is told to finish, it
    fills the buffer or is done, with the compressed input as the whole output.  The
    output is bounded, as [DeflateBound] says. *)
Class CompressorLaws (C : Type) `{Compressor C} (compress : bytes → bytes) (bound : Z → Z)
    (c_inv : C → option bytes → bytes → bytes → Prop) : Prop := {
  c_init : c_inv Construct None [] [];
  c_feed : ∀ c X Y input room, c_inv c None X Y → 0 < room → input ≠ [] → ∃ fin used rest out c',
    Deflate c false input room = Ret (fin, rest, out, c') ∧ input = used ++ rest ∧ zlen out ≤ room ∧ (rest = [] ∨ zlen out = room) ∧
    c_inv c' None (X ++ used) (Y ++ out);
  c_finish : ∀ c X Y input room, c_inv c None X Y ∨ c_inv c (Some input) X Y → 0 < room → ∃ fin used rest out c',
    Deflate c true input room = Ret (fin, rest, out, c') ∧ input = used ++ rest ∧ zlen out ≤ room ∧
    (if fin : bool then rest = [] ∧ Y ++ out = compress (X ++ input) else zlen out = room ∧ c_inv c' (Some rest) (X ++ used) (Y ++ out));
  c_bound : ∀ c left X Y, c_inv c left X Y → zlen Y ≤ bound (zlen X);
  c_bound_mono : ∀ n m, n ≤ m → bound n ≤ bound m
}.

Section CompressStage.
Context {C : Type} `{HC : Compressor C} (compress : bytes → bytes) (bound : Z → Z) (c_inv : C → option bytes → bytes → bytes → Prop).
Context `{HL : !CompressorLaws C compress bound c_inv}.

Lemma kFirstTag_pos : 0 < kFirstTag.
Proof. done. Qed.

Lemma full_nonempty (d : bytes) : zlen d = kCompressedBlockSize → d ≠ [].
Proof. by intros Hd ->. Qed.

(** One turn of the loop, up to its condition. *)
Lemma loop_turn fuel flush b comp input part outs a f fin rest out comp' : bl_tag b = a + kFirstTag → bl_file b = f → bl_chunk b = Some a → 0 ≤ a →
  zlen part < kCompressedBlockSize → zlen out ≤ kCompressedBlockSize - zlen part →
  Deflate comp flush input (kCompressedBlockSize - zlen part) = Ret (fin, rest, out, comp') →
  let full := zlen (part ++ out) =? kCompressedBlockSize in
  compress_loop (S fuel) flush b comp input (data_block (a + kFirstTag) f a part) outs
  = (let outs := if full then outs ++ [data_block (a + kFirstTag) f a (part ++ out)] else outs in
     let output := data_block (a + kFirstTag) f a (if full then [] else part ++ out) in
     if (zlen rest >? 0) || (flush && negb fin) then compress_loop fuel flush b comp' rest output outs else Ret (outs, output, comp')).
Proof.
  intros Ht Hf Hc Ha Hpart Hout Hd full. cbn [compress_loop data_block bl_data]. rewrite eqb_false by lia. exec. rewrite Hd. exec.
  rewrite leb_true by lia. exec. unfold extend. cbn [bl_data bl_type bl_tag bl_file bl_chunk data_block]. fold full.
  destruct full eqn:Hfull; [|done]. unfold new_output. rewrite Ht, Hf, Hc, geb_true by (pose proof kFirstTag_pos; lia). done.
Qed.

Lemma feed_loop fuel : ∀ b comp X Yb input part outs a f, bl_tag b = a + kFirstTag → bl_file b = f → bl_chunk b = Some a → 0 ≤ a →
  c_inv comp None X (Yb ++ part) → input ≠ [] → zlen part < kCompressedBlockSize →
  bound (zlen (X ++ input)) - zlen (Yb ++ part) < Z.of_nat fuel →
  ∃ od part' comp', compress_loop fuel false b comp input (data_block (a + kFirstTag) f a part) outs
      = Ret (outs ++ (data_block (a + kFirstTag) f a <$> od), data_block (a + kFirstTag) f a part', comp') ∧
    c_inv comp' None (X ++ input) (Yb ++ concat od ++ part') ∧ zlen part' < kCompressedBlockSize ∧ Forall (λ d, d ≠ []) od.
Proof.
  induction fuel as [|fuel IH]; intros b comp X Yb input part outs a f Ht Hf Hc Ha Hinv Hin Hpart Hfuel.
  { apply c_bound in Hinv as Hb. pose proof (c_bound_mono (zlen X) (zlen (X ++ input)) ltac:(unfold zlen; rewrite length_app; lia)). lia. }
  destruct (c_feed _ _ _ _ (kCompressedBlockSize - zlen part) Hinv ltac:(lia) Hin) as (fin & used & rest & out & comp' & Hd & Hsplit & Hout & Hprog & Hinv').
  rewrite (loop_turn _ _ _ _ _ _ _ a f fin rest out comp') by done. cbn zeta. rewrite zlen_app. cbn [andb]. rewrite orb_false_r.
  destruct (decide (rest = [])) as [->|Hrest].
  - cbn [zlen length]. rewrite gtb_false by done. rewrite app_nil_r in Hsplit. subst used. rewrite <- app_assoc in Hinv'.
    destruct (zlen part + zlen out =? kCompressedBlockSize) eqn:Hfull; [apply Z.eqb_eq in Hfull|apply Z.eqb_neq in Hfull].
    + exists [part ++ out], [], comp'. cbn [concat app]. rewrite !app_nil_r. split_and!; [done|done|done|].
      constructor; [|done]. apply full_nonempty. rewrite zlen_app. lia.
    + exists [], (part ++ out), comp'. cbn. rewrite app_nil_r. split_and!; [done|done|rewrite zlen_app; lia|done].
  - destruct Hprog as [?|Hfull]; [done|]. rewrite eqb_true by lia. apply zlen_pos in Hrest as Hr. rewrite gtb_true by lia.
    destruct (IH b comp' (X ++ used) (Yb ++ part ++ out) rest [] (outs ++ [data_block (a + kFirstTag) f a (part ++ out)]) a f)
      as (od & part' & comp'' & Hrun & Hinv'' & Hp & Hod); try done.
    + by rewrite app_nil_r, app_assoc.
    + rewrite <- (app_assoc X), <- Hsplit, app_nil_r. rewrite !zlen_app in *. unfold kCompressedBlockSize in *. lia.
    + exists ((part ++ out) :: od), part', comp''. cbn [concat fmap list_fmap]. rewrite <- (app_assoc X), <- Hsplit in Hinv''.
      rewrite Hrun, <- app_assoc. rewrite <- !app_assoc in *. split_and!; [done|done|done|].
      constructor; [|done]. apply full_nonempty. rewrite zlen_app. lia.
Qed.

Lemma finish_loop fuel : ∀ b comp X Yb input part outs a f, bl_tag b = a + kFirstTag → bl_file b = f → bl_chunk b = Some a → 0 ≤ a →
  c_inv comp None X (Yb ++ part) ∨ c_inv comp (Some input) X (Yb ++ part) → zlen part < kCompressedBlockSize →
  bound (zlen (X ++ input)) - zlen (Yb ++ part) < Z.of_nat fuel →
  ∃ od part' comp', compress_loop fuel true b comp input (data_block (a + kFirstTag) f a part) outs
      = Ret (outs ++ (data_block (a + kFirstTag) f a <$> od), data_block (a + kFirstTag) f a part', comp') ∧
    Yb ++ concat od ++ part' = compress (X ++ input) ∧ Forall (λ d, d ≠ []) od.
Proof.
  induction fuel as [|fuel IH]; intros b comp X Yb input part outs a f Ht Hf Hc Ha Hinv Hpart Hfuel.
  { assert (zlen (Yb ++ part) ≤ bound (zlen X)) as Hb by (destruct Hinv as [Hinv|Hinv]; by apply c_bound in Hinv).
    pose proof (c_bound_mono (zlen X) (zlen (X ++ input)) ltac:(unfold zlen; rewrite length_app; lia)). lia. }
  destruct (c_finish _ _ _ _ (kCompressedBlockSize - zlen part) Hinv ltac:(lia)) as (fin & used & rest & out & comp' & Hd & Hsplit & Hout & Hprog).
  rewrite (loop_turn _ _ _ _ _ _ _ a f fin rest out comp') by done. cbn zeta. rewrite zlen_app. cbn [andb]. destruct fin; cbn [negb].
  - destruct Hprog as [-> Hend]. cbn [zlen length]. rewrite gtb_false by done. cbn [orb]. rewrite <- app_assoc in Hend.
    destruct (zlen part + zlen out =? kCompressedBlockSize) eqn:Hfull; [apply Z.eqb_eq in Hfull|apply Z.eqb_neq in Hfull].
    + exists [part ++ out], [], comp'. cbn [concat app]. rewrite !app_nil_r. split_and!; [done|done|].
      constructor; [|done]. apply full_nonempty. rewrite zlen_app. lia.
    + exists [], (part ++ out), comp'. cbn. rewrite app_nil_r. by split_and!.
  - destruct Hprog as [Hfull Hinv']. rewrite orb_true_r. rewrite eqb_true by lia.
    destruct (IH b comp' (X ++ used) (Yb ++ part ++ out) rest [] (outs ++ [data_block (a + kFirstTag) f a (part ++ out)]) a f)
      as (od & part' & comp'' & Hrun & Hend & Hod); try done.
    + right. by rewrite app_nil_r, app_assoc.
    + rewrite <- (app_assoc X), <- Hsplit, app_nil_r. rewrite !zlen_app in *. unfold kCompressedBlockSize in *. lia.
    + exists ((part ++ out) :: od), part', comp''. cbn [concat fmap list_fmap]. rewrite <- (app_assoc X), <- Hsplit in Hend.
      rewrite Hrun, <- app_assoc. rewrite <- !app_assoc in *. split_and!; [done|done|].
      constructor; [|done]. apply full_nonempty. rewrite zlen_app. lia.
Qed.

Context (M : Z → option (Z * list bytes)) (fuel : nat).
Hypothesis Hdata : ∀ a f datas, M a = Some (f, datas) → 0 ≤ a ∧ Forall (λ d, d ≠ []) datas.
Hypothesis Hfuel : ∀ a f datas, M a = Some (f, datas) → bound (zlen (concat datas)) < Z.of_nat fuel.

Definition compress_inv (a : Z) (w : TaskCompress C) (i o : list BlockItem) : Prop :=
  match M a with
  | None => i = [] ∧ o = []
  | Some (f, datas) =>
      (∃ seen od part, i = (data_block (a + kFirstTag) f a <$> seen) ∧ o = (data_block (a + kFirstTag) f a <$> od) ∧
         (cp_tag_map w !! (a + kFirstTag) = Some (data_block (a + kFirstTag) f a part) ∨ cp_tag_map w !! (a + kFirstTag) = None ∧ part = []) ∧
         c_inv (GetCompressor w a) None (concat seen) (concat od ++ part) ∧ zlen part < kCompressedBlockSize ∧ Forall (λ d, d ≠ []) od) ∨
      (∃ od, i = stream_blocks a (M a) ∧ o = stream_blocks a (Some (f, od)) ∧ concat od = compress (concat datas) ∧ Forall (λ d, d ≠ []) od)
  end.

Lemma open_not_closed t f a seen (l : list BlockItem) : data_block t f a <$> seen ≠ l ++ [stop_block t f (Some a)].
Proof.
  intros Heq. assert (Forall (λ b, bl_type b = kBlockData) (data_block t f a <$> seen)) as Hf by (apply Forall_fmap, Forall_true; done).
  rewrite Heq in Hf. apply Forall_app in Hf as [_ Hf]. apply Forall_cons in Hf as [Hf _]. discriminate Hf.
Qed.

(** The data of the stream of a chunk. *)
Definition stream_datas (a : Z) (l : list BlockItem) : list bytes :=
  bl_data <$> filter (λ b, bl_type b = kBlockData) (of_key bl_chunk a l).

Lemma stream_blocks_datas a f datas : bl_data <$> filter (λ b, bl_type b = kBlockData) (stream_blocks a (Some (f, datas))) = datas.
Proof.
  cbn [stream_blocks]. rewrite filter_app, filter_cons_False, filter_nil, app_nil_r by done. induction datas as [|d datas IH]; [done|].
  rewrite fmap_cons, filter_cons_True, fmap_cons, IH by done. done.
Qed.

(** The output block of the stream. *)
Lemma output_ok (w : TaskCompress C) a f b part : bl_tag b = a + kFirstTag → bl_file b = f → bl_chunk b = Some a → 0 ≤ a →
  cp_tag_map w !! (a + kFirstTag) = Some (data_block (a + kFirstTag) f a part) ∨ cp_tag_map w !! (a + kFirstTag) = None ∧ part = [] →
  (match cp_tag_map w !! (a + kFirstTag) with Some output => Ret output | None => new_output b end) = Ret (data_block (a + kFirstTag) f a part).
Proof.
  intros Ht Hf Hc Ha [-> | [-> ->]]; [done|]. unfold new_output. rewrite Ht, Hf, Hc, geb_true by (pose proof kFirstTag_pos; lia). done.
Qed.

Lemma compress_frame a a' (w w' : TaskCompress C) i o : a' ≠ a → cp_tag_map w' !! (a' + kFirstTag) = cp_tag_map w !! (a' + kFirstTag) →
  compressor_ w' !! a' = compressor_ w !! a' → compress_inv a' w i o → compress_inv a' w' i o.
Proof. intros Hne Ht Hc. unfold compress_inv, GetCompressor. by rewrite Ht, Hc. Qed.

Lemma last_block t f a od part : ∃ last, concat last = part ∧ Forall (λ d, d ≠ []) last ∧
  (if zlen part >? 0 then (data_block t f a <$> od) ++ [data_block t f a part] else data_block t f a <$> od) = (data_block t f a <$> od ++ last).
Proof.
  destruct part as [|x part]; [exists []; by rewrite app_nil_r|]. exists [x :: part]. rewrite gtb_true by (unfold zlen; cbn; lia).
  rewrite fmap_app. cbn. rewrite app_nil_r. split_and!; [done|by constructor|done].
Qed.

Lemma compress_step a w i o b : compress_inv a w i o → bl_chunk b = Some a → (i ++ [b]) `prefix_of` stream_blocks a (M a) →
  ∃ new w', TaskCompress_Process fuel w b = Ret (new, w') ∧ compress_inv a w' (i ++ [b]) (o ++ new) ∧
    Forall (λ x, bl_chunk x = Some a) new ∧ ∀ a' i' o', a' ≠ a → compress_inv a' w i' o' → compress_inv a' w' i' o'.
Proof.
  intros Hinv Hb (f & datas & seen & HM & Hi & Hcase)%stream_prefix. unfold compress_inv in Hinv. rewrite HM in Hinv.
  destruct (Hdata _ _ _ HM) as [Ha Hne]. pose proof (Hfuel _ _ _ HM) as Hfu.
  destruct Hinv as [(seen' & od & part & Hi' & -> & Htag & Hc & Hpart & Hod)|(od & Hi' & _)].
  2: { rewrite Hi in Hi'. by apply open_not_closed in Hi'. }
  assert (seen' = seen) as -> by (rewrite Hi in Hi'; by apply (inj (fmap (data_block (a + kFirstTag) f a))) in Hi'). subst i.
  assert (bl_tag b = a + kFirstTag ∧ bl_file b = f) as [Hbt Hbf] by (destruct Hcase as [(d & more & _ & ->)|[_ ->]]; done).
  assert (∀ d more, datas = seen ++ d :: more → bound (zlen (concat seen ++ d)) - zlen (concat od ++ part) < Z.of_nat fuel) as Hfd.
  { intros d more ->. rewrite concat_app in Hfu. cbn [concat] in Hfu. rewrite app_assoc, zlen_app in Hfu.
    pose proof (c_bound_mono (zlen (concat seen ++ d)) (zlen (concat seen ++ d) + zlen (concat more)) ltac:(unfold zlen; lia)). unfold zlen in *. lia. }
  unfold TaskCompress_Process. rewrite Hb, Hbt, (output_ok w a f b part) by done. exec.
  destruct Hcase as [(d & more & -> & ->)|[-> ->]].
  - destruct (feed_loop fuel (data_block (a + kFirstTag) f a d) (GetCompressor w a) (concat seen) (concat od) d part [] a f) as (od' & part' & comp' & Hrun & Hc' & Hp' & Hod'); try done.
    { apply Forall_app in Hne as [_ [Hd _]%Forall_cons]. done. }
    { by apply (Hfd d more). }
    rewrite bool_decide_eq_false_2 by done. change (bl_data (data_block _ _ _ d)) with d. rewrite Hrun. exec. eexists _, _. split; [done|]. split_and!.
    + unfold compress_inv. rewrite HM. left. exists (seen ++ [d]), (od ++ od'), part'. unfold GetCompressor. cbn [cp_tag_map compressor_].
      rewrite !fmap_app, !lookup_insert_eq, !concat_app. cbn [concat default]. rewrite app_nil_r, <- app_assoc.
      split_and!; [done|done|by left|done|done|by apply Forall_app].
    + by apply Forall_fmap, Forall_true.
    + intros a' i' o' Hne'. apply (compress_frame a); [done|cbn; by rewrite lookup_insert_ne by lia..].
  - destruct (finish_loop fuel (stop_block (a + kFirstTag) f (Some a)) (GetCompressor w a) (concat seen) (concat od) [] part [] a f) as (od' & part' & comp' & Hrun & Hend & Hod'); try done.
    { by left. }
    { rewrite app_nil_r. unfold zlen in *. lia. }
    rewrite bool_decide_eq_true_2 by done. change (bl_data (stop_block _ _ _)) with ([] : bytes). rewrite Hrun. exec. eexists _, _. split; [done|]. rewrite app_nil_r in Hend.
    change (bl_data (data_block _ _ _ part')) with part'. destruct (last_block (a + kFirstTag) f a od' part') as (last & Hl1 & Hl2 & Hl3).
    change (bl_file (stop_block _ f _)) with f. rewrite app_nil_l, Hl3. split_and!.
    + unfold compress_inv. rewrite HM. right. exists (od ++ od' ++ last). cbn [stream_blocks]. rewrite (fmap_app _ od), <- !app_assoc.
      split_and!; [done|done| |by repeat (apply Forall_app; split)]. by rewrite !concat_app, Hl1.
    + apply Forall_app. split; [by apply Forall_fmap, Forall_true|by repeat constructor].
    + intros a' i' o' Hne'. apply (compress_frame a); [done|cbn; by rewrite lookup_delete_ne by lia..].
Qed.

(** The streams after compression, in any interleaving of the input. *)
Lemma compress_stage ins : streams M ins → ∃ outs w M', run_stage (TaskCompress_Process fuel) (mkCompress ∅ ∅) ins = Ret (outs, w) ∧ streams M' outs ∧
  ∀ a, match M a with
       | Some (f, datas) => ∃ od, M' a = Some (f, od) ∧ concat od = compress (concat datas)
       | None => M' a = None
       end.
Proof.
  intros [Hch Hbl _].
  destruct (keyed_run (TaskCompress_Process fuel) bl_chunk bl_chunk compress_inv (λ a, stream_blocks a (M a)) compress_step ins [] [] (mkCompress ∅ ∅)) as (outs & w & Hrun & Hkey & Hend).
  - done.
  - done.
  - intros a. unfold compress_inv. cbn. destruct (M a) as [[f datas]|] eqn:HM; [|done]. left. exists [], [], []. split_and!; [done|done|by right| |done|done].
    apply c_init.
  - cbn [app] in Hend. exists outs, w, (λ a, (λ m, (m.1, stream_datas a outs)) <$> M a). split; [done|].
    assert (∀ a f datas, M a = Some (f, datas) → ∃ od, of_key bl_chunk a outs = stream_blocks a (Some (f, od)) ∧ stream_datas a outs = od ∧
      concat od = compress (concat datas) ∧ Forall (λ d, d ≠ []) od) as Hall.
    { intros a f datas HM. specialize (Hend a). unfold compress_inv in Hend. rewrite HM in Hend. destruct Hend as [(seen & _ & _ & Hi & _)|(od & _ & Ho & Hc & Hod)].
      - symmetry in Hi. by apply open_not_closed in Hi.
      - exists od. split_and!; [done| |done|done]. unfold stream_datas. rewrite Ho. apply stream_blocks_datas. }
    split; [split|].
    + done.
    + intros a. destruct (M a) as [[f datas]|] eqn:HM; cbn.
      * by destruct (Hall a f datas HM) as (od & -> & -> & _).
      * specialize (Hend a). unfold compress_inv in Hend. rewrite HM in Hend. apply Hend.
    + intros a f datas Hm. destruct (M a) as [[f' datas']|] eqn:HM; [|done]. injection Hm as <- <-. split; [by apply (Hdata a f' datas')|].
      by destruct (Hall a f' datas' HM) as (od & _ & -> & _ & Hod).
    + intros a. destruct (M a) as [[f datas]|] eqn:HM; [|done]. destruct (Hall a f datas HM) as (od & _ & -> & Hc & _). by exists od.
Qed.
End CompressStage.

(** ** Hashing *)

Section HashStage.
Context {context : Type} (init : Algorithms → context) (update : context → bytes → context) (final : context → bytes).
Context (H : Algorithms → bytes → bytes).
Context (H_pieces : ∀ a pieces, a ≠ kAny → final (foldl update (init a) pieces) = H a (concat pieces)).
Context (alg : Algorithms) (Halg : alg ≠ kAny) (M : Z → option (Z * list bytes)).

(** The blocks pass; the context of a chunk has seen its data, and in the end its
    hash is set. *)
Definition hash_inv (a : Z) (w : TaskHash context) (i o : list BlockItem) : Prop :=
  o = i ∧ (hash_ctx init alg w a = foldl update (init alg) (bl_data <$> filter (λ b, bl_type b = kBlockData) i)) ∧
  (Exists (λ b, bl_type b = kBlockStop) i → ∃ f datas, M a = Some (f, datas) ∧ hash_value_ w !! a = Some (hash_of H alg kSuffixNone (concat datas))).

Lemma hash_step a w i o b : hash_inv a w i o → bl_chunk b = Some a → (i ++ [b]) `prefix_of` stream_blocks a (M a) →
  ∃ new w', TaskHash_Process init update final alg w b = Ret (new, w') ∧ hash_inv a w' (i ++ [b]) (o ++ new) ∧
    Forall (λ x, bl_chunk x = Some a) new ∧ ∀ a' i' o', a' ≠ a → hash_inv a' w i' o' → hash_inv a' w' i' o'.
Proof.
  intros (-> & Hctx & Hstop) Hb (f & datas & seen & HM & Hi & Hcase)%stream_prefix. unfold TaskHash_Process. rewrite Hb.
  assert (bl_data <$> filter (λ b, bl_type b = kBlockData) i = seen) as Hseen.
  { rewrite <- (stream_blocks_datas a f seen). cbn [stream_blocks]. rewrite filter_app, filter_cons_False, filter_nil, app_nil_r, Hi by done. done. }
  assert (¬ Exists (λ b, bl_type b = kBlockStop) i) as Hno.
  { rewrite Hi. intros Hex%Exists_fmap%Exists_exists. by destruct Hex as (d & _ & ?). }
  rewrite Hseen in Hctx. destruct Hcase as [(d & more & -> & ->)|[-> ->]].
  - cbn [data_block bl_type]. eexists _, _. split; [done|]. split_and!.
    + unfold hash_inv, hash_ctx. cbn [hash_ctx_ hash_value_]. rewrite lookup_insert_eq, filter_app, filter_cons_True, filter_nil, fmap_app, Hseen by done.
      split; [done|]. split; [cbn [default]; by rewrite foldl_app, <- Hctx|]. intros [Hex|Hex]%Exists_app; [done|]. by inversion Hex as [? ? Hx|? ? Hx]; [|inversion Hx].
    + by constructor.
    + intros a' i' o' Hne. unfold hash_inv, hash_ctx. cbn. by rewrite lookup_insert_ne by done.
  - cbn [stop_block bl_type]. eexists _, _. split; [done|]. split_and!.
    + unfold hash_inv, hash_ctx in *. cbn [hash_ctx_ hash_value_]. rewrite lookup_insert_eq, filter_app, filter_cons_False, filter_nil, app_nil_r, Hseen by done.
      split; [done|]. split; [done|]. intros _. exists f, seen. split; [done|]. rewrite Hctx. by rewrite (Final_ok init update final H H_pieces).
    + by constructor.
    + intros a' i' o' Hne. unfold hash_inv, hash_ctx. cbn. by rewrite lookup_insert_ne by done.
Qed.

Lemma hash_stage ins : streams M ins → ∃ outs w, run_stage (TaskHash_Process init update final alg) (mkHasher ∅ ∅) ins = Ret (outs, w) ∧ streams M outs ∧
  ∀ a f datas, M a = Some (f, datas) → hash_value_ w !! a = Some (hash_of H alg kSuffixNone (concat datas)).
Proof.
  intros [Hch Hbl Hd].
  destruct (keyed_run (TaskHash_Process init update final alg) bl_chunk bl_chunk hash_inv (λ a, stream_blocks a (M a)) hash_step ins [] [] (mkHasher ∅ ∅))
    as (outs & w & Hrun & Hkey & Hend); [done|done| |].
  { intros a. unfold hash_inv. split; [done|]. split; [done|]. intros Hex. inversion Hex. }
  exists outs, w. split; [done|]. split; [split; [done| |done]|].
  - intros a. destruct (Hend a) as (Ho & _). exact Ho.
  - intros a f datas HM. destruct (Hend a) as (_ & _ & Hs). destruct Hs as (f' & datas' & HM' & Hv).
    + rewrite HM. cbn. apply Exists_app. right. by constructor.
    + congruence.
Qed.
End HashStage.

(** ** Upload *)

Definition call_chunk (u : UploadCall) : option Z :=
  match u with InitStreamedUpload c | ScheduleUpload c _ | ScheduleCommit c _ => Some c end.

(** The chunk after [TaskWrite]: one that has the whole file is a bulk chunk. *)
Definition written_chunk (x : ChunkItem) (file_size : Z) : ChunkItem :=
  if IsSolePiece x file_size then mkChunk (ck_file x) (ck_offset x) (ck_size x) true else x.

Section WriteStage.
Context (alg : Algorithms) (hashes : gmap Z any) (F : gmap Z FileItem) (R : gmap Z FileRest) (C : gmap Z ChunkItem).
Context (M : Z → option (Z * list bytes)).
Hypothesis Hchunks : ∀ a f datas, M a = Some (f, datas) → ∃ x y r, C !! a = Some x ∧ ck_file x = f ∧ F !! f = Some y ∧ R !! f = Some r.

(** The name under which the chunk is stored. *)
Definition stored_hash (a : Z) (x : ChunkItem) (y : FileItem) (r : FileRest) : any :=
  set_suffix (default (zero_hash alg) (hashes !! a)) (chunk_suffix (written_chunk x (fl_size y)) (hash_suffix_ r)).

Definition first_call (a : Z) (seen : list bytes) : list UploadCall :=
  match seen with [] => [] | _ => [InitStreamedUpload a] end.

Definition write_inv (a : Z) (w : TaskWrite) (i : list BlockItem) (o : list UploadCall) : Prop :=
  wr_files w = F ∧ wr_rest w = R ∧
  match M a with
  | None => i = [] ∧ o = [] ∧ wr_chunks w !! a = C !! a
  | Some (f, datas) =>
      (∃ seen, i = (data_block (a + kFirstTag) f a <$> seen) ∧ o = first_call a seen ++ (ScheduleUpload a <$> seen) ∧
         (a ∈ upload_handle_ w ↔ seen ≠ []) ∧ wr_chunks w !! a = C !! a) ∨
      (i = stream_blocks a (M a) ∧ ∃ x y r, C !! a = Some x ∧ F !! f = Some y ∧ R !! f = Some r ∧
         o = [InitStreamedUpload a] ++ (ScheduleUpload a <$> datas) ++ [ScheduleCommit a (stored_hash a x y r)] ∧
         wr_chunks w !! a = Some (written_chunk x (fl_size y)))
  end.

Lemma write_frame a' w w' i o : wr_files w' = wr_files w → wr_rest w' = wr_rest w → wr_chunks w' !! a' = wr_chunks w !! a' →
  (a' ∈ upload_handle_ w' ↔ a' ∈ upload_handle_ w) → write_inv a' w i o → write_inv a' w' i o.
Proof. intros Hf Hr Hc Hh. unfold write_inv. rewrite Hf, Hr, Hc. destruct (M a') as [[f datas]|]; [by setoid_rewrite Hh|done]. Qed.

Lemma first_calls a (seen : list bytes) (h : gset Z) : (a ∈ h ↔ seen ≠ []) →
  first_call a seen ++ (ScheduleUpload a <$> seen) ++ (if decide (a ∈ h) then [] else [InitStreamedUpload a])
  = InitStreamedUpload a :: (ScheduleUpload a <$> seen).
Proof. intros Hh. destruct seen as [|d seen]; [by rewrite decide_False by naive_solver|]. rewrite decide_True by naive_solver. by rewrite app_nil_r. Qed.

Lemma write_step a w i o b : write_inv a w i o → bl_chunk b = Some a → (i ++ [b]) `prefix_of` stream_blocks a (M a) →
  ∃ new w', TaskWrite_Process alg hashes w b = Ret (new, w') ∧ write_inv a w' (i ++ [b]) (o ++ new) ∧
    Forall (λ x, call_chunk x = Some a) new ∧ ∀ a' i' o', a' ≠ a → write_inv a' w i' o' → write_inv a' w' i' o'.
Proof.
  intros (Hf & Hr & Hinv) Hb (f & datas & seen & HM & Hi & Hcase)%stream_prefix. rewrite HM in Hinv.
  destruct Hinv as [(seen' & Hi' & -> & Hh & Hc)|(Hi' & _)].
  2: { rewrite Hi in Hi'. by apply open_not_closed in Hi'. }
  assert (seen' = seen) as -> by (rewrite Hi in Hi'; by apply (inj (fmap (data_block (a + kFirstTag) f a))) in Hi'). subst i.
  destruct (Hchunks _ _ _ HM) as (x & y & r & Hx & Hxf & Hy & HR).
  unfold TaskWrite_Process. rewrite Hb. destruct Hcase as [(d & more & -> & ->)|[-> ->]].
  - cbn [data_block bl_type bl_data]. eexists _, _. split; [done|]. split_and!.
    + split; [done|]. split; [done|]. rewrite HM. left. exists (seen ++ [d]). cbn [upload_handle_ wr_chunks]. rewrite !fmap_app, !app_assoc, <- (app_assoc (first_call _ _)), first_calls by done.
      split_and!; [done|by destruct seen|set_solver by (destruct seen; done)|done].
    + apply Forall_app. split; [by destruct (decide _); repeat constructor|by repeat constructor].
    + intros a' i' o' Hne. apply write_frame; cbn; [done..|set_solver].
  - cbn [stop_block bl_type wr_files wr_rest wr_chunks]. rewrite Hc, Hx, Hf, Hr, Hxf, Hy, HR. eexists _, _. split; [done|]. split_and!.
    + split; [done|]. split; [done|]. rewrite HM. right. split; [done|]. exists x, y, r. cbn [wr_chunks]. rewrite lookup_insert_eq.
      rewrite !app_assoc, <- (app_assoc (first_call _ _)), first_calls by done. unfold stored_hash, written_chunk. by rewrite Hxf.
    + apply Forall_app. split; [by destruct (decide _); repeat constructor|by repeat constructor].
    + intros a' i' o' Hne. apply write_frame; cbn; [done..| |set_solver]. by rewrite lookup_insert_ne by done.
Qed.

Lemma write_stage ins : streams M ins → ∃ calls w, run_stage (TaskWrite_Process alg hashes) (mkWrite F R C ∅) ins = Ret (calls, w) ∧
  Forall (λ u, is_Some (call_chunk u)) calls ∧ (∀ a, write_inv a w (stream_blocks a (M a)) (of_key call_chunk a calls)).
Proof.
  intros [Hch Hbl Hd].
  apply (keyed_run (TaskWrite_Process alg hashes) bl_chunk call_chunk write_inv (λ a, stream_blocks a (M a)) write_step ins [] [] (mkWrite F R C ∅)); [done|done|].
  intros a. split; [done|]. split; [done|]. destruct (M a) as [[f datas]|]; [|done]. left. exists []. split_and!; [done|done|set_solver|done].
Qed.
End WriteStage.

(** ** Registration *)

Section RegisterStage.
Context (alg : Algorithms) (hashes : gmap Z any) (F : gmap Z FileItem) (R : gmap Z FileRest) (C : gmap Z ChunkItem).

Definition chunk_file (c : Z) : option Z := ck_file <$> C !! c.

Definition chunk_entry (r : FileRest) (c : Z) (x : ChunkItem) : FileChunk :=
  mkFileChunk (set_suffix (default (zero_hash alg) (hashes !! c)) (chunk_suffix x (hash_suffix_ r))) (ck_offset x) (ck_size x).

(** What a chunk adds to its file. *)
Definition registered (r : FileRest) (c : Z) : FileRest :=
  match C !! c with
  | Some x =>
      if chunk_suffix x (hash_suffix_ r) =? kSuffixPartial then mkRest (path_ r) (hash_suffix_ r) (bulk_hash_ r) (chunks_ r ++ [chunk_entry r c x])
      else mkRest (path_ r) (hash_suffix_ r) (content_hash (chunk_entry r c x)) (chunks_ r)
  | None => r
  end.

Definition in_fly (y : FileItem) (n : Z) : FileItem :=
  mkFile (fl_size y) (may_have_chunks_ y) (has_legacy_bulk_chunk_ y) (chunk_detector_ y) n (is_fully_chunked_ y).

(** The chunks in the order of their completion. *)
Context (order : list Z).
Hypothesis Hnodup : NoDup order.
Hypothesis Hfiles : ∀ f, of_key chunk_file f order ≠ [] → ∃ y r, F !! f = Some y ∧ R !! f = Some r ∧ is_fully_chunked_ y ≠ 0 ∧
  nchunks_in_fly_ y = zlen (of_key chunk_file f order) ∧
  ∀ c x, c ∈ of_key chunk_file f order → C !! c = Some x → chunk_suffix x (hash_suffix_ r) ≠ kSuffixPartial → ck_offset x = 0 ∧ ck_size x = fl_size y.

Definition register_inv (f : Z) (w : TaskWrite) (i : list Z) (o : list Z) : Prop :=
  (∀ c, chunk_file c = Some f → c ∉ i → wr_chunks w !! c = C !! c) ∧
  match F !! f, R !! f with
  | Some y, Some r =>
      wr_files w !! f = Some (in_fly y (nchunks_in_fly_ y - zlen i)) ∧ wr_rest w !! f = Some (foldl registered r i) ∧
      o = if decide (i ≠ [] ∧ length i = length (of_key chunk_file f order)) then [f] else []
  | _, _ => i = [] ∧ o = []
  end.

Lemma registered_suffix i : ∀ r, hash_suffix_ (foldl registered r i) = hash_suffix_ r.
Proof. induction i as [|c i IH]; intros r; [done|]. cbn. rewrite IH. unfold registered. destruct (C !! c); [|done]. by destruct (_ =? _). Qed.

Lemma RegisterChunk_ok y r c x n : C !! c = Some x → (chunk_suffix x (hash_suffix_ r) ≠ kSuffixPartial → ck_offset x = 0 ∧ ck_size x = fl_size y) →
  RegisterChunk (in_fly y n) r (chunk_entry r c x) = Ret (in_fly y (n - 1), registered r c).
Proof.
  intros Hx Hbulk. unfold RegisterChunk, registered. rewrite Hx. cbn [content_hash chunk_entry set_suffix suffix fc_offset fc_size].
  destruct (chunk_suffix x (hash_suffix_ r) =? kSuffixPartial) eqn:Hs; [done|]. apply Z.eqb_neq in Hs. destruct (Hbulk Hs) as [-> ->].
  rewrite Z.eqb_refl. exec. cbn [in_fly fl_size]. rewrite Z.eqb_refl. by exec.
Qed.

Lemma register_step f w i o c : register_inv f w i o → chunk_file c = Some f → (i ++ [c]) `prefix_of` of_key chunk_file f order →
  ∃ new w', OnChunkComplete alg hashes w 0 c = Ret (new, w') ∧ register_inv f w' (i ++ [c]) (o ++ new) ∧
    Forall (λ x, Some x = Some f) new ∧ ∀ f' i' o', f' ≠ f → register_inv f' w i' o' → register_inv f' w' i' o'.
Proof.
  intros [Hchunks Hinv] Hc [more Hpre]. destruct (Hfiles f) as (y & r & Hy & Hr & Hfull & Hn & Hbulk).
  { rewrite Hpre. by destruct i. }
  rewrite Hy, Hr in Hinv. destruct Hinv as (Hwy & Hwr & ->).
  assert (c ∉ i) as Hci.
  { assert (NoDup (of_key chunk_file f order)) as Hnd by by apply NoDup_filter. rewrite Hpre in Hnd. apply NoDup_app in Hnd as (Hnd & _ & _).
    apply NoDup_app in Hnd as (_ & Hd & _). intros Hin. apply (Hd c Hin). by left. }
  assert (c ∈ of_key chunk_file f order) as Hco by (rewrite Hpre; set_solver).
  pose proof (Hchunks c Hc Hci) as Hwc. unfold chunk_file in Hc. destruct (C !! c) as [x|] eqn:Hx; [|done]. injection Hc as Hxf.
  unfold OnChunkComplete, complete_register. rewrite Z.eqb_refl. exec. rewrite Hwc, Hxf, Hwy, Hwr.
  pose proof (RegisterChunk_ok y (foldl registered r i) c x (nchunks_in_fly_ y - zlen i) Hx) as Hreg. unfold chunk_entry in Hreg.
  rewrite registered_suffix in *. rewrite Hreg by (intros Hs; by apply (Hbulk c x)). exec. unfold complete_check. cbn [wr_files]. rewrite lookup_insert_eq. exec.
  eexists _, _. split; [done|]. split_and!.
  - split.
    + intros c' Hc' Hi'. cbn. rewrite lookup_delete_ne by set_solver. apply Hchunks; [done|set_solver].
    + rewrite Hy, Hr. cbn [wr_files wr_rest]. rewrite !lookup_insert_eq, foldl_app. cbn [foldl].
      split; [do 2 f_equal; rewrite zlen_app; unfold zlen; cbn; lia|]. split; [done|].
      assert (length i < length (of_key chunk_file f order))%nat as Hlt by (rewrite Hpre, !length_app; cbn; lia).
      rewrite decide_False by (intros [_ ?]; lia). cbn [app]. unfold IsProcessed. cbn [in_fly is_fully_chunked_ nchunks_in_fly_]. rewrite eqb_false by done. cbn [negb andb].
      rewrite length_app. cbn [length]. unfold zlen in Hn. destruct (decide (length i + 1 = length (of_key chunk_file f order))%nat) as [He|He].
      * rewrite eqb_true by (unfold zlen; lia). rewrite decide_True; [done|]. split; [by destruct i|done].
      * rewrite eqb_false by (unfold zlen; lia). rewrite decide_False; [done|]. by intros [_ ?].
  - destruct (IsProcessed _); by repeat constructor.
  - intros f' i' o' Hne [Hch' Hinv']. split.
    + intros c' Hc' Hi'. cbn. destruct (decide (c' = c)) as [->|]; [unfold chunk_file in Hc'; rewrite Hx in Hc'; cbn in Hc'; congruence|].
      rewrite lookup_delete_ne by done. by apply Hch'.
    + cbn [wr_files wr_rest]. by rewrite !lookup_insert_ne by done.
Qed.

(** All files are dispatched, each one once, after its last chunk. *)
Lemma register_stage h : Forall (λ c, is_Some (chunk_file c)) order →
  ∃ dispatched w, run_stage (λ w, OnChunkComplete alg hashes w 0) (mkWrite F R C h) order = Ret (dispatched, w) ∧
  ∀ f, register_inv f w (of_key chunk_file f order) (of_key Some f dispatched).
Proof.
  intros Hkeys.
  destruct (keyed_run (λ w, OnChunkComplete alg hashes w 0) chunk_file Some register_inv (λ f, of_key chunk_file f order) register_step order [] [] (mkWrite F R C h))
    as (new & w & Hrun & _ & Hend); [done|done| |by exists new, w].
  intros f. split; [done|]. cbn [wr_files wr_rest]. destruct (F !! f) as [y|]; [|done]. destruct (R !! f) as [r|]; [|done].
  split; [by rewrite Z.sub_0_r; destruct y|]. split; [done|]. rewrite decide_False; [done|]. by intros [? _].
Qed.
End RegisterStage.

(** ** The chunks of a file *)

(** [nchunks_in_fly_] counts the chunks of a file.  Therefore the chunks that
    [files_chunked] finds are all there are. *)
Section Counting.
Context (P : Z → Prop) (legacy : Z → bool).

Definition chunks_of (s : TaskChunk) (f : Z) : gmap Z ChunkItem := filter (λ kv, ck_file kv.2 = f) (chunks s).

Definition known (s : TaskChunk) (c : option Z) : Prop := match c with Some c => is_Some (chunks s !! c) | None => True end.

Record counted (s : TaskChunk) (outs : list BlockItem) : Prop := {
  ct_next : 0 ≤ next_address s;
  ct_chunks : ∀ a y, chunks s !! a = Some y → 0 ≤ a < next_address s ∧ P (ck_file y);
  ct_count : ∀ f x, P f → files s !! f = Some x → nchunks_in_fly_ x = Z.of_nat (size (chunks_of s f)) ∧ has_legacy_bulk_chunk_ x = legacy f;
  ct_info : ∀ t info, tag_map_ s !! t = Some info → known s (next_chunk info) ∧ known s (bulk_chunk info);
  ct_blocks : Forall (λ b, is_Some (bl_chunk b) ∧ known s (bl_chunk b)) outs
}.

(** The chunks that exist stay. *)
Definition grows (s s' : TaskChunk) : Prop := ∀ c, known s c → known s' c.

Lemma grows_trans s1 s2 s3 : grows s1 s2 → grows s2 s3 → grows s1 s3.
Proof. unfold grows. auto. Qed.

Lemma put_file_counted s outs f x x' : counted s outs → files s !! f = Some x → nchunks_in_fly_ x' = nchunks_in_fly_ x → has_legacy_bulk_chunk_ x' = has_legacy_bulk_chunk_ x → counted (put_file s f x') outs.
Proof.
  intros [H1 H2 H3 H4 H5] Hx Hn Hb. split; try done. cbn. intros f' z HP [[<- <-]|[_ Hz]]%lookup_insert_Some; [by rewrite Hn, Hb; apply H3|by apply H3].
Qed.

Lemma put_chunk_grows s c x : grows s (put_chunk s c x).
Proof. intros [c'|]; [|done]. cbn. intros [y Hy]. destruct (decide (c' = c)) as [->|]; [rewrite lookup_insert_eq|rewrite lookup_insert_ne by done]; by eexists. Qed.

Lemma size_chunks_update (m : gmap Z ChunkItem) c x x' f : m !! c = Some x → ck_file x' = ck_file x →
  size (filter (λ kv : Z * ChunkItem, ck_file kv.2 = f) (<[c := x']> m)) = size (filter (λ kv : Z * ChunkItem, ck_file kv.2 = f) m).
Proof.
  intros Hx Hf. rewrite <- !size_dom. f_equal. apply set_eq. intros k. rewrite !elem_of_dom. unfold is_Some. setoid_rewrite map_lookup_filter_Some.
  destruct (decide (k = c)) as [->|Hne]; [setoid_rewrite lookup_insert_eq|setoid_rewrite lookup_insert_ne; [done|done]]. naive_solver.
Qed.

Lemma put_chunk_counted s outs c x x' : counted s outs → chunks s !! c = Some x → ck_file x' = ck_file x → counted (put_chunk s c x') outs.
Proof.
  intros [H1 H2 H3 H4 H5] Hx Hf. pose proof (put_chunk_grows s c x') as Hg. split; try done.
  - cbn. intros a y [[<- <-]|[_ Hy]]%lookup_insert_Some; [by rewrite Hf; apply (H2 c x)|by apply H2].
  - intros f y HP Hy. unfold chunks_of, put_chunk. cbn. rewrite (size_chunks_update _ _ x) by done. by apply H3.
  - intros t info Hi. destruct (H4 t info Hi). split; by apply Hg.
  - eapply Forall_impl; [exact H5|]. intros b [Hb1 Hb2]. split; [done|by apply Hg].
Qed.

Lemma new_chunk_counted s outs f offset c s' : counted s outs → P f → new_chunk s f offset = Ret (c, s') → counted s' outs ∧ grows s s' ∧ known s' (Some c).
Proof.
  intros [H1 H2 H3 H4 H5] HP (x & Hx & [= <- <-])%bind_Ret. unfold get_file in Hx. destruct (files s !! f) as [x'|] eqn:Hf; [|done]. injection Hx as ->.
  assert (chunks s !! next_address s = None) as Hfresh by (destruct (chunks s !! next_address s) as [y|] eqn:Hy; [apply H2 in Hy; lia|done]).
  set (s' := mkTask _ _ _ _ _). assert (grows s s') as Hg.
  { intros [c|]; [|done]. cbn. intros [y Hy]. rewrite lookup_insert_ne by congruence. by eexists. }
  split; [|split; [done|cbn; rewrite lookup_insert_eq; by eexists]]. split.
  - cbn. lia.
  - cbn. intros a y [[<- <-]|[_ Hy%H2]]%lookup_insert_Some; [split; [lia|done]|split; [lia|apply Hy]].
  - cbn. intros f' y HP' Hy. unfold chunks_of. cbn. destruct (decide (f' = f)) as [->|Hne].
    + rewrite lookup_insert_eq in Hy. injection Hy as <-. rewrite map_filter_insert_True by done. rewrite map_size_insert_None.
      * cbn. destruct (H3 f x HP Hf) as [Hc Hl]. split; [|done]. rewrite Hc. unfold chunks_of. lia.
      * apply map_lookup_filter_None. by left.
    + rewrite lookup_insert_ne in Hy by done. rewrite map_filter_insert_False by (cbn; congruence). rewrite delete_id by done. by apply H3.
  - intros t info Hi. destruct (H4 t info Hi). split; by apply Hg.
  - eapply Forall_impl; [exact H5|]. intros b [Hb1 Hb2]. split; [done|by apply Hg].
Qed.

(** A step that keeps the count. *)
Definition counts (s s' : TaskChunk) : Prop := (∀ outs, counted s outs → counted s' outs) ∧ grows s s'.

Lemma counts_refl s : counts s s.
Proof. split; [done|by intros c]. Qed.

Lemma counts_trans s1 s2 s3 : counts s1 s2 → counts s2 s3 → counts s1 s3.
Proof. intros [H1 G1] [H2 G2]. split; [auto|by eapply grows_trans]. Qed.

Lemma set_size_counts s c size s' : set_size s c size = Ret s' → counts s s'.
Proof.
  unfold set_size, get_chunk. destruct (chunks s !! c) as [x|] eqn:Hx; [|done]. exec. intros H. inv_ret.
  split; [|apply put_chunk_grows]. intros outs Ho. by apply (put_chunk_counted s outs c x).
Qed.

Lemma MakeBulkChunk_counts s c s' : MakeBulkChunk s c = Ret s' → counts s s'.
Proof.
  unfold MakeBulkChunk, get_chunk. destruct (chunks s !! c) as [x|] eqn:Hx; [|done]. exec. intros H. inv_ret.
  split; [|apply put_chunk_grows]. intros outs Ho. by apply (put_chunk_counted s outs c x).
Qed.

Lemma fetch_tag_counts s : counts s (fetch_tag s).2.
Proof. split; [|by intros c]. intros outs []. by split. Qed.

Lemma new_chunk_counts s f offset c s' : P f → new_chunk s f offset = Ret (c, s') → counts s s' ∧ known s' (Some c).
Proof.
  intros HP Hn. split; [split|].
  - intros outs Ho. by apply (new_chunk_counted s outs f offset c s').
  - intros [c'|]; [|done]. cbn. intros [y Hy]. apply bind_Ret in Hn as (x & _ & [= <- <-]). cbn. destruct (decide (c' = next_address s)) as [->|].
    + rewrite lookup_insert_eq. by eexists.
    + rewrite lookup_insert_ne by done. by eexists.
  - apply bind_Ret in Hn as (x & _ & [= <- <-]). cbn. rewrite lookup_insert_eq. by eexists.
Qed.

Lemma put_file_counts s f x x' : files s !! f = Some x → nchunks_in_fly_ x' = nchunks_in_fly_ x →
  has_legacy_bulk_chunk_ x' = has_legacy_bulk_chunk_ x → counts s (put_file s f x').
Proof. intros Hx Hn Hb. split; [|by intros c]. intros outs Ho. by apply (put_file_counted s outs f x). Qed.

Lemma get_file_Ret s f x : get_file s f = Ret x → files s !! f = Some x.
Proof. unfold get_file. destruct (files s !! f); [by intros [= ->]|done]. Qed.

Lemma start_file_counts s f info s' : P f → start_file s f = Ret (info, s') → counts s s' ∧ known s' (next_chunk info) ∧ known s' (bulk_chunk info).
Proof.
  intros HP H. unfold start_file in H. apply bind_Ret in H as (x & _ & H). apply bind_Ret in H as ([[next tag] s1] & H1 & H).
  assert (counts s s1 ∧ known s1 next) as [Hs1 Hnext].
  { destruct (may_have_chunks_ x); [|by injection H1 as <- <- <-; split; [apply counts_refl|]].
    apply bind_Ret in H1 as ([c s2] & Hn & H1). apply new_chunk_counts in Hn as [Hn Hc]; [|done]. injection H1 as <- <- <-.
    split; [apply (counts_trans _ s2); [done|apply fetch_tag_counts]|]. by apply (fetch_tag_counts s2). }
  destruct (_ || _); [|by injection H as <- <-].
  apply bind_Ret in H as ([c s2] & Hn & H). apply new_chunk_counts in Hn as [Hn Hc]; [|done]. apply bind_Ret in H as (s3 & Hb%MakeBulkChunk_counts & H).
  apply bind_Ret in H as (s4 & Hz%set_size_counts & [= <- <-]). cbn [next_chunk bulk_chunk].
  assert (counts s1 s4) as H14 by (eapply counts_trans; [exact Hn|]; by eapply counts_trans). pose proof (fetch_tag_counts s4) as H5.
  split; [eapply counts_trans; [exact Hs1|]; by eapply counts_trans|]. split; [apply H5, H14, Hnext|]. apply H5, Hz, Hb, Hc.
Qed.

Definition known_blocks (s : TaskChunk) (l : list BlockItem) : Prop := Forall (λ b, is_Some (bl_chunk b) ∧ known s (bl_chunk b)) l.

Lemma known_blocks_grows s s' l : grows s s' → known_blocks s l → known_blocks s' l.
Proof. intros Hg Hl. eapply Forall_impl; [exact Hl|]. intros b [Hb1 Hb2]. split; [done|by apply Hg]. Qed.

Lemma known_block s l t f c ty d : known s (Some c) → known_blocks s l → known_blocks s (l ++ [mkBlock ty t f (Some c) d]).
Proof. intros Hc Hl. apply Forall_app. split; [done|]. by repeat constructor. Qed.

Lemma emit_known s l t f c (B : bytes) i n (cond : bool) l' : known s (Some c) → known_blocks s l →
  (if cond then bytes ← load B i n; block_tail ← MakeDataCopy t f (Some c) bytes; Ret (l ++ [block_tail]) else Ret l) = Ret l' → known_blocks s l'.
Proof.
  intros Hc Hl H. destruct cond; [|by injection H as <-]. apply bind_Ret in H as (d & _ & H). apply bind_Ret in H as (b & Hb & [= <-]).
  apply bind_Ret in Hb as (? & _ & [= <-]). by apply known_block.
Qed.

Lemma chunk_loop_counts fuel : ∀ s f info c data i out out' i' info' c' s', P f → known s (Some c) → next_chunk info = Some c → known_blocks s out →
  chunk_loop fuel s f info c data i out = Ret (out', i', info', c', s') →
  counts s s' ∧ known s' (Some c') ∧ next_chunk info' = Some c' ∧ bulk_chunk info' = bulk_chunk info ∧ known_blocks s' out'.
Proof.
  induction fuel as [|fuel IH]; intros s f info c data i out out' i' info' c' s' HP Hc Hi Hout H; [done|]. cbn [chunk_loop] in H.
  apply bind_Ret in H as (x & Hx%get_file_Ret & H). apply bind_Ret in H as ([cut d] & _ & H).
  set (s1 := put_file s f (set_detector x d)) in *. assert (counts s s1) as Hs1 by by apply (put_file_counts s f x).
  destruct (cut =? 0); [injection H as <- <- <- <- <-; split; [done|]; split; [by apply Hs1|]; split; [done|]; split; [done|]; by apply (known_blocks_grows s); [apply Hs1|]|].
  do 3 apply bind_Ret in H as (? & _ & H). apply bind_Ret in H as (out1 & Hemit & H).
  apply (emit_known s1) in Hemit; [|by apply Hs1|by apply (known_blocks_grows s); [apply Hs1|]].
  apply bind_Ret in H as (y & _ & H). apply bind_Ret in H as (? & _ & H). apply bind_Ret in H as (z & _ & H).
  destruct (cut <? fl_size z).
  - apply bind_Ret in H as (s2 & Hs2%set_size_counts & H). apply bind_Ret in H as ([c3 s3] & Hn & H). apply new_chunk_counts in Hn as [Hs3 Hc3]; [|done].
    cbn [fetch_tag] in H. pose proof (fetch_tag_counts s3) as Hs4. apply IH in H as (Hs' & Hc' & Hi' & Hb' & Ho'); [|done|by apply Hs4|done|].
    + split; [|done]. eapply counts_trans; [exact Hs1|]. eapply counts_trans; [exact Hs2|]. eapply counts_trans; [exact Hs3|]. by eapply counts_trans.
    + apply (known_blocks_grows s3); [apply Hs4|]. apply (known_blocks_grows s2); [apply Hs3|]. apply known_block; [by apply Hs2, Hs1|].
      apply (known_blocks_grows s1); [apply Hs2|done].
  - apply IH in H as (Hs' & Hrest); [|done|by apply Hs1|done|done]. split; [by eapply counts_trans|done].
Qed.

Lemma counted_blocks s outs out : counted s outs → known_blocks s out → counted s (outs ++ out).
Proof. intros [H1 H2 H3 H4 H5] Ho. split; try done. by apply Forall_app. Qed.

Lemma put_info_counted s outs m : counted s outs → (∀ t info, m !! t = Some info → known s (next_chunk info) ∧ known s (bulk_chunk info)) →
  counted (put_info s m) outs.
Proof. intros [H1 H2 H3 H4 H5] Hm. by split. Qed.

Lemma insert_info_counted s outs t info : counted s outs → known s (next_chunk info) → known s (bulk_chunk info) →
  counted (put_info s (<[t := info]> (tag_map_ s))) outs.
Proof.
  intros Hc Hn Hb. apply put_info_counted; [done|]. intros t' info' [[<- <-]|[_ Hi]]%lookup_insert_Some; [done|]. by apply (ct_info _ _ Hc t').
Qed.

Lemma chunk_stop_counted s outs input info out s' : counted s outs → known s (next_chunk info) → known s (bulk_chunk info) →
  chunk_stop s input info = Ret (out, s') → counted s' (outs ++ out).
Proof.
  intros Hc Hn Hb H. unfold chunk_stop in H. apply bind_Ret in H as (x & Hx%get_file_Ret & H).
  set (s1 := put_file s (bl_file input) (set_is_fully_chunked x)) in *. assert (counts s s1) as Hs1 by by apply (put_file_counts s _ x).
  apply bind_Ret in H as ([out2 s2] & H2 & [= <- <-]). assert (counts s1 s2 ∧ known_blocks s2 out2) as [Hs2 Ho2].
  { destruct (next_chunk info) as [c|]; [|injection H2 as <- <-; by split; [apply counts_refl|constructor]].
    apply bind_Ret in H2 as (y & _ & H2). apply bind_Ret in H2 as (? & _ & H2). apply bind_Ret in H2 as (s3 & Hs3%set_size_counts & [= <- <-]).
    split; [done|]. apply (known_block s3 []); [by apply Hs3, Hs1|constructor]. }
  assert (counted s2 outs) as Hc2 by by apply Hs2, Hs1. apply counted_blocks.
  - apply put_info_counted; [done|]. intros t info' [_ Hi]%lookup_delete_Some. by apply (ct_info _ _ Hc2 t).
  - change (known_blocks s2 (match bulk_chunk info with Some c => out2 ++ [stop_block (output_tag_bulk info) (bl_file input) (Some c)] | None => out2 end)).
    destruct (bulk_chunk info) as [c|]; [|done]. apply known_block; [by apply Hs2, Hs1|done].
Qed.

Lemma chunk_data_counted s outs input info out s' : P (bl_file input) → counted s outs → known s (next_chunk info) → known s (bulk_chunk info) →
  chunk_data s input info = Ret (out, s') → counted s' (outs ++ out).
Proof.
  intros HP Hc Hn Hb H. unfold chunk_data in H. apply bind_Ret in H as (bulk & H1 & H). apply bind_Ret in H as ([[out2 info2] s2] & H2 & [= <- <-]).
  assert (known_blocks s bulk) as Hbulk.
  { destruct (bulk_chunk info) as [c|]; [|injection H1 as <-; constructor]. apply bind_Ret in H1 as (b & Hcopy & [= <-]).
    apply bind_Ret in Hcopy as (? & _ & [= <-]). by apply (known_block s []); [|constructor]. }
  assert (counts s s2 ∧ known_blocks s2 out2 ∧ known s2 (next_chunk info2) ∧ bulk_chunk info2 = bulk_chunk info) as (Hs2 & Ho2 & Hn2 & Hb2).
  { destruct (next_chunk info) as [c|] eqn:Hnc; [|injection H2 as <- <- <-; split; [apply counts_refl|]; split; [constructor|]; by rewrite Hnc].
    apply bind_Ret in H2 as ([[[[out3 i3] info3] c3] s3] & H3 & H2). apply chunk_loop_counts in H3 as (Hs3 & Hc3 & Hi3 & Hb3 & Ho3); [|done|done|done|constructor].
    apply bind_Ret in H2 as (? & _ & H2). apply bind_Ret in H2 as ([out4 off4] & H4 & [= <- <- <-]). cbn [next_chunk bulk_chunk]. rewrite Hi3.
    split; [done|]. split; [|done]. destruct (_ >? 0); [|by injection H4 as <- <-].
    apply bind_Ret in H4 as (d & _ & H4). apply bind_Ret in H4 as (b & Hcopy & [= <- <-]). apply bind_Ret in Hcopy as (? & _ & [= <-]). by apply known_block. }
  apply counted_blocks.
  - apply insert_info_counted; [by apply Hs2|done|rewrite Hb2; by apply Hs2].
  - change (known_blocks s2 (out2 ++ bulk)). apply Forall_app. split; [done|]. apply (known_blocks_grows s); [apply Hs2|done].
Qed.

Lemma Process_counted s outs input out s' : P (bl_file input) → counted s outs → TaskChunk_Process s input = Ret (out, s') → counted s' (outs ++ out).
Proof.
  intros HP Hc H. unfold TaskChunk_Process in H. apply bind_Ret in H as (x & _ & H). apply bind_Ret in H as (? & _ & H).
  apply bind_Ret in H as ([info s1] & H1 & H). assert (counted s1 outs ∧ known s1 (next_chunk info) ∧ known s1 (bulk_chunk info)) as (Hc1 & Hn & Hb).
  { destruct (tag_map_ s !! bl_tag input) as [info'|] eqn:Hi; [injection H1 as <- <-; split; [done|]; by apply (ct_info _ _ Hc (bl_tag input))|].
    apply bind_Ret in H1 as ([info2 s2] & H2 & [= <- <-]). apply start_file_counts in H2 as (Hs2 & Hn & Hb); [|done].
    split; [|done]. apply insert_info_counted; [by apply Hs2|done|done]. }
  apply bind_Ret in H as (? & _ & H). destruct (bl_type input); [done|by eapply chunk_data_counted|by eapply chunk_stop_counted].
Qed.

Lemma run_chunk_counted ins : ∀ s outs out s', Forall (λ b, P (bl_file b)) ins → counted s outs → run_chunk s ins = Ret (out, s') → counted s' (outs ++ out).
Proof.
  induction ins as [|b ins IH]; intros s outs out s' HP Hc H; cbn in H; [injection H as <- <-; by rewrite app_nil_r|].
  apply Forall_cons in HP as [Hb HP]. apply bind_Ret in H as ([o1 s1] & H1 & H). apply bind_Ret in H as ([o2 s2] & H2 & [= <- <-]).
  rewrite app_assoc. eapply IH; [done| |exact H2]. by apply (Process_counted s outs b).
Qed.
End Counting.
