(* ===== verification/Ingested.v ===== *)
(** * Files through the whole ingestion pipeline

    The stages of Ingestion.v and Stages.v one after the other, with the theorems of
    Chunking.v and Pipeline.v: what is reported for a file names what was uploaded. *)

From stdpp Require Import base numbers list gmap.
From S2P Require Import Prelude Bytes Hash ChunkDetector Ingestion Chunking Stages Pipeline.

Open Scope Z_scope.

(** ** The parts of a file *)

Section Parts.
Context (minimal maximal : nat) (threshold : Z).
Hypothesis Hmin : (32 ≤ minimal)%nat.
Hypothesis Hmax : (minimal < maximal)%nat.
Let file_segments := file_segments minimal maximal threshold.

Lemma segments_range ks : ∀ off seg, ascending off ks → seg ∈ segments off ks → (off ≤ seg.1 ≤ seg.2)%nat ∧ (seg.2 ≤ last_mark off ks)%nat.
Proof.
  induction ks as [|k ks IH]; intros off seg Ha Hs; [by apply not_elem_of_nil in Hs|]. destruct Ha as [Hk Ha]. cbn in Hs. apply elem_of_cons in Hs as [->|Hs].
  - cbn. split; [lia|]. by apply ascending_last.
  - apply IH in Hs as [? ?]; [|done]. cbn. lia.
Qed.

Lemma file_segments_shape D : ∃ ks, file_segments D = segments 0 (ks ++ [length D]) ∧ ascending 0 (ks ++ [length D]) ∧ Forall (λ k, (0 < k < length D)%nat) ks.
Proof.
  destruct (chain_exists minimal maximal threshold Hmin Hmax D (length D) 0) as (ks & last & Hc & Hm); [lia|].
  exists (inner D ks). unfold file_segments, Chunking.file_segments. rewrite (chain_all minimal maximal threshold Hmin Hmax D ks last Hc Hm).
  destruct (chain_segments minimal maximal threshold Hmin Hmax D 0 ks last Hc Hm) as [Ha Hs]; [lia|]. split; [done|]. split; [done|].
  assert (∀ cut, chain minimal maximal threshold D cut ks last → Forall (λ k, (cut < k)%nat) ks) as Hpos.
  { clear Hc Hm Ha Hs. intros cut Hc. induction Hc as [|cut k ks last Hk Hc IH]; [constructor|]. apply marks_range in Hk as [Hr _]; [|done..].
    constructor; [lia|]. eapply Forall_impl; [exact IH|]. cbn. lia. }
  apply Forall_forall. intros k [Hk Hin]%list_elem_of_filter. pose proof (Hpos 0%nat Hc) as Hp. rewrite Forall_forall in Hp. specialize (Hp k Hin). lia.
Qed.

Lemma file_segments_range D seg : seg ∈ file_segments D → (seg.1 ≤ seg.2 ≤ length D)%nat.
Proof.
  destruct (file_segments_shape D) as (ks & -> & Ha & _). intros Hs%segments_range; [|done]. rewrite last_mark_snoc in Hs. lia.
Qed.

(** A part is the whole file only if it is the only one. *)
Lemma file_segments_whole D seg : seg ∈ file_segments D → (seg.1 = 0 ∧ seg.2 - seg.1 = length D)%nat ↔ file_segments D = [(0, length D)%nat].
Proof.
  destruct (file_segments_shape D) as (ks & Hseg & Ha & Hks). rewrite Hseg. intros Hs. destruct ks as [|k ks].
  - cbn in *. apply list_elem_of_singleton in Hs as ->. cbn. split; [done|lia].
  - cbn [app segments ascending] in *. apply Forall_cons in Hks as [Hk _]. split; [|by destruct ks; discriminate]. intros [H0 H1].
    apply elem_of_cons in Hs as [-> |Hs]; [cbn in *; lia|]. apply segments_range in Hs as [? ?]; [lia|apply Ha].
Qed.
End Parts.

(** ** The chunks of the files *)

(** The bytes of a file that a chunk has. *)
Definition chunk_bytes (D : bytes) (y : ChunkItem) : bytes := slice D (Z.to_nat (ck_offset y)) (Z.to_nat (ck_offset y + ck_size y)).

Lemma segment_bytes D f (seg : nat * nat) b : (seg.1 ≤ seg.2)%nat → chunk_bytes D (mkChunk f (Z.of_nat seg.1) (Z.of_nat (seg.2 - seg.1)) b) = slice D seg.1 seg.2.
Proof. intros Hs. unfold chunk_bytes. cbn. by replace (Z.to_nat (Z.of_nat seg.1 + Z.of_nat (seg.2 - seg.1))) with seg.2 by lia; rewrite Nat2Z.id. Qed.

Lemma whole_bytes D f b : chunk_bytes D (mkChunk f 0 (zlen D) b) = D.
Proof. unfold chunk_bytes, zlen. cbn [ck_offset ck_size]. rewrite Z.add_0_l, Nat2Z.id. apply slice_all. Qed.

Lemma length_chunk_bytes D y : zlen (chunk_bytes D y) ≤ zlen D.
Proof. unfold chunk_bytes, slice, zlen. rewrite length_take, length_drop. lia. Qed.

Section Chunks.
Context (minimal maximal : nat) (threshold : Z).
Hypothesis Hmin : (32 ≤ minimal)%nat.
Hypothesis Hmax : (minimal < maximal)%nat.

(** The chunks of a file: those of its parts, and that of the whole file. *)
Record file_list (s : TaskChunk) (blocks : list BlockItem) (j : job) (addrs bulks : list Z) : Prop := {
  fi_nodup : NoDup (addrs ++ bulks);
  fi_all : ∀ a, a ∈ addrs ++ bulks ↔ ∃ y, chunks s !! a = Some y ∧ ck_file y = jb_file j;
  fi_item : ∃ x, files s !! jb_file j = Some x ∧ fl_size x = zlen (jb_data j) ∧ is_fully_chunked_ x ≠ 0 ∧
              nchunks_in_fly_ x = zlen (addrs ++ bulks) ∧ has_legacy_bulk_chunk_ x = jb_bulk j;
  fi_addrs : if jb_may j then Forall2 (chunk_done kFirstTag s blocks (jb_file j) (jb_data j)) (file_segments minimal maximal threshold (jb_data j)) addrs
             else addrs = [];
  fi_bulks : if negb (jb_may j) || jb_bulk j
             then ∃ c, bulks = [c] ∧ chunks s !! c = Some (mkChunk (jb_file j) 0 (zlen (jb_data j)) true) ∧
                    closed_stream kFirstTag blocks (jb_file j) c (jb_data j)
             else bulks = []
}.

Lemma size_all {A} (m : gmap Z A) (l : list Z) : NoDup l → (∀ a, a ∈ l → is_Some (m !! a)) → size m = length l → ∀ a, is_Some (m !! a) → a ∈ l.
Proof.
  intros Hnd Hl Hsize a Ha. assert (list_to_set l = dom m) as Heq.
  { apply leibniz_equiv, set_subseteq_size_equiv.
    - intros x Hx%elem_of_list_to_set. by apply elem_of_dom, Hl.
    - rewrite size_dom, Hsize, size_list_to_set by done. done. }
  by apply elem_of_dom in Ha; rewrite <- Heq, elem_of_list_to_set in Ha.
Qed.

Lemma finished_list P legacy s blocks t j : counted P legacy s blocks → P (jb_file j) → legacy (jb_file j) = jb_bulk j →
  finished minimal maximal threshold kFirstTag s blocks t (jb_file j) (jb_data j) (jb_may j) (jb_bulk j) → ∃ addrs bulks, file_list s blocks j addrs bulks.
Proof.
  intros Hct HP Hleg (_ & x & addrs & Hx & Hsize & Hfull & Hn & Hnd & Haddrs & Hbulk). destruct (ct_count _ _ _ _ Hct _ _ HP Hx) as [Hcount Hl].
  assert (∀ a, a ∈ addrs → ∃ y, chunks s !! a = Some y ∧ ck_file y = jb_file j) as Hin.
  { destruct (jb_may j); [|subst addrs; by intros a []%not_elem_of_nil]. intros a [i Ha]%list_elem_of_lookup.
    destruct (Forall2_lookup_r _ _ _ _ _ Haddrs Ha) as (seg & _ & Hc & _). by eexists. }
  exists addrs. destruct (negb (jb_may j) || jb_bulk j) eqn:Hc; rewrite ?Hc in *.
  - destruct Hbulk as (c & Hca & Hcc & Hcs). exists [c]. assert (NoDup (addrs ++ [c])) as Hnd'.
    { apply NoDup_app. split; [done|]. split; [set_solver|]. apply NoDup_singleton. }
    split; [done| | |done|rewrite Hc; by exists c].
    + intros a. split.
      * intros [Ha|Ha]%elem_of_app; [by apply Hin|]. apply list_elem_of_singleton in Ha as ->. by eexists.
      * intros (y & Hy & Hf). apply (size_all (chunks_of s (jb_file j))); [done| | |].
        -- intros b [Hb|Hb]%elem_of_app; [destruct (Hin b Hb) as (z & Hz & Hzf)|apply list_elem_of_singleton in Hb as ->]; eexists; by apply map_lookup_filter_Some.
        -- rewrite length_app. unfold zlen in Hn. cbn. lia.
        -- eexists. by apply map_lookup_filter_Some.
    + exists x. split_and!; [done|done|lia|rewrite zlen_app; unfold zlen in *; cbn; lia|congruence].
  - exists []. split; rewrite ?app_nil_r; [done| | |done|by rewrite Hc].
    + intros a. split; [apply Hin|]. intros (y & Hy & Hf). apply (size_all (chunks_of s (jb_file j))); [done| | |].
      * intros b Hb'. destruct (Hin b Hb') as (z & Hz & Hzf). eexists. by apply map_lookup_filter_Some.
      * unfold zlen in Hn. lia.
      * eexists. by apply map_lookup_filter_Some.
    + exists x. split_and!; [done|done|lia|lia|congruence].
Qed.

(** The chunk [y] at address [a] of a file: it is one of the parts, or the whole file. *)
Lemma file_list_chunk s blocks j addrs bulks a y : file_list s blocks j addrs bulks → chunks s !! a = Some y → ck_file y = jb_file j →
  closed_stream kFirstTag blocks (jb_file j) a (chunk_bytes (jb_data j) y) ∧
  ((jb_may j = true ∧ ∃ seg, seg ∈ file_segments minimal maximal threshold (jb_data j) ∧
      y = mkChunk (jb_file j) (Z.of_nat seg.1) (Z.of_nat (seg.2 - seg.1)) false) ∨
   negb (jb_may j) || jb_bulk j = true ∧ y = mkChunk (jb_file j) 0 (zlen (jb_data j)) true).
Proof.
  intros [Hnd Hall _ Haddrs Hbulks] Hy Hf. assert (a ∈ addrs ++ bulks) as Ha by (apply Hall; by exists y). apply elem_of_app in Ha as [Ha|Ha].
  - destruct (jb_may j); [|subst addrs; by apply not_elem_of_nil in Ha]. apply list_elem_of_lookup in Ha as [i Ha].
    destruct (Forall2_lookup_r _ _ _ _ _ Haddrs Ha) as (seg & Hseg & Hc & Hs). apply list_elem_of_lookup_2 in Hseg. rewrite Hy in Hc. injection Hc as ->.
    rewrite segment_bytes by (by apply (file_segments_range minimal maximal threshold Hmin Hmax (jb_data j))). split; [done|]. left. split; [done|]. by exists seg.
  - destruct (negb (jb_may j) || jb_bulk j); [|subst bulks; by apply not_elem_of_nil in Ha]. destruct Hbulks as (c & -> & Hc & Hs).
    apply list_elem_of_singleton in Ha as ->. rewrite Hy in Hc. injection Hc as ->. rewrite whole_bytes. split; [done|]. by right.
Qed.

Definition job_file (jobs : gmap Z job) (f : Z) : Prop := ∃ t j, jobs !! t = Some j ∧ jb_file j = f.

(** The streams that leave [TaskChunk]. *)
Definition chunk_streams (s : TaskChunk) (blocks : list BlockItem) (a : Z) : option (Z * list bytes) :=
  (λ y, (ck_file y, stream_datas a blocks)) <$> chunks s !! a.

Section Jobs.
Context (jobs : gmap Z job) (legacy : Z → bool) (s : TaskChunk) (blocks : list BlockItem).
Hypothesis Hcounted : counted (job_file jobs) legacy s blocks.
Hypothesis Hlists : ∀ t j, jobs !! t = Some j → ∃ addrs bulks, file_list s blocks j addrs bulks.

Lemma chunk_job a y : chunks s !! a = Some y → ∃ t j addrs bulks, jobs !! t = Some j ∧ ck_file y = jb_file j ∧ file_list s blocks j addrs bulks.
Proof.
  intros Hy. destruct (ct_chunks _ _ _ _ Hcounted a y Hy) as [_ (t & j & Hj & Hf)]. destruct (Hlists t j Hj) as (addrs & bulks & Hl). by exists t, j, addrs, bulks.
Qed.

Lemma closed_stream_blocks f a data : closed_stream kFirstTag blocks f a data →
  of_key bl_chunk a blocks = stream_blocks a (Some (f, stream_datas a blocks)) ∧ concat (stream_datas a blocks) = data ∧ Forall (λ d, d ≠ []) (stream_datas a blocks).
Proof.
  intros (datas & Hb & Hc & Hne). change (of_key bl_chunk a blocks = stream_blocks a (Some (f, datas))) in Hb.
  assert (stream_datas a blocks = datas) as ->; [|done]. unfold stream_datas. rewrite Hb. apply stream_blocks_datas.
Qed.

Lemma chunk_streams_ok : streams (chunk_streams s blocks) blocks.
Proof.
  split.
  - eapply Forall_impl; [exact (ct_blocks _ _ _ _ Hcounted)|]. by intros b [Hb _].
  - intros a. unfold chunk_streams. destruct (chunks s !! a) as [y|] eqn:Hy; cbn.
    + destruct (chunk_job a y Hy) as (t & j & addrs & bulks & Hj & Hf & Hl). destruct (file_list_chunk _ _ _ _ _ _ _ Hl Hy Hf) as [Hcs _].
      rewrite Hf. by apply closed_stream_blocks in Hcs as [-> _].
    + apply elem_of_nil_inv. intros b [Hk Hb]%list_elem_of_filter. pose proof (ct_blocks _ _ _ _ Hcounted) as Hall. rewrite Forall_forall in Hall.
      destruct (Hall b Hb) as [_ Hkn]. rewrite Hk in Hkn. cbn in Hkn. rewrite Hy in Hkn. by destruct Hkn.
  - intros a f datas Hm. unfold chunk_streams in Hm. destruct (chunks s !! a) as [y|] eqn:Hy; [|done]. injection Hm as <- <-.
    destruct (ct_chunks _ _ _ _ Hcounted a y Hy) as [Ha _]. split; [apply Ha|].
    destruct (chunk_job a y Hy) as (t & j & addrs & bulks & Hj & Hf & Hl). destruct (file_list_chunk _ _ _ _ _ _ _ Hl Hy Hf) as [Hcs _].
    by apply closed_stream_blocks in Hcs as (_ & _ & ?).
Qed.

Lemma chunk_contents a y : chunks s !! a = Some y → ∃ t j, jobs !! t = Some j ∧ ck_file y = jb_file j ∧ concat (stream_datas a blocks) = chunk_bytes (jb_data j) y.
Proof.
  intros Hy. destruct (chunk_job a y Hy) as (t & j & addrs & bulks & Hj & Hf & Hl). destruct (file_list_chunk _ _ _ _ _ _ _ Hl Hy Hf) as [Hcs _].
  exists t, j. by apply closed_stream_blocks in Hcs as (_ & ? & _).
Qed.
End Jobs.

(** ** What is registered for a file *)

Definition single (D : bytes) : bool := bool_decide (file_segments minimal maximal threshold D = [(0, length D)%nat]).

(** The file is also, or only, stored as a whole. *)
Definition stored_whole (j : job) : bool := negb (jb_may j) || jb_bulk j || single (jb_data j).
Definition stored_parts (j : job) : bool := jb_may j && negb (single (jb_data j)).

Lemma not_single D : single D = false → (2 ≤ length (file_segments minimal maximal threshold D))%nat.
Proof.
  intros Hs%bool_decide_eq_false. destruct (file_segments_shape minimal maximal threshold Hmin Hmax D) as (ks & Hk & _). rewrite Hk in *.
  destruct ks as [|k ks]; [done|]. cbn. rewrite segments_snoc, length_app. cbn. lia.
Qed.

Section Registered.
Context (alg : Algorithms) (hashes : gmap Z any) (C : gmap Z ChunkItem).

Definition new_parts (r : FileRest) (c : Z) : list FileChunk :=
  match C !! c with
  | Some x => if chunk_suffix x (hash_suffix_ r) =? kSuffixPartial then [chunk_entry alg hashes r c x] else []
  | None => []
  end.

Lemma registered_same r c : path_ (registered alg hashes C r c) = path_ r ∧ hash_suffix_ (registered alg hashes C r c) = hash_suffix_ r ∧
  chunks_ (registered alg hashes C r c) = chunks_ r ++ new_parts r c.
Proof. unfold registered, new_parts. destruct (C !! c) as [x|]; [destruct (_ =? _)|]; cbn; by rewrite ?app_nil_r. Qed.

Lemma registered_list l : ∀ r, path_ (foldl (registered alg hashes C) r l) = path_ r ∧ hash_suffix_ (foldl (registered alg hashes C) r l) = hash_suffix_ r ∧
  chunks_ (foldl (registered alg hashes C) r l) = chunks_ r ++ concat (new_parts r <$> l).
Proof.
  induction l as [|c l IH]; intros r; cbn; [by rewrite app_nil_r|]. destruct (IH (registered alg hashes C r c)) as (-> & -> & ->).
  destruct (registered_same r c) as (-> & Hs & ->). split; [done|]. split; [done|]. rewrite <- app_assoc. do 3 f_equal.
  apply list_fmap_ext. intros _ c' _. unfold new_parts, chunk_entry. by rewrite Hs.
Qed.

Definition whole_chunk (r : FileRest) (c : Z) : bool :=
  match C !! c with Some x => negb (chunk_suffix x (hash_suffix_ r) =? kSuffixPartial) | None => false end.

(** All chunks of the whole file have the same hash [h]. *)
Lemma registered_bulk l h : ∀ r, (∀ c x, c ∈ l → C !! c = Some x → chunk_suffix x (hash_suffix_ r) ≠ kSuffixPartial → content_hash (chunk_entry alg hashes r c x) = h) →
  bulk_hash_ (foldl (registered alg hashes C) r l) = if existsb (whole_chunk r) l then h else bulk_hash_ r.
Proof.
  induction l as [|c l IH] using rev_ind; intros r Hh; cbn; [done|]. rewrite foldl_app, existsb_app. cbn [foldl existsb]. rewrite orb_false_r. unfold registered at 1.
  unfold whole_chunk at 2. destruct (registered_list l r) as (_ & Hs & _). rewrite Hs. pose proof (Hh c) as Hhc.
  specialize (IH r ltac:(intros c' x' Hc'; apply Hh; set_solver)). destruct (C !! c) as [x|] eqn:Hx; [|by rewrite orb_false_r].
  destruct (chunk_suffix x (hash_suffix_ r) =? kSuffixPartial) eqn:Hp; [by cbn; rewrite orb_false_r|]. apply Z.eqb_neq in Hp. cbn.
  rewrite orb_true_r. unfold chunk_entry in Hhc. cbn in Hhc. rewrite Hs. apply (Hhc x); [set_solver|done|done].
Qed.
End Registered.

Section FileResult.
Context (H : Algorithms → bytes → bytes) (compress : bytes → bytes) (alg : Algorithms) (hashes : gmap Z any) (C : gmap Z ChunkItem).
Context (s : TaskChunk) (blocks : list BlockItem) (j : job) (addrs bulks : list Z) (path : bytes) (sfx : Z).
Hypothesis Hlist : file_list s blocks j addrs bulks.
Hypothesis Hsfx : sfx ≠ kSuffixPartial.
Hypothesis HC : ∀ a y, chunks s !! a = Some y → ck_file y = jb_file j →
  C !! a = Some (written_chunk y (zlen (jb_data j))) ∧ hashes !! a = Some (hash_of H alg kSuffixNone (compress (chunk_bytes (jb_data j) y))).
Let D := jb_data j.
Let r := new_rest path sfx alg.

(** What is reported for a part. *)
Definition segment_entry (seg : nat * nat) : FileChunk :=
  mkFileChunk (hash_of H alg kSuffixPartial (compress (slice (jb_data j) seg.1 seg.2))) (Z.of_nat seg.1) (Z.of_nat (seg.2 - seg.1)).

Lemma entry_ok a y x : hashes !! a = Some (hash_of H alg kSuffixNone (compress (chunk_bytes D y))) →
  chunk_entry alg hashes r a x = mkFileChunk (hash_of H alg (chunk_suffix x sfx) (compress (chunk_bytes D y))) (ck_offset x) (ck_size x).
Proof. intros Ha. unfold chunk_entry. by rewrite Ha. Qed.

Lemma segment_written seg : seg ∈ file_segments minimal maximal threshold D →
  written_chunk (mkChunk (jb_file j) (Z.of_nat seg.1) (Z.of_nat (seg.2 - seg.1)) false) (zlen D)
  = mkChunk (jb_file j) (Z.of_nat seg.1) (Z.of_nat (seg.2 - seg.1)) (single D).
Proof.
  intros Hs. unfold written_chunk, IsSolePiece, single. cbn [is_bulk_chunk_ negb andb ck_offset ck_size ck_file].
  apply (file_segments_whole minimal maximal threshold Hmin Hmax) in Hs as Hw. destruct (decide (file_segments minimal maximal threshold D = [(0, length D)%nat])) as [He|He].
  - rewrite bool_decide_eq_true_2 by done. apply Hw in He as [-> ->]. by rewrite !eqb_true by (unfold zlen; lia).
  - rewrite bool_decide_eq_false_2 by done. destruct (_ && _) eqn:Hb; [|done]. apply andb_true_iff in Hb as [H1%Z.eqb_eq H2%Z.eqb_eq].
    exfalso. apply He, Hw. unfold zlen in H2. lia.
Qed.

Lemma segment_part a seg : seg ∈ file_segments minimal maximal threshold D → chunks s !! a = Some (mkChunk (jb_file j) (Z.of_nat seg.1) (Z.of_nat (seg.2 - seg.1)) false) →
  new_parts alg hashes C r a = (if single D then [] else [segment_entry seg]) ∧ whole_chunk C r a = single D.
Proof.
  intros Hs Ha. destruct (HC a _ Ha eq_refl) as [Hc Hh]. unfold new_parts, whole_chunk. fold D in Hc. rewrite Hc, segment_written by done.
  unfold chunk_suffix. cbn [is_bulk_chunk_ hash_suffix_ r new_rest]. destruct (single D) eqn:H1; [by rewrite eqb_false by done|]. rewrite Z.eqb_refl. split; [|done].
  rewrite (entry_ok _ _ _ Hh). unfold chunk_suffix. cbn [is_bulk_chunk_ ck_offset ck_size]. rewrite segment_bytes; [done|].
  by apply (file_segments_range minimal maximal threshold Hmin Hmax D).
Qed.

Lemma bulk_part a : chunks s !! a = Some (mkChunk (jb_file j) 0 (zlen D) true) → new_parts alg hashes C r a = [] ∧ whole_chunk C r a = true.
Proof.
  intros Ha. destruct (HC a _ Ha eq_refl) as [Hc Hh]. unfold new_parts, whole_chunk. rewrite Hc. unfold written_chunk, IsSolePiece. cbn. by rewrite eqb_false by done.
Qed.

Lemma segments_parts segs l : Forall (λ seg, seg ∈ file_segments minimal maximal threshold D) segs → Forall2 (chunk_done kFirstTag s blocks (jb_file j) D) segs l →
  concat (new_parts alg hashes C r <$> l) = (if single D then [] else segment_entry <$> segs) ∧
  existsb (whole_chunk C r) l = match segs with [] => false | _ => single D end.
Proof.
  intros Hin. induction 1 as [|seg a segs l [Ha _] _ IH]; [by destruct (single D)|]. apply Forall_cons in Hin as [Hs Hin].
  destruct (IH Hin) as [IH1 IH2]. destruct (segment_part a seg Hs Ha) as [H1 H2]. cbn. rewrite IH1, IH2, H1, H2. destruct (single D); [done|]. by destruct segs.
Qed.

Lemma parts_of_file : concat (new_parts alg hashes C r <$> addrs ++ bulks) = (if stored_parts j then segment_entry <$> file_segments minimal maximal threshold D else []) ∧
  existsb (whole_chunk C r) (addrs ++ bulks) = stored_whole j.
Proof.
  destruct Hlist as [_ _ _ Ha Hb]. unfold stored_parts, stored_whole. fold D in Ha, Hb |- *. rewrite fmap_app, concat_app, existsb_app.
  assert (concat (new_parts alg hashes C r <$> bulks) = [] ∧ existsb (whole_chunk C r) bulks = negb (jb_may j) || jb_bulk j) as [-> ->].
  { destruct (negb (jb_may j) || jb_bulk j); [|by subst bulks]. destruct Hb as (c & -> & Hc & _). destruct (bulk_part c Hc) as [H1 H2]. cbn. by rewrite H1, H2. }
  rewrite app_nil_r. destruct (jb_may j); [|by subst addrs].
  destruct (segments_parts _ _ (proj2 (Forall_forall _ _) (λ _ H, H)) Ha) as [-> ->]. destruct (file_segments_shape minimal maximal threshold Hmin Hmax D) as (ks & Hk & _).
  split; [by destruct (single D)|]. rewrite Hk, segments_snoc. destruct (segments 0 ks); cbn; by rewrite orb_comm.
Qed.

(** The chunks of the whole file have its hash. *)
Lemma whole_hash a x : a ∈ addrs ++ bulks → C !! a = Some x → chunk_suffix x sfx ≠ kSuffixPartial →
  content_hash (chunk_entry alg hashes r a x) = hash_of H alg sfx (compress D) ∧ ck_offset x = 0 ∧ ck_size x = zlen D.
Proof.
  intros (y & Hy & Hf)%(fi_all _ _ _ _ _ Hlist) Hx Hp. destruct (HC a y Hy Hf) as [Hc Hh]. rewrite Hx in Hc. injection Hc as ->.
  rewrite (entry_ok _ _ _ Hh). cbn [content_hash]. destruct (file_list_chunk _ _ _ _ _ _ _ Hlist Hy Hf) as [_ [(_ & seg & Hs & ->)|[_ ->]]].
  - fold D in Hs, Hp |- *. rewrite segment_written in * by done. unfold chunk_suffix in *. cbn [is_bulk_chunk_ ck_offset ck_size] in *.
    destruct (single D) eqn:H1; [|done]. apply bool_decide_eq_true in H1. apply (file_segments_whole minimal maximal threshold Hmin Hmax) in Hs as Hw.
    apply Hw in H1 as [H0 H1]. rewrite segment_bytes by lia. replace seg.2 with (length D) by lia. rewrite H0, slice_all. split; [done|]. unfold zlen. lia.
  - unfold written_chunk, IsSolePiece. cbn [is_bulk_chunk_ negb andb]. fold D. by rewrite whole_bytes.
Qed.

(** There is a chunk of the whole file if it is to be stored so, and one for every part. *)
Lemma whole_exists : stored_whole j = true → ∃ a y, chunks s !! a = Some y ∧ ck_file y = jb_file j ∧ chunk_bytes D y = D ∧ is_bulk_chunk_ (written_chunk y (zlen D)) = true.
Proof.
  destruct Hlist as [_ _ _ Ha Hb]. unfold stored_whole. destruct (negb (jb_may j) || jb_bulk j) eqn:Hc.
  - intros _. destruct Hb as (c & _ & Hc' & _). exists c. eexists. split; [exact Hc'|]. split; [done|]. by rewrite whole_bytes.
  - intros H1. apply orb_false_iff in Hc as [Hm _]. destruct (jb_may j); [|done]. apply bool_decide_eq_true in H1 as Hs. rewrite Hs in Ha.
    destruct (Forall2_cons_inv_l _ _ _ _ Ha) as (a & l & [Hy _] & _ & _). exists a. eexists. split; [exact Hy|]. split; [done|].
    rewrite (segment_bytes _ _ (0, length D)%nat) by (cbn; lia). cbn [fst snd]. rewrite slice_all. split; [done|].
    pose proof (segment_written (0, length D)%nat) as Hw. cbn [fst snd] in Hw. fold D. rewrite Hw; [done|]. unfold D. rewrite Hs. by left.
Qed.

Lemma part_exists seg : stored_parts j = true → seg ∈ file_segments minimal maximal threshold D →
  ∃ a, chunks s !! a = Some (mkChunk (jb_file j) (Z.of_nat seg.1) (Z.of_nat (seg.2 - seg.1)) false).
Proof.
  destruct Hlist as [_ _ _ Ha _]. unfold stored_parts. destruct (jb_may j); [|done]. intros _ [i Hs]%list_elem_of_lookup.
  destruct (Forall2_lookup_l _ _ _ _ _ Ha Hs) as (a & _ & Hc & _). by exists a.
Qed.

(** The result for the file, whatever the order of completion. *)
Lemma file_registered l : l ≡ₚ addrs ++ bulks →
  path_ (foldl (registered alg hashes C) r l) = path ∧ hash_suffix_ (foldl (registered alg hashes C) r l) = sfx ∧
  bulk_hash_ (foldl (registered alg hashes C) r l) = (if stored_whole j then hash_of H alg sfx (compress D) else zero_hash alg) ∧
  chunks_ (foldl (registered alg hashes C) r l) ≡ₚ (if stored_parts j then segment_entry <$> file_segments minimal maximal threshold D else []).
Proof.
  intros Hl. destruct (registered_list alg hashes C l r) as (-> & -> & ->). split; [done|]. split; [done|]. destruct parts_of_file as [Hp Hw]. split.
  - rewrite (registered_bulk alg hashes C l (hash_of H alg sfx (compress D))).
    + replace (existsb (whole_chunk C r) l) with (stored_whole j); [done|]. rewrite <- Hw. apply eq_bool_prop_intro.
      rewrite !Is_true_true, !existsb_exists. by setoid_rewrite <- list_elem_of_In; setoid_rewrite Hl.
    + intros c x Hc Hx Hs. rewrite Hl in Hc. by apply whole_hash.
  - cbn [chunks_ r new_rest app]. rewrite <- Hp. clear -Hl. by rewrite Hl.
Qed.
End FileResult.

(** The assertions of [TaskRegister] hold. *)
Lemma register_file alg w f x rest path sfx hash parts j : wr_files w !! f = Some x → wr_rest w !! f = Some rest →
  nchunks_in_fly_ x = 0 → has_legacy_bulk_chunk_ x = jb_bulk j → path_ rest = path → hash_suffix_ rest = sfx → bulk_hash_ rest = hash → chunks_ rest = parts →
  path ≠ [] → sfx = suffix hash → algorithm hash = alg → (stored_whole j = true → IsNull hash = false) →
  length parts = (if stored_parts j then length (file_segments minimal maximal threshold (jb_data j)) else 0%nat) →
  ∃ w', TaskRegister_Process alg w f = Ret (mkResult 0 path hash parts, w').
Proof.
  intros Hx Hr Hn Hleg <- <- <- <- Hp Hs Ha Hnull Hlen. unfold TaskRegister_Process. rewrite Hx, Hr, Hn, Hleg.
  apply zlen_pos in Hp. rewrite (eqb_false (zlen (path_ rest))) by lia. exec. unfold stored_whole, stored_parts in *.
  assert (negb (jb_bulk j) || negb (IsNull (bulk_hash_ rest)) = true) as ->.
  { destruct (jb_bulk j); [|done]. rewrite Hnull; [done|]. by rewrite orb_true_r. }
  exec. assert (zlen (chunks_ rest) = 0 ∧ IsNull (bulk_hash_ rest) = false ∨ zlen (chunks_ rest) > 1) as Hcase.
  { unfold zlen. rewrite Hlen. destruct (single (jb_data j)) eqn:H1; [left; by rewrite andb_false_r, Hnull by by rewrite orb_true_r|].
    destruct (jb_may j); [|left; by rewrite Hnull]. right. apply not_single in H1. cbn. lia. }
  assert ((zlen (chunks_ rest) >? 1) || negb (IsNull (bulk_hash_ rest)) = true) as -> by (destruct Hcase as [[_ ->]|H1]; [by rewrite orb_true_r|by rewrite gtb_true by lia]).
  exec. rewrite (eqb_false (zlen (chunks_ rest))) by lia. exec. rewrite (eqb_true (hash_suffix_ rest)) by done. exec. rewrite bool_decide_eq_true_2 by done. exec. by eexists.
Qed.
End Chunks.

(** ** The pipeline *)

(** A queue between two stages keeps the order of the blocks of a chunk. *)
Definition same_order (l l' : list BlockItem) : Prop := l ≡ₚ l' ∧ ∀ a, of_key bl_chunk a l = of_key bl_chunk a l'.

Lemma streams_reorder M l l' : same_order l l' → streams M l → streams M l'.
Proof. intros [Hp Ho] [H1 H2 H3]. split; [by rewrite <- Hp|by intros a; rewrite <- Ho|done]. Qed.

(** The data of chunk [a] is uploaded and committed under [hash]. *)
Definition chunk_uploaded (calls : list UploadCall) (a : Z) (data : bytes) (hash : any) : Prop :=
  ∃ datas, of_key call_chunk a calls = [InitStreamedUpload a] ++ (ScheduleUpload a <$> datas) ++ [ScheduleCommit a hash] ∧ concat datas = data.

Section Ingest.
Context {context : Type} (init : Algorithms → context) (update : context → bytes → context) (final : context → bytes).
Context (H : Algorithms → bytes → bytes).
Context (H_pieces : ∀ a pieces, a ≠ kAny → final (foldl update (init a) pieces) = H a (concat pieces)).
Context (alg : Algorithms) (Halg : alg ≠ kAny).
Context {C : Type} `{HC : Compressor C} (compress : bytes → bytes) (bound : Z → Z) (c_inv : C → option bytes → bytes → bytes → Prop).
Context `{HL : !CompressorLaws C compress bound c_inv}.

(** What is reported for a file, and that all it names is uploaded. *)
Record reported (mn mx : nat) (th : Z) (calls : list UploadCall) (j : job) (path : bytes) (sfx : Z) (res : SpoolerResult) : Prop := {
  re_code : sr_return_code res = 0;
  re_path : local_path res = path;
  re_hash : sr_content_hash res = if stored_whole mn mx th j then hash_of H alg sfx (compress (jb_data j)) else zero_hash alg;
  re_chunks : file_chunks res ≡ₚ if stored_parts mn mx th j then segment_entry H compress alg j <$> file_segments mn mx th (jb_data j) else [];
  re_whole : stored_whole mn mx th j = true → ∃ a, chunk_uploaded calls a (compress (jb_data j)) (sr_content_hash res);
  re_parts : stored_parts mn mx th j = true → ∀ seg, seg ∈ file_segments mn mx th (jb_data j) →
    ∃ a, chunk_uploaded calls a (compress (slice (jb_data j) seg.1 seg.2)) (content_hash (segment_entry H compress alg j seg))
}.

(** The files before they enter the pipeline. *)
Definition rest_ok (fuel : nat) (R : gmap Z FileRest) (j : job) (path : bytes) (sfx : Z) : Prop :=
  R !! jb_file j = Some (new_rest path sfx alg) ∧ path ≠ [] ∧ sfx ≠ kSuffixPartial ∧ (sfx = kSuffixNone ∨ negb (jb_may j) || jb_bulk j = true) ∧
  IsNull (hash_of H alg sfx (compress (jb_data j))) = false ∧ bound (zlen (jb_data j)) < Z.of_nat fuel.

(** What the uploader is called for: data of the files, compressed and named by its hash. *)
Definition calls_ok (jobs : gmap Z job) (R : gmap Z FileRest) (calls : list UploadCall) : Prop :=
  Forall (λ u, is_Some (call_chunk u)) calls ∧
  ∀ a, of_key call_chunk a calls = [] ∨
    ∃ t j y sfx, jobs !! t = Some j ∧
      chunk_uploaded calls a (compress (chunk_bytes (jb_data j) y)) (hash_of H alg sfx (compress (chunk_bytes (jb_data j) y))) ∧
      (sfx = kSuffixPartial ∨ ∃ r, R !! jb_file j = Some r ∧ sfx = hash_suffix_ r).

Section Stages.
Context (minimal maximal : nat) (threshold : Z).
Hypothesis Hmin : (32 ≤ minimal)%nat.
Hypothesis Hmax : (minimal < maximal)%nat.
Context (jobs : gmap Z job) (legacy : Z → bool) (s : TaskChunk) (blocks : list BlockItem) (R : gmap Z FileRest) (fuel : nat).
Hypothesis Hjobs : jobs_ok jobs.
Hypothesis Hcounted : counted (job_file jobs) legacy s blocks.
Hypothesis Hlists : ∀ t j, jobs !! t = Some j → ∃ addrs bulks, file_list minimal maximal threshold s blocks j addrs bulks.
Hypothesis Hrest : ∀ t j, jobs !! t = Some j → ∃ path sfx, rest_ok fuel R j path sfx.

(** A chunk when its commit has been scheduled. *)
Definition chunk_written (hashes : gmap Z any) (calls : list UploadCall) (w : TaskWrite) (a : Z) (y : ChunkItem) (j : job) : Prop :=
  let data := compress (chunk_bytes (jb_data j) y) in
  wr_chunks w !! a = Some (written_chunk y (zlen (jb_data j))) ∧ hashes !! a = Some (hash_of H alg kSuffixNone data) ∧
  ∃ r, R !! jb_file j = Some r ∧ chunk_uploaded calls a data (hash_of H alg (chunk_suffix (written_chunk y (zlen (jb_data j))) (hash_suffix_ r)) data).

Record written (hashes : gmap Z any) (calls : list UploadCall) (w : TaskWrite) : Prop := {
  wn_files : wr_files w = files s;
  wn_rest : wr_rest w = R;
  wn_calls : Forall (λ u, is_Some (call_chunk u)) calls;
  wn_none : ∀ a, chunks s !! a = None → wr_chunks w !! a = None ∧ of_key call_chunk a calls = [];
  wn_chunks : ∀ a y t j, chunks s !! a = Some y → jobs !! t = Some j → ck_file y = jb_file j → chunk_written hashes calls w a y j
}.

Lemma same_job t j t' j' : jobs !! t = Some j → jobs !! t' = Some j' → jb_file j = jb_file j' → j = j'.
Proof. intros H1 H2 Hf. pose proof (jo_file _ Hjobs t t' j j' H1 H2 Hf) as <-. congruence. Qed.

Lemma stream_fuel a f datas : chunk_streams s blocks a = Some (f, datas) → bound (zlen (concat datas)) < Z.of_nat fuel.
Proof.
  unfold chunk_streams. destruct (chunks s !! a) as [y|] eqn:Hy; [|done]. intros [= <- <-].
  destruct (chunk_contents minimal maximal threshold Hmin Hmax jobs legacy s blocks Hcounted Hlists a y Hy) as (t & j & Hj & Hf & ->).
  destruct (Hrest t j Hj) as (path & sfx & _ & _ & _ & _ & _ & Hb). eapply Z.le_lt_trans; [|exact Hb]. apply c_bound_mono, length_chunk_bytes.
Qed.

Lemma stages_ok : ∀ blocks', same_order blocks blocks' →
  ∃ packed w1, run_stage (TaskCompress_Process fuel) (mkCompress ∅ ∅) blocks' = Ret (packed, w1) ∧ ∀ packed', same_order packed packed' →
  ∃ hashed w2, run_stage (TaskHash_Process init update final alg) (mkHasher ∅ ∅) packed' = Ret (hashed, w2) ∧ ∀ hashed', same_order hashed hashed' →
  ∃ calls w3, run_stage (TaskWrite_Process alg (hash_value_ w2)) (mkWrite (files s) R (chunks s) ∅) hashed' = Ret (calls, w3) ∧ written (hash_value_ w2) calls w3.
Proof.
  intros blocks' Hb. pose proof (chunk_streams_ok minimal maximal threshold Hmin Hmax jobs legacy s blocks Hcounted Hlists) as Hs0.
  apply (streams_reorder _ _ _ Hb) in Hs0.
  destruct (compress_stage compress bound c_inv _ fuel (st_data _ _ Hs0) stream_fuel _ Hs0) as (packed & w1 & M1 & Hrun1 & Hs1 & HM1).
  exists packed, w1. split; [done|]. intros packed' Hp. apply (streams_reorder _ _ _ Hp) in Hs1.
  destruct (hash_stage init update final H H_pieces alg Halg M1 _ Hs1) as (hashed & w2 & Hrun2 & Hs2 & Hhash).
  exists hashed, w2. split; [done|]. intros hashed' Hh. apply (streams_reorder _ _ _ Hh) in Hs2.
  assert (∀ a y, chunks s !! a = Some y → ∃ od t j, M1 a = Some (ck_file y, od) ∧ jobs !! t = Some j ∧ ck_file y = jb_file j ∧ concat od = compress (chunk_bytes (jb_data j) y)) as HM.
  { intros a y Hy. destruct (chunk_contents minimal maximal threshold Hmin Hmax jobs legacy s blocks Hcounted Hlists a y Hy) as (t & j & Hj & Hf & Hc).
    specialize (HM1 a). unfold chunk_streams in HM1. rewrite Hy in HM1. destruct HM1 as (od & Hod & Hco). exists od, t, j. rewrite <- Hc. done. }
  assert (∀ a, chunks s !! a = None → M1 a = None) as HMnone by (intros a Ha; specialize (HM1 a); unfold chunk_streams in HM1; by rewrite Ha in HM1).
  destruct (write_stage alg (hash_value_ w2) (files s) R (chunks s) M1) with (ins := hashed') as (calls & w3 & Hrun3 & Hkeys & Hw); [|done|].
  { intros a f datas HMa. destruct (chunks s !! a) as [y|] eqn:Hy; [|by rewrite HMnone in HMa]. destruct (HM a y Hy) as (od & t & j & HMy & Hj & Hf & _).
    destruct (Hlists t j Hj) as (addrs & bulks & Hl). destruct (fi_item _ _ _ _ _ _ _ _ Hl) as (x & Hx & _). destruct (Hrest t j Hj) as (path & sfx & HR & _).
    rewrite HMy in HMa. injection HMa as <- _. exists y, x, (new_rest path sfx alg). by rewrite Hf. }
  exists calls, w3. split; [done|]. split.
  - by destruct (Hw 0) as (? & _).
  - by destruct (Hw 0) as (_ & ? & _).
  - done.
  - intros a Ha. destruct (Hw a) as (_ & _ & Hwa). rewrite (HMnone a Ha) in Hwa. by destruct Hwa as (_ & -> & ->).
  - intros a y t j Hy Hj Hf. destruct (HM a y Hy) as (od & t' & j' & HMy & Hj' & Hf' & Hco). assert (j' = j) as -> by (eapply same_job; [done|done|congruence]).
    destruct (Hw a) as (_ & _ & Hwa). rewrite HMy in Hwa. destruct Hwa as [(seen & Hopen & _)|(_ & x & z & r & Hx & Hz & Hr & Ho & Hwc)].
    { symmetry in Hopen. by apply open_not_closed in Hopen. }
    rewrite Hy in Hx. injection Hx as <-. destruct (Hlists t j Hj) as (addrs & bulks & Hl). destruct (fi_item _ _ _ _ _ _ _ _ Hl) as (z' & Hz' & Hsize & _).
    rewrite Hf, Hz' in Hz. injection Hz as <-. rewrite Hsize in Hwc. split; [done|]. apply Hhash in HMy as Hh2. rewrite Hco in Hh2. split; [done|].
    exists r. split; [by rewrite <- Hf|]. exists od. split; [|done]. unfold stored_hash in Ho. rewrite Hh2, Hsize in Ho. exact Ho.
Qed.

Lemma written_file hashes calls w c : written hashes calls w → chunk_file (wr_chunks w) c = ck_file <$> chunks s !! c.
Proof.
  intros [_ _ _ Hnone Hsome]. unfold chunk_file. destruct (chunks s !! c) as [y|] eqn:Hy; [|by destruct (Hnone c Hy) as [-> _]].
  destruct (chunk_job minimal maximal threshold jobs legacy s blocks Hcounted Hlists c y Hy) as (t & j & _ & _ & Hj & Hf & _).
  destruct (Hsome c y t j Hy Hj Hf) as (-> & _). cbn. f_equal. unfold written_chunk. by destruct (IsSolePiece _ _).
Qed.

Lemma order_file hashes calls w order j addrs bulks : written hashes calls w → order ≡ₚ elements (dom (chunks s)) →
  file_list minimal maximal threshold s blocks j addrs bulks → of_key (chunk_file (wr_chunks w)) (jb_file j) order ≡ₚ addrs ++ bulks.
Proof.
  intros Hw Ho Hl. assert (NoDup order) as Hnd by (rewrite Ho; apply NoDup_elements). apply NoDup_Permutation; [by apply NoDup_filter|apply (fi_nodup _ _ _ _ _ _ _ _ Hl)|].
  intros a. unfold of_key. rewrite list_elem_of_filter, (written_file _ _ _ _ Hw), Ho, elem_of_elements, elem_of_dom, (fi_all _ _ _ _ _ _ _ _ Hl a).
  destruct (chunks s !! a) as [y|]; cbn; split.
  - intros [[= Hf] _]. by exists y.
  - intros (z & [= ->] & Hf). by rewrite Hf.
  - by intros [? _].
  - by intros (z & ? & _).
Qed.

Lemma written_chunks hashes calls w t j : written hashes calls w → jobs !! t = Some j → ∀ a y, chunks s !! a = Some y → ck_file y = jb_file j →
  wr_chunks w !! a = Some (written_chunk y (zlen (jb_data j))) ∧ hashes !! a = Some (hash_of H alg kSuffixNone (compress (chunk_bytes (jb_data j) y))).
Proof. intros Hw Hj a y Hy Hf. by destruct (wn_chunks _ _ _ Hw a y t j Hy Hj Hf) as (? & ? & _). Qed.

(** Every file has a chunk. *)
Lemma file_list_nonempty j addrs bulks : file_list minimal maximal threshold s blocks j addrs bulks → addrs ++ bulks ≠ [].
Proof.
  intros Hl He. assert (∃ a y, chunks s !! a = Some y ∧ ck_file y = jb_file j) as (a & y & Hy & Hf).
  { destruct (stored_whole minimal maximal threshold j) eqn:Hs.
    - destruct (whole_exists minimal maximal threshold Hmin Hmax s blocks j addrs bulks Hl Hs) as (a & y & Hy & Hf & _). by exists a, y.
    - unfold stored_whole in Hs. apply orb_false_iff in Hs as [Hm H1]. apply orb_false_iff in Hm as [Hm _].
      assert (stored_parts minimal maximal threshold j = true) as Hp by (unfold stored_parts; rewrite H1; by destruct (jb_may j)).
      apply not_single in H1; [|done..]. destruct (file_segments minimal maximal threshold (jb_data j)) as [|seg segs] eqn:Hseg; [cbn in H1; lia|].
      destruct (part_exists minimal maximal threshold s blocks j addrs bulks Hl seg Hp) as (a & Ha); [rewrite Hseg; by left|]. by exists a, (mkChunk (jb_file j) (Z.of_nat seg.1) (Z.of_nat (seg.2 - seg.1)) false). }
  assert (a ∈ addrs ++ bulks) as Ha by (apply (fi_all _ _ _ _ _ _ _ _ Hl); by exists y). rewrite He in Ha. by apply not_elem_of_nil in Ha.
Qed.

(** A file whose chunks are complete. *)
Lemma file_reported hashes calls w w' t j path sfx l x addrs bulks : written hashes calls w → jobs !! t = Some j → rest_ok fuel R j path sfx →
  file_list minimal maximal threshold s blocks j addrs bulks → l ≡ₚ addrs ++ bulks → wr_files w' !! jb_file j = Some x → nchunks_in_fly_ x = 0 →
  has_legacy_bulk_chunk_ x = jb_bulk j → wr_rest w' !! jb_file j = Some (foldl (registered alg hashes (wr_chunks w)) (new_rest path sfx alg) l) →
  ∃ res w'', TaskRegister_Process alg w' (jb_file j) = Ret (res, w'') ∧ reported minimal maximal threshold calls j path sfx res.
Proof.
  intros Hw Hj (HR & Hpath & Hsfx & Hs & Hnull & _) Hl Hp Hx Hn Hleg Hr. pose proof (written_chunks hashes calls w t j Hw Hj) as HC'.
  destruct (file_registered minimal maximal threshold Hmin Hmax H compress alg hashes (wr_chunks w) s blocks j addrs bulks path sfx Hl Hsfx HC' l Hp) as (H1 & H2 & H3 & H4).
  set (rest := foldl _ _ l) in *. destruct (register_file minimal maximal threshold Hmin Hmax alg w' (jb_file j) x rest path sfx (bulk_hash_ rest) (chunks_ rest) j) as (w'' & Hreg); try done.
  - rewrite H3. destruct (stored_whole minimal maximal threshold j) eqn:Hsw; [done|]. destruct Hs as [->|Hs]; [done|]. unfold stored_whole in Hsw. by rewrite Hs in Hsw.
  - rewrite H3. by destruct (stored_whole _ _ _ j).
  - intros Hsw. by rewrite H3, Hsw.
  - rewrite H4. destruct (stored_parts _ _ _ j); [by rewrite length_fmap|done].
  - eexists _, w''. split; [exact Hreg|]. split; cbn [sr_return_code local_path sr_content_hash file_chunks]; [done|done|done|done| |].
    + intros Hsw. destruct (whole_exists minimal maximal threshold Hmin Hmax s blocks j addrs bulks Hl Hsw) as (a & y & Hy & Hf & Hb & Hbulk).
      destruct (wn_chunks _ _ _ Hw a y t j Hy Hj Hf) as (_ & _ & r & Hr' & Hu). rewrite HR in Hr'. injection Hr' as <-. exists a.
      unfold chunk_suffix in Hu. rewrite Hbulk, Hb in Hu. by rewrite H3, Hsw.
    + intros Hsp seg Hseg. destruct (part_exists minimal maximal threshold s blocks j addrs bulks Hl seg Hsp Hseg) as (a & Ha). exists a.
      destruct (wn_chunks _ _ _ Hw a _ t j Ha Hj eq_refl) as (_ & _ & r & _ & Hu). rewrite (segment_written minimal maximal threshold Hmin Hmax j seg Hseg) in Hu.
      unfold stored_parts in Hsp. apply andb_true_iff in Hsp as [_ Hns%negb_true_iff]. rewrite Hns in Hu. rewrite segment_bytes in Hu; [exact Hu|].
      by apply (file_segments_range minimal maximal threshold Hmin Hmax (jb_data j)).
Qed.

(** The calls are those for a set of chunks, each with its own data. *)
Lemma written_calls hashes calls w : written hashes calls w → calls_ok jobs R calls.
Proof.
  intros Hw. split; [apply (wn_calls _ _ _ Hw)|]. intros a. destruct (chunks s !! a) as [y|] eqn:Hy; [right|left; by apply (wn_none _ _ _ Hw)].
  destruct (chunk_job minimal maximal threshold jobs legacy s blocks Hcounted Hlists a y Hy) as (t & j & _ & _ & Hj & Hf & _).
  destruct (wn_chunks _ _ _ Hw a y t j Hy Hj Hf) as (_ & _ & r & Hr & Hu). exists t, j, y. eexists. split; [done|]. split; [exact Hu|].
  unfold chunk_suffix. destruct (is_bulk_chunk_ _); [right; by exists r|by left].
Qed.

Lemma registration_ok hashes calls w order : written hashes calls w → order ≡ₚ elements (dom (chunks s)) →
  ∃ dispatched w', run_stage (λ w, OnChunkComplete alg hashes w 0) w order = Ret (dispatched, w') ∧ Forall (job_file jobs) dispatched ∧
  ∀ t j path sfx, jobs !! t = Some j → rest_ok fuel R j path sfx → of_key Some (jb_file j) dispatched = [jb_file j] ∧
    ∃ res w'', TaskRegister_Process alg w' (jb_file j) = Ret (res, w'') ∧ reported minimal maximal threshold calls j path sfx res.
Proof.
  intros Hw Ho. assert (NoDup order) as Hnd by (rewrite Ho; apply NoDup_elements).
  assert (∀ f, of_key (chunk_file (wr_chunks w)) f order ≠ [] → job_file jobs f) as Hjob.
  { intros f Hne. destruct (of_key _ f order) as [|c l] eqn:Hc; [done|]. assert (c ∈ of_key (chunk_file (wr_chunks w)) f order) as Hin by (rewrite Hc; by left).
    apply list_elem_of_filter in Hin as [Hf _]. rewrite (written_file _ _ _ _ Hw) in Hf. destruct (chunks s !! c) as [y|] eqn:Hy; [|done]. injection Hf as <-.
    apply (ct_chunks _ _ _ _ Hcounted c y Hy). }
  destruct (register_stage alg hashes (files s) R (wr_chunks w) order Hnd) with (h := upload_handle_ w) as (dispatched & w' & Hrun & Hend).
  - intros f Hne. destruct (Hjob f Hne) as (t & j & Hj & <-). destruct (Hlists t j Hj) as (addrs & bulks & Hl).
    destruct (fi_item _ _ _ _ _ _ _ _ Hl) as (x & Hx & Hsize & Hfull & Hn & _). destruct (Hrest t j Hj) as (path & sfx & HR & _ & Hsfx & _).
    exists x, (new_rest path sfx alg). pose proof (order_file _ _ _ _ _ _ _ Hw Ho Hl) as Hp. split_and!; [done|done|done|unfold zlen; by rewrite Hp|].
    intros c z Hc Hz Hs. rewrite Hp in Hc. rewrite Hsize.
    by apply (whole_hash minimal maximal threshold Hmin Hmax H compress alg hashes (wr_chunks w) s blocks j addrs bulks path sfx Hl Hsfx (written_chunks _ _ _ t j Hw Hj) c z Hc Hz).
  - apply Forall_forall. intros c Hc. rewrite Ho, elem_of_elements, elem_of_dom in Hc. rewrite (written_file _ _ _ _ Hw). destruct Hc as [y ->]. by eexists.
  - exists dispatched, w'. replace w with (mkWrite (files s) R (wr_chunks w) (upload_handle_ w)) at 1 by (rewrite <- (wn_files _ _ _ Hw), <- (wn_rest _ _ _ Hw); by destruct w).
    split; [done|]. split.
    + apply Forall_forall. intros f Hf. apply Hjob. intros Hno. destruct (Hend f) as [_ Hd]. rewrite Hno in Hd.
      assert (of_key Some f dispatched = []) as Hd0.
      { destruct (files s !! f), (R !! f); [|by apply Hd..]. destruct Hd as (_ & _ & ->). rewrite decide_False; [done|]. by intros [? _]. }
      assert (f ∈ of_key Some f dispatched) as Hin by by apply list_elem_of_filter. rewrite Hd0 in Hin. by apply not_elem_of_nil in Hin.
    + intros t j path sfx Hj Hok. destruct (Hlists t j Hj) as (addrs & bulks & Hl). destruct (fi_item _ _ _ _ _ _ _ _ Hl) as (x & Hx & Hsize & Hfull & Hn & Hleg).
      pose proof (order_file _ _ _ _ _ _ _ Hw Ho Hl) as Hp. destruct (Hend (jb_file j)) as [_ Hd]. destruct Hok as [HR Hok]. rewrite Hx, HR in Hd. destruct Hd as (Hf & Hr & Hdis).
      split.
      * rewrite Hdis, decide_True; [done|]. split; [|done]. intros He. rewrite He in Hp. apply Permutation_nil_l in Hp. by apply (file_list_nonempty _ _ _ Hl).
      * apply (file_reported hashes calls w w' t j path sfx _ _ addrs bulks Hw Hj (conj HR Hok) Hl Hp Hf); [|done|done]. cbn. unfold zlen in *. rewrite Hp. lia.
Qed.
End Stages.

Lemma pipeline_ok mn av mx d files jobs ins R fuel : new_detector mn av mx = Ret d → 0 < mn → mx < 2 ^ 62 → jobs_ok jobs →
  (∀ t j, jobs !! t = Some j →
     files !! jb_file j = Some (mkFile (zlen (jb_data j)) (jb_may j) (jb_bulk j) d 0 0) ∧
     (∃ datas, blocks_with t ins = file_blocks t (jb_file j) datas ∧ concat datas = jb_data j ∧ Forall good_piece datas) ∧
     ∃ path sfx, rest_ok fuel R j path sfx) →
  (∀ b, b ∈ ins → is_Some (jobs !! bl_tag b)) →
  ∃ blocks s, run_chunk (mkTask files ∅ 0 kFirstTag ∅) ins = Ret (blocks, s) ∧ ∀ blocks', same_order blocks blocks' →
  ∃ packed w1, run_stage (TaskCompress_Process fuel) (mkCompress ∅ ∅) blocks' = Ret (packed, w1) ∧ ∀ packed', same_order packed packed' →
  ∃ hashed w2, run_stage (TaskHash_Process init update final alg) (mkHasher ∅ ∅) packed' = Ret (hashed, w2) ∧ ∀ hashed', same_order hashed hashed' →
  ∃ calls w3, run_stage (TaskWrite_Process alg (hash_value_ w2)) (mkWrite (Ingestion.files s) R (chunks s) ∅) hashed' = Ret (calls, w3) ∧ calls_ok jobs R calls ∧
  ∀ order, order ≡ₚ elements (dom (chunks s)) →
  ∃ dispatched w4, run_stage (λ w, OnChunkComplete alg (hash_value_ w2) w 0) w3 order = Ret (dispatched, w4) ∧ Forall (job_file jobs) dispatched ∧
  ∀ t j path sfx, jobs !! t = Some j → rest_ok fuel R j path sfx → of_key Some (jb_file j) dispatched = [jb_file j] ∧
  ∃ res w5, TaskRegister_Process alg w4 (jb_file j) = Ret (res, w5) ∧ reported (Z.to_nat mn) (Z.to_nat mx) (threshold_ d) calls j path sfx res.
Proof.
  intros Hd Hmn Hmx Hjobs Hin Hall.
  destruct (chunked_ok mn av mx d files jobs ins Hd Hmn Hmx Hjobs) as (blocks & s & Hrun & Hfin); [|done|].
  { intros t j Hj. destruct (Hin t j Hj) as (Hf & Hb & _). by split. }
  destruct (new_detector_limits mn av mx d Hd Hmn) as [[Hmin Hmax] _].
  set (legacy f := bool_decide (Exists (λ tj : Z * job, jb_file tj.2 = f ∧ jb_bulk tj.2 = true) (map_to_list jobs))).
  assert (∀ t j, jobs !! t = Some j → legacy (jb_file j) = jb_bulk j) as Hleg.
  { intros t j Hj. unfold legacy. destruct (jb_bulk j) eqn:Hb; [apply bool_decide_eq_true_2|apply bool_decide_eq_false_2].
    - apply Exists_exists. exists (t, j). split; [by apply elem_of_map_to_list|done].
    - intros ([t' j'] & Hj'%elem_of_map_to_list & Hf & Hb')%Exists_exists. cbn in *. pose proof (jo_file _ Hjobs t' t j' j Hj' Hj Hf) as ->. congruence. }
  assert (counted (job_file jobs) legacy s blocks) as Hcounted.
  { eapply (run_chunk_counted _ _ ins (mkTask files ∅ 0 kFirstTag ∅) []); [| |exact Hrun].
    - apply Forall_forall. intros b Hb. destruct (Hall b Hb) as [j Hj]. destruct (Hin _ _ Hj) as (_ & (datas & Hbl & _) & _). exists (bl_tag b), j. split; [done|].
      assert (b ∈ blocks_with (bl_tag b) ins) as Hbin by by apply list_elem_of_filter. rewrite Hbl in Hbin.
      apply elem_of_app in Hbin as [(dd & -> & _)%list_elem_of_fmap|Hbin]; [done|]. by apply list_elem_of_singleton in Hbin as ->.
    - split; cbn; [done|done| |done|constructor]. intros f x (t & j & Hj & <-) Hx. destruct (Hin t j Hj) as (Hf & _). rewrite Hf in Hx. injection Hx as <-.
      split; [done|]. cbn. symmetry. by apply (Hleg t). }
  assert (∀ t j, jobs !! t = Some j → ∃ addrs bulks, file_list (Z.to_nat mn) (Z.to_nat mx) (threshold_ d) s blocks j addrs bulks) as Hlists.
  { intros t j Hj. apply (finished_list _ _ _ Hmin Hmax (job_file jobs) legacy s blocks t j); [done|by exists t, j|by apply (Hleg t)|]. by apply Hfin. }
  assert (∀ t j, jobs !! t = Some j → ∃ path sfx, rest_ok fuel R j path sfx) as Hrest by (intros t j Hj; by apply Hin in Hj as (_ & _ & ?)).
  exists blocks, s. split; [done|]. intros blocks' Hb.
  destruct (stages_ok _ _ _ Hmin Hmax jobs legacy s blocks R fuel Hjobs Hcounted Hlists Hrest blocks' Hb) as (packed & w1 & H1 & Hs1).
  exists packed, w1. split; [done|]. intros packed' Hp. destruct (Hs1 packed' Hp) as (hashed & w2 & H2 & Hs2).
  exists hashed, w2. split; [done|]. intros hashed' Hh. destruct (Hs2 hashed' Hh) as (calls & w3 & H3 & Hw). exists calls, w3. split; [done|].
  split; [by eapply written_calls|]. intros order Ho.
  exact (registration_ok _ _ _ Hmin Hmax jobs legacy s blocks R fuel Hcounted Hlists Hrest _ calls w3 order Hw Ho).
Qed.
End Ingest.

(** ** The compressors keep the contract *)

Lemma load_front (b : bytes) n : 0 ≤ n ≤ zlen b → load b 0 n = Ret (take (Z.to_nat n) b).
Proof.
  intros Hn. rewrite <- (take_drop (Z.to_nat n) b) at 1. apply (load_app [] (take (Z.to_nat n) b)); [done|]. rewrite zlen_take by lia. lia.
Qed.

(** Copying as much as fits. *)
Lemma copy_fits (input : bytes) room : 0 < room → let n := Z.min room (zlen input) in
  input = take (Z.to_nat n) input ++ drop (Z.to_nat n) input ∧ zlen (take (Z.to_nat n) input) ≤ room ∧
  (drop (Z.to_nat n) input = [] ∧ take (Z.to_nat n) input = input ∧ n = zlen input ∨ zlen (take (Z.to_nat n) input) = room ∧ n ≠ zlen input).
Proof.
  intros Hr n. split; [by rewrite take_drop|]. unfold n. assert (0 ≤ zlen input) as H0 by (unfold zlen; lia). rewrite zlen_take by lia. split; [lia|].
  destruct (decide (zlen input ≤ room)); [left|right; lia]. rewrite Z.min_r by done. unfold zlen. rewrite Nat2Z.id, drop_ge, take_ge by lia. done.
Qed.

#[global] Instance echo_laws : CompressorLaws () (λ data, data) (λ n, n) (λ _ _ X Y, Y = X).
Proof.
  split; [done| | |by intros _ _ X Y ->|done].
  - intros [] X Y input room -> Hr _. destruct (copy_fits input room Hr) as (Hs & Hl & Hc). cbn [Deflate EchoCompressor]. unfold Echo_Deflate.
    rewrite load_front by (unfold zlen; lia). exec. eexists _, _, _, _, _. split; [done|]. split; [exact Hs|]. split; [done|]. split; [|done].
    destruct Hc as [(H1 & _ & _)|[H1 _]]; [by left|by right].
  - intros [] X Y input room Hi Hr. assert (Y = X) as -> by by destruct Hi. destruct (copy_fits input room Hr) as (Hs & Hl & Hc). cbn [Deflate EchoCompressor]. unfold Echo_Deflate.
    rewrite load_front by (unfold zlen; lia). exec. eexists _, _, _, _, _. split; [done|]. split; [exact Hs|]. split; [done|].
    destruct Hc as [(H1 & H2 & H3)|[H1 H2]]; [rewrite eqb_true by done; by rewrite H2|by rewrite eqb_false by done].
Qed.

(** [ZlibCompressor] keeps it if [deflate] does as its manual says: without
    [Z_FINISH], it consumes the input until the output is full, and returns
    [Z_OK]; with it, it returns [Z_STREAM_END] when all output is written, and
    [Z_OK] when the output is full before. *)
Section Zlib.
Context {stream : Type} (deflateInit : stream) (deflate : stream → zlib_flush → bytes → Z → zlib_result * bytes * bytes * stream).
Context (compress : bytes → bytes) (bound : Z → Z) (z_inv : stream → option bytes → bytes → bytes → Prop).
Hypothesis z_init : z_inv deflateInit None [] [].
Hypothesis z_run : ∀ z X Y input room, z_inv z None X Y → 0 < room → input ≠ [] → ∃ used rest out z',
  deflate z Z_NO_FLUSH input room = (Z_OK, rest, out, z') ∧ input = used ++ rest ∧ zlen out ≤ room ∧ (rest = [] ∨ zlen out = room) ∧
  z_inv z' None (X ++ used) (Y ++ out).
Hypothesis z_finish : ∀ z X Y input room, z_inv z None X Y ∨ z_inv z (Some input) X Y → 0 < room → ∃ code used rest out z',
  deflate z Z_FINISH input room = (code, rest, out, z') ∧ input = used ++ rest ∧ zlen out ≤ room ∧
  (code = Z_STREAM_END ∧ rest = [] ∧ Y ++ out = compress (X ++ input) ∨
   code = Z_OK ∧ zlen out = room ∧ z_inv z' (Some rest) (X ++ used) (Y ++ out)).
Hypothesis z_bound : ∀ z rest X Y, z_inv z rest X Y → zlen Y ≤ bound (zlen X).
Hypothesis z_bound_mono : ∀ n m, n ≤ m → bound n ≤ bound m.

Lemma zlib_laws : @CompressorLaws stream (ZlibCompressor deflateInit deflate) compress bound z_inv.
Proof.
  split; [done| | |done|done].
  - intros z X Y input room Hz Hr Hi. destruct (z_run z X Y input room Hz Hr Hi) as (used & rest & out & z' & Hd & Hs & Hl & Hp & Hz').
    cbn [Deflate ZlibCompressor]. unfold Zlib_Deflate. rewrite Hd. exec. rewrite bool_decide_eq_true_2 by done. exec. by eexists _, used, _, _, _.
  - intros z X Y input room Hz Hr. destruct (z_finish z X Y input room Hz Hr) as (code & used & rest & out & z' & Hd & Hs & Hl & Hc).
    cbn [Deflate ZlibCompressor]. unfold Zlib_Deflate. rewrite Hd. destruct Hc as [(-> & H1 & H2)|(-> & H1 & H2)]; by eexists _, used, _, _, _.
Qed.
End Zlib.

(** ** Witness *)

Module IngestedWitness.
Import HashWitness ChunkingWitness.

(** A [deflate] that copies. *)
Definition stored_deflate (z : ()) (flush : zlib_flush) (input : bytes) (room : Z) : zlib_result * bytes * bytes * () :=
  let n := Z.min room (zlen input) in
  (match flush with Z_FINISH => if n =? zlen input then Z_STREAM_END else Z_OK | Z_NO_FLUSH => Z_OK end,
   drop (Z.to_nat n) input, take (Z.to_nat n) input, tt).

Definition stored : Compressor () := ZlibCompressor tt stored_deflate.

Lemma stored_laws : @CompressorLaws () stored (λ data, data) (λ n, n) (λ _ _ X Y, Y = X).
Proof.
  apply zlib_laws; [done| | |by intros _ _ X Y ->|done].
  - intros [] X Y input room -> Hr _. destruct (copy_fits input room Hr) as (Hs & Hl & Hc). eexists _, _, _, _. split; [done|]. split; [exact Hs|]. split; [done|].
    split; [|done]. destruct Hc as [(H1 & _ & _)|[H1 _]]; [by left|by right].
  - intros [] X Y input room Hi Hr. assert (Y = X) as -> by by destruct Hi. destruct (copy_fits input room Hr) as (Hs & Hl & Hc).
    eexists _, _, _, _, _. split; [done|]. split; [exact Hs|]. split; [done|].
    destruct Hc as [(H1 & H2 & H3)|[H1 H2]]; [left; rewrite eqb_true by done; by rewrite H2|right; by rewrite eqb_false by done].
Qed.

Definition rest_w : gmap Z FileRest := <[1 := new_rest [47; 97] kSuffixNone kSha1]> (<[2 := new_rest [47; 98] kSuffixNone kSha1]> ∅).

End IngestedWitness.
