(* ===== verification/Completion.v ===== *)
(** * Completion of chunks by several upload tasks (src/cvmfs/ingestion/task_write.cc)

    The uploader calls [OnChunkComplete] in its upload tasks, of which there are as
    many as the spooler definition says ([num_upload_tasks]).  [RegisterChunk] locks
    the file, but the question whether the file is complete comes after it: with one
    task it is asked in time, with two it is not. *)

From stdpp Require Import base numbers list gmap relations.
From S2P Require Import Prelude Bytes Hash ChunkDetector Ingestion Stages Pipeline.

Open Scope Z_scope.

Section Callbacks.
Context (alg : Algorithms) (hashes : gmap Z any).

(** The chunks that are stored but not reported, the files of the callbacks that are
    between the two parts of [OnChunkComplete], and the dispatched files. *)
Record Callbacks := mkCallbacks { cb_write : TaskWrite; cb_stored : list Z; cb_checks : list Z; cb_dispatched : list Z }.

Inductive callback_step (tasks : nat) : Callbacks → Callbacks → Prop :=
  | step_register w w' l1 c l2 checks out f : (length checks < tasks)%nat → complete_register alg hashes w 0 c = Ret (f, w') →
      callback_step tasks (mkCallbacks w (l1 ++ c :: l2) checks out) (mkCallbacks w' (l1 ++ l2) (checks ++ [f]) out)
  | step_check w l c1 f c2 out new : complete_check w f = Ret new →
      callback_step tasks (mkCallbacks w l (c1 ++ f :: c2) out) (mkCallbacks w l (c1 ++ c2) (out ++ new)).

Lemma run_stage_snoc {W B O} (P : W → B → outcome (list O * W)) l b : ∀ w w1 w2 o1 o2,
  run_stage P w l = Ret (o1, w1) → P w1 b = Ret (o2, w2) → run_stage P w (l ++ [b]) = Ret (o1 ++ o2, w2).
Proof.
  induction l as [|c l IH]; intros w w1 w2 o1 o2 H1 H2; cbn in *.
  - injection H1 as <- <-. rewrite H2. exec. by rewrite app_nil_r.
  - apply bind_Ret in H1 as ([o3 w3] & Hc & H1). apply bind_Ret in H1 as ([o4 w4] & Hl & [= <- <-]). rewrite Hc. exec. rewrite (IH _ _ _ _ _ Hl H2). exec. by rewrite app_assoc.
Qed.

(** With one upload task the callbacks run one after the other. *)
Lemma one_task w0 l0 s : rtc (callback_step 1) (mkCallbacks w0 l0 [] []) s →
  ∃ seen, seen ++ cb_stored s ≡ₚ l0 ∧
    ((cb_checks s = [] ∧ run_stage (λ w, OnChunkComplete alg hashes w 0) w0 seen = Ret (cb_dispatched s, cb_write s)) ∨
     (∃ seen' c f w1, seen = seen' ++ [c] ∧ cb_checks s = [f] ∧ run_stage (λ w, OnChunkComplete alg hashes w 0) w0 seen' = Ret (cb_dispatched s, w1) ∧
        complete_register alg hashes w1 0 c = Ret (f, cb_write s))).
Proof.
  revert s. apply rtc_ind_r.
  { exists []. split; [done|]. by left. }
  intros s s' _ Hstep (seen & Hp & Hcase). inversion Hstep as [w w' l1 c l2 checks out f Hlen Hreg|w l c1 f c2 out new Hchk]; subst; cbn [cb_write cb_stored cb_checks cb_dispatched] in *.
  - destruct Hcase as [[-> Hrun]|(seen' & c' & f' & w1 & _ & Hc & _)]; [|rewrite Hc in Hlen; cbn in Hlen; lia].
    exists (seen ++ [c]). split; [by rewrite <- Hp, <- app_assoc; cbn; rewrite Permutation_middle|]. right. by exists seen, c, f, w.
  - destruct Hcase as [[Hc _]|(seen' & c & f' & w1 & -> & Hc & Hrun & Hreg)]; [by destruct c1|].
    assert (c1 = [] ∧ f = f' ∧ c2 = []) as (-> & -> & ->) by (destruct c1 as [|? [|]]; [by injection Hc as -> ->|discriminate..]).
    exists (seen' ++ [c]). split; [done|]. left. split; [done|]. eapply run_stage_snoc; [exact Hrun|]. unfold OnChunkComplete. rewrite Hreg. exec. rewrite Hchk. done.
Qed.

(** C21. With two upload tasks the last two chunks of a file, each in the callback of one
    of them, can both be registered before either callback asks whether the file is
    complete.  Then both dispatch it; [TaskRegister] deletes it the first time, and
    the second one works on the deleted file. *)
Theorem dispatched_twice w c1 c2 x1 x2 f y r : wr_chunks w !! c1 = Some x1 → wr_chunks w !! c2 = Some x2 → c1 ≠ c2 →
  ck_file x1 = f → ck_file x2 = f → wr_files w !! f = Some y → wr_rest w !! f = Some r →
  is_fully_chunked_ y ≠ 0 → nchunks_in_fly_ y = 2 → is_bulk_chunk_ x1 = false → is_bulk_chunk_ x2 = false →
  ∃ w', rtc (callback_step 2) (mkCallbacks w [c1; c2] [] []) (mkCallbacks w' [] [] [f; f]) ∧
    ∀ res w'', TaskRegister_Process alg w' f = Ret (res, w'') → TaskRegister_Process alg w'' f = Fail OutOfBounds.
Proof.
  intros H1 H2 Hne <- Hf2 Hy Hr Hfull Hn Hb1 Hb2.
  assert (∃ w1 r1, complete_register alg hashes w 0 c1 = Ret (ck_file x1, w1) ∧ wr_chunks w1 !! c2 = Some x2 ∧
    wr_files w1 !! ck_file x1 = Some (DecNchunksInFly y) ∧ wr_rest w1 !! ck_file x1 = Some r1) as (w1 & r1 & Hreg1 & Hc2 & Hy1 & Hr1).
  { unfold complete_register. rewrite Z.eqb_refl. exec. rewrite H1, Hy, Hr. unfold RegisterChunk, chunk_suffix. cbn [content_hash set_suffix suffix]. rewrite Hb1, Z.eqb_refl. exec.
    eexists _, _. split; [done|]. cbn. rewrite lookup_delete_ne, !lookup_insert_eq by done. done. }
  assert (∃ w2, complete_register alg hashes w1 0 c2 = Ret (ck_file x1, w2) ∧ wr_files w2 !! ck_file x1 = Some (DecNchunksInFly (DecNchunksInFly y))) as (w2 & Hreg2 & Hy2).
  { unfold complete_register. rewrite Z.eqb_refl. exec. rewrite Hc2, Hf2, Hy1, Hr1. unfold RegisterChunk, chunk_suffix. cbn [content_hash set_suffix suffix]. rewrite Hb2, Z.eqb_refl. exec.
    eexists. split; [done|]. cbn. by rewrite lookup_insert_eq. }
  assert (complete_check w2 (ck_file x1) = Ret [ck_file x1]) as Hchk.
  { unfold complete_check. rewrite Hy2. unfold IsProcessed. cbn. rewrite eqb_false by done. by rewrite Hn. }
  exists w2. split.
  - eapply rtc_l; [by apply (step_register 2 w w1 [] c1 [c2] [] []); [cbn; lia|]|]. eapply rtc_l; [by apply (step_register 2 w1 w2 [] c2 [] [ck_file x1] []); [cbn; lia|]|].
    eapply rtc_l; [by apply (step_check 2 w2 [] [] (ck_file x1) [ck_file x1] [])|]. eapply rtc_l; [by apply (step_check 2 w2 [] [] (ck_file x1) [] [ck_file x1])|]. apply rtc_refl.
  - intros res w'' H. unfold TaskRegister_Process in H. rewrite Hy2 in H. destruct (wr_rest w2 !! ck_file x1) as [r2|]; [|done].
    repeat (apply bind_Ret in H as (? & _ & H)). injection H as _ <-. unfold TaskRegister_Process. cbn. by rewrite lookup_delete_eq.
Qed.
End Callbacks.

(** ** Witness *)

Module CompletionWitness.
Definition w_w : TaskWrite :=
  mkWrite (<[7 := mkFile 100 true false (mkDetector 32 40 64 0 0 0 0 0) 2 1]> ∅) (<[7 := new_rest [47; 97] kSuffixNone kSha1]> ∅)
    (<[1 := mkChunk 7 0 60 false]> (<[2 := mkChunk 7 60 40 false]> ∅)) ∅.

Lemma dispatched_twice_witness : ∃ w', rtc (callback_step kSha1 ∅ 2) (mkCallbacks w_w [1; 2] [] []) (mkCallbacks w' [] [] [7; 7]) ∧
  ∀ res w'', TaskRegister_Process kSha1 w' 7 = Ret (res, w'') → TaskRegister_Process kSha1 w'' 7 = Fail OutOfBounds.
Proof.
  by apply (dispatched_twice kSha1 ∅ w_w 1 2 (mkChunk 7 0 60 false) (mkChunk 7 60 40 false) 7 (mkFile 100 true false (mkDetector 32 40 64 0 0 0 0 0) 2 1) (new_rest [47; 97] kSuffixNone kSha1)).
Defined.
End CompletionWitness.
