(* ===== verification/Pack.v ===== *)
(** * Object packs (src/cvmfs/pack.{h,cc})

    Many objects in one stream: a header with an index, then the contents.
    [ObjectPack] collects the objects, [ObjectPackProducer] writes the stream in
    buffers of any size, [ObjectPackConsumer] reads it in pieces of any size and
    hands the objects to its listeners. *)

From stdpp Require Import base numbers list gmap.
From S2P Require Import Prelude Bytes StringUtil Hash.

Open Scope Z_scope.

(** ** Buckets *)

Inductive BucketContentType := kEmpty | kNamed | kCas.

#[export] Instance BucketContentType_eq_dec : EqDecision BucketContentType.
Proof. solve_decision. Defined.

Definition kDefaultLimit : Z := 200 * 1024 * 1024.
Definition kMaxObjects : Z := 100000.
Definition kInitialSize : Z := 128.

(** [content] is the part of the memory of [capacity] bytes that was written;
    its length is the member [size]. *)
Record Bucket := mkBucket {
  bk_content : bytes;
  bk_capacity : Z;
  bk_id : any;
  bk_content_type : BucketContentType;
  bk_name : bytes
}.
Definition bk_size (b : Bucket) : Z := zlen (bk_content b).

Definition new_bucket : Bucket := mkBucket [] kInitialSize null_any kEmpty [].

Fixpoint grow_loop (fuel : nat) (size buf_size capacity : Z) : outcome Z :=
  match fuel with
  | O => Fail OutOfFuel
  | S fuel => if u64 (size + buf_size) >? capacity then grow_loop fuel size buf_size (u64 (capacity * 2)) else Ret capacity
  end.

Definition Add (b : Bucket) (buf : bytes) : outcome Bucket :=
  if zlen buf =? 0 then Ret b else
  capacity ← grow_loop 64 (bk_size b) (zlen buf) (bk_capacity b);
  if bk_size b + zlen buf >? capacity then Fail OutOfBounds else
  Ret (mkBucket (bk_content b ++ buf) capacity (bk_id b) (bk_content_type b) (bk_name b)).

(** ** Object packs

    A [BucketHandle] is the address of a bucket on the heap. *)

Notation heap := (gmap Z Bucket).

Definition deref (h : heap) (handle : Z) : outcome Bucket :=
  match h !! handle with Some b => Ret b | None => Fail OutOfBounds end.

Record ObjectPack := mkPack {
  limit_ : Z;
  size_ : Z;
  open_buckets_ : gset Z;
  buckets_ : list Z
}.

Definition new_pack (limit : Z) : ObjectPack := mkPack limit 0 ∅ [].

Definition AddToBucket (h : heap) (buf : bytes) (handle : Z) : outcome heap :=
  b ← deref h handle;
  b ← Add b buf;
  Ret (<[handle := b]> h).

(** [handle] is the address that [new] returns. *)
Definition NewBucket (h : heap) (p : ObjectPack) (handle : Z) : heap * ObjectPack :=
  (<[handle := new_bucket]> h, mkPack (limit_ p) (size_ p) ({[handle]} ∪ open_buckets_ p) (buckets_ p)).

Definition CommitBucket (h : heap) (p : ObjectPack) (type : BucketContentType) (id : any) (handle : Z) (name : bytes)
    : outcome (bool * heap * ObjectPack) :=
  b ← deref h handle;
  let b := mkBucket (bk_content b) (bk_capacity b) id type (if decide (type = kNamed) then name else bk_name b) in
  let h := <[handle := b]> h in
  if zlen (buckets_ p) >=? kMaxObjects then Ret (false, h, p)
  else if u64 (size_ p + bk_size b) >? limit_ p then Ret (false, h, p)
  else Ret (true, h, mkPack (limit_ p) (u64 (size_ p + bk_size b)) (open_buckets_ p ∖ {[handle]}) (buckets_ p ++ [handle])).

Definition DiscardBucket (h : heap) (p : ObjectPack) (handle : Z) : outcome (heap * ObjectPack) :=
  _ ← deref h handle;
  Ret (delete handle h, mkPack (limit_ p) (size_ p) (open_buckets_ p ∖ {[handle]}) (buckets_ p)).

Definition TransferBucket (p : ObjectPack) (handle : Z) (other : ObjectPack) : ObjectPack * ObjectPack :=
  (mkPack (limit_ p) (size_ p) (open_buckets_ p ∖ {[handle]}) (buckets_ p),
   mkPack (limit_ other) (size_ other) ({[handle]} ∪ open_buckets_ other) (buckets_ other)).

(** [BucketContent], [BucketSize] and [BucketId] are members of the bucket. *)
Definition bucket_at (h : heap) (p : ObjectPack) (idx : Z) : outcome Bucket :=
  match lget (buckets_ p) idx with
  | None => Fail AssertFailed
  | Some handle => deref h handle
  end.

(** ** The producer *)

Definition chr_C : Z := 67.
Definition chr_N : Z := 78.
Definition chr_S : Z := 83.
Definition chr_V : Z := 86.
Definition chr_2 : Z := 50.

Definition InitializeHeader (version num_objects pack_size : Z) : bytes :=
  (chr_V :: StringifyInt version ++ [chr_nl])
  ++ (chr_S :: StringifyInt (i64 pack_size) ++ [chr_nl])
  ++ (chr_N :: StringifyInt num_objects ++ [chr_nl])
  ++ [chr_minus; chr_minus; chr_nl].

Definition AppendItemToHeader (object_type : BucketContentType) (hash_str : bytes) (object_size : Z)
    (object_name header : bytes) : outcome bytes :=
  _ ← cassert (bool_decide (object_type = kCas) || (bool_decide (object_type = kNamed) && negb (zlen object_name =? 0)));
  '(line_prefix, line_suffix) ←
    (match object_type with
     | kNamed => n ← Base64Url object_name; Ret ([chr_N; chr_space], chr_space :: n)
     | kCas => Ret ([chr_C; chr_space], [])
     | kEmpty => Fail AssertFailed
     end);
  Ret (header ++ line_prefix ++ hash_str ++ [chr_space] ++ StringifyInt (i64 object_size) ++ line_suffix ++ [chr_nl]).

(** What is sent after the header: the buckets of a pack, or the rest of a file. *)
Inductive payload := FromPack | FromFile (rest : bytes).

Record Producer := mkProducer {
  pr_payload : payload;
  pr_pos : Z;
  pr_idx : Z;
  pr_pos_in_bucket : Z;
  pr_header : bytes
}.

Fixpoint append_items (h : heap) (handles : list Z) (header : bytes) : outcome bytes :=
  match handles with
  | [] => Ret header
  | handle :: handles =>
      b ← deref h handle;
      hash_str ← ToString (bk_id b) true;
      header ← AppendItemToHeader kCas hash_str (bk_size b) [] header;
      append_items h handles header
  end.

Definition new_producer (h : heap) (p : ObjectPack) : outcome Producer :=
  let N := u32 (zlen (buckets_ p)) in
  header ← append_items h (take (Z.to_nat N) (buckets_ p)) (InitializeHeader 2 (i32 N) (size_ p));
  Ret (mkProducer FromPack 0 0 0 header).

(** The constructor for a file with the given contents. *)
Definition new_file_producer (id : any) (file file_name : bytes) : outcome Producer :=
  hash_str ← ToString id true;
  header ← AppendItemToHeader kNamed hash_str (zlen file) file_name (InitializeHeader 2 1 (zlen file));
  Ret (mkProducer (FromFile file) 0 0 0 header).

(** The loop over the buckets: what is copied and where it stops. *)
Fixpoint produce_loop (fuel : nat) (h : heap) (p : ObjectPack) (idx pos_in_bucket remaining_in_buf : Z)
    : outcome (bytes * Z * Z) :=
  match fuel with
  | O => Fail OutOfFuel
  | S fuel =>
      if (remaining_in_buf >? 0) && (idx <? zlen (buckets_ p)) then
        b ← bucket_at h p idx;
        let remaining_in_bucket := u32 (bk_size b - pos_in_bucket) in
        let nbytes := Z.min remaining_in_buf remaining_in_bucket in
        data ← load (bk_content b) pos_in_bucket nbytes;
        let '(idx, pos_in_bucket) :=
          if nbytes =? remaining_in_bucket then (idx + 1, 0) else (idx, pos_in_bucket + nbytes) in
        '(rest, idx, pos_in_bucket) ← produce_loop fuel h p idx pos_in_bucket (remaining_in_buf - nbytes);
        Ret (data ++ rest, idx, pos_in_bucket)
      else Ret ([], idx, pos_in_bucket)
  end.

(** The bytes written to the buffer. *)
Definition ProduceNext (h : heap) (p : ObjectPack) (s : Producer) (buf_size : Z) : outcome (bytes * Producer) :=
  let remaining_in_header := if pr_pos s <? zlen (pr_header s) then u32 (zlen (pr_header s) - pr_pos s) else 0 in
  let nbytes_header := Z.min remaining_in_header buf_size in
  head ← (if nbytes_header =? 0 then Ret [] else load (pr_header s) (pr_pos s) nbytes_header);
  let pos := pr_pos s + nbytes_header in
  let remaining_in_buf := buf_size - nbytes_header in
  if remaining_in_buf =? 0 then
    Ret (head, mkProducer (pr_payload s) pos (pr_idx s) (pr_pos_in_bucket s) (pr_header s))
  else
    match pr_payload s with
    | FromFile rest =>
        let data := take (Z.to_nat remaining_in_buf) rest in
        Ret (head ++ data, mkProducer (FromFile (drop (Z.to_nat remaining_in_buf) rest)) (pos + zlen data)
                             (pr_idx s) (pr_pos_in_bucket s) (pr_header s))
    | FromPack =>
        '(data, idx, pos_in_bucket) ←
          produce_loop (S (Z.to_nat (zlen (buckets_ p) - pr_idx s))) h p (pr_idx s) (pr_pos_in_bucket s) remaining_in_buf;
        Ret (head ++ data, mkProducer FromPack pos idx pos_in_bucket (pr_header s))
    end.

(** ** The consumer *)

Inductive State := kStateContinue | kStateDone | kStateCorrupt | kStateBadFormat | kStateHeaderTooBig | kStateTrailingBytes.

#[export] Instance State_eq_dec : EqDecision State.
Proof. solve_decision. Defined.

Record IndexEntry := mkEntry { en_id : any; en_size : Z; en_type : BucketContentType; en_name : bytes }.

(** What the listeners get: the entry and some of its bytes. *)
Record Event := mkEvent { ev_entry : IndexEntry; ev_buf : bytes }.

Definition kAccuSize : Z := 128 * 1024.

Record Consumer := mkConsumer {
  expected_digest_ : any;
  expected_header_size_ : Z;
  c_pos : Z;
  c_idx : Z;
  c_pos_in_object : Z;
  c_accumulator : bytes;
  c_state : State;
  c_raw_header : bytes;
  c_size : Z;
  c_index : list IndexEntry
}.

Definition new_consumer (expected_digest : any) (expected_header_size : Z) : Consumer :=
  mkConsumer expected_digest expected_header_size 0 0 0 []
    (if expected_header_size >? 100 * kMaxObjects then kStateHeaderTooBig else kStateContinue) [] 0 [].

(** [line.find(' ', pos)] *)
Definition find_space (line : bytes) (pos : Z) : option Z := find line [chr_space] pos.

(** The entry and the size to add. *)
Definition ParseItem (line : bytes) : outcome (option IndexEntry) :=
  match line with
  | c :: _ =>
      if c =? chr_C then
        match find_space line 2 with
        | None => Ret None
        | Some separator =>
            if separator =? zlen line - 1 then Ret None else
            let size := String2Uint64 (substr_from line (separator + 1)) in
            id ← MkFromSuffixedHexPtr (substr line 2 (separator - 2));
            Ret (Some (mkEntry id size kCas []))
        end
      else if c =? chr_N then
        match find_space line 2 with
        | None => Ret None
        | Some separator1 =>
            if separator1 =? zlen line - 1 then Ret None else
            let npos := 2 ^ 64 - 1 in
            let separator2 := default npos (find_space line (separator1 + 1)) in
            let size := String2Uint64 (substr line (separator1 + 1) (Z.min (zlen line) (u64 (separator2 - separator1 - 1)))) in
            name ← Debase64 (substr_from line (u64 (separator2 + 1)));
            match name with
            | None => Ret None
            | Some name =>
                id ← MkFromSuffixedHexPtr (substr line 2 (separator1 - 2));
                Ret (Some (mkEntry id size kNamed name))
            end
        end
      else Ret None
  | [] => Ret None
  end.

(** The loop over the lines of the index: the entries and the sum of the sizes. *)
Fixpoint index_loop (fuel : nat) (raw : bytes) (index_idx : Z) (index : list IndexEntry) (sum_size : Z)
    : outcome (list IndexEntry * Z) :=
  match fuel with
  | O => Fail OutOfFuel
  | S fuel =>
      let line := GetLineMem (substr_from raw index_idx) (u32 (zlen raw - index_idx)) in
      if zlen line =? 0 then Ret (index, sum_size) else
      entry ← ParseItem line;
      match entry with
      | None => Ret (index, sum_size)
      | Some entry =>
          let index := index ++ [entry] in
          let sum_size := u64 (sum_size + en_size entry) in
          let index_idx := u32 (index_idx + zlen line + 1) in
          if index_idx <? zlen raw then index_loop fuel raw index_idx index sum_size else Ret (index, sum_size)
      end
  end.

(** Success, [size_] and [index_]. *)
Definition ParseHeader (raw_header : bytes) : outcome (bool * Z * list IndexEntry) :=
  let header := ParseKeyvalMem raw_header ∅ in
  match header !! chr_V with
  | None => Ret (false, 0, [])
  | Some v =>
      if negb (bytes_eqb v [chr_2]) then Ret (false, 0, []) else
      let size := String2Uint64 (default [] (header !! chr_S)) in
      let nobjects := u32 (String2Uint64 (default [] (header !! chr_N))) in
      if nobjects =? 0 then Ret (true, size, []) else
      match find raw_header [chr_minus; chr_minus; chr_nl] 0 with
      | None => Ret (false, size, [])
      | Some separator_idx =>
          let index_idx := u32 (separator_idx + 3) in
          if index_idx >=? zlen raw_header then Ret (false, size, []) else
          '(index, sum_size) ← index_loop (S (length raw_header)) raw_header index_idx [] 0;
          Ret ((nobjects =? zlen index) && (size =? sum_size), size, index)
      end
  end.

(** The body of the loop of [ConsumePayload] up to the events: what the listeners
    get, the number of bytes consumed, and the accumulator. *)
Definition consume_piece (entry : IndexEntry) (accu buf : bytes) (pos_in_buf remaining_in_object : Z)
    : outcome (list Event * Z * bytes) :=
  let remaining_in_buf := zlen buf - pos_in_buf in
  let is_small_rest := remaining_in_buf <? kAccuSize in
  let nbytes := Z.min remaining_in_object remaining_in_buf in
  if (zlen accu >? 0) || ((remaining_in_buf <? remaining_in_object) && is_small_rest) then
    let nbytes := Z.min (kAccuSize - zlen accu) nbytes in
    data ← load buf pos_in_buf nbytes;
    let accu := accu ++ data in
    if (zlen accu =? kAccuSize) || (nbytes =? remaining_in_object)
    then Ret ([mkEvent entry accu], nbytes, []) else Ret ([], nbytes, accu)
  else
    data ← load buf pos_in_buf nbytes;
    Ret ([mkEvent entry data], nbytes, accu).

(** The loop of [ConsumePayload] from [pos_in_buf] on: the events, and idx_,
    pos_in_object_, the accumulator and the position where it stops. *)
Fixpoint payload_loop (fuel : nat) (index : list IndexEntry) (idx pos_in_object : Z) (accu buf : bytes) (pos_in_buf : Z)
    : outcome (list Event * Z * Z * bytes * Z) :=
  match fuel with
  | O => Fail OutOfFuel
  | S fuel =>
      match lget index idx with
      | None => Ret ([], idx, pos_in_object, accu, pos_in_buf)
      | Some entry =>
          if (pos_in_buf <? zlen buf) || (en_size entry =? 0) then
            let remaining_in_object := u64 (en_size entry - pos_in_object) in
            '(events, nbytes, accu) ← consume_piece entry accu buf pos_in_buf remaining_in_object;
            let '(idx, pos_in_object) :=
              if nbytes =? remaining_in_object then (u32 (idx + 1), 0) else (idx, u32 (pos_in_object + nbytes)) in
            '(rest, idx, pos_in_object, accu, pos_in_buf) ←
              payload_loop fuel index idx pos_in_object accu buf (pos_in_buf + nbytes);
            Ret (events ++ rest, idx, pos_in_object, accu, pos_in_buf)
          else Ret ([], idx, pos_in_object, accu, pos_in_buf)
      end
  end.

Definition ConsumePayload (c : Consumer) (buf : bytes) : outcome (State * list Event * Consumer) :=
  let fuel := S (length buf + length (c_index c)) in
  '(events, idx, pos_in_object, accu, pos_in_buf) ←
    payload_loop fuel (c_index c) (c_idx c) (c_pos_in_object c) (c_accumulator c) buf 0;
  let state :=
    if idx =? zlen (c_index c) then if pos_in_buf =? zlen buf then kStateDone else kStateTrailingBytes
    else kStateContinue in
  Ret (state, events, mkConsumer (expected_digest_ c) (expected_header_size_ c) (c_pos c + zlen buf) idx pos_in_object accu
                        state (c_raw_header c) (c_size c) (c_index c)).

Definition with_state (c : Consumer) (s : State) : Consumer :=
  mkConsumer (expected_digest_ c) (expected_header_size_ c) (c_pos c) (c_idx c) (c_pos_in_object c) (c_accumulator c)
    s (c_raw_header c) (c_size c) (c_index c).
Definition with_raw (c : Consumer) (pos : Z) (raw : bytes) : Consumer :=
  mkConsumer (expected_digest_ c) (expected_header_size_ c) pos (c_idx c) (c_pos_in_object c) (c_accumulator c)
    (c_state c) raw (c_size c) (c_index c).
Definition with_index (c : Consumer) (raw : bytes) (size : Z) (index : list IndexEntry) : Consumer :=
  mkConsumer (expected_digest_ c) (expected_header_size_ c) (c_pos c) (c_idx c) (c_pos_in_object c) (c_accumulator c)
    (c_state c) raw size index.

Section Consume.
Context {context : Type} (init : Algorithms → context) (update : context → bytes → context) (final : context → bytes).

Definition HashString (content : bytes) (any_digest : any) : outcome any := HashMem init update final content any_digest.

Definition GetDigest (s : Producer) (hash : any) : outcome any := HashString (pr_header s) hash.

Definition ConsumeNext (c : Consumer) (buf : bytes) : outcome (State * list Event * Consumer) :=
  let buf_size := zlen buf in
  if buf_size =? 0 then Ret (c_state c, [], c) else
  if decide (c_state c = kStateDone) then Ret (kStateTrailingBytes, [], with_state c kStateTrailingBytes) else
  if decide (c_state c ≠ kStateContinue) then Ret (c_state c, [], c) else
  let remaining_in_header :=
    if c_pos c <? expected_header_size_ c then u32 (expected_header_size_ c - c_pos c) else 0 in
  let nbytes_header := Z.min remaining_in_header buf_size in
  let c :=
    if nbytes_header =? 0 then c
    else with_raw c (c_pos c + nbytes_header) (c_raw_header c ++ take (Z.to_nat nbytes_header) buf) in
  if c_pos c <? expected_header_size_ c then Ret (kStateContinue, [], c) else
  let payload := drop (Z.to_nat nbytes_header) buf in
  if negb (nbytes_header =? 0) && (c_pos c =? expected_header_size_ c) then
    digest ← HashString (c_raw_header c) (Any (replicate 20 0) (algorithm (expected_digest_ c)) kSuffixNone);
    if negb (any_eq digest (expected_digest_ c)) then Ret (kStateCorrupt, [], with_state c kStateCorrupt) else
    '(ok, size, index) ← ParseHeader (c_raw_header c);
    if negb ok then Ret (kStateBadFormat, [], with_state (with_index c (c_raw_header c) size index) kStateBadFormat) else
    let c := with_index c [] size index in
    if (buf_size =? nbytes_header) && (zlen index =? 0) then Ret (kStateDone, [], with_state c kStateDone)
    else ConsumePayload c payload
  else ConsumePayload c payload.
End Consume.

(** ** The packs of a process

    Packs share the heap; a bucket belongs to one of them, open or committed. *)

(** [delete] of an address that holds no bucket is undefined. *)
Fixpoint delete_all (h : heap) (handles : list Z) : outcome heap :=
  match handles with
  | [] => Ret h
  | handle :: handles => _ ← deref h handle; delete_all (delete handle h) handles
  end.

Definition destroy_pack (h : heap) (p : ObjectPack) : outcome heap :=
  h ← delete_all h (elements (open_buckets_ p));
  delete_all h (buckets_ p).

Record system := mkSystem { sys_heap : heap; sys_packs : gmap Z ObjectPack }.

Inductive pack_call :=
  | CallPack (i limit : Z)
  | CallNew (i handle : Z)
  | CallAdd (handle : Z) (buf : bytes)
  | CallCommit (i : Z) (type : BucketContentType) (id : any) (handle : Z) (name : bytes)
  | CallDiscard (i handle : Z)
  | CallTransfer (i handle j : Z)
  | CallDestroy (i : Z).

Definition get_pack (s : system) (i : Z) : outcome ObjectPack :=
  match sys_packs s !! i with Some p => Ret p | None => Fail OutOfBounds end.

Definition do_call (s : system) (c : pack_call) : outcome system :=
  match c with
  | CallPack i limit => Ret (mkSystem (sys_heap s) (<[i := new_pack limit]> (sys_packs s)))
  | CallNew i handle =>
      p ← get_pack s i;
      let '(h, p) := NewBucket (sys_heap s) p handle in
      Ret (mkSystem h (<[i := p]> (sys_packs s)))
  | CallAdd handle buf => h ← AddToBucket (sys_heap s) buf handle; Ret (mkSystem h (sys_packs s))
  | CallCommit i type id handle name =>
      p ← get_pack s i;
      '(_, h, p) ← CommitBucket (sys_heap s) p type id handle name;
      Ret (mkSystem h (<[i := p]> (sys_packs s)))
  | CallDiscard i handle =>
      p ← get_pack s i;
      '(h, p) ← DiscardBucket (sys_heap s) p handle;
      Ret (mkSystem h (<[i := p]> (sys_packs s)))
  | CallTransfer i handle j =>
      p ← get_pack s i;
      other ← get_pack s j;
      let '(p, other) := TransferBucket p handle other in
      Ret (mkSystem (sys_heap s) (<[j := other]> (<[i := p]> (sys_packs s))))
  | CallDestroy i =>
      p ← get_pack s i;
      h ← destroy_pack (sys_heap s) p;
      Ret (mkSystem h (delete i (sys_packs s)))
  end.

Fixpoint do_calls (s : system) (cs : list pack_call) : outcome system :=
  match cs with
  | [] => Ret s
  | c :: cs => s ← do_call s c; do_calls s cs
  end.

Definition is_open (s : system) (i handle : Z) : Prop :=
  ∃ p, sys_packs s !! i = Some p ∧ handle ∈ open_buckets_ p.

(** How the packs may be used: calls name existing packs and buckets that are
    still open, [new] returns unused addresses, and buckets stay far below 2^64
    bytes. *)
Definition allowed (s : system) (c : pack_call) : Prop :=
  match c with
  | CallPack i limit => sys_packs s !! i = None ∧ 0 ≤ limit < 2 ^ 63
  | CallNew i handle => is_Some (sys_packs s !! i) ∧ sys_heap s !! handle = None
  | CallAdd handle buf =>
      (∃ i, is_open s i handle) ∧
      ∀ b, sys_heap s !! handle = Some b → bk_size b + zlen buf ≤ 2 ^ 60
  | CallCommit i _ _ handle _ | CallDiscard i handle => is_open s i handle
  | CallTransfer i handle j => is_open s i handle ∧ is_Some (sys_packs s !! j) ∧ i ≠ j
  | CallDestroy i => is_Some (sys_packs s !! i)
  end.

Fixpoint allowed_calls (s : system) (cs : list pack_call) : Prop :=
  match cs with
  | [] => True
  | c :: cs => allowed s c ∧ ∀ s', do_call s c = Ret s' → allowed_calls s' cs
  end.

Definition handles (p : ObjectPack) : gset Z := open_buckets_ p ∪ list_to_set (buckets_ p).

Definition size_at (h : heap) (handle : Z) : Z := from_option bk_size 0 (h !! handle).
Definition total (h : heap) (l : list Z) : Z := foldr (λ a s, size_at h a + s) 0 l.

Definition bucket_ok (b : Bucket) : Prop := 1 ≤ bk_capacity b ≤ 2 ^ 61 ∧ bk_size b ≤ bk_capacity b ∧ bk_size b ≤ 2 ^ 60.

Record pack_ok (h : heap) (p : ObjectPack) : Prop := {
  pk_handles : handles p ⊆ dom h;
  pk_nodup : NoDup (buckets_ p);
  pk_disjoint : open_buckets_ p ## list_to_set (buckets_ p);
  pk_size : size_ p = total h (buckets_ p);
  pk_limit : size_ p ≤ limit_ p < 2 ^ 63;
  pk_count : zlen (buckets_ p) ≤ kMaxObjects
}.

(** Every pack is consistent, no bucket has two owners, and none is lost. *)
Record sys_ok (s : system) : Prop := {
  so_buckets : map_Forall (λ _, bucket_ok) (sys_heap s);
  so_packs : map_Forall (λ _, pack_ok (sys_heap s)) (sys_packs s);
  so_disjoint : ∀ i j p q, sys_packs s !! i = Some p → sys_packs s !! j = Some q → i ≠ j → handles p ## handles q;
  so_owned : ∀ a, a ∈ dom (sys_heap s) → ∃ i p, sys_packs s !! i = Some p ∧ a ∈ handles p
}.

Definition empty_system : system := mkSystem ∅ ∅.

(** ** Buckets grow *)

Lemma grow_loop_S fuel size buf_size capacity : grow_loop (S fuel) size buf_size capacity
  = if u64 (size + buf_size) >? capacity then grow_loop fuel size buf_size (u64 (capacity * 2)) else Ret capacity.
Proof. done. Qed.

Lemma grow_loop_ok fuel : ∀ size buf_size capacity, 0 ≤ size → 0 < buf_size → size + buf_size ≤ 2 ^ 60 →
  1 ≤ capacity ≤ 2 ^ 61 → size + buf_size ≤ capacity * 2 ^ Z.of_nat fuel →
  ∃ c, grow_loop (S fuel) size buf_size capacity = Ret c ∧ size + buf_size ≤ c ∧ capacity ≤ c ≤ 2 ^ 61.
Proof.
  induction fuel as [|fuel IH]; intros size n cap Hs Hn Hb Hc Hf; rewrite grow_loop_S.
  - rewrite u64_small by (unfold is_u64; lia). change (2 ^ Z.of_nat 0) with 1 in Hf.
    rewrite gtb_false by lia. exists cap. split_and!; [done|lia..].
  - rewrite u64_small by (unfold is_u64; lia). destruct (Z.leb_spec (size + n) cap).
    + rewrite gtb_false by lia. exists cap. split_and!; [done|lia..].
    + rewrite gtb_true, u64_small by (unfold is_u64; lia).
      rewrite Nat2Z.inj_succ, Z.pow_succ_r in Hf by lia.
      destruct (IH size n (cap * 2)) as (c & Hg & ? & ?); [lia..|rewrite Z.mul_assoc in Hf; exact Hf|]. exists c. split; [done|lia].
Qed.

Lemma Add_ok b buf : bucket_ok b → bk_size b + zlen buf ≤ 2 ^ 60 →
  ∃ c, Add b buf = Ret (mkBucket (bk_content b ++ buf) c (bk_id b) (bk_content_type b) (bk_name b)) ∧
    bucket_ok (mkBucket (bk_content b ++ buf) c (bk_id b) (bk_content_type b) (bk_name b)).
Proof.
  intros (Hc & Hs & _) Hb. unfold Add. pose proof (zlen_nonneg (bk_content b)). pose proof (zlen_nonneg buf).
  unfold bucket_ok, bk_size in *. cbn [bk_content bk_capacity]. rewrite zlen_app.
  destruct (Z.eqb_spec (zlen buf) 0) as [Hz|Hz].
  - exists (bk_capacity b). apply zlen_zero in Hz as ->. rewrite app_nil_r.
    split; [by destruct b|]. change (zlen (@nil Z)) with 0 in *. lia.
  - destruct (grow_loop_ok 63 (zlen (bk_content b)) (zlen buf) (bk_capacity b)) as (c & -> & ? & ?);
      [lia..|change (2 ^ Z.of_nat 63) with (2 ^ 63); lia|].
    exec. rewrite gtb_false by lia. exists c. split; [done|lia].
Qed.

(** ** No bucket is lost, shared or freed twice *)

Lemma total_ext h h' l : (∀ a, a ∈ l → h' !! a = h !! a) → total h' l = total h l.
Proof.
  induction l as [|a l IH]; intros Hl; [done|]. cbn [total foldr]. unfold size_at at 1 3.
  rewrite Hl by left. f_equal. apply IH. intros b Hb. apply Hl. by right.
Qed.

Lemma pack_frame h h' p : pack_ok h p → (∀ a, a ∈ handles p → h' !! a = h !! a) → pack_ok h' p.
Proof.
  intros [Hh Hn Hd Hs Hl Hc] Hf. split; try done.
  - intros a Ha. rewrite elem_of_dom, Hf by done. apply elem_of_dom. set_solver.
  - rewrite Hs. symmetry. apply total_ext. intros a Ha. apply Hf. unfold handles. set_solver.
Qed.

(** Pack [i] and its buckets change, the other packs do not notice. *)
Lemma sys_ok_set s i p h' p' : sys_ok s → sys_packs s !! i = Some p →
  map_Forall (λ _, bucket_ok) h' → pack_ok h' p' →
  (∀ a, a ∉ handles p → a ∉ handles p' → h' !! a = sys_heap s !! a) →
  (∀ a, a ∈ handles p' → a ∈ handles p ∨ sys_heap s !! a = None) →
  (∀ a, a ∈ handles p → a ∈ handles p' ∨ h' !! a = None) →
  sys_ok (mkSystem h' (<[i := p']> (sys_packs s))).
Proof.
  intros [Hb Hp Hd Ho] Hi Hb' Hp' Hsame Hnew Hold.
  assert (∀ j q, sys_packs s !! j = Some q → j ≠ i → ∀ a, a ∈ handles q → a ∉ handles p ∧ a ∉ handles p') as Hother.
  { intros j q Hj Hji a Ha. assert (a ∉ handles p) by (pose proof (Hd _ _ _ _ Hj Hi Hji); set_solver).
    split; [done|]. intros [?|Hn]%Hnew; [done|]. apply not_elem_of_dom in Hn. apply Hn.
    by apply (pk_handles _ _ (Hp _ _ Hj)). }
  split; cbn [sys_heap sys_packs]; [done|..].
  - intros j q. destruct (decide (j = i)) as [->|Hji].
    + rewrite lookup_insert_eq. by intros [= <-].
    + rewrite lookup_insert_ne by done. intros Hj. apply (pack_frame (sys_heap s)); [by apply (Hp j)|].
      intros a Ha. by apply Hsame; apply (Hother j q).
  - intros j k q r. rewrite !lookup_insert_Some. intros [[<- <-]|[Hj Hq]] [[<- <-]|[Hk Hr]] Hjk; [done|..].
    + pose proof (Hother _ _ Hr). set_solver.
    + pose proof (Hother _ _ Hq). set_solver.
    + by apply (Hd j k).
  - intros a Ha. destruct (decide (a ∈ handles p')) as [Hin|Hin].
    { exists i, p'. by rewrite lookup_insert_eq. }
    destruct (decide (a ∈ handles p)) as [Hin'|Hin'].
    { destruct (Hold a Hin') as [|Hn]; [done|]. by apply not_elem_of_dom in Hn. }
    destruct (Ho a) as (j & q & Hj & Hq).
    { rewrite elem_of_dom, <- Hsame by done. by apply elem_of_dom. }
    exists j, q. rewrite lookup_insert_ne; [done|]. intros ->. naive_solver.
Qed.

Lemma open_handle p a : a ∈ open_buckets_ p → a ∈ handles p.
Proof. unfold handles. set_solver. Qed.

Lemma is_open_inv s i a : sys_ok s → is_open s i a →
  ∃ p b, sys_packs s !! i = Some p ∧ pack_ok (sys_heap s) p ∧ a ∈ open_buckets_ p ∧ a ∉ buckets_ p ∧
    sys_heap s !! a = Some b ∧ bucket_ok b.
Proof.
  intros Hok (p & Hp & Ha). pose proof (so_packs s Hok i p Hp) as Hpk.
  assert (is_Some (sys_heap s !! a)) as [b Hb].
  { apply elem_of_dom, (pk_handles _ _ Hpk). by apply open_handle. }
  exists p, b. split_and!; try done.
  - pose proof (pk_disjoint _ _ Hpk). set_solver.
  - by apply (so_buckets s Hok a).
Qed.

Lemma pack_added h p a b : pack_ok h p → a ∉ buckets_ p → pack_ok (<[a := b]> h) p.
Proof.
  intros [Hh Hn Hd Hs Hl Hc] Ha. split; try done.
  - rewrite dom_insert. set_solver.
  - rewrite Hs. symmetry. apply total_ext. intros c Hc'. rewrite lookup_insert_ne; [done|]. intros ->. done.
Qed.

Lemma pack_new s i p a : sys_ok s → sys_packs s !! i = Some p → sys_heap s !! a = None →
  ∃ s', do_call s (CallNew i a) = Ret s' ∧ sys_ok s'.
Proof.
  intros Hok Hp Ha. pose proof (so_packs s Hok i p Hp) as Hpk.
  assert (a ∉ handles p) as Hnew.
  { intros Hin. apply not_elem_of_dom in Ha. by apply Ha, (pk_handles _ _ Hpk). }
  cbn. unfold get_pack. rewrite Hp. exec. eexists. split; [done|].
  apply (sys_ok_set s i p); try done; unfold handles in *; cbn [open_buckets_ buckets_]; [..|set_solver].
  - apply map_Forall_insert_2; [by vm_compute|apply Hok].
  - assert (a ∉ buckets_ p) by set_solver. destruct (pack_added _ _ a new_bucket Hpk) as [Hh Hn Hd Hs Hl Hc]; [done|].
    split; try done; unfold handles in *; cbn [open_buckets_ buckets_ size_ limit_]; [|set_solver].
    rewrite dom_insert in *. set_solver.
  - intros c _ Hc. rewrite lookup_insert_ne; [done|]. set_solver.
  - intros c [[->%elem_of_singleton|?]%elem_of_union|?]%elem_of_union; [by right|set_solver..].
Qed.

Lemma pack_add s i a buf : sys_ok s → is_open s i a →
  (∀ b, sys_heap s !! a = Some b → bk_size b + zlen buf ≤ 2 ^ 60) →
  ∃ s', do_call s (CallAdd a buf) = Ret s' ∧ sys_ok s'.
Proof.
  intros Hok Hopen Hsize. destruct (is_open_inv s i a Hok Hopen) as (p & b & Hp & Hpk & Ha & Hna & Hb & Hbok).
  cbn. unfold AddToBucket, deref. rewrite Hb. exec.
  destruct (Add_ok b buf Hbok (Hsize b Hb)) as (c & -> & Hb'). exec. eexists. split; [done|].
  rewrite <- (insert_id (sys_packs s) i p Hp). apply (sys_ok_set s i p); try done; [..|by left|by left].
  - apply map_Forall_insert_2; [done|apply Hok].
  - by apply pack_added.
  - intros d Hd _. rewrite lookup_insert_ne; [done|]. intros ->. by apply Hd, open_handle.
Qed.

Lemma total_sizes_app h l1 l2 : total h (l1 ++ l2) = total h l1 + total h l2.
Proof. unfold total. induction l1 as [|a l1 IH]; cbn [app foldr]; lia. Qed.

Lemma total_sizes_nonneg h l : 0 ≤ total h l.
Proof.
  unfold total. induction l as [|a l IH]; cbn [foldr]; [done|]. unfold size_at at 1, bk_size at 1.
  destruct (h !! a) as [b|]; cbn [from_option]; [pose proof (zlen_nonneg (bk_content b))|]; lia.
Qed.

Lemma pack_commit s i type id a name : sys_ok s → is_open s i a →
  ∃ s', do_call s (CallCommit i type id a name) = Ret s' ∧ sys_ok s'.
Proof.
  intros Hok Hopen. destruct (is_open_inv s i a Hok Hopen) as (p & b & Hp & Hpk & Ha & Hna & Hb & Hbok).
  cbn. unfold get_pack. rewrite Hp. exec. unfold CommitBucket, deref. rewrite Hb. exec.
  set (b' := mkBucket _ _ _ _ _). assert (bucket_ok b') as Hb' by apply Hbok.
  assert (map_Forall (λ _, bucket_ok) (<[a := b']> (sys_heap s))) as Hbs by (apply map_Forall_insert_2; [done|apply Hok]).
  assert (∀ d, d ∉ handles p → <[a := b']> (sys_heap s) !! d = sys_heap s !! d) as Hsame.
  { intros d Hd. rewrite lookup_insert_ne; [done|]. intros ->. by apply Hd, open_handle. }
  pose proof (pack_added _ _ a b' Hpk Hna) as Hpk'.
  case_match eqn:Hmax; exec; [|case_match eqn:Hlim; exec]; (eexists; split; [done|]);
    apply (sys_ok_set s i p); try done; auto; [| |].
  - destruct Hpk' as [Hh Hn Hd Hs Hl Hc]. pose proof (total_sizes_nonneg (<[a := b']> (sys_heap s)) (buckets_ p)).
    destruct Hb' as (_ & _ & Hsz). pose proof (zlen_nonneg (bk_content b')) as Hz. fold (bk_size b') in Hz.
    rewrite u64_small in * by (unfold is_u64; lia).
    rewrite Z.geb_leb in Hmax. apply Z.leb_gt in Hmax. rewrite Z.gtb_ltb in Hlim. apply Z.ltb_ge in Hlim.
    split; unfold handles in *; cbn [open_buckets_ buckets_ size_ limit_].
    + rewrite list_to_set_app_L. set_solver.
    + apply NoDup_app. split_and!; [done| |apply NoDup_singleton]. set_solver.
    + rewrite list_to_set_app_L. set_solver.
    + rewrite total_sizes_app, Hs. cbn. unfold size_at. rewrite lookup_insert_eq. cbn. lia.
    + lia.
    + rewrite zlen_app. change (zlen [a]) with 1. lia.
  - intros d. unfold handles. cbn [open_buckets_ buckets_]. rewrite list_to_set_app_L. set_solver.
  - intros d. unfold handles. cbn [open_buckets_ buckets_]. rewrite list_to_set_app_L.
    destruct (decide (d = a)); set_solver.
Qed.

Lemma pack_discard s i a : sys_ok s → is_open s i a →
  ∃ s', do_call s (CallDiscard i a) = Ret s' ∧ sys_ok s'.
Proof.
  intros Hok Hopen. destruct (is_open_inv s i a Hok Hopen) as (p & b & Hp & Hpk & Ha & Hna & Hb & Hbok).
  cbn. unfold get_pack. rewrite Hp. exec. unfold DiscardBucket, deref. rewrite Hb. exec. eexists. split; [done|].
  apply (sys_ok_set s i p); try done; unfold handles in *; cbn [open_buckets_ buckets_]; [..|set_solver|].
  - by apply map_Forall_delete, Hok.
  - destruct Hpk as [Hh Hn Hd Hs Hl Hc]. split; try done; unfold handles in *; cbn [open_buckets_ buckets_ size_ limit_].
    + rewrite dom_delete. set_solver.
    + set_solver.
    + rewrite Hs. symmetry. apply total_ext. intros c Hc'. rewrite lookup_delete_ne; [done|]. intros ->. done.
  - intros c Hc _. rewrite lookup_delete_ne; [done|]. set_solver.
  - intros c Hc. destruct (decide (c = a)) as [->|]; [right; apply lookup_delete_eq|left; set_solver].
Qed.

Lemma pack_transfer s i a j : sys_ok s → is_open s i a → is_Some (sys_packs s !! j) → i ≠ j →
  ∃ s', do_call s (CallTransfer i a j) = Ret s' ∧ sys_ok s'.
Proof.
  intros Hok Hopen [q Hq] Hij.
  destruct (is_open_inv s i a Hok Hopen) as (p & b & Hp & Hpk & Ha & Hna & Hb & Hbok).
  destruct Hok as [Hbs Hps Hd Ho]. pose proof (Hps _ _ Hq) as Hqk. pose proof (Hd _ _ _ _ Hp Hq Hij) as Hpq.
  cbn. unfold get_pack. rewrite Hp. exec. rewrite Hq. exec. eexists. split; [done|].
  set (p' := mkPack (limit_ p) _ _ _). set (q' := mkPack (limit_ q) _ _ _).
  assert (handles p' = handles p ∖ {[a]}) as Hp' by (unfold handles in *; subst p'; cbn; set_solver).
  assert (handles q' = {[a]} ∪ handles q) as Hq' by (unfold handles in *; subst q'; cbn; set_solver).
  assert (a ∈ handles p) as Hap by by apply open_handle.
  pose proof (pk_handles _ _ Hpk) as Hsub.
  split; cbn [sys_heap sys_packs]; [done|..].
  - intros k r. rewrite !lookup_insert_Some. intros [[<- <-]|[Hk [[<- <-]|[Hk' Hr]]]]; [| |by apply (Hps k)].
    + destruct Hqk as [? ? ? ? ? ?]. split; try done; [set_solver|]. unfold handles in *. subst q'; cbn. set_solver.
    + destruct Hpk as [? ? ? ? ? ?]. split; try done; [set_solver|]. subst p'; cbn. set_solver.
  - intros k l r t. rewrite !lookup_insert_Some.
    intros [[<- <-]|[Hk [[<- <-]|[Hk' Hr]]]] [[<- <-]|[Hl [[<- <-]|[Hl' Ht]]]] Hkl; try done; rewrite ?Hp', ?Hq'.
    + set_solver.
    + pose proof (Hd _ _ _ _ Hq Ht Hl). pose proof (Hd _ _ _ _ Hp Ht Hl'). set_solver.
    + set_solver.
    + pose proof (Hd _ _ _ _ Hp Ht Hl'). set_solver.
    + pose proof (Hd _ _ _ _ Hq Hr Hk). pose proof (Hd _ _ _ _ Hp Hr Hk'). set_solver.
    + pose proof (Hd _ _ _ _ Hp Hr Hk'). set_solver.
    + by apply (Hd k l).
  - intros c Hc. destruct (Ho c Hc) as (k & r & Hr & Hcr). destruct (decide (c = a)) as [->|Hca].
    { exists j, q'. rewrite lookup_insert_eq. set_solver. }
    destruct (decide (k = j)) as [->|Hkj]; [|destruct (decide (k = i)) as [->|Hki]].
    + exists j, q'. rewrite lookup_insert_eq. simplify_eq. set_solver.
    + exists i, p'. rewrite lookup_insert_ne, lookup_insert_eq by done. simplify_eq. set_solver.
    + exists k, r. by rewrite !lookup_insert_ne by done.
Qed.

Lemma delete_all_ok l : ∀ h, NoDup l → (∀ a, a ∈ l → is_Some (h !! a)) →
  ∃ h', delete_all h l = Ret h' ∧ (∀ a, h' !! a = if decide (a ∈ l) then None else h !! a).
Proof.
  induction l as [|c l IH]; intros h Hn Hl; cbn [delete_all].
  - exists h. split; [done|]. intros a. by rewrite decide_False by apply not_elem_of_nil.
  - apply NoDup_cons in Hn as [Hc Hn]. unfold deref. destruct (Hl c) as [b Hb]; [left|]. rewrite Hb. exec.
    destruct (IH (delete c h)) as (h' & -> & Hh'); [done|..].
    { intros a Ha. rewrite lookup_delete_ne by (intros ->; done). apply Hl. by right. }
    exists h'. split; [done|]. intros a. rewrite Hh'. destruct (decide (a = c)) as [->|Hac].
    + rewrite lookup_delete_eq, (decide_True (P := c ∈ c :: l)) by left. by case_decide.
    + rewrite lookup_delete_ne by done. repeat case_decide; set_solver.
Qed.

Lemma destroy_pack_ok h p : pack_ok h p →
  ∃ h', destroy_pack h p = Ret h' ∧ (∀ a, h' !! a = if decide (a ∈ handles p) then None else h !! a).
Proof.
  intros [Hh Hn Hd _ _ _]. unfold destroy_pack, handles in *.
  destruct (delete_all_ok (elements (open_buckets_ p)) h) as (h1 & -> & H1); [apply NoDup_elements|..].
  { intros a Ha%elem_of_elements. apply elem_of_dom. set_solver. }
  exec. destruct (delete_all_ok (buckets_ p) h1) as (h2 & -> & H2); [done|..].
  { intros a Ha. rewrite H1, decide_False by set_solver. apply elem_of_dom. set_solver. }
  exists h2. split; [done|]. intros a. rewrite H2, H1. repeat case_decide; set_solver.
Qed.

Lemma pack_destroy s i : sys_ok s → is_Some (sys_packs s !! i) →
  ∃ s', do_call s (CallDestroy i) = Ret s' ∧ sys_ok s'.
Proof.
  intros [Hbs Hps Hd Ho] [p Hp]. cbn. unfold get_pack. rewrite Hp. exec.
  destruct (destroy_pack_ok (sys_heap s) p (Hps _ _ Hp)) as (h' & -> & Hh'). exec. eexists. split; [done|].
  split; cbn [sys_heap sys_packs].
  - intros a b. rewrite Hh'. case_decide; [done|]. apply Hbs.
  - intros j q [Hj Hq]%lookup_delete_Some. apply (pack_frame (sys_heap s)); [by apply (Hps j)|].
    intros a Ha. rewrite Hh', decide_False; [done|]. pose proof (Hd _ _ _ _ Hp Hq Hj). set_solver.
  - intros j k q r [_ Hq]%lookup_delete_Some [_ Hr]%lookup_delete_Some. by apply (Hd j k).
  - intros a [b Hb]%elem_of_dom. rewrite Hh' in Hb. case_decide as Ha; [done|].
    destruct (Ho a) as (j & q & Hj & Hq); [by apply elem_of_dom|]. exists j, q. split; [|done].
    rewrite lookup_delete_ne; [done|]. intros ->. naive_solver.
Qed.

Lemma sys_ok_call s c : sys_ok s → allowed s c → ∃ s', do_call s c = Ret s' ∧ sys_ok s'.
Proof.
  intros Hok. destruct c as [i limit|i a|a buf|i t id a name|i a|i a j|i]; cbn [allowed].
  - intros [Hi Hl]. eexists. split; [done|]. destruct Hok as [Hbs Hps Hd Ho].
    assert (handles (new_pack limit) = ∅) as Hh by (unfold handles; cbn; set_solver).
    split; cbn [sys_heap sys_packs]; [done|..].
    + apply map_Forall_insert_2; [|done]. split; cbn; try done; constructor.
    + intros j k q r. rewrite !lookup_insert_Some. intros [[<- <-]|[? ?]] [[<- <-]|[? ?]] ?; rewrite ?Hh; set_solver.
    + intros a Ha. destruct (Ho a Ha) as (j & q & Hj & Hq). exists j, q. split; [|done].
      rewrite lookup_insert_ne; [done|]. congruence.
  - intros [[p Hp] Ha]. by apply (pack_new s i p).
  - intros [[i Hi] Hs]. by apply (pack_add s i).
  - by apply pack_commit.
  - by apply pack_discard.
  - intros (? & ? & ?). by apply pack_transfer.
  - by apply pack_destroy.
Qed.

(** C18. Whatever calls are made on object packs, in any order, as long as they
    name buckets that are still open: every call succeeds (no bucket is freed
    twice or used after it was freed), each pack's [size_] is the sum of its
    committed buckets and stays within its limit and its maximal number of
    objects, no bucket belongs to two packs, and every bucket that is allocated
    belongs to a pack that will free it. *)
Theorem packs_own_buckets cs : allowed_calls empty_system cs →
  ∃ s, do_calls empty_system cs = Ret s ∧ sys_ok s.
Proof.
  assert (sys_ok empty_system) as Hok by (split; cbn; try apply map_Forall_empty; set_solver).
  revert Hok. generalize empty_system. induction cs as [|c cs IH]; intros s Hok; cbn [allowed_calls do_calls].
  - by exists s.
  - intros [Hc Hcs]. destruct (sys_ok_call s c Hok Hc) as (s' & Hs' & Hok'). rewrite Hs'. exec. by apply IH, Hcs.
Qed.

(** ** Witness *)

(** A bucket is filled and committed, a second one does not fit any more and
    moves to another pack, a third one is discarded; then the first pack goes. *)
Definition calls_w : list pack_call :=
  [CallPack 0 4; CallNew 0 100; CallNew 0 200; CallNew 0 300; CallAdd 100 [1; 2; 3]; CallCommit 0 kCas null_any 100 [];
   CallAdd 200 [4; 5]; CallCommit 0 kCas null_any 200 []; CallPack 1 10; CallTransfer 0 200 1; CallCommit 1 kCas null_any 200 [];
   CallDiscard 0 300; CallDestroy 0].

Lemma allowed_step s c s' cs : allowed s c → do_call s c = Ret s' → allowed_calls s' cs → allowed_calls s (c :: cs).
Proof. intros Hc Hs Hcs. split; [done|]. rewrite Hs. by intros ? [= <-]. Qed.

Ltac solve_open := eexists; split; [vm_compute; reflexivity|apply (bool_decide_unpack _); vm_compute; exact I].
Ltac solve_allowed :=
  cbn [allowed];
  repeat match goal with
  | |- _ ∧ _ => split
  | |- is_Some _ => eexists; vm_compute; reflexivity
  | |- is_open _ _ _ => solve_open
  | |- ∃ i, is_open _ i _ => first [exists 0; solve_open|exists 1; solve_open]
  | |- ∀ b, _ = Some b → _ => intros b Hb; vm_compute in Hb; injection Hb as <-; by vm_compute
  | |- _ => by vm_compute
  end.

Lemma packs_own_buckets_witness : ∃ s, do_calls empty_system calls_w = Ret s ∧ sys_ok s.
Proof.
  apply (packs_own_buckets calls_w). unfold calls_w.
  do 13 (eapply allowed_step; [solve_allowed|vm_compute; reflexivity|]). exact I.
Defined.
