(* ===== verification/PackStream.v ===== *)
(** * The stream of an object pack: producer, consumer and the round trip

    Theorems about [ObjectPackProducer] and [ObjectPackConsumer] of Pack.v. A
    producer is described by the bytes it still has to write, a consumer by the
    objects it still has to deliver; the size of the buffers on either side
    plays no role. *)

From stdpp Require Import base numbers list gmap.
From S2P Require Import Prelude Bytes StringUtil Hash Pack.

Open Scope Z_scope.

(** ** The producer *)

Lemma lget_skip {A} (l1 l2 : list A) x : lget (l1 ++ x :: l2) (zlen l1) = Some x.
Proof. rewrite lget_app, decide_False by lia. by rewrite Z.sub_diag. Qed.

Lemma lget_end {A} (l : list A) : lget l (zlen l) = None.
Proof. apply lget_out_of_range. lia. Qed.

Section Producer.
Context (h : heap) (p : ObjectPack) (bs : list Bucket).
Hypothesis Hbs : Forall2 (λ a b, h !! a = Some b) (buckets_ p) bs.
Hypothesis Hsmall : Forall (λ b, bk_size b < 2 ^ 32) bs.

Lemma zlen_buckets : zlen (buckets_ p) = zlen bs.
Proof. unfold zlen. by rewrite (Forall2_length _ _ _ Hbs). Qed.

Lemma bucket_at_skip bs1 b bs2 : bs = bs1 ++ b :: bs2 → bucket_at h p (zlen bs1) = Ret b.
Proof.
  intros E. rewrite E in Hbs. unfold bucket_at, deref, lget. rewrite decide_True by apply zlen_nonneg.
  unfold zlen. rewrite Nat2Z.id.
  destruct (Forall2_lookup_r _ _ _ (length bs1) b Hbs) as (a & -> & ->); [|done].
  by rewrite list_lookup_middle.
Qed.

(** What is left when the producer is at position [pos] of the first of the
    buckets [bs2]. *)
Definition rest_of (cs : list bytes) (pos : Z) : bytes :=
  match cs with
  | [] => []
  | c :: cs => drop (Z.to_nat pos) c ++ concat cs
  end.

Definition pos_ok (cs : list bytes) (pos : Z) : Prop :=
  match cs with [] => pos = 0 | c :: _ => 0 ≤ pos ≤ zlen c end.

Lemma rest_of_zero cs : rest_of cs 0 = concat cs.
Proof. by destruct cs. Qed.

Lemma pos_ok_zero cs : pos_ok cs 0.
Proof. destruct cs as [|c cs]; cbn; [done|]. pose proof (zlen_nonneg c). lia. Qed.

Lemma produce_loop_ok fuel : ∀ bs1 bs2 pos n, bs = bs1 ++ bs2 → pos_ok (bk_content <$> bs2) pos → 0 ≤ n < 2 ^ 32 →
  (length bs2 < fuel)%nat →
  ∃ bs1' bs2' pos', bs = bs1' ++ bs2' ∧ pos_ok (bk_content <$> bs2') pos' ∧
    produce_loop fuel h p (zlen bs1) pos n
    = Ret (take (Z.to_nat n) (rest_of (bk_content <$> bs2) pos), zlen bs1', pos') ∧
    rest_of (bk_content <$> bs2') pos' = drop (Z.to_nat n) (rest_of (bk_content <$> bs2) pos).
Proof.
  induction fuel as [|fuel IH]; intros bs1 bs2 pos n E Hpos Hn Hf; [lia|]. cbn [produce_loop].
  rewrite zlen_buckets. destruct (decide (n = 0)) as [->|Hn0].
  { cbn [Z.gtb Z.compare andb Z.to_nat]. exists bs1, bs2, pos. by rewrite take_0, drop_0. }
  rewrite gtb_true by lia. destruct bs2 as [|b bs2].
  { rewrite app_nil_r in E. subst bs1. rewrite ltb_false by lia. exec. exists bs, [], pos.
    rewrite app_nil_r. cbn [fmap list_fmap rest_of]. by rewrite take_nil, drop_nil. }
  rewrite ltb_true by (rewrite E, zlen_app, zlen_cons; pose proof (zlen_nonneg bs2); lia). exec.
  rewrite (bucket_at_skip bs1 b bs2) by done. exec. cbn [fmap list_fmap rest_of pos_ok] in *.
  fold (list_fmap _ _ bk_content bs2) in *. fold (bk_content <$> bs2) in *.
  assert (bk_size b < 2 ^ 32) as Hb by (rewrite E in Hsmall; apply Forall_app in Hsmall as [_ Hsmall]; by inversion Hsmall).
  destruct (split_zlen (bk_content b) pos Hpos) as (done_ & todo & Hc & <-).
  unfold bk_size in *. rewrite Hc in *. rewrite zlen_app in *. rewrite drop_app_zlen by done.
  replace (zlen done_ + zlen todo - zlen done_) with (zlen todo) by lia. pose proof (zlen_nonneg todo). pose proof (zlen_nonneg done_).
  rewrite u32_small by (unfold is_u32; lia).
  destruct (Z.leb_spec (zlen todo) n) as [Hfit|Hfit].
  - rewrite Z.min_r by lia. rewrite load_tail, eqb_true by done. exec.
    destruct (IH (bs1 ++ [b]) bs2 0 (n - zlen todo)) as (bs1' & bs2' & pos' & E' & Hp' & Hl & Hr);
      [by rewrite <- app_assoc|apply pos_ok_zero|lia|cbn in Hf; lia|].
    rewrite zlen_app in Hl. change (zlen [b]) with 1 in Hl. rewrite Hl. exec.
    exists bs1', bs2', pos'. split_and!; [done|done| |].
    + rewrite rest_of_zero. rewrite take_app_ge by (unfold zlen in *; lia). do 5 f_equal. unfold zlen in *. lia.
    + rewrite Hr, rest_of_zero. rewrite drop_app_ge by (unfold zlen in *; lia). f_equal. unfold zlen in *. lia.
  - rewrite Z.min_l by lia. destruct (split_zlen todo n) as (now & later & -> & <-); [lia|].
    rewrite load_app by done. exec. rewrite zlen_app in Hfit. rewrite eqb_false by (rewrite zlen_app; lia).
    destruct fuel as [|fuel]; [cbn in Hf; lia|]. rewrite Z.sub_diag. cbn [produce_loop Z.gtb Z.compare andb]. exec.
    exists bs1, (b :: bs2), (zlen done_ + zlen now). rewrite app_nil_r, <- app_assoc. split_and!; [done| | |].
    + cbn. rewrite Hc, !zlen_app. pose proof (zlen_nonneg now). pose proof (zlen_nonneg later). lia.
    + by rewrite take_app_zlen.
    + cbn. rewrite Hc, (drop_app_zlen now), app_assoc, (drop_app_zlen (done_ ++ now)) by (rewrite ?zlen_app; done). done.
Qed.

(** The bytes [R] are still to be written. *)
Definition producer_at (s : Producer) (R : bytes) : Prop :=
  0 ≤ pr_pos s ∧ zlen (pr_header s) < 2 ^ 32 ∧ ∃ tail, R = drop (Z.to_nat (pr_pos s)) (pr_header s) ++ tail ∧
  match pr_payload s with
  | FromFile r => tail = r
  | FromPack => ∃ bs1 bs2, bs = bs1 ++ bs2 ∧ pr_idx s = zlen bs1 ∧ pos_ok (bk_content <$> bs2) (pr_pos_in_bucket s) ∧
      tail = rest_of (bk_content <$> bs2) (pr_pos_in_bucket s)
  end.

(** The part of the header that fits into the buffer. *)
Lemma header_part header pos n : 0 ≤ pos → zlen header < 2 ^ 32 → 0 ≤ n →
  let remaining := if pos <? zlen header then u32 (zlen header - pos) else 0 in
  let nbytes := Z.min remaining n in
  0 ≤ nbytes ≤ n ∧
  (if nbytes =? 0 then Ret [] else load header pos nbytes) = Ret (take (Z.to_nat n) (drop (Z.to_nat pos) header)) ∧
  drop (Z.to_nat (pos + nbytes)) header = drop (Z.to_nat n) (drop (Z.to_nat pos) header) ∧
  (nbytes < n → drop (Z.to_nat (pos + nbytes)) header = []) ∧
  zlen (take (Z.to_nat n) (drop (Z.to_nat pos) header)) = nbytes.
Proof.
  intros Hp Hh Hn. cbn zeta. destruct (Z.ltb_spec pos (zlen header)) as [Hlt|Hge].
  - rewrite u32_small by (unfold is_u32; lia). destruct (split_zlen header pos) as (l1 & l2 & -> & <-); [lia|].
    rewrite zlen_app in *. replace (zlen l1 + zlen l2 - zlen l1) with (zlen l2) by lia.
    rewrite (drop_app_zlen l1 l2) by done. destruct (Z.leb_spec (zlen l2) n).
    + rewrite Z.min_l, eqb_false, load_tail by lia. rewrite take_ge, (drop_ge l2) by (unfold zlen in *; lia).
      rewrite drop_ge by (rewrite length_app; unfold zlen in *; lia). split_and!; [lia|lia|done..].
    + rewrite Z.min_r by lia. destruct (split_zlen l2 n) as (l3 & l4 & -> & <-); [lia|]. rewrite app_assoc.
      rewrite !drop_app_zlen, take_app_zlen by (rewrite ?zlen_app; done).
      split_and!; [lia|lia| |done|lia|done]. destruct (Z.eqb_spec (zlen l3) 0) as [Hz|].
      * by rewrite (zlen_zero _ Hz).
      * rewrite <- app_assoc. by apply load_app.
  - rewrite Z.min_l by lia. rewrite Z.add_0_r, !drop_ge by (unfold zlen in *; cbn; lia).
    rewrite take_nil. split_and!; [lia|lia|done..].
Qed.

Lemma ProduceNext_ok s R n : producer_at s R → 0 ≤ n < 2 ^ 32 →
  ∃ s', ProduceNext h p s n = Ret (take (Z.to_nat n) R, s') ∧ producer_at s' (drop (Z.to_nat n) R).
Proof.
  intros (Hp & Hh & tail & -> & Ht) Hn. unfold ProduceNext.
  destruct (header_part (pr_header s) (pr_pos s) n) as (Hnb & Hld & Hdr & Hall & Hlen); [done|done|lia|].
  set (nb := Z.min _ n) in *. rewrite Hld. exec. clear Hld.
  set (header := drop (Z.to_nat (pr_pos s)) (pr_header s)) in *.
  destruct (Z.eqb_spec (n - nb) 0) as [Hz|Hz].
  - assert (Z.to_nat n ≤ length header)%nat by (unfold zlen in *; rewrite length_take in Hlen; lia).
    rewrite take_app_le, drop_app_le by done. eexists. split; [done|].
    split_and!; [cbn; lia|done|]. exists tail. split; [|done]. cbn. by rewrite Hdr.
  - rewrite Hdr in Hall. specialize (Hall ltac:(lia)). apply (f_equal length) in Hall as Hl. rewrite length_drop in Hl. cbn in Hl.
    rewrite (take_ge header) in * by lia.
    rewrite take_app_ge, drop_app_ge by lia.
    replace (Z.to_nat n - length header)%nat with (Z.to_nat (n - nb)) by (unfold zlen in *; lia).
    destruct (pr_payload s) as [|r] eqn:Ep.
    + destruct Ht as (bs1 & bs2 & E & Hidx & Hpos & ->). rewrite Hidx.
      replace (zlen (buckets_ p) - zlen bs1) with (zlen bs2) by (rewrite zlen_buckets, E, zlen_app; lia).
      destruct (produce_loop_ok (S (Z.to_nat (zlen bs2))) bs1 bs2 (pr_pos_in_bucket s) (n - nb))
        as (bs1' & bs2' & pos' & E' & Hp' & -> & Hr); [done|done|lia|unfold zlen; lia|].
      exec. eexists. split; [done|]. split_and!; [cbn; lia|done|]. exists (rest_of (bk_content <$> bs2') pos').
      cbn [pr_pos pr_header pr_payload pr_idx pr_pos_in_bucket]. rewrite Hdr, Hall. split; [by rewrite Hr|].
      by exists bs1', bs2'.
    + subst r. eexists. split; [done|]. split_and!; [cbn; pose proof (zlen_nonneg (take (Z.to_nat (n - nb)) tail)); lia|done|].
      exists (drop (Z.to_nat (n - nb)) tail). cbn. split; [|done]. rewrite (drop_ge (pr_header s)); [done|].
      apply (f_equal length) in Hall. rewrite <- Hdr, length_drop in Hall. cbn in Hall.
      pose proof (zlen_nonneg (take (Z.to_nat (n - nb)) tail)). lia.
Qed.
End Producer.

(** A sequence of calls of [ProduceNext] with buffers of the given sizes. *)
Fixpoint produce (h : heap) (p : ObjectPack) (s : Producer) (sizes : list Z) : outcome (list bytes) :=
  match sizes with
  | [] => Ret []
  | n :: sizes =>
      '(out, s) ← ProduceNext h p s n;
      outs ← produce h p s sizes;
      Ret (out :: outs)
  end.

(** A stream cut into pieces; a piece is shorter than its size only at the end. *)
Fixpoint pieces (sizes : list Z) (R : bytes) : list bytes :=
  match sizes with
  | [] => []
  | n :: sizes => take (Z.to_nat n) R :: pieces sizes (drop (Z.to_nat n) R)
  end.

Lemma produce_ok h p bs sizes : Forall2 (λ a b, h !! a = Some b) (buckets_ p) bs → Forall (λ b, bk_size b < 2 ^ 32) bs →
  Forall (λ n, 0 ≤ n < 2 ^ 32) sizes → ∀ s R, producer_at bs s R → produce h p s sizes = Ret (pieces sizes R).
Proof.
  intros Hbs Hsmall. induction sizes as [|n sizes IH]; intros Hs s R Hat; [done|].
  apply Forall_cons in Hs as [Hn Hs]. cbn [produce pieces].
  destruct (ProduceNext_ok h p bs Hbs Hsmall s R n Hat Hn) as (s' & -> & Hat'). exec. by rewrite (IH Hs s' _ Hat').
Qed.

(** ** What the listeners get

    An object is delivered in one or more parts, in order, each with the
    object's entry; objects follow each other in the order of the index. Only an
    empty object has an empty part. *)
Inductive delivered : list (IndexEntry * bytes) → list Event → Prop :=
  | delivered_nil : delivered [] []
  | delivered_cons e parts objs D : parts = [[]] ∨ parts ≠ [] ∧ Forall (λ b, b ≠ []) parts → delivered objs D →
      delivered ((e, concat parts) :: objs) ((mkEvent e <$> parts) ++ D).

(** The events [D] lead from the objects that are to be delivered to those that
    are left; of the first object a part may be gone. *)
Inductive delivers : list (IndexEntry * bytes) → list Event → list (IndexEntry * bytes) → Prop :=
  | delivers_refl t : delivers t [] t
  | delivers_part e b r t D t' : b ≠ [] → r ≠ [] → delivers ((e, r) :: t) D t' → delivers ((e, b ++ r) :: t) (mkEvent e b :: D) t'
  | delivers_last e b t D t' : delivers t D t' → delivers ((e, b) :: t) (mkEvent e b :: D) t'.

Lemma delivers_trans t1 D1 t2 D2 t3 : delivers t1 D1 t2 → delivers t2 D2 t3 → delivers t1 (D1 ++ D2) t3.
Proof. induction 1; intros H3; cbn; [done|..]; constructor; auto. Qed.

Lemma delivers_all t D : delivers t D [] → delivered t D.
Proof.
  remember [] as u eqn:Hu. induction 1 as [t|e b r t D t' Hb Hr _ IH|e b t D t' _ IH]; subst.
  - constructor.
  - specialize (IH eq_refl). inversion IH as [|? parts ? D' Hp HD]; subst.
    destruct Hp as [->|[Hp1 Hp2]]; [done|].
    apply (delivered_cons e (b :: parts) t D'); [right|done]. by split; [|constructor].
  - rewrite <- (app_nil_r b) at 1. apply (delivered_cons e [b]); [|auto].
    destruct (decide (b = [])) as [->|]; [by left|right]. split; [done|]. by constructor.
Qed.

(** ** The consumer's payload *)

Lemma app_prefix_split {A} (l1 l2 m1 m2 : list A) n : l1 ++ l2 = m1 ++ m2 → (n ≤ length l1)%nat → (n ≤ length m1)%nat →
  take n l1 = take n m1.
Proof. intros E H1 H2. apply (f_equal (take n)) in E. by rewrite !take_app_le in E. Qed.

Lemma zlen_nil {A} : zlen (@nil A) = 0.
Proof. done. Qed.

(** The next [n] bytes of the object are the next [n] bytes of the buffer. *)
Lemma piece_split (c pre B X R : bytes) n : c ++ X = B ++ R → 0 ≤ n ≤ zlen c → n ≤ zlen B →
  ∃ data c' B', c = data ++ c' ∧ B = data ++ B' ∧ n = zlen data ∧ load (pre ++ B) (zlen pre) n = Ret data ∧
    (zlen data =? zlen c) = bool_decide (c' = []).
Proof.
  intros Heq Hn HnB. exists (take (Z.to_nat n) c), (drop (Z.to_nat n) c), (drop (Z.to_nat n) B).
  assert (take (Z.to_nat n) c = take (Z.to_nat n) B) as Ht
    by (apply (app_prefix_split c X B R); [done|unfold zlen in *; lia..]).
  assert (n = zlen (take (Z.to_nat n) c)) as Hz by (unfold zlen in *; rewrite length_take; lia).
  split_and!; [by rewrite take_drop|by rewrite Ht, take_drop|done|..].
  - rewrite <- (take_drop (Z.to_nat n) B) at 1. rewrite Ht in *. by apply load_app.
  - rewrite <- (take_drop (Z.to_nat n) c) at 2. rewrite zlen_app. case_bool_decide as Hd.
    + rewrite Hd, zlen_nil. apply eqb_true. lia.
    + apply zlen_pos in Hd. apply eqb_false. lia.
Qed.

(** One piece of an object of which the bytes [c] are missing and [accu] is in
    the accumulator. *)
Lemma consume_piece_ok e accu c pre B X R : c ++ X = B ++ R → zlen accu < kAccuSize → B ≠ [] ∨ c = [] →
  ∃ data c' B' D accu', c = data ++ c' ∧ B = data ++ B' ∧ (zlen data =? zlen c) = bool_decide (c' = []) ∧
    consume_piece e accu (pre ++ B) (zlen pre) (zlen c) = Ret (D, zlen data, accu') ∧
    (c' = [] ∧ D = [mkEvent e (accu ++ data)] ∧ accu' = [] ∨
     c' ≠ [] ∧ data ≠ [] ∧ zlen accu' < kAccuSize ∧
       (D = [] ∧ accu' = accu ++ data ∨ D = [mkEvent e (accu ++ data)] ∧ accu' = [])).
Proof.
  intros Heq Ha Hne. unfold consume_piece. rewrite zlen_app.
  replace (zlen pre + zlen B - zlen pre) with (zlen B) by lia. pose proof (zlen_nonneg c). pose proof (zlen_nonneg B).
  assert (∀ (data c' : bytes) n, c = data ++ c' → zlen data = Z.min n (Z.min (zlen c) (zlen B)) → 0 < n → c' ≠ [] → data ≠ [])
    as Hdata.
  { intros data c' n Hc Hn Hpos Hc' ->. rewrite zlen_nil in Hn. cbn in Hc. subst c'. apply zlen_pos in Hc'.
    destruct Hne as [Hne%zlen_pos| ->]; [lia|done]. }
  destruct ((zlen accu >? 0) || ((zlen B <? zlen c) && (zlen B <? kAccuSize))) eqn:Hbranch.
  - destruct (piece_split c pre B X R (Z.min (kAccuSize - zlen accu) (Z.min (zlen c) (zlen B))))
      as (data & c' & B' & Hc & HB' & Hn & Hld & Hend); [done|unfold kAccuSize in *; lia|lia|].
    rewrite Hld, Hn, Hend. exec. exists data, c', B'. rewrite zlen_app.
    destruct (decide (c' = [])) as [Hc'|Hc'].
    + rewrite bool_decide_true in Hend |- * by done. rewrite orb_true_r. exists [mkEvent e (accu ++ data)], []. split_and!; try done. by left.
    + rewrite bool_decide_false in Hend |- * by done. rewrite orb_false_r. pose proof (Hdata data c' _ Hc (eq_sym Hn) ltac:(lia) Hc').
      destruct (Z.eqb_spec (zlen accu + zlen data) kAccuSize).
      * exists [mkEvent e (accu ++ data)], []. split_and!; try done. right. split_and!; [done|done|done|by right].
      * exists [], (accu ++ data). split_and!; try done. right. split_and!; [done|done| |by left].
        rewrite zlen_app. lia.
  - apply orb_false_iff in Hbranch as [Hacc _]. rewrite Z.gtb_ltb in Hacc. apply Z.ltb_ge in Hacc.
    assert (accu = []) as -> by (apply zlen_zero; pose proof (zlen_nonneg accu); lia).
    destruct (piece_split c pre B X R (Z.min (zlen c) (zlen B))) as (data & c' & B' & Hc & HB' & Hn & Hld & Hend); [done|lia|lia|].
    rewrite Hld, Hn. exec. exists data, c', B', [mkEvent e data], []. split_and!; try done.
    destruct (decide (c' = [])) as [Hc'|Hc']; [by left|right]. split_and!; [done| |done|by right].
    apply (Hdata data c' (zlen c + 1)); [done|lia|lia|done].
Qed.

(** An entry of the index and the contents of its object. *)
Definition object_ok (e : IndexEntry) (c : bytes) : Prop := en_size e = zlen c ∧ zlen c < 2 ^ 32.

(** The consumer is at position [pos] of the first of the objects [cs], the
    bytes in the accumulator included. *)
Definition at_ok (cs : list bytes) (pos : Z) (accu : bytes) : Prop :=
  match cs with
  | [] => pos = 0 ∧ accu = []
  | c :: _ => 0 ≤ pos ∧ zlen accu < kAccuSize ∧ (pos < zlen c ∨ c = [] ∧ pos = 0 ∧ accu = [])
  end.

Definition todo (es : list IndexEntry) (cs : list bytes) (pos : Z) (accu : bytes) : list (IndexEntry * bytes) :=
  match es, cs with
  | e :: es, c :: cs => (e, accu ++ drop (Z.to_nat pos) c) :: zip es cs
  | _, _ => []
  end.

Lemma todo_zero es cs : todo es cs 0 [] = zip es cs.
Proof. destruct es, cs; done. Qed.

Lemma at_ok_zero cs : at_ok cs 0 [].
Proof.
  destruct cs as [|c cs]; cbn; [done|]. split_and!; [done|by vm_compute|]. destruct c as [|x c]; [by right|left].
  by apply zlen_pos.
Qed.

(** The loop has read up to position [len] of the buffer, [R] is what follows in
    the stream, and of the objects [t] that were to be delivered the rest is
    left. *)
Definition loop_post (es : list IndexEntry) (t : list (IndexEntry * bytes)) (len : Z) (R : bytes)
    (r : outcome (list Event * Z * Z * bytes * Z)) : Prop :=
  ∃ D es1 es2 cs2 pos accu, r = Ret (D, zlen es1, pos, accu, len) ∧ es = es1 ++ es2 ∧ Forall2 object_ok es2 cs2 ∧
    at_ok cs2 pos accu ∧ rest_of cs2 pos = R ∧ delivers t D (todo es2 cs2 pos accu) ∧ (R = [] → es2 = []).

Lemma loop_post_step es t t' len R D r : delivers t D t' → loop_post es t' len R r →
  loop_post es t len R ('(rest, idx, pos, accu, pos_in_buf) ← r; Ret (D ++ rest, idx, pos, accu, pos_in_buf)).
Proof.
  intros HD (D' & es1 & es2 & cs2 & pos & accu & -> & Hes & Hobj & Hat & HR & HD' & Hend). exec.
  exists (D ++ D'), es1, es2, cs2, pos, accu. split_and!; try done. by eapply delivers_trans.
Qed.

(** With this fuel the loop is right from any position. *)
Definition loop_ok (fuel : nat) : Prop := ∀ es1 es2 cs2 pos accu pre B R,
  zlen (es1 ++ es2) < 2 ^ 32 → Forall2 object_ok es2 cs2 → at_ok cs2 pos accu → rest_of cs2 pos = B ++ R →
  (length B + length es2 < fuel)%nat →
  loop_post (es1 ++ es2) (todo es2 cs2 pos accu) (zlen (pre ++ B)) R
    (payload_loop fuel (es1 ++ es2) (zlen es1) pos accu (pre ++ B) (zlen pre)).

Lemma next_index {A} (es1 : list A) e es2 : zlen (es1 ++ e :: es2) < 2 ^ 32 → u32 (zlen es1 + 1) = zlen (es1 ++ [e]).
Proof.
  rewrite !zlen_app, zlen_cons. pose proof (zlen_nonneg es1). pose proof (zlen_nonneg es2). intros Hs.
  rewrite u32_small by (unfold is_u32; lia). done.
Qed.

(** The loop goes on after a piece of an object of which [gone] was read before. *)
Lemma loop_next fuel es1 e es2 cs2 gone accu data c2 pre B2 R D accu2 : loop_ok fuel →
  zlen (es1 ++ e :: es2) < 2 ^ 32 → object_ok e (gone ++ data ++ c2) → Forall2 object_ok es2 cs2 →
  c2 ++ concat cs2 = B2 ++ R → (length data + length B2 + length es2 < fuel)%nat →
  (c2 = [] ∧ D = [mkEvent e (accu ++ data)] ∧ accu2 = [] ∨
   c2 ≠ [] ∧ data ≠ [] ∧ zlen accu2 < kAccuSize ∧
     (D = [] ∧ accu2 = accu ++ data ∨ D = [mkEvent e (accu ++ data)] ∧ accu2 = [])) →
  loop_post (es1 ++ e :: es2) ((e, accu ++ data ++ c2) :: zip es2 cs2) (zlen ((pre ++ data) ++ B2)) R
    (let '(idx, pos) := if bool_decide (c2 = []) then (u32 (zlen es1 + 1), 0) else (zlen es1, u32 (zlen gone + zlen data)) in
     '(rest, idx, pos, accu, pos_in_buf) ←
       payload_loop fuel (es1 ++ e :: es2) idx pos accu2 ((pre ++ data) ++ B2) (zlen (pre ++ data));
     Ret (D ++ rest, idx, pos, accu, pos_in_buf)).
Proof.
  intros IH Hsize [He Hc32] Hobj Hrest Hf Hcase. pose proof (zlen_nonneg gone). rewrite !zlen_app in Hc32, He.
  pose proof (zlen_nonneg c2). pose proof (zlen_nonneg data).
  destruct Hcase as [(-> & -> & ->)|(Hc2 & Hdata & Ha2 & HD)].
  - rewrite bool_decide_true, (next_index es1 e es2 Hsize), app_nil_r by done.
    replace (es1 ++ e :: es2) with ((es1 ++ [e]) ++ es2) in * by by rewrite <- app_assoc.
    apply (loop_post_step _ _ (todo es2 cs2 0 [])); [rewrite todo_zero; constructor; constructor|].
    apply IH; [done|done|apply at_ok_zero|by rewrite rest_of_zero|lia].
  - rewrite bool_decide_false, u32_small by (done || unfold is_u32; lia). rewrite <- zlen_app.
    apply (loop_post_step _ _ (todo (e :: es2) ((gone ++ data ++ c2) :: cs2) (zlen (gone ++ data)) accu2)).
    + cbn [todo]. rewrite app_assoc, (app_assoc gone), drop_app_zlen by done.
      destruct HD as [[-> ->]|[-> ->]]; [constructor|]. apply delivers_part; [by destruct accu, data|done|constructor].
    + apply zlen_pos in Hc2. assert (0 < length data)%nat by (destruct data; cbn; [done|lia]).
      apply IH; [done|constructor; [|done]|..|cbn; lia].
      * split; rewrite !zlen_app; lia.
      * cbn. rewrite !zlen_app. split_and!; [lia|done|left; lia].
      * cbn. by rewrite app_assoc, drop_app_zlen.
Qed.

Lemma payload_loop_ok fuel : loop_ok fuel.
Proof.
  induction fuel as [|fuel IH]; intros es1 es2 cs2 pos accu pre B R Hsize Hobj Hat Hrest Hf; [lia|]. cbn [payload_loop].
  destruct Hobj as [|e c es2 cs2 [He Hc32] Hobj].
  { cbn in Hrest. symmetry in Hrest. apply app_nil in Hrest as [-> ->]. rewrite !app_nil_r. rewrite lget_end.
    exists [], es1, [], [], pos, accu. rewrite app_nil_r. split_and!; try done. constructor. }
  rewrite lget_skip. cbn [at_ok rest_of] in Hat, Hrest. destruct Hat as (Hpos & Haccu & Hin).
  rewrite zlen_app, He. destruct (decide (B = [] ∧ c ≠ [])) as [[-> Hc]|Hgo].
  { rewrite zlen_nil, Z.add_0_r, Z.ltb_irrefl, eqb_false by (apply zlen_pos in Hc; lia). exec.
    exists [], es1, (e :: es2), (c :: cs2), pos, accu. split_and!; try done; [by constructor|constructor|].
    intros ->. apply app_nil in Hrest as [Hd _]. apply (f_equal length) in Hd. rewrite length_drop in Hd. cbn in Hd.
    unfold zlen in *. destruct Hin as [Hin|[? _]]; [lia|done]. }
  assert (B ≠ [] ∨ c = []) as Hne by (destruct B, c; naive_solver).
  assert ((zlen pre <? zlen pre + zlen B) || (zlen c =? 0) = true) as ->.
  { apply orb_true_iff. destruct Hne as [Hne%zlen_pos| ->]; [left; apply Z.ltb_lt; lia|by right]. }
  destruct (split_zlen c pos) as (gone & c' & -> & <-); [destruct Hin as [?|(-> & -> & _)]; [lia|done]|].
  rewrite drop_app_zlen in Hrest by done. cbn [todo]. rewrite drop_app_zlen by done.
  replace (u64 (zlen (gone ++ c') - zlen gone)) with (zlen c').
  2: { rewrite u64_small by (rewrite zlen_app in *; unfold is_u64; pose proof (zlen_nonneg c'); lia). rewrite zlen_app. lia. }
  destruct (consume_piece_ok e accu c' pre B (concat cs2) R) as (data & c2 & B2 & D & accu2 & -> & -> & Hend & -> & Hcase);
    [done|done|destruct Hne as [|[_ ->]%app_nil]; auto|].
  exec. rewrite Hend, zlen_app. rewrite <- !app_assoc in Hrest. apply app_inv_head in Hrest.
  rewrite Z.add_assoc, <- !(zlen_app pre data), (app_assoc pre data B2), <- (zlen_app (pre ++ data)).
  rewrite length_app in Hf. cbn [length] in Hf. apply loop_next; done || lia.
Qed.

(** ** Consuming a stream *)

(** The header is read; the objects [t] are to be delivered, from the bytes [R]
    and the accumulator. *)
Definition payload_at (c : Consumer) (t : list (IndexEntry * bytes)) (R : bytes) : Prop :=
  expected_header_size_ c ≤ c_pos c ∧ zlen (c_index c) < 2 ^ 32 ∧
  ∃ es1 es2 cs2, c_index c = es1 ++ es2 ∧ c_idx c = zlen es1 ∧ Forall2 object_ok es2 cs2 ∧
    at_ok cs2 (c_pos_in_object c) (c_accumulator c) ∧ rest_of cs2 (c_pos_in_object c) = R ∧
    t = todo es2 cs2 (c_pos_in_object c) (c_accumulator c).

Definition end_state (R : bytes) : State := if decide (R = []) then kStateDone else kStateContinue.

Lemma ConsumePayload_ok c t B R : payload_at c t (B ++ R) →
  ∃ D c' t', ConsumePayload c B = Ret (c_state c', D, c') ∧ c_state c' = end_state R ∧ payload_at c' t' R ∧
    delivers t D t' ∧ (R = [] → t' = []).
Proof.
  intros (Hpos & Hsize & es1 & es2 & cs2 & Hes & Hidx & Hobj & Hat & Hrest & ->). unfold ConsumePayload.
  rewrite Hes, Hidx in *.
  destruct (payload_loop_ok (S (length B + length (es1 ++ es2))) es1 es2 cs2 (c_pos_in_object c) (c_accumulator c) [] B R)
    as (D & es1' & es2' & cs2' & pos' & accu' & Hl & Hes' & Hobj' & Hat' & HR & HD & Hend);
    [done|done|done|done|rewrite length_app; lia|].
  change (zlen []) with 0 in Hl. cbn [app] in Hl. rewrite Hl. exec. rewrite Z.eqb_refl.
  exists D. match goal with |- context [Ret (_, _, ?c)] => exists c end. exists (todo es2' cs2' pos' accu'). split; [done|]. cbn [c_state]. split_and!; [| |done|].
  - rewrite Hes', zlen_app. unfold end_state. destruct Hobj' as [|e x es2' cs2' [He _] _].
    + rewrite zlen_nil, Z.add_0_r, Z.eqb_refl. cbn in HR. by rewrite decide_True.
    + rewrite eqb_false by (rewrite zlen_cons; pose proof (zlen_nonneg es2'); lia).
      rewrite decide_False; [done|]. intros HR'. by specialize (Hend HR').
  - split_and!; cbn; [pose proof (zlen_nonneg B); lia|done|]. rewrite Hes'. by exists es1', es2', cs2'.
  - intros HR'. by rewrite (Hend HR').
Qed.

Section Stream.
Context {context : Type} (init : Algorithms → context) (update : context → bytes → context) (final : context → bytes).

(** A sequence of calls of [ConsumeNext]: all events and the last state. *)
Fixpoint feed (c : Consumer) (chunks : list bytes) : outcome (list Event * Consumer) :=
  match chunks with
  | [] => Ret ([], c)
  | buf :: chunks =>
      '(_, D, c) ← ConsumeNext init update final c buf;
      '(D', c) ← feed c chunks;
      Ret (D ++ D', c)
  end.

Lemma feed_payload chunks : ∀ c t R, concat chunks = R → payload_at c t R → c_state c = end_state R → (R = [] → t = []) →
  ∃ D c', feed c chunks = Ret (D, c') ∧ c_state c' = kStateDone ∧ delivers t D [].
Proof.
  induction chunks as [|buf chunks IH]; intros c t R Hcat Hat Hst Hend; cbn [feed concat] in *.
  { subst R. rewrite Hend by done. exists [], c. split_and!; [done|done|constructor]. }
  unfold ConsumeNext. destruct (decide (buf = [])) as [->|Hbuf].
  { rewrite zlen_nil, Z.eqb_refl. exec. destruct (IH c t R) as (D & c' & -> & Hc' & HD); [done..|]. exec. by exists D, c'. }
  rewrite eqb_false by (apply zlen_pos in Hbuf; lia).
  rewrite Hst. unfold end_state. rewrite (decide_False (P := R = [])) by (intros ->; apply app_nil in Hcat; naive_solver).
  rewrite decide_False, decide_False by (done || auto). pose proof (zlen_nonneg buf).
  rewrite (ltb_false (c_pos c)) by apply Hat. rewrite Z.min_l by done. cbn [Z.eqb]. rewrite ltb_false by apply Hat. exec.
  rewrite <- Hcat in Hat. cbn [Z.to_nat]. rewrite drop_0.
  destruct (ConsumePayload_ok c t buf (concat chunks) Hat) as (D & c1 & t1 & -> & Hst1 & Hat1 & HD & Hend1). exec.
  destruct (IH c1 t1 (concat chunks)) as (D2 & c2 & -> & Hst2 & HD2); [done..|]. exec.
  exists (D ++ D2), c2. split_and!; [done|done|]. by eapply delivers_trans.
Qed.

(** The consumer while it reads the header. *)
Definition reading (d : any) (n : Z) (got : bytes) : Consumer := mkConsumer d n (zlen got) 0 0 [] kStateContinue got 0 [].

Definition header_digest (d : any) (raw : bytes) : outcome any :=
  HashString init update final raw (Any (replicate 20 0) (algorithm d) kSuffixNone).

(** A buffer that does not complete the header is kept. *)
Lemma ConsumeNext_partial d n got buf : zlen got + zlen buf < n → n < 2 ^ 32 →
  ∃ st, ConsumeNext init update final (reading d n got) buf = Ret (st, [], reading d n (got ++ buf)).
Proof.
  intros Hn H32. unfold ConsumeNext. cbn [reading c_state c_pos c_raw_header expected_header_size_]. pose proof (zlen_nonneg got).
  destruct (decide (buf = [])) as [->|Hbuf].
  { rewrite zlen_nil, Z.eqb_refl, app_nil_r. by eexists. }
  apply zlen_pos in Hbuf. rewrite eqb_false, decide_False, decide_False by (done || lia || auto).
  rewrite (ltb_true (zlen got) n) by lia. rewrite u32_small by (unfold is_u32; lia). rewrite Z.min_r, eqb_false by lia. cbn [with_raw reading c_pos expected_header_size_].
  rewrite ltb_true by lia. rewrite take_ge by (unfold zlen; lia). eexists. unfold reading. by rewrite zlen_app.
Qed.

(** The buffer that completes it. *)
Lemma ConsumeNext_header d n got hrest buf : hrest ≠ [] → n = zlen (got ++ hrest) → n < 2 ^ 32 →
  ConsumeNext init update final (reading d n got) (hrest ++ buf)
  = let raw := got ++ hrest in
    let c := reading d n raw in
    digest ← header_digest d raw;
    if negb (any_eq digest d) then Ret (kStateCorrupt, [], with_state c kStateCorrupt) else
    '(ok, size, index) ← ParseHeader raw;
    if negb ok then Ret (kStateBadFormat, [], with_state (with_index c raw size index) kStateBadFormat) else
    let c := with_index c [] size index in
    if (zlen buf =? 0) && (zlen index =? 0) then Ret (kStateDone, [], with_state c kStateDone) else ConsumePayload c buf.
Proof.
  intros Hne Hn H32. unfold ConsumeNext. cbn [reading c_state c_pos c_raw_header expected_header_size_ expected_digest_].
  apply zlen_pos in Hne. pose proof (zlen_nonneg got). pose proof (zlen_nonneg buf). rewrite zlen_app in *.
  rewrite eqb_false, decide_False, decide_False by (done || lia || auto). rewrite (ltb_true (zlen got) n) by lia.
  replace (n - zlen got) with (zlen hrest) by lia. rewrite u32_small by (unfold is_u32; lia).
  rewrite Z.min_l, (eqb_false (zlen hrest) 0) by lia.
  cbn [with_raw reading c_pos negb c_raw_header expected_header_size_ expected_digest_]. rewrite ltb_false by lia. rewrite eqb_true by lia.
  cbn [andb]. rewrite take_app_zlen, drop_app_zlen by done. unfold header_digest, reading. rewrite zlen_app.
  replace (zlen hrest + zlen buf =? zlen hrest) with (zlen buf =? 0); [done|]. apply eq_true_iff_eq. rewrite !Z.eqb_eq. lia.
Qed.

Lemma feed_header d raw dg size es cs : header_digest d raw = Ret dg → any_eq dg d = true →
  ParseHeader raw = Ret (true, size, es) → Forall2 object_ok es cs → zlen es < 2 ^ 32 → zlen raw < 2 ^ 32 →
  ∀ chunks got hrest, raw = got ++ hrest → hrest ≠ [] → concat chunks = hrest ++ concat cs →
  ∃ D c, feed (reading d (zlen raw) got) chunks = Ret (D, c) ∧ c_state c = kStateDone ∧ delivers (zip es cs) D [].
Proof.
  intros Hdg Heq Hparse Hobj Hes Hraw. induction chunks as [|buf chunks IH]; intros got hrest E Hne Hcat; cbn [feed concat] in *.
  { symmetry in Hcat. apply app_nil in Hcat. naive_solver. }
  destruct (decide (zlen buf < zlen hrest)) as [Hlt|Hge].
  - destruct (ConsumeNext_partial d (zlen raw) got buf) as [st ->]; [rewrite E, zlen_app; lia|done|]. exec.
    apply app_eq_inv in Hcat as [(k & -> & _)|(k & -> & Hk)].
    { rewrite zlen_app in Hlt. pose proof (zlen_nonneg k). lia. }
    destruct (IH (got ++ buf) k) as (D & c & -> & Hst & HD); [by rewrite <- app_assoc| |done|exec; by exists D, c].
    intros ->. rewrite app_nil_r in Hlt. lia.
  - assert (∃ buf', buf = hrest ++ buf' ∧ concat cs = buf' ++ concat chunks) as (buf' & -> & Hcs).
    { apply app_eq_inv in Hcat as [(k & -> & Hk)|(k & -> & Hk)]; [by exists k|].
      rewrite zlen_app in Hge. assert (k = []) as -> by (apply zlen_zero; pose proof (zlen_nonneg k); lia).
      exists []. rewrite !app_nil_r. split; [done|]. by rewrite Hk. }
    rewrite (ConsumeNext_header d (zlen raw) got hrest buf') by (done || by rewrite E). rewrite <- E. cbn zeta.
    rewrite Hdg. exec. rewrite Heq, Hparse. exec. set (c := with_index _ [] size es).
    assert (payload_at c (zip es cs) (concat cs)) as Hat.
    { split_and!; [cbn; lia|done|]. exists [], es, cs. split_and!; try done; [apply at_ok_zero|apply rest_of_zero|].
      symmetry. apply todo_zero. }
    destruct ((zlen buf' =? 0) && (zlen es =? 0)) eqn:Hempty.
    + apply andb_true_iff in Hempty as [->%Z.eqb_eq%zlen_zero Hz%Z.eqb_eq%zlen_zero]. subst es. inversion Hobj; subst cs.
      exec. cbn in Hcs. destruct (feed_payload chunks (with_state c kStateDone) [] []) as (D & c' & -> & Hst & HD); try done.
      exec. by exists D, c'.
    + rewrite Hcs in Hat. destruct (ConsumePayload_ok c _ buf' _ Hat) as (D & c1 & t1 & -> & Hst1 & Hat1 & HD & Hend1). exec.
      destruct (feed_payload chunks c1 t1 (concat chunks)) as (D2 & c2 & -> & Hst2 & HD2); [done..|]. exec.
      exists (D ++ D2), c2. split_and!; [done|done|]. by eapply delivers_trans.
Qed.

Lemma new_consumer_reading d n : n ≤ 100 * kMaxObjects → new_consumer d n = reading d n [].
Proof. intros Hn. unfold new_consumer. by rewrite gtb_false. Qed.

Lemma feed_stream d raw dg size es cs chunks : header_digest d raw = Ret dg → any_eq dg d = true →
  ParseHeader raw = Ret (true, size, es) → Forall2 object_ok es cs → zlen es < 2 ^ 32 → 0 < zlen raw ≤ 100 * kMaxObjects →
  concat chunks = raw ++ concat cs →
  ∃ D c, feed (new_consumer d (zlen raw)) chunks = Ret (D, c) ∧ c_state c = kStateDone ∧ delivered (zip es cs) D.
Proof.
  intros Hdg Heq Hparse Hobj Hes Hraw Hcat. rewrite new_consumer_reading by lia.
  destruct (feed_header d raw dg size es cs Hdg Heq Hparse Hobj Hes) with (chunks := chunks) (got := @nil Z) (hrest := raw)
    as (D & c & HF & Hst & HD); [unfold kMaxObjects in *; lia|done|by intros ->|done|].
  exists D, c. split_and!; [done|done|]. by apply delivers_all.
Qed.

(** ** Headers that are not accepted *)

Lemma feed_stopped chunks : ∀ c, c_state c ≠ kStateContinue → ∃ c', feed c chunks = Ret ([], c') ∧
  (c_state c' = c_state c ∨ c_state c = kStateDone ∧ c_state c' = kStateTrailingBytes).
Proof.
  induction chunks as [|buf chunks IH]; intros c Hc; cbn [feed]; [by exists c; auto|].
  unfold ConsumeNext. destruct (zlen buf =? 0); exec.
  { destruct (IH c Hc) as (c' & -> & Hc'). exec. by exists c'. }
  case_decide as Hdone; exec; [|rewrite decide_True by done; exec].
  - destruct (IH (with_state c kStateTrailingBytes)) as (c' & -> & Hc'); [done|]. exec. exists c'. split; [done|].
    right. destruct Hc' as [Hc'|[Hc' _]]; [done|discriminate].
  - destruct (IH c Hc) as (c' & -> & Hc'). exec. by exists c'.
Qed.

Lemma feed_rejected d n chunks : algorithm d ≠ kAny → 0 < n < 2 ^ 32 →
  (∀ raw dg, zlen raw = n → raw `prefix_of` concat chunks → header_digest d raw = Ret dg → any_eq dg d = false) →
  ∀ rest got, concat chunks = got ++ concat rest → zlen got < n →
  ∃ c, feed (reading d n got) rest = Ret ([], c) ∧
    c_state c = if zlen (concat chunks) <? n then kStateContinue else kStateCorrupt.
Proof.
  intros Ha Hn Hbad. induction rest as [|buf rest IH]; intros got Hcat Hgot; cbn [feed concat] in *.
  { exists (reading d n got). split; [done|]. by rewrite Hcat, app_nil_r, ltb_true by done. }
  destruct (decide (zlen got + zlen buf < n)) as [Hlt|Hge].
  - destruct (ConsumeNext_partial d n got buf) as [st ->]; [done|lia|]. exec.
    destruct (IH (got ++ buf)) as (c & -> & Hc); [by rewrite <- app_assoc|rewrite zlen_app; lia|]. exec. by exists c.
  - destruct (split_zlen buf (n - zlen got)) as (hrest & buf' & -> & Hh); [lia|].
    rewrite (ConsumeNext_header d n got hrest buf'); [|intros ->; rewrite zlen_nil in Hh; lia|rewrite zlen_app; lia|lia].
    cbn zeta. unfold header_digest at 1, HashString, HashMem, Init. cbn [algorithm suffix]. rewrite decide_False by done. exec.
    set (dg := Final _ _ _ _). rewrite (Hbad (got ++ hrest) dg).
    + exec. destruct (feed_stopped rest (with_state (reading d n (got ++ hrest)) kStateCorrupt)) as (c & -> & Hc); [done|].
      exec. exists c. split; [done|]. rewrite Hcat, !zlen_app in *.
      rewrite ltb_false by (pose proof (zlen_nonneg (concat rest)); lia). by destruct Hc as [-> | [? _]].
    + rewrite zlen_app. lia.
    + rewrite Hcat. exists (buf' ++ concat rest). by rewrite <- !app_assoc.
    + unfold header_digest, HashString, HashMem, Init. cbn [algorithm suffix]. by rewrite decide_False by done.
Qed.

End Stream.

(** ** The header is read back *)

Lemma StringifyInt_ok v : 0 ≤ v < 2 ^ 63 → StringifyInt v = StringifyUint v ∧ String2Uint64 (StringifyInt v) = v ∧
  Forall (λ c, is_digit c = true) (StringifyInt v) ∧ StringifyInt v ≠ [].
Proof.
  intros Hv. assert (StringifyInt v = StringifyUint v) as E by (unfold StringifyInt; by rewrite ltb_false by lia).
  destruct (digits_ok 20 v) as (Hd & _ & Hne); [lia|lia|].
  rewrite E. split_and!; try done. apply String2Uint64_ok. unfold is_u64. lia.
Qed.

Lemma digits_without l c : Forall (λ c, is_digit c = true) l → is_digit c = false → c ∉ l.
Proof. intros Hl Hc Hin. rewrite Forall_forall in Hl. specialize (Hl _ Hin). congruence. Qed.

Definition lines_text (lines : list bytes) : bytes := concat ((λ l, l ++ [chr_nl]) <$> lines).

Definition sum_sizes (es : list IndexEntry) : Z := foldr (λ e s, en_size e + s) 0 es.

(** A line of the index and what it says. *)
Definition item_ok (line : bytes) (e : IndexEntry) : Prop :=
  line ≠ [] ∧ chr_nl ∉ line ∧ ParseItem line = Ret (Some e) ∧ 0 ≤ en_size e.

Lemma line_end_ok l rest n : chr_nl ∉ l → (length l < n)%nat → line_end (l ++ chr_nl :: rest) n = length l.
Proof.
  revert n. induction l as [|c l IH]; intros [|n] Hl Hn; cbn in *; try lia.
  apply not_elem_of_cons in Hl as [Hc Hl]. rewrite eqb_false by done. by rewrite IH by (done || lia).
Qed.

Lemma GetLineMem_ok pre l rest n : chr_nl ∉ l → n = zlen l + 1 + zlen rest →
  GetLineMem (substr_from (pre ++ l ++ chr_nl :: rest) (zlen pre)) n = l.
Proof.
  intros Hl ->. unfold GetLineMem. rewrite substr_from_app, line_end_ok by (done || unfold zlen; lia).
  by rewrite take_app_length.
Qed.

Lemma sum_sizes_nonneg lines es : Forall2 item_ok lines es → 0 ≤ sum_sizes es.
Proof. unfold sum_sizes. induction 1 as [|l e lines es (_ & _ & _ & ?) _ IH]; cbn [foldr]; lia. Qed.

Lemma index_loop_ok lines es : Forall2 item_ok lines es → lines ≠ [] → ∀ fuel pre index sum,
  zlen (pre ++ lines_text lines) < 2 ^ 32 → (length lines ≤ fuel)%nat → 0 ≤ sum → sum + sum_sizes es < 2 ^ 64 →
  index_loop fuel (pre ++ lines_text lines) (zlen pre) index sum = Ret (index ++ es, sum + sum_sizes es).
Proof.
  induction 1 as [|l e lines es (Hl & Hnl & Hparse & He) Hitems IH]; intros Hne fuel pre index sum H32 Hf Hs Hsum; [done|].
  destruct fuel as [|fuel]; [cbn in Hf; lia|]. unfold lines_text in *. cbn [fmap list_fmap concat] in *.
  fold (list_fmap _ _ (λ l : bytes, l ++ [chr_nl]) lines) in *. fold (lines_text lines) in *.
  pose proof (sum_sizes_nonneg _ _ Hitems). cbn [sum_sizes foldr] in *. fold (sum_sizes es) in *.
  pose proof (zlen_nonneg pre). pose proof (zlen_nonneg l). pose proof (zlen_nonneg (lines_text lines)).
  assert (∀ t, (l ++ [chr_nl]) ++ t = l ++ chr_nl :: t) as E by (intros t; by rewrite <- app_assoc).
  cbn [index_loop]. rewrite !zlen_app in *. change (zlen [chr_nl]) with 1 in *. rewrite E.
  rewrite GetLineMem_ok by (done || rewrite u32_small by (unfold is_u32; lia); lia).
  rewrite eqb_false by (apply zlen_pos in Hl; lia). rewrite Hparse. exec. rewrite u64_small by (unfold is_u64; lia).
  rewrite u32_small by (unfold is_u32; lia). destruct Hitems as [|l' e' lines es Hitem Hitems].
  - change (lines_text []) with (@nil Z). rewrite zlen_nil, ltb_false by lia. cbn [sum_sizes foldr]. do 2 f_equal. lia.
  - rewrite ltb_true by (destruct Hitem as (Hl'%zlen_pos & _); unfold lines_text; cbn; rewrite !zlen_app;
      change (zlen [chr_nl]) with 1; pose proof (zlen_nonneg (concat ((λ l, l ++ [chr_nl]) <$> lines))); unfold fmap in *; lia).
    replace (pre ++ l ++ chr_nl :: lines_text (l' :: lines)) with ((pre ++ l ++ [chr_nl]) ++ lines_text (l' :: lines))
      by by rewrite <- !app_assoc.
    replace (zlen pre + zlen l + 1) with (zlen (pre ++ l ++ [chr_nl])) by (rewrite !zlen_app; change (zlen [chr_nl]) with 1; lia).
    rewrite IH by (done || rewrite ?zlen_app; change (zlen [chr_nl]) with 1; cbn in *; lia).
    rewrite <- app_assoc. cbn [app]. do 2 f_equal. lia.
Qed.

Lemma keyval_header k v rest content : k ≠ chr_nl → k ≠ chr_Z → k ≠ chr_minus → chr_nl ∉ v →
  keyval_loop ((k :: v ++ [chr_nl]) ++ rest) [] content = keyval_loop rest [] (<[k := v]> content).
Proof.
  intros Hk HZ Hm Hv. replace ((k :: v ++ [chr_nl]) ++ rest) with ((k :: v) ++ chr_nl :: rest) by (cbn; by rewrite <- app_assoc).
  rewrite keyval_loop_line by (by apply not_elem_of_cons). cbn [app]. unfold bytes_eqb.
  rewrite bool_decide_false by (by intros [= -> ->]). unfold keyval_line. by rewrite eqb_false.
Qed.

Lemma InitializeHeader_keyvals n size rest : 0 ≤ n < 2 ^ 31 → 0 ≤ size < 2 ^ 63 →
  ParseKeyvalMem (InitializeHeader 2 n size ++ rest) ∅
  = <[chr_N := StringifyInt n]> (<[chr_S := StringifyInt size]> (<[chr_V := [chr_2]]> ∅)).
Proof.
  intros Hn Hs. unfold ParseKeyvalMem, InitializeHeader. rewrite i64_small by lia. rewrite <- !(app_assoc (A := Z)).
  destruct (StringifyInt_ok n) as (_ & _ & Hdn & _); [lia|]. destruct (StringifyInt_ok size) as (_ & _ & Hds & _); [lia|].
  rewrite (keyval_header chr_V (StringifyInt 2)) by (done || by apply not_elem_of_cons; split; [|apply not_elem_of_nil]).
  rewrite keyval_header by (done || by apply digits_without). rewrite keyval_header by (done || by apply digits_without).
  cbn [app keyval_loop Z.eqb]. done.
Qed.

Lemma length_lines lines : (length lines ≤ length (lines_text lines))%nat.
Proof.
  unfold lines_text. induction lines as [|l lines IH]; [done|]. rewrite fmap_cons. cbn [concat length].
  rewrite !length_app. cbn [length]. lia.
Qed.

(** The separator is the first place with two dashes. *)
Lemma find_separator n size rest : 0 ≤ n < 2 ^ 31 → 0 ≤ size < 2 ^ 63 →
  find (InitializeHeader 2 n size ++ rest) [chr_minus; chr_minus; chr_nl] 0 = Some (zlen (InitializeHeader 2 n size) - 3).
Proof.
  intros Hn Hs. set (kv := (chr_V :: StringifyInt 2 ++ [chr_nl]) ++ (chr_S :: StringifyInt size ++ [chr_nl])
    ++ (chr_N :: StringifyInt n ++ [chr_nl])).
  assert (InitializeHeader 2 n size = kv ++ [chr_minus; chr_minus; chr_nl]) as ->.
  { unfold InitializeHeader, kv. rewrite i64_small by lia. by rewrite <- !(app_assoc (A := Z)). }
  assert (chr_minus ∉ kv) as Hkv.
  { destruct (StringifyInt_ok n) as (_ & _ & Hdn & _); [lia|]. destruct (StringifyInt_ok size) as (_ & _ & Hds & _); [lia|].
    unfold kv. rewrite !not_elem_of_app, !not_elem_of_cons, !not_elem_of_app.
    pose proof (digits_without _ chr_minus Hdn eq_refl). pose proof (digits_without _ chr_minus Hds eq_refl).
    change (StringifyInt 2) with [chr_2]. split_and!; try done; by rewrite list_elem_of_singleton. }
  rewrite <- app_assoc. unfold find, substr_from. rewrite gtb_false by apply zlen_nonneg. change (Z.to_nat 0) with O. rewrite drop_0.
  rewrite (find_in_first chr_minus [chr_minus; chr_nl]) by done. rewrite zlen_app. change (zlen [_; _; _]) with 3. f_equal. lia.
Qed.

Lemma ParseHeader_ok lines es : Forall2 item_ok lines es → zlen es < 2 ^ 31 → sum_sizes es < 2 ^ 63 →
  zlen (InitializeHeader 2 (zlen es) (sum_sizes es) ++ lines_text lines) < 2 ^ 32 →
  ParseHeader (InitializeHeader 2 (zlen es) (sum_sizes es) ++ lines_text lines) = Ret (true, sum_sizes es, es).
Proof.
  intros Hitems Hn Hs H32. pose proof (zlen_nonneg es) as H0. pose proof (sum_sizes_nonneg _ _ Hitems) as Hs0.
  unfold ParseHeader. rewrite InitializeHeader_keyvals by lia.
  destruct (StringifyInt_ok (zlen es)) as (_ & Hvn & _); [lia|].
  destruct (StringifyInt_ok (sum_sizes es)) as (_ & Hvs & _); [lia|].
  rewrite (lookup_insert_ne _ chr_N chr_V), (lookup_insert_ne _ chr_S chr_V), (lookup_insert_eq _ chr_V),
    (lookup_insert_ne _ chr_N chr_S), (lookup_insert_eq _ chr_S), (lookup_insert_eq _ chr_N) by done. cbn [default from_option id].
  unfold bytes_eqb. rewrite bool_decide_true by done. cbn [negb]. rewrite Hvn, Hvs, u32_small by (unfold is_u32; lia).
  destruct (Z.eqb_spec (zlen es) 0) as [Hz%zlen_zero|Hz]; [by subst es|]. rewrite find_separator by lia.
  assert (lines ≠ []) as Hne by (intros ->; inversion Hitems; subst; done).
  assert (0 < zlen (lines_text lines)) as Hpos.
  { pose proof (length_lines lines). destruct lines; [done|]. unfold zlen. cbn [length] in *. lia. }
  set (hd := InitializeHeader _ _ _) in *. rewrite zlen_app in H32. pose proof (zlen_nonneg hd).
  replace (zlen hd - 3 + 3) with (zlen hd) by lia.
  rewrite u32_small by (unfold is_u32; lia). rewrite geb_false by (rewrite zlen_app; lia).
  rewrite (index_loop_ok lines es Hitems Hne); [|by rewrite zlen_app| |done|lia].
  - exec. by rewrite Z.add_0_l, !Z.eqb_refl.
  - rewrite length_app. pose proof (length_lines lines). lia.
Qed.

(** ** Lines of the index *)

(** Hashes whose text has no blank and no newline: the suffixes in use are
    letters. *)
Definition id_ok (h : any) : Prop := any_ok h ∧ suffix h ≠ chr_nl ∧ suffix h ≠ chr_space.

Definition blank_free (t : bytes) : Prop := chr_nl ∉ t ∧ chr_space ∉ t.

Lemma blank_free_app t u : blank_free t → blank_free u → blank_free (t ++ u).
Proof. unfold blank_free. rewrite !not_elem_of_app. tauto. Qed.

Lemma blank_free_hex d : bytes_ok d → blank_free (hex_of d).
Proof.
  induction 1 as [|b d Hb _ IH]; [split; apply not_elem_of_nil|]. unfold is_u8 in Hb. destruct IH as [IH1 IH2].
  assert (∀ v, 0 ≤ v < 16 → 48 ≤ ToHex v) as Hhex.
  { intros v Hv. unfold ToHex. destruct (Z.leb_spec v 9); rewrite u8_small by (unfold is_u8; lia); lia. }
  pose proof (Hhex (b / 16) ltac:(dlia)). pose proof (Hhex (b mod 16) ltac:(dlia)).
  cbn [hex_of]. unfold blank_free, chr_nl, chr_space in *. rewrite !not_elem_of_cons. split_and!; lia || done.
Qed.

Lemma padded_ok d a s : bytes_ok d → zlen d = kDigestSizes a → a ≠ kAny → is_u8 s → any_ok (padded d a s).
Proof.
  intros Hd Hl Ha Hs. pose proof (digest_size_bounds a). unfold zlen in Hl. split; cbn [padded digest algorithm suffix]; try done.
  - rewrite length_app, length_replicate. lia.
  - apply Forall_app. split; [done|]. by apply Forall_replicate.
Qed.

Lemma id_text h : id_ok h → ∃ t h', ToString h true = Ret t ∧ blank_free t ∧ zlen t ≤ 50 ∧
  MkFromSuffixedHexPtr t = Ret h' ∧ any_eq h' h = true ∧ suffix h' = suffix h ∧ any_ok h'.
Proof.
  intros (Hok & Hnl & Hsp). pose proof (significant_ok h Hok) as Hs. pose proof (zlen_significant h (any_digest h Hok)) as Hl.
  exists (hex_of (significant h) ++ kAlgorithmIds (algorithm h) ++ (if suffix h =? kSuffixNone then [] else [suffix h])).
  exists (padded (significant h) (algorithm h) (suffix h)). rewrite ToString_ok by done.
  unfold hex_string, HasSuffix. rewrite <- app_assoc. split_and!.
  - by destruct (suffix h =? kSuffixNone).
  - apply blank_free_app; [by apply blank_free_hex|]. apply blank_free_app.
    + destruct (algorithm h); split; apply (bool_decide_unpack _); by vm_compute.
    + destruct (suffix h =? kSuffixNone); split; rewrite ?list_elem_of_singleton; auto; apply not_elem_of_nil.
  - rewrite !zlen_app, zlen_hex_of, zlen_ids, Hl. pose proof (digest_size_bounds (algorithm h)).
    destruct (algorithm h), (suffix h =? kSuffixNone); by vm_compute.
  - apply MkFromSuffixedHexPtr_ok; [apply Hok|done|done].
  - by apply padded_eq.
  - done.
  - apply padded_ok; try done; apply Hok.
Qed.

Lemma find_space_ok pre t rest pos : pos = zlen pre → chr_space ∉ t →
  find_space (pre ++ t ++ chr_space :: rest) pos = Some (zlen pre + zlen t).
Proof.
  intros -> Ht. unfold find_space, find. rewrite substr_from_app, gtb_false
    by (rewrite zlen_app; pose proof (zlen_nonneg (t ++ chr_space :: rest)); lia).
  apply (find_in_first chr_space [] t rest Ht).
Qed.

Definition cas_line (t : bytes) (size : Z) : bytes := [chr_C; chr_space] ++ t ++ chr_space :: StringifyInt size.

Lemma ParseItem_cas t h size : chr_space ∉ t → MkFromSuffixedHexPtr t = Ret h → 0 ≤ size < 2 ^ 63 →
  ParseItem (cas_line t size) = Ret (Some (mkEntry h size kCas [])).
Proof.
  intros Ht Hh Hs. destruct (StringifyInt_ok size Hs) as (_ & Hv & _ & Hne%zlen_pos).
  unfold ParseItem. change (cas_line t size) with (chr_C :: [chr_space] ++ t ++ chr_space :: StringifyInt size) at 1.
  cbn [Z.eqb]. rewrite Z.eqb_refl. unfold cas_line. rewrite find_space_ok by done. change (zlen [_; _]) with 2.
  rewrite eqb_false by (rewrite !zlen_app, (zlen_cons chr_space (StringifyInt size)); change (zlen [_; _]) with 2; lia).
  replace (2 + zlen t - 2) with (zlen t) by lia. rewrite (substr_app [chr_C; chr_space] t), Hh. exec.
  replace (2 + zlen t + 1) with (zlen ([chr_C; chr_space] ++ t ++ [chr_space])) by (rewrite !zlen_app; change (zlen [_; _]) with 2; change (zlen [_]) with 1; lia).
  replace ([chr_C; chr_space] ++ t ++ chr_space :: StringifyInt size)
    with (([chr_C; chr_space] ++ t ++ [chr_space]) ++ StringifyInt size) by (by rewrite <- !app_assoc).
  by rewrite substr_from_app, Hv.
Qed.

Definition named_line (t : bytes) (size : Z) (u : bytes) : bytes :=
  [chr_N; chr_space] ++ t ++ chr_space :: StringifyInt size ++ chr_space :: u.

Lemma ParseItem_named t h size u name : chr_space ∉ t → MkFromSuffixedHexPtr t = Ret h → 0 ≤ size < 2 ^ 63 →
  Debase64 u = Ret (Some name) → zlen (named_line t size u) < 2 ^ 32 →
  ParseItem (named_line t size u) = Ret (Some (mkEntry h size kNamed name)).
Proof.
  intros Ht Hh Hs Hu H32. destruct (StringifyInt_ok size Hs) as (_ & Hv & Hd & Hne%zlen_pos).
  pose proof (digits_without _ chr_space Hd eq_refl) as Hsp. pose proof (zlen_nonneg t). pose proof (zlen_nonneg u).
  unfold ParseItem. change (named_line t size u) with (chr_N :: [chr_space] ++ t ++ chr_space :: StringifyInt size ++ chr_space :: u) at 1.
  cbv beta iota. change (chr_N =? chr_C) with false. rewrite Z.eqb_refl. unfold named_line at 1. rewrite find_space_ok by done. change (zlen [_; _]) with 2.
  set (pre := [chr_N; chr_space] ++ t ++ [chr_space]).
  assert (named_line t size u = pre ++ StringifyInt size ++ chr_space :: u) as E by (unfold named_line, pre; by rewrite <- !app_assoc).
  assert (zlen pre = 2 + zlen t + 1) as Hpre by (unfold pre; rewrite !zlen_app; change (zlen [_; _]) with 2; change (zlen [_]) with 1; lia).
  rewrite <- Hpre, E in *. rewrite find_space_ok by done. cbn [default from_option id]. rewrite !zlen_app, zlen_cons in *.
  rewrite eqb_false by lia. rewrite !u64_small by (unfold is_u64; lia).
  replace (zlen pre + zlen (StringifyInt size) - (2 + zlen t) - 1) with (zlen (StringifyInt size)) by lia.
  rewrite Z.min_r by lia. rewrite substr_app, Hv.
  replace (pre ++ StringifyInt size ++ chr_space :: u) with ((pre ++ StringifyInt size ++ [chr_space]) ++ u) by (by rewrite <- !app_assoc).
  replace (zlen pre + zlen (StringifyInt size) + 1) with (zlen (pre ++ StringifyInt size ++ [chr_space]))
    by (rewrite !zlen_app; change (zlen [_]) with 1; lia).
  rewrite substr_from_app, Hu. exec. replace (2 + zlen t - 2) with (zlen t) by lia.
  replace (substr ((pre ++ StringifyInt size ++ [chr_space]) ++ u) 2 (zlen t)) with t; [by rewrite Hh|].
  unfold pre. rewrite <- !app_assoc. symmetry. apply (substr_app [chr_N; chr_space] t).
Qed.

(** ** From the buckets to the listeners *)

Lemma length_digits k : ∀ fuel n, 0 ≤ n < 10 ^ Z.of_nat k → (length (digits fuel n) ≤ k `max` 1)%nat.
Proof.
  induction k as [|k IH]; intros [|fuel] n Hn; cbn [digits length]; try lia; rewrite length_app; cbn [length].
  - rewrite ltb_true by (cbn in Hn; lia). done.
  - rewrite Nat2Z.inj_succ, Z.pow_succ_r in Hn by lia. destruct (Z.ltb_spec n 10); cbn [length]; [lia|].
    specialize (IH fuel (n / 10) ltac:(dlia)). destruct k; [cbn in Hn; lia|lia].
Qed.

Lemma zlen_StringifyInt k v : 0 ≤ v < 10 ^ Z.of_nat k → (0 < k)%nat → v < 2 ^ 63 → zlen (StringifyInt v) ≤ Z.of_nat k.
Proof.
  intros Hv Hk H63. destruct (StringifyInt_ok v) as [-> _]; [lia|]. unfold StringifyUint, zlen.
  pose proof (length_digits k 20 v Hv). lia.
Qed.

Lemma zlen_InitializeHeader n size : 0 ≤ n < 2 ^ 31 → 0 ≤ size < 2 ^ 63 → 0 < zlen (InitializeHeader 2 n size) ≤ 50.
Proof.
  intros Hn Hs. unfold InitializeHeader. rewrite i64_small by lia. rewrite !zlen_app, !zlen_cons, !zlen_app.
  pose proof (zlen_StringifyInt 19 size ltac:(lia) ltac:(lia) ltac:(lia)).
  pose proof (zlen_StringifyInt 10 n ltac:(lia) ltac:(lia) ltac:(lia)).
  pose proof (zlen_nonneg (StringifyInt size)). pose proof (zlen_nonneg (StringifyInt n)).
  change (zlen (StringifyInt 2)) with 1. change (zlen [_]) with 1. change (zlen [_; _; _]) with 3. change (zlen (@nil Z)) with 0. lia.
Qed.

(** What the listeners learn about a bucket. *)
Definition entry_of (b : Bucket) (e : IndexEntry) : Prop :=
  any_eq (en_id e) (bk_id b) = true ∧ suffix (en_id e) = suffix (bk_id b) ∧ any_ok (en_id e) ∧ en_size e = bk_size b ∧
  en_type e = kCas ∧ en_name e = [].

Definition bucket_small (b : Bucket) : Prop := id_ok (bk_id b) ∧ bk_size b < 2 ^ 32.

Lemma append_items_ok h handles bs : Forall2 (λ a b, h !! a = Some b) handles bs → Forall bucket_small bs → ∀ header,
  ∃ lines es, append_items h handles header = Ret (header ++ lines_text lines) ∧ Forall2 item_ok lines es ∧
    Forall2 entry_of bs es ∧ zlen (lines_text lines) ≤ 64 * zlen bs.
Proof.
  induction 1 as [|a b handles bs Hb _ IH]; intros Hbs header; cbn [append_items].
  { exists [], []. rewrite app_nil_r. by repeat split. }
  apply Forall_cons in Hbs as [[Hid Hsmall] Hbs]. unfold deref. rewrite Hb. exec.
  destruct (id_text (bk_id b) Hid) as (t & h' & -> & [Hnl Hsp] & Ht & Hh & Heq & Hsuf & Hok'). exec.
  unfold AppendItemToHeader. rewrite (bool_decide_true (kCas = kCas)) by done. exec.
  assert (0 ≤ bk_size b) by apply zlen_nonneg. rewrite i64_small by lia.
  destruct (StringifyInt_ok (bk_size b)) as (_ & _ & Hd & _); [lia|].
  destruct (IH Hbs (header ++ [chr_C; chr_space] ++ t ++ [chr_space] ++ StringifyInt (bk_size b) ++ [] ++ [chr_nl]))
    as (lines & es & -> & Hitems & Hes & Hlen).
  exists (cas_line t (bk_size b) :: lines), (mkEntry h' (bk_size b) kCas [] :: es). split_and!.
  - f_equal. unfold lines_text, cas_line. rewrite fmap_cons. cbn [concat]. by rewrite <- !app_assoc.
  - constructor; [|done]. split_and!; [done| |apply ParseItem_cas; done || lia|done].
    unfold cas_line. rewrite !not_elem_of_app, !not_elem_of_cons.
    pose proof (digits_without _ chr_nl Hd eq_refl). split_and!; try done. apply not_elem_of_nil.
  - by constructor.
  - unfold lines_text in *. rewrite fmap_cons. cbn [concat]. unfold cas_line. rewrite !zlen_app, !zlen_cons, !zlen_nil.
    pose proof (zlen_StringifyInt 10 (bk_size b) ltac:(lia) ltac:(lia) ltac:(lia)). lia.
Qed.

Lemma sum_entries bs es : Forall2 entry_of bs es → sum_sizes es = foldr (λ b s, bk_size b + s) 0 bs.
Proof. unfold sum_sizes. induction 1 as [|b e bs es (_ & _ & _ & He & _) _ IH]; cbn [foldr]; [done|]. by rewrite IH, He. Qed.

Lemma total_buckets h l bs : Forall2 (λ a b, h !! a = Some b) l bs → total h l = foldr (λ b s, bk_size b + s) 0 bs.
Proof.
  unfold total. induction 1 as [|a b l bs Hb _ IH]; cbn [foldr]; [done|]. rewrite IH. unfold size_at. by rewrite Hb.
Qed.

Lemma pack_buckets h p : pack_ok h p → ∃ bs, Forall2 (λ a b, h !! a = Some b) (buckets_ p) bs.
Proof.
  intros [Hh _ _ _ _ _]. unfold handles in Hh. assert (∀ a, a ∈ buckets_ p → is_Some (h !! a)) as Hin.
  { intros a Ha. apply elem_of_dom. set_solver. }
  clear Hh. induction (buckets_ p) as [|a l IH]; [by exists []|]. destruct (Hin a) as [b Hb]; [left|].
  destruct IH as [bs Hbs]; [intros c Hc; apply Hin; by right|]. exists (b :: bs). by constructor.
Qed.

(** The header of a pack, and what the consumer makes of it. *)
Lemma new_producer_ok h p bs : pack_ok h p → Forall2 (λ a b, h !! a = Some b) (buckets_ p) bs → Forall bucket_small bs →
  ∃ header es, new_producer h p = Ret (mkProducer FromPack 0 0 0 header) ∧ 0 < zlen header ≤ 100 * kMaxObjects ∧
    ParseHeader header = Ret (true, size_ p, es) ∧ Forall2 entry_of bs es.
Proof.
  intros [_ _ _ Hsize Hlim Hcount] Hbs Hsmall. unfold new_producer. pose proof (zlen_nonneg (buckets_ p)).
  rewrite u32_small by (unfold is_u32, kMaxObjects in *; lia). rewrite i32_small by (unfold kMaxObjects in *; lia).
  rewrite take_ge by (unfold zlen; lia).
  destruct (append_items_ok h _ bs Hbs Hsmall (InitializeHeader 2 (zlen (buckets_ p)) (size_ p)))
    as (lines & es & -> & Hitems & Hes & Hlen). exec.
  assert (zlen (buckets_ p) = zlen es) as Hn.
  { unfold zlen. by rewrite (Forall2_length _ _ _ Hbs), (Forall2_length _ _ _ Hes). }
  assert (zlen bs = zlen es) as Hn' by (unfold zlen; by rewrite (Forall2_length _ _ _ Hes)).
  assert (size_ p = sum_sizes es) as Hs by (by rewrite Hsize, (total_buckets _ _ _ Hbs), (sum_entries _ _ Hes)).
  pose proof (sum_sizes_nonneg _ _ Hitems). rewrite Hn, Hs in *. unfold kMaxObjects in *.
  pose proof (zlen_InitializeHeader (zlen es) (sum_sizes es) ltac:(lia) ltac:(lia)). pose proof (zlen_nonneg (lines_text lines)).
  exists (InitializeHeader 2 (zlen es) (sum_sizes es) ++ lines_text lines), es.
  rewrite zlen_app. split_and!; [done|lia|lia| |done]. apply ParseHeader_ok; [done|lia|lia|rewrite zlen_app; lia].
Qed.

(** A new producer has everything to send. *)
Lemma producer_start bs header : 0 < zlen header ≤ 100 * kMaxObjects →
  producer_at bs (mkProducer FromPack 0 0 0 header) (header ++ concat (bk_content <$> bs)).
Proof.
  intros Hlen. split_and!; [done|cbn; unfold kMaxObjects in *; lia|]. exists (concat (bk_content <$> bs)). split; [done|].
  exists [], bs. split_and!; [done|done|apply pos_ok_zero|symmetry; apply rest_of_zero].
Qed.

Section RoundTrip.
Context {context : Type} (init : Algorithms → context) (update : context → bytes → context) (final : context → bytes).

Definition total_size (sizes : list Z) : Z := foldr Z.add 0 sizes.

Lemma total_size_nonneg sizes : Forall (λ n, 0 ≤ n < 2 ^ 32) sizes → 0 ≤ total_size sizes.
Proof. unfold total_size. induction 1; cbn [foldr]; lia. Qed.

Lemma concat_pieces sizes : Forall (λ n, 0 ≤ n < 2 ^ 32) sizes → ∀ R, zlen R ≤ total_size sizes → concat (pieces sizes R) = R.
Proof.
  induction 1 as [|n sizes Hn Hsizes IH]; intros R HR; cbn [total_size foldr pieces concat] in *.
  - by rewrite (zlen_zero R) by (pose proof (zlen_nonneg R); lia).
  - fold (total_size sizes) in HR. pose proof (total_size_nonneg sizes Hsizes).
    rewrite IH; [apply take_drop|]. unfold zlen in *. rewrite length_drop. lia.
Qed.

(** The digest of a header that the producer states is the one the consumer
    computes. *)
Lemma digest_agrees header s hash : algorithm hash ≠ kAny → pr_header s = header →
  ∃ d dg, GetDigest init update final s hash = Ret d ∧ header_digest init update final d header = Ret dg ∧ any_eq dg d = true.
Proof.
  intros Ha <-. unfold GetDigest, header_digest, HashString, HashMem, Init. rewrite decide_False by done. exec.
  eexists _, _. split; [done|]. cbn [Final algorithm suffix]. rewrite decide_False by done. exec. split; [done|].
  unfold any_eq. cbn [Final algorithm digest]. rewrite decide_True by done. by apply digest_eq_take.
Qed.

Lemma objects_of_buckets bs es : Forall bucket_small bs → Forall2 entry_of bs es → Forall2 object_ok es (bk_content <$> bs).
Proof.
  intros Hsmall Hes. revert Hsmall. induction Hes as [|b e bs es (_ & _ & _ & He & _) _ IH]; intros Hsmall; [constructor|].
  apply Forall_cons in Hsmall as [[_ Hs] Hsmall]. rewrite fmap_cons. constructor; [by split|by apply IH].
Qed.


Lemma named_item t id size u name r : chr_nl ∉ t → chr_space ∉ t → zlen t ≤ 50 → MkFromSuffixedHexPtr t = Ret id →
  0 ≤ size < 2 ^ 32 → Debase64 u = Ret (Some name) → zlen u mod 4 = 0 → debase64_loop u = Ret (Some r) → zlen u ≤ 2 ^ 22 →
  item_ok (named_line t size u) (mkEntry id size kNamed name) ∧ zlen (named_line t size u) ≤ 2 ^ 22 + 100.
Proof.
  intros Hnl Hsp Ht Hh Hs Hu Hmod Hloop Hul. destruct (StringifyInt_ok size) as (_ & _ & Hd & _); [lia|].
  pose proof (zlen_StringifyInt 10 size ltac:(lia) ltac:(lia) ltac:(lia)).
  assert (zlen (named_line t size u) ≤ 2 ^ 22 + 100) as Hl.
  { unfold named_line. rewrite !zlen_app, !zlen_cons, !zlen_app, !zlen_cons. change (zlen (@nil Z)) with 0. lia. }
  split; [|done]. split_and!; [done| |apply ParseItem_named; done || lia|cbn; lia].
  pose proof (digits_without _ chr_nl Hd eq_refl). pose proof (debase64_chars chr_nl eq_refl u r Hmod Hloop).
  unfold named_line. rewrite !not_elem_of_app, !not_elem_of_cons, !not_elem_of_app, !not_elem_of_cons.
  split_and!; try done. apply not_elem_of_nil.
Qed.

(** The stream of a single file arrives likewise, under its name. *)
Theorem file_round_trip id file name hash sizes : id_ok id → zlen file < 2 ^ 32 → bytes_ok name → 0 < zlen name < 2 ^ 20 →
  algorithm hash ≠ kAny → Forall (λ n, 0 ≤ n < 2 ^ 32) sizes →
  ∃ s d id', new_file_producer id file name = Ret s ∧ GetDigest init update final s hash = Ret d ∧
    any_eq id' id = true ∧ suffix id' = suffix id ∧
    (zlen (pr_header s ++ file) ≤ total_size sizes →
     ∃ outs, produce ∅ (new_pack 0) s sizes = Ret outs ∧ ∀ chunks, concat chunks = concat outs →
     ∃ D c, feed init update final (new_consumer d (zlen (pr_header s))) chunks = Ret (D, c) ∧ c_state c = kStateDone ∧
       delivered [(mkEntry id' (zlen file) kNamed name, file)] D).
Proof.
  intros Hid Hfile Hname Hlen Ha Hsizes. unfold new_file_producer.
  destruct (id_text id Hid) as (t & id' & -> & [Hnl Hsp] & Ht & Hh & Heq & Hsuf & Hok'). exec.
  destruct (Base64Url_ok name Hname) as (u & r & Hu & Hdu & Hmod & Hloop).
  unfold AppendItemToHeader. rewrite bool_decide_false, bool_decide_true, eqb_false by (done || lia). exec. rewrite Hu. exec.
  pose proof (zlen_nonneg file). rewrite i64_small by lia.
  destruct (StringifyInt_ok (zlen file)) as (_ & _ & Hd & _); [lia|].
  set (e := mkEntry id' (zlen file) kNamed name). set (s := mkProducer _ _ _ _ _).
  destruct (named_item t id' (zlen file) u name r) as [Hitem Hline]; [done..|lia|done|dlia|done|dlia|].
  assert (pr_header s = InitializeHeader 2 (zlen [e]) (sum_sizes [e]) ++ lines_text [named_line t (zlen file) u]) as Ehdr.
  { unfold s, lines_text, sum_sizes, named_line. cbn [pr_header fmap list_fmap concat foldr en_size e]. rewrite Z.add_0_r.
    cbn [app]. rewrite app_nil_r, <- !app_assoc. cbn [app]. by rewrite <- !app_assoc. }
  assert (0 < zlen (pr_header s) < 2 ^ 23) as Hhl.
  { rewrite Ehdr. unfold lines_text, sum_sizes. cbn [fmap list_fmap concat foldr en_size e]. rewrite app_nil_r, !zlen_app.
    change (zlen [_]) with 1. pose proof (zlen_InitializeHeader 1 (zlen file + 0) ltac:(lia) ltac:(lia)).
    pose proof (zlen_nonneg (named_line t (zlen file) u)). lia. }
  destruct (digest_agrees (pr_header s) s hash Ha eq_refl) as (d & dg & Hdg & Hdg' & Heqd).
  exists s, d, id'. split_and!; [done|done|done|done|]. intros Hfit.
  exists (pieces sizes (pr_header s ++ file)). split.
  - apply (produce_ok ∅ (new_pack 0) []); [constructor|constructor|done|].
    split_and!; [done|lia|]. by exists file.
  - rewrite concat_pieces by done. intros chunks Hchunks.
    apply (feed_stream init update final d (pr_header s) dg (sum_sizes [e]) [e] [file]); try done.
    + rewrite Ehdr in *. apply ParseHeader_ok; [by apply Forall2_cons|done|cbn; lia|lia].
    + constructor; [done|constructor].
    + unfold kMaxObjects. lia.
    + cbn [concat]. by rewrite app_nil_r.
Qed.

(** As long as no header with the expected digest arrives, the
    consumer delivers nothing: it waits for the rest of the header, reports it
    corrupt once it is complete, or refuses it from the start because it would
    be too big. *)
Theorem corrupt_header_silent d n chunks : algorithm d ≠ kAny → 0 < n < 2 ^ 32 →
  (∀ raw dg, zlen raw = n → raw `prefix_of` concat chunks → header_digest init update final d raw = Ret dg →
     any_eq dg d = false) →
  ∃ c, feed init update final (new_consumer d n) chunks = Ret ([], c) ∧
    c_state c = if n >? 100 * kMaxObjects then kStateHeaderTooBig
                else if zlen (concat chunks) <? n then kStateContinue else kStateCorrupt.
Proof.
  intros Ha Hn Hbad. destruct (n >? 100 * kMaxObjects) eqn:Hbig.
  - destruct (feed_stopped init update final chunks (new_consumer d n)) as (c & -> & Hc);
      unfold new_consumer in *; rewrite Hbig in *; [done|].
    exists c. split; [done|]. by destruct Hc as [-> | [? _]].
  - rewrite Z.gtb_ltb in Hbig. apply Z.ltb_ge in Hbig. rewrite new_consumer_reading by done.
    apply (feed_rejected init update final d n chunks Ha Hn Hbad chunks []); [done|rewrite zlen_nil; lia].
Qed.
End RoundTrip.

(** ** What does not arrive *)

(** A bucket that was committed as a named file is announced as an object of
    the content-addressable storage: its name is not in the stream. *)
Lemma named_bucket_loses_name h a b hash_str : h !! a = Some b → ToString (bk_id b) true = Ret hash_str →
  append_items h [a] [] = append_items (<[a := mkBucket (bk_content b) (bk_capacity b) (bk_id b) kCas []]> h) [a] [].
Proof.
  intros Hb Ht. cbn [append_items]. unfold deref. rewrite Hb, lookup_insert_eq. exec. cbn [bk_id]. by rewrite Ht.
Qed.

(** [pos_in_object_] has 32 bits: in an object of more than 4 GiB the consumer
    is back at the beginning after 4 GiB, and waits for the whole size again. *)
Lemma large_object_restarts e accu_free buf : 2 ^ 32 < en_size e < 2 ^ 63 → kAccuSize ≤ zlen buf < 2 ^ 32 →
  payload_loop (S (S accu_free)) [e] 0 (2 ^ 32 - zlen buf) [] buf 0 = Ret ([mkEvent e buf], 0, 0, [], zlen buf).
Proof.
  intros He Hb. cbn [payload_loop]. change (lget [e] 0) with (Some e). cbv iota.
  unfold kAccuSize in Hb. rewrite ltb_true by lia. exec. unfold consume_piece. change (zlen (@nil Z)) with 0.
  rewrite Z.sub_0_r, u64_small by (unfold is_u64; lia).
  rewrite (Z.min_r (en_size e - _) (zlen buf)) by lia. rewrite (ltb_false (zlen buf) kAccuSize) by (unfold kAccuSize; lia). rewrite andb_false_r. cbn [Z.gtb Z.compare orb].
  rewrite (load_tail [] buf : load buf 0 (zlen buf) = Ret buf). exec. rewrite eqb_false by lia.
  replace (u32 (2 ^ 32 - zlen buf + zlen buf)) with 0 by (rewrite Z.sub_add; done). rewrite Z.add_0_l.
  cbn [payload_loop]. change (lget [e] 0) with (Some e). cbv iota.
  rewrite Z.ltb_irrefl, (eqb_false (en_size e)) by lia. exec. done.
Qed.

(** ** Witnesses *)

(** A checksum in place of the hash functions. *)
Definition sum_init (a : Algorithms) : Z := 0.
Definition sum_update (c : Z) (b : bytes) : Z := foldl (λ c x, (c * 31 + x) mod 256) c b.
Definition sum_final (c : Z) : bytes := replicate 20 c.

Definition sha1_id (x s : Z) : any := Any (replicate 20 x) kSha1 s.

Lemma sha1_id_ok x s : is_u8 x → is_u8 s → s ≠ chr_nl → s ≠ chr_space → id_ok (sha1_id x s).
Proof.
  intros Hx Hs H1 H2. split_and!; [|done|done]. split; [done| |done|done].
  by apply Forall_replicate.
Qed.

(** A bucket with some bytes, an empty one, and a bucket with a suffixed hash. *)
Definition bucket_w (content : bytes) (id : any) : Bucket := mkBucket content kInitialSize id kCas [].
Definition heap_w : heap :=
  <[10 := bucket_w [1; 2; 3] (sha1_id 17 0)]> (<[20 := bucket_w [] (sha1_id 34 67)]> (<[30 := bucket_w [4; 5] (sha1_id 255 0)]> ∅)).
Definition pack_w : ObjectPack := mkPack kDefaultLimit 5 ∅ [10; 20; 30].
Definition buckets_w : list Bucket := [bucket_w [1; 2; 3] (sha1_id 17 0); bucket_w [] (sha1_id 34 67); bucket_w [4; 5] (sha1_id 255 0)].

Lemma pack_w_ok : pack_ok heap_w pack_w.
Proof.
  split; [|by apply (bool_decide_unpack _)|by apply (bool_decide_unpack _)|done|done|done].
  apply (bool_decide_unpack _). by vm_compute.
Qed.

Lemma buckets_w_ok : Forall bucket_small buckets_w.
Proof. unfold buckets_w. rewrite !Forall_cons, Forall_nil. split_and!; try done; (split; [by apply sha1_id_ok|done]). Qed.


Lemma file_round_trip_witness : ∃ s d id', new_file_producer (sha1_id 1 0) [9; 8; 7] [97; 98] = Ret s ∧
  GetDigest sum_init sum_update sum_final s (sha1_id 0 0) = Ret d ∧
  any_eq id' (sha1_id 1 0) = true ∧ suffix id' = suffix (sha1_id 1 0) ∧
  ∃ outs, produce ∅ (new_pack 0) s [10; 1000] = Ret outs ∧ ∀ chunks, concat chunks = concat outs →
  ∃ D c, feed sum_init sum_update sum_final (new_consumer d (zlen (pr_header s))) chunks = Ret (D, c) ∧ c_state c = kStateDone ∧
    delivered [(mkEntry id' (zlen [9; 8; 7]) kNamed [97; 98], [9; 8; 7])] D.
Proof.
  destruct (file_round_trip sum_init sum_update sum_final (sha1_id 1 0) [9; 8; 7] [97; 98] (sha1_id 0 0) [10; 1000])
    as (s & d & id' & Hs & Hd & Hid & Hsuf & Hrt); cycle 6.
  { exists s, d, id'. split_and!; [done..|]. apply Hrt. vm_compute in Hs. injection Hs as <-. by vm_compute. }
  - apply sha1_id_ok; done.
  - done.
  - repeat (constructor; [done|]). constructor.
  - done.
  - discriminate.
  - repeat (constructor; [done|]). constructor.
Defined.

Lemma corrupt_header_silent_witness : ∃ c,
  feed sum_init sum_update sum_final (new_consumer (sha1_id 1 0) 2) [[1]; [2; 3]] = Ret ([], c) ∧
  c_state c = if 2 >? 100 * kMaxObjects then kStateHeaderTooBig
              else if zlen (concat [[1]; [2; 3]]) <? 2 then kStateContinue else kStateCorrupt.
Proof.
  apply (corrupt_header_silent sum_init sum_update sum_final (sha1_id 1 0) 2 [[1]; [2; 3]]).
  - discriminate.
  - done.
  - intros [|a [|b [|c raw]]] dg Hz [rest Hp] Hd; try discriminate Hz.
    + cbn in Hp. injection Hp as <- <- _. vm_compute in Hd. injection Hd as <-. by vm_compute.
    + exfalso. unfold zlen in Hz. cbn in Hz. lia.
Defined.
