(* ===== verification/Receiver.v ===== *)
(** * The receiver of object packs (src/cvmfs/receiver/payload_processor.cc)

    [PayloadProcessor] reads the stream of an object pack, hashes every object
    while it hands it to the uploader, and has the uploader store it if the hash
    is right.  The uploader is represented by the calls it gets. *)

From stdpp Require Import base numbers list gmap.
From S2P Require Import Prelude Bytes StringUtil Hash StdMap Pack PackStream.

Open Scope Z_scope.

Inductive Result := kSuccess | kPathViolation | kUploaderError | kOtherError.

(** The calls of the uploader; a handle is the number of the call that made it.
    The path is the member [remote_path] of the handle. *)
Inductive upload_call :=
  | InitStreamedUpload (handle : Z)
  | ScheduleUpload (handle : Z) (buf : bytes)
  | ScheduleCommit (handle : Z) (remote_path : bytes) (id : any).

(** What [operator<] of [shash::Any] looks at. *)
Definition any_key (h : any) : Z * bytes := (alg_code (algorithm h), significant h).

(** The results of [read]. *)
Inductive fd_read := FdBytes (b : bytes) | FdError.

(** The path of an object: that of its hash, or the name of the file. *)
Definition entry_path (entry : IndexEntry) : outcome bytes :=
  if decide (en_type entry = kCas) then MakePath (en_id entry) else Ret (en_name entry).

(** The final path is overridden if the object is a named file. *)
Definition remote_path (entry : IndexEntry) (path : bytes) : bytes := if decide (en_type entry = kNamed) then path else [].

Section Receiver.
Context {context : Type} (init : Algorithms → context) (update : context → bytes → context) (final : context → bytes).

Record FileInfo := mkFileInfo { fi_handle : Z; fi_total_size : Z; fi_current_size : Z; fi_hash_context : context }.

Record PayloadProcessor := mkProcessor {
  pending_files_ : list ((Z * bytes) * FileInfo);
  num_errors_ : Z;
  uploader_ : list upload_call
}.

Definition new_processor : PayloadProcessor := mkProcessor [] 0 [].

Definition count_error (p : PayloadProcessor) : PayloadProcessor :=
  mkProcessor (pending_files_ p) (num_errors_ p + 1) (uploader_ p).

Definition ConsumerEventCallback (p : PayloadProcessor) (event : Event) : outcome PayloadProcessor :=
  let entry := ev_entry event in
  let key := any_key (en_id entry) in
  if decide (en_type entry = kEmpty) then Ret (count_error p) else
  path ← entry_path entry;
  p ← (match map_find key (pending_files_ p) with
       | Some _ => Ret p
       | None =>
           c ← Init init (algorithm (en_id entry));
           let handle := zlen (uploader_ p) in
           Ret (mkProcessor (map_set key (mkFileInfo handle (en_size entry) 0 c) (pending_files_ p)) (num_errors_ p)
                  (uploader_ p ++ [InitStreamedUpload handle]))
       end);
  match map_find key (pending_files_ p) with
  | None => Fail AssertFailed
  | Some info =>
      let info := mkFileInfo (fi_handle info) (fi_total_size info) (u64 (fi_current_size info + zlen (ev_buf event)))
                    (update (fi_hash_context info) (ev_buf event)) in
      let p := mkProcessor (map_set key info (pending_files_ p)) (num_errors_ p)
                 (uploader_ p ++ [ScheduleUpload (fi_handle info) (ev_buf event)]) in
      if fi_current_size info =? fi_total_size info then
        let file_hash := Final final (fi_hash_context info) (algorithm (en_id entry)) kSuffixNone in
        if negb (any_eq file_hash (en_id entry)) then Ret (count_error p) else
        Ret (mkProcessor (map_erase key (pending_files_ p)) (num_errors_ p)
               (uploader_ p ++ [ScheduleCommit (fi_handle info) (remote_path entry path) (en_id entry)]))
      else Ret p
  end.

Fixpoint NotifyListeners (p : PayloadProcessor) (events : list Event) : outcome PayloadProcessor :=
  match events with
  | [] => Ret p
  | event :: events => p ← ConsumerEventCallback p event; NotifyListeners p events
  end.

(** The loop of [Process]. After a failing [read] the consumer is called with
    2^32 - 1 as the size of a buffer of 10 MB. *)
Fixpoint process_loop (c : Consumer) (p : PayloadProcessor) (reads : list fd_read) : outcome (Consumer * PayloadProcessor) :=
  match reads with
  | [] => Ret (c, p)
  | FdError :: _ => if decide (c_state c = kStateContinue) then Fail OutOfBounds else Ret (c, p)
  | FdBytes buf :: reads =>
      '(consumer_state, events, c) ← ConsumeNext init update final c buf;
      p ← NotifyListeners p events;
      if decide (consumer_state ≠ kStateContinue ∧ consumer_state ≠ kStateDone) then Ret (c, p)
      else if (zlen buf >? 0) && bool_decide (consumer_state ≠ kStateDone) then process_loop c p reads else Ret (c, p)
  end.

Definition Finalize (p : PayloadProcessor) (num_uploader_errors : Z) : Result :=
  if num_uploader_errors >? 0 then kUploaderError
  else if num_errors_ p >? 0 then kOtherError
  else kSuccess.

(** [init_result] and [num_uploader_errors] are what the uploader reports. *)
Definition Process (init_result : Result) (num_uploader_errors : Z) (header_digest : bytes) (header_size : Z) (reads : list fd_read)
    : outcome (Result * PayloadProcessor) :=
  match init_result with
  | kSuccess =>
      digest ← MkFromHexPtr header_digest kSuffixNone;
      '(_, p) ← process_loop (new_consumer digest (u32 header_size)) new_processor reads;
      _ ← cassert (bool_decide (length (pending_files_ p) = 0%nat));
      Ret (Finalize p num_uploader_errors, p)
  | _ => Ret (init_result, new_processor)
  end.
End Receiver.
Arguments mkFileInfo {_}.
Arguments mkProcessor {_}.
Arguments pending_files_ {_}.
Arguments num_errors_ {_}.
Arguments uploader_ {_}.
Arguments new_processor {_}.
Arguments count_error {_}.

(** ** What is stored *)

(** The effect of the calls on the storage: an object for every commit, with its
    hash, its path and the buffers that were sent to its handle. *)
Fixpoint run_uploader (calls : list upload_call) (streams : gmap Z bytes) : list (any * bytes * bytes) :=
  match calls with
  | [] => []
  | InitStreamedUpload h :: calls => run_uploader calls (<[h := []]> streams)
  | ScheduleUpload h buf :: calls => run_uploader calls (<[h := default [] (streams !! h) ++ buf]> streams)
  | ScheduleCommit h path id :: calls => (id, path, default [] (streams !! h)) :: run_uploader calls streams
  end.

Fixpoint streams_after (calls : list upload_call) (streams : gmap Z bytes) : gmap Z bytes :=
  match calls with
  | [] => streams
  | InitStreamedUpload h :: calls => streams_after calls (<[h := []]> streams)
  | ScheduleUpload h buf :: calls => streams_after calls (<[h := default [] (streams !! h) ++ buf]> streams)
  | ScheduleCommit _ _ _ :: calls => streams_after calls streams
  end.

Lemma run_uploader_app l1 l2 s : run_uploader (l1 ++ l2) s = run_uploader l1 s ++ run_uploader l2 (streams_after l1 s).
Proof. revert s. induction l1 as [|[] l1 IH]; intros s; cbn; try done. f_equal. apply IH. Qed.

Lemma streams_after_app l1 l2 s : streams_after (l1 ++ l2) s = streams_after l2 (streams_after l1 s).
Proof. revert s. induction l1 as [|[] l1 IH]; intros s; cbn; done. Qed.

(** [operator<] and [operator==] of hashes are those of their keys. *)
Lemma any_key_eq h1 h2 : any_ok h1 → any_ok h2 → any_eq h1 h2 = true ↔ any_key h1 = any_key h2.
Proof.
  intros [L1 _ _ _] [L2 _ _ _]. unfold any_eq, any_key, significant. pose proof (digest_size_bounds (algorithm h1)).
  case_decide as Ha.
  - rewrite digest_eq_iff by (rewrite ?L1, ?L2; lia). rewrite Ha. split; [by intros ->|by intros [=]].
  - split; [done|]. intros [= Hc _]. destruct (algorithm h1), (algorithm h2); done.
Qed.

Section Storing.
Context {context : Type} (init : Algorithms → context) (update : context → bytes → context) (final : context → bytes).
Context (H : Algorithms → bytes → bytes).
Context (H_pieces : ∀ a pieces, a ≠ kAny → final (foldl update (init a) pieces) = H a (concat pieces)).

(** An object whose contents have the hash that its entry says. *)
Definition object_good (e : IndexEntry) (c : bytes) : Prop :=
  any_ok (en_id e) ∧ any_eq (hash_of H (algorithm (en_id e)) kSuffixNone c) (en_id e) = true ∧
  en_size e = zlen c ∧ zlen c < 2 ^ 32 ∧ en_type e ≠ kEmpty.

(** Where it is stored. *)
Definition path_of (e : IndexEntry) : bytes := remote_path e (en_name e).

Lemma entry_path_ok e : any_ok (en_id e) → en_type e ≠ kEmpty →
  ∃ path, entry_path e = Ret path ∧ remote_path e path = path_of e.
Proof.
  intros Hok Ht. unfold entry_path, path_of, remote_path. destruct (en_type e) eqn:E; [done|..].
  - rewrite decide_False, !decide_True by done. by eexists.
  - rewrite decide_True, !decide_False by done. unfold MakePath. rewrite MakePathExplicit_ok by done. by eexists.
Qed.

(** The processor while it receives an object of which it has the parts [ps]. *)
Definition receiving (n calls_errors : Z) (calls : list upload_call) (e : IndexEntry) (ps : list bytes) : PayloadProcessor (context := context) :=
  mkProcessor [(any_key (en_id e), mkFileInfo n (en_size e) (zlen (concat ps)) (foldl update (init (algorithm (en_id e))) ps))]
    calls_errors calls.

Lemma map_find_one {V} (k : Z * bytes) (v : V) : map_find k [(k, v)] = Some v.
Proof. cbn [map_find]. by rewrite bool_decide_true. Qed.

Lemma map_set_nil {V} (k : Z * bytes) (v : V) : map_set k v [] = [(k, v)].
Proof. done. Qed.

Lemma map_set_one {V} (k : Z * bytes) (v w : V) : map_set k w [(k, v)] = [(k, w)].
Proof. cbn [map_set]. by rewrite key_irrefl, bool_decide_true. Qed.

Lemma map_erase_one {V} (k : Z * bytes) (v : V) : map_erase k [(k, v)] = [].
Proof. unfold map_erase. rewrite filter_cons_False; [done|]. cbn. naive_solver. Qed.

Lemma callback_new p e b : any_ok (en_id e) → en_type e ≠ kEmpty → pending_files_ p = [] →
  ConsumerEventCallback init update final p (mkEvent e b)
  = ConsumerEventCallback init update final
      (receiving (zlen (uploader_ p)) (num_errors_ p) (uploader_ p ++ [InitStreamedUpload (zlen (uploader_ p))]) e []) (mkEvent e b).
Proof.
  intros Hok Ht Hp. destruct (entry_path_ok e Hok Ht) as (path & Hpath & _).
  unfold ConsumerEventCallback. cbn [ev_entry ev_buf]. rewrite decide_False, Hpath by done.
  unfold receiving. cbn [pending_files_ num_errors_ uploader_]. rewrite Hp, map_find_one. cbn [map_find].
  unfold Init. rewrite decide_False by apply Hok. exec. cbn [pending_files_]. rewrite map_set_nil, !map_find_one. by rewrite (decide_False (P := en_type e = kEmpty)).
Qed.

Lemma callback_part n errs calls e ps b c : object_good e c → zlen (concat ps ++ b) < zlen c →
  ConsumerEventCallback init update final (receiving n errs calls e ps) (mkEvent e b)
  = Ret (receiving n errs (calls ++ [ScheduleUpload n b]) e (ps ++ [b])).
Proof.
  intros (Hok & _ & Hsize & H32 & Ht) Hlt. destruct (entry_path_ok e Hok Ht) as (path & Hpath & _).
  unfold ConsumerEventCallback. cbn [ev_entry ev_buf]. rewrite decide_False, Hpath by done. unfold receiving. cbn [pending_files_ num_errors_ uploader_].
  rewrite map_find_one. exec. cbn [pending_files_]. rewrite map_find_one. cbn [fi_handle fi_total_size fi_current_size fi_hash_context].
  rewrite zlen_app in Hlt. pose proof (zlen_nonneg b). pose proof (zlen_nonneg (concat ps)).
  rewrite u64_small by (unfold is_u64; lia). rewrite Hsize, eqb_false by lia.
  rewrite map_set_one, concat_app, foldl_app. cbn [concat foldl]. rewrite app_nil_r, zlen_app, <- Hsize.
  done.
Qed.

Lemma callback_last n errs calls e ps b c : object_good e c → concat ps ++ b = c →
  ConsumerEventCallback init update final (receiving n errs calls e ps) (mkEvent e b)
  = Ret (mkProcessor [] errs ((calls ++ [ScheduleUpload n b]) ++ [ScheduleCommit n (path_of e) (en_id e)])).
Proof.
  intros (Hok & Hhash & Hsize & H32 & Ht) <-. destruct (entry_path_ok e Hok Ht) as (path & Hpath & Hres).
  unfold ConsumerEventCallback. cbn [ev_entry ev_buf]. rewrite decide_False, Hpath by done. unfold receiving. cbn [pending_files_ num_errors_ uploader_].
  rewrite map_find_one. exec. cbn [pending_files_]. rewrite map_find_one. cbn [fi_handle fi_total_size fi_current_size fi_hash_context].
  rewrite zlen_app in *. pose proof (zlen_nonneg b). pose proof (zlen_nonneg (concat ps)).
  rewrite u64_small by (unfold is_u64; lia). rewrite Hsize, Z.eqb_refl, Hres.
  change (update (foldl update (init (algorithm (en_id e))) ps) b) with (foldl update (foldl update (init (algorithm (en_id e))) ps) [b]).
  rewrite <- foldl_app. rewrite (Final_ok init update final H H_pieces) by apply Hok. rewrite concat_app. cbn [concat]. rewrite app_nil_r.
  rewrite Hhash. cbn [negb pending_files_ num_errors_ uploader_]. by rewrite map_set_one, map_erase_one.
Qed.

Lemma NotifyListeners_app p D1 D2 : NotifyListeners init update final p (D1 ++ D2)
  = (p ← NotifyListeners init update final p D1; NotifyListeners init update final p D2).
Proof.
  revert p. induction D1 as [|ev D1 IH]; intros p; [done|]. cbn [app NotifyListeners].
  destruct (ConsumerEventCallback init update final p ev); exec; done.
Qed.

(** The calls for an object. *)
Definition object_calls (n : Z) (e : IndexEntry) (parts : list bytes) : list upload_call :=
  (ScheduleUpload n <$> parts) ++ [ScheduleCommit n (path_of e) (en_id e)].

Lemma notify_parts n errs e c parts : object_good e c → parts = [[]] ∨ parts ≠ [] ∧ Forall (λ b, b ≠ []) parts →
  ∀ ps calls, concat ps ++ concat parts = c →
  NotifyListeners init update final (receiving n errs calls e ps) (mkEvent e <$> parts)
  = Ret (mkProcessor [] errs (calls ++ object_calls n e parts)).
Proof.
  intros Hgood. induction parts as [|b parts IH]; intros Hparts ps calls Hc; [naive_solver|].
  rewrite fmap_cons. cbn [NotifyListeners concat] in *. destruct (decide (parts = [])) as [->|Hne].
  - cbn [concat] in Hc. rewrite app_nil_r in Hc. rewrite (callback_last _ _ _ _ _ _ c) by done. exec. cbn.
    by rewrite <- app_assoc.
  - destruct Hparts as [[= -> ->]|[_ Hall]]; [done|]. apply Forall_cons in Hall as [Hb Hall].
    rewrite (callback_part _ _ _ _ _ _ c Hgood).
    2: { rewrite <- Hc, !zlen_app. destruct parts as [|b' parts]; [done|]. apply Forall_cons in Hall as [Hb'%zlen_pos _].
         cbn [concat]. rewrite zlen_app. pose proof (zlen_nonneg (concat parts)). lia. }
    exec. rewrite IH; [|by right|rewrite concat_app; cbn [concat]; by rewrite app_nil_r, <- app_assoc].
    unfold object_calls. rewrite fmap_cons. by rewrite <- !app_assoc.
Qed.

Lemma run_object_calls n e parts : ∀ (t : gmap Z bytes) pre, t !! n = Some pre →
  run_uploader (object_calls n e parts) t = [(en_id e, path_of e, pre ++ concat parts)].
Proof.
  unfold object_calls. induction parts as [|b parts IH]; intros t pre Hs.
  - cbn. rewrite Hs. cbn. by rewrite app_nil_r.
  - rewrite fmap_cons. cbn [app run_uploader concat]. rewrite (IH _ (pre ++ b)); [by rewrite <- app_assoc|].
    rewrite Hs. apply lookup_insert_eq.
Qed.

(** The parts of good objects are stored, object by object. *)
Lemma notify_delivered objs D : delivered objs D → Forall (λ o, object_good o.1 o.2) objs → ∀ errs calls,
  ∃ calls', NotifyListeners init update final (mkProcessor [] errs calls) D = Ret (mkProcessor [] errs (calls ++ calls')) ∧
    ∀ s, run_uploader calls' s = (λ o, (en_id o.1, path_of o.1, o.2)) <$> objs.
Proof.
  induction 1 as [|e parts objs D Hparts _ IH]; intros Hgood errs calls.
  { exists []. by rewrite app_nil_r. }
  apply Forall_cons in Hgood as [Hg Hgood]. cbn [fst snd] in Hg. rewrite NotifyListeners_app.
  assert (NotifyListeners init update final (mkProcessor [] errs calls) (mkEvent e <$> parts)
    = Ret (mkProcessor [] errs ((calls ++ [InitStreamedUpload (zlen calls)]) ++ object_calls (zlen calls) e parts))) as ->.
  { destruct parts as [|b parts]; [naive_solver|]. rewrite fmap_cons. cbn [NotifyListeners].
    rewrite callback_new by (done || apply Hg). cbn [uploader_ num_errors_].
    apply (notify_parts (zlen calls) errs e _ (b :: parts) Hg Hparts [] _ eq_refl). }
  exec. destruct (IH Hgood errs ((calls ++ [InitStreamedUpload (zlen calls)]) ++ object_calls (zlen calls) e parts))
    as (calls' & -> & Hrun).
  exists (InitStreamedUpload (zlen calls) :: object_calls (zlen calls) e parts ++ calls'). split.
  - do 2 f_equal. by rewrite <- !app_assoc.
  - intros s. rewrite fmap_cons. cbn [run_uploader fst snd]. rewrite run_uploader_app, Hrun.
    by rewrite (run_object_calls _ _ _ _ []) by apply lookup_insert_eq.
Qed.

Lemma ConsumeNext_state c buf st D c' : ConsumeNext init update final c buf = Ret (st, D, c') → st = c_state c'.
Proof.
  unfold ConsumeNext. destruct (zlen buf =? 0); [by intros [= <- <- <-]|].
  case_decide; [by intros [= <- <- <-]|]. case_decide as Hc; [by intros [= <- <- <-]|].
  assert (c_state c = kStateContinue) as Hcont by (by destruct (decide (c_state c = kStateContinue))).
  set (nb := Z.min _ _). set (c1 := if nb =? 0 then c else _).
  assert (c_state c1 = kStateContinue) as Hc1 by (unfold c1; by destruct (nb =? 0)).
  destruct (c_pos c1 <? _); [by intros [= <- <- <-]|].
  assert (∀ c, ConsumePayload c (drop (Z.to_nat nb) buf) = Ret (st, D, c') → st = c_state c') as Hpay.
  { intros c2. unfold ConsumePayload. intros (r & _ & Hr)%bind_Ret. destruct r as [[[[? ?] ?] ?] ?]. by injection Hr as <- <- <-. }
  destruct (_ && _); [|apply Hpay]. intros (dg & _ & Hr)%bind_Ret. destruct (negb (any_eq _ _)); [by injection Hr as <- <- <-|].
  apply bind_Ret in Hr as ([[ok size] index] & _ & Hr). destruct (negb ok); [by injection Hr as <- <- <-|].
  destruct (_ && _); [by injection Hr as <- <- <-|]. by eapply Hpay.
Qed.

Lemma feed_after_done c buf chunks D c' : c_state c = kStateDone → buf ≠ [] →
  feed init update final c (buf :: chunks) = Ret (D, c') → c_state c' ≠ kStateDone.
Proof.
  intros Hc Hb. cbn [feed]. unfold ConsumeNext. apply zlen_pos in Hb. rewrite eqb_false by lia. rewrite decide_True by done. exec.
  destruct (feed_stopped init update final chunks (with_state c kStateTrailingBytes)) as (c2 & -> & Hc2); [done|].
  exec. intros [= _ <-]. by destruct Hc2 as [-> | [? _]].
Qed.

(** While the stream lasts, the loop of [Process] does what [feed] says. *)
Lemma process_feed chunks : ∀ c p D c' p', Forall (λ b, b ≠ []) chunks → feed init update final c chunks = Ret (D, c') →
  c_state c' = kStateDone → NotifyListeners init update final p D = Ret p' →
  process_loop init update final c p (FdBytes <$> chunks) = Ret (c', p').
Proof.
  induction chunks as [|buf chunks IH]; intros c p D c' p' Hne Hf Hst HD.
  { cbn in *. injection Hf as <- <-. by injection HD as <-. }
  apply Forall_cons in Hne as [Hb Hne]. rewrite fmap_cons. cbn [process_loop]. cbn [feed] in Hf.
  apply bind_Ret in Hf as ([[st D1] c1] & Hc1 & Hf). pose proof (ConsumeNext_state _ _ _ _ _ Hc1) as ->.
  apply bind_Ret in Hf as ([D2 c2] & Hf & [= <- <-]). rewrite Hc1. exec. rewrite NotifyListeners_app in HD.
  apply bind_Ret in HD as (p1 & -> & HD). exec. apply zlen_pos in Hb as Hb'. rewrite gtb_true by lia. cbn [andb].
  destruct (decide (c_state c1 = kStateContinue)) as [Hcont|Hstop].
  - rewrite decide_False, bool_decide_true by (rewrite Hcont; naive_solver). by apply (IH c1 p1 D2).
  - destruct (feed_stopped init update final chunks c1 Hstop) as (c3 & Hf3 & Hc3). rewrite Hf in Hf3. injection Hf3 as -> ->.
    assert (c_state c1 = kStateDone) as Hdone by (destruct Hc3 as [|[? ?]]; congruence).
    rewrite decide_False, bool_decide_false by (rewrite Hdone; naive_solver).
    injection HD as <-. destruct chunks as [|b2 chunks]; [by injection Hf as <-|].
    apply Forall_cons in Hne as [Hb2 _]. exfalso. by apply (feed_after_done _ _ _ _ _ Hdone Hb2 Hf).
Qed.

Context (H_size : ∀ a m, a ≠ kAny → zlen (H a m) = kDigestSizes a).
Context (H_bytes : ∀ a m, a ≠ kAny → bytes_ok (H a m)).

(** The digest as the sender states it in its message: that of the header, as
    hexadecimal text without suffix. *)
Lemma digest_text m : ∃ text, ToString (hash_of H kSha1 kSuffixNone m) false = Ret text ∧
  MkFromHexPtr text kSuffixNone = Ret (hash_of H kSha1 kSuffixNone m) ∧ zlen text = 40.
Proof.
  set (D := H kSha1 m). assert (zlen D = kDigestSizes kSha1) as HD by by apply H_size.
  assert (bytes_ok D) as Hb by by apply H_bytes.
  assert (any_ok (hash_of H kSha1 kSuffixNone m)) as Hok by by apply padded_ok.
  exists (hex_string (hash_of H kSha1 kSuffixNone m)). rewrite ToString_ok by done. cbn [andb]. rewrite app_nil_r.
  split; [done|]. split; [|by rewrite zlen_hex_string by apply any_digest, Hok].
  unfold hash_of. fold D. unfold hex_string, significant. cbn [padded algorithm digest].
  rewrite take_app_zlen by done. by apply MkFromHexPtr_ok.
Qed.

Lemma GetDigest_ok s : GetDigest init update final s (Any (replicate 20 0) kSha1 kSuffixNone)
  = Ret (hash_of H kSha1 kSuffixNone (pr_header s)).
Proof.
  unfold GetDigest, HashString, HashMem, Init. cbn [algorithm suffix]. rewrite decide_False by done. exec.
  change (update (init kSha1) (pr_header s)) with (foldl update (init kSha1) [pr_header s]).
  rewrite (Final_ok init update final H H_pieces) by done. cbn [concat]. by rewrite app_nil_r.
Qed.

Definition bucket_hashed (b : Bucket) : Prop :=
  any_eq (hash_of H (algorithm (bk_id b)) kSuffixNone (bk_content b)) (bk_id b) = true.

(** An object in the storage that came from the bucket. *)
Definition stored_from (b : Bucket) (o : any * bytes * bytes) : Prop :=
  any_eq o.1.1 (bk_id b) = true ∧ suffix o.1.1 = suffix (bk_id b) ∧ o.1.2 = [] ∧ o.2 = bk_content b.

Lemma entries_good bs es : Forall bucket_small bs → Forall bucket_hashed bs → Forall2 entry_of bs es →
  Forall (λ o, object_good o.1 o.2) (zip es (bk_content <$> bs)) ∧
  Forall2 stored_from bs ((λ o, (en_id o.1, path_of o.1, o.2)) <$> zip es (bk_content <$> bs)).
Proof.
  intros Hsmall Hhash Hes. revert Hsmall Hhash. induction Hes as [|b e bs es (Heq & Hsuf & Hok & Hsize & Ht & Hn) _ IH]; intros Hsmall Hhash.
  { split; constructor. }
  apply Forall_cons in Hsmall as [[[Hid _] Hs] Hsmall]. apply Forall_cons in Hhash as [Hh Hhash].
  destruct (IH Hsmall Hhash) as [IH1 IH2]. rewrite fmap_cons. cbn [zip zip_with]. rewrite fmap_cons. split; constructor; try done.
  - assert (any_key (en_id e) = any_key (bk_id b)) as Hkey by by apply any_key_eq.
    assert (algorithm (en_id e) = algorithm (bk_id b)) as Halg.
    { injection Hkey as Hc _. destruct (algorithm (en_id e)), (algorithm (bk_id b)); done. }
    cbn [fst snd]. split_and!; [done| |done|done|by rewrite Ht]. rewrite Halg. unfold bucket_hashed in Hh.
    apply any_key_eq; [|done|rewrite Hkey; apply any_key_eq; [|done|done]];
      apply padded_ok; (by apply H_bytes, Hid) || (by apply H_size, Hid) || apply Hid || done.
  - cbn [fst snd]. unfold path_of, remote_path. by rewrite decide_False by (by rewrite Ht).
Qed.

(** What was packed is stored. The stream that the producer writes for a
    pack, the digest and the size of the header as they are sent with it, in
    pieces of any size: the receiver reports success, and has stored every bucket
    of the pack, in order, with its contents and under its hash, if the hashes of
    the buckets are those of their contents. *)
Theorem payload_stored h p bs chunks : pack_ok h p → Forall2 (λ a b, h !! a = Some b) (buckets_ p) bs →
  Forall bucket_small bs → Forall bucket_hashed bs → Forall (λ b, b ≠ []) chunks →
  ∃ s d text, new_producer h p = Ret s ∧
    GetDigest init update final s (Any (replicate 20 0) kSha1 kSuffixNone) = Ret d ∧ ToString d false = Ret text ∧
    (concat chunks = pr_header s ++ concat (bk_content <$> bs) →
     ∃ r, Process init update final kSuccess 0 text (zlen (pr_header s)) (FdBytes <$> chunks) = Ret (kSuccess, r) ∧
       Forall2 stored_from bs (run_uploader (uploader_ r) ∅)).
Proof.
  intros Hok Hbs Hsmall Hhash Hne. destruct (new_producer_ok h p bs Hok Hbs Hsmall) as (header & es & -> & Hlen & Hparse & Hes).
  set (s := mkProducer FromPack 0 0 0 header). destruct (digest_text header) as (text & Htext & Hback & _).
  exists s, (hash_of H kSha1 kSuffixNone header), text. split; [done|]. split; [apply GetDigest_ok|]. split; [done|].
  intros Hcat. destruct (digest_agrees init update final header s (Any (replicate 20 0) kSha1 kSuffixNone)) as (d & dg & Hd & Hdg & Heq); [done|done|].
  rewrite GetDigest_ok in Hd. injection Hd as <-. destruct (entries_good bs es Hsmall Hhash Hes) as [Hgood Hstored].
  assert (zlen es < 2 ^ 32) as Hn.
  { destruct Hok as [_ _ _ _ _ Hc]. unfold kMaxObjects, zlen in *. rewrite <- (Forall2_length _ _ _ Hes), <- (Forall2_length _ _ _ Hbs). lia. }
  destruct (feed_stream init update final _ header dg (size_ p) es (bk_content <$> bs) chunks Hdg Heq Hparse) as (D & c & Hf & Hst & HD);
    [by apply objects_of_buckets|done|done|done|].
  destruct (notify_delivered _ D HD Hgood 0 []) as (calls & HN & Hrun).
  unfold Process, new_processor. change (pr_header s) with header. rewrite Hback. exec. rewrite u32_small by (unfold is_u32, kMaxObjects in *; cbn; lia).
  rewrite (process_feed chunks _ _ D c _ Hne Hf Hst HN). exec. eexists. split; [done|]. cbn [uploader_]. by rewrite Hrun.
Qed.

(** ** What is not reported *)

Lemma process_silent chunks : ∀ c p c', feed init update final c chunks = Ret ([], c') →
  ∃ c'', process_loop init update final c p (FdBytes <$> chunks) = Ret (c'', p).
Proof.
  induction chunks as [|buf chunks IH]; intros c p c' Hf; [by exists c|]. rewrite fmap_cons. cbn [process_loop feed] in *.
  apply bind_Ret in Hf as ([[st D1] c1] & -> & Hf). apply bind_Ret in Hf as ([D2 c2] & Hf & [= HD <-]).
  apply app_nil in HD as [-> ->]. exec. cbn [NotifyListeners]. exec.
  case_decide; [by exists c1|]. destruct (_ && _); [by eapply IH|by exists c1].
Qed.

(** C20. A stream whose header does not have the announced digest stores
    nothing, but the receiver reports success: the state of the consumer does not
    enter the result. *)
Theorem corrupt_payload_success text d n chunks : MkFromHexPtr text kSuffixNone = Ret d → algorithm d ≠ kAny → 0 < n < 2 ^ 32 →
  (∀ raw dg, zlen raw = n → raw `prefix_of` concat chunks → header_digest init update final d raw = Ret dg → any_eq dg d = false) →
  Process init update final kSuccess 0 text n (FdBytes <$> chunks) = Ret (kSuccess, new_processor).
Proof.
  intros Ht Ha Hn Hbad. unfold Process. rewrite Ht. exec. rewrite u32_small by (unfold is_u32; lia).
  assert (∃ c', feed init update final (new_consumer d n) chunks = Ret ([], c')) as [c' Hf].
  { destruct (n >? 100 * kMaxObjects) eqn:Hbig.
    - destruct (feed_stopped init update final chunks (new_consumer d n)) as (c & Hf & _); [|by exists c].
      unfold new_consumer. by rewrite Hbig.
    - rewrite Z.gtb_ltb in Hbig. apply Z.ltb_ge in Hbig. rewrite new_consumer_reading by done.
      destruct (feed_rejected init update final d n chunks Ha Hn Hbad chunks []) as (c & Hf & _);
        [done|rewrite zlen_nil; lia|by exists c]. }
  destruct (process_silent chunks _ new_processor c' Hf) as (c'' & ->). by exec.
Qed.

(** An object with the wrong hash is counted as an error but stays in
    [pending_files_], which [Process] asserts to be empty. *)
Lemma wrong_hash_stays_pending p e b : any_ok (en_id e) → en_type e ≠ kEmpty → pending_files_ p = [] →
  en_size e = zlen b → zlen b < 2 ^ 32 →
  any_eq (hash_of H (algorithm (en_id e)) kSuffixNone b) (en_id e) = false →
  ∃ p' info, ConsumerEventCallback init update final p (mkEvent e b) = Ret p' ∧
    pending_files_ p' = [(any_key (en_id e), info)] ∧ num_errors_ p' = num_errors_ p + 1.
Proof.
  intros Hok Ht Hp Hsize H32 Hbad. rewrite callback_new by done.
  destruct (entry_path_ok e Hok Ht) as (path & Hpath & _). unfold ConsumerEventCallback. cbn [ev_entry ev_buf].
  rewrite decide_False, Hpath by done. unfold receiving. cbn [pending_files_ num_errors_ uploader_ concat foldl].
  rewrite map_find_one. exec. cbn [pending_files_]. rewrite map_find_one. cbn [fi_handle fi_total_size fi_current_size fi_hash_context].
  rewrite zlen_nil, Z.add_0_l. pose proof (zlen_nonneg b). rewrite u64_small by (unfold is_u64; lia). rewrite Hsize, Z.eqb_refl.
  change (update (init (algorithm (en_id e))) b) with (foldl update (init (algorithm (en_id e))) [b]).
  rewrite (Final_ok init update final H H_pieces) by apply Hok. cbn [concat]. rewrite app_nil_r, Hbad. cbn [negb].
  eexists _, _. split; [done|]. cbn [count_error pending_files_ num_errors_]. by rewrite map_set_one.
Qed.
End Storing.

(** ** Witnesses *)

Module ReceiverWitness.
Import HashWitness.

Lemma ck_bytes a m : a ≠ kAny → bytes_ok (checksum a m).
Proof. intros _. unfold checksum. apply Forall_replicate. apply u8_range. Qed.

(** Two objects with their checksums, the second one with a suffix. *)
Definition hashed (content : bytes) (s : Z) : Bucket :=
  mkBucket content kInitialSize (padded (checksum kSha1 content) kSha1 s) kCas [].
Definition heap_r : heap := <[1 := hashed [1; 2; 3] 0]> (<[2 := hashed [9] 67]> ∅).
Definition pack_r : ObjectPack := mkPack kDefaultLimit 4 ∅ [1; 2].
Definition buckets_r : list Bucket := [hashed [1; 2; 3] 0; hashed [9] 67].

Lemma pack_r_ok : pack_ok heap_r pack_r.
Proof. split; try done; apply (bool_decide_unpack _); by vm_compute. Qed.

Lemma hashed_ok content s : is_u8 s → s ≠ chr_nl → s ≠ chr_space → zlen content < 2 ^ 32 →
  bucket_small (hashed content s) ∧ bucket_hashed checksum (hashed content s).
Proof.
  intros Hs H1 H2 Hc. assert (any_ok (padded (checksum kSha1 content) kSha1 s)) as Hok.
  { apply padded_ok; try done. by apply ck_bytes. }
  split; [by split; [split_and!|]|]. unfold bucket_hashed, any_eq. cbn [hashed bk_id padded algorithm digest hash_of bk_content].
  rewrite decide_True by done. by apply digest_eq_take.
Qed.

Definition stream_r : bytes :=
  match new_producer heap_r pack_r with Ret s => pr_header s ++ concat (bk_content <$> buckets_r) | Fail _ => [] end.
Definition chunks_r : list bytes := [take 5 stream_r; drop 5 stream_r].

Lemma payload_stored_witness : ∃ s d text, new_producer heap_r pack_r = Ret s ∧
  GetDigest ck_init ck_update ck_final s (Any (replicate 20 0) kSha1 kSuffixNone) = Ret d ∧ ToString d false = Ret text ∧
  ∃ r, Process ck_init ck_update ck_final kSuccess 0 text (zlen (pr_header s)) (FdBytes <$> chunks_r) = Ret (kSuccess, r) ∧
    Forall2 stored_from buckets_r (run_uploader (uploader_ r) ∅).
Proof.
  destruct (payload_stored ck_init ck_update ck_final checksum ck_pieces ck_size ck_bytes heap_r pack_r buckets_r chunks_r)
    as (s & d & text & Hs & Hd & Ht & Hr); cycle 5.
  { exists s, d, text. split_and!; [done..|]. apply Hr. vm_compute in Hs. injection Hs as <-. by vm_compute. }
  - exact pack_r_ok.
  - repeat (constructor; [done|]). constructor.
  - repeat (constructor; [by apply hashed_ok|]). constructor.
  - repeat (constructor; [by apply hashed_ok|]). constructor.
  - constructor; [by vm_compute|]. constructor; [by vm_compute|]. constructor.
Defined.

(** The hash 0101...01 as text. *)
Definition text_r : bytes := concat (replicate 20 [48; 49]).

Lemma corrupt_payload_success_witness :
  Process ck_init ck_update ck_final kSuccess 0 text_r 2 (FdBytes <$> [[1]; [2; 3]]) = Ret (kSuccess, new_processor).
Proof.
  apply (corrupt_payload_success ck_init ck_update ck_final text_r (Any (replicate 20 1) kSha1 0) 2 [[1]; [2; 3]]).
  - by vm_compute.
  - discriminate.
  - done.
  - intros [|a [|b [|c raw]]] dg Hz [rest Hp] Hd; try discriminate Hz.
    + cbn in Hp. injection Hp as <- <- _. vm_compute in Hd. injection Hd as <-. by vm_compute.
    + exfalso. unfold zlen in Hz. cbn in Hz. lia.
Defined.
End ReceiverWitness.
