(* ===== verification/Session.v ===== *)
(** * Publishing through a gateway (src/cvmfs/session_context.cc)

    [SessionContext] collects the buckets of a publish operation in object packs,
    hands full packs to a thread that uploads them, and starts new ones.  The
    session works on the packs of a process ([system] of Pack.v); the thread is a
    step of its own. *)

From stdpp Require Import base numbers list gmap.
From stdpp Require Import strings.
From S2P Require Import Prelude Bytes StringUtil Hash Pack PackStream.

Open Scope Z_scope.

(** ** The request body: [SendCB] *)

Record CurlSendPayload := mkSend { json_message : bytes; pack_serializer : Producer; send_index : Z }.

(** [memcpy] to the beginning of the buffer. *)
Definition overwrite (buf data : bytes) : bytes := data ++ drop (length data) buf.

(** The loop of [SendCB]: [out] is what was written to the buffer. *)
Fixpoint send_loop (fuel : nat) (h : heap) (p : ObjectPack) (payload : CurlSendPayload) (max_chunk_size current_chunk_size : Z)
    (out : bytes) : outcome (bytes * Z * CurlSendPayload) :=
  match fuel with
  | O => Fail OutOfFuel
  | S fuel =>
      if current_chunk_size <? max_chunk_size then
        let json := json_message payload in
        let index := send_index payload in
        if index <? zlen json then
          let read_size := Z.min (max_chunk_size - current_chunk_size) (zlen json - index) in
          data ← load json index read_size;
          send_loop fuel h p (mkSend json (pack_serializer payload) (index + read_size)) max_chunk_size
            (current_chunk_size + read_size) (overwrite out data)
        else
          let max_read_size := max_chunk_size - current_chunk_size in
          '(data, s) ← ProduceNext h p (pack_serializer payload) (u32 max_read_size);
          let payload := mkSend json s index in
          let out := take (Z.to_nat current_chunk_size) out ++ data in
          if zlen data =? 0 then Ret (out, current_chunk_size, payload)
          else send_loop fuel h p payload max_chunk_size (current_chunk_size + zlen data) out
      else Ret (out, current_chunk_size, payload)
  end.

Definition SendCB (h : heap) (p : ObjectPack) (payload : CurlSendPayload) (max_chunk_size : Z) : outcome (bytes * CurlSendPayload) :=
  if max_chunk_size <? 1 then Ret ([], payload) else
  '(out, current_chunk_size, payload) ← send_loop 4 h p payload max_chunk_size 0 [];
  Ret (take (Z.to_nat current_chunk_size) out, payload).

(** ** The request: [DoUpload] *)

Definition text (s : String.string) : bytes := (λ c, Z.of_N (Ascii.N_of_ascii c)) <$> String.list_ascii_of_string s.
Definition chr_quote : Z := 34.
Definition quoted (b : bytes) : bytes := chr_quote :: b ++ [chr_quote].

Definition APIVersion : Z := 4.

Definition json_msg (session_token digest : bytes) (header_size : Z) : bytes :=
  text "{"%string ++ quoted (text "session_token"%string) ++ text " : "%string ++ quoted session_token
  ++ text ", "%string ++ quoted (text "payload_digest"%string) ++ text " : "%string ++ quoted digest
  ++ text ", "%string ++ quoted (text "header_size"%string) ++ text " : "%string ++ quoted (StringifyInt header_size)
  ++ text ", "%string ++ quoted (text "api_version"%string) ++ text " : "%string ++ quoted (StringifyInt APIVersion) ++ text "}"%string.

(** The request of [DoUpload]: the digest and the size of the header that the
    message names, what [SendCB] sends, and the size of it all. *)
Record UploadRequest := mkRequest { rq_digest : bytes; rq_header_size : Z; rq_payload : CurlSendPayload; rq_size : Z }.

Definition DoUpload {context : Type} (init : Algorithms → context) (update : context → bytes → context) (final : context → bytes)
    (h : heap) (p : ObjectPack) (session_token : bytes) : outcome UploadRequest :=
  serializer ← new_producer h p;
  payload_digest ← GetDigest init update final serializer (Any (replicate 20 0) kSha1 kSuffixNone);
  digest ← ToString payload_digest false;
  let header_size := zlen (pr_header serializer) in
  let json := json_msg session_token digest header_size in
  Ret (mkRequest digest header_size (mkSend json serializer 0) (u64 (zlen json + header_size + size_ p))).

(** ** The session *)

Record Session := mkSession {
  ss_system : system;
  max_pack_size_ : Z;
  active_handles_ : list Z;
  current_pack_ : option Z;
  bytes_committed_ : Z;
  bytes_dispatched_ : Z;
  upload_jobs_ : list Z
}.

Definition new_session (max_pack_size : Z) : Session := mkSession empty_system max_pack_size [] None 0 0 [].

Definition with_system (s : Session) (sys : system) : Session :=
  mkSession sys (max_pack_size_ s) (active_handles_ s) (current_pack_ s) (bytes_committed_ s) (bytes_dispatched_ s) (upload_jobs_ s).
Definition with_active (s : Session) (l : list Z) : Session :=
  mkSession (ss_system s) (max_pack_size_ s) l (current_pack_ s) (bytes_committed_ s) (bytes_dispatched_ s) (upload_jobs_ s).
Definition with_current (s : Session) (i : option Z) : Session :=
  mkSession (ss_system s) (max_pack_size_ s) (active_handles_ s) i (bytes_committed_ s) (bytes_dispatched_ s) (upload_jobs_ s).
Definition with_committed (s : Session) (n : Z) : Session :=
  mkSession (ss_system s) (max_pack_size_ s) (active_handles_ s) (current_pack_ s) n (bytes_dispatched_ s) (upload_jobs_ s).

(** [pack] and [handle] are the addresses that [new] returns. *)
Definition SessionNewBucket (s : Session) (pack handle : Z) : outcome Session :=
  '(s, i) ← (match current_pack_ s with
             | Some i => Ret (s, i)
             | None =>
                 sys ← do_call (ss_system s) (CallPack pack (max_pack_size_ s));
                 Ret (with_current (with_system s sys) (Some pack), pack)
             end);
  sys ← do_call (ss_system s) (CallNew i handle);
  Ret (with_active (with_system s sys) (active_handles_ s ++ [handle])).

(** [upload_jobs_] is a queue: jobs are put in front and taken from the back. *)
Definition Dispatch (s : Session) : outcome Session :=
  match current_pack_ s with
  | None => Ret s
  | Some i =>
      p ← get_pack (ss_system s) i;
      Ret (mkSession (ss_system s) (max_pack_size_ s) (active_handles_ s) (current_pack_ s) (bytes_committed_ s)
             (u64 (bytes_dispatched_ s + size_ p)) (upload_jobs_ s ++ [i]))
  end.

Definition commit_in (sys : system) (i : Z) (type : BucketContentType) (id : any) (handle : Z) (name : bytes)
    : outcome (bool * system) :=
  p ← get_pack sys i;
  '(committed, h, p) ← CommitBucket (sys_heap sys) p type id handle name;
  Ret (committed, mkSystem h (<[i := p]> (sys_packs sys))).

Fixpoint transfer_all (sys : system) (i : Z) (handles : list Z) (j : Z) : outcome system :=
  match handles with
  | [] => Ret sys
  | handle :: handles => sys ← do_call sys (CallTransfer i handle j); transfer_all sys i handles j
  end.

(** [CommitBucket] calls itself after it has started a new pack, at [pack]. *)
Fixpoint SessionCommitBucket (fuel : nat) (s : Session) (type : BucketContentType) (id : any) (handle : Z) (name : bytes)
    (force_dispatch : bool) (pack : Z) : outcome (bool * Session) :=
  match fuel with
  | O => Fail OutOfFuel
  | S fuel =>
      match current_pack_ s with
      | None => Ret (false, s)
      | Some i =>
          p ← get_pack (ss_system s) i;
          let size0 := size_ p in
          '(committed, sys) ← commit_in (ss_system s) i type id handle name;
          let s := with_system s sys in
          if committed : bool then
            let s := with_active s (filter (λ a, a ≠ handle) (active_handles_ s)) in
            p ← get_pack sys i;
            let size1 := size_ p in
            let s := with_committed s (u64 (bytes_committed_ s + u64 (size1 - size0))) in
            s ← (if force_dispatch then s ← Dispatch s; Ret (with_current s None) else Ret s);
            Ret (true, s)
          else
            b ← deref (sys_heap sys) handle;
            let new_size := if bk_capacity b >? max_pack_size_ s then u64 (bk_capacity b + 1) else max_pack_size_ s in
            sys ← do_call sys (CallPack pack new_size);
            sys ← transfer_all sys i (active_handles_ s) pack;
            let s := with_system s sys in
            p ← get_pack sys i;
            s ← (if zlen (buckets_ p) >? 0 then Dispatch s else Ret s);
            let s := with_current s (Some pack) in
            '(_, s) ← SessionCommitBucket fuel s type id handle name false pack;
            Ret (true, s)
      end
  end.

(** One turn of [UploadLoop]: the oldest job is uploaded and its pack deleted. *)
Definition UploadLoop_turn (s : Session) : outcome (option (ObjectPack * heap) * Session) :=
  match upload_jobs_ s with
  | [] => Ret (None, s)
  | i :: jobs =>
      p ← get_pack (ss_system s) i;
      sys ← do_call (ss_system s) (CallDestroy i);
      Ret (Some (p, sys_heap (ss_system s)),
           mkSession sys (max_pack_size_ s) (active_handles_ s) (current_pack_ s) (bytes_committed_ s) (bytes_dispatched_ s) jobs)
  end.

(** [Finalize] up to the point where it waits for the uploads. *)
Definition finalize_dispatch (s : Session) : outcome Session :=
  match current_pack_ s with
  | None => Ret s
  | Some i =>
      p ← get_pack (ss_system s) i;
      if zlen (buckets_ p) >? 0 then s ← Dispatch s; Ret (with_current s None) else Ret s
  end.

(** Waiting for the results of [n] jobs: the thread uploads them meanwhile. *)
Fixpoint wait_results (n : nat) (s : Session) : outcome (list (ObjectPack * heap) * Session) :=
  match n with
  | O => Ret ([], s)
  | S n =>
      '(job, s) ← UploadLoop_turn s;
      match job with
      | None => Fail Deadlock
      | Some job => '(jobs, s) ← wait_results n s; Ret (job :: jobs, s)
      end
  end.

(** [commit_result] is what the request to the gateway returns. *)
Definition Finalize (s : Session) (initialized_ commit : bool) (old_root_hash new_root_hash : bytes) (commit_result : bool)
    : outcome (bool * list (ObjectPack * heap) * Session) :=
  _ ← cassert (bool_decide (active_handles_ s = []));
  if negb initialized_ then _ ← cassert (negb commit); Ret (true, [], s)
  else
    s ← finalize_dispatch s;
    '(jobs, s) ← wait_results (length (upload_jobs_ s)) s;
    if commit && (bool_decide (old_root_hash = []) || bool_decide (new_root_hash = [])) then Ret (false, jobs, s)
    else if commit && negb commit_result then Ret (false, jobs, s)
    else Ret (bytes_committed_ s =? bytes_dispatched_ s, jobs, s).

(** [RecvCB]: the reply becomes the string at [buffer], whose memory is given up
    to its end. *)
Fixpoint c_string (memory : bytes) : outcome bytes :=
  match memory with
  | [] => Fail OutOfBounds
  | c :: memory => if c =? 0 then Ret [] else s ← c_string memory; Ret (c :: s)
  end.

Definition RecvCB (buffer : bytes) (n : Z) (my_buffer : bytes) : outcome (Z * bytes) :=
  if n <? 1 then Ret (0, my_buffer) else s ← c_string buffer; Ret (zlen s, s).

(** ** The body of the request *)

Section Sending.
Context (h : heap) (p : ObjectPack) (bs : list Bucket).
Hypothesis Hbs : Forall2 (λ a b, h !! a = Some b) (buckets_ p) bs.
Hypothesis Hsmall : Forall (λ b, bk_size b < 2 ^ 32) bs.

(** The bytes [R] are still to be sent. *)
Definition send_at (payload : CurlSendPayload) (R : bytes) : Prop :=
  0 ≤ send_index payload ≤ zlen (json_message payload) ∧
  ∃ R', producer_at bs (pack_serializer payload) R' ∧ R = drop (Z.to_nat (send_index payload)) (json_message payload) ++ R'.

Lemma send_loop_S fuel payload max current out : send_loop (S fuel) h p payload max current out
  = if current <? max then
      let json := json_message payload in
      let index := send_index payload in
      if index <? zlen json then
        let read_size := Z.min (max - current) (zlen json - index) in
        data ← load json index read_size;
        send_loop fuel h p (mkSend json (pack_serializer payload) (index + read_size)) max (current + read_size) (overwrite out data)
      else
        '(data, s) ← ProduceNext h p (pack_serializer payload) (u32 (max - current));
        let payload := mkSend json s index in
        let out := take (Z.to_nat current) out ++ data in
        if zlen data =? 0 then Ret (out, current, payload) else send_loop fuel h p payload max (current + zlen data) out
    else Ret (out, current, payload).
Proof. done. Qed.

(** After the message the loop asks the producer, and once more if the buffer is
    not full. *)
Lemma send_tail fuel json s R max current out : producer_at bs s R → zlen out = current → 0 ≤ current < max → max < 2 ^ 32 →
  ∃ s' cur, send_loop (S (S (S fuel))) h p (mkSend json s (zlen json)) max current out
    = Ret (out ++ take (Z.to_nat (max - current)) R, cur, mkSend json s' (zlen json)) ∧
    cur = current + zlen (take (Z.to_nat (max - current)) R) ∧ producer_at bs s' (drop (Z.to_nat (max - current)) R).
Proof.
  intros Hat Hout Hcur Hmax. rewrite send_loop_S. cbn [json_message send_index pack_serializer].
  rewrite (ltb_true current max), Z.ltb_irrefl, u32_small by (unfold is_u32; lia).
  destruct (ProduceNext_ok h p bs Hbs Hsmall s R (max - current) Hat) as (s1 & -> & Hat1); [lia|]. exec.
  rewrite (take_ge out) by (unfold zlen in Hout; lia). set (data := take (Z.to_nat (max - current)) R) in *.
  destruct (Z.eqb_spec (zlen data) 0) as [Hz|Hz].
  { exists s1, current. split_and!; [done|lia|done]. }
  assert (zlen data = Z.min (max - current) (zlen R)) as Hdata by (apply zlen_take; lia). pose proof (zlen_nonneg data).
  rewrite send_loop_S. cbn [json_message send_index pack_serializer]. destruct (Z.ltb_spec (current + zlen data) max) as [Hlt|Hge].
  - rewrite ?Z.ltb_irrefl, u32_small by (unfold is_u32; lia).
    destruct (ProduceNext_ok h p bs Hbs Hsmall s1 _ (max - (current + zlen data)) Hat1) as (s2 & -> & Hat2); [lia|]. exec.
    rewrite (drop_ge R) in * by (unfold zlen in *; lia). rewrite take_nil, app_nil_r, zlen_nil. cbn [Z.eqb].
    rewrite take_ge by (rewrite length_app; unfold zlen in *; lia). rewrite drop_nil in Hat2.
    exists s2, (current + zlen data). by split_and!.
  - exists s1, (current + zlen data). by split_and!.
Qed.

Lemma SendCB_ok payload R n : send_at payload R → 1 ≤ n < 2 ^ 32 →
  ∃ payload', SendCB h p payload n = Ret (take (Z.to_nat n) R, payload') ∧ send_at payload' (drop (Z.to_nat n) R).
Proof.
  destruct payload as [json s index]. intros (Hi & R' & Hat & ->) Hn. cbn [send_index json_message pack_serializer] in *.
  unfold SendCB. rewrite ltb_false by lia.
  destruct (split_zlen json index Hi) as (sent & todo & -> & <-). rewrite drop_app_zlen by done. rewrite zlen_app in Hi.
  destruct (decide (todo = [])) as [->|Hne].
  - rewrite app_nil_r. destruct (send_tail 1 sent s R' n 0 []) as (s' & cur & -> & -> & Hat'); [done|done|lia|lia|]. exec.
    rewrite Z.sub_0_r in *. cbn [app]. rewrite take_ge by (rewrite Z.add_0_l; unfold zlen; lia).
    eexists. split; [done|]. split; [cbn; lia|]. exists (drop (Z.to_nat n) R'). split; [done|].
    cbn. by rewrite (drop_ge sent) by (unfold zlen; lia).
  - apply zlen_pos in Hne as Hpos. rewrite send_loop_S. cbn [json_message send_index pack_serializer].
    rewrite ltb_true by lia. rewrite (ltb_true (zlen sent)) by (rewrite zlen_app; lia).
    rewrite zlen_app, Z.sub_0_r. replace (zlen sent + zlen todo - zlen sent) with (zlen todo) by lia.
    destruct (Z.leb_spec n (zlen todo)) as [Hle|Hgt].
    + rewrite Z.min_l by lia. destruct (split_zlen todo n) as (now & later & -> & <-); [lia|].
      rewrite load_app by done. exec. rewrite send_loop_S, Z.add_0_l, Z.ltb_irrefl. exec. unfold overwrite. rewrite drop_nil, app_nil_r.
      rewrite take_ge by (unfold zlen; lia). rewrite <- !app_assoc, take_app_zlen, drop_app_zlen by done.
      eexists. split; [done|]. split; [cbn; rewrite !zlen_app; pose proof (zlen_nonneg sent); pose proof (zlen_nonneg later); lia|].
      exists R'. split; [done|]. cbn. by rewrite app_assoc, drop_app_zlen by (by rewrite zlen_app).
    + rewrite Z.min_r, load_tail by lia. exec. unfold overwrite. rewrite drop_nil, app_nil_r, Z.add_0_l.
      rewrite <- zlen_app. destruct (send_tail 0 (sent ++ todo) s R' n (zlen todo) todo) as (s' & cur & Hl & -> & Hat'); [done|done|lia|lia|].
      rewrite Hl. exec.
      rewrite <- zlen_app, take_ge by (unfold zlen; lia). rewrite take_app_ge, drop_app_ge by (unfold zlen in *; lia).
      replace (Z.to_nat n - length todo)%nat with (Z.to_nat (n - zlen todo)) by (unfold zlen in *; lia).
      eexists. split; [done|]. split; [cbn; pose proof (zlen_nonneg (sent ++ todo)); lia|].
      eexists. split; [done|]. cbn. by rewrite (drop_ge (sent ++ todo)) by (unfold zlen; lia).
Qed.

Lemma send_start json s R : producer_at bs s R → send_at (mkSend json s 0) (json ++ R).
Proof. intros Hat. split; [cbn; pose proof (zlen_nonneg json); lia|]. by exists R. Qed.

(** The calls that libcurl makes, with buffers of any size. *)
Fixpoint send_all (payload : CurlSendPayload) (sizes : list Z) : outcome (list bytes) :=
  match sizes with
  | [] => Ret []
  | n :: sizes => '(out, payload) ← SendCB h p payload n; outs ← send_all payload sizes; Ret (out :: outs)
  end.

Lemma send_all_ok sizes : Forall (λ n, 1 ≤ n < 2 ^ 32) sizes → ∀ payload R, send_at payload R →
  send_all payload sizes = Ret (pieces sizes R).
Proof.
  induction 1 as [|n sizes Hn _ IH]; intros payload R Hat; [done|]. cbn [send_all pieces].
  destruct (SendCB_ok payload R n Hat Hn) as (payload' & -> & Hat'). exec. by rewrite (IH _ _ Hat').
Qed.
End Sending.

(** ** What a session has committed *)

(** The committed buckets of a pack. *)
Definition pack_log (sys : system) (i : Z) : list Bucket :=
  match sys_packs sys !! i with Some p => omap (λ a, sys_heap sys !! a) (buckets_ p) | None => [] end.

Definition current_log (s : Session) : list Bucket :=
  match current_pack_ s with Some i => pack_log (ss_system s) i | None => [] end.

(** Those that are not uploaded yet, in the order in which they were committed. *)
Definition session_log (s : Session) : list Bucket := concat (pack_log (ss_system s) <$> upload_jobs_ s) ++ current_log s.

Definition current_size (s : Session) : Z :=
  match current_pack_ s with
  | Some i => from_option size_ 0 (sys_packs (ss_system s) !! i)
  | None => 0
  end.

Record session_ok (s : Session) : Prop := {
  sn_sys : sys_ok (ss_system s);
  sn_limit : 0 ≤ max_pack_size_ s < 2 ^ 63;
  sn_active : NoDup (active_handles_ s);
  sn_jobs : NoDup (upload_jobs_ s);
  sn_current : match current_pack_ s with
               | None => active_handles_ s = []
               | Some i => i ∉ upload_jobs_ s ∧
                   ∃ p, sys_packs (ss_system s) !! i = Some p ∧ open_buckets_ p = list_to_set (active_handles_ s)
               end;
  sn_closed : ∀ i, i ∈ upload_jobs_ s → ∃ p, sys_packs (ss_system s) !! i = Some p ∧ open_buckets_ p = ∅;
  sn_bytes : bytes_committed_ s = u64 (bytes_dispatched_ s + current_size s);
  sn_dispatched : is_u64 (bytes_dispatched_ s)
}.

(** Buckets are read the same where the heap has not changed. *)
Lemma omap_heap_ext (h h' : heap) (l : list Z) : (∀ a, a ∈ l → h' !! a = h !! a) → omap (λ a, h' !! a) l = omap (λ a, h !! a) l.
Proof.
  induction l as [|a l IH]; intros Hl; [done|]. cbn. rewrite Hl by left.
  rewrite IH by (intros b Hb; apply Hl; by right). done.
Qed.

Lemma pack_log_ext sys sys' i p p' : sys_packs sys !! i = Some p → sys_packs sys' !! i = Some p' → buckets_ p' = buckets_ p →
  (∀ a, a ∈ buckets_ p → sys_heap sys' !! a = sys_heap sys !! a) → pack_log sys' i = pack_log sys i.
Proof. intros Hp Hp' Hb Hh. unfold pack_log. rewrite Hp, Hp', Hb. by apply omap_heap_ext. Qed.

Lemma logs_ext sys sys' jobs : (∀ i, i ∈ jobs → pack_log sys' i = pack_log sys i) →
  concat (pack_log sys' <$> jobs) = concat (pack_log sys <$> jobs).
Proof.
  intros Hj. f_equal. apply list_fmap_ext. intros k i Hi. apply Hj. by eapply list_elem_of_lookup_2.
Qed.

Definition committed_bucket (b : Bucket) (type : BucketContentType) (id : any) (name : bytes) : Bucket :=
  mkBucket (bk_content b) (bk_capacity b) id type (if decide (type = kNamed) then name else bk_name b).

(** [CommitBucket] of a pack: it takes the bucket, or it is full. *)
Lemma commit_in_ok sys i p a b type id name : sys_ok sys → sys_packs sys !! i = Some p → a ∈ open_buckets_ p →
  sys_heap sys !! a = Some b →
  ∃ ok p', commit_in sys i type id a name
    = Ret (ok, mkSystem (<[a := committed_bucket b type id name]> (sys_heap sys)) (<[i := p']> (sys_packs sys))) ∧
    sys_ok (mkSystem (<[a := committed_bucket b type id name]> (sys_heap sys)) (<[i := p']> (sys_packs sys))) ∧
    if ok : bool
    then p' = mkPack (limit_ p) (size_ p + bk_size b) (open_buckets_ p ∖ {[a]}) (buckets_ p ++ [a])
    else p' = p ∧ (kMaxObjects ≤ zlen (buckets_ p) ∨ limit_ p < size_ p + bk_size b).
Proof.
  intros Hok Hp Ha Hb. destruct (sys_ok_call sys (CallCommit i type id a name) Hok) as (sys' & Hcall & Hok').
  { by exists p. }
  pose proof (so_packs sys Hok i p Hp) as [_ _ _ Hsize Hlim _].
  pose proof (so_buckets sys Hok a b Hb) as (_ & _ & Hbs). pose proof (total_sizes_nonneg (sys_heap sys) (buckets_ p)).
  assert (0 ≤ bk_size b) as Hb0 by apply zlen_nonneg.
  unfold commit_in. cbn [do_call] in Hcall. unfold get_pack in *. rewrite Hp in *. cbn [mbind outcome_bind] in *.
  unfold CommitBucket, deref in *. rewrite Hb in *. cbn [mbind outcome_bind] in *. fold (committed_bucket b type id name) in *.
  set (b' := committed_bucket b type id name) in *. change (bk_size b') with (bk_size b) in *.
  rewrite u64_small in * by (unfold is_u64; lia).
  destruct (zlen (buckets_ p) >=? kMaxObjects) eqn:Hmax; exec; cbn in Hcall.
  { injection Hcall as <-. exists false, p. split_and!; [done..|]. left. rewrite Z.geb_leb in Hmax. by apply Z.leb_le in Hmax. }
  destruct (size_ p + bk_size b >? limit_ p) eqn:Hfull; exec; cbn in Hcall; injection Hcall as <-.
  - exists false, p. split_and!; [done..|]. right. rewrite Z.gtb_ltb in Hfull. by apply Z.ltb_lt in Hfull.
  - eexists true, _. by split_and!.
Qed.

(** All open buckets move to another pack. *)
Lemma transfer_all_ok i j l : i ≠ j → ∀ sys p q, sys_ok sys → sys_packs sys !! i = Some p → sys_packs sys !! j = Some q →
  NoDup l → (∀ a, a ∈ l → a ∈ open_buckets_ p) →
  ∃ sys', transfer_all sys i l j = Ret sys' ∧ sys_ok sys' ∧ sys_heap sys' = sys_heap sys ∧
    (∀ k, k ≠ i → k ≠ j → sys_packs sys' !! k = sys_packs sys !! k) ∧
    sys_packs sys' !! i = Some (mkPack (limit_ p) (size_ p) (open_buckets_ p ∖ list_to_set l) (buckets_ p)) ∧
    sys_packs sys' !! j = Some (mkPack (limit_ q) (size_ q) (list_to_set l ∪ open_buckets_ q) (buckets_ q)).
Proof.
  intros Hij. induction l as [|a l IH]; intros sys p q Hok Hp Hq Hnd Hl; cbn [transfer_all].
  { exists sys. split_and!; try done; [rewrite Hp|rewrite Hq]; destruct p, q; cbn; do 2 f_equal; set_solver. }
  apply NoDup_cons in Hnd as [Ha Hnd].
  destruct (sys_ok_call sys (CallTransfer i a j) Hok) as (sys1 & Hcall & Hok1).
  { split_and!; [exists p; split; [done|apply Hl; left]|by exists q|done]. }
  rewrite Hcall. exec. cbn [do_call] in Hcall. unfold get_pack in Hcall. rewrite Hp in Hcall. cbn in Hcall. rewrite Hq in Hcall. cbn in Hcall.
  injection Hcall as <-.
  destruct (IH _ (mkPack (limit_ p) (size_ p) (open_buckets_ p ∖ {[a]}) (buckets_ p))
    (mkPack (limit_ q) (size_ q) ({[a]} ∪ open_buckets_ q) (buckets_ q)) Hok1) as (sys2 & -> & Hok2 & Hheap & Hother & Hi & Hj).
  - cbn. by rewrite lookup_insert_ne, lookup_insert_eq by done.
  - cbn. by rewrite lookup_insert_eq.
  - done.
  - intros c Hc. cbn. assert (c ≠ a) by (intros ->; done). assert (c ∈ open_buckets_ p) by (apply Hl; by right). set_solver.
  - exists sys2. split_and!; [done|done|done| |rewrite Hi; cbn; do 2 f_equal; set_solver|rewrite Hj; cbn; do 2 f_equal; set_solver].
    intros k Hki Hkj. rewrite Hother by done. cbn. by rewrite !lookup_insert_ne by done.
Qed.

(** ** Steps that leave the committed buckets alone *)

(** The packs are still there with the buckets that they had, and only pack [i]
    may have other open buckets. *)
Definition keeps (i : Z) (sys sys' : system) : Prop :=
  ∀ k q, sys_packs sys !! k = Some q → ∃ q', sys_packs sys' !! k = Some q' ∧ buckets_ q' = buckets_ q ∧
    (k ≠ i → open_buckets_ q' = open_buckets_ q) ∧ ∀ a, a ∈ buckets_ q → sys_heap sys' !! a = sys_heap sys !! a.

Lemma keeps_log i sys sys' k : keeps i sys sys' → is_Some (sys_packs sys !! k) → pack_log sys' k = pack_log sys k.
Proof. intros Hk [q Hq]. destruct (Hk k q Hq) as (q' & Hq' & Hb & _ & Hh). by apply (pack_log_ext _ _ _ q q'). Qed.

Lemma keeps_size i sys sys' k q : keeps i sys sys' → sys_ok sys → sys_ok sys' → sys_packs sys !! k = Some q →
  ∃ q', sys_packs sys' !! k = Some q' ∧ size_ q' = size_ q.
Proof.
  intros Hk Hok Hok' Hq. destruct (Hk k q Hq) as (q' & Hq' & Hb & _ & Hh). exists q'. split; [done|].
  rewrite (pk_size _ _ (so_packs _ Hok' _ _ Hq')), (pk_size _ _ (so_packs _ Hok _ _ Hq)), Hb. by apply total_ext.
Qed.

Lemma session_keeps s i sys' active' p' : session_ok s → current_pack_ s = Some i → keeps i (ss_system s) sys' → sys_ok sys' →
  NoDup active' → sys_packs sys' !! i = Some p' → open_buckets_ p' = list_to_set active' →
  session_ok (with_active (with_system s sys') active') ∧
  session_log (with_active (with_system s sys') active') = session_log s.
Proof.
  intros [Hsys Hlim Hact Hjobs Hcur Hcl Hb Hd] Hi Hk Hsys' Hact' Hp' Hopen'. rewrite Hi in Hcur. destruct Hcur as (Hni & p & Hp & Hopen).
  split.
  - split; try done; cbn; rewrite ?Hi; [split; [done|by exists p']| |].
    + intros k Hkj. destruct (Hcl k Hkj) as (q & Hq & Hqo). destruct (Hk k q Hq) as (q' & Hq' & _ & Ho & _).
      exists q'. split; [done|]. rewrite Ho; [done|]. by intros ->.
    + rewrite Hb. unfold current_size. cbn. rewrite Hi. destruct (keeps_size _ _ _ _ _ Hk Hsys Hsys' Hp) as (q & Hq & Hs).
      by rewrite Hp, Hq; cbn; rewrite Hs.
  - unfold session_log, current_log. cbn. rewrite Hi. f_equal.
    + apply logs_ext. intros k Hkj. eapply keeps_log; [done|]. destruct (Hcl k Hkj) as (q & Hq & _). by exists q.
    + eapply keeps_log; [done|]. by exists p.
Qed.

(** An open bucket is committed in no pack. *)
Lemma open_not_committed sys i p a k q : sys_ok sys → sys_packs sys !! i = Some p → a ∈ open_buckets_ p →
  sys_packs sys !! k = Some q → a ∉ buckets_ q.
Proof.
  intros Hok Hp Ha Hq Hin. destruct (decide (k = i)) as [->|Hki].
  - rewrite Hp in Hq. injection Hq as <-. pose proof (pk_disjoint _ _ (so_packs _ Hok _ _ Hp)). set_solver.
  - pose proof (so_disjoint _ Hok _ _ _ _ Hq Hp Hki). unfold handles in *. set_solver.
Qed.

(** What is written to an open bucket does not change the packs. *)
Lemma keeps_insert i sys p a b p' : sys_ok sys → sys_packs sys !! i = Some p → a ∈ open_buckets_ p ∨ sys_heap sys !! a = None →
  buckets_ p' = buckets_ p → keeps i sys (mkSystem (<[a := b]> (sys_heap sys)) (<[i := p']> (sys_packs sys))).
Proof.
  intros Hok Hp Ha Hb k q Hq. cbn.
  assert (∀ c, c ∈ buckets_ q → <[a := b]> (sys_heap sys) !! c = sys_heap sys !! c) as Hsame.
  { intros c Hc. rewrite lookup_insert_ne; [done|]. intros ->. destruct Ha as [Ha|Ha].
    - exact (open_not_committed sys i p _ k q Hok Hp Ha Hq Hc).
    - apply not_elem_of_dom in Ha. apply Ha, (pk_handles _ _ (so_packs _ Hok _ _ Hq)). unfold handles. set_solver. }
  destruct (decide (k = i)) as [->|Hki].
  - rewrite Hp in Hq. injection Hq as <-. exists p'. by rewrite lookup_insert_eq.
  - exists q. by rewrite lookup_insert_ne.
Qed.

Lemma active_open s i p a : session_ok s → current_pack_ s = Some i → sys_packs (ss_system s) !! i = Some p →
  a ∈ active_handles_ s ↔ a ∈ open_buckets_ p.
Proof.
  intros Hok Hi Hp. pose proof (sn_current s Hok) as Hc. rewrite Hi in Hc. destruct Hc as (_ & p' & Hp' & Ho).
  rewrite Hp in Hp'. injection Hp' as <-. rewrite Ho. by rewrite elem_of_list_to_set.
Qed.

(** ** The operations of a session *)

(** The open bucket [a] of a session. *)
Definition active_at (s : Session) (a : Z) (b : Bucket) : Prop := a ∈ active_handles_ s ∧ sys_heap (ss_system s) !! a = Some b.

Lemma active_inv s a b : session_ok s → active_at s a b →
  ∃ i p, current_pack_ s = Some i ∧ i ∉ upload_jobs_ s ∧ sys_packs (ss_system s) !! i = Some p ∧ a ∈ open_buckets_ p ∧
    open_buckets_ p = list_to_set (active_handles_ s).
Proof.
  intros Hok [Ha _]. pose proof (sn_current s Hok) as Hc. destruct (current_pack_ s) as [i|] eqn:Hi.
  - destruct Hc as (Hj & p & Hp & Ho). exists i, p. split_and!; try done. rewrite Ho. by apply elem_of_list_to_set.
  - rewrite Hc in Ha. by apply not_elem_of_nil in Ha.
Qed.

(** A pack for which there is nothing in the session yet. *)
Lemma start_pack s pack : session_ok s → current_pack_ s = None → sys_packs (ss_system s) !! pack = None →
  let sys := mkSystem (sys_heap (ss_system s)) (<[pack := new_pack (max_pack_size_ s)]> (sys_packs (ss_system s))) in
  session_ok (with_current (with_system s sys) (Some pack)) ∧
  session_log (with_current (with_system s sys) (Some pack)) = session_log s.
Proof.
  intros Hok Hi Hpack sys. destruct (sys_ok_call (ss_system s) (CallPack pack (max_pack_size_ s))) as (sys' & Hcall & Hsys');
    [apply Hok|by split; [|apply Hok]|]. injection Hcall as Hcall. fold sys in Hcall. subst sys'.
  destruct Hok as [Hsys Hlim Hact Hjobs Hcur Hcl Hb Hd]. rewrite Hi in Hcur.
  assert (∀ k, k ∈ upload_jobs_ s → k ≠ pack) as Hne.
  { intros k Hk ->. destruct (Hcl _ Hk) as (q & Hq & _). congruence. }
  split.
  - split; try done; cbn.
    + split; [by intros Hin%Hne|]. eexists. rewrite lookup_insert_eq. split; [done|]. by rewrite Hcur.
    + intros k Hk. destruct (Hcl k Hk) as (q & Hq & Hqo). exists q. rewrite lookup_insert_ne; [done|]. intros <-. by eapply Hne.
    + rewrite Hb. unfold current_size. cbn. rewrite Hi, lookup_insert_eq. done.
  - unfold session_log, current_log. cbn. rewrite Hi. unfold pack_log at 2. cbn. rewrite lookup_insert_eq. cbn. f_equal.
    apply logs_ext. intros k Hk. unfold pack_log. cbn. rewrite lookup_insert_ne; [done|]. intros <-. by eapply Hne.
Qed.

Lemma open_bucket s i a : session_ok s → current_pack_ s = Some i → sys_heap (ss_system s) !! a = None →
  ∃ sys', do_call (ss_system s) (CallNew i a) = Ret sys' ∧ sys_heap sys' = <[a := new_bucket]> (sys_heap (ss_system s)) ∧
    session_ok (with_active (with_system s sys') (active_handles_ s ++ [a])) ∧
    session_log (with_active (with_system s sys') (active_handles_ s ++ [a])) = session_log s.
Proof.
  intros Hok Hi Ha. pose proof (sn_current s Hok) as Hc. rewrite Hi in Hc. destruct Hc as (Hj & p & Hp & Ho).
  destruct (sys_ok_call (ss_system s) (CallNew i a)) as (sys' & Hcall & Hsys'); [apply Hok|by split; [exists p|]|].
  exists sys'. split; [done|]. cbn in Hcall. unfold get_pack in Hcall. rewrite Hp in Hcall. cbn in Hcall. injection Hcall as <-.
  split; [done|]. eapply (session_keeps _ i); [done|done| |done| |cbn; by rewrite lookup_insert_eq|].
  - eapply keeps_insert; [apply Hok|done|by right|done].
  - apply NoDup_app. split_and!; [apply Hok| |apply NoDup_singleton]. intros c Hc ->%list_elem_of_singleton.
    assert (is_Some (sys_heap (ss_system s) !! a)) as [? ?]; [|congruence].
    apply elem_of_dom, (pk_handles _ _ (so_packs _ (sn_sys _ Hok) _ _ Hp)), open_handle. rewrite Ho. by apply elem_of_list_to_set.
  - cbn. rewrite Ho, list_to_set_app_L. cbn. set_solver.
Qed.

Lemma call_pack sys pack limit : do_call sys (CallPack pack limit) = Ret (mkSystem (sys_heap sys) (<[pack := new_pack limit]> (sys_packs sys))).
Proof. done. Qed.

Lemma SessionNewBucket_ok s pack a : session_ok s → sys_packs (ss_system s) !! pack = None → sys_heap (ss_system s) !! a = None →
  ∃ s', SessionNewBucket s pack a = Ret s' ∧ session_ok s' ∧ session_log s' = session_log s ∧
    active_handles_ s' = active_handles_ s ++ [a] ∧ sys_heap (ss_system s') = <[a := new_bucket]> (sys_heap (ss_system s)).
Proof.
  intros Hok Hpack Ha. unfold SessionNewBucket. destruct (current_pack_ s) as [i|] eqn:Hi; exec.
  - destruct (open_bucket s i a) as (sys' & -> & Hheap & Hok' & Hlog); try done. exec. by eexists.
  - destruct (start_pack s pack) as [Hok1 Hlog1]; try done. rewrite call_pack. exec.
    destruct (open_bucket _ pack a Hok1) as (sys' & -> & Hheap & Hok' & Hlog); try done. exec.
    eexists. split; [done|]. split_and!; [done| |done|done]. by rewrite Hlog.
Qed.

Lemma SessionAdd_ok s a b buf : session_ok s → active_at s a b → bk_size b + zlen buf ≤ 2 ^ 60 →
  ∃ sys c, do_call (ss_system s) (CallAdd a buf) = Ret sys ∧ session_ok (with_system s sys) ∧
    session_log (with_system s sys) = session_log s ∧
    sys_heap sys = <[a := mkBucket (bk_content b ++ buf) c (bk_id b) (bk_content_type b) (bk_name b)]> (sys_heap (ss_system s)).
Proof.
  intros Hok Hact Hsize. destruct (active_inv s a b Hok Hact) as (i & p & Hi & _ & Hp & Ha & Ho). destruct Hact as [Hact Hb].
  destruct (sys_ok_call (ss_system s) (CallAdd a buf)) as (sys' & Hcall & Hsys').
  { apply Hok. } { split; [by exists i, p|]. intros b' Hb'. rewrite Hb in Hb'. by injection Hb' as <-. }
  exists sys'. cbn in Hcall |- *. unfold AddToBucket, deref in *. rewrite Hb in *. cbn [mbind outcome_bind] in *.
  destruct (Add_ok b buf) as (c & Hadd & _); [apply (so_buckets _ (sn_sys _ Hok) _ _ Hb)|done|].
  rewrite Hadd in *. cbn in Hcall. injection Hcall as <-. exists c. split; [done|].
  destruct (session_keeps s i (mkSystem (<[a := mkBucket (bk_content b ++ buf) c (bk_id b) (bk_content_type b) (bk_name b)]>
    (sys_heap (ss_system s))) (sys_packs (ss_system s))) (active_handles_ s) p) as [H1 H2]; try done; [|apply Hok].
  pose proof (keeps_insert i (ss_system s) p a (mkBucket (bk_content b ++ buf) c (bk_id b) (bk_content_type b) (bk_name b)) p
    (sn_sys _ Hok) Hp (or_introl Ha) eq_refl) as Hk. by rewrite (insert_id (sys_packs (ss_system s)) i p Hp) in Hk.
Qed.

(** ** Committing *)

Lemma list_to_set_filter (l : list Z) a : (list_to_set (filter (λ c, c ≠ a) l) : gset Z) = list_to_set l ∖ {[a]}.
Proof. apply set_eq. intros c. rewrite elem_of_list_to_set, list_elem_of_filter, elem_of_difference, elem_of_list_to_set. set_solver. Qed.

Lemma u64_add_l x y : u64 (u64 x + y) = u64 (x + y).
Proof. unfold u64. by rewrite Zplus_mod_idemp_l. Qed.
Lemma u64_add_r x y : u64 (x + u64 y) = u64 (x + y).
Proof. unfold u64. by rewrite Zplus_mod_idemp_r. Qed.

(** The state after the current pack has taken a bucket. *)
Lemma commit_taken s i p a b type id name : session_ok s → current_pack_ s = Some i → active_at s a b →
  sys_packs (ss_system s) !! i = Some p →
  let sys := mkSystem (<[a := committed_bucket b type id name]> (sys_heap (ss_system s)))
    (<[i := mkPack (limit_ p) (size_ p + bk_size b) (open_buckets_ p ∖ {[a]}) (buckets_ p ++ [a])]> (sys_packs (ss_system s))) in
  let s' := with_committed (with_active (with_system s sys) (filter (λ c, c ≠ a) (active_handles_ s)))
    (u64 (bytes_committed_ s + u64 (size_ p + bk_size b - size_ p))) in
  sys_ok sys → session_ok s' ∧ session_log s' = session_log s ++ [committed_bucket b type id name].
Proof.
  intros Hok Hi Hact Hp sys s' Hsys'. destruct (active_inv s a b Hok Hact) as (i' & p' & Hi' & Hj & Hp' & Ha & Ho). simplify_eq.
  assert (∀ k, k ∈ upload_jobs_ s → k ≠ i) as Hne by (intros k Hk ->; done).
  assert (∀ k q, sys_packs (ss_system s) !! k = Some q → ∀ c, c ∈ buckets_ q → sys_heap sys !! c = sys_heap (ss_system s) !! c) as Hsame.
  { intros k q Hq c Hc. cbn. rewrite lookup_insert_ne; [done|]. intros ->. by apply (open_not_committed _ _ _ _ _ _ (sn_sys _ Hok) Hp Ha Hq). }
  pose proof Hok as [Hsys Hlim Hnd Hjobs _ Hcl Hby Hd]. split.
  - split; try done; cbn; rewrite ?Hi.
    + by apply NoDup_filter.
    + split; [done|]. eexists. rewrite lookup_insert_eq. split; [done|]. cbn. by rewrite list_to_set_filter, Ho.
    + intros k Hk. destruct (Hcl k Hk) as (q & Hq & Hqo). exists q. rewrite lookup_insert_ne; [done|]. intros <-. by eapply Hne.
    + unfold current_size. cbn. rewrite Hi, lookup_insert_eq. cbn. rewrite Hby, u64_add_l, u64_add_r. unfold current_size. rewrite Hi, Hp. cbn.
      f_equal. lia.
  - unfold session_log, current_log. cbn. rewrite Hi, <- app_assoc. f_equal.
    + apply logs_ext. intros k Hk. destruct (Hcl k Hk) as (q & Hq & _). apply (pack_log_ext _ _ _ q q); [done| |done|by apply (Hsame k)].
      cbn. rewrite lookup_insert_ne; [done|]. intros <-. by eapply Hne.
    + unfold pack_log. cbn. rewrite lookup_insert_eq, Hp. cbn [buckets_]. rewrite omap_app. cbn. rewrite lookup_insert_eq. f_equal.
      apply omap_heap_ext. by apply (Hsame i).
Qed.

Lemma commit_fits fuel s i p a b type id name pack : session_ok s → current_pack_ s = Some i → active_at s a b →
  sys_packs (ss_system s) !! i = Some p → zlen (buckets_ p) < kMaxObjects → size_ p + bk_size b ≤ limit_ p →
  ∃ s', SessionCommitBucket (S fuel) s type id a name false pack = Ret (true, s') ∧ session_ok s' ∧
    session_log s' = session_log s ++ [committed_bucket b type id name] ∧
    active_handles_ s' = filter (λ c, c ≠ a) (active_handles_ s) ∧
    sys_heap (ss_system s') = <[a := committed_bucket b type id name]> (sys_heap (ss_system s)).
Proof.
  intros Hok Hi Hact Hp Hmax Hfit. destruct (active_inv s a b Hok Hact) as (i' & p' & Hi' & Hj & Hp' & Ha & Ho). simplify_eq.
  destruct (commit_in_ok (ss_system s) i p a b type id name (sn_sys _ Hok) Hp Ha (proj2 Hact)) as (ok & p' & Hc & Hsys' & Hp'').
  cbn [SessionCommitBucket]. rewrite Hi. unfold get_pack. rewrite Hp. exec. rewrite Hc. exec.
  destruct ok; [subst p'|destruct Hp'' as [_ [?|?]]; lia]. cbn [sys_packs]. rewrite lookup_insert_eq. exec.
  destruct (commit_taken s i p a b type id name Hok Hi Hact Hp Hsys') as [Hok' Hlog]. eexists. split; [done|]. done.
Qed.

(** The session after its open buckets have moved from pack [i] to the new pack
    [pack]; pack [i] is dispatched unless it is empty. *)
Definition renewed (s : Session) (i : Z) (p : ObjectPack) (pack : Z) (sys : system) : Session :=
  let queued := zlen (buckets_ p) >? 0 in
  mkSession sys (max_pack_size_ s) (active_handles_ s) (Some pack) (bytes_committed_ s)
    (if queued then u64 (bytes_dispatched_ s + size_ p) else bytes_dispatched_ s)
    (if queued then upload_jobs_ s ++ [i] else upload_jobs_ s).

Lemma empty_pack_size h p : pack_ok h p → (zlen (buckets_ p) >? 0) = false → buckets_ p = [] ∧ size_ p = 0.
Proof.
  intros Hp Hz. rewrite Z.gtb_ltb in Hz. apply Z.ltb_ge in Hz. pose proof (zlen_nonneg (buckets_ p)).
  assert (buckets_ p = []) as Hb by (apply zlen_zero; lia). split; [done|]. by rewrite (pk_size _ _ Hp), Hb.
Qed.

Lemma keeps_closed i pack sys sys' p limit : sys_heap sys' = sys_heap sys →
  (∀ k, k ≠ i → k ≠ pack → sys_packs sys' !! k = sys_packs sys !! k) → sys_packs sys !! pack = None →
  sys_packs sys !! i = Some p → sys_packs sys' !! i = Some (mkPack limit (size_ p) ∅ (buckets_ p)) → keeps i sys sys'.
Proof.
  intros Hh Ho Hpack Hp Hi k q' Hq'. destruct (decide (k = i)) as [->|Hki].
  - eexists. split; [done|]. rewrite Hp in Hq'. injection Hq' as <-. by rewrite Hh.
  - exists q'. rewrite Ho by (done || congruence). by rewrite Hh.
Qed.

Lemma renewed_ok s i p pack sys q : session_ok s → current_pack_ s = Some i → sys_packs (ss_system s) !! i = Some p →
  sys_ok sys → keeps i (ss_system s) sys → i ≠ pack → sys_packs (ss_system s) !! pack = None →
  (∃ p', sys_packs sys !! i = Some p' ∧ open_buckets_ p' = ∅) →
  sys_packs sys !! pack = Some q → size_ q = 0 → open_buckets_ q = list_to_set (active_handles_ s) → buckets_ q = [] →
  session_ok (renewed s i p pack sys) ∧ session_log (renewed s i p pack sys) = session_log s.
Proof.
  intros Hok Hi Hp Hsys' Hk Hne Hpack Hclosed Hq Hqs Hqo Hqb.
  assert (∀ k, k ∈ upload_jobs_ s → k ≠ pack) as Hjp.
  { intros k Hkj ->. destruct (sn_closed s Hok _ Hkj) as (r & Hr & _). congruence. }
  assert (∀ k, k ∈ upload_jobs_ s → ∃ r, sys_packs sys !! k = Some r ∧ open_buckets_ r = ∅) as Hcl.
  { intros k Hkj. destruct (sn_closed s Hok k Hkj) as (r & Hr & Hro). destruct (Hk k r Hr) as (r' & Hr' & _ & Ho & _).
    exists r'. split; [done|]. rewrite Ho; [done|]. intros ->. pose proof (sn_current s Hok) as Hc. rewrite Hi in Hc. by destruct Hc. }
  assert (∀ k, k ∈ upload_jobs_ s → pack_log sys k = pack_log (ss_system s) k) as Hlogs.
  { intros k Hkj. eapply keeps_log; [done|]. destruct (sn_closed s Hok k Hkj) as (r & Hr & _). by exists r. }
  assert (pack_log sys pack = []) as Hnew by (unfold pack_log; by rewrite Hq, Hqb).
  pose proof (sn_current s Hok) as Hc. rewrite Hi in Hc. destruct Hc as (Hij & _).
  pose proof Hok as [Hsys Hlim Hnd Hjobs _ _ Hby Hd]. unfold current_size in Hby. rewrite Hi, Hp in Hby. cbn in Hby.
  unfold renewed, session_log, current_log. cbn. rewrite Hnew, app_nil_r, Hi.
  destruct (zlen (buckets_ p) >? 0) eqn:Hz.
  - split; [split; try done; cbn|].
    + apply NoDup_app. split_and!; [done| |apply NoDup_singleton]. by intros k Hkj ->%list_elem_of_singleton.
    + split; [|by exists q]. intros [Hin|Hin%list_elem_of_singleton]%elem_of_app; [by eapply Hjp|by rewrite Hin in Hne].
    + intros k [Hkj| ->%list_elem_of_singleton]%elem_of_app; [by apply Hcl|done].
    + unfold current_size. cbn. rewrite Hq. cbn. rewrite Hqs, u64_add_l, Hby. f_equal. lia.
    + apply u64_range.
    + rewrite fmap_app, concat_app. cbn. rewrite app_nil_r. f_equal; [by apply logs_ext|]. eapply keeps_log; [done|by exists p].
  - destruct (empty_pack_size _ _ (so_packs _ Hsys _ _ Hp) Hz) as [Hb0 Hs0]. split; [split; try done; cbn|].
    + split; [|by exists q]. intros Hin. by eapply Hjp.
    + unfold current_size. cbn. rewrite Hq. cbn. by rewrite Hqs, Hby, Hs0.
    + unfold pack_log at 3. rewrite Hp, Hb0. cbn. rewrite app_nil_r. by apply logs_ext.
Qed.

(** The open buckets move to a new pack. *)
Lemma renew_ok s i p pack limit : session_ok s → current_pack_ s = Some i → sys_packs (ss_system s) !! i = Some p →
  sys_packs (ss_system s) !! pack = None → 0 ≤ limit < 2 ^ 63 →
  ∃ sys p', transfer_all (mkSystem (sys_heap (ss_system s)) (<[pack := new_pack limit]> (sys_packs (ss_system s)))) i (active_handles_ s) pack
      = Ret sys ∧ sys_packs sys !! i = Some p' ∧ buckets_ p' = buckets_ p ∧ size_ p' = size_ p ∧
    sys_packs sys !! pack = Some (mkPack limit 0 (list_to_set (active_handles_ s)) []) ∧
    sys_heap sys = sys_heap (ss_system s) ∧
    session_ok (renewed s i p pack sys) ∧ session_log (renewed s i p pack sys) = session_log s.
Proof.
  intros Hok Hi Hp Hpack Hlim. assert (i ≠ pack) as Hne by congruence.
  destruct (sys_ok_call (ss_system s) (CallPack pack limit)) as (sys0 & Hcall & Hsys0); [apply Hok|done|].
  rewrite call_pack in Hcall. injection Hcall as <-.
  pose proof (sn_current s Hok) as Hc. rewrite Hi, Hp in Hc. destruct Hc as (_ & ? & [= <-] & Ho).
  destruct (transfer_all_ok i pack (active_handles_ s) Hne _ p (new_pack limit) Hsys0) as (sys & -> & Hsys & Hh & Hother & Hpi & Hpp).
  { cbn. by rewrite lookup_insert_ne. } { cbn. by rewrite lookup_insert_eq. } { apply Hok. }
  { intros c Hc. rewrite Ho. by apply elem_of_list_to_set. }
  assert (open_buckets_ p ∖ list_to_set (active_handles_ s) = ∅) as He by (rewrite Ho; set_solver). rewrite He in Hpi.
  cbn in Hpp. rewrite (right_id_L ∅ (∪)) in Hpp. cbn in Hh.
  assert (keeps i (ss_system s) sys) as Hk.
  { eapply keeps_closed; try done. intros k Hki Hkp. rewrite Hother by done. cbn. by rewrite lookup_insert_ne. }
  destruct (renewed_ok s i p pack sys _ Hok Hi Hp Hsys Hk Hne Hpack (ex_intro _ _ (conj Hpi eq_refl)) Hpp) as [H1 H2]; [done..|].
  eexists _, _. by split_and!.
Qed.

Lemma committed_twice b type id name :
  committed_bucket (committed_bucket b type id name) type id name = committed_bucket b type id name.
Proof. unfold committed_bucket. cbn. by destruct (decide (type = kNamed)). Qed.

Lemma commit_S fuel s i p type id a name pack : current_pack_ s = Some i → sys_packs (ss_system s) !! i = Some p →
  SessionCommitBucket (S fuel) s type id a name false pack
  = '(committed, sys) ← commit_in (ss_system s) i type id a name;
    let s := with_system s sys in
    if committed : bool then
      let s := with_active s (filter (λ a', a' ≠ a) (active_handles_ s)) in
      p' ← get_pack sys i;
      Ret (true, with_committed s (u64 (bytes_committed_ s + u64 (size_ p' - size_ p))))
    else
      b ← deref (sys_heap sys) a;
      let new_size := if bk_capacity b >? max_pack_size_ s then u64 (bk_capacity b + 1) else max_pack_size_ s in
      sys ← transfer_all (mkSystem (sys_heap sys) (<[pack := new_pack new_size]> (sys_packs sys))) i (active_handles_ s) pack;
      p ← get_pack sys i;
      s ← (if zlen (buckets_ p) >? 0 then Dispatch (with_system s sys) else Ret (with_system s sys));
      '(_, s) ← SessionCommitBucket fuel (with_current s (Some pack)) type id a name false pack;
      Ret (true, s).
Proof. intros Hi Hp. cbn [SessionCommitBucket]. rewrite Hi. unfold get_pack. by rewrite Hp. Qed.

Definition new_pack_size (s : Session) (b : Bucket) : Z :=
  if bk_capacity b >? max_pack_size_ s then u64 (bk_capacity b + 1) else max_pack_size_ s.

Lemma new_pack_fits s b : session_ok s → bucket_ok b → 0 ≤ new_pack_size s b < 2 ^ 63 ∧ bk_size b ≤ new_pack_size s b.
Proof.
  intros Hok (Hcap & Hsz & _). pose proof (sn_limit s Hok). unfold new_pack_size. rewrite u64_small by (unfold is_u64; lia).
  rewrite Z.gtb_ltb. destruct (Z.ltb_spec (max_pack_size_ s) (bk_capacity b)); lia.
Qed.

(** A pack that is full is replaced, and the bucket is committed again. *)
Lemma commit_renews fuel s i p a b sys sys' p' type id name pack : current_pack_ s = Some i → sys_packs (ss_system s) !! i = Some p →
  commit_in (ss_system s) i type id a name = Ret (false, sys) → sys_heap sys !! a = Some b →
  transfer_all (mkSystem (sys_heap sys) (<[pack := new_pack (new_pack_size s b)]> (sys_packs sys))) i (active_handles_ s) pack = Ret sys' →
  sys_packs sys' !! i = Some p' → buckets_ p' = buckets_ p → size_ p' = size_ p →
  SessionCommitBucket (S fuel) s type id a name false pack
  = '(_, s) ← SessionCommitBucket fuel (renewed (with_system s sys) i p pack sys') type id a name false pack; Ret (true, s).
Proof.
  intros Hi Hp Hc Hb Htr Hp' Hbs Hsz. rewrite (commit_S _ s i p) by done. rewrite Hc. exec. unfold deref. rewrite Hb. exec.
  unfold new_pack_size in Htr. cbn [max_pack_size_ active_handles_ with_system]. rewrite Htr. exec.
  unfold get_pack at 1. rewrite Hp'. exec. rewrite Hbs. unfold renewed, Dispatch, with_current, with_system.
  destruct (zlen (buckets_ p) >? 0); cbn [current_pack_ ss_system]; [|done].
  rewrite Hi. unfold get_pack. rewrite Hp'. exec. by rewrite Hsz.
Qed.

(** [CommitBucket] always takes the bucket, in the current pack or in a new one. *)
Lemma SessionCommitBucket_ok fuel s a b type id name pack : session_ok s → active_at s a b → sys_packs (ss_system s) !! pack = None →
  ∃ s', SessionCommitBucket (S (S fuel)) s type id a name false pack = Ret (true, s') ∧ session_ok s' ∧
    session_log s' = session_log s ++ [committed_bucket b type id name] ∧
    active_handles_ s' = filter (λ c, c ≠ a) (active_handles_ s) ∧
    sys_heap (ss_system s') = <[a := committed_bucket b type id name]> (sys_heap (ss_system s)).
Proof.
  intros Hok Hact Hpack. destruct (active_inv s a b Hok Hact) as (i & p & Hi & Hj & Hp & Ha & Ho). destruct Hact as [Hact Hb].
  pose proof (so_buckets _ (sn_sys _ Hok) _ _ Hb) as Hbok.
  destruct (commit_in_ok (ss_system s) i p a b type id name (sn_sys _ Hok) Hp Ha Hb) as (ok & p' & Hc & Hsys & Hp').
  destruct ok.
  { rewrite (commit_S _ s i p) by done. rewrite Hc. exec. unfold get_pack. cbn [sys_packs]. rewrite lookup_insert_eq. exec. subst p'.
    destruct (commit_taken s i p a b type id name Hok Hi (conj Hact Hb) Hp Hsys). by eexists. }
  destruct Hp' as [-> _]. set (b' := committed_bucket b type id name) in *. set (sys1 := mkSystem _ _) in *.
  assert (sys_packs sys1 !! i = Some p) as Hp1 by (cbn; by rewrite lookup_insert_eq).
  assert (sys_heap sys1 !! a = Some b') as Hb1 by (cbn; by rewrite lookup_insert_eq).
  destruct (session_keeps s i sys1 (active_handles_ s) p) as [Hok1 Hlog1]; try done;
    [by eapply keeps_insert; [apply Hok| |left|]|apply Hok|].
  destruct (new_pack_fits s b' Hok Hbok) as [Hlim Hfit].
  destruct (renew_ok _ i p pack (new_pack_size s b') Hok1 Hi Hp1) as (sys2 & p2 & Htr & Hp2 & Hb2 & Hs2 & Hq2 & Hh2 & Hok2 & Hlog2); [|done|].
  { cbn. rewrite lookup_insert_ne; [done|congruence]. }
  rewrite (commit_renews _ s i p a b' sys1 sys2 p2) by done.
  change (with_active (with_system s sys1) (active_handles_ s)) with (with_system s sys1) in *.
  destruct (commit_fits fuel _ pack _ a b' type id name pack Hok2 eq_refl (conj Hact (eq_trans (f_equal (lookup a) Hh2) Hb1)) Hq2)
    as (s' & Hcommit & Hok' & Hlog' & Hact' & Hheap'); [by vm_compute|cbn; lia|].
  rewrite Hcommit. exec. eexists. split; [done|]. split; [done|]. unfold b' in *. rewrite committed_twice in *.
  rewrite Hlog', Hlog2, Hlog1, Hact', Hheap'. cbn. rewrite Hh2. cbn. by rewrite insert_insert_eq.
Qed.

(** ** Uploading *)

Definition bytes_of (s : Session) : Z * Z := (bytes_committed_ s, bytes_dispatched_ s).

Lemma UploadLoop_ok s i jobs : session_ok s → upload_jobs_ s = i :: jobs →
  ∃ p s', UploadLoop_turn s = Ret (Some (p, sys_heap (ss_system s)), s') ∧ pack_ok (sys_heap (ss_system s)) p ∧ session_ok s' ∧
    session_log s = omap (λ a, sys_heap (ss_system s) !! a) (buckets_ p) ++ session_log s' ∧ upload_jobs_ s' = jobs ∧
    bytes_of s' = bytes_of s ∧ current_log s' = current_log s ∧
    active_handles_ s' = active_handles_ s ∧
    ∀ a, a ∈ active_handles_ s → sys_heap (ss_system s') !! a = sys_heap (ss_system s) !! a.
Proof.
  intros Hok Hj. destruct (sn_closed s Hok i) as (p & Hp & Hpo); [rewrite Hj; left|].
  pose proof (so_packs _ (sn_sys _ Hok) _ _ Hp) as Hpk.
  destruct (sys_ok_call (ss_system s) (CallDestroy i)) as (sys' & Hcall & Hsys'); [apply Hok|by exists p|].
  unfold UploadLoop_turn. rewrite Hj. unfold get_pack. rewrite Hp. exec. rewrite Hcall. exec.
  cbn [do_call] in Hcall. unfold get_pack in Hcall. rewrite Hp in Hcall. cbn [mbind outcome_bind] in Hcall.
  destruct (destroy_pack_ok _ _ Hpk) as (h' & Hd & Hh). rewrite Hd in Hcall. cbn in Hcall. injection Hcall as <-.
  pose proof Hok as [Hsys Hlim Hnd Hjobs Hcur Hcl Hby Hdisp]. rewrite Hj in Hjobs, Hcl, Hcur. apply NoDup_cons in Hjobs as [Hij Hjobs].
  assert (∀ k q, k ≠ i → sys_packs (ss_system s) !! k = Some q → delete i (sys_packs (ss_system s)) !! k = Some q ∧
    ∀ a, a ∈ handles q → h' !! a = sys_heap (ss_system s) !! a) as Hkeep.
  { intros k q Hki Hq. rewrite lookup_delete_ne by done. split; [done|]. intros a Ha. rewrite Hh.
    rewrite decide_False; [done|]. pose proof (so_disjoint _ Hsys _ _ _ _ Hq Hp Hki). set_solver. }
  assert (∀ k, k ≠ i → is_Some (sys_packs (ss_system s) !! k) →
    pack_log (mkSystem h' (delete i (sys_packs (ss_system s)))) k = pack_log (ss_system s) k) as Hlog.
  { intros k Hki [q Hq]. destruct (Hkeep k q Hki Hq) as [Hq' Hhq]. apply (pack_log_ext _ _ _ q q); try done.
    intros a Ha. apply Hhq. unfold handles. set_solver. }
  set (s' := mkSession _ _ _ _ _ _ _).
  assert (current_log s' = current_log s) as Hcl'.
  { unfold current_log, s'. cbn. destruct (current_pack_ s) as [j|]; [|done]. destruct Hcur as (Hnj & q & Hq & _). apply Hlog; [set_solver|by exists q]. }
  exists p, s'. split_and!; try done.
  - split; try done; cbn.
    + destruct (current_pack_ s) as [j|]; [|done]. destruct Hcur as (Hnj & q & Hq & Ho). split; [set_solver|]. exists q.
      split; [|done]. apply Hkeep; [set_solver|done].
    + intros k Hk. destruct (Hcl k) as (q & Hq & Hqo); [by right|]. exists q. split; [|done]. apply Hkeep; [by intros ->|done].
    + rewrite Hby. unfold current_size. cbn. destruct (current_pack_ s) as [j|]; [|done]. destruct Hcur as (Hnj & q & Hq & _).
      rewrite lookup_delete_ne by set_solver. done.
  - unfold session_log. rewrite Hj, Hcl'. cbn [fmap list_fmap concat]. rewrite <- app_assoc. f_equal.
    + unfold pack_log. by rewrite Hp.
    + f_equal. symmetry. apply logs_ext. intros k Hk. destruct (Hcl k) as (q & Hq & _); [by right|]. apply Hlog; [by intros ->|by exists q].
  - intros a Ha. cbn. destruct (current_pack_ s) as [j|] eqn:Hc; [|rewrite Hcur in Ha; set_solver]. destruct Hcur as (Hnj & q & Hq & Ho).
    eapply Hkeep; [|exact Hq|]; [set_solver|]. apply open_handle. rewrite Ho. by apply elem_of_list_to_set.
Qed.

(** The buckets of uploaded packs. *)
Definition uploaded (jobs : list (ObjectPack * heap)) : list Bucket := concat ((λ j, omap (λ a, j.2 !! a) (buckets_ j.1)) <$> jobs).

Lemma wait_results_ok n : ∀ s, session_ok s → length (upload_jobs_ s) = n →
  ∃ jobs s', wait_results n s = Ret (jobs, s') ∧ session_ok s' ∧ session_log s = uploaded jobs ++ session_log s' ∧
    Forall (λ j, pack_ok j.2 j.1) jobs ∧ upload_jobs_ s' = [] ∧ bytes_of s' = bytes_of s ∧ current_log s' = current_log s.
Proof.
  induction n as [|n IH]; intros s Hok Hn.
  { apply nil_length_inv in Hn. by exists [], s. }
  destruct (upload_jobs_ s) as [|i jobs] eqn:Hj; [done|]. cbn [wait_results].
  destruct (UploadLoop_ok s i jobs Hok Hj) as (p & s1 & -> & Hp & Hok1 & Hlog & Hj1 & Hc1 & Hcl1 & _ & _). exec.
  destruct (IH s1 Hok1) as (js & s2 & -> & Hok2 & Hlog2 & Hps & Hj2 & Hc2 & Hcl2); [rewrite Hj1; by injection Hn|]. exec.
  eexists _, s2. split; [done|]. split_and!; try done; [|by constructor|congruence..].
  rewrite Hlog, Hlog2. unfold uploaded. cbn. by rewrite app_assoc.
Qed.

Lemma finalize_dispatch_ok s : session_ok s → active_handles_ s = [] →
  ∃ s', finalize_dispatch s = Ret s' ∧ session_ok s' ∧ session_log s' = session_log s ∧ current_log s' = [] ∧ current_size s' = 0.
Proof.
  intros Hok Hact. unfold finalize_dispatch. destruct (current_pack_ s) as [i|] eqn:Hi.
  2:{ exists s. split_and!; try done; unfold current_log, current_size; by rewrite Hi. }
  pose proof Hok as [Hsys Hlim Hnd Hjobs Hcur Hcl Hby Hdisp]. rewrite Hi in Hcur. destruct Hcur as (Hij & p & Hp & Ho). rewrite Hact in Ho.
  unfold get_pack. rewrite Hp. exec. unfold current_size in Hby. rewrite Hi, Hp in Hby. cbn in Hby.
  destruct (zlen (buckets_ p) >? 0) eqn:Hz.
  2:{ exists s. destruct (empty_pack_size _ _ (so_packs _ Hsys _ _ Hp) Hz) as [Hb0 Hs0].
      split_and!; try done; unfold current_log, current_size, pack_log; rewrite Hi, Hp; [by rewrite Hb0|done]. }
  unfold Dispatch. rewrite Hi. unfold get_pack. rewrite Hp. exec. eexists. split; [done|]. split_and!; [|..|done|done].
  - split; try done; cbn.
    + apply NoDup_app. split_and!; [done| |apply NoDup_singleton]. by intros k Hkj ->%list_elem_of_singleton.
    + intros k [Hkj| ->%list_elem_of_singleton]%elem_of_app; [by apply Hcl|by exists p].
    + unfold current_size. cbn. rewrite Z.add_0_r, (u64_small (u64 _)) by apply u64_range. done.
    + apply u64_range.
  - unfold session_log, current_log. cbn. rewrite Hi, fmap_app, concat_app. cbn. by rewrite !app_nil_r.
Qed.

(** [Finalize] uploads the rest, and accounts for every byte. *)
Lemma Finalize_ok s commit old new : session_ok s → active_handles_ s = [] → old ≠ [] → new ≠ [] →
  ∃ jobs s', Finalize s true commit old new true = Ret (true, jobs, s') ∧ session_log s = uploaded jobs ∧
    Forall (λ j, pack_ok j.2 j.1) jobs.
Proof.
  intros Hok Hact Hold Hnew. unfold Finalize. rewrite (bool_decide_true (active_handles_ s = [])) by done. exec. cbn [negb].
  destruct (finalize_dispatch_ok s Hok Hact) as (s1 & -> & Hok1 & Hlog1 & Hcl1 & Hs1). exec.
  destruct (wait_results_ok _ s1 Hok1 eq_refl) as (jobs & s2 & -> & Hok2 & Hlog2 & Hps & Hj2 & Hc2 & Hcl2). exec.
  rewrite (bool_decide_false (old = [])), (bool_decide_false (new = [])) by done. cbn [orb negb]. rewrite andb_false_r.
  exists jobs, s2. rewrite <- Hlog1, Hlog2. unfold session_log. rewrite Hj2, Hcl2, Hcl1. cbn [fmap list_fmap concat]. rewrite !app_nil_r.
  split; [|done]. rewrite eqb_true; [done|]. injection Hc2 as -> ->.
  rewrite (sn_bytes _ Hok1), Hs1, Z.add_0_r. apply u64_small, Hok1.
Qed.

(** ** Sessions *)

(** What the uploader and the thread do: [pack] and [handle] are the addresses
    that [new] returns. *)
Inductive session_op :=
  | OpNew (pack handle : Z)
  | OpAdd (handle : Z) (buf : bytes)
  | OpCommit (type : BucketContentType) (id : any) (handle : Z) (name : bytes) (pack : Z)
  | OpUpload.

Inductive session_event := EvNone | EvCommit (result : bool) | EvUpload (job : option (ObjectPack * heap)).

Definition session_step (s : Session) (op : session_op) : outcome (session_event * Session) :=
  match op with
  | OpNew pack handle => s ← SessionNewBucket s pack handle; Ret (EvNone, s)
  | OpAdd handle buf => sys ← do_call (ss_system s) (CallAdd handle buf); Ret (EvNone, with_system s sys)
  | OpCommit type id handle name pack => '(ok, s) ← SessionCommitBucket 2 s type id handle name false pack; Ret (EvCommit ok, s)
  | OpUpload => '(job, s) ← UploadLoop_turn s; Ret (EvUpload job, s)
  end.

Fixpoint run_session (s : Session) (ops : list session_op) : outcome (list session_event * Session) :=
  match ops with
  | [] => Ret ([], s)
  | op :: ops => '(e, s) ← session_step s op; '(es, s) ← run_session s ops; Ret (e :: es, s)
  end.

(** How the session may be used: [new] returns unused addresses, and data is
    added to and committed for open buckets only. *)
Definition session_allowed (s : Session) (op : session_op) : Prop :=
  match op with
  | OpNew pack handle => sys_packs (ss_system s) !! pack = None ∧ sys_heap (ss_system s) !! handle = None
  | OpAdd handle buf => ∃ b, active_at s handle b ∧ bk_size b + zlen buf ≤ 2 ^ 60
  | OpCommit _ _ handle _ pack => sys_packs (ss_system s) !! pack = None ∧ ∃ b, active_at s handle b
  | OpUpload => True
  end.

Fixpoint allowed_ops (s : Session) (ops : list session_op) : Prop :=
  match ops with
  | [] => True
  | op :: ops => session_allowed s op ∧ ∀ e s', session_step s op = Ret (e, s') → allowed_ops s' ops
  end.

(** The specification: the open buckets with what was added to them, and the
    objects that were committed. *)
Definition object_view : Type := bytes * any * BucketContentType * bytes.

Definition view (b : Bucket) : object_view :=
  (bk_content b, bk_id b, bk_content_type b, if decide (bk_content_type b = kNamed) then bk_name b else []).

Record session_spec := mkSpec { sp_open : gmap Z bytes; sp_done : list object_view }.

Definition open_content (sp : session_spec) (handle : Z) : bytes :=
  match sp_open sp !! handle with Some c => c | None => [] end.

Definition spec_step (sp : session_spec) (op : session_op) : session_spec :=
  match op with
  | OpNew _ handle => mkSpec (<[handle := []]> (sp_open sp)) (sp_done sp)
  | OpAdd handle buf => mkSpec (alter (λ c, c ++ buf) handle (sp_open sp)) (sp_done sp)
  | OpCommit type id handle name _ =>
      mkSpec (delete handle (sp_open sp))
        (sp_done sp ++ [(open_content sp handle, id, type, if decide (type = kNamed) then name else [])])
  | OpUpload => sp
  end.

Definition run_spec (sp : session_spec) (ops : list session_op) : session_spec := foldl spec_step sp ops.

Definition empty_spec : session_spec := mkSpec ∅ [].

Definition jobs_of (es : list session_event) : list (ObjectPack * heap) :=
  omap (λ e, match e with EvUpload job => job | _ => None end) es.

(** [sent] was uploaded. *)
Record refines (s : Session) (sp : session_spec) (sent : list Bucket) : Prop := {
  rf_ok : session_ok s;
  rf_open : ∀ a, a ∈ active_handles_ s ↔ is_Some (sp_open sp !! a);
  rf_content : ∀ a c, sp_open sp !! a = Some c → ∃ b, sys_heap (ss_system s) !! a = Some b ∧ bk_content b = c;
  rf_done : view <$> (sent ++ session_log s) = sp_done sp
}.

Lemma refines_new : ∀ max, 0 ≤ max < 2 ^ 63 → refines (new_session max) empty_spec [].
Proof.
  intros max Hmax. split; try done; [|intros a; split; [intros []%not_elem_of_nil|intros [? ?]; done]].
  split; cbn; try done; try apply NoDup_nil_2.
  by intros i []%not_elem_of_nil.
Qed.

Lemma step_new s sp sent pack a : refines s sp sent → session_allowed s (OpNew pack a) →
  ∃ s', session_step s (OpNew pack a) = Ret (EvNone, s') ∧ refines s' (spec_step sp (OpNew pack a)) sent.
Proof.
  intros [Hok Hopen Hcon Hdone] [Hpack Ha]. cbn [session_step].
  destruct (SessionNewBucket_ok s pack a Hok Hpack Ha) as (s' & -> & Hok' & Hlog & Hact & Hh). exec. exists s'. split; [done|].
  split; [done|cbn|cbn|cbn [spec_step sp_done]].
  - intros c. rewrite Hact, elem_of_app, list_elem_of_singleton, Hopen, lookup_insert_is_Some'. naive_solver.
  - intros c x. rewrite Hh. intros [[<- <-]|[Hne Hx]]%lookup_insert_Some.
    + exists new_bucket. by rewrite lookup_insert_eq.
    + rewrite lookup_insert_ne by done. by apply Hcon.
  - by rewrite Hlog.
Qed.

Lemma step_add s sp sent a buf : refines s sp sent → session_allowed s (OpAdd a buf) →
  ∃ s', session_step s (OpAdd a buf) = Ret (EvNone, s') ∧ refines s' (spec_step sp (OpAdd a buf)) sent.
Proof.
  intros [Hok Hopen Hcon Hdone] (b & Hact & Hsize). cbn [session_step].
  destruct (SessionAdd_ok s a b buf Hok Hact Hsize) as (sys & c & -> & Hok' & Hlog & Hh). exec. eexists. split; [done|].
  split; [done|cbn|cbn|cbn [spec_step sp_done]].
  - intros d. rewrite Hopen. destruct (decide (d = a)) as [->|Hne]; [rewrite lookup_alter_eq|by rewrite lookup_alter_ne].
    by rewrite fmap_is_Some.
  - intros d x. rewrite Hh. destruct (decide (d = a)) as [->|Hne].
    + rewrite lookup_alter_eq, lookup_insert_eq. intros (y & Hy & ->)%fmap_Some. destruct (Hcon a y Hy) as (b' & Hb' & <-).
      destruct Hact as [_ Hb]. rewrite Hb in Hb'. injection Hb' as <-. by eexists.
    + rewrite lookup_alter_ne, lookup_insert_ne by done. by apply Hcon.
  - by rewrite Hlog.
Qed.

Lemma step_commit s sp sent type id a name pack : refines s sp sent → session_allowed s (OpCommit type id a name pack) →
  ∃ s', session_step s (OpCommit type id a name pack) = Ret (EvCommit true, s') ∧
    refines s' (spec_step sp (OpCommit type id a name pack)) sent.
Proof.
  intros [Hok Hopen Hcon Hdone] (Hpack & b & Hact). cbn [session_step].
  destruct (SessionCommitBucket_ok 0 s a b type id name pack Hok Hact Hpack) as (s' & -> & Hok' & Hlog & Hact' & Hh). exec.
  eexists. split; [done|]. destruct Hact as [Ha Hb].
  destruct (proj1 (Hopen a) Ha) as [c Hc]. destruct (Hcon a c Hc) as (b' & Hb' & <-). rewrite Hb in Hb'. injection Hb' as <-.
  split; [done|cbn|cbn|cbn [spec_step sp_done]].
  - intros d. rewrite Hact', list_elem_of_filter, Hopen, lookup_delete_is_Some. naive_solver.
  - intros d x. rewrite Hh. intros [Hne Hx]%lookup_delete_Some. rewrite lookup_insert_ne by done. by apply Hcon.
  - rewrite Hlog, app_assoc, fmap_app, Hdone. unfold open_content. rewrite Hc. cbn. do 2 f_equal. unfold view, committed_bucket. cbn. by destruct (decide (type = kNamed)).
Qed.

Lemma step_upload s sp sent : refines s sp sent →
  ∃ job s', session_step s OpUpload = Ret (EvUpload job, s') ∧ refines s' sp (sent ++ uploaded (jobs_of [EvUpload job])) ∧
    Forall (λ j, pack_ok j.2 j.1) (jobs_of [EvUpload job]).
Proof.
  intros [Hok Hopen Hcon Hdone]. cbn [session_step]. destruct (upload_jobs_ s) as [|i jobs] eqn:Hj.
  { unfold UploadLoop_turn. rewrite Hj. exec. eexists None, s. split; [done|]. cbn. rewrite app_nil_r. split; [by split|constructor]. }
  destruct (UploadLoop_ok s i jobs Hok Hj) as (p & s' & -> & Hp & Hok' & Hlog & Hj' & _ & _ & Hact & Hh). exec.
  eexists (Some _), s'. split; [done|]. split; [|by constructor]. split; [done|..].
  - intros a. by rewrite Hact.
  - intros a c Hc. destruct (Hcon a c Hc) as (b & Hb & Hbc). exists b. rewrite Hh; [done|]. apply Hopen. by exists c.
  - rewrite <- Hdone, Hlog. unfold uploaded. cbn. by rewrite app_nil_r, app_assoc.
Qed.

Lemma uploaded_app jobs jobs' : uploaded (jobs ++ jobs') = uploaded jobs ++ uploaded jobs'.
Proof. unfold uploaded. by rewrite fmap_app, concat_app. Qed.

Lemma session_steps ops : ∀ s sp sent, refines s sp sent → allowed_ops s ops →
  ∃ es s', run_session s ops = Ret (es, s') ∧ refines s' (run_spec sp ops) (sent ++ uploaded (jobs_of es)) ∧
    Forall (λ j, pack_ok j.2 j.1) (jobs_of es) ∧ EvCommit false ∉ es.
Proof.
  induction ops as [|op ops IH]; intros s sp sent Href Hops.
  { exists [], s. split_and!; [done|by rewrite app_nil_r|constructor|apply not_elem_of_nil]. }
  destruct Hops as [Hop Hops]. cbn [run_session run_spec foldl].
  assert (∃ e s1, session_step s op = Ret (e, s1) ∧ refines s1 (spec_step sp op) (sent ++ uploaded (jobs_of [e])) ∧
    Forall (λ j, pack_ok j.2 j.1) (jobs_of [e]) ∧ EvCommit false ≠ e) as (e & s1 & Hs1 & Hr1 & Hp1 & He).
  { destruct op as [pack a|a buf|type id a name pack|].
    - destruct (step_new s sp sent pack a Href Hop) as (s1 & ? & ?). exists EvNone, s1. by rewrite app_nil_r.
    - destruct (step_add s sp sent a buf Href Hop) as (s1 & ? & ?). exists EvNone, s1. by rewrite app_nil_r.
    - destruct (step_commit s sp sent type id a name pack Href Hop) as (s1 & ? & ?). exists (EvCommit true), s1. by rewrite app_nil_r.
    - destruct (step_upload s sp sent Href) as (job & s1 & ? & ? & ?). by exists (EvUpload job), s1. }
  rewrite Hs1. exec. destruct (IH s1 _ _ Hr1 (Hops e s1 Hs1)) as (es & s2 & -> & Hr2 & Hp2 & Hes). exec.
  exists (e :: es), s2. assert (jobs_of (e :: es) = jobs_of [e] ++ jobs_of es) as Hj by (unfold jobs_of; cbn; by case_match).
  rewrite Hj, uploaded_app, app_assoc. split_and!; [done|done|by apply Forall_app|by rewrite not_elem_of_cons].
Qed.

(** C19. Everything that is committed is uploaded, once and in order. However the
    uploader interleaves buckets, and whenever the thread takes a job: no call
    fails, [CommitBucket] always succeeds, and the packs that are uploaded so far
    and those still in the session hold the committed objects in order, with the
    contents that were added to them.  If no bucket is open, [Finalize] succeeds,
    and all objects have been uploaded. *)
Theorem session_delivers max ops commit old_root_hash new_root_hash : 0 ≤ max < 2 ^ 63 → allowed_ops (new_session max) ops →
  old_root_hash ≠ [] → new_root_hash ≠ [] →
  ∃ es s, run_session (new_session max) ops = Ret (es, s) ∧ EvCommit false ∉ es ∧
    view <$> (uploaded (jobs_of es) ++ session_log s) = sp_done (run_spec empty_spec ops) ∧
    (sp_open (run_spec empty_spec ops) = ∅ →
     ∃ jobs s', Finalize s true commit old_root_hash new_root_hash true = Ret (true, jobs, s') ∧
       view <$> uploaded (jobs_of es ++ jobs) = sp_done (run_spec empty_spec ops)).
Proof.
  intros Hmax Hops Hold Hnew.
  destruct (session_steps ops _ _ _ (refines_new max Hmax) Hops) as (es & s & Hrun & [Hok Hopen Hcon Hdone] & _ & Hes).
  exists es, s. split_and!; [done|done|done|]. intros He. rewrite He in Hopen.
  destruct (Finalize_ok s commit old_root_hash new_root_hash Hok) as (jobs & s' & Hf & Hlog & _); try done.
  { apply elem_of_nil_inv. intros a Ha. apply Hopen in Ha as [? ?]. done. }
  exists jobs, s'. split; [done|]. by rewrite uploaded_app, <- Hlog.
Qed.

(** ** The reply *)

(** Each piece of the reply replaces the ones before it. *)
Lemma reply_replaced memory piece n received : c_string memory = Ret piece → 1 ≤ n → RecvCB memory n received = Ret (zlen piece, piece).
Proof. intros Hs Hn. unfold RecvCB. rewrite ltb_false by lia. by rewrite Hs. Qed.

Module SessionWitness.
(** Packs of at most 1000 bytes: the second bucket does not fit beside the
    first, and the third one is larger than a pack. *)
Definition id_w (c : Z) : any := Any (replicate 20 c) kSha1 kSuffixNone.

Definition ops_w : list session_op :=
  [OpNew 0 100; OpAdd 100 (replicate 600 1); OpNew 1 101; OpAdd 101 (replicate 500 2);
   OpCommit kCas (id_w 1) 100 [] 1; OpUpload; OpNew 1 102; OpCommit kCas (id_w 2) 101 [] 1; OpUpload;
   OpAdd 102 (replicate 3000 3); OpCommit kNamed (id_w 3) 102 [65] 2].

Lemma allowed_op s op e s' ops : session_allowed s op → session_step s op = Ret (e, s') → allowed_ops s' ops → allowed_ops s (op :: ops).
Proof. intros Hop Hs Hops. split; [done|]. rewrite Hs. by intros ? ? [= <- <-]. Qed.

Ltac solve_active := split; [apply (bool_decide_unpack _); vm_compute; exact I|vm_compute; reflexivity].
Ltac solve_op :=
  cbn [session_allowed];
  repeat match goal with
  | |- True => exact I
  | |- ∃ b, active_at _ _ b ∧ _ => eexists; split; [solve_active|by vm_compute]
  | |- ∃ b, active_at _ _ b => eexists; solve_active
  | |- _ ∧ _ => split
  | |- _ => by vm_compute
  end.

Lemma session_delivers_witness :
  ∃ es s, run_session (new_session 1000) ops_w = Ret (es, s) ∧ EvCommit false ∉ es ∧
    view <$> (uploaded (jobs_of es) ++ session_log s) = sp_done (run_spec empty_spec ops_w) ∧
    ∃ jobs s', Finalize s true true [48] [49] true = Ret (true, jobs, s') ∧
      view <$> uploaded (jobs_of es ++ jobs)
      = [(replicate 600 1, id_w 1, kCas, []); (replicate 500 2, id_w 2, kCas, []); (replicate 3000 3, id_w 3, kNamed, [65])].
Proof.
  destruct (session_delivers 1000 ops_w true [48] [49]) as (es & s & Hrun & Hes & Hlog & Hfin); [lia| |done|done|].
  { unfold ops_w. do 11 (eapply allowed_op; [solve_op|vm_compute; reflexivity|]). exact I. }
  exists es, s. split_and!; [done|done|done|]. destruct Hfin as (jobs & s' & Hf & Hj); [by vm_compute|].
  exists jobs, s'. split; [done|]. rewrite Hj. by vm_compute.
Defined.
End SessionWitness.
