(* ===== verification/Publish.v ===== *)
(** * From the publisher to the storage

    The session of Session.v uploads packs, the receiver of Receiver.v takes them
    apart again.  Between the two is the gateway, which hands the body of the
    request, without the message in front of it, to the receiver together with
    the digest and the size of the header that the message names. *)

From stdpp Require Import base numbers list gmap.
From S2P Require Import Prelude Bytes StringUtil Hash Pack PackStream Receiver Session.

Open Scope Z_scope.

(** ** Sizes *)

Lemma omap_total (h : heap) (l : list Z) : (∀ a, a ∈ l → a ∈ dom h) → Forall2 (λ a (b : Bucket), h !! a = Some b) l (omap (λ a : Z, h !! a) l).
Proof.
  induction l as [|a l IH]; intros Hl; [constructor|]. cbn.
  destruct (proj1 (elem_of_dom h a) (Hl a ltac:(left))) as [b Hb]. rewrite Hb. constructor; [done|]. apply IH. intros c Hc. apply Hl. by right.
Qed.

Lemma total_contents (h : heap) l bs : Forall2 (λ a (b : Bucket), h !! a = Some b) l bs → total h l = zlen (concat (bk_content <$> bs)).
Proof.
  induction 1 as [|a b l bs Hb _ IH]; [done|]. unfold total in *. cbn. rewrite IH, zlen_app. unfold size_at. by rewrite Hb.
Qed.

Lemma json_small token digest n : zlen token < 2 ^ 20 → zlen digest = 40 → 0 ≤ n < 2 ^ 32 → zlen (json_msg token digest n) < 2 ^ 22.
Proof.
  intros Ht Hd Hn. pose proof (zlen_StringifyInt 10 n ltac:(lia) ltac:(lia) ltac:(lia)).
  unfold json_msg, quoted. rewrite !zlen_app, !zlen_cons, !zlen_app. change (zlen [_]) with 1. change (zlen (StringifyInt APIVersion)) with 1.
  repeat match goal with |- context [zlen (text ?s)] => let v := eval vm_compute in (zlen (text s)) in change (zlen (text s)) with v end. lia.
Qed.

Section Publish.
Context {context : Type} (init : Algorithms → context) (update : context → bytes → context) (final : context → bytes).
Context (H : Algorithms → bytes → bytes).
Context (H_pieces : ∀ a pieces, a ≠ kAny → final (foldl update (init a) pieces) = H a (concat pieces)).
Context (H_size : ∀ a m, a ≠ kAny → zlen (H a m) = kDigestSizes a).
Context (H_bytes : ∀ a m, a ≠ kAny → bytes_ok (H a m)).

(** The buckets of a job. *)
Definition job_buckets (j : ObjectPack * heap) : list Bucket := omap (λ a, j.2 !! a) (buckets_ j.1).

(** An object that a pack can carry and that is named by its hash. *)
Definition good_view (v : object_view) : Prop :=
  let '(content, id, _, _) := v in
  id_ok id ∧ zlen content < 2 ^ 32 ∧ any_eq (hash_of H (algorithm id) kSuffixNone content) id = true.

Lemma good_view_bucket b : good_view (view b) → bucket_small b ∧ bucket_hashed H b.
Proof. intros (Hid & Hs & Hh). by split; [split|]. Qed.

(** The upload of a job arrives: the request has the size that it announces, for
    buffers of any size, and from its body the receiver stores the buckets, however
    it is cut into pieces. *)
Definition job_stored (session_token : bytes) (j : ObjectPack * heap) : Prop :=
  ∃ rq, DoUpload init update final j.2 j.1 session_token = Ret rq ∧
  ∀ sizes, Forall (λ n, 1 ≤ n < 2 ^ 32) sizes → rq_size rq ≤ total_size sizes →
  ∃ outs, send_all j.2 j.1 (rq_payload rq) sizes = Ret outs ∧ zlen (concat outs) = rq_size rq ∧
  ∀ chunks, Forall (λ b, b ≠ []) chunks → concat outs = json_message (rq_payload rq) ++ concat chunks →
  ∃ r, Process init update final kSuccess 0 (rq_digest rq) (rq_header_size rq) (FdBytes <$> chunks) = Ret (kSuccess, r) ∧
    Forall2 stored_from (job_buckets j) (run_uploader (uploader_ r) ∅).

(** Every pack that a session uploads arrives. *)
Lemma job_stored_ok token j : zlen token < 2 ^ 20 → pack_ok j.2 j.1 → Forall (good_view ∘ view) (job_buckets j) → job_stored token j.
Proof.
  destruct j as [p h]. cbn [fst snd]. intros Ht Hok Hgood. set (bs := job_buckets (p, h)) in *.
  assert (Forall2 (λ a b, h !! a = Some b) (buckets_ p) bs) as Hbs.
  { apply omap_total. intros a Ha. apply (pk_handles _ _ Hok). unfold handles. set_solver. }
  assert (Forall bucket_small bs ∧ Forall (bucket_hashed H) bs) as [Hsmall Hhash].
  { split; (eapply Forall_impl; [exact Hgood|]); intros b Hb; by apply good_view_bucket. }
  destruct (new_producer_ok h p bs Hok Hbs Hsmall) as (header & es & Hnew & Hlen & _ & _).
  set (s := mkProducer FromPack 0 0 0 header) in *. destruct (digest_text H H_size H_bytes header) as (text & Htext & _ & Hzt).
  pose proof (GetDigest_ok init update final H H_pieces s) as Hd. change (pr_header s) with header in Hd.
  set (json := json_msg token text (zlen header)).
  assert (zlen json < 2 ^ 22) as Hj by (apply json_small; unfold kMaxObjects in *; lia).
  set (R := header ++ concat (bk_content <$> bs)). pose proof (pk_limit _ _ Hok) as Hlim. pose proof (pk_size _ _ Hok) as Hsz.
  rewrite (total_contents h _ bs Hbs) in Hsz.
  assert (zlen (json ++ R) = zlen json + zlen header + size_ p) as HR by (unfold R; rewrite !zlen_app; lia).
  exists (mkRequest text (zlen header) (mkSend json s 0) (zlen (json ++ R))). split.
  { unfold DoUpload. cbn [fst snd]. rewrite Hnew. exec. rewrite Hd. exec. rewrite Htext. exec. do 2 f_equal. rewrite HR. apply u64_small.
    pose proof (zlen_nonneg json). pose proof (zlen_nonneg (concat (bk_content <$> bs))). unfold is_u64, kMaxObjects in *. lia. }
  cbn [rq_size rq_payload rq_digest rq_header_size json_message]. intros sizes Hsizes Hfit.
  exists (pieces sizes (json ++ R)). split.
  { apply (send_all_ok h p bs Hbs); [by apply (Forall_impl bucket_small); [|intros b []]|done|].
    by apply send_start, producer_start. }
  rewrite concat_pieces by (done || by (eapply Forall_impl; [exact Hsizes|]; intros n; cbn; lia)). split; [done|].
  intros chunks Hne Heq%app_inv_head.
  destruct (payload_stored init update final H H_pieces H_size H_bytes h p bs chunks Hok Hbs Hsmall Hhash Hne) as (s' & d' & text' & Hs' & Hd' & Ht' & Hr).
  rewrite Hnew in Hs'. injection Hs' as <-. rewrite Hd in Hd'. injection Hd' as <-. rewrite Htext in Ht'. injection Ht' as <-.
  by apply Hr.
Qed.

Lemma published_ok max ops commit old_root_hash new_root_hash session_token : 0 ≤ max < 2 ^ 63 →
  allowed_ops (new_session max) ops → old_root_hash ≠ [] → new_root_hash ≠ [] → zlen session_token < 2 ^ 20 →
  Forall good_view (sp_done (run_spec empty_spec ops)) → sp_open (run_spec empty_spec ops) = ∅ →
  ∃ es s jobs s', run_session (new_session max) ops = Ret (es, s) ∧ EvCommit false ∉ es ∧
    Finalize s true commit old_root_hash new_root_hash true = Ret (true, jobs, s') ∧
    view <$> concat (job_buckets <$> jobs_of es ++ jobs) = sp_done (run_spec empty_spec ops) ∧
    Forall (job_stored session_token) (jobs_of es ++ jobs).
Proof.
  intros Hmax Hops Hold Hnew Ht Hgood He.
  destruct (session_steps ops _ _ _ (refines_new max Hmax) Hops) as (es & s & Hrun & [Hok Hopen Hcon Hdone] & Hps & Hev).
  rewrite He in Hopen.
  destruct (Finalize_ok s commit old_root_hash new_root_hash Hok) as (jobs & s' & Hf & Hlog & Hps'); try done.
  { apply elem_of_nil_inv. intros a Ha. apply Hopen in Ha as [? ?]. done. }
  exists es, s, jobs, s'. assert (view <$> concat (job_buckets <$> jobs_of es ++ jobs) = sp_done (run_spec empty_spec ops)) as Hv.
  { rewrite <- Hdone, Hlog, app_nil_l, <- uploaded_app. done. }
  split_and!; [done|done|done|done|]. rewrite <- Hv in Hgood. apply Forall_fmap, Forall_concat in Hgood. rewrite Forall_fmap in Hgood.
  assert (Forall (λ j, pack_ok j.2 j.1) (jobs_of es ++ jobs)) as Hall by by apply Forall_app.
  rewrite Forall_forall in *. intros j Hj. apply job_stored_ok; [done|by apply Hall|by apply Hgood].
Qed.

End Publish.

(** ** Witness *)

Module PublishWitness.
Import HashWitness ReceiverWitness SessionWitness.

Definition id_p (content : bytes) : any := padded (checksum kSha1 content) kSha1 kSuffixNone.

(** Two objects that do not fit in one pack. *)
Definition ops_p : list session_op :=
  [OpNew 0 100; OpAdd 100 (replicate 6 1); OpNew 1 101; OpAdd 101 (replicate 5 2);
   OpCommit kCas (id_p (replicate 6 1)) 100 [] 1; OpCommit kCas (id_p (replicate 5 2)) 101 [] 1; OpUpload].

Lemma good_p content : zlen content < 2 ^ 32 → good_view checksum (content, id_p content, kCas, []).
Proof. intros Hc. destruct (hashed_ok content kSuffixNone) as [[Hid Hs] Hh]; try done. Qed.

End PublishWitness.
