(* ===== verification/Gateway.v ===== *)
(** * From files to the gateway (src/cvmfs/upload_gateway.cc)

    [GatewayUploader] turns the calls of [TaskWrite] into uses of a session: a handle
    is a bucket, its data is added to the bucket, and the bucket is committed under
    the hash.  With the theorems on the pipeline, the session and the receiver: what
    is reported for the ingested files is stored behind the gateway.  [DoUpload]
    uploads a whole file under its name. *)

From stdpp Require Import base numbers list gmap.
From S2P Require Import Prelude Bytes StringUtil Hash Pack PackStream Session Receiver Publish.
From S2P Require Import ChunkDetector Ingestion Chunking Stages Pipeline Ingested.

Open Scope Z_scope.

(** ** [GatewayUploader] *)

(** [bucket] and [pack] are the addresses that [new] returns. *)
Definition Gateway_InitStreamedUpload (s : Session) (bucket pack : Z) : outcome Session := SessionNewBucket s pack bucket.

(** The result is the return code of the response; the handle is one of this
    uploader, and the statistics counters are left out. *)
Definition Gateway_StreamedUpload (s : Session) (bucket : Z) (buffer : bytes) : outcome (Z * Session) :=
  sys ← do_call (ss_system s) (CallAdd bucket buffer);
  Ret (0, with_system s sys).

Definition Gateway_FinalizeStreamedUpload (s : Session) (bucket : Z) (content_hash : any) (pack : Z) : outcome (Z * Session) :=
  '(committed, s) ← SessionCommitBucket 2 s kCas content_hash bucket [] false pack;
  Ret (if committed : bool then 0 else 4, s).

(** The calls of the uploader and the turns of the session's thread, in the order in
    which they happen. *)
Inductive action := ActCall (pack : Z) (u : UploadCall) | ActThread.
Inductive gateway_event := EvHandle | EvBlock (return_code : Z) | EvChunk (chunk return_code : Z) | EvJob (job : option (ObjectPack * heap)).

(** [bucket c] is the address of the bucket of chunk [c]. *)
Definition gateway_step (bucket : Z → Z) (s : Session) (act : action) : outcome (gateway_event * Session) :=
  match act with
  | ActCall pack (InitStreamedUpload c) => s ← Gateway_InitStreamedUpload s (bucket c) pack; Ret (EvHandle, s)
  | ActCall _ (ScheduleUpload c data) => '(code, s) ← Gateway_StreamedUpload s (bucket c) data; Ret (EvBlock code, s)
  | ActCall pack (ScheduleCommit c hash) => '(code, s) ← Gateway_FinalizeStreamedUpload s (bucket c) hash pack; Ret (EvChunk c code, s)
  | ActThread => '(job, s) ← UploadLoop_turn s; Ret (EvJob job, s)
  end.

Fixpoint run_gateway (bucket : Z → Z) (s : Session) (acts : list action) : outcome (list gateway_event * Session) :=
  match acts with
  | [] => Ret ([], s)
  | act :: acts => '(e, s) ← gateway_step bucket s act; '(es, s) ← run_gateway bucket s acts; Ret (e :: es, s)
  end.

Definition calls_of (acts : list action) : list UploadCall := omap (λ act, match act with ActCall _ u => Some u | ActThread => None end) acts.
Definition gateway_jobs (es : list gateway_event) : list (ObjectPack * heap) := omap (λ e, match e with EvJob job => job | _ => None end) es.

(** ** As uses of the session *)

Definition action_op (bucket : Z → Z) (act : action) : session_op :=
  match act with
  | ActCall pack (InitStreamedUpload c) => OpNew pack (bucket c)
  | ActCall _ (ScheduleUpload c data) => OpAdd (bucket c) data
  | ActCall pack (ScheduleCommit c hash) => OpCommit kCas hash (bucket c) [] pack
  | ActThread => OpUpload
  end.

Definition action_event (act : action) (e : session_event) : gateway_event :=
  match act, e with
  | ActCall _ (ScheduleCommit c _), EvCommit ok => EvChunk c (if ok then 0 else 4)
  | ActCall _ (ScheduleUpload _ _), _ => EvBlock 0
  | _, EvUpload job => EvJob job
  | _, _ => EvHandle
  end.

Lemma gateway_step_session bucket s act e s' : session_step s (action_op bucket act) = Ret (e, s') → gateway_step bucket s act = Ret (action_event act e, s').
Proof.
  destruct act as [pack [c|c data|c hash]|]; cbn [action_op session_step gateway_step]; intros Hs.
  - apply bind_Ret in Hs as (s1 & Hs & [= <- <-]). unfold Gateway_InitStreamedUpload. by rewrite Hs.
  - apply bind_Ret in Hs as (sys & Hs & [= <- <-]). unfold Gateway_StreamedUpload. by rewrite Hs.
  - apply bind_Ret in Hs as ([ok s1] & Hs & [= <- <-]). unfold Gateway_FinalizeStreamedUpload. by rewrite Hs.
  - apply bind_Ret in Hs as ([job s1] & Hs & [= <- <-]). by rewrite Hs.
Qed.

Lemma run_gateway_session bucket acts : ∀ s es s', run_session s (action_op bucket <$> acts) = Ret (es, s') →
  run_gateway bucket s acts = Ret (zip_with action_event acts es, s') ∧
  (EvCommit false ∉ es → ∀ c code, EvChunk c code ∈ zip_with action_event acts es → code = 0) ∧ gateway_jobs (zip_with action_event acts es) = jobs_of es.
Proof.
  induction acts as [|act acts IH]; intros s es s' Hrun; cbn in Hrun.
  { injection Hrun as <- <-. split; [done|]. split; [|done]. by intros _ c code ?%not_elem_of_nil. }
  apply bind_Ret in Hrun as ([e s1] & Hstep & Hrun). apply bind_Ret in Hrun as ([es1 s2] & Hrun & [= <- <-]). destruct (IH _ _ _ Hrun) as (IH1 & IH2 & IH3).
  cbn [run_gateway zip_with]. rewrite (gateway_step_session _ _ _ _ _ Hstep). exec. rewrite IH1. exec. split; [done|]. split.
  - intros Hno c code [He|Hin]%elem_of_cons; [|by apply (IH2 ltac:(set_solver) c)]. unfold action_event in He.
    destruct act as [pack [c'|c' data|c' hash]|], e as [|[]|job]; try discriminate; [by injection He as _ ->|]. exfalso. apply Hno. by left.
  - unfold gateway_jobs, jobs_of in *. cbn [omap list_omap]. rewrite <- IH3. unfold action_event.
    destruct act as [pack [c'|c' data|c' hash]|], e as [|[]|[job|]]; cbn in Hstep; inv_ret; try done; repeat case_match; by inv_ret.
Qed.

(** ** The objects of a sequence of calls *)

(** The data of the open handles; a commit gives an object. *)
Definition collect (opened : gmap Z bytes) (u : UploadCall) : outcome (list (Z * bytes * any) * gmap Z bytes) :=
  match u with
  | InitStreamedUpload c => match (opened !! c : option bytes) with Some _ => Fail AssertFailed | None => Ret ([], <[c := []]> opened) end
  | ScheduleUpload c data =>
      match (opened !! c : option bytes) with
      | Some x => _ ← cassert (zlen (x ++ data) <=? 2 ^ 60); Ret ([], <[c := x ++ data]> opened)
      | None => Fail AssertFailed
      end
  | ScheduleCommit c hash => match (opened !! c : option bytes) with Some x => Ret ([(c, x, hash)], delete c opened) | None => Fail AssertFailed end
  end.

Definition object_chunk (o : Z * bytes * any) : option Z := Some o.1.1.

#[global] Instance ScheduleUpload_inj a : Inj (=) (=) (ScheduleUpload a).
Proof. by intros d d' [= ->]. Qed.

Section Collect.
Context (calls : list UploadCall).
Hypothesis Hkeys : Forall (λ u, is_Some (call_chunk u)) calls.
Hypothesis Hcalls : ∀ a, of_key call_chunk a calls = [] ∨ ∃ data hash, chunk_uploaded calls a data hash ∧ zlen data ≤ 2 ^ 60.

Definition collect_at (a : Z) (x : option bytes) (i : list UploadCall) (o : list (Z * bytes * any)) : Prop :=
  (i = [] ∧ o = [] ∧ x = None) ∨
  (∃ seen, i = InitStreamedUpload a :: (ScheduleUpload a <$> seen) ∧ o = [] ∧ x = Some (concat seen)) ∨
  (∃ datas hash, i = [InitStreamedUpload a] ++ (ScheduleUpload a <$> datas) ++ [ScheduleCommit a hash] ∧ o = [(a, concat datas, hash)] ∧ x = None).

Definition collect_inv (a : Z) (opened : gmap Z bytes) (i : list UploadCall) (o : list (Z * bytes * any)) : Prop := collect_at a (opened !! a) i o.

(** What comes after the first [n] uploads. *)
Lemma upload_prefix a datas hash seen u more :
  InitStreamedUpload a :: (ScheduleUpload a <$> datas) ++ [ScheduleCommit a hash] = (InitStreamedUpload a :: (ScheduleUpload a <$> seen)) ++ u :: more →
  (∃ d rest, datas = seen ++ d :: rest ∧ u = ScheduleUpload a d) ∨ datas = seen ∧ u = ScheduleCommit a hash.
Proof.
  cbn. intros [= Heq]. revert datas Heq. induction seen as [|d seen IH]; intros datas Heq; cbn in Heq.
  - destruct datas as [|d datas]; cbn in Heq; injection Heq as <- _; [by right|]. left. by exists d, datas.
  - destruct datas as [|d' datas]; cbn in Heq; [by destruct seen|]. injection Heq as -> Heq.
    destruct (IH datas Heq) as [(d0 & rest & -> & ->)|[-> ->]]; [left; by exists d0, rest|by right].
Qed.

Lemma closed_no_more a datas hash datas' hash' u more :
  InitStreamedUpload a :: (ScheduleUpload a <$> datas) ++ [ScheduleCommit a hash] ≠ ([InitStreamedUpload a] ++ (ScheduleUpload a <$> datas') ++ [ScheduleCommit a hash']) ++ u :: more.
Proof.
  cbn. intros [= Heq]. revert datas Heq. induction datas' as [|d datas' IH]; intros datas Heq; destruct datas as [|d' datas]; cbn in Heq; try (by inversion Heq).
  injection Heq as _ Heq. by apply (IH datas).
Qed.

Lemma collect_step a w i o u : collect_inv a w i o → call_chunk u = Some a → (i ++ [u]) `prefix_of` of_key call_chunk a calls →
  ∃ new w', collect w u = Ret (new, w') ∧ collect_inv a w' (i ++ [u]) (o ++ new) ∧ Forall (λ x, object_chunk x = Some a) new ∧
    ∀ a' i' o', a' ≠ a → collect_inv a' w i' o' → collect_inv a' w' i' o'.
Proof.
  intros Hinv Hu [more Hpre]. rewrite <- app_assoc in Hpre. cbn in Hpre.
  destruct (Hcalls a) as [Hnil|(data & hash & (datas & Hd & Hdata) & Hsmall)]; [rewrite Hnil in Hpre; by destruct i|]. rewrite Hd in Hpre. cbn [app] in Hpre.
  destruct Hinv as [(-> & -> & Hw)|[(seen & -> & -> & Hw)|(datas' & hash' & -> & _)]].
  - cbn in Hpre. injection Hpre as <- _. cbn [collect]. rewrite Hw. eexists _, _. split; [done|]. split_and!.
    + right. left. exists []. split; [done|]. split; [done|]. by rewrite lookup_insert_eq.
    + constructor.
    + intros a' i' o' Hne. unfold collect_inv. by rewrite lookup_insert_ne by done.
  - apply upload_prefix in Hpre as [(d & rest & -> & ->)|[-> ->]]; cbn [collect]; rewrite Hw.
    + rewrite leb_true; [exec|]. 2: { rewrite <- Hdata, concat_app, zlen_app in Hsmall. cbn [concat] in Hsmall. rewrite zlen_app in *. unfold zlen in *. lia. }
      eexists _, _. split; [done|]. split_and!.
      * right. left. exists (seen ++ [d]). rewrite fmap_app, lookup_insert_eq, concat_app. cbn. by rewrite app_nil_r.
      * constructor.
      * intros a' i' o' Hne. unfold collect_inv. by rewrite lookup_insert_ne by done.
    + eexists _, _. split; [done|]. split_and!.
      * right. right. exists seen, hash. by rewrite lookup_delete_eq.
      * by repeat constructor.
      * intros a' i' o' Hne. unfold collect_inv. by rewrite lookup_delete_ne by done.
  - by apply closed_no_more in Hpre.
Qed.

(** Every chunk gives one object. *)
Lemma collect_calls : ∃ objs, run_stage collect ∅ calls = Ret (objs, ∅) ∧ (∀ a data hash, chunk_uploaded calls a data hash → (a, data, hash) ∈ objs) ∧
  ∀ a data hash, (a, data, hash) ∈ objs → chunk_uploaded calls a data hash.
Proof.
  destruct (keyed_run collect call_chunk object_chunk collect_inv (λ a, of_key call_chunk a calls) collect_step calls [] [] ∅) as (objs & w & Hrun & _ & Hend); [done|done| |].
  { intros a. by left. }
  assert (∀ a, of_key call_chunk a calls = [] ∧ of_key object_chunk a objs = [] ∧ w !! a = None ∨
    ∃ datas hash, of_key call_chunk a calls = [InitStreamedUpload a] ++ (ScheduleUpload a <$> datas) ++ [ScheduleCommit a hash] ∧
      of_key object_chunk a objs = [(a, concat datas, hash)] ∧ w !! a = None) as Hall.
  { intros a. destruct (Hend a) as [Hn|[(seen & Hi & _)|Hc]]; [by left| |by right]. exfalso.
    destruct (Hcalls a) as [Hnil|(data & hash & (datas & Hd & _) & _)]; [by rewrite Hnil in Hi|]. rewrite Hd in Hi. cbn in Hi. injection Hi as Hi.
    apply (f_equal (λ l, existsb (λ u, match u with ScheduleCommit _ _ => true | _ => false end) l)) in Hi. rewrite existsb_app in Hi. cbn in Hi. rewrite orb_true_r in Hi.
    clear -Hi. induction seen; cbn in Hi; [done|by apply IHseen]. }
  assert (w = ∅) as -> by (apply map_eq; intros a; rewrite lookup_empty; by destruct (Hall a) as [(_ & _ & ?)|(? & ? & _ & _ & ?)]).
  exists objs. split; [done|]. split.
  - intros a data hash (datas & Hd & <-). assert ((a, concat datas, hash) ∈ of_key object_chunk a objs) as Hin; [|by apply list_elem_of_filter in Hin as [_ ?]].
    destruct (Hall a) as [(Hn & _)|(datas' & hash' & Hd' & Ho & _)]; [by rewrite Hn in Hd|]. rewrite Hd in Hd'. cbn in Hd'. injection Hd' as Hd'.
    apply app_inj_tail in Hd' as [Hd' [= <-]]. assert (datas = datas') as <-; [|rewrite Ho; by left]. apply (inj (fmap (ScheduleUpload a))) in Hd'. done.
  - intros a data hash Hin. assert ((a, data, hash) ∈ of_key object_chunk a objs) as Ho by by apply list_elem_of_filter.
    destruct (Hall a) as [(_ & Hn & _)|(datas & hash' & Hd & Ho' & _)]; [rewrite Hn in Ho; by apply not_elem_of_nil in Ho|].
    rewrite Ho' in Ho. apply list_elem_of_singleton in Ho as [= -> ->]. by exists datas.
Qed.
End Collect.

(** ** The session that carries the calls *)

(** [new] returns unused addresses. *)
Definition fresh_act (bucket : Z → Z) (s : Session) (act : action) : Prop :=
  match act with
  | ActCall pack (InitStreamedUpload c) => sys_packs (ss_system s) !! pack = None ∧ sys_heap (ss_system s) !! bucket c = None
  | ActCall pack (ScheduleCommit _ _) => sys_packs (ss_system s) !! pack = None
  | _ => True
  end.

Fixpoint fresh_acts (bucket : Z → Z) (s : Session) (acts : list action) : Prop :=
  match acts with
  | [] => True
  | act :: acts => fresh_act bucket s act ∧ ∀ e s', gateway_step bucket s act = Ret (e, s') → fresh_acts bucket s' acts
  end.

(** The open handles and the open buckets. *)
Record linked (bucket : Z → Z) (opened : gmap Z bytes) (sp : session_spec) : Prop := {
  lk_open : ∀ c x, opened !! c = Some x → sp_open sp !! bucket c = Some x;
  lk_inj : ∀ c c', is_Some (opened !! c) → is_Some (opened !! c') → bucket c = bucket c' → c = c';
  lk_all : ∀ h x, sp_open sp !! h = Some x → ∃ c, opened !! c = Some x ∧ bucket c = h
}.

Lemma refines_active s sp sent h x : refines s sp sent → sp_open sp !! h = Some x → ∃ b, active_at s h b ∧ bk_content b = x.
Proof.
  intros [_ Hopen Hcon _] Hx. destruct (Hcon h x Hx) as (b & Hb & Hc). exists b. split; [|done]. split; [|done]. apply Hopen. by exists x.
Qed.

Lemma linked_step bucket opened sp s sent pack u objs opened' : refines s sp sent → linked bucket opened sp → fresh_act bucket s (ActCall pack u) →
  collect opened u = Ret (objs, opened') →
  session_allowed s (action_op bucket (ActCall pack u)) ∧ linked bucket opened' (spec_step sp (action_op bucket (ActCall pack u))) ∧
  sp_done (spec_step sp (action_op bucket (ActCall pack u))) = sp_done sp ++ ((λ o, (o.1.2, o.2, kCas, [])) <$> objs).
Proof.
  intros Href Hl Hfr Hc. destruct u as [c|c data|c hash]; cbn [collect] in Hc; cbn [action_op spec_step session_allowed sp_done].
  - destruct (opened !! c) as [x|] eqn:Hx; [done|]. injection Hc as <- <-. split; [done|]. split; [|by rewrite app_nil_r]. destruct Hfr as [_ Hheap].
    assert (∀ c' x, opened !! c' = Some x → bucket c' ≠ bucket c) as Hne.
    { intros c' x Hc' He. destruct (refines_active s sp sent _ x Href (lk_open _ _ _ Hl _ _ Hc')) as (b & [_ Hb] & _). congruence. }
    split; cbn.
    + intros c' x [[<- <-]|[_ Hc']]%lookup_insert_Some; [by rewrite lookup_insert_eq|]. rewrite lookup_insert_ne by (apply not_eq_sym; by eapply Hne). by apply (lk_open _ _ _ Hl).
    + intros c1 c2 [x1 H1] [x2 H2] He. apply lookup_insert_Some in H1 as [[<- _]|[_ H1]], H2 as [[<- _]|[_ H2]]; [done|by apply Hne in H2|by apply Hne in H1|].
      by apply (lk_inj _ _ _ Hl).
    + intros h x [[<- <-]|[Hh Hx']]%lookup_insert_Some; [exists c; by rewrite lookup_insert_eq|]. destruct (lk_all _ _ _ Hl h x Hx') as (c' & Hc' & <-).
      exists c'. split; [|done]. rewrite lookup_insert_ne by congruence. done.
  - destruct (opened !! c) as [x|] eqn:Hx; [|done]. apply bind_Ret in Hc as (? & Hsz%cassert_Ret%Z.leb_le & [= <- <-]). pose proof (lk_open _ _ _ Hl c x Hx) as Ho.
    destruct (refines_active s sp sent _ x Href Ho) as (b & Hact & Hb). split; [exists b; split; [done|unfold bk_size; rewrite Hb, <- zlen_app; done]|].
    split; [|by rewrite app_nil_r]. split; cbn.
    + intros c' y [[<- <-]|[Hne Hc']]%lookup_insert_Some; [by rewrite lookup_alter_eq, Ho|].
      rewrite lookup_alter_ne by (intros He; apply Hne, (lk_inj _ _ _ Hl); [by eexists|by eexists|done]). by apply (lk_open _ _ _ Hl).
    + intros c1 c2 H1 H2. apply (lk_inj _ _ _ Hl); [destruct (decide (c1 = c)) as [->|]|destruct (decide (c2 = c)) as [->|]]; try (by eexists);
        by rewrite lookup_insert_ne in * by done.
    + intros h y Hy. destruct (decide (h = bucket c)) as [->|Hne].
      * rewrite lookup_alter_eq, Ho in Hy. injection Hy as <-. exists c. by rewrite lookup_insert_eq.
      * rewrite lookup_alter_ne in Hy by done. destruct (lk_all _ _ _ Hl h y Hy) as (c' & Hc' & <-). exists c'. split; [|done]. rewrite lookup_insert_ne by congruence. done.
  - destruct (opened !! c) as [x|] eqn:Hx; [|done]. injection Hc as <- <-. pose proof (lk_open _ _ _ Hl c x Hx) as Ho.
    destruct (refines_active s sp sent _ x Href Ho) as (b & Hact & Hb). split; [by split; [|exists b]|]. split; [split; cbn|].
    + intros c' y [Hne Hc']%lookup_delete_Some. rewrite lookup_delete_ne by (intros He; apply Hne, (lk_inj _ _ _ Hl); [by eexists|by eexists|done]). by apply (lk_open _ _ _ Hl).
    + intros c1 c2 [x1 [_ H1]%lookup_delete_Some] [x2 [_ H2]%lookup_delete_Some]. apply (lk_inj _ _ _ Hl); by eexists.
    + intros h y [Hne Hy]%lookup_delete_Some. destruct (lk_all _ _ _ Hl h y Hy) as (c' & Hc' & <-). exists c'. split; [|done]. rewrite lookup_delete_ne by congruence. done.
    + unfold open_content. rewrite Ho. by rewrite decide_False by done.
Qed.

Lemma linked_acts bucket acts : ∀ s sp sent opened objs opened', refines s sp sent → linked bucket opened sp → fresh_acts bucket s acts →
  run_stage collect opened (calls_of acts) = Ret (objs, opened') →
  allowed_ops s (action_op bucket <$> acts) ∧ linked bucket opened' (run_spec sp (action_op bucket <$> acts)) ∧
  sp_done (run_spec sp (action_op bucket <$> acts)) = sp_done sp ++ ((λ o, (o.1.2, o.2, kCas, [])) <$> objs).
Proof.
  induction acts as [|act acts IH]; intros s sp sent opened objs opened' Href Hl Hfr Hc; cbn in Hc.
  { injection Hc as <- <-. split; [done|]. split; [done|]. by rewrite app_nil_r. }
  destruct Hfr as [Hf1 Hf2]. destruct act as [pack u|].
  - cbn in Hc. apply bind_Ret in Hc as ([o1 op1] & H1 & Hc). apply bind_Ret in Hc as ([o2 op2] & H2 & [= <- <-]).
    destruct (linked_step bucket opened sp s sent pack u o1 op1 Href Hl Hf1 H1) as (Hal & Hl1 & Hd1). set (op := action_op bucket (ActCall pack u)) in *.
    assert (∃ e s1, session_step s op = Ret (e, s1) ∧ refines s1 (spec_step sp op) sent) as (e & s1 & Hs1 & Hr1).
    { destruct u as [c|c data|c hash]; [destruct (step_new _ _ _ _ _ Href Hal) as (s1 & ? & ?)|destruct (step_add _ _ _ _ _ Href Hal) as (s1 & ? & ?)|
        destruct (step_commit _ _ _ _ _ _ _ _ Href Hal) as (s1 & ? & ?)]; by eexists _, s1. }
    destruct (IH s1 (spec_step sp op) sent op1 o2 op2 Hr1 Hl1) as (Ha & Hl2 & Hd2); [eapply Hf2; by eapply gateway_step_session|done|].
    split; [|split; [done|]].
    + split; [done|]. intros e' s' He. change (session_step s op = Ret (e', s')) in He. rewrite Hs1 in He. by injection He as <- <-.
    + cbn [fmap list_fmap run_spec foldl]. fold op. change (foldl spec_step (spec_step sp op) (action_op bucket <$> acts)) with (run_spec (spec_step sp op) (action_op bucket <$> acts)).
      by rewrite Hd2, Hd1, fmap_app, app_assoc.
  - cbn in Hc. destruct (step_upload s sp sent Href) as (job & s1 & Hs1 & Hr1 & _).
    destruct (IH s1 sp _ opened objs opened' Hr1 Hl) as (Ha & Hl2 & Hd2); [eapply Hf2; by eapply (gateway_step_session bucket s ActThread)|done|].
    split; [|done]. split; [done|]. intros e' s' He. change (session_step s OpUpload = Ret (e', s')) in He. rewrite Hs1 in He. by injection He as <- <-.
Qed.

(** ** From the files to the receiver *)

(** The uploader's tubes keep the order of the calls for a chunk. *)
Definition same_calls (l l' : list UploadCall) : Prop := l ≡ₚ l' ∧ ∀ a, of_key call_chunk a l = of_key call_chunk a l'.

Lemma uploaded_inj calls a data hash data' hash' : chunk_uploaded calls a data hash → chunk_uploaded calls a data' hash' → data = data' ∧ hash = hash'.
Proof.
  intros (datas & Hd & <-) (datas' & Hd' & <-). rewrite Hd in Hd'. cbn in Hd'. injection Hd' as Hd'. apply app_inj_tail in Hd' as [Hd' [= ->]].
  apply (inj (fmap (ScheduleUpload a))) in Hd' as ->. done.
Qed.

Section Published.
Context {context : Type} (init : Algorithms → context) (update : context → bytes → context) (final : context → bytes).
Context (H : Algorithms → bytes → bytes).
Context (H_pieces : ∀ a pieces, a ≠ kAny → final (foldl update (init a) pieces) = H a (concat pieces)).
Context (H_size : ∀ a m, a ≠ kAny → zlen (H a m) = kDigestSizes a).
Context (H_bytes : ∀ a m, a ≠ kAny → bytes_ok (H a m)).
Context (alg : Algorithms) (Halg : alg ≠ kAny).
Context {C : Type} `{HC : Compressor C} (compress : bytes → bytes) (bound : Z → Z) (c_inv : C → option bytes → bytes → bytes → Prop).
Context `{HL : !CompressorLaws C compress bound c_inv}.

(** A run of the pipeline up to the calls of the uploader. *)
Definition pipeline (fuel : nat) (files : gmap Z FileItem) (R : gmap Z FileRest) (ins : list BlockItem)
    (s : TaskChunk) (hashes : gmap Z any) (calls : list UploadCall) (w : TaskWrite) : Prop :=
  ∃ blocks blocks' packed w1 packed' hashed w2 hashed',
    run_chunk (mkTask files ∅ 0 kFirstTag ∅) ins = Ret (blocks, s) ∧ same_order blocks blocks' ∧
    run_stage (TaskCompress_Process fuel) (mkCompress ∅ ∅) blocks' = Ret (packed, w1) ∧ same_order packed packed' ∧
    run_stage (TaskHash_Process init update final alg) (mkHasher ∅ ∅) packed' = Ret (hashed, w2) ∧ same_order hashed hashed' ∧ hashes = hash_value_ w2 ∧
    run_stage (TaskWrite_Process alg hashes) (mkWrite (Ingestion.files s) R (chunks s) ∅) hashed' = Ret (calls, w).

(** The chunks fit in packs, and their names in the header of a pack. *)
Definition pack_fits (R : gmap Z FileRest) (j : job) : Prop :=
  (∀ y, zlen (compress (chunk_bytes (jb_data j) y)) < 2 ^ 32) ∧
  ∀ r, R !! jb_file j = Some r → is_u8 (hash_suffix_ r) ∧ hash_suffix_ r ≠ chr_nl ∧ hash_suffix_ r ≠ chr_space.

Lemma calls_good jobs R calls a data hash : (∀ t j, jobs !! t = Some j → pack_fits R j) → calls_ok H alg compress jobs R calls →
  chunk_uploaded calls a data hash → zlen data < 2 ^ 32 ∧ good_view H (data, hash, kCas, []).
Proof.
  intros Hfit [_ Hall] Hu. destruct (Hall a) as [Hn|(t & j & y & sfx & Hj & Hu' & Hs)]; [destruct Hu as (datas & Hd & _); by rewrite Hn in Hd|].
  destruct (uploaded_inj _ _ _ _ _ _ Hu Hu') as [-> ->]. destruct (Hfit t j Hj) as [Hsmall Hsfx]. specialize (Hsmall y). split; [done|].
  assert (is_u8 sfx ∧ sfx ≠ chr_nl ∧ sfx ≠ chr_space) as (H1 & H2 & H3) by (destruct Hs as [->|(r & Hr & ->)]; [done|by apply Hsfx]).
  split; [split; [apply padded_ok; [by apply H_bytes|by apply H_size|done|done]|done]|]. split; [done|].
  unfold any_eq. cbn [hash_of padded algorithm digest]. rewrite decide_True by done. by apply digest_eq_take.
Qed.

(** What the gateway makes of the calls. *)
Lemma calls_stored jobs R calls bucket max acts commit old_root_hash new_root_hash session_token :
  (∀ t j, jobs !! t = Some j → pack_fits R j) → calls_ok H alg compress jobs R calls → 0 ≤ max < 2 ^ 63 → same_calls calls (calls_of acts) →
  fresh_acts bucket (new_session max) acts → old_root_hash ≠ [] → new_root_hash ≠ [] → zlen session_token < 2 ^ 20 →
  ∃ es s uploads s', run_gateway bucket (new_session max) acts = Ret (es, s) ∧ (∀ c code, EvChunk c code ∈ es → code = 0) ∧
    Session.Finalize s true commit old_root_hash new_root_hash true = Ret (true, uploads, s') ∧
    Forall (job_stored init update final session_token) (gateway_jobs es ++ uploads) ∧
    ∀ a data hash, chunk_uploaded calls a data hash → ∃ b, b ∈ concat (job_buckets <$> gateway_jobs es ++ uploads) ∧ bk_content b = data ∧ bk_id b = hash.
Proof.
  intros Hfit Hcalls Hmax [Hp Hsame] Hfr Hold Hnew Htok. assert (∀ a data hash, chunk_uploaded calls a data hash ↔ chunk_uploaded (calls_of acts) a data hash) as Hup.
  { intros a data hash. unfold chunk_uploaded. by rewrite Hsame. }
  destruct (collect_calls (calls_of acts)) as (objs & Hrun & Hobj & Hobj').
  { rewrite <- Hp. apply Hcalls. }
  { intros a. rewrite <- Hsame. destruct (proj2 Hcalls a) as [?|(t & j & y & sfx & _ & Hu & _)]; [by left|]. right. eexists _, _. split; [by apply Hup|].
    destruct (calls_good jobs R calls a _ _ Hfit Hcalls Hu). lia. }
  destruct (linked_acts bucket acts (new_session max) empty_spec [] ∅ objs ∅ (refines_new max Hmax)) as (Hal & [_ _ Hlk] & Hdone); [|done|done|].
  { split; [done| |done]. by intros c c' [? ?]. }
  destruct (published_ok init update final H H_pieces H_size H_bytes max _ commit old_root_hash new_root_hash session_token Hmax Hal Hold Hnew Htok)
    as (es & s & uploads & s' & Hr & Hev & Hfin & Hview & Hst).
  { rewrite Hdone. cbn [empty_spec sp_done app]. apply Forall_fmap, Forall_forall. intros [[a data] hash] Ho%Hobj'%Hup. cbn. by apply (calls_good jobs R calls a). }
  { apply map_empty. intros h. apply eq_None_not_Some. intros [x Hx]. by destruct (Hlk h x Hx) as (c & ? & _). }
  destruct (run_gateway_session bucket acts _ _ _ Hr) as (Hg & Hcodes & Hjobs). eexists _, s, uploads, s'. split; [exact Hg|]. split; [by apply Hcodes|].
  split; [done|]. rewrite Hjobs. split; [done|]. intros a data hash Hu%Hup%Hobj.
  assert ((data, hash, kCas, []) ∈ view <$> concat (job_buckets <$> jobs_of es ++ uploads)) as Hin.
  { rewrite Hview, Hdone. cbn [empty_spec sp_done app]. apply list_elem_of_fmap. by exists (a, data, hash). }
  apply list_elem_of_fmap in Hin as (b & Hb & Hin). exists b. split; [done|]. unfold view in Hb. by injection Hb as -> -> _.
Qed.

End Published.

(** ** The upload of whole files *)

Lemma add_open s sp sent bucket x data : refines s sp sent → sp_open sp !! bucket = Some x → zlen (x ++ data) ≤ 2 ^ 60 →
  ∃ sys, do_call (ss_system s) (CallAdd bucket data) = Ret sys ∧ sys_packs sys = sys_packs (ss_system s) ∧
    refines (with_system s sys) (mkSpec (<[bucket := x ++ data]> (sp_open sp)) (sp_done sp)) sent.
Proof.
  intros Href Hx Hsize. destruct (refines_active s sp sent bucket x Href Hx) as (b & Hact & Hb).
  destruct (step_add s sp sent bucket data Href) as (s' & (sys & Hcall & [= <-])%bind_Ret & Hr).
  { exists b. split; [done|]. unfold bk_size. by rewrite Hb, <- zlen_app. }
  exists sys. split; [done|]. split.
  - by apply bind_Ret in Hcall as (h & _ & [= <-]).
  - replace (<[bucket := x ++ data]> (sp_open sp)) with (alter (λ c, c ++ data) bucket (sp_open sp)); [done|].
    by rewrite <- (insert_id (sp_open sp) bucket x Hx), alter_insert_eq, insert_insert_eq.
Qed.

Lemma new_bucket_packs s pack bucket s' i : SessionNewBucket s pack bucket = Ret s' → i ≠ pack → sys_packs (ss_system s) !! i = None →
  sys_packs (ss_system s') !! i = None.
Proof.
  intros ([s1 k] & Hs1 & (sys & Hcall & [= <-])%bind_Ret)%bind_Ret Hne Hi.
  assert (sys_packs (ss_system s1) !! i = None) as Hi1.
  { destruct (current_pack_ s); [by injection Hs1 as <- _|]. apply bind_Ret in Hs1 as (sys1 & [= <-] & [= <- _]). cbn. by rewrite lookup_insert_ne. }
  apply bind_Ret in Hcall as (p & Hp & Hcall). destruct (NewBucket _ _ _). injection Hcall as <-. cbn.
  unfold get_pack in Hp. rewrite lookup_insert_ne; [done|]. intros ->. by rewrite Hi1 in Hp.
Qed.

Section FileUpload.
Context {context : Type} (init : Algorithms → context) (update : context → bytes → context) (final : context → bytes).

(** [reads] are the results of [Read]; after the last one it returns 0. *)
Fixpoint upload_loop (s : Session) (bucket : Z) (hash_ctx : context) (reads : list bytes) : outcome (Session * context) :=
  let data := default [] (head reads) in
  sys ← do_call (ss_system s) (CallAdd bucket data);
  let s := with_system s sys in
  let hash_ctx := update hash_ctx data in
  match reads with
  | _ :: reads => if zlen data =? 1024 then upload_loop s bucket hash_ctx reads else Ret (s, hash_ctx)
  | [] => Ret (s, hash_ctx)
  end.

(** [opened] is what [Open] returns; [pack] and [pack'] are the addresses that [new]
    returns in [NewBucket] and in [CommitBucket]. *)
Definition Gateway_DoUpload (s : Session) (hash_algorithm : Algorithms) (remote_path : bytes) (opened : bool) (reads : list bytes)
    (bucket pack pack' : Z) : outcome (Z * Session) :=
  s ← SessionNewBucket s pack bucket;
  if negb opened then Ret (1, s)
  else
    '(s, hash_ctx) ← upload_loop s bucket (init hash_algorithm) reads;
    let content_hash := Final final hash_ctx hash_algorithm kSuffixNone in
    '(committed, s) ← SessionCommitBucket 2 s kNamed content_hash bucket remote_path false pack';
    Ret (if committed : bool then 0 else 2, s).

(** The bucket of a file that cannot be opened stays open, and the assertion in
    [Finalize] fails. *)
Lemma unopened_file_aborts s a remote_path reads bucket pack pack' code s' initialized commit old_root_hash new_root_hash commit_result :
  Gateway_DoUpload s a remote_path false reads bucket pack pack' = Ret (code, s') →
  code = 1 ∧ Session.Finalize s' initialized commit old_root_hash new_root_hash commit_result = Fail AssertFailed.
Proof.
  intros (s1 & Hnew & [= <- <-])%bind_Ret. split; [done|]. unfold Session.Finalize. rewrite (bool_decide_eq_false_2 (active_handles_ s1 = [])); [reflexivity|].
  apply bind_Ret in Hnew as ([s2 i] & _ & Hnew). apply bind_Ret in Hnew as (sys & _ & [= <-]). cbn. by destruct (active_handles_ s2).
Qed.

(** The pieces of a file: all but the last one fill the buffer. *)
Fixpoint file_reads (reads : list bytes) : Prop :=
  match reads with
  | [] => True
  | data :: reads => (zlen data = 1024 ∨ reads = []) ∧ file_reads reads
  end.

Lemma upload_loop_ok bucket reads : ∀ s sp sent x ctx, refines s sp sent → sp_open sp !! bucket = Some x → file_reads reads →
  zlen (x ++ concat reads) ≤ 2 ^ 60 → ∃ s' pieces, upload_loop s bucket ctx reads = Ret (s', foldl update ctx pieces) ∧ concat pieces = concat reads ∧
    sys_packs (ss_system s') = sys_packs (ss_system s) ∧ refines s' (mkSpec (<[bucket := x ++ concat reads]> (sp_open sp)) (sp_done sp)) sent.
Proof.
  induction reads as [|data reads IH]; intros s sp sent x ctx Href Hx Hreads Hsize; cbn [upload_loop hd_error from_option id head].
  - destruct (add_open s sp sent bucket x [] Href Hx Hsize) as (sys & -> & Hpacks & Hr). exec. by exists (with_system s sys), [[]].
  - cbn [concat] in Hsize. rewrite app_assoc in Hsize.
    destruct (add_open s sp sent bucket x data Href Hx) as (sys & -> & Hpacks & Hr); [rewrite zlen_app in Hsize; unfold zlen in *; lia|]. exec.
    destruct Hreads as [Hfull Hreads]. destruct (Z.eqb_spec (zlen data) 1024) as [Hd|Hd].
    + destruct (IH (with_system s sys) _ sent (x ++ data) (update ctx data) Hr) as (s' & pieces & Hrun & Hc & Hp & Hr'); [by cbn; rewrite lookup_insert_eq|done|done|].
      exists s', (data :: pieces). cbn [sp_open sp_done] in Hr'. rewrite insert_insert_eq, <- app_assoc in Hr'. split; [exact Hrun|]. cbn [concat]. rewrite Hc. split; [done|]. split; [by rewrite Hp|done].
    + destruct Hfull as [Hd1| ->]; [done|]. exists (with_system s sys), [data]. cbn [concat]. rewrite app_nil_r. done.
Qed.

(** A file that is uploaded is committed under the hash of its contents, with its
    name. *)
Lemma file_uploaded H (H_pieces : ∀ a pieces, a ≠ kAny → final (foldl update (init a) pieces) = H a (concat pieces))
    s sp sent a remote_path reads bucket pack pack' : refines s sp sent → a ≠ kAny → file_reads reads → zlen (concat reads) ≤ 2 ^ 60 →
  sys_heap (ss_system s) !! bucket = None → sys_packs (ss_system s) !! pack = None → sys_packs (ss_system s) !! pack' = None → pack' ≠ pack →
  ∃ s', Gateway_DoUpload s a remote_path true reads bucket pack pack' = Ret (0, s') ∧
    refines s' (mkSpec (sp_open sp) (sp_done sp ++ [(concat reads, hash_of H a kSuffixNone (concat reads), kNamed, remote_path)])) sent.
Proof.
  intros Href Ha Hreads Hsize Hheap Hpack Hpack' Hne. unfold Gateway_DoUpload.
  assert (sp_open sp !! bucket = None) as Hno.
  { apply eq_None_not_Some. intros [x (b & [_ Hb] & _)%(refines_active s sp sent _ _ Href)]. congruence. }
  destruct (step_new s sp sent pack bucket Href (conj Hpack Hheap)) as (s1 & (s1' & Hnew & [= <-])%bind_Ret & Hr1). rewrite Hnew. exec.
  destruct (upload_loop_ok bucket reads s1' _ sent [] (init a) Hr1) as (s2 & pieces & -> & Hc & Hp & Hr2); [by cbn; rewrite lookup_insert_eq|done|done|]. exec.
  rewrite (Final_ok init update final H H_pieces) by done. rewrite Hc. cbn [spec_step sp_open sp_done app] in Hr2. rewrite insert_insert_eq in Hr2.
  set (id := hash_of H a kSuffixNone (concat reads)).
  destruct (refines_active s2 _ sent bucket (concat reads) Hr2) as (b & Hb & _); [by cbn; rewrite lookup_insert_eq|].
  destruct (step_commit s2 _ sent kNamed id bucket remote_path pack' Hr2) as (s3 & ([ok s3'] & Hcommit & [= -> <-])%bind_Ret & Hr3).
  { split; [|by exists b]. rewrite Hp. by eapply new_bucket_packs. }
  rewrite Hcommit. exec. exists s3'. split; [done|]. cbn [spec_step sp_open sp_done] in Hr3. unfold open_content in Hr3. cbn [sp_open] in Hr3.
  rewrite lookup_insert_eq, delete_insert_id in Hr3 by done. by rewrite decide_True in Hr3 by done.
Qed.
End FileUpload.

(** ** Witness *)

Module GatewayWitness.
Import HashWitness ReceiverWitness ChunkingWitness IngestedWitness.

(** One file, stored as a whole and in three parts, in packs of 100 bytes. *)
Definition data_g : bytes := take 100 data1.
Definition jobs_g : gmap Z job := {[5 := mkJob 1 data_g true true]}.
Definition files_g : gmap Z FileItem := {[1 := mkFile 100 true true d_w 0 0]}.
Definition rest_g : gmap Z FileRest := {[1 := new_rest [47; 97] kSuffixNone kSha1]}.
Definition ins_g : list BlockItem := file_blocks 5 1 [data_g].

Definition chunked_g := match run_chunk (mkTask files_g ∅ 0 kFirstTag ∅) ins_g with Ret r => r | Fail _ => ([], mkTask ∅ ∅ 0 0 ∅) end.
Definition packed_g := match run_stage (TaskCompress_Process (H := stored) 300) (mkCompress ∅ ∅) chunked_g.1 with Ret r => r | Fail _ => ([], mkCompress ∅ ∅) end.
Definition hashed_g := match run_stage (TaskHash_Process ck_init ck_update ck_final kSha1) (mkHasher ∅ ∅) packed_g.1 with Ret r => r | Fail _ => ([], mkHasher ∅ ∅) end.
Definition written_g := match run_stage (TaskWrite_Process kSha1 (hash_value_ hashed_g.2)) (mkWrite (Ingestion.files chunked_g.2) rest_g (chunks chunked_g.2) ∅) hashed_g.1 with
  Ret r => r | Fail _ => ([], mkWrite ∅ ∅ ∅ ∅) end.

(** The thread takes a job after every call. *)
Definition bucket_g (c : Z) : Z := 1000 + c.
Definition acts_g : list action := concat (imap (λ i u, [ActCall (Z.of_nat i) u; ActThread]) written_g.1).

Definition fresh_actb (bucket : Z → Z) (s : Session) (act : action) : bool :=
  match act with
  | ActCall pack (InitStreamedUpload c) => bool_decide (sys_packs (ss_system s) !! pack = None) && bool_decide (sys_heap (ss_system s) !! bucket c = None)
  | ActCall pack (ScheduleCommit _ _) => bool_decide (sys_packs (ss_system s) !! pack = None)
  | _ => true
  end.

Fixpoint fresh_actsb (bucket : Z → Z) (s : Session) (acts : list action) : bool :=
  match acts with
  | [] => true
  | act :: acts => fresh_actb bucket s act && match gateway_step bucket s act with Ret (_, s) => fresh_actsb bucket s acts | Fail _ => true end
  end.

Lemma fresh_actsb_ok bucket acts : ∀ s, fresh_actsb bucket s acts = true → fresh_acts bucket s acts.
Proof.
  induction acts as [|act acts IH]; intros s Hf; [done|]. cbn in Hf. apply andb_true_iff in Hf as [H1 H2]. split.
  - destruct act as [pack [c|c d|c h]|]; cbn in *; try done; [apply andb_true_iff in H1 as [H1 H3]; by apply bool_decide_eq_true in H1, H3|by apply bool_decide_eq_true in H1].
  - intros e s' Hs. rewrite Hs in H2. by apply IH.
Qed.
Lemma jobs_g_cases t j : jobs_g !! t = Some j → t = 5 ∧ j = mkJob 1 data_g true true.
Proof. unfold jobs_g. by intros [<- <-]%lookup_singleton_Some. Qed.

Lemma rest_g_ok : rest_ok checksum kSha1 (λ data, data) (λ n, n) 300 rest_g (mkJob 1 data_g true true) [47; 97] kSuffixNone.
Proof. split_and!; [by vm_compute..|by left|by vm_compute|by vm_compute]. Qed.

Lemma pipeline_g : pipeline ck_init ck_update ck_final kSha1 (HC := stored) 300 files_g rest_g ins_g chunked_g.2 (hash_value_ hashed_g.2) written_g.1 written_g.2.
Proof.
  exists chunked_g.1, chunked_g.1, packed_g.1, packed_g.2, packed_g.1, hashed_g.1, hashed_g.2, hashed_g.1. assert (∀ l, same_order l l) as Hid by done.
  split; [by vm_compute|]. split; [apply Hid|]. split; [by vm_compute|]. split; [apply Hid|]. split; [by vm_compute|]. split; [apply Hid|]. split; [done|]. by vm_compute.
Qed.

End GatewayWitness.
