(* ===== verification/NfsConst.v ===== *)
(** * Constants of ONC RPC and NFSv4.0 (src/cvmfs/nfs4/nfs4_const.h) *)

From Stdlib Require Import ZArith.

Open Scope Z_scope.

Definition kRpcVersion : Z := 2.
Definition kRpcCall : Z := 0.
Definition kRpcReply : Z := 1.
Definition kMsgAccepted : Z := 0.
Definition kMsgDenied : Z := 1.
Definition kRpcMismatch : Z := 0.
Definition kAuthError : Z := 1.
Definition kAuthNone : Z := 0.
Definition kAuthSys : Z := 1.
Definition kAuthBadCred : Z := 1.
Definition kAuthTooWeak : Z := 5.

(** AcceptStat *)
Definition kAcceptSuccess : Z := 0.
Definition kAcceptProgUnavail : Z := 1.
Definition kAcceptProgMismatch : Z := 2.
Definition kAcceptProcUnavail : Z := 3.
Definition kAcceptGarbageArgs : Z := 4.
Definition kAcceptSystemErr : Z := 5.
Definition kNfsProgram : Z := 100003.
Definition kNfsVersion4 : Z := 4.
Definition kNfsProcNull : Z := 0.
Definition kNfsProcCompound : Z := 1.
Definition kNfs4FhSize : Z := 128.
Definition kNfs4VerifierSize : Z := 8.
Definition kNfs4OpaqueLimit : Z := 1024.
Definition kStateidOtherSize : Z := 12.

(** Nfs4Status *)
Definition NFS4_OK : Z := 0.
Definition NFS4ERR_PERM : Z := 1.
Definition NFS4ERR_NOENT : Z := 2.
Definition NFS4ERR_IO : Z := 5.
Definition NFS4ERR_NXIO : Z := 6.
Definition NFS4ERR_ACCESS : Z := 13.
Definition NFS4ERR_EXIST : Z := 17.
Definition NFS4ERR_XDEV : Z := 18.
Definition NFS4ERR_NOTDIR : Z := 20.
Definition NFS4ERR_ISDIR : Z := 21.
Definition NFS4ERR_INVAL : Z := 22.
Definition NFS4ERR_FBIG : Z := 27.
Definition NFS4ERR_NOSPC : Z := 28.
Definition NFS4ERR_ROFS : Z := 30.
Definition NFS4ERR_MLINK : Z := 31.
Definition NFS4ERR_NAMETOOLONG : Z := 63.
Definition NFS4ERR_NOTEMPTY : Z := 66.
Definition NFS4ERR_DQUOT : Z := 69.
Definition NFS4ERR_STALE : Z := 70.
Definition NFS4ERR_BADHANDLE : Z := 10001.
Definition NFS4ERR_BAD_COOKIE : Z := 10003.
Definition NFS4ERR_NOTSUPP : Z := 10004.
Definition NFS4ERR_TOOSMALL : Z := 10005.
Definition NFS4ERR_SERVERFAULT : Z := 10006.
Definition NFS4ERR_BADTYPE : Z := 10007.
Definition NFS4ERR_DELAY : Z := 10008.
Definition NFS4ERR_SAME : Z := 10009.
Definition NFS4ERR_DENIED : Z := 10010.
Definition NFS4ERR_EXPIRED : Z := 10011.
Definition NFS4ERR_LOCKED : Z := 10012.
Definition NFS4ERR_GRACE : Z := 10013.
Definition NFS4ERR_FHEXPIRED : Z := 10014.
Definition NFS4ERR_SHARE_DENIED : Z := 10015.
Definition NFS4ERR_WRONGSEC : Z := 10016.
Definition NFS4ERR_CLID_INUSE : Z := 10017.
Definition NFS4ERR_RESOURCE : Z := 10018.
Definition NFS4ERR_MOVED : Z := 10019.
Definition NFS4ERR_NOFILEHANDLE : Z := 10020.
Definition NFS4ERR_MINOR_VERS_MISMATCH : Z := 10021.
Definition NFS4ERR_STALE_CLIENTID : Z := 10022.
Definition NFS4ERR_STALE_STATEID : Z := 10023.
Definition NFS4ERR_OLD_STATEID : Z := 10024.
Definition NFS4ERR_BAD_STATEID : Z := 10025.
Definition NFS4ERR_BAD_SEQID : Z := 10026.
Definition NFS4ERR_NOT_SAME : Z := 10027.
Definition NFS4ERR_LOCK_RANGE : Z := 10028.
Definition NFS4ERR_SYMLINK : Z := 10029.
Definition NFS4ERR_RESTOREFH : Z := 10030.
Definition NFS4ERR_LEASE_MOVED : Z := 10031.
Definition NFS4ERR_ATTRNOTSUPP : Z := 10032.
Definition NFS4ERR_NO_GRACE : Z := 10033.
Definition NFS4ERR_RECLAIM_BAD : Z := 10034.
Definition NFS4ERR_RECLAIM_CONFLICT : Z := 10035.
Definition NFS4ERR_BADXDR : Z := 10036.
Definition NFS4ERR_LOCKS_HELD : Z := 10037.
Definition NFS4ERR_OPENMODE : Z := 10038.
Definition NFS4ERR_BADOWNER : Z := 10039.
Definition NFS4ERR_BADCHAR : Z := 10040.
Definition NFS4ERR_BADNAME : Z := 10041.
Definition NFS4ERR_BAD_RANGE : Z := 10042.
Definition NFS4ERR_LOCK_NOTSUPP : Z := 10043.
Definition NFS4ERR_OP_ILLEGAL : Z := 10044.
Definition NFS4ERR_DEADLOCK : Z := 10045.
Definition NFS4ERR_FILE_OPEN : Z := 10046.
Definition NFS4ERR_ADMIN_REVOKED : Z := 10047.
Definition NFS4ERR_CB_PATH_DOWN : Z := 10048.

(** Nfs4Op *)
Definition OP_ACCESS : Z := 3.
Definition OP_CLOSE : Z := 4.
Definition OP_COMMIT : Z := 5.
Definition OP_CREATE : Z := 6.
Definition OP_DELEGPURGE : Z := 7.
Definition OP_DELEGRETURN : Z := 8.
Definition OP_GETATTR : Z := 9.
Definition OP_GETFH : Z := 10.
Definition OP_LINK : Z := 11.
Definition OP_LOCK : Z := 12.
Definition OP_LOCKT : Z := 13.
Definition OP_LOCKU : Z := 14.
Definition OP_LOOKUP : Z := 15.
Definition OP_LOOKUPP : Z := 16.
Definition OP_NVERIFY : Z := 17.
Definition OP_OPEN : Z := 18.
Definition OP_OPENATTR : Z := 19.
Definition OP_OPEN_CONFIRM : Z := 20.
Definition OP_OPEN_DOWNGRADE : Z := 21.
Definition OP_PUTFH : Z := 22.
Definition OP_PUTPUBFH : Z := 23.
Definition OP_PUTROOTFH : Z := 24.
Definition OP_READ : Z := 25.
Definition OP_READDIR : Z := 26.
Definition OP_READLINK : Z := 27.
Definition OP_REMOVE : Z := 28.
Definition OP_RENAME : Z := 29.
Definition OP_RENEW : Z := 30.
Definition OP_RESTOREFH : Z := 31.
Definition OP_SAVEFH : Z := 32.
Definition OP_SECINFO : Z := 33.
Definition OP_SETATTR : Z := 34.
Definition OP_SETCLIENTID : Z := 35.
Definition OP_SETCLIENTID_CONFIRM : Z := 36.
Definition OP_VERIFY : Z := 37.
Definition OP_WRITE : Z := 38.
Definition OP_RELEASE_LOCKOWNER : Z := 39.
Definition OP_ILLEGAL : Z := 10044.

(** Nfs4FileType *)
Definition NF4REG : Z := 1.
Definition NF4DIR : Z := 2.
Definition NF4BLK : Z := 3.
Definition NF4CHR : Z := 4.
Definition NF4LNK : Z := 5.
Definition NF4SOCK : Z := 6.
Definition NF4FIFO : Z := 7.
Definition NF4ATTRDIR : Z := 8.
Definition NF4NAMEDATTR : Z := 9.

(** Nfs4Attr *)
Definition FATTR4_SUPPORTED_ATTRS : Z := 0.
Definition FATTR4_TYPE : Z := 1.
Definition FATTR4_FH_EXPIRE_TYPE : Z := 2.
Definition FATTR4_CHANGE : Z := 3.
Definition FATTR4_SIZE : Z := 4.
Definition FATTR4_LINK_SUPPORT : Z := 5.
Definition FATTR4_SYMLINK_SUPPORT : Z := 6.
Definition FATTR4_NAMED_ATTR : Z := 7.
Definition FATTR4_FSID : Z := 8.
Definition FATTR4_UNIQUE_HANDLES : Z := 9.
Definition FATTR4_LEASE_TIME : Z := 10.
Definition FATTR4_RDATTR_ERROR : Z := 11.
Definition FATTR4_ACL : Z := 12.
Definition FATTR4_ACLSUPPORT : Z := 13.
Definition FATTR4_ARCHIVE : Z := 14.
Definition FATTR4_CANSETTIME : Z := 15.
Definition FATTR4_CASE_INSENSITIVE : Z := 16.
Definition FATTR4_CASE_PRESERVING : Z := 17.
Definition FATTR4_CHOWN_RESTRICTED : Z := 18.
Definition FATTR4_FILEHANDLE : Z := 19.
Definition FATTR4_FILEID : Z := 20.
Definition FATTR4_FILES_AVAIL : Z := 21.
Definition FATTR4_FILES_FREE : Z := 22.
Definition FATTR4_FILES_TOTAL : Z := 23.
Definition FATTR4_FS_LOCATIONS : Z := 24.
Definition FATTR4_HIDDEN : Z := 25.
Definition FATTR4_HOMOGENEOUS : Z := 26.
Definition FATTR4_MAXFILESIZE : Z := 27.
Definition FATTR4_MAXLINK : Z := 28.
Definition FATTR4_MAXNAME : Z := 29.
Definition FATTR4_MAXREAD : Z := 30.
Definition FATTR4_MAXWRITE : Z := 31.
Definition FATTR4_MIMETYPE : Z := 32.
Definition FATTR4_MODE : Z := 33.
Definition FATTR4_NO_TRUNC : Z := 34.
Definition FATTR4_NUMLINKS : Z := 35.
Definition FATTR4_OWNER : Z := 36.
Definition FATTR4_OWNER_GROUP : Z := 37.
Definition FATTR4_QUOTA_AVAIL_HARD : Z := 38.
Definition FATTR4_QUOTA_AVAIL_SOFT : Z := 39.
Definition FATTR4_QUOTA_USED : Z := 40.
Definition FATTR4_RAWDEV : Z := 41.
Definition FATTR4_SPACE_AVAIL : Z := 42.
Definition FATTR4_SPACE_FREE : Z := 43.
Definition FATTR4_SPACE_TOTAL : Z := 44.
Definition FATTR4_SPACE_USED : Z := 45.
Definition FATTR4_SYSTEM : Z := 46.
Definition FATTR4_TIME_ACCESS : Z := 47.
Definition FATTR4_TIME_ACCESS_SET : Z := 48.
Definition FATTR4_TIME_BACKUP : Z := 49.
Definition FATTR4_TIME_CREATE : Z := 50.
Definition FATTR4_TIME_DELTA : Z := 51.
Definition FATTR4_TIME_METADATA : Z := 52.
Definition FATTR4_TIME_MODIFY : Z := 53.
Definition FATTR4_TIME_MODIFY_SET : Z := 54.
Definition FATTR4_MOUNTED_ON_FILEID : Z := 55.
Definition FH4_PERSISTENT : Z := 0.
Definition ACCESS4_READ : Z := 1.
Definition ACCESS4_LOOKUP : Z := 2.
Definition ACCESS4_MODIFY : Z := 4.
Definition ACCESS4_EXTEND : Z := 8.
Definition ACCESS4_DELETE : Z := 16.
Definition ACCESS4_EXECUTE : Z := 32.
Definition OPEN4_SHARE_ACCESS_READ : Z := 1.
Definition OPEN4_SHARE_ACCESS_WRITE : Z := 2.
Definition OPEN4_SHARE_ACCESS_BOTH : Z := 3.
Definition OPEN4_SHARE_DENY_NONE : Z := 0.
Definition OPEN4_NOCREATE : Z := 0.
Definition OPEN4_CREATE : Z := 1.
Definition CLAIM_NULL : Z := 0.
Definition CLAIM_PREVIOUS : Z := 1.
Definition CLAIM_DELEGATE_CUR : Z := 2.
Definition CLAIM_DELEGATE_PREV : Z := 3.
Definition OPEN4_RESULT_CONFIRM : Z := 2.
Definition OPEN4_RESULT_LOCKTYPE_POSIX : Z := 4.
Definition OPEN_DELEGATE_NONE : Z := 0.
Definition OPEN_DELEGATE_READ : Z := 1.
