(* ===== verification/Xdr.v ===== *)
(** * External data representation (src/cvmfs/nfs4/xdr.{h,cc})

    The decoder and the encoder of the NFS server (RFC 4506).  The reader
    works on bytes that come from the network; its errors are sticky. *)

From stdpp Require Import base numbers list.
From S2P Require Import Prelude Bytes.

Open Scope Z_scope.

Definition Pad4 (len : Z) : Z := Z.land (4 - Z.land len 3) 3.

(** ** Reader *)

Record XdrReader := mkReader {
  data_ : bytes;
  pos_ : Z;
  ok_ : bool
}.

(** [XdrReader(data, size)], with the size that of the area. *)
Definition new_reader (data : bytes) : XdrReader := mkReader data 0 true.

Definition failed (r : XdrReader) : XdrReader := mkReader (data_ r) (pos_ r) false.
Definition advance (r : XdrReader) (n : Z) : XdrReader := mkReader (data_ r) (pos_ r + n) (ok_ r).

Definition remaining (r : XdrReader) : Z := zlen (data_ r) - pos_ r.
(** The bytes from the cursor on. *)
Definition cursor (r : XdrReader) : bytes := drop (Z.to_nat (pos_ r)) (data_ r).

Definition Take (r : XdrReader) (len : Z) : bool * XdrReader :=
  if negb (ok_ r) || (len >? u64 (remaining r)) then (false, failed r) else (true, r).

(** The getters return the value that they assign, [None] for [false]; a read
    outside of the buffer would be an [OutOfBounds]. *)
Definition getter (A : Type) : Type := XdrReader → outcome (option A * XdrReader).

Definition GetU32 : getter Z := λ r,
  let '(t, r) := Take r 4 in
  if negb t then Ret (None, r) else
  p0 ← rd (data_ r) (pos_ r);
  p1 ← rd (data_ r) (pos_ r + 1);
  p2 ← rd (data_ r) (pos_ r + 2);
  p3 ← rd (data_ r) (pos_ r + 3);
  Ret (Some (Z.lor (Z.lor (Z.lor (u32 (Z.shiftl p0 24)) (u32 (Z.shiftl p1 16))) (u32 (Z.shiftl p2 8))) p3),
       advance r 4).

Definition GetI32 : getter Z := λ r,
  '(u, r) ← GetU32 r;
  Ret (option_map i32 u, r).

Definition GetU64 : getter Z := λ r,
  '(hi, r) ← GetU32 r;
  match hi with
  | None => Ret (None, r)
  | Some hi =>
      '(lo, r) ← GetU32 r;
      Ret (option_map (λ lo, Z.lor (u64 (Z.shiftl hi 32)) lo) lo, r)
  end.

Definition GetI64 : getter Z := λ r,
  '(u, r) ← GetU64 r;
  Ret (option_map i64 u, r).

Definition GetBool : getter bool := λ r,
  '(u, r) ← GetU32 r;
  match u with
  | None => Ret (None, r)
  | Some u => if u >? 1 then Ret (None, failed r) else Ret (Some (u =? 1), r)
  end.

Definition GetOpaque (max_len : Z) : getter bytes := λ r,
  '(len, r) ← GetU32 r;
  match len with
  | None => Ret (None, r)
  | Some len =>
      if negb (max_len =? 0) && (len >? max_len) then Ret (None, failed r) else
      let padded := len + Pad4 len in
      let '(t, r) := Take r padded in
      if negb t then Ret (None, r) else
      v ← load (data_ r) (pos_ r) len;
      Ret (Some v, advance r padded)
  end.

Definition GetString (max_len : Z) : getter bytes := GetOpaque max_len.

Definition GetFixedOpaque (len : Z) : getter bytes := λ r,
  let padded := len + Pad4 len in
  let '(t, r) := Take r padded in
  if negb t then Ret (None, r) else
  v ← load (data_ r) (pos_ r) len;
  Ret (Some v, advance r padded).

Definition Skip (len : Z) : getter unit := λ r,
  let '(t, r) := Take r len in
  if negb t then Ret (None, r) else Ret (Some tt, advance r len).

(** ** Writer

    The writer is its buffer, and every [Put] appends to it. *)

Definition XdrWriter : Type := bytes.

Definition PutU32 (w : XdrWriter) (v : Z) : XdrWriter :=
  w ++ [u8 (Z.shiftr v 24); u8 (Z.shiftr v 16); u8 (Z.shiftr v 8); u8 v].
Definition PutI32 (w : XdrWriter) (v : Z) : XdrWriter := PutU32 w (u32 v).
Definition PutU64 (w : XdrWriter) (v : Z) : XdrWriter := PutU32 (PutU32 w (u32 (Z.shiftr v 32))) (u32 v).
Definition PutI64 (w : XdrWriter) (v : Z) : XdrWriter := PutU64 w (u64 v).
Definition PutBool (w : XdrWriter) (v : bool) : XdrWriter := PutU32 w (if v then 1 else 0).
Definition PutFixedOpaque (w : XdrWriter) (data : bytes) : XdrWriter :=
  (w ++ data) ++ repeat 0 (Z.to_nat (Pad4 (zlen data))).
Definition PutOpaque (w : XdrWriter) (data : bytes) : XdrWriter :=
  PutFixedOpaque (PutU32 w (u32 (zlen data))) data.
Definition PutString (w : XdrWriter) (v : bytes) : XdrWriter := PutOpaque w v.
Definition PutRaw (w : XdrWriter) (data : bytes) : XdrWriter := w ++ data.

Definition ReserveU32 (w : XdrWriter) : Z * XdrWriter := (zlen w, w ++ repeat 0 4).
Definition PatchU32 (w : XdrWriter) (offset v : Z) : outcome XdrWriter :=
  w ← wr w offset (u8 (Z.shiftr v 24));
  w ← wr w (offset + 1) (u8 (Z.shiftr v 16));
  w ← wr w (offset + 2) (u8 (Z.shiftr v 8));
  wr w (offset + 3) (u8 v).
(** [resize], to a smaller size. *)
Definition Truncate (w : XdrWriter) (size : Z) : XdrWriter := take (Z.to_nat size) w.

(** ** Padding *)

Lemma Pad4_spec len : Pad4 len = (4 - len mod 4) mod 4.
Proof.
  unfold Pad4. change 3 with (Z.ones 2). rewrite !Z.land_ones by lia. done.
Qed.

Lemma Pad4_range len : 0 ≤ Pad4 len < 4.
Proof. rewrite Pad4_spec. apply Z.mod_pos_bound. lia. Qed.

(** ** Readers stay within their buffer *)

Definition reader_ok (r : XdrReader) : Prop :=
  bytes_ok (data_ r) ∧ 0 ≤ pos_ r ≤ zlen (data_ r) ∧ zlen (data_ r) < 2 ^ 64.

(** The outcome [m] of reading from [r]: not out of bounds, in the same buffer,
    not behind the old position; a value only from a good reader that stays
    good, and then one that satisfies [Q]. *)
Definition run_ok {A} (m : outcome (option A * XdrReader)) (r : XdrReader) (Q : A → Prop) : Prop :=
  ∃ o r', m = Ret (o, r') ∧ reader_ok r' ∧ data_ r' = data_ r ∧ pos_ r ≤ pos_ r'
          ∧ match o with Some v => ok_ r = true ∧ ok_ r' = true ∧ Q v | None => ok_ r' = false end.

Definition getter_ok {A} (g : getter A) (Q : A → Prop) : Prop := ∀ r, reader_ok r → run_ok (g r) r Q.

Create HintDb xdr.

Lemma new_reader_ok data : bytes_ok data → zlen data < 2 ^ 64 → reader_ok (new_reader data).
Proof. intros. split_and!; try done. unfold zlen. cbn. lia. Qed.

Lemma Take_ok r len : reader_ok r → 0 ≤ len →
  (ok_ r = true ∧ pos_ r + len ≤ zlen (data_ r) ∧ Take r len = (true, r))
  ∨ Take r len = (false, failed r).
Proof.
  intros (Hb & Hp & Hs) Hl. unfold Take, remaining. rewrite u64_small by (unfold_words; lia).
  destruct (ok_ r); cbn [negb orb]; [|by right].
  destruct (Z.leb_spec len (zlen (data_ r) - pos_ r)); [|right; by rewrite gtb_true by lia].
  left. rewrite gtb_false by lia. split_and!; [done|lia|done].
Qed.

Lemma failed_ok r : reader_ok r → reader_ok (failed r).
Proof. done. Qed.

Lemma advance_ok r n : reader_ok r → 0 ≤ n → pos_ r + n ≤ zlen (data_ r) → reader_ok (advance r n).
Proof. intros (Hb & Hp & Hs) ? ?. split_and!; cbn [data_ pos_ advance]; (done || lia). Qed.

Lemma rd_byte r i : reader_ok r → pos_ r ≤ i < zlen (data_ r) → ∃ b, rd (data_ r) i = Ret b ∧ is_u8 b.
Proof.
  intros (Hb & Hp & _) Hi. unfold rd. destruct (lget_in_range (data_ r) i) as [b Hg]; [lia|]. rewrite Hg.
  exists b. split; [done|]. unfold lget in Hg. case_decide; [|done].
  unfold bytes_ok in Hb. rewrite Forall_lookup in Hb. by eapply Hb.
Qed.

Lemma GetU32_ok : getter_ok GetU32 is_u32.
Proof.
  intros r Hr. unfold run_ok, GetU32. destruct (Take_ok r 4 Hr ltac:(lia)) as [(Hok & Hlen & ->)| ->]; cbn [negb].
  2: { exists None, (failed r). split_and!; (done || lia). }
  pose proof Hr as (_ & Hp & _).
  destruct (rd_byte r (pos_ r) Hr ltac:(lia)) as (p0 & -> & H0).
  destruct (rd_byte r (pos_ r + 1) Hr ltac:(lia)) as (p1 & -> & H1).
  destruct (rd_byte r (pos_ r + 2) Hr ltac:(lia)) as (p2 & -> & H2).
  destruct (rd_byte r (pos_ r + 3) Hr ltac:(lia)) as (p3 & -> & H3).
  exec. do 2 eexists. split; [done|]. rewrite join_u32 by done. split_and!; try done.
  - apply advance_ok; (done || lia).
  - cbn [advance pos_]. lia.
  - unfold_words. lia.
Qed.
#[export] Hint Resolve GetU32_ok : xdr.

(** Reading one item after the other. *)
Lemma run_ok_bind {A B} (g : getter A) (Q : A → Prop) (h : A → getter B) (Q' : B → Prop) r :
  getter_ok g Q → reader_ok r →
  (∀ v r', Q v → reader_ok r' → ok_ r' = true → run_ok (h v r') r' Q') →
  run_ok ('(o, r) ← g r; match o with None => Ret (None, r) | Some v => h v r end) r Q'.
Proof.
  intros Hg Hr Hh. destruct (Hg r Hr) as (o & r1 & -> & Hr1 & Hd1 & Hp1 & Ho). exec.
  destruct o as [v|]; [|by exists None, r1]. destruct Ho as (Hok & Hok1 & HQ).
  destruct (Hh v r1 HQ Hr1 Hok1) as (o2 & r2 & -> & Hr2 & Hd2 & Hp2 & Ho2).
  exists o2, r2. split_and!; [done|done|congruence|lia|]. destruct o2; naive_solver.
Qed.

Lemma getter_ok_map {A B} (g : getter A) (Q : A → Prop) (f : A → B) (Q' : B → Prop) :
  getter_ok g Q → (∀ v, Q v → Q' (f v)) → getter_ok (λ r, '(o, r) ← g r; Ret (option_map f o, r)) Q'.
Proof.
  intros Hg Hf r Hr. destruct (Hg r Hr) as (o & r1 & -> & Hr1 & Hd1 & Hp1 & Ho). exec.
  exists (option_map f o), r1. split_and!; try done. destruct o; naive_solver.
Qed.

Lemma run_ok_fail {A} r (Q : A → Prop) : reader_ok r → run_ok (Ret (None, failed r)) r Q.
Proof. intros. exists None, (failed r). split_and!; (done || lia). Qed.

Lemma run_ok_value {A} r n (v : A) (Q : A → Prop) : reader_ok r → ok_ r = true → 0 ≤ n →
  pos_ r + n ≤ zlen (data_ r) → Q v → run_ok (Ret (Some v, advance r n)) r Q.
Proof.
  intros Hr Hok Hn Hl HQ. do 2 eexists. split; [done|]. split_and!; try done; [by apply advance_ok|].
  cbn [advance pos_]. lia.
Qed.

Lemma GetI32_ok : getter_ok GetI32 (λ z, - 2 ^ 31 ≤ z < 2 ^ 31).
Proof. apply (getter_ok_map _ _ _ _ GetU32_ok). intros. unfold_words. dlia. Qed.

Lemma GetU64_ok : getter_ok GetU64 is_u64.
Proof.
  intros r Hr. apply (run_ok_bind GetU32 is_u32 (λ hi r, '(lo, r) ← GetU32 r;
    Ret (option_map (λ lo, Z.lor (u64 (Z.shiftl hi 32)) lo) lo, r))); [auto with xdr|done|].
  intros hi r' Hhi Hr' _. revert r' Hr'. apply (getter_ok_map _ _ _ _ GetU32_ok).
  intros lo Hlo. rewrite join_u64 by done. unfold_words. lia.
Qed.

Lemma GetI64_ok : getter_ok GetI64 (λ z, - 2 ^ 63 ≤ z < 2 ^ 63).
Proof. apply (getter_ok_map _ _ _ _ GetU64_ok). intros. unfold_words. dlia. Qed.

Lemma GetBool_ok : getter_ok GetBool (λ _, True).
Proof.
  intros r Hr. apply (run_ok_bind GetU32 is_u32 (λ u r, if u >? 1 then Ret (None, failed r) else Ret (Some (u =? 1), r)));
    [auto with xdr|done|].
  intros u r' Hu Hr' Hok. destruct (u >? 1); [by apply run_ok_fail|]. by exists (Some (u =? 1)), r'.
Qed.

(** The part that the two opaque getters share. *)
Lemma take_load_ok r len : reader_ok r → 0 ≤ len →
  run_ok (let '(t, r) := Take r (len + Pad4 len) in
          if negb t then Ret (None, r) else
          v ← load (data_ r) (pos_ r) len; Ret (Some v, advance r (len + Pad4 len)))
         r (λ v, zlen v = len ∧ bytes_ok v).
Proof.
  intros Hr Hl. pose proof (Pad4_range len). pose proof Hr as (Hb & Hp & _).
  destruct (Take_ok r (len + Pad4 len) Hr ltac:(lia)) as [(Hok & Hlen & ->)| ->]; cbn [negb]; [|by apply run_ok_fail].
  unfold load. rewrite decide_True by lia. exec. apply run_ok_value; try done; [lia|]. split.
  - unfold zlen in *. rewrite length_take, length_drop. lia.
  - by apply Forall_take, Forall_drop.
Qed.

Lemma GetOpaque_ok max_len : getter_ok (GetOpaque max_len) (λ v, bytes_ok v ∧ zlen v < 2 ^ 32 ∧ (max_len = 0 ∨ zlen v ≤ max_len)).
Proof.
  intros r Hr. apply (run_ok_bind GetU32 is_u32); [auto with xdr|done|]. intros len r' Hlen Hr' Hok.
  destruct (negb (max_len =? 0) && (len >? max_len)) eqn:E; [by apply run_ok_fail|].
  destruct (take_load_ok r' len Hr' ltac:(unfold_words; lia)) as (o & r2 & Hrun & H2 & Hd & Hp & Ho).
  exists o, r2. split_and!; try done. destruct o; [|done]. destruct Ho as (? & ? & Hz & ?). split_and!; try done.
  - rewrite Hz. apply Hlen.
  - rewrite Hz. destruct (Z.eqb_spec max_len 0); [by left|]. cbn [negb andb] in E. lia.
Qed.

Lemma GetFixedOpaque_ok len : 0 ≤ len → getter_ok (GetFixedOpaque len) (λ v, zlen v = len ∧ bytes_ok v).
Proof. intros Hl r Hr. by apply take_load_ok. Qed.

#[export] Hint Resolve GetI32_ok GetU64_ok GetI64_ok GetBool_ok GetOpaque_ok GetFixedOpaque_ok : xdr.

(** ** Reading back what was written *)

(** [g] reads the encoding [enc] of [v], wherever it lies. *)
Definition reads {A} (g : getter A) (enc : bytes) (v : A) : Prop :=
  ∀ pre post : bytes, zlen (pre ++ enc ++ post) < 2 ^ 64 →
    g (mkReader (pre ++ enc ++ post) (zlen pre) true)
    = Ret (Some v, mkReader (pre ++ enc ++ post) (zlen pre + zlen enc) true).

Lemma Take_enough (pre enc post : bytes) n : zlen (pre ++ enc ++ post) < 2 ^ 64 → 0 ≤ n ≤ zlen enc →
  Take (mkReader (pre ++ enc ++ post) (zlen pre) true) n = (true, mkReader (pre ++ enc ++ post) (zlen pre) true).
Proof.
  intros Hl Hn. unfold Take, remaining. cbn [ok_ data_ pos_ negb orb]. rewrite !zlen_app in *.
  pose proof (zlen_nonneg pre). pose proof (zlen_nonneg post).
  by rewrite u64_small, gtb_false by (unfold_words; lia).
Qed.

Definition u32_bytes (v : Z) : bytes := [u8 (Z.shiftr v 24); u8 (Z.shiftr v 16); u8 (Z.shiftr v 8); u8 v].
Definition u64_bytes (v : Z) : bytes := u32_bytes (u32 (Z.shiftr v 32)) ++ u32_bytes (u32 v).
Definition fixed_bytes (d : bytes) : bytes := d ++ repeat 0 (Z.to_nat (Pad4 (zlen d))).
Definition opaque_bytes (d : bytes) : bytes := u32_bytes (u32 (zlen d)) ++ fixed_bytes d.

Lemma PutU32_bytes w v : PutU32 w v = w ++ u32_bytes v.
Proof. done. Qed.
Lemma PutU64_bytes w v : PutU64 w v = w ++ u64_bytes v.
Proof. unfold PutU64. by rewrite !PutU32_bytes, <- app_assoc. Qed.
Lemma PutFixedOpaque_bytes w d : PutFixedOpaque w d = w ++ fixed_bytes d.
Proof. unfold PutFixedOpaque. by rewrite <- app_assoc. Qed.
Lemma PutOpaque_bytes w d : PutOpaque w d = w ++ opaque_bytes d.
Proof. unfold PutOpaque. by rewrite PutFixedOpaque_bytes, PutU32_bytes, <- app_assoc. Qed.

Lemma zlen_u32_bytes v : zlen (u32_bytes v) = 4.
Proof. done. Qed.
Lemma zlen_u64_bytes v : zlen (u64_bytes v) = 8.
Proof. done. Qed.
Lemma zlen_fixed_bytes d : zlen (fixed_bytes d) = zlen d + Pad4 (zlen d).
Proof. unfold fixed_bytes. rewrite zlen_app. pose proof (Pad4_range (zlen d)). unfold zlen in *. rewrite repeat_length. lia. Qed.
Lemma zlen_opaque_bytes d : zlen (opaque_bytes d) = 4 + zlen d + Pad4 (zlen d).
Proof. unfold opaque_bytes. rewrite zlen_app, zlen_fixed_bytes, zlen_u32_bytes. lia. Qed.

Lemma u32_bytes_ok v : bytes_ok (u32_bytes v).
Proof. repeat constructor; apply u8_range. Qed.
Lemma u64_bytes_ok v : bytes_ok (u64_bytes v).
Proof. apply Forall_app. split; apply u32_bytes_ok. Qed.
Lemma fixed_bytes_ok d : bytes_ok d → bytes_ok (fixed_bytes d).
Proof.
  intros. apply Forall_app. split; [done|]. apply Forall_forall. intros x Hx%list_elem_of_In%repeat_spec. by subst.
Qed.
Lemma opaque_bytes_ok d : bytes_ok d → bytes_ok (opaque_bytes d).
Proof. intros. apply Forall_app. split; [apply u32_bytes_ok|by apply fixed_bytes_ok]. Qed.
#[export] Hint Resolve u32_bytes_ok u64_bytes_ok fixed_bytes_ok opaque_bytes_ok : xdr.

Lemma rd_skip (pre enc post : bytes) (i : nat) (x : Z) :
  enc !! i = Some x → rd (pre ++ enc ++ post) (zlen pre + Z.of_nat i) = Ret x.
Proof.
  intros Hx. unfold rd, lget, zlen. rewrite decide_True by lia.
  replace (Z.to_nat (Z.of_nat (length pre) + Z.of_nat i)) with (length pre + i)%nat by lia.
  rewrite lookup_app_r by lia. replace (length pre + i - length pre)%nat with i by lia.
  by rewrite (lookup_app_l_Some _ _ _ _ Hx).
Qed.

Lemma GetU32_reads v : is_u32 v → reads GetU32 (u32_bytes v) v.
Proof.
  intros Hv pre post Hl. unfold GetU32. rewrite Take_enough by (done || rewrite zlen_u32_bytes; lia). cbn [negb data_ pos_].
  pose proof (rd_skip pre (u32_bytes v) post 0 _ eq_refl) as H0. rewrite Z.add_0_r in H0. rewrite H0.
  rewrite (rd_skip pre (u32_bytes v) post 1 _ eq_refl : rd _ (_ + 1) = _),
    (rd_skip pre (u32_bytes v) post 2 _ eq_refl : rd _ (_ + 2) = _),
    (rd_skip pre (u32_bytes v) post 3 _ eq_refl : rd _ (_ + 3) = _). exec.
  rewrite join_u32, split_u32 by auto with words. done.
Qed.

Lemma reads_map {A B} (g : getter A) (f : A → B) enc v :
  reads g enc v → reads (λ r, '(o, r) ← g r; Ret (option_map f o, r)) enc (f v).
Proof. intros Hg pre post Hl. by rewrite Hg. Qed.

Lemma reads_bind {A B} (g : getter A) (h : A → getter B) enc1 enc2 v1 v2 :
  reads g enc1 v1 → reads (h v1) enc2 v2 →
  reads (λ r, '(o, r) ← g r; match o with None => Ret (None, r) | Some v => h v r end) (enc1 ++ enc2) v2.
Proof.
  intros Hg Hh pre post Hl. rewrite <- (app_assoc enc1) in *. rewrite Hg by done. exec.
  rewrite (app_assoc pre) in *. rewrite <- zlen_app. rewrite Hh by done. rewrite !zlen_app. do 3 f_equal. lia.
Qed.

Lemma GetU64_reads v : is_u64 v → reads GetU64 (u64_bytes v) v.
Proof.
  intros Hv. apply (reads_bind GetU32 (λ hi r, '(lo, r) ← GetU32 r;
    Ret (option_map (λ lo, Z.lor (u64 (Z.shiftl hi 32)) lo) lo, r)) _ _ (u32 (Z.shiftr v 32))).
  - apply GetU32_reads, u32_range.
  - pose proof (reads_map GetU32 (λ lo, Z.lor (u64 (Z.shiftl (u32 (Z.shiftr v 32)) 32)) lo) _ _
      (GetU32_reads (u32 v) (u32_range v))) as Hm. cbn beta in Hm.
    rewrite (join_u64 _ (u32 v)), split_u64 in Hm by auto with words. exact Hm.
Qed.

Lemma GetBool_reads (b : bool) : reads GetBool (u32_bytes (if b then 1 else 0)) b.
Proof.
  intros pre post Hl. unfold GetBool. rewrite GetU32_reads by (done || by destruct b). by destruct b.
Qed.

Lemma GetFixedOpaque_reads d : reads (GetFixedOpaque (zlen d)) (fixed_bytes d) d.
Proof.
  intros pre post Hl. unfold GetFixedOpaque. pose proof (Pad4_range (zlen d)). pose proof (zlen_nonneg d).
  rewrite Take_enough by (done || rewrite zlen_fixed_bytes; lia). cbn [negb data_ pos_].
  assert (load (pre ++ fixed_bytes d ++ post) (zlen pre) (zlen d) = Ret d) as ->.
  { unfold fixed_bytes. rewrite <- (app_assoc d). by apply load_app. }
  exec. unfold advance. cbn [pos_ data_ ok_].
  by rewrite zlen_fixed_bytes.
Qed.

Lemma GetOpaque_reads max_len d : zlen d < 2 ^ 32 → max_len = 0 ∨ zlen d ≤ max_len →
  reads (GetOpaque max_len) (opaque_bytes d) d.
Proof.
  intros Hd Hm. pose proof (zlen_nonneg d). unfold opaque_bytes. rewrite u32_small by (unfold_words; lia).
  apply (reads_bind GetU32 (λ len r, if negb (max_len =? 0) && (len >? max_len) then Ret (None, failed r)
    else GetFixedOpaque len r)  _ _ (zlen d)); [apply GetU32_reads; unfold_words; lia|].
  replace (negb (max_len =? 0) && (zlen d >? max_len)) with false; [apply GetFixedOpaque_reads|].
  destruct Hm as [->|?]; [done|]. rewrite gtb_false by done. by rewrite andb_false_r.
Qed.

Lemma GetI32_reads v : - 2 ^ 31 ≤ v < 2 ^ 31 → reads GetI32 (u32_bytes (u32 v)) v.
Proof.
  intros Hv. pose proof (reads_map GetU32 i32 _ _ (GetU32_reads (u32 v) (u32_range v))) as Hm.
  replace (i32 (u32 v)) with v in Hm by (unfold_words; dlia). exact Hm.
Qed.

Lemma GetI64_reads v : - 2 ^ 63 ≤ v < 2 ^ 63 → reads GetI64 (u64_bytes (u64 v)) v.
Proof.
  intros Hv. pose proof (reads_map GetU64 i64 _ _ (GetU64_reads (u64 v) (u64_range v))) as Hm.
  rewrite i64_u64, i64_small in Hm by done. exact Hm.
Qed.

Lemma u32_bytes_surj (b : bytes) : bytes_ok b → length b = 4%nat → ∃ v, is_u32 v ∧ b = u32_bytes v.
Proof.
  destruct b as [|a [|b [|c [|d [|]]]]]; try done. intros Hb _.
  unfold bytes_ok in Hb. rewrite !Forall_cons in Hb. destruct Hb as (Ha & Hb & Hc & Hd & _).
  exists (a * 2 ^ 24 + b * 2 ^ 16 + c * 2 ^ 8 + d). split; [unfold_words; lia|].
  unfold u32_bytes. rewrite !Z.shiftr_div_pow2 by lia. unfold_words. change (2 ^ 24) with 16777216.
  repeat f_equal; dlia.
Qed.

Lemma u64_bytes_surj (b : bytes) : bytes_ok b → length b = 8%nat → ∃ v, is_u64 v ∧ b = u64_bytes v.
Proof.
  intros Hb Hl. rewrite <- (take_drop 4 b).
  destruct (u32_bytes_surj (take 4 b)) as (hi & Hhi & ->); [by apply Forall_take|rewrite length_take; lia|].
  destruct (u32_bytes_surj (drop 4 b)) as (lo & Hlo & ->); [by apply Forall_drop|rewrite length_drop; lia|].
  exists (hi * 2 ^ 32 + lo). split; [unfold_words; lia|]. unfold u64_bytes. rewrite Z.shiftr_div_pow2 by lia.
  f_equal; f_equal; unfold_words; dlia.
Qed.

(** A good reader between what it has read and what it has not. *)
Definition reader_at (pre post : bytes) : XdrReader := mkReader (pre ++ post) (zlen pre) true.

Lemma reads_at {A} (g : getter A) enc v pre post : reads g enc v → zlen pre + zlen (enc ++ post) < 2 ^ 64 →
  g (reader_at pre (enc ++ post)) = Ret (Some v, reader_at (pre ++ enc) post).
Proof. intros Hg Hl. unfold reader_at. rewrite Hg by (by rewrite zlen_app). by rewrite <- app_assoc, zlen_app. Qed.

Lemma reads_at_end {A} (g : getter A) enc v pre : reads g enc v → zlen pre + zlen enc < 2 ^ 64 →
  g (reader_at pre enc) = Ret (Some v, reader_at (pre ++ enc) []).
Proof.
  intros Hg Hl. rewrite <- (app_nil_r enc) at 1. apply reads_at; [done|]. by rewrite app_nil_r.
Qed.

Lemma new_reader_at data : new_reader data = reader_at [] data.
Proof. done. Qed.

Lemma cursor_at pre post : cursor (reader_at pre post) = post.
Proof. unfold cursor, reader_at, zlen. cbn [pos_ data_]. by rewrite Nat2Z.id, drop_app_length. Qed.

(** Reading a word at the cursor. *)
Lemma GetU32_cases r : reader_ok r → ok_ r = true →
  (zlen (cursor r) < 4 ∧ GetU32 r = Ret (None, failed r))
  ∨ (∃ v, is_u32 v ∧ 4 ≤ zlen (cursor r) ∧ take 4 (cursor r) = u32_bytes v ∧ GetU32 r = Ret (Some v, advance r 4)).
Proof.
  intros (Hb & Hp & Hl) Hok. assert (zlen (cursor r) = zlen (data_ r) - pos_ r) as Hc.
  { unfold cursor, zlen in *. rewrite length_drop. lia. }
  destruct (Z.lt_ge_cases (zlen (cursor r)) 4) as [Hlt|Hge].
  - left. split; [done|]. unfold GetU32, Take, remaining. rewrite Hok, u64_small by (unfold_words; lia).
    by rewrite gtb_true by lia.
  - right. destruct (u32_bytes_surj (take 4 (cursor r))) as (v & Hv & Ev).
    { by apply Forall_take, Forall_drop. } { unfold zlen in Hge. rewrite length_take. lia. }
    exists v. split_and!; try done.
    assert (data_ r = take (Z.to_nat (pos_ r)) (data_ r) ++ u32_bytes v ++ drop 4 (cursor r)) as Hd.
    { rewrite <- Ev. rewrite take_drop. unfold cursor. by rewrite take_drop. }
    assert (zlen (take (Z.to_nat (pos_ r)) (data_ r)) = pos_ r) as Hz.
    { unfold zlen in *. rewrite length_take. lia. }
    pose proof (GetU32_reads v Hv (take (Z.to_nat (pos_ r)) (data_ r)) (drop 4 (cursor r))) as Hg.
    rewrite <- Hd, Hz in Hg. specialize (Hg Hl). destruct r as [d p o]. cbn [data_ pos_ ok_] in *. by subst o.
Qed.

(** ** Sequences of items *)

Inductive item :=
| IU32 (v : Z) | II32 (v : Z) | IU64 (v : Z) | II64 (v : Z) | IBool (b : bool)
| IOpaque (max_len : Z) (d : bytes) | IFixed (d : bytes).

Definition item_ok (i : item) : Prop :=
  match i with
  | IU32 v => is_u32 v
  | II32 v => - 2 ^ 31 ≤ v < 2 ^ 31
  | IU64 v => is_u64 v
  | II64 v => - 2 ^ 63 ≤ v < 2 ^ 63
  | IBool _ => True
  | IOpaque max_len d => zlen d < 2 ^ 32 ∧ (max_len = 0 ∨ zlen d ≤ max_len)
  | IFixed _ => True
  end.

Definition put_item (w : XdrWriter) (i : item) : XdrWriter :=
  match i with
  | IU32 v => PutU32 w v
  | II32 v => PutI32 w v
  | IU64 v => PutU64 w v
  | II64 v => PutI64 w v
  | IBool b => PutBool w b
  | IOpaque _ d => PutOpaque w d
  | IFixed d => PutFixedOpaque w d
  end.

(** Reads an item of the type of [i]. *)
Definition get_item (i : item) : getter item := λ r,
  match i with
  | IU32 _ => '(o, r) ← GetU32 r; Ret (option_map IU32 o, r)
  | II32 _ => '(o, r) ← GetI32 r; Ret (option_map II32 o, r)
  | IU64 _ => '(o, r) ← GetU64 r; Ret (option_map IU64 o, r)
  | II64 _ => '(o, r) ← GetI64 r; Ret (option_map II64 o, r)
  | IBool _ => '(o, r) ← GetBool r; Ret (option_map IBool o, r)
  | IOpaque max_len _ => '(o, r) ← GetOpaque max_len r; Ret (option_map (IOpaque max_len) o, r)
  | IFixed d => '(o, r) ← GetFixedOpaque (zlen d) r; Ret (option_map IFixed o, r)
  end.

Fixpoint get_items (l : list item) : getter (list item) := λ r,
  match l with
  | [] => Ret (Some [], r)
  | i :: l =>
      '(o, r) ← get_item i r;
      match o with
      | None => Ret (None, r)
      | Some i => '(o, r) ← get_items l r; Ret (option_map (cons i) o, r)
      end
  end.

Definition item_bytes (i : item) : bytes := put_item [] i.

Lemma put_item_bytes w i : put_item w i = w ++ item_bytes i.
Proof.
  unfold item_bytes. destruct i; cbn [put_item]; unfold PutI32, PutI64, PutBool;
    by rewrite ?PutU32_bytes, ?PutU64_bytes, ?PutOpaque_bytes, ?PutFixedOpaque_bytes.
Qed.

Lemma get_item_reads i : item_ok i → reads (get_item i) (item_bytes i) i.
Proof.
  intros Hi. unfold item_bytes. destruct i; cbn [get_item put_item item_ok] in *; unfold PutI32, PutI64, PutBool;
    rewrite ?PutU32_bytes, ?PutU64_bytes, ?PutOpaque_bytes, ?PutFixedOpaque_bytes; cbn [app].
  - by apply (reads_map GetU32 IU32), GetU32_reads.
  - by apply (reads_map GetI32 II32), GetI32_reads.
  - by apply (reads_map GetU64 IU64), GetU64_reads.
  - by apply (reads_map GetI64 II64), GetI64_reads.
  - apply (reads_map GetBool IBool), GetBool_reads.
  - destruct Hi. by apply (reads_map (GetOpaque max_len) (IOpaque max_len)), GetOpaque_reads.
  - apply (reads_map (GetFixedOpaque (zlen d)) IFixed), GetFixedOpaque_reads.
Qed.

Lemma get_items_reads l : Forall item_ok l → reads (get_items l) (concat (item_bytes <$> l)) l.
Proof.
  induction 1 as [|i l Hi _ IH].
  { intros pre post _. cbn [get_items]. change (concat _) with ([] : bytes). change (zlen (A := Z) []) with 0.
    by rewrite Z.add_0_r. }
  cbn [fmap list_fmap concat].
  apply (reads_bind (get_item i) (λ i r, '(o, r) ← get_items l r; Ret (option_map (cons i) o, r)) _ _ i).
  - by apply get_item_reads.
  - by apply (reads_map (get_items l) (cons i)).
Qed.

Lemma fold_put_items l w : foldl put_item w l = w ++ concat (item_bytes <$> l).
Proof.
  revert w. induction l as [|i l IH]; intros w; cbn [foldl fmap list_fmap concat]; [by rewrite app_nil_r|].
  by rewrite IH, put_item_bytes, <- app_assoc.
Qed.

(** C31. A sequence of XDR items of any types that is appended to a
    buffer is read back as it was, from the place where it begins and with
    arbitrary bytes behind it; the reader then stands behind the last item. *)
Theorem xdr_round_trip (pre post : bytes) l :
  Forall item_ok l → zlen (foldl put_item pre l ++ post) < 2 ^ 64 →
  get_items l (mkReader (foldl put_item pre l ++ post) (zlen pre) true)
  = Ret (Some l, mkReader (foldl put_item pre l ++ post) (zlen (foldl put_item pre l)) true).
Proof.
  rewrite fold_put_items, <- app_assoc. intros Hl Hlen. rewrite (zlen_app pre (concat _)). by apply get_items_reads.
Qed.

Module XdrWitness.
Definition items : list item :=
  [IU32 7; IOpaque 10 [1; 2; 3; 4; 5]; IBool true; II64 (-3); IFixed [9; 8; 7]; II32 (-1); IU64 (2 ^ 40)].

Lemma xdr_round_trip_witness :
  ∃ w, foldl put_item [255] items = w ∧ zlen w = 45 ∧
    get_items items (mkReader (w ++ [77; 78]) 1 true) = Ret (Some items, mkReader (w ++ [77; 78]) 45 true).
Proof.
  eexists. split; [done|]. split; [done|]. apply (xdr_round_trip [255] [77; 78] items); [|done].
  repeat apply Forall_cons_2; try exact (Forall_nil_2 _); cbn [item_ok]; unfold_words; try done.
  - split; [done|right; done].
Defined.
End XdrWitness.
