(* ===== verification/FileHandle.v ===== *)
(** * NFS file handles (src/cvmfs/nfs4/filehandle.{h,cc})

    A handle is 32 bytes that clients keep and send back: magic, version, kind,
    file system, inode, a number and an FNV-1a checksum over all of this. *)

From stdpp Require Import base numbers list.
From S2P Require Import Prelude Bytes Xdr.

Open Scope Z_scope.

Definition kMagic : bytes := [67; 86; 78; 52].
Definition kVersion : Z := 1.

(** [FileHandle::Kind] *)
Definition kObject : Z := 1.
Definition kAttrDir : Z := 2.
Definition kNamedAttr : Z := 3.

Definition kSize : Z := 32.

Record FileHandle := mkFileHandle {
  fh_kind : Z;
  fh_fsid : Z;
  fh_ino : Z;
  fh_aux : Z
}.

#[export] Instance FileHandle_eq_dec : EqDecision FileHandle.
Proof. solve_decision. Defined.

Fixpoint fnv_loop (h : Z) (data : bytes) : Z :=
  match data with
  | [] => h
  | d :: data => fnv_loop (u32 (Z.lxor h d * 16777619)) data
  end.

Definition Fnv1a (data : bytes) : Z := fnv_loop 2166136261 data.

Definition Encode (fh : FileHandle) : bytes :=
  let w := PutRaw [] kMagic in
  let w := PutRaw w [kVersion; u8 (fh_kind fh); 0; 0] in
  let w := PutU64 w (fh_fsid fh) in
  let w := PutU64 w (fh_ino fh) in
  let w := PutU32 w (fh_aux fh) in
  PutU32 w (Fnv1a w).

(** [p[i] != kMagic[i]] for [i] from 0 on. *)
Fixpoint check_magic (p : bytes) (i : Z) (magic : bytes) : outcome bool :=
  match magic with
  | [] => Ret true
  | m :: magic => c ← rd p i; if negb (c =? m) then Ret false else check_magic p (i + 1) magic
  end.

Definition Decode (raw : bytes) : outcome (option FileHandle) :=
  if negb (zlen raw =? kSize) then Ret None else
  magic ← check_magic raw 0 kMagic;
  if negb magic then Ret None else
  version ← rd raw 4;
  if negb (version =? kVersion) then Ret None else
  kind ← rd raw 5;
  if (kind <? kObject) || (kind >? kNamedAttr) then Ret None else
  body ← load raw 8 (kSize - 8);
  let r := new_reader body in
  '(fsid, r) ← GetU64 r;
  '(ino, r) ← GetU64 r;
  '(aux, r) ← GetU32 r;
  '(check, r) ← GetU32 r;
  if negb (ok_ r) then Ret None else
  sum ← load raw 0 (kSize - 4);
  if negb (default 0 check =? Fnv1a sum) then Ret None else
  Ret (Some (mkFileHandle kind (default 0 fsid) (default 0 ino) (default 0 aux))).

Definition HashName (name : bytes) : Z := Fnv1a name.

(** ** Round trip *)

Definition fh_ok (fh : FileHandle) : Prop :=
  kObject ≤ fh_kind fh ≤ kNamedAttr ∧ is_u64 (fh_fsid fh) ∧ is_u64 (fh_ino fh) ∧ is_u32 (fh_aux fh).

Lemma fnv_loop_u32 data h : is_u32 h → is_u32 (fnv_loop h data).
Proof. revert h. induction data as [|d data IH]; intros h Hh; [done|]. apply IH, u32_range. Qed.

Lemma Fnv1a_u32 data : is_u32 (Fnv1a data).
Proof. by apply fnv_loop_u32. Qed.

(** The header and the fields in front of the checksum. *)
Definition summed (fh : FileHandle) : bytes :=
  kMagic ++ [kVersion; fh_kind fh; 0; 0] ++ u64_bytes (fh_fsid fh) ++ u64_bytes (fh_ino fh) ++ u32_bytes (fh_aux fh).

Lemma Encode_bytes fh : fh_ok fh → Encode fh = summed fh ++ u32_bytes (Fnv1a (summed fh)).
Proof.
  intros (Hk & _). unfold Encode, PutRaw. rewrite !PutU64_bytes, !PutU32_bytes.
  rewrite u8_small by (unfold_words; unfold kObject, kNamedAttr in *; lia).
  rewrite <- !app_assoc. unfold summed. cbn [app]. by rewrite <- ?app_assoc.
Qed.

Lemma zlen_summed fh : zlen (summed fh) = 28.
Proof. done. Qed.

Lemma bytes_split (b : bytes) n : 0 ≤ n ≤ zlen b → ∃ b1 b2, b = b1 ++ b2 ∧ zlen b1 = n.
Proof.
  intros Hn. exists (take (Z.to_nat n) b), (drop (Z.to_nat n) b). rewrite take_drop. split; [done|].
  unfold zlen in *. rewrite length_take. lia.
Qed.

(** What [Decode] reads of a handle with a good header. *)
Lemma Decode_fields (magic ver reserved : bytes) kind fsid ino aux check :
  magic = kMagic → ver = [kVersion] → length reserved = 2%nat → kObject ≤ kind ≤ kNamedAttr →
  is_u64 fsid → is_u64 ino → is_u32 aux → is_u32 check →
  let sum := magic ++ ver ++ [kind] ++ reserved ++ u64_bytes fsid ++ u64_bytes ino ++ u32_bytes aux in
  Decode (sum ++ u32_bytes check)
  = Ret (if check =? Fnv1a sum then Some (mkFileHandle kind fsid ino aux) else None).
Proof.
  intros -> -> Hres Hk Hf Hi Ha Hc sum. destruct reserved as [|r0 [|r1 [|]]]; try done. unfold Decode.
  change (zlen (sum ++ u32_bytes check) =? kSize) with true. cbn [negb].
  change (check_magic (sum ++ u32_bytes check) 0 kMagic) with (Ret true).
  change (rd (sum ++ u32_bytes check) 4) with (Ret kVersion).
  change (rd (sum ++ u32_bytes check) 5) with (Ret kind). exec. cbn [Z.eqb Pos.eqb kVersion negb].
  rewrite ltb_false, gtb_false by lia. cbn [orb].
  set (fields := u64_bytes fsid ++ u64_bytes ino ++ u32_bytes aux ++ u32_bytes check).
  change (load (sum ++ u32_bytes check) 8 (kSize - 8)) with (Ret fields).
  change (load (sum ++ u32_bytes check) 0 (kSize - 4)) with (Ret sum). exec.
  unfold new_reader.
  assert (GetU64 (mkReader fields 0 true) = Ret (Some fsid, mkReader fields 8 true)) as ->
    by exact (GetU64_reads fsid Hf [] (u64_bytes ino ++ u32_bytes aux ++ u32_bytes check) ltac:(done)).
  exec. assert (GetU64 (mkReader fields 8 true) = Ret (Some ino, mkReader fields 16 true)) as ->
    by exact (GetU64_reads ino Hi (u64_bytes fsid) (u32_bytes aux ++ u32_bytes check) ltac:(done)).
  exec. assert (GetU32 (mkReader fields 16 true) = Ret (Some aux, mkReader fields 20 true)) as ->
    by exact (GetU32_reads aux Ha (u64_bytes fsid ++ u64_bytes ino) (u32_bytes check) ltac:(done)).
  exec. assert (GetU32 (mkReader fields 20 true) = Ret (Some check, mkReader fields 24 true)) as ->
    by exact (GetU32_reads check Hc (u64_bytes fsid ++ u64_bytes ino ++ u32_bytes aux) [] ltac:(done)).
  exec. cbn [ok_ negb]. exec. cbn [from_option]. unfold id. by destruct (check =? Fnv1a sum).
Qed.

(** Every string of 32 bytes has fields. *)
Lemma handle_fields (raw : bytes) : bytes_ok raw → zlen raw = kSize →
  ∃ magic version kind reserved fsid ino aux check,
    raw = (magic ++ [version] ++ [kind] ++ reserved ++ u64_bytes fsid ++ u64_bytes ino ++ u32_bytes aux)
          ++ u32_bytes check
    ∧ length magic = 4%nat ∧ length reserved = 2%nat
    ∧ is_u8 kind ∧ is_u64 fsid ∧ is_u64 ino ∧ is_u32 aux ∧ is_u32 check.
Proof.
  intros Hb Hl. assert (length raw = 32)%nat as H32 by (unfold zlen, kSize in *; lia).
  destruct raw as [|a0 [|a1 [|a2 [|a3 [|a4 [|a5 [|a6 [|a7 b]]]]]]]]; try (cbn in H32; lia).
  unfold bytes_ok in Hb. rewrite !Forall_cons in Hb. destruct Hb as (_ & _ & _ & _ & _ & Hk & _ & _ & Hb).
  cbn [length] in H32.
  destruct (u64_bytes_surj (take 8 b)) as (fsid & Hf & Ef); [by apply Forall_take|rewrite length_take; lia|].
  destruct (u64_bytes_surj (take 8 (drop 8 b))) as (ino & Hi & Ei);
    [by apply Forall_take, Forall_drop|rewrite length_take, length_drop; lia|].
  destruct (u32_bytes_surj (take 4 (drop 16 b))) as (aux & Ha & Ea);
    [by apply Forall_take, Forall_drop|rewrite length_take, length_drop; lia|].
  destruct (u32_bytes_surj (drop 20 b)) as (check & Hc & Ec); [by apply Forall_drop|rewrite length_drop; lia|].
  exists [a0; a1; a2; a3], a4, a5, [a6; a7], fsid, ino, aux, check. split; [|done].
  rewrite <- Ef, <- Ei, <- Ea, <- Ec. cbn [app]. do 8 f_equal. rewrite <- !app_assoc.
  rewrite <- (take_drop 8 b) at 1. f_equal. rewrite <- (take_drop 8 (drop 8 b)) at 1. f_equal.
  rewrite drop_drop. change (8 + 8)%nat with 16%nat. rewrite <- (take_drop 4 (drop 16 b)) at 1. by rewrite drop_drop.
Qed.

(** A handle that is accepted has a good header and the right checksum. *)
Lemma Decode_inv raw fh : bytes_ok raw → Decode raw = Ret (Some fh) →
  fh_ok fh ∧ ∃ reserved,
    let sum := kMagic ++ [kVersion] ++ [fh_kind fh] ++ reserved
               ++ u64_bytes (fh_fsid fh) ++ u64_bytes (fh_ino fh) ++ u32_bytes (fh_aux fh) in
    length reserved = 2%nat ∧ raw = sum ++ u32_bytes (Fnv1a sum).
Proof.
  intros Hb. destruct (Z.eqb_spec (zlen raw) kSize) as [Hl|Hl].
  2: { unfold Decode. by rewrite eqb_false by done. }
  destruct (handle_fields raw Hb Hl) as (magic & version & kind & reserved & fsid & ino & aux & check & Eraw
    & Hmagic & Hres & Hk & Hf & Hi & Ha & Hc).
  destruct (decide (magic = kMagic)) as [->|Hm].
  2: { intros HD. exfalso. revert HD. unfold Decode. rewrite eqb_true by done. cbn [negb].
       assert (check_magic raw 0 kMagic = Ret false) as ->; [|done].
       subst raw. destruct magic as [|m0 [|m1 [|m2 [|m3 [|]]]]]; try done. unfold kMagic in *.
       cbn [app check_magic]. change (rd (m0 :: ?l) 0) with (Ret m0). change (rd (m0 :: m1 :: ?l) (0 + 1)) with (Ret m1).
       change (rd (m0 :: m1 :: m2 :: ?l) (0 + 1 + 1)) with (Ret m2).
       change (rd (m0 :: m1 :: m2 :: m3 :: ?l) (0 + 1 + 1 + 1)) with (Ret m3). exec.
       destruct (Z.eqb_spec m0 67), (Z.eqb_spec m1 86), (Z.eqb_spec m2 78), (Z.eqb_spec m3 52); try done. by subst. }
  destruct (decide (version = kVersion ∧ kObject ≤ kind ≤ kNamedAttr)) as [[-> Hkr]|Hbad].
  - rewrite Eraw, Decode_fields by done. destruct (Z.eqb_spec check
      (Fnv1a (kMagic ++ [kVersion] ++ [kind] ++ reserved ++ u64_bytes fsid ++ u64_bytes ino ++ u32_bytes aux)))
      as [->|]; [|done].
    intros [= <-]. cbn [fh_kind fh_fsid fh_ino fh_aux]. split; [done|]. by exists reserved.
  - intros HD. exfalso. revert HD. unfold Decode. rewrite eqb_true by done. cbn [negb]. subst raw.
    destruct reserved as [|r0 [|r1 [|]]]; try done. set (raw := (_ ++ _) ++ _).
    change (check_magic raw 0 kMagic) with (Ret true). change (rd raw 4) with (Ret version).
    change (rd raw 5) with (Ret kind). exec.
    destruct (Z.eqb_spec version kVersion) as [->|]; [|done]. cbn [negb].
    destruct ((kind <? kObject) || (kind >? kNamedAttr)) eqn:E; [done|]. exfalso. apply Hbad. split; [done|].
    apply orb_false_iff in E. lia.
Qed.

(** ** The checksum *)

(** The FNV prime is odd, so multiplying with it loses nothing. *)
Lemma fnv_mul_inj a b : is_u32 a → is_u32 b → u32 (a * 16777619) = u32 (b * 16777619) → a = b.
Proof.
  intros Ha Hb Heq. unfold u32 in Heq.
  assert ((16777619 * 899433627) mod 2 ^ 32 = 1) as Hinv by done.
  assert (∀ x, is_u32 x → (x * 16777619) mod 2 ^ 32 * 899433627 mod 2 ^ 32 = x) as Hback.
  { intros x Hx. rewrite Z.mul_mod_idemp_l, <- Z.mul_assoc, <- Z.mul_mod_idemp_r by lia. rewrite Hinv, Z.mul_1_r.
    by apply Z.mod_small. }
  rewrite <- (Hback a Ha), <- (Hback b Hb). by rewrite Heq.
Qed.

Lemma lxor_u32 h d : is_u32 h → is_u8 d → is_u32 (Z.lxor h d).
Proof.
  intros Hh Hd. unfold is_u32 in *. unfold is_u8 in Hd. split.
  - apply Z.lxor_nonneg. lia.
  - destruct (decide (Z.lxor h d = 0)) as [->|]; [lia|]. apply Z.log2_lt_pow2.
    + assert (0 ≤ Z.lxor h d) by (apply Z.lxor_nonneg; lia). lia.
    + apply Z.le_lt_trans with (Z.max (Z.log2 h) (Z.log2 d)); [apply Z.log2_lxor; lia|]. apply Z.max_lub_lt.
      * destruct (decide (h = 0)) as [->|]; [done|]. apply Z.log2_lt_pow2; lia.
      * destruct (decide (d = 0)) as [->|]; [done|]. apply Z.lt_trans with 8; [|lia]. apply Z.log2_lt_pow2; lia.
Qed.

Lemma lxor_inj_l h1 h2 d : Z.lxor h1 d = Z.lxor h2 d → h1 = h2.
Proof.
  intros H. rewrite <- (Z.lxor_0_r h1), <- (Z.lxor_0_r h2), <- (Z.lxor_nilpotent d), <- !Z.lxor_assoc.
  by rewrite H.
Qed.

Lemma fnv_step_inj h1 h2 d1 d2 : is_u32 h1 → is_u32 h2 → is_u8 d1 → is_u8 d2 →
  u32 (Z.lxor h1 d1 * 16777619) = u32 (Z.lxor h2 d2 * 16777619) → Z.lxor h1 d1 = Z.lxor h2 d2.
Proof. intros. apply fnv_mul_inj; auto using lxor_u32. Qed.

(** From different intermediate values, the same rest gives different sums. *)
Lemma fnv_loop_inj data h1 h2 : bytes_ok data → is_u32 h1 → is_u32 h2 →
  fnv_loop h1 data = fnv_loop h2 data → h1 = h2.
Proof.
  intros Hb. revert h1 h2. induction Hb as [|d data Hd _ IH]; intros h1 h2 H1 H2; cbn [fnv_loop]; [done|].
  intros He%IH; try apply u32_range. apply fnv_step_inj in He; try done. by eapply lxor_inj_l.
Qed.

Lemma fnv_one_byte (data : list Z) : ∀ h (i : nat) b old, bytes_ok data → is_u8 b → is_u32 h →
  data !! i = Some old → old ≠ b → fnv_loop h (<[i := b]> data) ≠ fnv_loop h data.
Proof.
  induction data as [|d data IH]; intros h i b old Hok Hb Hh Hi Hne; [done|].
  apply Forall_cons in Hok as [Hd Hok]. destruct i as [|i]; cbn in Hi |- *.
  - injection Hi as ->. intros He%fnv_loop_inj; try apply u32_range; [|done].
    apply fnv_step_inj in He; try done. rewrite !(Z.lxor_comm h) in He. by apply lxor_inj_l in He.
  - apply (IH _ _ _ old); try done. apply u32_range.
Qed.

(** C32. Decoding an encoded handle gives the handle, and a handle that
    decodes and whose reserved bytes are zero is the encoding of the result. *)
Theorem handle_round_trip fh raw :
  fh_ok fh → bytes_ok raw →
  Decode (Encode fh) = Ret (Some fh)
  ∧ (Decode raw = Ret (Some fh) → raw !! 6%nat = Some 0 → raw !! 7%nat = Some 0 → Encode fh = raw).
Proof.
  intros Hok Hraw. split.
  - pose proof Hok as (? & ? & ? & ?). rewrite Encode_bytes by done.
    pose proof (Decode_fields kMagic [kVersion] [0; 0] (fh_kind fh) (fh_fsid fh) (fh_ino fh) (fh_aux fh)
      (Fnv1a (summed fh))) as HD. cbn zeta in HD. change (kMagic ++ [kVersion] ++ _) with (summed fh) in HD.
    rewrite HD, Z.eqb_refl by (done || apply Fnv1a_u32). by destruct fh.
  - intros (_ & reserved & Hres & ->)%Decode_inv H6 H7; [|done].
    destruct reserved as [|r0 [|r1 [|]]]; try done. injection H6 as ->. injection H7 as ->.
    by rewrite Encode_bytes.
Qed.

Lemma check_magic_total p magic : ∀ i, 0 ≤ i → i + zlen magic ≤ zlen p → ∃ b, check_magic p i magic = Ret b.
Proof.
  induction magic as [|m magic IH]; intros i Hi Hl; cbn [check_magic]; [by exists true|].
  rewrite zlen_cons in Hl. pose proof (zlen_nonneg magic).
  destruct (lget_in_range p i) as [c Hc]; [lia|]. unfold rd at 1. rewrite Hc. exec.
  destruct (negb (c =? m)); [by exists false|]. apply IH; lia.
Qed.

Lemma rd_total (p : bytes) i : 0 ≤ i < zlen p → ∃ c, rd p i = Ret c.
Proof. intros Hi. unfold rd. destruct (lget_in_range p i Hi) as [c ->]. by exists c. Qed.

(** [Decode] returns on every input. *)
Lemma Decode_total raw : bytes_ok raw → ∃ r, Decode raw = Ret r.
Proof.
  intros Hb. unfold Decode. destruct (Z.eqb_spec (zlen raw) kSize) as [Hl|]; [|by exists None]. cbn [negb].
  unfold kSize in *. destruct (check_magic_total raw kMagic 0) as [m ->]; [lia|change (zlen kMagic) with 4; lia|]. exec.
  destruct m; [|by exists None]. cbn [negb].
  destruct (rd_total raw 4) as [v ->]; [lia|]. destruct (rd_total raw 5) as [k ->]; [lia|]. exec.
  destruct (negb (v =? kVersion)); [by exists None|].
  destruct ((k <? kObject) || (k >? kNamedAttr)); [by exists None|].
  unfold load. rewrite !decide_True by lia. exec. set (body := take _ (drop (Z.to_nat 8) raw)).
  assert (reader_ok (new_reader body)) as Hr0.
  { apply new_reader_ok; [by apply Forall_take, Forall_drop|].
    assert (zlen body = 24) by (unfold body, zlen in *; rewrite length_take, length_drop; lia). lia. }
  destruct (GetU64_ok _ Hr0) as (o1 & r1 & -> & Hr1 & _). exec.
  destruct (GetU64_ok _ Hr1) as (o2 & r2 & -> & Hr2 & _). exec.
  destruct (GetU32_ok _ Hr2) as (o3 & r3 & -> & Hr3 & _). exec.
  destruct (GetU32_ok _ Hr3) as (o4 & r4 & -> & Hr4 & _). exec.
  destruct (negb (ok_ r4)); [by eexists|]. by destruct (negb _); eexists.
Qed.

(** C33. A handle with one byte changed is refused, whichever byte it is. *)
Theorem handle_tamper_detected (raw : list Z) fh (i : nat) b :
  bytes_ok raw → Decode raw = Ret (Some fh) → is_u8 b → (i < 32)%nat → raw !! i ≠ Some b →
  Decode (<[i := b]> raw) = Ret None.
Proof.
  intros Hraw HD Hb Hi Hne. pose proof (Decode_inv _ _ Hraw HD) as (_ & reserved & Hres & Eraw).
  set (sum := kMagic ++ _) in Eraw. assert (length sum = 28%nat) as Hsum.
  { unfold sum. rewrite !length_app, Hres. done. }
  assert (bytes_ok (<[i := b]> raw)) as Hok' by (by apply Forall_insert).
  destruct (Decode_total _ Hok') as [[fh'|] HD']; [|done]. exfalso.
  pose proof (Decode_inv _ _ Hok' HD') as (_ & reserved' & Hres' & Eraw').
  set (sum' := kMagic ++ _) in Eraw'. assert (length sum' = 28%nat) as Hsum'.
  { unfold sum'. rewrite !length_app, Hres'. done. }
  assert (bytes_ok sum) as Hoks by (rewrite Eraw in Hraw; by apply Forall_app in Hraw as [? _]).
  clear HD HD' Hok'. subst raw. destruct (decide (i < 28)%nat) as [Hlt|Hge].
  - rewrite insert_app_l in Eraw' by lia. rewrite lookup_app_l in Hne by lia.
    apply app_inj_1 in Eraw' as [E1 E2]; [|rewrite length_insert; lia].
    assert (Fnv1a sum' = Fnv1a sum) as Hfnv.
    { rewrite <- (split_u32 (Fnv1a sum')), <- (split_u32 (Fnv1a sum)) by apply Fnv1a_u32.
      injection E2 as E3 E4 E5 E6. congruence. }
    destruct (lookup_lt_is_Some_2 sum i) as [old Hold]; [lia|].
    apply (fnv_one_byte sum 2166136261 i b old); try done; [congruence|]. by rewrite E1.
  - replace i with (length sum + (i - 28))%nat in Eraw' by lia. rewrite insert_app_r in Eraw'.
    rewrite lookup_app_r in Hne by lia. apply app_inj_1 in Eraw' as [E1 E2]; [|lia]. rewrite <- E1 in E2.
    apply Hne. rewrite <- E2, Hsum. apply list_lookup_insert_eq. cbn. lia.
Qed.

Module HandleWitness.
Definition handle : FileHandle := mkFileHandle kNamedAttr 4711 (2 ^ 40 + 5) 3.
Definition raw : bytes := Eval vm_compute in Encode handle.

Lemma handle_round_trip_witness :
  fh_ok handle ∧ Decode (Encode handle) = Ret (Some handle) ∧ Encode handle = raw.
Proof.
  assert (fh_ok handle) as Hok by done.
  destruct (handle_round_trip handle raw Hok ltac:(by apply (bool_decide_unpack _))) as [H1 H2].
  split; [done|]. split; [exact H1|by apply H2].
Defined.

Lemma handle_tamper_detected_witness : Decode (<[15%nat := 0]> raw) = Ret None.
Proof.
  apply (handle_tamper_detected raw handle); [by apply (bool_decide_unpack _)|by vm_compute|done|lia|].
  by vm_compute.
Defined.
End HandleWitness.
