(* ===== verification/Rpc.v ===== *)
(** * ONC RPC (src/cvmfs/nfs4/rpc.{h,cc})

    [HandleRpcRecord] turns a record into a reply; the program behind it is an
    instance of the class [RpcProgram].  The threads of [RpcServer] are steps
    on a shared state: the reader of a connection takes one fragment at a time
    and hands complete records to a queue, workers take jobs from there. *)

From stdpp Require Import base numbers list gmap.
From S2P Require Import Prelude Bytes NfsConst Xdr.

Open Scope Z_scope.

Definition kMaxAuthBody : Z := 400.
Definition kMaxAuthSysGids : Z := 16.
Definition kLastFragment : Z := 2147483648.

(** [Credentials] (backend.h) *)
Record Credentials := mkCreds { c_uid : Z; c_gid : Z; c_gids : list Z }.
Definition nobody : Credentials := mkCreds 65534 65534 [].

Record RpcCall := mkCall {
  call_xid : Z;
  call_program : Z;
  call_version : Z;
  call_procedure : Z;
  call_cred_flavor : Z;
  call_creds : Credentials;
  call_args : bytes
}.

(** What the RPC layer needs of a program, with [S] the type of its state. *)
Class RpcProgram (S : Type) := {
  program : Z;
  min_version : Z;
  max_version : Z;
  Dispatch : S → RpcCall → XdrReader → XdrWriter → outcome (Z * XdrWriter * S)
}.

(** What it promises: [Dispatch] appends to the buffer (its documentation in
    rpc.h) and returns. *)
Class RpcProgramLaws (S : Type) `{RpcProgram S} := {
  state_ok : S → Prop;
  dispatch_ok s call args (w : XdrWriter) :
    state_ok s → reader_ok args → bytes_ok w →
    ∃ stat body s', Dispatch s call args w = Ret (stat, w ++ body, s') ∧ state_ok s' ∧ bytes_ok body ∧ is_u32 stat
}.

Definition PutReplyHeader (xid : Z) (w : XdrWriter) : XdrWriter :=
  let w := PutU32 w xid in
  PutU32 w kRpcReply.

Definition PutAccepted (xid stat : Z) (w : XdrWriter) : XdrWriter :=
  let w := PutReplyHeader xid w in
  let w := PutU32 w kMsgAccepted in
  let w := PutU32 w kAuthNone in
  let w := PutU32 w 0 in
  PutU32 w stat.

(** The loop over the group ids; [gids] has the entries read so far, the rest of
    the resized vector is zero. *)
Fixpoint read_gids (n : nat) (r : XdrReader) (gids : list Z) : outcome (list Z * XdrReader) :=
  match n with
  | O => Ret (gids, r)
  | S n => '(g, r) ← GetU32 r; read_gids n r (gids ++ [default 0 g])
  end.

Definition ParseAuthSys (body : bytes) : outcome (option Credentials) :=
  let r := new_reader body in
  '(stamp, r) ← GetU32 r;
  '(machine, r) ← GetString 255 r;
  '(uid, r) ← GetU32 r;
  '(gid, r) ← GetU32 r;
  '(ngids, r) ← GetU32 r;
  if negb (ok_ r) || (default 0 ngids >? kMaxAuthSysGids) then Ret None else
  '(gids, r) ← read_gids (Z.to_nat (default 0 ngids)) r [];
  if negb (ok_ r) then Ret None
  else Ret (Some (mkCreds (default 0 uid) (default 0 gid) gids)).

Section Handle.
Context {S : Type} `{RpcProgram S}.

(** [None] for a record that gets no reply. *)
Definition HandleRpcRecord (s : S) (record : bytes) : outcome (option bytes * S) :=
  let r := new_reader record in
  '(xid, r) ← GetU32 r;
  match xid with
  | None => Ret (None, s)
  | Some xid =>
  '(msg_type, r) ← GetU32 r;
  if negb (bool_decide (msg_type = Some kRpcCall)) then Ret (None, s) else
  '(rpc_version, r) ← GetU32 r;
  '(prog, r) ← GetU32 r;
  '(version, r) ← GetU32 r;
  '(procedure, r) ← GetU32 r;
  '(cred_flavor, r) ← GetU32 r;
  '(cred_body, r) ← GetOpaque kMaxAuthBody r;
  '(verf_flavor, r) ← GetU32 r;
  '(verf_body, r) ← GetOpaque kMaxAuthBody r;
  if negb (ok_ r) then Ret (Some (PutAccepted xid kAcceptGarbageArgs []), s) else
  if negb (default 0 rpc_version =? kRpcVersion) then
    let w := PutReplyHeader xid [] in
    let w := PutU32 w kMsgDenied in
    let w := PutU32 w kRpcMismatch in
    let w := PutU32 w kRpcVersion in
    let w := PutU32 w kRpcVersion in
    Ret (Some w, s)
  else
  creds ← (if default 0 cred_flavor =? kAuthSys then ParseAuthSys (default [] cred_body)
           else if default 0 cred_flavor =? kAuthNone then Ret (Some nobody) else Ret None);
  match creds with
  | None =>
      let w := PutReplyHeader xid [] in
      let w := PutU32 w kMsgDenied in
      let w := PutU32 w kAuthError in
      let w := PutU32 w (if default 0 cred_flavor =? kAuthSys then kAuthBadCred else kAuthTooWeak) in
      Ret (Some w, s)
  | Some creds =>
      if negb (default 0 prog =? program) then Ret (Some (PutAccepted xid kAcceptProgUnavail []), s)
      else if (default 0 version <? min_version) || (default 0 version >? max_version) then
        let w := PutAccepted xid kAcceptProgMismatch [] in
        let w := PutU32 w min_version in
        let w := PutU32 w max_version in
        Ret (Some w, s)
      else
        let call := mkCall xid (default 0 prog) (default 0 version) (default 0 procedure)
                      (default 0 cred_flavor) creds (cursor r) in
        let args := new_reader (cursor r) in
        let w := PutAccepted xid kAcceptSuccess [] in
        let stat_offset := zlen w - 4 in
        '(stat, w, s) ← Dispatch s call args w;
        if negb (stat =? kAcceptSuccess) then
          let w := Truncate w (stat_offset + 4) in
          w ← PatchU32 w stat_offset stat;
          Ret (Some w, s)
        else Ret (Some w, s)
  end
  end.
End Handle.

(** ** Replies *)

Definition accepted_bytes (stat : Z) : bytes :=
  u32_bytes kMsgAccepted ++ u32_bytes kAuthNone ++ u32_bytes 0 ++ u32_bytes stat.

Lemma PutAccepted_bytes xid stat :
  PutAccepted xid stat [] = u32_bytes xid ++ u32_bytes kRpcReply ++ accepted_bytes stat.
Proof. done. Qed.

Section Replies.
Context {S : Type} `{RpcProgramLaws S}.

(** What follows the transaction id and the message type, and the states of the
    program before and after. *)
Inductive reply_tail (s : S) : S → bytes → Prop :=
| tail_success s' body : bytes_ok body → reply_tail s s' (accepted_bytes kAcceptSuccess ++ body)
| tail_error s' stat : stat ≠ kAcceptSuccess → reply_tail s s' (accepted_bytes stat)
| tail_garbage : reply_tail s s (accepted_bytes kAcceptGarbageArgs)
| tail_program : reply_tail s s (accepted_bytes kAcceptProgUnavail)
| tail_versions : reply_tail s s (accepted_bytes kAcceptProgMismatch ++ u32_bytes min_version ++ u32_bytes max_version)
| tail_rpc_version :
    reply_tail s s (u32_bytes kMsgDenied ++ u32_bytes kRpcMismatch ++ u32_bytes kRpcVersion ++ u32_bytes kRpcVersion)
| tail_auth why : why = kAuthBadCred ∨ why = kAuthTooWeak →
    reply_tail s s (u32_bytes kMsgDenied ++ u32_bytes kAuthError ++ u32_bytes why).

Lemma read_gids_total n : ∀ r gids, reader_ok r → ∃ gids' r', read_gids n r gids = Ret (gids', r') ∧ reader_ok r'.
Proof.
  induction n as [|n IH]; intros r gids Hr; cbn [read_gids]; [by exists gids, r|].
  destruct (GetU32_ok _ Hr) as (o & r1 & -> & Hr1 & _). exec. by apply IH.
Qed.

Lemma ParseAuthSys_total body : bytes_ok body → zlen body < 2 ^ 64 → ∃ o, ParseAuthSys body = Ret o.
Proof.
  intros Hb Hl. unfold ParseAuthSys. pose proof (new_reader_ok body Hb Hl) as Hr.
  destruct (GetU32_ok _ Hr) as (o1 & r1 & -> & Hr1 & _). exec.
  destruct (GetOpaque_ok 255 _ Hr1) as (o2 & r2 & Hg & Hr2 & _). unfold GetString. rewrite Hg. exec.
  destruct (GetU32_ok _ Hr2) as (o3 & r3 & -> & Hr3 & _). exec.
  destruct (GetU32_ok _ Hr3) as (o4 & r4 & -> & Hr4 & _). exec.
  destruct (GetU32_ok _ Hr4) as (o5 & r5 & -> & Hr5 & _). exec.
  destruct (negb (ok_ r5) || _); [by eexists|].
  destruct (read_gids_total (Z.to_nat (default 0 o5)) r5 [] Hr5) as (gids & r6 & -> & Hr6). exec.
  destruct (negb (ok_ r6)); by eexists.
Qed.

(** The success word at the end of a reply replaced by another status. *)
Lemma patch_stat (pre body : bytes) stat : zlen pre = 20 →
  PatchU32 (Truncate (pre ++ u32_bytes kAcceptSuccess ++ body) (20 + 4)) 20 stat = Ret (pre ++ u32_bytes stat).
Proof.
  intros Hp. unfold Truncate. rewrite (app_assoc pre), take_app_length'.
  2: { unfold zlen in Hp. rewrite length_app. cbn. lia. }
  unfold zlen in Hp. assert (length pre = 20)%nat as Hl by lia. clear Hp.
  do 20 (destruct pre as [|? pre]; [cbn in Hl; lia|]). destruct pre; [|cbn in Hl; lia]. done.
Qed.

Lemma cursor_ok r : reader_ok r → bytes_ok (cursor r) ∧ zlen (cursor r) < 2 ^ 64.
Proof.
  intros (Hb & Hp & Hl). split; [by apply Forall_drop|]. unfold cursor, zlen in *. rewrite length_drop. lia.
Qed.

(** The part of [HandleRpcRecord] behind the message type. *)
Lemma handle_call s record xid r2 :
  state_ok s → reader_ok r2 →
  GetU32 (new_reader record) = Ret (Some xid, advance (new_reader record) 4) →
  GetU32 (advance (new_reader record) 4) = Ret (Some kRpcCall, r2) →
  ∃ s' tail, HandleRpcRecord s record = Ret (Some (u32_bytes xid ++ u32_bytes kRpcReply ++ tail), s')
             ∧ state_ok s' ∧ reply_tail s s' tail.
Proof.
  intros Hs Hr2 Hx Ht. unfold HandleRpcRecord. rewrite Hx. exec. rewrite Ht. exec.
  rewrite bool_decide_true by done. cbn [negb].
  destruct (GetU32_ok _ Hr2) as (o3 & r3 & -> & Hr3 & _). exec.
  destruct (GetU32_ok _ Hr3) as (o4 & r4 & -> & Hr4 & _). exec.
  destruct (GetU32_ok _ Hr4) as (o5 & r5 & -> & Hr5 & _). exec.
  destruct (GetU32_ok _ Hr5) as (o6 & r6 & -> & Hr6 & _). exec.
  destruct (GetU32_ok _ Hr6) as (o7 & r7 & -> & Hr7 & _). exec.
  destruct (GetOpaque_ok kMaxAuthBody _ Hr7) as (o8 & r8 & -> & Hr8 & _ & _ & Ho8). exec.
  destruct (GetU32_ok _ Hr8) as (o9 & r9 & -> & Hr9 & _). exec.
  destruct (GetOpaque_ok kMaxAuthBody _ Hr9) as (o10 & r10 & -> & Hr10 & _). exec.
  destruct (negb (ok_ r10)); [by eexists s, _; repeat split; auto using tail_garbage|].
  destruct (negb (default 0 o3 =? kRpcVersion)).
  { eexists s, _. split; [reflexivity|]. split; [done|]. apply tail_rpc_version. }
  assert (∃ creds, (if default 0 o7 =? kAuthSys then ParseAuthSys (default [] o8)
    else if default 0 o7 =? kAuthNone then Ret (Some nobody) else Ret None) = Ret creds) as [creds ->].
  { destruct (default 0 o7 =? kAuthSys); [|by destruct (default 0 o7 =? kAuthNone); eexists].
    destruct o8 as [b|]; cbn [from_option]; apply ParseAuthSys_total; try done; try apply Ho8.
    - destruct Ho8 as (_ & _ & _ & Hz & _). unfold id. lia.
    - apply Forall_nil_2. }
  exec. destruct creds as [creds|].
  2: { eexists s, _. split; [reflexivity|]. split; [done|]. apply tail_auth. destruct (_ =? _); auto. }
  destruct (negb (default 0 o4 =? program)); [by eexists s, _; repeat split; auto using tail_program|].
  destruct ((default 0 o5 <? min_version) || (default 0 o5 >? max_version)).
  { eexists s, _. split; [reflexivity|]. split; [done|]. apply tail_versions. }
  rewrite PutAccepted_bytes. destruct (cursor_ok _ Hr10) as [Hcb Hcl].
  edestruct (dispatch_ok s) as (stat & body & s' & -> & Hs' & Hbody & _); [done|by apply new_reader_ok| |].
  { unfold accepted_bytes, bytes_ok. rewrite !Forall_app. repeat split; apply u32_bytes_ok. }
  exec. destruct (Z.eqb_spec stat kAcceptSuccess); cbn [negb].
  - eexists s', _. split; [by rewrite <- !app_assoc|]. split; [done|]. by apply tail_success.
  - set (pre := u32_bytes xid ++ u32_bytes kRpcReply ++ u32_bytes kMsgAccepted ++ u32_bytes kAuthNone ++ u32_bytes 0).
    assert (zlen pre = 20) as Hpre by done.
    eexists s', (accepted_bytes stat). split; [|split; [done|by apply tail_error]].
    change (zlen _ - 4) with 20. rewrite <- !app_assoc.
    pose proof (patch_stat pre body stat Hpre) as Hp. unfold pre in Hp. rewrite <- !app_assoc in Hp.
    unfold accepted_bytes. rewrite <- !app_assoc. rewrite Hp. exec. by rewrite <- ?app_assoc.
Qed.

End Replies.

(** ** Connections and workers *)

(** The results of the system calls, in the order in which they happen: a read
    or write of at most [n] bytes, an interruption, an error. *)
Inductive io_event := Bytes (n : Z) | Eintr | IoError.

(** [read] of at most [len] bytes; at the end of the input it returns 0. *)
Definition sys_read (input : bytes) (n len : Z) : bytes := take (Z.to_nat (Z.min n len)) input.

(** The loop of [ReadFull] with the bytes [got] so far; without further events
    it is still blocked, [None]. *)
Fixpoint ReadFull_loop (events : list io_event) (input : bytes) (len : Z) (got : bytes)
    : option (bool * bytes * bytes) :=
  if len <=? 0 then Some (true, got, input) else
  match events with
  | [] => None
  | IoError :: _ => Some (false, got, input)
  | Eintr :: events => ReadFull_loop events input len got
  | Bytes n :: events =>
      let b := sys_read input n len in
      if zlen b =? 0 then Some (false, got, input)
      else ReadFull_loop events (drop (length b) input) (len - zlen b) (got ++ b)
  end.

(** What it amounts to, see [ReadFull_loop_spec]. *)
Definition ReadFull (input : bytes) (len : Z) : option (bytes * bytes) :=
  if zlen input <? len then None else Some (take (Z.to_nat len) input, drop (Z.to_nat len) input).

(** [len > 0 && !ReadFull(...)] *)
Definition read_body (input : bytes) (len : Z) : option (bytes * bytes) :=
  if len >? 0 then ReadFull input len else Some ([], input).

(** The record marker is sent in network byte order. *)
Definition WriteRecord (marker : Z) (record : bytes) : bytes := u32_bytes marker ++ record.

(** The inner loop of [WriteRecord]: skips the vectors that are done. *)
Fixpoint advance_iov (v : list bytes) (done : Z) : list bytes :=
  match v with
  | [] => []
  | b :: v' => if done >=? zlen b then advance_iov v' (done - zlen b) else drop (Z.to_nat done) b :: v'
  end.

(** The loop of [WriteRecord] over the vectors [v], with what was [sent]. *)
Fixpoint WriteRecord_loop (events : list io_event) (v : list bytes) (sent : bytes) : option (bool * bytes) :=
  match v with
  | [] => Some (true, sent)
  | _ =>
      match events with
      | [] => None
      | IoError :: _ => Some (false, sent)
      | Eintr :: events => WriteRecord_loop events v sent
      | Bytes n :: events =>
          let n := Z.min n (zlen (concat v)) in
          WriteRecord_loop events (advance_iov v n) (sent ++ take (Z.to_nat n) (concat v))
      end
  end.

(** The address family and the host part of an address, most significant byte
    first. *)
Inductive sockaddr := AF_INET (addr : bytes) | AF_INET6 (addr : bytes) | AF_OTHER.

Definition IsLoopback (addr : sockaddr) : bool :=
  match addr with
  | AF_INET a => Z.shiftr (be_decode a) 24 =? 127
  | AF_INET6 a => bool_decide (a = repeat 0 15 ++ [1])
  | AF_OTHER => false
  end.

Record Job := mkJob { job_connection : Z; job_xid : Z; job_record : bytes }.

(** [incoming] is what the peer still sends, [outgoing] what was sent to it;
    [record] is the local variable of the connection's reader. *)
Record Connection := mkConnection {
  incoming : bytes;
  outgoing : bytes;
  record : bytes;
  inflight : gset Z;
  is_open : bool
}.

Record Options := mkOptions { allow_remote : bool; max_record : Z }.

(** One iteration of [ReadLoop]: the connection, and the job for the queue. *)
Definition ReadLoop_iter (o : Options) (id : Z) (c : Connection) : Connection * option Job :=
  let close := mkConnection (incoming c) (outgoing c) (record c) (inflight c) false in
  match ReadFull (incoming c) 4 with
  | None => (close, None)
  | Some (m, input) =>
      let marker := be_decode m in
      let len := Z.land marker (2 ^ 32 - 1 - kLastFragment) in
      if zlen (record c) + len >? max_record o then (close, None) else
      match read_body input len with
      | None => (close, None)
      | Some (fragment, input) =>
          let rec := record c ++ fragment in
          if Z.land marker kLastFragment =? 0
          then (mkConnection input (outgoing c) rec (inflight c) true, None)
          else
            let xid := if zlen rec >=? 4 then be_decode (take 4 rec) else 0 in
            if bool_decide (xid ∈ inflight c)
            then (mkConnection input (outgoing c) [] (inflight c) true, None)
            else (mkConnection input (outgoing c) [] ({[xid]} ∪ inflight c) true, Some (mkJob id xid rec))
      end
  end.

(** [Send]: the reply, or a connection that is shut down. *)
Definition Send (c : Connection) (reply : bytes) (written : bool) : Connection :=
  if written
  then mkConnection (incoming c) (outgoing c ++ WriteRecord (Z.lor kLastFragment (u32 (zlen reply))) reply)
         (record c) (inflight c) (is_open c)
  else mkConnection (incoming c) (outgoing c) (record c) (inflight c) false.

Definition erase_inflight (c : Connection) (xid : Z) : Connection :=
  mkConnection (incoming c) (outgoing c) (record c) (inflight c ∖ {[xid]}) (is_open c).

Section Server.
Context {S : Type} `{RpcProgram S}.

Record RpcServer := mkServer {
  connections : gmap Z Connection;
  queue : list Job;
  running : list Job;
  prog : S
}.

(** A worker is done with [job]. *)
Definition WorkerLoop_finish (srv : RpcServer) (job : Job) (running' : list Job) (written : bool)
    : outcome RpcServer :=
  '(reply, p) ← HandleRpcRecord (prog srv) (job_record job);
  let send c := match reply with Some r => Send c r written | None => c end in
  Ret (mkServer (alter (λ c, erase_inflight (send c) (job_xid job)) (job_connection job) (connections srv))
         (queue srv) running' p).

(** A new connection of [peer], or [None] if it is rejected. *)
Definition AcceptLoop_accept (o : Options) (srv : RpcServer) (id : Z) (peer : sockaddr) (input : bytes)
    : option RpcServer :=
  if negb (allow_remote o) && negb (IsLoopback peer) then None
  else Some (mkServer (<[id := mkConnection input [] [] ∅ true]> (connections srv)) (queue srv) (running srv) (prog srv)).

(** A worker takes the first job. *)
Definition WorkerLoop_take (srv : RpcServer) : option RpcServer :=
  match queue srv with
  | [] => None
  | j :: q => Some (mkServer (connections srv) q (j :: running srv) (prog srv))
  end.

(** The reader of connection [id] runs one iteration. *)
Definition ReadLoop_push (o : Options) (srv : RpcServer) (id : Z) (c : Connection) : RpcServer :=
  let '(c', j) := ReadLoop_iter o id c in
  mkServer (<[id := c']> (connections srv)) (queue srv ++ match j with Some j => [j] | None => [] end)
    (running srv) (prog srv).

(** The steps of the threads; each of them is a critical section. *)
Inductive rpc_step (o : Options) : RpcServer → RpcServer → Prop :=
| step_accept srv id peer input srv' :
    connections srv !! id = None → AcceptLoop_accept o srv id peer input = Some srv' → rpc_step o srv srv'
| step_read srv id c :
    connections srv !! id = Some c → is_open c = true → rpc_step o srv (ReadLoop_push o srv id c)
| step_take srv srv' :
    WorkerLoop_take srv = Some srv' → rpc_step o srv srv'
| step_finish srv j run1 run2 written srv' :
    running srv = run1 ++ j :: run2 →
    WorkerLoop_finish srv j (run1 ++ run2) written = Ret srv' →
    rpc_step o srv srv'.

Inductive rpc_reach (o : Options) (p : S) : RpcServer → Prop :=
| reach_start : rpc_reach o p (mkServer ∅ [] [] p)
| reach_step srv srv' : rpc_reach o p srv → rpc_step o srv srv' → rpc_reach o p srv'.

Definition jobs (srv : RpcServer) : list Job := queue srv ++ running srv.
Definition job_key (j : Job) : Z * Z := (job_connection j, job_xid j).

(** The transactions in flight are those of the jobs, each of which has its own. *)
Definition inflight_ok (srv : RpcServer) : Prop :=
  NoDup (job_key <$> jobs srv)
  ∧ (∀ id xid, (id, xid) ∈ job_key <$> jobs srv ↔ ∃ c, connections srv !! id = Some c ∧ xid ∈ inflight c).

Lemma ReadLoop_iter_spec o id c c' j :
  ReadLoop_iter o id c = (c', j) →
  match j with
  | None => inflight c' = inflight c
  | Some j => job_connection j = id ∧ job_xid j ∉ inflight c ∧ inflight c' = {[job_xid j]} ∪ inflight c
  end.
Proof.
  unfold ReadLoop_iter. destruct (ReadFull (incoming c) 4) as [[m input]|]; [|by intros [= <- <-]].
  destruct (_ >? max_record o); [by intros [= <- <-]|].
  destruct (read_body input _) as [[fragment input']|]; [|by intros [= <- <-]].
  destruct (Z.land _ kLastFragment =? 0); [by intros [= <- <-]|].
  case_bool_decide; intros [= <- <-]; done.
Qed.

Lemma NoDup_middle_remove {A} (l1 l2 : list A) x : NoDup (l1 ++ x :: l2) → NoDup (l1 ++ l2) ∧ x ∉ l1 ++ l2.
Proof.
  intros Hn. assert (NoDup (x :: (l1 ++ l2))) as Hn' by (by rewrite (Permutation_middle l1 l2 x)).
  by apply NoDup_cons in Hn' as [? ?].
Qed.

Lemma inflight_ok_read srv id c o :
  inflight_ok srv → connections srv !! id = Some c → inflight_ok (ReadLoop_push o srv id c).
Proof.
  intros [Hn Hin] Hc. unfold ReadLoop_push. destruct (ReadLoop_iter o id c) as [c' j] eqn:Hr. apply ReadLoop_iter_spec in Hr. unfold inflight_ok, jobs in *. cbn [queue running connections].
  destruct j as [j|].
  - destruct Hr as (Hid & Hnew & Hfl). assert (job_key j = (id, job_xid j)) as Hk by (unfold job_key; by rewrite Hid).
    assert ((queue srv ++ [j]) ++ running srv ≡ₚ j :: (queue srv ++ running srv)) as HP
      by (rewrite <- app_assoc; symmetry; apply Permutation_middle).
    split.
    + rewrite HP, fmap_cons, Hk. apply NoDup_cons. split; [|done]. intros (c0 & Hc0 & Hx)%Hin. simplify_eq. done.
    + intros id' xid. rewrite HP, fmap_cons, Hk, elem_of_cons, Hin. destruct (decide (id' = id)) as [->|Hne].
      * rewrite lookup_insert_eq. split.
        -- intros [[= ->]|(c0 & ? & Hx)]; exists c'; simplify_eq; set_solver.
        -- intros (c0 & [= <-] & Hx). rewrite Hfl in Hx. apply elem_of_union in Hx as [->%elem_of_singleton|Hx];
             [by left|right; by exists c].
      * rewrite lookup_insert_ne by done. split; [by intros [[= ? ?]|?]|auto].
  - rewrite app_nil_r. split; [done|]. intros id' xid. rewrite Hin. destruct (decide (id' = id)) as [->|Hne].
    + rewrite lookup_insert_eq. split; intros (c0 & ? & Hx); simplify_eq; eexists; (split; [done|]); by rewrite Hr in *.
    + by rewrite lookup_insert_ne by done.
Qed.

Lemma inflight_send c reply written xid :
  inflight (erase_inflight (match reply with Some r => Send c r written | None => c end) xid) = inflight c ∖ {[xid]}.
Proof. destruct reply as [r|]; [|done]. unfold Send. by destruct written. Qed.

Lemma inflight_ok_finish srv j run1 run2 written srv' :
  inflight_ok srv → running srv = run1 ++ j :: run2 → WorkerLoop_finish srv j (run1 ++ run2) written = Ret srv' →
  inflight_ok srv'.
Proof.
  intros [Hn Hin] Hrun Hf. unfold WorkerLoop_finish in Hf. inv_ret. destruct x as [reply p]. inv_ret.
  unfold inflight_ok, jobs in *. cbn [queue running connections]. rewrite Hrun in Hn, Hin.
  rewrite (app_assoc (queue srv)) in *. rewrite !fmap_app, fmap_cons in Hn. rewrite <- fmap_app in Hn.
  apply NoDup_middle_remove in Hn as [Hn Hnot]. rewrite fmap_app. split; [done|].
  rewrite <- fmap_app in *. intros id xid. specialize (Hin id xid).
  rewrite !fmap_app, fmap_cons, !elem_of_app, elem_of_cons in Hin. rewrite !fmap_app, !elem_of_app in Hnot |- *.
  destruct (decide (id = job_connection j)) as [->|Hne].
  - rewrite lookup_alter_eq. destruct (decide (xid = job_xid j)) as [->|Hx].
    + split; [by intros []%Hnot|]. intros (c & Hc & Hxin). destruct (connections srv !! job_connection j); [|done].
      injection Hc as <-. rewrite inflight_send in Hxin. set_solver.
    + split.
      * intros Hmem. destruct (proj1 Hin) as (c & Hc & Hxin); [tauto|]. rewrite Hc.
        eexists. split; [done|]. rewrite inflight_send. set_solver.
      * intros (c & Hc & Hxin). destruct (connections srv !! job_connection j) as [c0|]; [|done].
        injection Hc as <-. rewrite inflight_send in Hxin.
        destruct (proj2 Hin) as [?|[[= ?]|?]]; [exists c0; set_solver|tauto|done|tauto].
  - rewrite lookup_alter_ne by done. rewrite <- Hin. unfold job_key. split; [tauto|]. intros [?|[[= ? ?]|?]]; tauto.
Qed.

End Server.

(** ** System calls *)

(** Taking a first piece of at most [len] bytes. *)
Lemma ReadFull_piece (b rest : bytes) len : zlen b ≤ len →
  ReadFull (b ++ rest) len
  = match ReadFull rest (len - zlen b) with Some (x, y) => Some (b ++ x, y) | None => None end.
Proof.
  intros Hb. unfold ReadFull. rewrite zlen_app. pose proof (zlen_nonneg rest).
  destruct (Z.ltb_spec (zlen rest) (len - zlen b)); [by rewrite ltb_true by lia|rewrite ltb_false by lia].
  unfold zlen in *. replace (Z.to_nat len) with (length b + Z.to_nat (len - Z.of_nat (length b)))%nat by lia.
  by rewrite take_app_add, drop_app_add.
Qed.

Lemma ReadFull_loop_spec events : ∀ input len got r, 0 ≤ len →
  ReadFull_loop events input len got = Some r →
  match ReadFull input len with
  | Some (b, rest) => r = (true, got ++ b, rest) ∨ r.1.1 = false ∧ Exists (λ e, e = IoError ∨ ∃ n, n ≤ 0 ∧ e = Bytes n) events
  | None => r.1.1 = false
  end.
Proof.
  induction events as [|e events IH]; intros input len got r Hlen Hr; cbn [ReadFull_loop] in Hr;
    destruct (Z.leb_spec len 0).
  1, 3: assert (len = 0) as -> by lia; injection Hr as <-; unfold ReadFull; rewrite ltb_false by apply zlen_nonneg; left;
    by rewrite app_nil_r.
  { done. }
  destruct e as [n| |].
  - set (b := sys_read input n len) in *. assert (input = b ++ drop (length b) input) as Hin.
    { unfold b, sys_read. rewrite length_take. rewrite <- (take_drop (Z.to_nat (Z.min n len)) input) at 1. f_equal.
      destruct (decide (Z.to_nat (Z.min n len) ≤ length input)%nat); [by rewrite Nat.min_l|].
      rewrite Nat.min_r by lia. by rewrite !drop_ge by lia. }
    assert (length b = Nat.min (Z.to_nat (Z.min n len)) (length input))%nat as Hb by apply length_take.
    destruct (Z.eqb_spec (zlen b) 0) as [H0|H0].
    { injection Hr as <-. unfold ReadFull, zlen in *. cbn [fst].
      destruct (Z.ltb_spec (Z.of_nat (length input)) len); [done|]. right. split; [done|].
      apply Exists_cons. left. right. exists n. split; [lia|done]. }
    apply IH in Hr; [|unfold zlen in *; lia]. rewrite Hin, ReadFull_piece by (unfold zlen in *; lia).
    destruct (ReadFull (drop (length b) input) (len - zlen b)) as [[x y]|]; [|done].
    destruct Hr as [->|[? ?]]; [left; by rewrite <- app_assoc|right; split; [done|by apply Exists_cons; right]].
  - apply IH in Hr; [|done]. destruct (ReadFull input len) as [[x y]|]; [|done].
    destruct Hr as [?|[? ?]]; [by left|right; split; [done|by apply Exists_cons; right]].
  - injection Hr as <-. destruct (ReadFull input len) as [[x y]|]; [|done].
    right. split; [done|]. apply Exists_cons. by left; left.
Qed.

Lemma concat_advance_iov v : ∀ done, 0 ≤ done → concat (advance_iov v done) = drop (Z.to_nat done) (concat v).
Proof.
  induction v as [|b v IH]; intros done Hd; cbn [advance_iov concat]; [by rewrite drop_nil|].
  destruct (done >=? zlen b) eqn:E; unfold zlen in *.
  - rewrite IH by lia. rewrite drop_app_ge by lia. f_equal. lia.
  - cbn [concat]. by rewrite drop_app_le by lia.
Qed.

(** What is on the wire when [WriteRecord] is done is the marker and the record;
    a failure leaves a prefix of them. *)
Lemma WriteRecord_loop_spec events : ∀ v sent r, Forall (λ e, ∀ n, e = Bytes n → 0 ≤ n) events →
  WriteRecord_loop events v sent = Some r →
  if r.1 then r.2 = sent ++ concat v else r.2 `prefix_of` sent ++ concat v.
Proof.
  induction events as [|e events IH]; intros v sent r Hev Hr; destruct v as [|b v]; cbn [WriteRecord_loop] in Hr;
    try (injection Hr as <-; by rewrite app_nil_r); [done|].
  apply Forall_cons in Hev as [He Hev]. destruct e as [n| |].
  - specialize (He n eq_refl). set (m := Z.min n (zlen (concat (b :: v)))) in *.
    assert (0 ≤ m) by (unfold m; pose proof (zlen_nonneg (concat (b :: v))); lia).
    apply IH in Hr; [|done]. by rewrite concat_advance_iov, <- app_assoc, take_drop in Hr by lia.
  - by apply IH.
  - injection Hr as <-. by apply prefix_app_r.
Qed.

(** ** Fragments *)

Fixpoint ReadLoop (n : nat) (o : Options) (id : Z) (c : Connection) : Connection * list Job :=
  match n with
  | O => (c, [])
  | S n =>
      let '(c, j) := ReadLoop_iter o id c in
      if negb (is_open c) then (c, [])
      else let '(c, js) := ReadLoop n o id c in
           (c, match j with Some j => j :: js | None => js end)
  end.

(** A record that the peer sends in fragments. *)
Fixpoint frames (frags : list bytes) : bytes :=
  match frags with
  | [] => []
  | [f] => WriteRecord (Z.lor kLastFragment (zlen f)) f
  | f :: frags => WriteRecord (zlen f) f ++ frames frags
  end.

Lemma be_decode_u32 v : is_u32 v → be_decode (u32_bytes v) = v.
Proof.
  intros Hv. unfold be_decode, u32_bytes. cbn [reverse]. change (reverse _) with
    [u8 v; u8 (Z.shiftr v 8); u8 (Z.shiftr v 16); u8 (Z.shiftr v 24)]. cbn [le_decode].
  rewrite <- (split_u32 v Hv) at 5. lia.
Qed.

Lemma marker_more len : 0 ≤ len < 2 ^ 31 →
  is_u32 len ∧ Z.land len (2 ^ 32 - 1 - kLastFragment) = len ∧ Z.land len kLastFragment = 0.
Proof.
  intros Hl. change (2 ^ 32 - 1 - kLastFragment) with (Z.ones 31).
  assert (Z.land len (Z.ones 31) = len) as Ho by (rewrite Z.land_ones, Z.mod_small by lia; done).
  split_and!; [unfold_words; lia|done|]. rewrite <- Ho, <- Z.land_assoc. apply Z.land_0_r.
Qed.

Lemma marker_last len : 0 ≤ len < 2 ^ 31 →
  is_u32 (Z.lor kLastFragment len)
  ∧ Z.land (Z.lor kLastFragment len) (2 ^ 32 - 1 - kLastFragment) = len
  ∧ Z.land (Z.lor kLastFragment len) kLastFragment ≠ 0.
Proof.
  intros Hl. pose proof (marker_more len Hl) as (_ & Hm & _). split_and!.
  - pose proof (lor_disjoint 1 len 31 ltac:(lia) Hl) as He. change (1 * 2 ^ 31) with kLastFragment in He.
    rewrite He. unfold kLastFragment. unfold_words. lia.
  - rewrite Z.land_lor_distr_l, Hm. done.
  - rewrite Z.land_lor_distr_l, Z.land_diag. by intros [? _]%Z.lor_eq_0_iff.
Qed.

Lemma ReadFull_app (a b : bytes) n : n = zlen a → ReadFull (a ++ b) n = Some (a, b).
Proof.
  intros ->. unfold ReadFull. rewrite ltb_false by (rewrite zlen_app; pose proof (zlen_nonneg b); lia).
  unfold zlen. by rewrite Nat2Z.id, take_app_length, drop_app_length.
Qed.

(** A fragment behind its marker. *)
Lemma read_fragment marker (f rest : bytes) : is_u32 marker → Z.land marker (2 ^ 32 - 1 - kLastFragment) = zlen f →
  ReadFull (WriteRecord marker f ++ rest) 4 = Some (u32_bytes marker, f ++ rest)
  ∧ be_decode (u32_bytes marker) = marker
  ∧ read_body (f ++ rest) (zlen f) = Some (f, rest).
Proof.
  intros Hm Hl. unfold WriteRecord. rewrite <- app_assoc. split_and!.
  - by apply ReadFull_app.
  - by apply be_decode_u32.
  - unfold read_body. destruct (zlen f >? 0) eqn:E; [by apply ReadFull_app|]. destruct f; [done|]. rewrite zlen_cons in E.
    pose proof (zlen_nonneg f). lia.
Qed.

Definition record_xid (record : bytes) : Z := if zlen record >=? 4 then be_decode (take 4 record) else 0.

Lemma read_frames o id frags : ∀ c rest, frags ≠ [] → Forall (λ f, zlen f < 2 ^ 31) frags → is_open c = true →
  incoming c = frames frags ++ rest → zlen (record c ++ concat frags) ≤ max_record o →
  record_xid (record c ++ concat frags) ∉ inflight c →
  ReadLoop (length frags) o id c
  = (mkConnection rest (outgoing c) [] ({[record_xid (record c ++ concat frags)]} ∪ inflight c) true,
     [mkJob id (record_xid (record c ++ concat frags)) (record c ++ concat frags)]).
Proof.
  induction frags as [|f frags IH]; intros c rest Hne Hall Hopen Hin Hmax Hxid; [done|].
  apply Forall_cons in Hall as [Hf Hall]. pose proof (zlen_nonneg f). pose proof (zlen_nonneg (concat frags)).
  cbn [concat] in *. rewrite !zlen_app in Hmax. cbn [length ReadLoop]. unfold ReadLoop_iter.
  destruct frags as [|f2 frags].
  - cbn [frames concat] in *. destruct (marker_last (zlen f)) as (Hu & Hland & Hlast); [lia|].
    destruct (read_fragment _ f rest Hu Hland) as (E1 & E2 & E3). rewrite Hin, E1, E2, Hland.
    rewrite gtb_false by lia. rewrite E3. rewrite eqb_false by done. rewrite app_nil_r in *.
    fold (record_xid (record c ++ f)). rewrite bool_decide_false by done. done.
  - destruct (marker_more (zlen f)) as (Hu & Hland & Hmore); [lia|].
    change (frames (f :: f2 :: frags)) with (WriteRecord (zlen f) f ++ frames (f2 :: frags)) in Hin.
    rewrite <- app_assoc in Hin.
    destruct (read_fragment _ f (frames (f2 :: frags) ++ rest) Hu Hland) as (E1 & E2 & E3). rewrite Hin, E1, E2, Hland.
    rewrite gtb_false by lia. rewrite E3, Hmore. cbn [Z.eqb is_open negb].
    rewrite (app_assoc (record c)) in *.
    rewrite (IH (mkConnection _ _ _ _ _) rest) by (done || (cbn [record]; rewrite !zlen_app; lia)). done.
Qed.

(** C25. A record arrives as it was sent, however the peer cuts it
    into fragments, as long as it does not exceed the limit and is not a
    retransmission; in particular, the replies of [Send] can be read back. *)
Theorem fragments_reassembled o id frags c rest :
  frags ≠ [] → Forall (λ f, zlen f < 2 ^ 31) frags →
  is_open c = true → record c = [] → incoming c = frames frags ++ rest →
  zlen (concat frags) ≤ max_record o → record_xid (concat frags) ∉ inflight c →
  ReadLoop (length frags) o id c
  = (mkConnection rest (outgoing c) [] ({[record_xid (concat frags)]} ∪ inflight c) true,
     [mkJob id (record_xid (concat frags)) (concat frags)]).
Proof. intros ? ? ? Hr ? ? ?. rewrite (read_frames o id frags c rest); rewrite ?Hr; done. Qed.

Module RpcWitness.
(** A program that counts its calls, with one procedure that returns its
    arguments. *)
#[local] Instance echo : RpcProgram Z := {|
  program := 7; min_version := 1; max_version := 2;
  Dispatch s call args w :=
    Ret (if call_procedure call =? 0 then (kAcceptSuccess, PutRaw w (cursor args), s + 1)
         else (kAcceptProcUnavail, PutRaw w [1; 2; 3], s + 1))
|}.

#[local] Program Instance echo_laws : RpcProgramLaws Z := {| state_ok s := 0 ≤ s |}.
Next Obligation.
  intros s call args w Hs Hr Hw. cbn [Dispatch echo]. destruct (call_procedure call =? 0).
  - exists kAcceptSuccess, (cursor args), (s + 1). split_and!; [done|cbn beta in *; lia|by apply cursor_ok|done].
  - exists kAcceptProcUnavail, [1; 2; 3], (s + 1). split_and!; [done|cbn beta in *; lia| |done]. by apply (bool_decide_unpack _).
Qed.

Definition null_auth : bytes := u32_bytes kAuthNone ++ u32_bytes 0.
Definition call_record (xid proc : Z) : bytes :=
  u32_bytes xid ++ u32_bytes kRpcCall ++ u32_bytes 2 ++ u32_bytes 7 ++ u32_bytes 1 ++ u32_bytes proc
  ++ null_auth ++ null_auth ++ [10; 20].


Definition opts : Options := mkOptions false 100.
Definition loopback : sockaddr := AF_INET [127; 0; 0; 1].
Definition pieces : list bytes := [take 10 (call_record 99 0); []; drop 10 (call_record 99 0)].
Definition conn : Connection := mkConnection (frames pieces ++ [5]) [] [] ∅ true.

Lemma fragments_reassembled_witness :
  ReadLoop 3 opts 1 conn = (mkConnection [5] [] [] {[99]} true, [mkJob 1 99 (call_record 99 0)]).
Proof.
  etransitivity; [apply (fragments_reassembled opts 1 pieces conn [5])|by vm_compute]; try done.
  - by repeat constructor.
Defined.

(** A connection that sends a call and the same call again. *)
Definition twice : Connection := mkConnection (frames [call_record 99 0] ++ frames [call_record 99 0]) [] [] ∅ true.
Definition srv1 : RpcServer (S := Z) := mkServer {[1 := twice]} [] [] 0.
Definition one_read (srv : RpcServer (S := Z)) : RpcServer (S := Z) :=
  match connections srv !! 1 with Some c => ReadLoop_push opts srv 1 c | None => srv end.

End RpcWitness.
