(* ===== verification/Callback.v ===== *)
(** * The callback client (src/cvmfs/nfs4/callback.{h,cc})

    The NFS server calls its clients back to recall delegations.  Parsing of
    the client's address, the calls as they are sent, and the reading of
    replies; the socket is a list of incoming bytes per attempt. *)

From stdpp Require Import base numbers list.
From S2P Require Import Prelude Bytes StringUtil NfsConst Xdr Rpc.

Open Scope Z_scope.

Definition kCallbackVersion : Z := 1.
Definition kCbProcNull : Z := 0.
Definition kCbProcCompound : Z := 1.
Definition kOpCbRecall : Z := 4.
Definition kMaxReply : Z := 64 * 1024.

(** ** Addresses *)

(** [std::string::rfind] of a character, at [pos] or before. *)
Fixpoint rfind_at (s : bytes) (c : Z) (n : nat) : option Z :=
  match n with
  | O => None
  | S n => if bool_decide (s !! n = Some c) then Some (Z.of_nat n) else rfind_at s c n
  end.
Definition rfind (s : bytes) (c : Z) (pos : Z) : option Z :=
  rfind_at s c (Nat.min (length s) (Z.to_nat (pos + 1))).

(** The part of a string in front of the first zero. *)
Fixpoint c_str (s : bytes) : bytes :=
  match s with
  | [] => []
  | c :: s => if c =? 0 then [] else c :: c_str s
  end.
Definition atoi (s : bytes) : Z := i32 (strtoll (c_str s)).1.1.

Definition chr_dot : Z := 46.
Definition str_tcp : bytes := [116; 99; 112].

(** [cb_id] stands for the address of the object. *)
Record CallbackClient := mkCallback {
  cb_id : Z;
  cb_program : Z;
  cb_ident : Z;
  cb_host : bytes;
  cb_port : Z
}.

#[export] Instance CallbackClient_eq_dec : EqDecision CallbackClient.
Proof. solve_decision. Defined.

(** [inet_pton] is whether the C library accepts an IPv4 address. *)
Definition new_callback (inet_pton : bytes → bool) (id program ident : Z) (netid address : bytes) : CallbackClient :=
  let invalid host := mkCallback id program ident host 0 in
  if negb (bytes_eqb netid str_tcp) then invalid [] else
  match rfind address chr_dot (zlen address) with
  | None => invalid []
  | Some last =>
      if last =? 0 then invalid [] else
      match rfind address chr_dot (last - 1) with
      | None => invalid []
      | Some second =>
          let hi := atoi (substr address (second + 1) (last - second - 1)) in
          let lo := atoi (substr_from address (last + 1)) in
          if (hi <? 0) || (hi >? 255) || (lo <? 0) || (lo >? 255) then invalid [] else
          let host := substr address 0 second in
          if negb (inet_pton (c_str host)) then invalid host
          else mkCallback id program ident host (u16 (hi * 256 + lo))
      end
  end.

Definition valid (c : CallbackClient) : bool := negb (cb_port c =? 0).

(** ** Calls *)

Definition str_cvmfs : bytes := [99; 118; 109; 102; 115].

(** The call with its record marker. *)
Definition call_message (c : CallbackClient) (now xid procedure : Z) (args : bytes) : outcome bytes :=
  let '(marker_offset, w) := ReserveU32 [] in
  let w := PutU32 w xid in
  let w := PutU32 w kRpcCall in
  let w := PutU32 w kRpcVersion in
  let w := PutU32 w (cb_program c) in
  let w := PutU32 w kCallbackVersion in
  let w := PutU32 w procedure in
  let cred := PutU32 [] (u32 now) in
  let cred := PutString cred str_cvmfs in
  let cred := PutU32 cred 0 in
  let cred := PutU32 cred 0 in
  let cred := PutU32 cred 0 in
  let w := PutU32 w kAuthSys in
  let w := PutOpaque w cred in
  let w := PutU32 w kAuthNone in
  let w := PutU32 w 0 in
  let w := PutRaw w args in
  PatchU32 w marker_offset (Z.lor kLastFragment (u32 (zlen w - 4))).

(** What a record means for the call [xid]: not its reply, a failure, results. *)
Inductive reply_kind := NotMine | CallFailed | CallResult (result : bytes).

Definition parse_reply (record : bytes) (xid : Z) : outcome reply_kind :=
  let r := new_reader record in
  '(reply_xid, r) ← GetU32 r;
  '(type, r) ← GetU32 r;
  if negb (ok_ r) || negb (default 0 reply_xid =? xid) || negb (default 0 type =? kRpcReply) then Ret NotMine else
  '(reply_stat, r) ← GetU32 r;
  '(verf_flavor, r) ← GetU32 r;
  '(verf, r) ← GetOpaque 400 r;
  '(accept, r) ← GetU32 r;
  if negb (ok_ r) || negb (default 0 reply_stat =? kMsgAccepted) || negb (default 0 accept =? kAcceptSuccess)
  then Ret CallFailed
  else Ret (CallResult (cursor r)).

(** Reads records until the reply arrives; a record consumes at least four bytes of
    the input, [fuel] need not exceed its length. *)
Fixpoint await_reply (fuel : nat) (incoming : bytes) (xid : Z) : outcome (option bytes) :=
  match fuel with
  | O => Fail OutOfFuel
  | S fuel =>
      match ReadFull incoming 4 with
      | None => Ret None
      | Some (m, incoming) =>
          let len := Z.land (be_decode m) (2 ^ 32 - 1 - kLastFragment) in
          if len >? kMaxReply then Ret None else
          match read_body incoming len with
          | None => Ret None
          | Some (record, incoming) =>
              k ← parse_reply record xid;
              match k with
              | NotMine => await_reply fuel incoming xid
              | CallFailed => Ret None
              | CallResult result => Ret (Some result)
              end
          end
      end
  end.

(** An attempt: whether the connection is established, whether the call can be
    sent, what comes back. *)
Record attempt := mkAttempt { can_connect : bool; can_send : bool; comes_back : bytes }.

Fixpoint Call_attempts (c : CallbackClient) (now xid procedure : Z) (args : bytes) (attempts : list attempt)
    : outcome (option bytes) :=
  match attempts with
  | [] => Ret None
  | a :: attempts =>
      if negb (can_connect a) then Ret None else
      _ ← call_message c now xid procedure args;
      if negb (can_send a) then Call_attempts c now (u32 (xid + 1)) procedure args attempts
      else await_reply (S (length (comes_back a))) (comes_back a) xid
  end.

(** A broken connection is reestablished once. *)
Definition Call (c : CallbackClient) (now xid procedure : Z) (args : bytes) (first second : attempt)
    : outcome (option bytes) :=
  if negb (valid c) then Ret None else Call_attempts c now xid procedure args [first; second].

Definition Null (c : CallbackClient) (now xid : Z) (first second : attempt) : outcome bool :=
  r ← Call c now xid kCbProcNull [] first second;
  Ret (match r with Some _ => true | None => false end).

Definition recall_args (c : CallbackClient) (stateid_seqid : Z) (stateid_other fh : bytes) : bytes :=
  let args := PutString [] [] in
  let args := PutU32 args 0 in
  let args := PutU32 args (cb_ident c) in
  let args := PutU32 args 1 in
  let args := PutU32 args kOpCbRecall in
  let args := PutU32 args stateid_seqid in
  let args := PutFixedOpaque args stateid_other in
  let args := PutBool args false in
  PutOpaque args fh.

(** The status in the reply, -1 if there is none. *)
Definition Recall (c : CallbackClient) (now xid stateid_seqid : Z) (stateid_other fh : bytes)
    (first second : attempt) : outcome Z :=
  r ← Call c now xid kCbProcCompound (recall_args c stateid_seqid stateid_other fh) first second;
  match r with
  | None => Ret (-1)
  | Some result =>
      '(status, _) ← GetU32 (new_reader result);
      Ret (match status with Some s => i32 s | None => -1 end)
  end.

(** ** Calls reach a program, and its results come back *)

Section RoundTrip.
Context {S : Type} `{RpcProgram S}.

Definition cred_bytes (now : Z) : bytes :=
  u32_bytes (u32 now) ++ opaque_bytes str_cvmfs ++ u32_bytes 0 ++ u32_bytes 0 ++ u32_bytes 0.

Definition call_bytes (c : CallbackClient) (now xid procedure : Z) (args : bytes) : bytes :=
  u32_bytes xid ++ u32_bytes kRpcCall ++ u32_bytes kRpcVersion ++ u32_bytes (cb_program c)
  ++ u32_bytes kCallbackVersion ++ u32_bytes procedure ++ u32_bytes kAuthSys ++ opaque_bytes (cred_bytes now)
  ++ u32_bytes kAuthNone ++ opaque_bytes [] ++ args.

Lemma patch_first (w : bytes) v : PatchU32 (repeat 0 4 ++ w) 0 v = Ret (u32_bytes v ++ w).
Proof. done. Qed.

Lemma call_message_bytes c now xid procedure args :
  call_message c now xid procedure args
  = Ret (WriteRecord (Z.lor kLastFragment (u32 (zlen (call_bytes c now xid procedure args))))
           (call_bytes c now xid procedure args)).
Proof.
  unfold call_message, ReserveU32, PutRaw, PutString. rewrite !PutOpaque_bytes, !PutU32_bytes.
  rewrite <- !app_assoc. cbn [app]. change (0 :: 0 :: 0 :: 0 :: ?l) with (repeat 0 4 ++ l).
  rewrite patch_first. match goal with |- Ret (_ ++ ?l) = _ => change l with (call_bytes c now xid procedure args) end.
  unfold WriteRecord. rewrite zlen_app. change (zlen (repeat 0 4)) with 4. do 5 f_equal. lia.
Qed.

Lemma ParseAuthSys_cred now : ParseAuthSys (cred_bytes now) = Ret (Some (mkCreds 0 0 [])).
Proof.
  unfold ParseAuthSys, cred_bytes, GetString. rewrite new_reader_at.
  rewrite (reads_at GetU32 _ (u32 now)) by (apply GetU32_reads, u32_range || done). exec.
  rewrite (reads_at (GetOpaque 255) _ str_cvmfs) by (by apply GetOpaque_reads; [|right] || done). exec.
  rewrite (reads_at GetU32 _ 0) by (by apply GetU32_reads || done). exec.
  rewrite (reads_at GetU32 _ 0) by (by apply GetU32_reads || done). exec.
  rewrite (reads_at_end GetU32 _ 0) by (by apply GetU32_reads || done). exec. done.
Qed.

(** Lengths of readers. *)
Local Ltac sizes Hcb32 Hnil :=
  rewrite ?zlen_app, ?zlen_u32_bytes, ?Hcb32, ?Hnil; change (zlen (A := Z) []) with 0; lia.

(** The record that arrives is the call to [Dispatch], made as root. *)
Lemma callback_dispatched c now xid procedure args s :
  is_u32 xid → is_u32 procedure → is_u32 (cb_program c) → program = cb_program c → min_version ≤ kCallbackVersion ≤ max_version →
  zlen args < 2 ^ 31 →
  HandleRpcRecord s (call_bytes c now xid procedure args)
  = (let call := mkCall xid (cb_program c) kCallbackVersion procedure kAuthSys (mkCreds 0 0 []) args in
     '(stat, w, s) ← Dispatch s call (new_reader args) (PutAccepted xid kAcceptSuccess []);
     if negb (stat =? kAcceptSuccess) then
       w ← PatchU32 (Truncate w 24) 20 stat; Ret (Some w, s)
     else Ret (Some w, s)).
Proof.
  intros Hx Hproc Hcb Hprog Hv Hargs. unfold HandleRpcRecord, call_bytes. rewrite new_reader_at.
  pose proof (zlen_nonneg args).
  assert (zlen (opaque_bytes (cred_bytes now)) = 32) as Hcb32 by done.
  assert (zlen (opaque_bytes []) = 4) as Hnil by done.
  rewrite (reads_at GetU32 _ xid) by first [by apply GetU32_reads | sizes Hcb32 Hnil]. exec.
  rewrite (reads_at GetU32 _ kRpcCall) by first [by apply GetU32_reads | sizes Hcb32 Hnil]. exec.
  rewrite bool_decide_true by done. cbn [negb].
  rewrite (reads_at GetU32 _ kRpcVersion) by first [by apply GetU32_reads | sizes Hcb32 Hnil]. exec.
  rewrite (reads_at GetU32 _ (cb_program c)) by first [by apply GetU32_reads | sizes Hcb32 Hnil]. exec.
  rewrite (reads_at GetU32 _ kCallbackVersion) by first [by apply GetU32_reads | sizes Hcb32 Hnil]. exec.
  rewrite (reads_at GetU32 _ procedure) by first [by apply GetU32_reads | sizes Hcb32 Hnil]. exec.
  rewrite (reads_at GetU32 _ kAuthSys) by first [by apply GetU32_reads | sizes Hcb32 Hnil]. exec.
  rewrite (reads_at (GetOpaque kMaxAuthBody) _ (cred_bytes now))
    by first [by apply GetOpaque_reads; [|right] | sizes Hcb32 Hnil]. exec.
  rewrite (reads_at GetU32 _ kAuthNone) by first [by apply GetU32_reads | sizes Hcb32 Hnil]. exec.
  rewrite (reads_at (GetOpaque kMaxAuthBody) _ [])
    by first [by apply GetOpaque_reads; [|right] | sizes Hcb32 Hnil]. exec.
  rewrite cursor_at. cbn [ok_ reader_at negb from_option]. unfold id.
  rewrite Z.eqb_refl. cbn [negb]. change (kAuthSys =? kAuthSys) with true. rewrite ParseAuthSys_cred. exec.
  rewrite Hprog, Z.eqb_refl, ltb_false, gtb_false by lia. done.
Qed.

Lemma parse_reply_success xid (body : bytes) : is_u32 xid → zlen body ≤ kMaxReply →
  parse_reply (u32_bytes xid ++ u32_bytes kRpcReply ++ accepted_bytes kAcceptSuccess ++ body) xid
  = Ret (CallResult body).
Proof.
  intros Hx Hb. unfold parse_reply, accepted_bytes, kMaxReply in *. rewrite new_reader_at.
  change (u32_bytes kAuthNone ++ u32_bytes 0 ++ u32_bytes kAcceptSuccess)
    with (u32_bytes kAuthNone ++ opaque_bytes [] ++ u32_bytes kAcceptSuccess).
  rewrite <- !app_assoc. assert (zlen (opaque_bytes []) = 4) as Hnil by done.
  rewrite (reads_at GetU32 _ xid) by first [by apply GetU32_reads | sizes Hnil Hnil]. exec.
  rewrite (reads_at GetU32 _ kRpcReply) by first [by apply GetU32_reads | sizes Hnil Hnil]. exec.
  rewrite !Z.eqb_refl. cbn [from_option ok_ reader_at negb orb]. unfold id.
  rewrite (reads_at GetU32 _ kMsgAccepted) by first [by apply GetU32_reads | sizes Hnil Hnil]. exec.
  rewrite (reads_at GetU32 _ kAuthNone) by first [by apply GetU32_reads | sizes Hnil Hnil]. exec.
  rewrite (reads_at (GetOpaque 400) _ []) by first [by apply GetOpaque_reads; [|right] | sizes Hnil Hnil]. exec.
  rewrite (reads_at GetU32 _ kAcceptSuccess) by first [by apply GetU32_reads | sizes Hnil Hnil]. exec.
  by rewrite cursor_at.
Qed.

(** C34. A callback that the client side encodes is, for the RPC layer
    that receives it, a call of the given procedure with the given arguments
    and root's credentials; and the results of a program that succeeds are what
    [Call] returns. *)
Theorem callback_round_trip c now xid procedure args second s s' body :
  is_u32 xid → is_u32 procedure → is_u32 (cb_program c) → valid c = true →
  program = cb_program c → min_version ≤ kCallbackVersion ≤ max_version → zlen args < 2 ^ 31 →
  zlen body ≤ kMaxReply - 24 →
  (let call := mkCall xid (cb_program c) kCallbackVersion procedure kAuthSys (mkCreds 0 0 []) args in
   ∀ w, Dispatch s call (new_reader args) w = Ret (kAcceptSuccess, w ++ body, s')) →
  ∃ record reply,
    call_message c now xid procedure args = Ret (WriteRecord (Z.lor kLastFragment (u32 (zlen record))) record)
    ∧ HandleRpcRecord s record = Ret (Some reply, s')
    ∧ let sent := WriteRecord (Z.lor kLastFragment (u32 (zlen reply))) reply in
      Call c now xid procedure args (mkAttempt true true sent) second = Ret (Some body).
Proof.
  intros Hx Hproc Hcb Hvalid Hprog Hv Hargs Hbody Hd. cbn zeta in Hd.
  exists (call_bytes c now xid procedure args), (PutAccepted xid kAcceptSuccess [] ++ body).
  split; [apply call_message_bytes|]. split.
  { rewrite callback_dispatched by done. cbn zeta. rewrite Hd. done. }
  unfold Call. rewrite Hvalid. cbn [negb Call_attempts can_connect can_send comes_back].
  rewrite call_message_bytes. exec. rewrite PutAccepted_bytes, <- !app_assoc.
  set (reply := u32_bytes xid ++ u32_bytes kRpcReply ++ accepted_bytes kAcceptSuccess ++ body).
  assert (zlen reply = 24 + zlen body) as Hrl by (unfold reply; rewrite !zlen_app, !zlen_u32_bytes; change (zlen (accepted_bytes kAcceptSuccess)) with 16; lia).
  pose proof (zlen_nonneg body). unfold kMaxReply in *. rewrite u32_small by (unfold_words; lia).
  destruct (marker_last (zlen reply)) as (Hu & Hland & _); [lia|].
  destruct (read_fragment _ reply [] Hu Hland) as (E1 & E2 & E3). rewrite app_nil_r in E1.
  cbn [await_reply]. rewrite E1, E2, Hland. unfold kMaxReply. rewrite gtb_false, E3 by lia.
  unfold reply. rewrite parse_reply_success by (done || unfold kMaxReply; lia). done.
Qed.
End RoundTrip.

Module CallbackWitness.
(** A client that answers every recall with the status 0. *)
#[local] Instance recall_client : RpcProgram unit := {|
  program := 1073741824; min_version := 1; max_version := 1;
  Dispatch s call args w := Ret (kAcceptSuccess, w ++ u32_bytes 0, tt)
|}.

(** "127.0.0.1.3.28" *)
Definition address : bytes := [49; 50; 55; 46; 48; 46; 48; 46; 49; 46; 51; 46; 50; 56].
Definition client : CallbackClient := new_callback (λ _, true) 1 1073741824 17 str_tcp address.

Lemma callback_round_trip_witness :
  cb_port client = 796
  ∧ ∃ record reply,
      call_message client 0 5 kCbProcCompound (recall_args client 1 (repeat 7 12) [1; 2; 3])
        = Ret (WriteRecord (Z.lor kLastFragment (u32 (zlen record))) record)
      ∧ HandleRpcRecord tt record = Ret (Some reply, tt)
      ∧ Recall client 0 5 1 (repeat 7 12) [1; 2; 3]
          (mkAttempt true true (WriteRecord (Z.lor kLastFragment (u32 (zlen reply))) reply)) (mkAttempt false false [])
        = Ret NFS4_OK.
Proof.
  split; [by vm_compute|].
  destruct (callback_round_trip client 0 5 kCbProcCompound (recall_args client 1 (repeat 7 12) [1; 2; 3])
    (mkAttempt false false []) tt tt (u32_bytes 0)) as (record & reply & H1 & H2 & H3); try done; [by vm_compute..|].
  exists record, reply. split; [exact H1|]. split; [exact H2|]. unfold Recall. cbn zeta in H3. by rewrite H3.
Defined.
End CallbackWitness.
