(* ===== verification/NfsObject.v ===== *)
(** * NFS server: objects and attributes (src/cvmfs/nfs4/nfs4_server.cc, backend.h)

    The interface to the exported file system, the helper functions of the
    server, and the part that maps file handles to objects and encodes their
    attributes. *)

From stdpp Require Import base numbers list gmap.
From S2P Require Import Prelude Bytes StringUtil StdMap NfsConst Xdr FileHandle Rpc.

Open Scope Z_scope.

(** ** The backend *)

Record Timespec := mkTimespec { sec : Z; nsec : Z }.

Record Attr := mkAttr {
  a_ino : Z;
  a_mode : Z;
  a_nlink : Z;
  a_uid : Z;
  a_gid : Z;
  a_size : Z;
  a_rdev : Z;
  a_atime : Timespec;
  a_mtime : Timespec;
  a_ctime : Timespec
}.

Record DirEntry := mkDirEntry { de_name : bytes; de_ino : Z }.

Record FsStat := mkFsStat {
  bytes_total : Z;
  bytes_free : Z;
  bytes_avail : Z;
  files_total : Z;
  files_free : Z;
  files_avail : Z
}.

(** The methods return a value or a positive [errno]. *)
Record Backend := mkBackend {
  RootInode : Z;
  FsId : Z;
  Generation : Z;
  b_GetAttr : Z → Attr + Z;
  b_Lookup : Z → bytes → Attr + Z;
  b_LookupParent : Z → Attr + Z;
  b_ReadLink : Z → bytes + Z;
  b_ReadDir : Z → list DirEntry + Z;
  b_Read : Z → Z → Z → bytes + Z;
  b_StatFs : FsStat;
  b_ListXattr : Z → list bytes + Z;
  b_GetXattr : Z → bytes → Credentials → bytes + Z
}.

(** ** Constants of the C library *)

Definition EPERM : Z := 1.
Definition EAGAIN : Z := 11.
Definition EACCES : Z := 13.
Definition EBUSY : Z := 16.
Definition ENOTDIR : Z := 20.
Definition EISDIR : Z := 21.
Definition EMFILE : Z := 24.
Definition ENAMETOOLONG : Z := 36.
Definition ELOOP : Z := 40.
Definition ENODATA : Z := 61.
Definition ESTALE : Z := 116.

Definition S_IFMT : Z := 61440.
Definition S_IFIFO : Z := 4096.
Definition S_IFCHR : Z := 8192.
Definition S_IFDIR : Z := 16384.
Definition S_IFBLK : Z := 24576.
Definition S_IFREG : Z := 32768.
Definition S_IFLNK : Z := 40960.
Definition S_IFSOCK : Z := 49152.
Definition is_type (mode t : Z) : bool := Z.land mode S_IFMT =? t.

(** ** Helper functions *)

Definition kMaxName : Z := 255.
Definition kAttrDirFileIdBit : Z := 2 ^ 63.
Definition kNamedAttrFileIdBit : Z := 2 ^ 62.

Definition kSupportedAttrs : list Z :=
  [FATTR4_SUPPORTED_ATTRS; FATTR4_TYPE; FATTR4_FH_EXPIRE_TYPE; FATTR4_CHANGE; FATTR4_SIZE;
   FATTR4_LINK_SUPPORT; FATTR4_SYMLINK_SUPPORT; FATTR4_NAMED_ATTR; FATTR4_FSID; FATTR4_UNIQUE_HANDLES;
   FATTR4_LEASE_TIME; FATTR4_RDATTR_ERROR; FATTR4_ACLSUPPORT; FATTR4_CANSETTIME; FATTR4_CASE_INSENSITIVE;
   FATTR4_CASE_PRESERVING; FATTR4_CHOWN_RESTRICTED; FATTR4_FILEHANDLE; FATTR4_FILEID; FATTR4_FILES_AVAIL;
   FATTR4_FILES_FREE; FATTR4_FILES_TOTAL; FATTR4_HOMOGENEOUS; FATTR4_MAXFILESIZE; FATTR4_MAXLINK;
   FATTR4_MAXNAME; FATTR4_MAXREAD; FATTR4_MAXWRITE; FATTR4_MODE; FATTR4_NO_TRUNC; FATTR4_NUMLINKS;
   FATTR4_OWNER; FATTR4_OWNER_GROUP; FATTR4_RAWDEV; FATTR4_SPACE_AVAIL; FATTR4_SPACE_FREE;
   FATTR4_SPACE_TOTAL; FATTR4_SPACE_USED; FATTR4_TIME_ACCESS; FATTR4_TIME_DELTA; FATTR4_TIME_METADATA;
   FATTR4_TIME_MODIFY; FATTR4_MOUNTED_ON_FILEID].

Definition kNumBitmapWords : Z := 2.

(** A bitmap is the list of its words; [|=] on one of them. *)
Definition or_word (words : list Z) (attr : Z) : list Z :=
  match lget words (attr / 32) with
  | Some x => lset words (attr / 32) (Z.lor x (Z.shiftl 1 (attr mod 32)))
  | None => words
  end.
Definition SupportedBitmap : list Z := foldl or_word [0; 0] kSupportedAttrs.

Definition IsSet (bitmap : list Z) (attr : Z) : bool :=
  match lget bitmap (attr / 32) with
  | Some x => negb (Z.land x (Z.shiftl 1 (attr mod 32)) =? 0)
  | None => false
  end.

Definition PutTime (t : Timespec) (w : XdrWriter) : XdrWriter :=
  let w := PutI64 w (sec t) in
  PutU32 w (nsec t).

(** The words without those at the end that are zero. *)
Fixpoint drop_zeros (words : list Z) : list Z :=
  match words with
  | [] => []
  | x :: words =>
      match drop_zeros words with
      | [] => if x =? 0 then [] else [x]
      | words => x :: words
      end
  end.
Definition PutBitmap (words : list Z) (w : XdrWriter) : XdrWriter :=
  let words := drop_zeros words in
  foldl PutU32 (PutU32 w (zlen words)) words.

Definition FileType (fh : FileHandle) (mode : Z) : Z :=
  if fh_kind fh =? kAttrDir then NF4ATTRDIR
  else if fh_kind fh =? kNamedAttr then NF4NAMEDATTR
  else if is_type mode S_IFDIR then NF4DIR
  else if is_type mode S_IFLNK then NF4LNK
  else if is_type mode S_IFCHR then NF4CHR
  else if is_type mode S_IFBLK then NF4BLK
  else if is_type mode S_IFIFO then NF4FIFO
  else if is_type mode S_IFSOCK then NF4SOCK
  else NF4REG.

(** The number of continuation bytes behind [c]. *)
Definition utf8_tail (c : Z) : option Z :=
  if c <? 128 then Some 0
  else if Z.land c 224 =? 192 then Some 1
  else if Z.land c 240 =? 224 then Some 2
  else if Z.land c 248 =? 240 then Some 3
  else None.

(** The loop from a position on; every round takes at least one byte. *)
Fixpoint utf8_loop (fuel : nat) (s : bytes) : bool :=
  match fuel, s with
  | _, [] => true
  | O, _ => false
  | S fuel, c :: s =>
      match utf8_tail c with
      | None => false
      | Some n =>
          if (n >? zlen s) && (n >? 0) then false
          else if negb (forallb (λ b, Z.land b 192 =? 128) (take (Z.to_nat n) s)) then false
          else utf8_loop fuel (drop (Z.to_nat n) s)
      end
  end.
Definition IsValidUtf8 (s : bytes) : bool := utf8_loop (length s) s.

Definition CheckName (name : bytes) : Z :=
  if zlen name =? 0 then NFS4ERR_INVAL
  else if zlen name >? kMaxName then NFS4ERR_NAMETOOLONG
  else if bytes_eqb name [46] || bytes_eqb name [46; 46] || bool_decide (47 ∈ name) then NFS4ERR_BADNAME
  else if negb (IsValidUtf8 name) then NFS4ERR_INVAL
  else NFS4_OK.

Definition NumericId (id : Z) : bytes := StringifyUint id.

Definition AccessFromMode (attr : Attr) (creds : Credentials) : Z :=
  let mode := a_mode attr in
  let perms :=
    if c_uid creds =? 0 then Z.lor 4 (if negb (Z.land mode 73 =? 0) then 1 else 0)
    else if c_uid creds =? a_uid attr then Z.land (Z.shiftr mode 6) 7
    else
      let in_group := (c_gid creds =? a_gid attr) || existsb (λ g, g =? a_gid attr) (c_gids creds) in
      if in_group then Z.land (Z.shiftr mode 3) 7 else Z.land mode 7 in
  let granted := if negb (Z.land perms 4 =? 0) then ACCESS4_READ else 0 in
  if negb (Z.land perms 1 =? 0)
  then Z.lor granted (if is_type mode S_IFDIR then ACCESS4_LOOKUP else ACCESS4_EXECUTE)
  else granted.

Definition SeqidAdvances (status : Z) : bool :=
  negb ((status =? NFS4ERR_STALE_CLIENTID) || (status =? NFS4ERR_STALE_STATEID)
        || (status =? NFS4ERR_BAD_STATEID) || (status =? NFS4ERR_BAD_SEQID)
        || (status =? NFS4ERR_BADXDR) || (status =? NFS4ERR_RESOURCE)
        || (status =? NFS4ERR_NOFILEHANDLE) || (status =? NFS4ERR_MOVED)).

Definition ErrnoToStatus (err : Z) : Z :=
  if err =? 0 then NFS4_OK
  else if err =? EPERM then NFS4ERR_PERM
  else if (err =? ENOENT) || (err =? ENODATA) then NFS4ERR_NOENT
  else if err =? EACCES then NFS4ERR_ACCESS
  else if err =? ENOTDIR then NFS4ERR_NOTDIR
  else if err =? EISDIR then NFS4ERR_ISDIR
  else if err =? EINVAL then NFS4ERR_INVAL
  else if err =? ENAMETOOLONG then NFS4ERR_NAMETOOLONG
  else if err =? EROFS then NFS4ERR_ROFS
  else if err =? ESTALE then NFS4ERR_STALE
  else if (err =? EAGAIN) || (err =? EBUSY) then NFS4ERR_DELAY
  else if err =? ENOSPC then NFS4ERR_NOSPC
  else if err =? EFBIG then NFS4ERR_FBIG
  else if err =? ERANGE then NFS4ERR_TOOSMALL
  else if err =? ELOOP then NFS4ERR_SYMLINK
  else if (err =? EMFILE) || (err =? ENFILE) then NFS4ERR_DELAY
  else NFS4ERR_IO.

(** ** Objects *)

(** [Nfs4Server::Options] *)
Record NfsOptions := mkNfsOptions {
  lease_time : Z;
  max_read : Z;
  max_compound_ops : Z;
  max_stateids : Z;
  delay_after_ms : Z;
  executor_threads : Z;
  delegations_on : bool
}.

Record Object := mkObject { o_fh : FileHandle; o_attr : Attr; o_xattr_name : bytes }.

Definition set_size (a : Attr) (mode nlink size : Z) : Attr :=
  mkAttr (a_ino a) mode nlink (a_uid a) (a_gid a) size (a_rdev a) (a_atime a) (a_mtime a) (a_ctime a).

Section Objects.
Context (B : Backend) (opts : NfsOptions).
(** The attributes of files with a recalled delegation. *)
Context (frozen_attrs : list (Z * Attr)).
Context (creds : Credentials).

Fixpoint find_hash (names : list bytes) (hash : Z) : option bytes :=
  match names with
  | [] => None
  | n :: names => if HashName n =? hash then Some n else find_hash names hash
  end.

(** A value, or a status other than [NFS4_OK] on the right. *)
Definition ResolveXattrName (ino hash : Z) : bytes + Z :=
  match b_ListXattr B ino with
  | inr e => inr (ErrnoToStatus e)
  | inl names => match find_hash names hash with Some n => inl n | None => inr NFS4ERR_STALE end
  end.

Definition Resolve (fh : FileHandle) : Object + Z :=
  match b_GetAttr B (fh_ino fh) with
  | inr e => if e =? ENOENT then inr NFS4ERR_STALE else inr (ErrnoToStatus e)
  | inl attr =>
      let attr :=
        if (fh_kind fh =? kObject) && (zlen frozen_attrs >? 0)
        then match map_find (fh_ino fh) frozen_attrs with Some a => a | None => attr end
        else attr in
      if fh_kind fh =? kAttrDir then
        inl (mkObject fh (set_size attr (Z.lor S_IFDIR 365) 2 0) [])
      else if fh_kind fh =? kNamedAttr then
        match ResolveXattrName (fh_ino fh) (fh_aux fh) with
        | inr status => inr status
        | inl name =>
            let size := match b_GetXattr B (fh_ino fh) name creds with inl v => zlen v | inr _ => 0 end in
            inl (mkObject fh (set_size attr (Z.lor S_IFREG 292) 1 size) name)
        end
      else inl (mkObject fh attr [])
  end.

Definition LookupChild (dir : Object) (name : bytes) : Object + Z :=
  let status := CheckName name in
  if negb (status =? NFS4_OK) then inr status else
  if fh_kind (o_fh dir) =? kAttrDir then
    match b_ListXattr B (fh_ino (o_fh dir)) with
    | inr e => inr (ErrnoToStatus e)
    | inl names =>
        if bool_decide (name ∈ names)
        then Resolve (mkFileHandle kNamedAttr (FsId B) (fh_ino (o_fh dir)) (HashName name))
        else inr NFS4ERR_NOENT
    end
  else if negb (fh_kind (o_fh dir) =? kObject) then inr NFS4ERR_NOTDIR
  else if is_type (a_mode (o_attr dir)) S_IFLNK then inr NFS4ERR_SYMLINK
  else if negb (is_type (a_mode (o_attr dir)) S_IFDIR) then inr NFS4ERR_NOTDIR
  else match b_Lookup B (fh_ino (o_fh dir)) name with
       | inr e => inr (ErrnoToStatus e)
       | inl attr => inl (mkObject (mkFileHandle kObject (FsId B) (a_ino attr) 0) attr [])
       end.

Definition ListChildren (dir : Object) : list DirEntry + Z :=
  if fh_kind (o_fh dir) =? kAttrDir then
    match b_ListXattr B (fh_ino (o_fh dir)) with
    | inr e => inr (ErrnoToStatus e)
    | inl names => inl ((λ n, mkDirEntry n (fh_ino (o_fh dir))) <$> names)
    end
  else if negb (fh_kind (o_fh dir) =? kObject) || negb (is_type (a_mode (o_attr dir)) S_IFDIR)
  then inr NFS4ERR_NOTDIR
  else match b_ReadDir B (fh_ino (o_fh dir)) with
       | inr e => inr (ErrnoToStatus e)
       | inl entries => inl entries
       end.

Definition FileId (obj : Object) : Z :=
  let fh := o_fh obj in
  if fh_kind fh =? kAttrDir then Z.lor (fh_ino fh) kAttrDirFileIdBit
  else if fh_kind fh =? kNamedAttr
  then Z.lor (Z.lxor (fh_ino fh) (u64 (Z.shiftl (fh_aux fh) 32))) kNamedAttrFileIdBit
  else fh_ino fh.

(** ** Attributes *)

Fixpoint bitmap_words (n : nat) (r : XdrReader) (bitmap : list Z) : outcome (list Z * XdrReader) :=
  match n with
  | O => Ret (bitmap, r)
  | S n => '(w, r) ← GetU32 r; bitmap_words n r (bitmap ++ [default 0 w])
  end.

Definition DecodeBitmap : getter (list Z) := λ r,
  '(len, r) ← GetU32 r;
  match len with
  | None => Ret (None, r)
  | Some len =>
      if len >? 8 then Ret (None, r) else
      '(bitmap, r) ← bitmap_words (Z.to_nat len) r [];
      Ret (if ok_ r then Some bitmap else None, r)
  end.

Definition str_everyone : bytes := [69; 86; 69; 82; 89; 79; 78; 69; 64].

(** The [switch] of [EncodeFattr]; [None] is its [return false]. *)
Definition encode_attr (obj : Object) (v : XdrWriter) (attr : Z) : option XdrWriter :=
  let a := o_attr obj in
  let fs := b_StatFs B in
  let among l := existsb (Z.eqb attr) l in
  if among [FATTR4_SUPPORTED_ATTRS] then Some (PutBitmap SupportedBitmap v)
  else if among [FATTR4_TYPE] then Some (PutU32 v (FileType (o_fh obj) (a_mode a)))
  else if among [FATTR4_FH_EXPIRE_TYPE] then Some (PutU32 v FH4_PERSISTENT)
  else if among [FATTR4_CHANGE] then
    Some (if fh_kind (o_fh obj) =? kObject
          then PutU64 v (Z.lxor (u64 (Z.shiftl (u64 (sec (a_ctime a))) 30)) (nsec (a_ctime a)))
          else PutU64 v (Generation B))
  else if among [FATTR4_SIZE] then Some (PutU64 v (a_size a))
  else if among [FATTR4_LINK_SUPPORT; FATTR4_SYMLINK_SUPPORT; FATTR4_UNIQUE_HANDLES; FATTR4_CASE_PRESERVING;
              FATTR4_CHOWN_RESTRICTED; FATTR4_HOMOGENEOUS; FATTR4_NO_TRUNC] then Some (PutBool v true)
  else if among [FATTR4_NAMED_ATTR] then Some (PutBool v (fh_kind (o_fh obj) =? kObject))
  else if among [FATTR4_FSID] then Some (PutU64 (PutU64 v (FsId B)) 0)
  else if among [FATTR4_LEASE_TIME] then Some (PutU32 v (lease_time opts))
  else if among [FATTR4_ACLSUPPORT] then Some (PutU32 v 0)
  else if among [FATTR4_CANSETTIME; FATTR4_CASE_INSENSITIVE] then Some (PutBool v false)
  else if among [FATTR4_FILEHANDLE] then Some (PutOpaque v (Encode (o_fh obj)))
  else if among [FATTR4_FILEID; FATTR4_MOUNTED_ON_FILEID] then Some (PutU64 v (FileId obj))
  else if among [FATTR4_FILES_AVAIL] then Some (PutU64 v (files_avail fs))
  else if among [FATTR4_FILES_FREE] then Some (PutU64 v (files_free fs))
  else if among [FATTR4_FILES_TOTAL] then Some (PutU64 v (files_total fs))
  else if among [FATTR4_MAXFILESIZE] then Some (PutU64 v (2 ^ 63 - 1))
  else if among [FATTR4_MAXLINK] then Some (PutU32 v 32000)
  else if among [FATTR4_MAXNAME] then Some (PutU32 v kMaxName)
  else if among [FATTR4_MAXREAD; FATTR4_MAXWRITE] then Some (PutU64 v (max_read opts))
  else if among [FATTR4_MODE] then Some (PutU32 v (Z.land (a_mode a) 4095))
  else if among [FATTR4_NUMLINKS] then Some (PutU32 v (a_nlink a))
  else if among [FATTR4_OWNER] then Some (PutString v (NumericId (a_uid a)))
  else if among [FATTR4_OWNER_GROUP] then Some (PutString v (NumericId (a_gid a)))
  else if among [FATTR4_RAWDEV] then Some (PutU32 (PutU32 v (u32 (Z.shiftr (a_rdev a) 32))) (u32 (a_rdev a)))
  else if among [FATTR4_SPACE_AVAIL] then Some (PutU64 v (bytes_avail fs))
  else if among [FATTR4_SPACE_FREE] then Some (PutU64 v (bytes_free fs))
  else if among [FATTR4_SPACE_TOTAL] then Some (PutU64 v (bytes_total fs))
  else if among [FATTR4_SPACE_USED] then Some (PutU64 v (a_size a))
  else if among [FATTR4_TIME_ACCESS] then Some (PutTime (a_atime a) v)
  else if among [FATTR4_TIME_DELTA] then Some (PutTime (mkTimespec 0 1) v)
  else if among [FATTR4_TIME_METADATA] then Some (PutTime (a_ctime a) v)
  else if among [FATTR4_TIME_MODIFY] then Some (PutTime (a_mtime a) v)
  else None.

Fixpoint encode_attrs (obj : Object) (returned : list Z) (attrs : list Z) (v : XdrWriter) : option XdrWriter :=
  match attrs with
  | [] => Some v
  | attr :: attrs =>
      if negb (IsSet returned attr) then encode_attrs obj returned attrs v
      else match encode_attr obj v attr with
           | None => None
           | Some v => encode_attrs obj returned attrs v
           end
  end.

(** The words that are returned: the requested ones that are supported, without
    the attribute for errors. *)
Definition returned_words (request : list Z) : list Z :=
  let w i := match lget request i, lget SupportedBitmap i with
             | Some r, Some s => Z.land r s
             | _, _ => 0
             end in
  [Z.land (w 0) (2 ^ 32 - 1 - Z.shiftl 1 FATTR4_RDATTR_ERROR); w 1].

Definition EncodeFattr (obj : Object) (request : list Z) (out : XdrWriter) : bool * XdrWriter :=
  let returned := returned_words request in
  match encode_attrs obj returned (seqZ 0 (32 * kNumBitmapWords)) [] with
  | None => (false, out)
  | Some v => (true, PutOpaque (PutBitmap returned out) v)
  end.
End Objects.
