(* ===== verification/NfsServer.v ===== *)
(** * NFS server: state and operations (src/cvmfs/nfs4/nfs4_server.{h,cc})

    The tables of clients, open-owners, open files and delegations, the
    functions that work on them with [state_lock_] held, the critical sections of
    the operations, and those of the thread that recalls delegations. *)

From stdpp Require Import base numbers list gmap.
From S2P Require Import Prelude Bytes StringUtil StdMap NfsConst Xdr FileHandle Rpc Callback NfsObject.

Open Scope Z_scope.

(** ** State *)

Record Stateid := mkStateid { si_seqid : Z; si_other : bytes }.

Record Client := mkClient {
  cl_name : bytes;
  cl_verifier : bytes;
  cl_confirm : bytes;
  cl_confirmed : bool;
  cl_callback : option CallbackClient;
  cl_callback_ok : bool
}.

(** [Client::Client] *)
Definition new_client : Client := mkClient [] [] [] false None false.

Record Delegation := mkDelegation {
  d_clientid : Z;
  d_fh : FileHandle;
  d_seqid : Z;
  d_recalled : Z;
  d_attr : Attr
}.

Definition OwnerKey : Type := Z * bytes.

Record OpenOwner := mkOwner {
  ow_seqid : Z;
  ow_last_op : Z;
  ow_last_status : Z;
  ow_last_body : bytes
}.

Record OpenState := mkOpen {
  os_seqid : Z;
  os_owner : OwnerKey;
  os_fh : FileHandle;
  os_access : Z
}.

(** [next_callback] numbers the callback objects, [forgotten] lists the calls of
    [Backend::Forget]. *)
Record Nfs := mkNfs {
  boot : Z;
  next_clientid : Z;
  next_stateid : Z;
  clients : list (Z * Client);
  owners : list (OwnerKey * OpenOwner);
  open_states : list (bytes * OpenState);
  delegations : list (bytes * Delegation);
  recalled_files : gset (Z * Z);
  frozen_attrs : list (Z * Attr);
  pending_probes : list Z;
  last_generation : Z;
  next_callback : Z;
  forgotten : list Z
}.

(** [Nfs4Server::Nfs4Server] *)
Definition new_nfs (now : Z) : Nfs := mkNfs (u32 now) 1 1 [] [] [] [] ∅ [] [] 0 0 [].

Definition set_ids (s : Nfs) (nc ns : Z) : Nfs :=
  mkNfs (boot s) nc ns (clients s) (owners s) (open_states s) (delegations s) (recalled_files s)
    (frozen_attrs s) (pending_probes s) (last_generation s) (next_callback s) (forgotten s).
Definition set_clients (s : Nfs) (c : list (Z * Client)) : Nfs :=
  mkNfs (boot s) (next_clientid s) (next_stateid s) c (owners s) (open_states s) (delegations s)
    (recalled_files s) (frozen_attrs s) (pending_probes s) (last_generation s) (next_callback s) (forgotten s).
Definition set_owners (s : Nfs) (o : list (OwnerKey * OpenOwner)) : Nfs :=
  mkNfs (boot s) (next_clientid s) (next_stateid s) (clients s) o (open_states s) (delegations s)
    (recalled_files s) (frozen_attrs s) (pending_probes s) (last_generation s) (next_callback s) (forgotten s).
Definition set_opens (s : Nfs) (o : list (bytes * OpenState)) : Nfs :=
  mkNfs (boot s) (next_clientid s) (next_stateid s) (clients s) (owners s) o (delegations s)
    (recalled_files s) (frozen_attrs s) (pending_probes s) (last_generation s) (next_callback s) (forgotten s).
Definition set_delegations (s : Nfs) (d : list (bytes * Delegation)) : Nfs :=
  mkNfs (boot s) (next_clientid s) (next_stateid s) (clients s) (owners s) (open_states s) d
    (recalled_files s) (frozen_attrs s) (pending_probes s) (last_generation s) (next_callback s) (forgotten s).
Definition set_recalled (s : Nfs) (r : gset (Z * Z)) : Nfs :=
  mkNfs (boot s) (next_clientid s) (next_stateid s) (clients s) (owners s) (open_states s) (delegations s)
    r (frozen_attrs s) (pending_probes s) (last_generation s) (next_callback s) (forgotten s).
Definition set_frozen (s : Nfs) (f : list (Z * Attr)) : Nfs :=
  mkNfs (boot s) (next_clientid s) (next_stateid s) (clients s) (owners s) (open_states s) (delegations s)
    (recalled_files s) f (pending_probes s) (last_generation s) (next_callback s) (forgotten s).
Definition set_probes (s : Nfs) (p : list Z) : Nfs :=
  mkNfs (boot s) (next_clientid s) (next_stateid s) (clients s) (owners s) (open_states s) (delegations s)
    (recalled_files s) (frozen_attrs s) p (last_generation s) (next_callback s) (forgotten s).
Definition set_generation (s : Nfs) (g : Z) : Nfs :=
  mkNfs (boot s) (next_clientid s) (next_stateid s) (clients s) (owners s) (open_states s) (delegations s)
    (recalled_files s) (frozen_attrs s) (pending_probes s) g (next_callback s) (forgotten s).
Definition set_next_callback (s : Nfs) (n : Z) : Nfs :=
  mkNfs (boot s) (next_clientid s) (next_stateid s) (clients s) (owners s) (open_states s) (delegations s)
    (recalled_files s) (frozen_attrs s) (pending_probes s) (last_generation s) n (forgotten s).
Definition add_forgotten (s : Nfs) (ino : Z) : Nfs :=
  mkNfs (boot s) (next_clientid s) (next_stateid s) (clients s) (owners s) (open_states s) (delegations s)
    (recalled_files s) (frozen_attrs s) (pending_probes s) (last_generation s) (next_callback s) (forgotten s ++ [ino]).

(** ** Functions that are called with [state_lock_] held *)

Definition PutStateid (stateid : Stateid) (w : XdrWriter) : XdrWriter :=
  let w := PutU32 w (si_seqid stateid) in
  PutFixedOpaque w (si_other stateid).

Definition GetStateid : getter Stateid := λ r,
  '(seqid, r) ← GetU32 r;
  match seqid with
  | None => Ret (None, r)
  | Some seqid =>
      '(other, r) ← GetFixedOpaque kStateidOtherSize r;
      Ret (option_map (mkStateid seqid) other, r)
  end.

Definition NewStateidOther (s : Nfs) : bytes * Nfs :=
  let w := PutU32 [] (boot s) in
  let w := PutU64 w (next_stateid s) in
  (w, set_ids s (next_clientid s) (u64 (next_stateid s + 1))).

Definition CheckClient (s : Nfs) (clientid : Z) : Z :=
  if negb (u32 (Z.shiftr clientid 32) =? boot s) then NFS4ERR_STALE_CLIENTID else
  match map_find clientid (clients s) with
  | None => NFS4ERR_STALE_CLIENTID
  | Some c => if negb (cl_confirmed c) then NFS4ERR_STALE_CLIENTID else NFS4_OK
  end.

Inductive SeqidCheck :=
| SeqidProcess
| SeqidReplay (status : Z) (body : bytes)
| SeqidBad (status : Z).

Definition CheckSeqid (s : Nfs) (owner : OwnerKey) (seqid op : Z) (create_owner : bool) : SeqidCheck :=
  match map_find owner (owners s) with
  | None => if negb create_owner then SeqidBad NFS4ERR_BAD_SEQID else SeqidProcess
  | Some o =>
      if seqid =? u32 (ow_seqid o + 1) then SeqidProcess
      else if (seqid =? ow_seqid o) && (ow_last_op o =? op) then SeqidReplay (ow_last_status o) (ow_last_body o)
      else SeqidBad NFS4ERR_BAD_SEQID
  end.

Definition RecordSeqid (s : Nfs) (owner : OwnerKey) (seqid op status : Z) (body : bytes) : Nfs :=
  if negb (SeqidAdvances status) then s
  else set_owners s (map_set owner (mkOwner seqid op status body) (owners s)).

(** The first word of a stateid. *)
Definition stateid_boot (other : bytes) : Z :=
  match GetU32 (new_reader other) with Ret (Some b, _) => b | _ => 0 end.

(** The entry of [stateid], or a status. *)
Definition FindOpenState (s : Nfs) (stateid : Stateid) (exact_seqid : bool) : OpenState + Z :=
  if negb (stateid_boot (si_other stateid) =? boot s) then inr NFS4ERR_STALE_STATEID else
  match map_find (si_other stateid) (open_states s) with
  | None => inr NFS4ERR_BAD_STATEID
  | Some o =>
      if si_seqid stateid >? os_seqid o then inr NFS4ERR_BAD_STATEID
      else if exact_seqid && (si_seqid stateid <? os_seqid o) then inr NFS4ERR_OLD_STATEID
      else inl o
  end.

Definition CheckReadStateid (s : Nfs) (stateid : Stateid) (fh : FileHandle) : Z :=
  let zeros := repeat 0 (Z.to_nat kStateidOtherSize) in
  let ones := repeat 255 (Z.to_nat kStateidOtherSize) in
  if ((si_seqid stateid =? 0) && bytes_eqb (si_other stateid) zeros)
     || ((si_seqid stateid =? 4294967295) && bytes_eqb (si_other stateid) ones) then NFS4_OK else
  match FindOpenState s stateid false with
  | inl o => if negb (bool_decide (os_fh o = fh)) then NFS4ERR_BAD_STATEID else NFS4_OK
  | inr status =>
      if (status =? NFS4ERR_BAD_STATEID)
         && match map_find (si_other stateid) (delegations s) with
            | Some d => bool_decide (d_fh d = fh)
            | None => false
            end
      then NFS4_OK else status
  end.

Fixpoint freeze (ds : list (bytes * Delegation)) (frozen : list (Z * Attr)) : list (Z * Attr) :=
  match ds with
  | [] => frozen
  | (_, d) :: ds =>
      freeze ds (if negb (d_recalled d =? 0) then map_set (fh_ino (d_fh d)) (d_attr d) frozen else frozen)
  end.
(** [num_frozen_attrs_] is the length of the list. *)
Definition UpdateFrozenAttrs (s : Nfs) : Nfs := set_frozen s (freeze (delegations s) []).

Definition DropClient (s : Nfs) (clientid : Z) : Nfs :=
  let s := set_clients s (map_erase clientid (clients s)) in
  let s := set_recalled s (filter (λ p, p.1 ≠ clientid) (recalled_files s)) in
  let s := set_delegations s (filter (λ p, d_clientid p.2 ≠ clientid) (delegations s)) in
  let s := set_opens s (filter (λ p, (os_owner p.2).1 ≠ clientid) (open_states s)) in
  let s := set_owners s (filter (λ p, p.1.1 ≠ clientid) (owners s)) in
  UpdateFrozenAttrs s.

Section Server.
Context (opts : NfsOptions).

Definition may_grant (s : Nfs) (clientid : Z) (fh : FileHandle) : bool :=
  delegations_on opts && (fh_kind fh =? kObject)
  && match map_find clientid (clients s) with Some c => cl_callback_ok c | None => false end
  && forallb (λ p : bytes * Delegation,
       negb (((d_clientid p.2 =? clientid) && bool_decide (d_fh p.2 = fh)) || negb (d_recalled p.2 =? 0)))
       (delegations s).

Definition PutDelegation (s : Nfs) (clientid : Z) (fh : FileHandle) (attr : Attr) (w : XdrWriter)
    : XdrWriter * Nfs :=
  let grant := may_grant s clientid fh in
  let key := (clientid, fh_ino fh) in
  let '(grant, s) :=
    if grant && bool_decide (key ∈ recalled_files s)
    then (false, set_recalled s (recalled_files s ∖ {[key]})) else (grant, s) in
  if negb grant || (zlen (delegations s) >=? max_stateids opts) then (PutU32 w OPEN_DELEGATE_NONE, s) else
  let '(other, s) := NewStateidOther s in
  let s := set_delegations s (map_set other (mkDelegation clientid fh 1 0 attr) (delegations s)) in
  let w := PutU32 w OPEN_DELEGATE_READ in
  let w := PutStateid (mkStateid 1 other) w in
  let w := PutBool w false in
  let w := PutU32 w 0 in
  let w := PutU32 w 0 in
  let w := PutU32 w 0 in
  let w := PutString w str_everyone in
  (w, s).

(** ** The critical sections of the operations *)

(** The first client that passes [P]. *)
Fixpoint find_client (P : Client → bool) (cs : list (Z * Client)) : option Z :=
  match cs with
  | [] => None
  | (id, c) :: cs => if P c then Some id else find_client P cs
  end.

Section Setclientid.
Context (inet_pton : bytes → bool).

Definition setclientid (s : Nfs) (now : Z) (verf name : bytes) (cb_program cb_ident : Z) (netid addr : bytes)
    : Z * bytes * Nfs :=
  let same c := bytes_eqb (cl_name c) name && cl_confirmed c && bytes_eqb (cl_verifier c) verf in
  let clientid := default 0 (find_client same (clients s)) in
  let '(clientid, s) :=
    if clientid =? 0 then
      let others := filter (λ p : Z * Client, ¬ (cl_name p.2 = name ∧ cl_confirmed p.2 = false)) (clients s) in
      let id := Z.lor (u64 (Z.shiftl (boot s) 32)) (next_clientid s) in
      let s := set_ids s (u32 (next_clientid s + 1)) (next_stateid s) in
      let c := default new_client (map_find id others) in
      let c := mkClient name verf (cl_confirm c) (cl_confirmed c) (cl_callback c) (cl_callback_ok c) in
      (id, set_clients s (map_set id c others))
    else (clientid, s) in
  let confirm := PutU64 [] (Z.lxor (u64 (Z.shiftl (next_clientid s) 32)) (u64 now)) in
  let s := set_ids s (u32 (next_clientid s + 1)) (next_stateid s) in
  let c := default new_client (map_find clientid (clients s)) in
  if delegations_on opts then
    let cb := new_callback inet_pton (next_callback s) cb_program cb_ident netid addr in
    let c := mkClient (cl_name c) (cl_verifier c) confirm (cl_confirmed c) (Some cb) false in
    (clientid, confirm, set_next_callback (set_clients s (map_set clientid c (clients s))) (next_callback s + 1))
  else
    let c := mkClient (cl_name c) (cl_verifier c) confirm (cl_confirmed c) (cl_callback c) (cl_callback_ok c) in
    (clientid, confirm, set_clients s (map_set clientid c (clients s))).
End Setclientid.

Definition setclientid_confirm (s : Nfs) (clientid : Z) (confirm : bytes) : Z * Nfs :=
  match map_find clientid (clients s) with
  | None => (NFS4ERR_STALE_CLIENTID, s)
  | Some c =>
      if negb (bytes_eqb (cl_confirm c) confirm) then (NFS4ERR_STALE_CLIENTID, s) else
      let s := if delegations_on opts && match cl_callback c with Some cb => valid cb | None => false end
               then set_probes s (pending_probes s ++ [clientid]) else s in
      if cl_confirmed c then (NFS4_OK, s) else
      let c' := mkClient (cl_name c) (cl_verifier c) (cl_confirm c) true (cl_callback c) (cl_callback_ok c) in
      let s := set_clients s (map_set clientid c' (clients s)) in
      let previous := (filter (λ p : Z * Client, p.1 ≠ clientid ∧ cl_name p.2 = cl_name c) (clients s)).*1 in
      (NFS4_OK, foldl DropClient s previous)
  end.

(** The first critical section of OPEN. *)
Definition open_check (s : Nfs) (owner : OwnerKey) (seqid : Z) : SeqidCheck :=
  let status := CheckClient s owner.1 in
  if negb (status =? NFS4_OK) then SeqidBad status else CheckSeqid s owner seqid OP_OPEN true.

Fixpoint find_open (owner : OwnerKey) (fh : FileHandle) (os : list (bytes * OpenState)) : option (bytes * OpenState) :=
  match os with
  | [] => None
  | (k, o) :: os =>
      if bool_decide (os_owner o = owner) && bool_decide (os_fh o = fh) then Some (k, o) else find_open owner fh os
  end.

(** The open state of an owner and file: the present one or a new one. *)
Definition open_entry (s : Nfs) (owner : OwnerKey) (fh : FileHandle) : option (bytes * OpenState * Nfs) :=
  match find_open owner fh (open_states s) with
  | Some (k, o) => Some (k, o, s)
  | None =>
      if zlen (open_states s) >=? max_stateids opts then None
      else let '(k, s) := NewStateidOther s in Some (k, mkOpen 0 owner fh 0, s)
  end.

(** The second critical section of OPEN, with the object to open or the status
    of finding it: status, results and state. *)
Definition open_commit (s : Nfs) (owner : OwnerKey) (seqid share_access claim_type : Z) (target : Object + Z)
    : Z * bytes * Nfs :=
  match target with
  | inr status => (status, [], RecordSeqid s owner seqid OP_OPEN status [])
  | inl target =>
      match open_entry s owner (o_fh target) with
      | None => (NFS4ERR_RESOURCE, [], s)
      | Some (k, o, s) =>
          let o := mkOpen (u32 (os_seqid o + 1)) (os_owner o) (os_fh o) (Z.lor (os_access o) share_access) in
          let s := set_opens s (map_set k o (open_states s)) in
          let result := PutStateid (mkStateid (os_seqid o) k) [] in
          let result := PutBool result true in
          let result := PutU64 result 0 in
          let result := PutU64 result 0 in
          let result := PutU32 result OPEN4_RESULT_LOCKTYPE_POSIX in
          let result := PutU32 result 0 in
          let '(result, s) :=
            if claim_type =? CLAIM_NULL then PutDelegation s owner.1 (o_fh target) (o_attr target) result
            else (PutU32 result OPEN_DELEGATE_NONE, s) in
          (NFS4_OK, result, RecordSeqid s owner seqid OP_OPEN NFS4_OK result)
      end
  end.

Definition open_confirm (s : Nfs) (stateid : Stateid) (seqid : Z) : Z * bytes * Nfs :=
  match FindOpenState s stateid true with
  | inr status => (status, [], s)
  | inl o =>
      match CheckSeqid s (os_owner o) seqid OP_OPEN_CONFIRM false with
      | SeqidBad status => (status, [], s)
      | SeqidReplay status body => (status, body, s)
      | SeqidProcess =>
          let o := mkOpen (u32 (os_seqid o + 1)) (os_owner o) (os_fh o) (os_access o) in
          let s := set_opens s (map_set (si_other stateid) o (open_states s)) in
          let w := PutStateid (mkStateid (os_seqid o) (si_other stateid)) [] in
          (NFS4_OK, w, RecordSeqid s (os_owner o) seqid OP_OPEN_CONFIRM NFS4_OK w)
      end
  end.

Definition open_downgrade (s : Nfs) (stateid : Stateid) (seqid share_access : Z) : Z * bytes * Nfs :=
  match FindOpenState s stateid true with
  | inr status => (status, [], s)
  | inl o =>
      match CheckSeqid s (os_owner o) seqid OP_OPEN_DOWNGRADE false with
      | SeqidBad status => (status, [], s)
      | SeqidReplay status body => (status, body, s)
      | SeqidProcess =>
          if negb (Z.land share_access (2 ^ 32 - 1 - os_access o) =? 0)
          then (NFS4ERR_INVAL, [], RecordSeqid s (os_owner o) seqid OP_OPEN_DOWNGRADE NFS4ERR_INVAL [])
          else
            let o := mkOpen (u32 (os_seqid o + 1)) (os_owner o) (os_fh o) share_access in
            let s := set_opens s (map_set (si_other stateid) o (open_states s)) in
            let w := PutStateid (mkStateid (os_seqid o) (si_other stateid)) [] in
            (NFS4_OK, w, RecordSeqid s (os_owner o) seqid OP_OPEN_DOWNGRADE NFS4_OK w)
      end
  end.

(** The cached reply to a CLOSE that is sent again. *)
Fixpoint find_close (seqid : Z) (other : bytes) (os : list (OwnerKey * OpenOwner)) : option OpenOwner :=
  match os with
  | [] => None
  | (_, o) :: os =>
      if (ow_last_op o =? OP_CLOSE) && (ow_seqid o =? seqid)
         && (zlen (ow_last_body o) =? 4 + kStateidOtherSize)
         && bytes_eqb (substr (ow_last_body o) 4 kStateidOtherSize) other
      then Some o else find_close seqid other os
  end.

(** Status, results, the inode to forget (0 for none), state. *)
Definition close_file (s : Nfs) (seqid : Z) (stateid : Stateid) : Z * bytes * Z * Nfs :=
  match FindOpenState s stateid true with
  | inr status =>
      match (if status =? NFS4ERR_BAD_STATEID then find_close seqid (si_other stateid) (owners s) else None) with
      | Some owner => (ow_last_status owner, ow_last_body owner, 0, s)
      | None => (status, [], 0, s)
      end
  | inl o =>
      match CheckSeqid s (os_owner o) seqid OP_CLOSE false with
      | SeqidBad status => (status, [], 0, s)
      | SeqidReplay status body => (status, body, 0, s)
      | SeqidProcess =>
          let fh := os_fh o in
          let s := set_opens s (map_erase (si_other stateid) (open_states s)) in
          let still_open := existsb (λ p : bytes * OpenState, fh_ino (os_fh p.2) =? fh_ino fh) (open_states s) in
          let forget_ino := if negb still_open && (fh_kind fh =? kObject) then fh_ino fh else 0 in
          let w := PutStateid (mkStateid (u32 (os_seqid o + 1)) (si_other stateid)) [] in
          (NFS4_OK, w, forget_ino, RecordSeqid s (os_owner o) seqid OP_CLOSE NFS4_OK w)
      end
  end.

Definition delegreturn (s : Nfs) (stateid : Stateid) : Z * Nfs :=
  if negb (stateid_boot (si_other stateid) =? boot s) then (NFS4ERR_STALE_STATEID, s) else
  match map_find (si_other stateid) (delegations s) with
  | None => (NFS4ERR_BAD_STATEID, s)
  | Some _ =>
      let s := set_delegations s (map_erase (si_other stateid) (delegations s)) in
      (NFS4_OK, if zlen (frozen_attrs s) >? 0 then UpdateFrozenAttrs s else s)
  end.

(** ** The monitor thread *)

(** Takes the clients whose callback path is to be probed. *)
Definition monitor_probes (s : Nfs) : list (Z * CallbackClient) * Nfs :=
  (omap (λ id, match map_find id (clients s) with
               | Some c => option_map (pair id) (cl_callback c)
               | None => None
               end) (pending_probes s),
   set_probes s []).

Definition probe_result (s : Nfs) (p : Z * CallbackClient * bool) : Nfs :=
  let '(id, cb, ok) := p in
  match map_find id (clients s) with
  | Some c =>
      if bool_decide (cl_callback c = Some cb)
      then set_clients s (map_set id
             (mkClient (cl_name c) (cl_verifier c) (cl_confirm c) (cl_confirmed c) (cl_callback c) ok) (clients s))
      else s
  | None => s
  end.

Record RecallMsg := mkRecall { rc_other : bytes; rc_seqid : Z; rc_fh : bytes; rc_callback : CallbackClient }.

(** The loop over the delegations: those that stay, the files with a recall,
    the messages. *)
Fixpoint recall_loop (cs : list (Z * Client)) (now : Z) (changed : bool) (ds : list (bytes * Delegation))
    : list (bytes * Delegation) * gset (Z * Z) * list RecallMsg :=
  match ds with
  | [] => ([], ∅, [])
  | (k, d) :: ds =>
      let '(rest, files, msgs) := recall_loop cs now changed ds in
      if negb (d_recalled d =? 0) && (now - d_recalled d >? lease_time opts) then (rest, files, msgs)
      else if changed && (d_recalled d =? 0) then
        match match map_find (d_clientid d) cs with Some c => cl_callback c | None => None end with
        | None => (rest, files, msgs)
        | Some cb =>
            ((k, mkDelegation (d_clientid d) (d_fh d) (d_seqid d) now (d_attr d)) :: rest,
             {[(d_clientid d, fh_ino (d_fh d))]} ∪ files,
             mkRecall k (d_seqid d) (Encode (d_fh d)) cb :: msgs)
        end
      else ((k, d) :: rest, files, msgs)
  end.

(** Between the probes and the recalls. *)
Definition monitor_recall (s : Nfs) (probes : list (Z * CallbackClient * bool)) (generation now : Z)
    : list RecallMsg * Nfs :=
  let s := foldl probe_result s probes in
  let changed := negb (last_generation s =? 0) && negb (generation =? last_generation s) in
  let s := set_generation s generation in
  let '(ds, files, msgs) := recall_loop (clients s) now changed (delegations s) in
  let s := set_recalled (set_delegations s ds) (files ∪ recalled_files s) in
  (msgs, UpdateFrozenAttrs s).

(** After the recalls, with those that failed. *)
Definition monitor_failed (s : Nfs) (failed : list bytes) : Nfs :=
  UpdateFrozenAttrs (foldl (λ s k, set_delegations s (map_erase k (delegations s))) s failed).
End Server.
