(* ===== verification/NfsOps.v ===== *)
(** * NFS server: the operations of a COMPOUND (src/cvmfs/nfs4/nfs4_server.cc)

    Every operation reads its arguments, works on the current file handle and
    on the state of the server, and appends its results.  The operations are
    programs in a monad whose [inr status] is a [return status] of the code. *)

From stdpp Require Import base numbers list gmap.
From S2P Require Import Prelude Bytes StringUtil StdMap NfsConst Xdr FileHandle Rpc Callback NfsObject NfsServer.

Open Scope Z_scope.

Record Compound := mkCompound { has_fh : bool; cur_fh : FileHandle; has_saved : bool; saved_fh : FileHandle }.
Definition no_fh : FileHandle := mkFileHandle kObject 0 0 0.
Definition new_compound : Compound := mkCompound false no_fh false no_fh.

Record Ctx := mkCtx { args : XdrReader; comp : Compound; body : XdrWriter; srv : Nfs }.

Definition M (A : Type) : Type := Ctx → outcome (Ctx * (A + Z)).

Definition m_ret {A} (a : A) : M A := λ x, Ret (x, inl a).
Definition m_bind {A B} (m : M A) (f : A → M B) : M B := λ x,
  '(x, r) ← m x;
  match r with
  | inl a => f a x
  | inr status => Ret (x, inr status)
  end.

Declare Scope nfs_scope.
Delimit Scope nfs_scope with nfs.
Notation "x <~ m ; k" := (m_bind m (λ x, k)) (at level 100, m at next level, right associativity) : nfs_scope.
Notation "m ;; k" := (m_bind m (λ _, k)) (at level 100, right associativity) : nfs_scope.
Open Scope nfs_scope.

(** [return status] *)
Definition return_ {A} (status : Z) : M A := λ x, Ret (x, inr status).

(** A getter whose failure returns [err], and one whose result is not looked at. *)
Definition get {A} (g : getter A) (err : Z) : M A := λ x,
  '(o, r) ← g (args x);
  Ret (mkCtx r (comp x) (body x) (srv x), match o with Some v => inl v | None => inr err end).
Definition get_unchecked {A} (g : getter A) (d : A) : M A := λ x,
  '(o, r) ← g (args x);
  Ret (mkCtx r (comp x) (body x) (srv x), inl (default d o)).
Definition args_ok : M bool := λ x, Ret (x, inl (ok_ (args x))).

(** [if (!b) return status] *)
Definition check (b : bool) (status : Z) : M unit := if b then m_ret tt else return_ status.
Definition lift {A} (r : A + Z) : M A := λ x, Ret (x, r).
Definition get_comp : M Compound := λ x, Ret (x, inl (comp x)).
Definition set_fh (fh : FileHandle) : M unit := λ x,
  Ret (mkCtx (args x) (mkCompound true fh (has_saved (comp x)) (saved_fh (comp x))) (body x) (srv x), inl tt).
Definition set_comp (c : Compound) : M unit := λ x, Ret (mkCtx (args x) c (body x) (srv x), inl tt).
(** [if (!c->has_fh) return NFS4ERR_NOFILEHANDLE] *)
Definition need_fh : M FileHandle := λ x,
  Ret (x, if has_fh (comp x) then inl (cur_fh (comp x)) else inr NFS4ERR_NOFILEHANDLE).
Definition put (f : XdrWriter → XdrWriter) : M unit := λ x,
  Ret (mkCtx (args x) (comp x) (f (body x)) (srv x), inl tt).
Definition get_body : M XdrWriter := λ x, Ret (x, inl (body x)).
Definition get_srv : M Nfs := λ x, Ret (x, inl (srv x)).
Definition put_srv (s : Nfs) : M unit := λ x, Ret (mkCtx (args x) (comp x) (body x) s, inl tt).

Section Ops.
Context (B : Backend) (opts : NfsOptions) (inet_pton : bytes → bool) (now : Z) (creds : Credentials).

Definition resolve (fh : FileHandle) : M Object :=
  s <~ get_srv; lift (Resolve B (frozen_attrs s) creds fh).
Definition lookup_child (dir : Object) (name : bytes) : M Object :=
  s <~ get_srv; lift (LookupChild B (frozen_attrs s) creds dir name).

Definition OpAccess : M unit :=
  requested <~ get GetU32 NFS4ERR_BADXDR;
  fh <~ need_fh;
  obj <~ resolve fh;
  let supported := Z.land requested
    (Z.lor (Z.lor (Z.lor (Z.lor (Z.lor ACCESS4_READ ACCESS4_LOOKUP) ACCESS4_MODIFY) ACCESS4_EXTEND)
              ACCESS4_DELETE) ACCESS4_EXECUTE) in
  put (λ w, PutU32 w supported);;
  put (λ w, PutU32 w (Z.land (AccessFromMode (o_attr obj) creds) supported)).

Definition OpGetattr : M unit :=
  request <~ get DecodeBitmap NFS4ERR_BADXDR;
  fh <~ need_fh;
  obj <~ resolve fh;
  w <~ get_body;
  let '(ok, w) := EncodeFattr B opts obj request w in
  check ok NFS4ERR_SERVERFAULT;;
  put (λ _, w).

Definition OpGetfh : M unit :=
  fh <~ need_fh;
  put (λ w, PutOpaque w (Encode fh)).

Definition OpLookup : M unit :=
  name <~ get (GetString kNfs4OpaqueLimit) NFS4ERR_BADXDR;
  fh <~ need_fh;
  dir <~ resolve fh;
  child <~ lookup_child dir name;
  set_fh (o_fh child).

Definition OpLookupp : M unit :=
  fh <~ need_fh;
  if fh_kind fh =? kAttrDir then set_fh (mkFileHandle kObject (fh_fsid fh) (fh_ino fh) (fh_aux fh))
  else if fh_kind fh =? kNamedAttr then set_fh (mkFileHandle kAttrDir (fh_fsid fh) (fh_ino fh) 0)
  else
    obj <~ resolve fh;
    let mode := a_mode (o_attr obj) in
    check (is_type mode S_IFDIR) (if is_type mode S_IFLNK then NFS4ERR_SYMLINK else NFS4ERR_NOTDIR);;
    check (negb (fh_ino fh =? RootInode B)) NFS4ERR_NOENT;;
    parent <~ lift (match b_LookupParent B (fh_ino fh) with inl a => inl a | inr e => inr (ErrnoToStatus e) end);
    set_fh (mkFileHandle kObject (FsId B) (a_ino parent) 0).

(** Some requested attribute is not supported. *)
Fixpoint unsupported (request : list Z) (supported : list Z) : bool :=
  match request with
  | [] => false
  | r :: request =>
      negb (Z.land r (2 ^ 32 - 1 - hd 0 supported) =? 0) || unsupported request (tl supported)
  end.

Definition OpVerify (negate : bool) : M unit :=
  request <~ get DecodeBitmap NFS4ERR_BADXDR;
  values <~ get (GetOpaque 0) NFS4ERR_BADXDR;
  fh <~ need_fh;
  check (negb (unsupported request SupportedBitmap)) NFS4ERR_ATTRNOTSUPP;;
  check (negb (IsSet request FATTR4_RDATTR_ERROR)) NFS4ERR_INVAL;;
  obj <~ resolve fh;
  let '(_, mine) := EncodeFattr B opts obj request [] in
  my_values <~ (λ x,
    '(_, r) ← DecodeBitmap (new_reader mine);
    '(v, _) ← GetOpaque 0 r;
    Ret (x, inl (default [] v)));
  let same := bytes_eqb my_values values in
  if negate then check (negb same) NFS4ERR_SAME else check same NFS4ERR_NOT_SAME.

Definition OpOpenattr : M unit :=
  _create_dir <~ get GetBool NFS4ERR_BADXDR;
  fh <~ need_fh;
  check (fh_kind fh =? kObject) NFS4ERR_INVAL;;
  _obj <~ resolve fh;
  set_fh (mkFileHandle kAttrDir (fh_fsid fh) (fh_ino fh) 0).

Definition OpPutfh : M unit :=
  raw <~ get (GetOpaque kNfs4FhSize) NFS4ERR_BADXDR;
  o <~ (λ x, o ← Decode raw; Ret (x, inl o));
  match o with
  | None => return_ NFS4ERR_BADHANDLE
  | Some fh =>
      check (fh_fsid fh =? FsId B) NFS4ERR_STALE;;
      set_fh fh
  end.

Definition OpRead : M unit :=
  stateid <~ get GetStateid NFS4ERR_BADXDR;
  offset <~ get GetU64 NFS4ERR_BADXDR;
  count <~ get GetU32 NFS4ERR_BADXDR;
  fh <~ need_fh;
  obj <~ resolve fh;
  let mode := a_mode (o_attr obj) in
  check (negb ((fh_kind (o_fh obj) =? kAttrDir) || is_type mode S_IFDIR)) NFS4ERR_ISDIR;;
  check (is_type mode S_IFREG) NFS4ERR_INVAL;;
  s <~ get_srv;
  let status := CheckReadStateid s stateid fh in
  check (status =? NFS4_OK) status;;
  let count := if count >? max_read opts then max_read opts else count in
  if fh_kind (o_fh obj) =? kNamedAttr then
    value <~ lift (match b_GetXattr B (fh_ino (o_fh obj)) (o_xattr_name obj) creds with
                   | inl v => inl v | inr e => inr (ErrnoToStatus e) end);
    let data := if offset <? zlen value then substr value offset count else [] in
    put (λ w, PutBool w (u64 (offset + zlen data) >=? zlen value));;
    put (λ w, PutOpaque w data)
  else
    data <~ (if count >? 0
             then lift (match b_Read B (fh_ino (o_fh obj)) offset count with
                        | inl d => inl d | inr e => inr (ErrnoToStatus e) end)
             else m_ret []);
    put (λ w, PutBool w ((zlen data <? count) || (u64 (offset + zlen data) >=? a_size (o_attr obj))));;
    put (λ w, PutOpaque w data).

(** The entry at [index], if it is listed. *)
Definition readdir_entry (frozen : list (Z * Attr)) (dir : Object) (request : list Z) (index : Z) (e : DirEntry)
    : option XdrWriter :=
  if negb (IsValidUtf8 (de_name e)) then None else
  let entry := PutBool [] true in
  let entry := PutU64 entry (index + 3) in
  let entry := PutString entry (de_name e) in
  match LookupChild B frozen creds dir (de_name e) with
  | inl child => Some (EncodeFattr B opts child request entry).2
  | inr child_status =>
      if IsSet request FATTR4_RDATTR_ERROR then
        let entry := PutBitmap [Z.shiftl 1 FATTR4_RDATTR_ERROR] entry in
        let value := PutU32 [] child_status in
        Some (PutOpaque entry value)
      else None
  end.

(** The loop over the entries from [index] on: the index where it stops and the
    buffer, or NFS4ERR_TOOSMALL. *)
Fixpoint readdir_loop (frozen : list (Z * Attr)) (dir : Object) (request : list Z) (maxcount : Z)
    (entries : list DirEntry) (index num_encoded : Z) (w : XdrWriter) : (Z * XdrWriter) + Z :=
  match entries with
  | [] => inl (index, w)
  | e :: entries =>
      match readdir_entry frozen dir request index e with
      | None => readdir_loop frozen dir request maxcount entries (index + 1) num_encoded w
      | Some entry =>
          let fixed_size := kNfs4VerifierSize + 4 + 4 in
          if zlen w + zlen entry + fixed_size - kNfs4VerifierSize >? maxcount
          then if num_encoded =? 0 then inr NFS4ERR_TOOSMALL else inl (index, w)
          else readdir_loop frozen dir request maxcount entries (index + 1) (num_encoded + 1) (PutRaw w entry)
      end
  end.

(** READDIR with its arguments decoded. *)
Definition readdir_page (cookie : Z) (verifier : bytes) (maxcount : Z) (request : list Z) : M unit :=
  fh <~ need_fh;
  dir <~ resolve fh;
  check (negb ((fh_kind (o_fh dir) =? kNamedAttr) || negb (is_type (a_mode (o_attr dir)) S_IFDIR))) NFS4ERR_NOTDIR;;
  let my_verifier := PutU64 [] (Generation B) in
  check (negb ((cookie =? 1) || (cookie =? 2))) NFS4ERR_BAD_COOKIE;;
  check ((cookie =? 0) || bytes_eqb verifier my_verifier) NFS4ERR_NOT_SAME;;
  entries <~ lift (ListChildren B dir);
  let index := if cookie =? 0 then 0 else cookie - 2 in
  check (negb (index >? zlen entries)) NFS4ERR_BAD_COOKIE;;
  put (λ w, PutFixedOpaque w my_verifier);;
  w <~ get_body;
  s <~ get_srv;
  match readdir_loop (frozen_attrs s) dir request maxcount (drop (Z.to_nat index) entries) index 0 w with
  | inr status => return_ status
  | inl (index, w) =>
      put (λ _, w);;
      put (λ w, PutBool w false);;
      put (λ w, PutBool w (index >=? zlen entries))
  end.

Definition OpReaddir : M unit :=
  cookie <~ get GetU64 NFS4ERR_BADXDR;
  verifier <~ get (GetFixedOpaque kNfs4VerifierSize) NFS4ERR_BADXDR;
  _dircount <~ get GetU32 NFS4ERR_BADXDR;
  maxcount <~ get GetU32 NFS4ERR_BADXDR;
  request <~ get DecodeBitmap NFS4ERR_BADXDR;
  readdir_page cookie verifier maxcount request.

Definition OpReadlink : M unit :=
  fh <~ need_fh;
  obj <~ resolve fh;
  let mode := a_mode (o_attr obj) in
  check ((fh_kind (o_fh obj) =? kObject) && is_type mode S_IFLNK)
    (if is_type mode S_IFDIR then NFS4ERR_ISDIR else NFS4ERR_INVAL);;
  target <~ lift (match b_ReadLink B (fh_ino (o_fh obj)) with inl t => inl t | inr e => inr (ErrnoToStatus e) end);
  put (λ w, PutString w target).

Definition OpSecinfo : M unit :=
  name <~ get (GetString kNfs4OpaqueLimit) NFS4ERR_BADXDR;
  fh <~ need_fh;
  dir <~ resolve fh;
  _child <~ lookup_child dir name;
  c <~ get_comp;
  set_comp (mkCompound false (cur_fh c) (has_saved c) (saved_fh c));;
  put (λ w, PutU32 w 1);;
  put (λ w, PutU32 w kAuthSys).

(** ** Clients and open files *)

Definition OpDelegreturn : M unit :=
  stateid <~ get GetStateid NFS4ERR_BADXDR;
  s <~ get_srv;
  let '(status, s) := delegreturn s stateid in
  put_srv s;;
  check (status =? NFS4_OK) status.

Definition OpSetclientid : M unit :=
  verf <~ get_unchecked (GetFixedOpaque kNfs4VerifierSize) [];
  name <~ get_unchecked (GetOpaque kNfs4OpaqueLimit) [];
  cb_program <~ get_unchecked GetU32 0;
  netid <~ get_unchecked (GetString 0) [];
  addr <~ get_unchecked (GetString 0) [];
  cb_ident <~ get_unchecked GetU32 0;
  ok <~ args_ok;
  check ok NFS4ERR_BADXDR;;
  s <~ get_srv;
  let '(clientid, confirm, s) := setclientid opts inet_pton s now verf name cb_program cb_ident netid addr in
  put_srv s;;
  put (λ w, PutU64 w clientid);;
  put (λ w, PutFixedOpaque w confirm).

Definition OpSetclientidConfirm : M unit :=
  clientid <~ get GetU64 NFS4ERR_BADXDR;
  confirm <~ get (GetFixedOpaque kNfs4VerifierSize) NFS4ERR_BADXDR;
  s <~ get_srv;
  let '(status, s) := setclientid_confirm opts s clientid confirm in
  put_srv s;;
  check (status =? NFS4_OK) status.

Definition OpRenew : M unit :=
  clientid <~ get GetU64 NFS4ERR_BADXDR;
  s <~ get_srv;
  let status := CheckClient s clientid in
  check (status =? NFS4_OK) status.

(** The arguments of OPEN: the owner, its seqid, the access, the kind of claim
    and the name. *)
Record OpenArgs := mkOpenArgs { oa_owner : OwnerKey; oa_seqid : Z; oa_access : Z; oa_claim : Z; oa_name : bytes }.

Definition open_args : M OpenArgs :=
  seqid <~ get_unchecked GetU32 0;
  share_access <~ get_unchecked GetU32 0;
  _share_deny <~ get_unchecked GetU32 0;
  clientid <~ get_unchecked GetU64 0;
  owner <~ get_unchecked (GetOpaque kNfs4OpaqueLimit) [];
  open_type <~ get_unchecked GetU32 0;
  ok <~ args_ok;
  check ok NFS4ERR_BADXDR;;
  c <~ get_comp;
  check (negb (open_type =? OPEN4_CREATE)) (if has_fh c then NFS4ERR_ROFS else NFS4ERR_NOFILEHANDLE);;
  claim_type <~ get GetU32 NFS4ERR_BADXDR;
  name <~ (if claim_type =? CLAIM_NULL then get_unchecked (GetString kNfs4OpaqueLimit) []
           else if claim_type =? CLAIM_PREVIOUS then
             _delegation_type <~ get_unchecked GetU32 0;
             m_ret []
           else if claim_type =? CLAIM_DELEGATE_CUR then
             _delegation <~ get_unchecked GetStateid (mkStateid 0 []);
             get_unchecked (GetString kNfs4OpaqueLimit) []
           else return_ NFS4ERR_RECLAIM_BAD);
  ok <~ args_ok;
  check ok NFS4ERR_BADXDR;;
  m_ret (mkOpenArgs (clientid, owner) seqid share_access claim_type name).

(** The file to open, or the status that OPEN records. *)
Definition open_target (frozen : list (Z * Attr)) (fh : FileHandle) (a : OpenArgs) : Object + Z :=
  let target :=
    if (oa_claim a =? CLAIM_NULL) || (oa_claim a =? CLAIM_DELEGATE_CUR) then
      match Resolve B frozen creds fh with
      | inl dir => LookupChild B frozen creds dir (oa_name a)
      | inr status => inr status
      end
    else Resolve B frozen creds fh in
  match target with
  | inr status => inr status
  | inl target =>
      let mode := a_mode (o_attr target) in
      if negb (Z.land (oa_access a) OPEN4_SHARE_ACCESS_WRITE =? 0)
         || (Z.land (oa_access a) OPEN4_SHARE_ACCESS_READ =? 0) then inr NFS4ERR_ROFS
      else if (fh_kind (o_fh target) =? kAttrDir) || is_type mode S_IFDIR then inr NFS4ERR_ISDIR
      else if is_type mode S_IFLNK then inr NFS4ERR_SYMLINK
      else if negb (is_type mode S_IFREG) then inr NFS4ERR_INVAL
      else if Z.land (AccessFromMode (o_attr target) creds) ACCESS4_READ =? 0 then inr NFS4ERR_ACCESS
      else inl target
  end.

Definition OpOpen : M unit :=
  a <~ open_args;
  fh <~ need_fh;
  s <~ get_srv;
  match open_check s (oa_owner a) (oa_seqid a) with
  | SeqidBad status => return_ status
  | SeqidReplay status replay_body =>
      put (λ w, PutRaw w replay_body);;
      return_ status
  | SeqidProcess =>
      s <~ get_srv;
      let target := open_target (frozen_attrs s) fh a in
      s <~ get_srv;
      let '(status, result, s) := open_commit opts s (oa_owner a) (oa_seqid a) (oa_access a) (oa_claim a) target in
      put_srv s;;
      check (status =? NFS4_OK) status;;
      (match target with inl t => set_fh (o_fh t) | inr _ => m_ret tt end);;
      put (λ w, PutRaw w result)
  end.

Definition OpOpenConfirm : M unit :=
  stateid <~ get GetStateid NFS4ERR_BADXDR;
  seqid <~ get GetU32 NFS4ERR_BADXDR;
  _fh <~ need_fh;
  s <~ get_srv;
  let '(status, result, s) := open_confirm s stateid seqid in
  put_srv s;;
  put (λ w, PutRaw w result);;
  check (status =? NFS4_OK) status.

Definition OpOpenDowngrade : M unit :=
  stateid <~ get GetStateid NFS4ERR_BADXDR;
  seqid <~ get GetU32 NFS4ERR_BADXDR;
  share_access <~ get GetU32 NFS4ERR_BADXDR;
  _share_deny <~ get GetU32 NFS4ERR_BADXDR;
  _fh <~ need_fh;
  s <~ get_srv;
  let '(status, result, s) := open_downgrade s stateid seqid share_access in
  put_srv s;;
  put (λ w, PutRaw w result);;
  check (status =? NFS4_OK) status.

Definition OpClose : M unit :=
  seqid <~ get GetU32 NFS4ERR_BADXDR;
  stateid <~ get GetStateid NFS4ERR_BADXDR;
  _fh <~ need_fh;
  s <~ get_srv;
  let '(status, result, forget_ino, s) := close_file s seqid stateid in
  put_srv (if negb (forget_ino =? 0) then add_forgotten s forget_ino else s);;
  put (λ w, PutRaw w result);;
  check (status =? NFS4_OK) status.

(** ** COMPOUND *)

Definition rofs : M unit := c <~ get_comp; return_ (if has_fh c then NFS4ERR_ROFS else NFS4ERR_NOFILEHANDLE).

Definition ProcessOp (op : Z) : M unit :=
  if op =? OP_ACCESS then OpAccess
  else if op =? OP_CLOSE then OpClose
  else if op =? OP_GETATTR then OpGetattr
  else if op =? OP_GETFH then OpGetfh
  else if op =? OP_LOOKUP then OpLookup
  else if op =? OP_LOOKUPP then OpLookupp
  else if op =? OP_NVERIFY then OpVerify true
  else if op =? OP_VERIFY then OpVerify false
  else if op =? OP_OPEN then OpOpen
  else if op =? OP_OPENATTR then OpOpenattr
  else if op =? OP_OPEN_CONFIRM then OpOpenConfirm
  else if op =? OP_OPEN_DOWNGRADE then OpOpenDowngrade
  else if op =? OP_PUTFH then OpPutfh
  else if (op =? OP_PUTPUBFH) || (op =? OP_PUTROOTFH) then set_fh (mkFileHandle kObject (FsId B) (RootInode B) 0)
  else if op =? OP_READ then OpRead
  else if op =? OP_READDIR then OpReaddir
  else if op =? OP_READLINK then OpReadlink
  else if op =? OP_RENEW then OpRenew
  else if op =? OP_RESTOREFH then
    c <~ get_comp;
    check (has_saved c) NFS4ERR_RESTOREFH;;
    set_fh (saved_fh c)
  else if op =? OP_SAVEFH then
    fh <~ need_fh;
    set_comp (mkCompound true fh true fh)
  else if op =? OP_SECINFO then OpSecinfo
  else if op =? OP_SETCLIENTID then OpSetclientid
  else if op =? OP_SETCLIENTID_CONFIRM then OpSetclientidConfirm
  else if op =? OP_RELEASE_LOCKOWNER then m_ret tt
  else if op =? OP_DELEGRETURN then OpDelegreturn
  else if (op =? OP_DELEGPURGE) || (op =? OP_LOCK) || (op =? OP_LOCKT) || (op =? OP_LOCKU) then return_ NFS4ERR_NOTSUPP
  else if (op =? OP_COMMIT) || (op =? OP_CREATE) || (op =? OP_LINK) || (op =? OP_REMOVE) || (op =? OP_RENAME)
          || (op =? OP_SETATTR) || (op =? OP_WRITE) then rofs
  else return_ NFS4ERR_OP_ILLEGAL.

(** Runs an operation and gives its status. *)
Definition run_op (m : M unit) (x : Ctx) : outcome (Ctx * Z) :=
  '(x, r) ← m x;
  Ret (x, match r with inl _ => NFS4_OK | inr status => status end).

Definition with_body (x : Ctx) (w : XdrWriter) : Ctx := mkCtx (args x) (comp x) w (srv x).

(** One round of the loop over the operations: the status, [None] if there was
    no operation to read. *)
Definition compound_op (x : Ctx) : outcome (Ctx * option Z) :=
  '(op, r) ← GetU32 (args x);
  let x := mkCtx r (comp x) (body x) (srv x) in
  match op with
  | None => Ret (x, None)
  | Some op =>
      let '(op_offset, w) := ReserveU32 (body x) in
      let '(status_offset_op, w) := ReserveU32 w in
      let body_offset := zlen w in
      '(x, status) ← run_op (ProcessOp op) (with_body x w);
      let status := if (status =? NFS4_OK) && negb (ok_ (args x)) then NFS4ERR_BADXDR else status in
      w ← PatchU32 (body x) op_offset (if status =? NFS4ERR_OP_ILLEGAL then OP_ILLEGAL else op);
      w ← PatchU32 w status_offset_op status;
      let w := if negb (status =? NFS4_OK)
               then let w := Truncate w body_offset in if op =? OP_SETATTR then PutU32 w 0 else w
               else w in
      Ret (with_body x w, Some status)
  end.

(** The loop with [n] operations to go: the status and the number of results. *)
Fixpoint compound_loop (n : nat) (num_results : Z) (x : Ctx) : outcome (Ctx * Z * Z) :=
  match n with
  | O => Ret (x, NFS4_OK, num_results)
  | S n =>
      '(x, status) ← compound_op x;
      match status with
      | None => Ret (x, NFS4ERR_BADXDR, num_results)
      | Some status =>
          if negb (status =? NFS4_OK) then Ret (x, status, num_results + 1)
          else compound_loop n (num_results + 1) x
      end
  end.

Definition ProcessCompound (args : XdrReader) (res : XdrWriter) (s : Nfs) : outcome (Z * XdrWriter * Nfs) :=
  '(tag, args) ← GetOpaque kNfs4OpaqueLimit args;
  '(minor_version, args) ← GetU32 args;
  '(num_ops, args) ← GetU32 args;
  let '(status_offset, res) := ReserveU32 res in
  let res := PutOpaque res (default [] tag) in
  let '(count_offset, res) := ReserveU32 res in
  let x := mkCtx args new_compound res s in
  '(x, status, num_results) ←
    (if negb (ok_ args) then Ret (x, NFS4ERR_BADXDR, 0)
     else if negb (default 0 minor_version =? 0) then Ret (x, NFS4ERR_MINOR_VERS_MISMATCH, 0)
     else if default 0 num_ops >? max_compound_ops opts then Ret (x, NFS4ERR_RESOURCE, 0)
     else compound_loop (Z.to_nat (default 0 num_ops)) 0 x);
  w ← PatchU32 (body x) status_offset status;
  w ← PatchU32 w count_offset num_results;
  Ret (status, w, srv x).

(** The reply to a COMPOUND that takes too long. *)
Definition delay_reply (args res : bytes) : outcome XdrWriter :=
  let r := new_reader args in
  '(tag, r) ← GetOpaque kNfs4OpaqueLimit r;
  '(minor_version, r) ← GetU32 r;
  '(num_ops, r) ← GetU32 r;
  '(first_op, r) ← GetU32 r;
  let res := PutU32 res NFS4ERR_DELAY in
  let res := PutOpaque res (default [] tag) in
  if (default 0 num_ops =? 0) || negb (ok_ r) then Ret (PutU32 res 0)
  else Ret (PutU32 (PutU32 (PutU32 res 1) (default 0 first_op)) NFS4ERR_DELAY).
End Ops.

(** What becomes of a task until its deadline. *)
Inductive deadline := InTime | StillQueued | StillRunning.

Section Dispatch.
Context (B : Backend) (opts : NfsOptions) (inet_pton : bytes → bool) (now : Z) (d : deadline).

(** A task that runs on after its deadline changes the state all the same. *)
Definition RunWithDeadline (call : RpcCall) (args : XdrReader) (res : XdrWriter) (s : Nfs)
    : outcome (XdrWriter * Nfs) :=
  match d with
  | InTime =>
      '(_, w, s) ← ProcessCompound B opts inet_pton now (call_creds call) (new_reader (cursor args)) [] s;
      Ret (PutRaw res w, s)
  | StillQueued => w ← delay_reply (cursor args) res; Ret (w, s)
  | StillRunning =>
      '(_, _, s) ← ProcessCompound B opts inet_pton now (call_creds call) (new_reader (cursor args)) [] s;
      w ← delay_reply (cursor args) res; Ret (w, s)
  end.

Definition NfsDispatch (s : Nfs) (call : RpcCall) (args : XdrReader) (res : XdrWriter) : outcome (Z * XdrWriter * Nfs) :=
  if call_procedure call =? kNfsProcNull then Ret (kAcceptSuccess, res, s)
  else if call_procedure call =? kNfsProcCompound then
    if delay_after_ms opts >? 0 then
      '(w, s) ← RunWithDeadline call args res s;
      Ret (kAcceptSuccess, w, s)
    else
      '(_, w, s) ← ProcessCompound B opts inet_pton now (call_creds call) args res s;
      Ret (kAcceptSuccess, w, s)
  else Ret (kAcceptProcUnavail, res, s).

Definition nfs_program : RpcProgram Nfs := {|
  program := kNfsProgram;
  min_version := kNfsVersion4;
  max_version := kNfsVersion4;
  Dispatch := NfsDispatch
|}.
End Dispatch.
