(* ===== verification/NfsSafe.v ===== *)
(** * NFS server: every call is answered (src/cvmfs/nfs4/nfs4_server.cc)

    Whatever a client sends, the operations return without reading or writing
    out of bounds, they append to the buffer of the reply, and the server is an
    instance of the interface of the RPC layer. *)

From stdpp Require Import base numbers list gmap.
From S2P Require Import Prelude Bytes StringUtil StdMap NfsConst Xdr FileHandle Rpc Callback NfsObject NfsServer NfsOps.

Open Scope Z_scope.
Open Scope nfs_scope.

(** ** What is assumed of the backend: its strings are strings of bytes *)

Record backend_ok (B : Backend) : Prop := {
  ok_readlink ino t : b_ReadLink B ino = inl t → bytes_ok t;
  ok_readdir ino l : b_ReadDir B ino = inl l → Forall (λ e, bytes_ok (de_name e)) l;
  ok_read ino off n d : b_Read B ino off n = inl d → bytes_ok d;
  ok_listxattr ino l : b_ListXattr B ino = inl l → Forall bytes_ok l;
  ok_getxattr ino n c v : b_GetXattr B ino n c = inl v → bytes_ok v
}.

(** ** Bytes stay bytes *)

Lemma bytes_ok_app a b : bytes_ok a → bytes_ok b → bytes_ok (a ++ b).
Proof. intros. by apply Forall_app. Qed.

Lemma PutU32_ok w v : bytes_ok w → bytes_ok (PutU32 w v).
Proof. intros. apply bytes_ok_app; [done|]. apply u32_bytes_ok. Qed.
Lemma PutU64_ok w v : bytes_ok w → bytes_ok (PutU64 w v).
Proof. intros. by apply PutU32_ok, PutU32_ok. Qed.
Lemma PutI64_ok w v : bytes_ok w → bytes_ok (PutI64 w v).
Proof. intros. by apply PutU64_ok. Qed.
Lemma PutBool_ok w b : bytes_ok w → bytes_ok (PutBool w b).
Proof. intros. by apply PutU32_ok. Qed.
Lemma PutFixedOpaque_ok w d : bytes_ok w → bytes_ok d → bytes_ok (PutFixedOpaque w d).
Proof. intros. rewrite PutFixedOpaque_bytes. apply bytes_ok_app; [done|]. by apply fixed_bytes_ok. Qed.
Lemma PutOpaque_ok w d : bytes_ok w → bytes_ok d → bytes_ok (PutOpaque w d).
Proof. intros. apply PutFixedOpaque_ok; [|done]. by apply PutU32_ok. Qed.
Lemma PutString_ok w d : bytes_ok w → bytes_ok d → bytes_ok (PutString w d).
Proof. apply PutOpaque_ok. Qed.
Lemma PutRaw_ok w d : bytes_ok w → bytes_ok d → bytes_ok (PutRaw w d).
Proof. apply bytes_ok_app. Qed.
Lemma PutTime_ok t w : bytes_ok w → bytes_ok (PutTime t w).
Proof. intros. by apply PutU32_ok, PutI64_ok. Qed.
Lemma PutStateid_ok st w : bytes_ok w → bytes_ok (si_other st) → bytes_ok (PutStateid st w).
Proof. intros. apply PutFixedOpaque_ok; [|done]. by apply PutU32_ok. Qed.

Lemma fold_PutU32_ok l w : bytes_ok w → bytes_ok (foldl PutU32 w l).
Proof. revert w. induction l as [|x l IH]; intros w Hw; [done|]. by apply IH, PutU32_ok. Qed.
Lemma PutBitmap_ok ws w : bytes_ok w → bytes_ok (PutBitmap ws w).
Proof. intros. by apply fold_PutU32_ok, PutU32_ok. Qed.

Lemma nil_ok : bytes_ok [].
Proof. apply Forall_nil_2. Qed.

Lemma digits_bytes fuel n : bytes_ok (digits fuel n).
Proof.
  revert n. induction fuel as [|fuel IH]; intros n; cbn [digits]; [apply nil_ok|].
  apply bytes_ok_app.
  - destruct (n <? 10); [apply nil_ok|]. apply IH.
  - apply Forall_singleton. unfold_words. dlia.
Qed.

Lemma Encode_ok fh : bytes_ok (Encode fh).
Proof.
  unfold Encode. apply PutU32_ok, PutU32_ok, PutU64_ok, PutU64_ok. apply PutRaw_ok.
  - apply PutRaw_ok; [apply nil_ok|]. by apply (bool_decide_unpack _).
  - repeat apply Forall_cons_2; try apply Forall_nil_2; try apply u8_range; done.
Qed.

Create HintDb nfs discriminated.
#[export] Hint Constants Opaque : nfs.
#[export] Hint Resolve PutU32_ok PutU64_ok PutI64_ok PutBool_ok PutFixedOpaque_ok PutOpaque_ok PutString_ok
  PutRaw_ok PutTime_ok PutStateid_ok PutBitmap_ok nil_ok Encode_ok u32_bytes_ok : nfs.

(** [w] is the beginning of [w']. *)
Lemma PutU32_prefix w v : w `prefix_of` PutU32 w v.
Proof. apply prefix_app_r. done. Qed.
Lemma PutOpaque_prefix w v : w `prefix_of` PutOpaque w v.
Proof. rewrite PutOpaque_bytes. by apply prefix_app_r. Qed.
Lemma fold_PutU32_prefix l w : w `prefix_of` foldl PutU32 w l.
Proof.
  revert w. induction l as [|x l IH]; intros w; [done|]. cbn [foldl]. etransitivity; [apply PutU32_prefix|apply IH].
Qed.
Lemma PutBitmap_prefix ws w : w `prefix_of` PutBitmap ws w.
Proof. etransitivity; [apply PutU32_prefix|apply fold_PutU32_prefix]. Qed.
Lemma PutU64_prefix w v : w `prefix_of` PutU64 w v.
Proof. rewrite PutU64_bytes. by apply prefix_app_r. Qed.
Lemma PutBool_prefix w b : w `prefix_of` PutBool w b.
Proof. apply PutU32_prefix. Qed.
Lemma PutFixedOpaque_prefix w d : w `prefix_of` PutFixedOpaque w d.
Proof. rewrite PutFixedOpaque_bytes. by apply prefix_app_r. Qed.
Lemma PutString_prefix w d : w `prefix_of` PutString w d.
Proof. apply PutOpaque_prefix. Qed.
Lemma PutRaw_prefix w d : w `prefix_of` PutRaw w d.
Proof. by apply prefix_app_r. Qed.
#[export] Hint Resolve PutU32_prefix PutOpaque_prefix PutBitmap_prefix PutU64_prefix PutBool_prefix
  PutFixedOpaque_prefix PutString_prefix PutRaw_prefix : nfs.

(** ** Getters that return on every input *)

Definition getter_safe {A} (g : getter A) (Q : A → Prop) : Prop :=
  ∀ r, reader_ok r → ∃ o r', g r = Ret (o, r') ∧ reader_ok r' ∧ match o with Some v => Q v | None => True end.

Lemma getter_ok_safe {A} (g : getter A) Q : getter_ok g Q → getter_safe g Q.
Proof.
  intros Hg r Hr. destruct (Hg r Hr) as (o & r' & -> & Hr' & _ & _ & Ho). eexists _, _. split; [done|].
  split; [done|]. destruct o; naive_solver.
Qed.

Lemma getter_safe_impl {A} (g : getter A) (Q Q' : A → Prop) : getter_safe g Q → (∀ a, Q a → Q' a) → getter_safe g Q'.
Proof.
  intros Hg HQ r Hr. destruct (Hg r Hr) as (o & r' & -> & Hr' & Ho). eexists _, _. split; [done|].
  split; [done|]. destruct o; auto.
Qed.

Lemma U32_safe : getter_safe GetU32 is_u32.
Proof. apply getter_ok_safe, GetU32_ok. Qed.
Lemma U64_safe : getter_safe GetU64 is_u64.
Proof. apply getter_ok_safe, GetU64_ok. Qed.
Lemma Bool_safe : getter_safe GetBool (λ _, True).
Proof. apply getter_ok_safe, GetBool_ok. Qed.
Lemma Opaque_safe n : getter_safe (GetOpaque n) bytes_ok.
Proof. eapply getter_safe_impl; [apply getter_ok_safe, GetOpaque_ok|]. by intros a (? & _). Qed.
Lemma String_safe n : getter_safe (GetString n) bytes_ok.
Proof. apply Opaque_safe. Qed.
Lemma Fixed_safe n : 0 ≤ n → getter_safe (GetFixedOpaque n) (λ b, bytes_ok b ∧ zlen b = n).
Proof. intros. eapply getter_safe_impl; [by apply getter_ok_safe, GetFixedOpaque_ok|]. by intros a (? & ?). Qed.

Lemma bitmap_words_safe n : ∀ r bm, reader_ok r → ∃ bm' r', bitmap_words n r bm = Ret (bm', r') ∧ reader_ok r'.
Proof.
  induction n as [|n IH]; intros r bm Hr; cbn [bitmap_words]; [by eexists _, _|].
  destruct (U32_safe r Hr) as (o & r' & -> & Hr' & _). exec. by apply IH.
Qed.

Lemma Bitmap_safe : getter_safe DecodeBitmap (λ _, True).
Proof.
  intros r Hr. unfold DecodeBitmap. destruct (U32_safe r Hr) as (o & r' & -> & Hr' & _). exec.
  destruct o as [len|]; [|by eexists _, _]. destruct (len >? 8); [by eexists _, _|].
  destruct (bitmap_words_safe (Z.to_nat len) r' [] Hr') as (bm & r2 & -> & Hr2). exec.
  eexists _, _. split; [done|]. split; [done|]. by destruct (ok_ r2).
Qed.

Definition stateid_ok (st : Stateid) : Prop := bytes_ok (si_other st) ∧ zlen (si_other st) = kStateidOtherSize.

Lemma Stateid_safe : getter_safe GetStateid stateid_ok.
Proof.
  intros r Hr. unfold GetStateid. destruct (U32_safe r Hr) as (o & r' & -> & Hr' & _). exec.
  destruct o as [seqid|]; [|by eexists _, _].
  destruct (Fixed_safe kStateidOtherSize ltac:(done) r' Hr') as (o & r2 & -> & Hr2 & Ho). exec.
  eexists _, _. split; [done|]. split; [done|]. by destruct o.
Qed.

Section Safe.
Context (B : Backend) (opts : NfsOptions) (inet_pton : bytes → bool) (HB : backend_ok B).

Lemma if_Some_ok (b : bool) (x : XdrWriter) (o : option XdrWriter) v :
  bytes_ok x → (o = Some v → bytes_ok v) → (if b then Some x else o) = Some v → bytes_ok v.
Proof. intros Hx Ho. destruct b; [by intros [= <-]|done]. Qed.

Lemma encode_attr_ok obj v attr v' : bytes_ok v → encode_attr B opts obj v attr = Some v' → bytes_ok v'.
Proof.
  intros Hv. unfold encode_attr.
  repeat (apply if_Some_ok; [first [solve [auto 6 with nfs] | destruct (_ =? _); solve [auto with nfs]
    | apply PutString_ok; [done|apply digits_bytes]]|]).
  done.
Qed.

Lemma encode_attrs_ok obj returned attrs : ∀ v v',
  bytes_ok v → encode_attrs B opts obj returned attrs v = Some v' → bytes_ok v'.
Proof.
  induction attrs as [|a attrs IH]; intros v v' Hv; cbn [encode_attrs]; [by intros [= <-]|].
  destruct (negb (IsSet returned a)); [by apply IH|].
  destruct (encode_attr B opts obj v a) eqn:E; [|done]. apply IH. by eapply encode_attr_ok.
Qed.

Lemma EncodeFattr_ok obj request w : bytes_ok w →
  let '(_, w') := EncodeFattr B opts obj request w in bytes_ok w' ∧ w `prefix_of` w'.
Proof.
  intros Hw. unfold EncodeFattr. destruct (encode_attrs _ _ _ _ _ _) eqn:E; [|by split].
  apply encode_attrs_ok in E; [|apply nil_ok]. split; [auto with nfs|].
  etransitivity; [apply PutBitmap_prefix|apply PutOpaque_prefix].
Qed.

(** Attributes are short. *)
Lemma if_Some_short (b : bool) (x : XdrWriter) (o : option XdrWriter) v n :
  zlen x ≤ n → (o = Some v → zlen v ≤ n) → (if b then Some x else o) = Some v → zlen v ≤ n.
Proof. intros Hx Ho. destruct b; [by intros [= <-]|done]. Qed.

Lemma digits_length fuel n : zlen (digits fuel n) ≤ Z.of_nat fuel.
Proof.
  revert n. induction fuel as [|fuel IH]; intros n; cbn [digits]; [done|]. rewrite zlen_app.
  change (zlen [_]) with 1. specialize (IH (n / 10)).
  destruct (n <? 10); [change (zlen (A := Z) []) with 0|]; lia.
Qed.

Lemma zlen_PutU32 w v : zlen (PutU32 w v) = zlen w + 4.
Proof. apply zlen_app. Qed.
Lemma zlen_PutU64 w v : zlen (PutU64 w v) = zlen w + 8.
Proof. rewrite PutU64_bytes. apply zlen_app. Qed.
Lemma zlen_PutOpaque w d : zlen (PutOpaque w d) = zlen w + 4 + zlen d + Pad4 (zlen d).
Proof. rewrite PutOpaque_bytes, zlen_app, zlen_opaque_bytes. lia. Qed.
Lemma zlen_PutBitmap ws w : zlen (PutBitmap ws w) = zlen w + 4 + 4 * zlen (drop_zeros ws).
Proof.
  unfold PutBitmap. assert (∀ l v, zlen (foldl PutU32 v l) = zlen v + 4 * zlen l) as Hf.
  { induction l as [|x l IH]; intros v; cbn [foldl]; [change (zlen (A := Z) []) with 0; lia|].
    rewrite IH, zlen_PutU32, zlen_cons. lia. }
  rewrite Hf, zlen_PutU32. done.
Qed.

Lemma encode_attr_short obj v attr v' : encode_attr B opts obj v attr = Some v' → zlen v' ≤ zlen v + 64.
Proof.
  unfold encode_attr.
  repeat (apply if_Some_short; [first
    [ rewrite zlen_PutU32; lia | unfold PutBool; rewrite zlen_PutU32; lia | rewrite zlen_PutU64; lia
    | rewrite !zlen_PutU64; lia | rewrite !zlen_PutU32; lia
    | unfold PutTime, PutI64; rewrite zlen_PutU32, zlen_PutU64; lia
    | destruct (_ =? _); rewrite zlen_PutU64; lia
    | rewrite zlen_PutBitmap; change (zlen (drop_zeros SupportedBitmap)) with 2; lia
    | unfold PutString; rewrite zlen_PutOpaque;
        match goal with |- context [zlen (NumericId ?x)] => pose proof (digits_length 20 x : zlen (NumericId x) ≤ 20);
          pose proof (Pad4_range (zlen (NumericId x))) end; lia
    | rewrite zlen_PutOpaque; change (zlen (Encode ?x)) with 32; change (Pad4 32) with 0; lia ]|]).
  done.
Qed.

Lemma encode_attrs_short obj returned attrs : ∀ v v',
  encode_attrs B opts obj returned attrs v = Some v' → zlen v' ≤ zlen v + 64 * zlen attrs.
Proof.
  induction attrs as [|a attrs IH]; intros v v'; cbn [encode_attrs].
  { intros [= <-]. change (zlen (A := Z) []) with 0. lia. }
  rewrite zlen_cons. destruct (negb (IsSet returned a)); [intros ?%IH; lia|].
  destruct (encode_attr B opts obj v a) eqn:E; [|done]. apply encode_attr_short in E. intros ?%IH. lia.
Qed.

Lemma EncodeFattr_short obj request : zlen (EncodeFattr B opts obj request []).2 ≤ 5000.
Proof.
  unfold EncodeFattr. destruct (encode_attrs _ _ _ _ _ _) as [v|] eqn:E; [|done]. cbn [snd].
  apply encode_attrs_short in E. rewrite zlen_PutOpaque, zlen_PutBitmap.
  pose proof (Pad4_range (zlen v)). change (zlen (seqZ 0 (32 * kNumBitmapWords))) with 64 in E.
  change (zlen (A := Z) []) with 0 in *.
  assert (zlen (drop_zeros (returned_words request)) ≤ 2); [|lia].
  unfold returned_words. cbn [drop_zeros]. destruct (_ =? 0); [destruct (_ =? 0)|]; done.
Qed.

(** ** Programs that are safe *)

(** Strings that end up in replies. *)
Record nfs_bytes (s : Nfs) : Prop := {
  bytes_owners : Forall (λ p, bytes_ok (ow_last_body p.2)) (owners s);
  bytes_opens : Forall (λ p, bytes_ok p.1) (open_states s)
}.

Record ctx_ok (x : Ctx) : Prop := {
  ctx_args : reader_ok (args x);
  ctx_body : bytes_ok (body x);
  ctx_srv : nfs_bytes (srv x)
}.

(** [m] returns, keeps the context good and what is in the buffer, and its value
    satisfies [Q]. *)
Definition m_ok {A} (m : M A) (Q : A → Prop) : Prop :=
  ∀ x, ctx_ok x → ∃ x' r, m x = Ret (x', r) ∧ ctx_ok x' ∧ body x `prefix_of` body x'
                          ∧ match r with inl a => Q a | inr _ => True end.

Lemma m_ok_bind {A A'} (m : M A) (f : A → M A') Q Q' :
  m_ok m Q → (∀ a, Q a → m_ok (f a) Q') → m_ok (m_bind m f) Q'.
Proof.
  intros Hm Hf x Hx. unfold m_bind. destruct (Hm x Hx) as (x1 & r & -> & Hx1 & Hp & HQ). exec.
  destruct r as [a|st]; [|by eexists _, _].
  destruct (Hf a HQ x1 Hx1) as (x2 & r2 & -> & Hx2 & Hp2 & HQ2). eexists _, _. split; [done|].
  split; [done|]. split; [by etransitivity|done].
Qed.

Lemma m_ok_impl {A} (m : M A) (Q Q' : A → Prop) : m_ok m Q → (∀ a, Q a → Q' a) → m_ok m Q'.
Proof.
  intros Hm HQ x Hx. destruct (Hm x Hx) as (x1 & r & -> & Hx1 & Hp & H). eexists _, _. split; [done|].
  split; [done|]. split; [done|]. destruct r; auto.
Qed.

Lemma m_ok_ret {A} (a : A) (Q : A → Prop) : Q a → m_ok (m_ret a) Q.
Proof. intros HQ x Hx. by eexists _, _. Qed.
Lemma m_ok_return {A} st (Q : A → Prop) : m_ok (return_ st) Q.
Proof. intros x Hx. by eexists _, _. Qed.
Lemma m_ok_check b st : m_ok (check b st) (λ _, b = true).
Proof. intros x Hx. unfold check. destruct b; by eexists _, _. Qed.
Lemma m_ok_lift {A} (r : A + Z) (Q : A → Prop) : (∀ a, r = inl a → Q a) → m_ok (lift r) Q.
Proof. intros HQ x Hx. eexists _, _. split; [done|]. split; [done|]. split; [done|]. destruct r; auto. Qed.
Lemma m_ok_get {A} (g : getter A) (Q : A → Prop) err : getter_safe g Q → m_ok (get g err) Q.
Proof.
  intros Hg x [Ha Hb Hs]. unfold get. destruct (Hg _ Ha) as (o & r & -> & Hr & Ho). exec.
  eexists _, _. split; [done|]. split; [done|]. split; [done|]. destruct o; naive_solver.
Qed.
Lemma m_ok_get_unchecked {A} (g : getter A) (Q : A → Prop) d : getter_safe g Q → Q d → m_ok (get_unchecked g d) Q.
Proof.
  intros Hg Hd x [Ha Hb Hs]. unfold get_unchecked. destruct (Hg _ Ha) as (o & r & -> & Hr & Ho). exec.
  eexists _, _. split; [done|]. split; [done|]. split; [done|]. destruct o; naive_solver.
Qed.
Lemma m_ok_args_ok : m_ok args_ok (λ _, True).
Proof. intros x Hx. by eexists _, _. Qed.
Lemma m_ok_get_comp : m_ok get_comp (λ _, True).
Proof. intros x Hx. by eexists _, _. Qed.
Lemma m_ok_get_srv : m_ok get_srv nfs_bytes.
Proof. intros x Hx. eexists _, _. split; [done|]. split; [done|]. split; [done|]. by destruct Hx. Qed.
Lemma m_ok_set_fh fh : m_ok (set_fh fh) (λ _, True).
Proof. intros x [? ? ?]. by eexists _, _. Qed.
Lemma m_ok_set_comp c : m_ok (set_comp c) (λ _, True).
Proof. intros x [? ? ?]. by eexists _, _. Qed.
Lemma m_ok_need_fh : m_ok need_fh (λ _, True).
Proof. intros x Hx. eexists _, _. split; [done|]. split; [done|]. split; [done|]. by destruct (has_fh _). Qed.
Lemma m_ok_put f : (∀ w, bytes_ok w → bytes_ok (f w) ∧ w `prefix_of` f w) → m_ok (put f) (λ _, True).
Proof. intros Hf x [? Hb ?]. destruct (Hf _ Hb). by eexists _, _. Qed.
Lemma m_ok_put_srv s : nfs_bytes s → m_ok (put_srv s) (λ _, True).
Proof. intros Hs x [? ? ?]. by eexists _, _. Qed.

(** Fills the reply from its present contents. *)
Lemma m_ok_replace (f : XdrWriter → bool * XdrWriter) st :
  (∀ w, bytes_ok w → let '(_, w') := f w in bytes_ok w' ∧ w `prefix_of` w') →
  m_ok (w <~ get_body; let '(ok, w) := f w in check ok st;; put (λ _, w)) (λ _, True).
Proof.
  intros Hf x [Ha Hb Hs]. unfold get_body, m_bind. exec. specialize (Hf _ Hb).
  destruct (f (body x)) as [[] w]; unfold check, m_ret, return_, put; exec; [|by eexists _, _].
  destruct Hf. by eexists _, _.
Qed.

(** One instruction of a program, with what is known about its value; [m_extra]
    grows with the lemmas. *)
Ltac m_extra := fail.
Ltac m_prim :=
  first
  [ apply m_ok_ret; solve [done | auto with nfs]
  | apply m_ok_return | apply m_ok_check | apply m_ok_args_ok | apply m_ok_get_comp | apply m_ok_get_srv
  | apply m_ok_set_fh | apply m_ok_set_comp | apply m_ok_need_fh
  | apply m_ok_get; first [apply U32_safe | apply U64_safe | apply Bool_safe | apply Opaque_safe | apply String_safe
      | apply Fixed_safe; done | apply Bitmap_safe | apply Stateid_safe]
  | apply m_ok_get_unchecked;
      [first [apply U32_safe | apply U64_safe | apply Opaque_safe | apply String_safe]|by first [apply nil_ok | done]]
  | apply m_ok_put; intros; split; solve [auto with nfs]
  | m_extra ].
Ltac m_step := eapply m_ok_bind; [m_prim|]; intros ? ?.

Lemma m_ok_resolve creds fh : m_ok (resolve B creds fh) (λ _, True).
Proof. unfold resolve. m_step. by apply m_ok_lift. Qed.
Lemma m_ok_lookup_child creds dir name : m_ok (lookup_child B creds dir name) (λ _, True).
Proof. unfold lookup_child. m_step. by apply m_ok_lift. Qed.

Ltac m_extra ::= first [apply m_ok_resolve | apply m_ok_lookup_child].
Ltac m_last := first [m_prim | eapply m_ok_impl; [m_prim|done]].
Ltac m_run := repeat m_step; try m_last.

Section Reading.
Context (creds : Credentials).

Lemma OpAccess_ok : m_ok (OpAccess B creds) (λ _, True).
Proof. unfold OpAccess. m_run. Qed.
Lemma OpGetattr_ok : m_ok (OpGetattr B opts creds) (λ _, True).
Proof. unfold OpGetattr. do 3 m_step. apply (m_ok_replace (EncodeFattr B opts a1 a)). intros w. apply EncodeFattr_ok. Qed.
Lemma OpGetfh_ok : m_ok OpGetfh (λ _, True).
Proof. unfold OpGetfh. m_run. Qed.
Lemma OpLookup_ok : m_ok (OpLookup B creds) (λ _, True).
Proof. unfold OpLookup. m_run. Qed.
Lemma OpOpenattr_ok : m_ok (OpOpenattr B creds) (λ _, True).
Proof. unfold OpOpenattr. m_run. Qed.
Lemma OpSecinfo_ok : m_ok (OpSecinfo B creds) (λ _, True).
Proof. unfold OpSecinfo. m_run. Qed.

Lemma m_ok_lift_bytes (r : bytes + Z) :
  (∀ b, r = inl b → bytes_ok b) →
  m_ok (lift (match r with inl b => inl b | inr e => inr (ErrnoToStatus e) end)) bytes_ok.
Proof. intros Hr. apply m_ok_lift. intros a. destruct r; [intros [= ->]; auto|done]. Qed.

Lemma OpLookupp_ok : m_ok (OpLookupp B creds) (λ _, True).
Proof.
  unfold OpLookupp. m_step. destruct (_ =? kAttrDir); [m_last|]. destruct (_ =? kNamedAttr); [m_last|].
  do 3 m_step. eapply m_ok_bind; [by apply (m_ok_lift _ (λ _, True))|]. intros. m_last.
Qed.

Lemma OpReadlink_ok : m_ok (OpReadlink B creds) (λ _, True).
Proof using HB.
  unfold OpReadlink. do 3 m_step. eapply m_ok_bind; [apply m_ok_lift_bytes; intros b; apply (ok_readlink _ HB)|].
  intros. m_last.
Qed.

Lemma OpPutfh_ok : m_ok (OpPutfh B) (λ _, True).
Proof.
  unfold OpPutfh. eapply m_ok_bind; [apply m_ok_get, Opaque_safe|]. intros raw Hraw.
  apply (m_ok_bind _ _ (λ _, True)).
  { intros x Hx. destruct (Decode_total raw Hraw) as [o ->]. exec. by eexists _, _. }
  intros [fh|] _; [|m_last]. m_run.
Qed.

Lemma OpVerify_ok negate : m_ok (OpVerify B opts creds negate) (λ _, True).
Proof.
  unfold OpVerify. do 6 m_step. pose proof (EncodeFattr_ok a4 a [] nil_ok) as Hf.
  pose proof (EncodeFattr_short a4 a) as Hs.
  destruct (EncodeFattr B opts a4 a []) as [ok mine]. destruct Hf as [Hmine _]. cbn [snd] in Hs.
  apply (m_ok_bind _ _ (λ _, True)).
  { intros x Hx.
    destruct (Bitmap_safe (new_reader mine)) as (o & r & -> & Hr & _); [apply new_reader_ok; [done|lia]|]. exec.
    destruct (Opaque_safe 0 r Hr) as (o2 & r2 & -> & Hr2 & _). exec. by eexists _, _. }
  intros v _. destruct negate; m_last.
Qed.

Lemma OpRead_ok : m_ok (OpRead B opts creds) (λ _, True).
Proof using HB.
  unfold OpRead. do 9 m_step. destruct (_ =? kNamedAttr).
  - eapply m_ok_bind; [apply m_ok_lift_bytes; intros b; apply (ok_getxattr _ HB)|]. intros value Hv. m_step.
    apply m_ok_put. intros w Hw. split; [|auto with nfs]. apply PutOpaque_ok; [done|].
    destruct (_ <? _); [by apply Forall_take, Forall_drop|apply nil_ok].
  - eapply (m_ok_bind _ _ bytes_ok).
    { destruct (_ >? 0); [|m_last]. apply m_ok_lift_bytes. intros b. apply (ok_read _ HB). }
    intros data Hd. m_run.
Qed.

Lemma readdir_entry_ok frozen dir request index e entry : bytes_ok (de_name e) →
  readdir_entry B opts creds frozen dir request index e = Some entry → bytes_ok entry.
Proof.
  intros Hn. unfold readdir_entry. destruct (negb (IsValidUtf8 (de_name e))); [done|].
  destruct (LookupChild B frozen creds dir (de_name e)) as [child|st].
  - intros [= <-]. pose proof (EncodeFattr_ok child request
      (PutString (PutU64 (PutBool [] true) (index + 3)) (de_name e)) ltac:(auto with nfs)) as Hf.
    destruct (EncodeFattr _ _ _ _ _). by destruct Hf.
  - destruct (IsSet request FATTR4_RDATTR_ERROR); [|done]. intros [= <-]. auto 7 with nfs.
Qed.

Lemma readdir_loop_ok frozen dir request maxcount entries : ∀ index num w,
  Forall (λ e, bytes_ok (de_name e)) entries → bytes_ok w →
  match readdir_loop B opts creds frozen dir request maxcount entries index num w with
  | inl (_, w') => bytes_ok w' ∧ w `prefix_of` w'
  | inr _ => True
  end.
Proof.
  induction entries as [|e entries IH]; intros index num w He Hw; cbn [readdir_loop]; [done|].
  apply Forall_cons in He as [Hn He].
  destruct (readdir_entry _ _ _ _ _ _ _ _) as [entry|] eqn:E; [|by apply IH].
  apply readdir_entry_ok in E; [|done]. destruct (_ >? maxcount); [by destruct (num =? 0)|].
  specialize (IH (index + 1) (num + 1) (PutRaw w entry) He ltac:(auto with nfs)).
  destruct (readdir_loop _ _ _ _ _ _ _ _ _ _ _) as [[i w']|]; [|done]. destruct IH as [? Hp].
  split; [done|]. etransitivity; [apply PutRaw_prefix|exact Hp].
Qed.

Lemma ListChildren_ok dir l : ListChildren B dir = inl l → Forall (λ e, bytes_ok (de_name e)) l.
Proof using HB.
  unfold ListChildren. destruct (_ =? kAttrDir).
  - destruct (b_ListXattr _ _) as [names|] eqn:E; [|done]. intros [= <-]. apply (ok_listxattr _ HB) in E.
    by apply Forall_fmap.
  - destruct (_ || _); [done|]. destruct (b_ReadDir _ _) as [l'|] eqn:E; [|done]. intros [= <-].
    by apply (ok_readdir _ HB) in E.
Qed.

Lemma OpReaddir_ok : m_ok (OpReaddir B opts creds) (λ _, True).
Proof using HB.
  unfold OpReaddir, readdir_page. do 10 m_step.
  eapply m_ok_bind; [apply m_ok_lift; intros l; apply ListChildren_ok|]. intros entries He.
  do 2 m_step. intros x Hx. pose proof Hx as [Ha Hb Hs].
  unfold get_body, get_srv. unfold m_bind at 1 2. exec.
  pose proof (readdir_loop_ok (frozen_attrs (srv x)) a5 a3 a2 (drop (Z.to_nat (if a =? 0 then 0 else a - 2)) entries)
    (if a =? 0 then 0 else a - 2) 0 (body x) ltac:(by apply Forall_drop) Hb) as Hl.
  destruct (readdir_loop _ _ _ _ _ _ _ _ _ _ _) as [[i w]|]; [|by eexists _, _]. destruct Hl as [Hw Hp].
  unfold put, m_bind. exec. eexists _, _. split; [done|]. split; [split; cbn [args body srv]; auto with nfs|].
  split; [|done]. cbn [body]. etransitivity; [exact Hp|]. etransitivity; apply PutBool_prefix.
Qed.
End Reading.

(** ** The state *)

Lemma RecordSeqid_bytes s owner seqid op status b : nfs_bytes s → bytes_ok b →
  nfs_bytes (RecordSeqid s owner seqid op status b).
Proof.
  intros [Ho Hs] Hb. unfold RecordSeqid. destruct (negb _); [done|]. split; [|done]. by apply Forall_map_set.
Qed.

Lemma CheckSeqid_bytes s owner seqid op create : nfs_bytes s →
  match CheckSeqid s owner seqid op create with SeqidReplay _ b => bytes_ok b | _ => True end.
Proof.
  intros [Ho _]. unfold CheckSeqid. destruct (map_find owner (owners s)) eqn:E; [|by destruct (negb create)].
  destruct (_ =? _); [done|]. destruct (_ && _); [|done]. by apply (Forall_map_find _ _ _ _ Ho E).
Qed.

Lemma NewStateid_bytes s : bytes_ok (NewStateidOther s).1 ∧ (nfs_bytes s → nfs_bytes (NewStateidOther s).2).
Proof. split; [cbn [fst NewStateidOther]; auto with nfs|]. by intros [? ?]. Qed.

Lemma DropClient_bytes s id : nfs_bytes s → nfs_bytes (DropClient s id).
Proof. intros [Ho Hs]. split; cbn; by apply Forall_filter_sub. Qed.

Lemma PutDelegation_bytes s id fh attr w : nfs_bytes s → bytes_ok w →
  let '(w', s') := PutDelegation opts s id fh attr w in bytes_ok w' ∧ nfs_bytes s'.
Proof.
  intros Hs Hw. unfold PutDelegation.
  assert (∃ g s1, (if may_grant opts s id fh && bool_decide ((id, fh_ino fh) ∈ recalled_files s)
    then (false, set_recalled s (recalled_files s ∖ {[(id, fh_ino fh)]})) else (may_grant opts s id fh, s)) = (g, s1)
    ∧ nfs_bytes s1) as (g & s1 & -> & Hs1).
  { destruct (_ && _); eexists _, _; (split; [done|]); [|done]. by destruct Hs. }
  destruct (_ || _); [split; [auto with nfs|done]|].
  destruct (NewStateid_bytes s1) as [Hk Hs2]. specialize (Hs2 Hs1).
  destruct (NewStateidOther s1) as [other s2]. cbn [fst snd] in *.
  assert (bytes_ok str_everyone) by (by apply (bool_decide_unpack _)).
  split; [|by destruct Hs2].
  apply PutString_ok; [|done]. do 3 apply PutU32_ok. apply PutBool_ok, PutStateid_ok; [auto with nfs|done].
Qed.

Lemma open_commit_bytes s owner seqid access claim target : nfs_bytes s →
  let '(_, b, s') := open_commit opts s owner seqid access claim target in bytes_ok b ∧ nfs_bytes s'.
Proof.
  intros Hs. unfold open_commit. destruct target as [t|st]; [|split; [apply nil_ok|by apply RecordSeqid_bytes, nil_ok]].
  assert (match open_entry opts s owner (o_fh t)
    with Some (k, o, s) => bytes_ok k ∧ nfs_bytes s | None => True end) as Hentry.
  { unfold open_entry. destruct (find_open _ _ _) as [[k o]|] eqn:E.
    - split; [|done]. destruct Hs as [_ Ho]. induction Ho as [|[k1 o1] l Hk _ IH]; [done|]. cbn [find_open] in E.
      destruct (_ && _); [by injection E as <- <-|by apply IH].
    - destruct (_ >=? _); [done|]. destruct (NewStateid_bytes s) as [Hk Hs2]. by destruct (NewStateidOther s); auto. }
  destruct (open_entry _ _ _ _) as [[[k o] s1]|]; [|by split; [apply nil_ok|]].
  destruct Hentry as [Hk Hs1]. cbn [os_seqid].
  set (s2 := set_opens s1 _). assert (nfs_bytes s2) as Hs2.
  { destruct Hs1 as [H1 H2]. split; [done|]. by apply Forall_map_set. }
  set (result := PutU32 (PutU32 _ OPEN4_RESULT_LOCKTYPE_POSIX) 0).
  assert (bytes_ok result) as Hres.
  { unfold result. do 2 apply PutU32_ok. do 2 apply PutU64_ok. apply PutBool_ok, PutStateid_ok; [apply nil_ok|done]. }
  destruct (claim =? CLAIM_NULL).
  - pose proof (PutDelegation_bytes s2 owner.1 (o_fh t) (o_attr t) result Hs2 Hres) as Hd.
    destruct (PutDelegation _ _ _ _ _ _) as [w s3]. destruct Hd. split; [done|by apply RecordSeqid_bytes].
  - split; [auto with nfs|]. apply RecordSeqid_bytes; auto with nfs.
Qed.

(** Changing the entry of a stateid and recording the reply. *)
Lemma stateid_reply_bytes s st (o : OpenState) owner seqid op :
  nfs_bytes s → stateid_ok st →
  let w := PutStateid (mkStateid (os_seqid o) (si_other st)) [] in
  bytes_ok w ∧ nfs_bytes (RecordSeqid (set_opens s (map_set (si_other st) o (open_states s))) owner seqid op NFS4_OK w).
Proof.
  intros [H1 H2] [Hb _]. assert (bytes_ok (PutStateid (mkStateid (os_seqid o) (si_other st)) [])) as Hw
    by (apply PutStateid_ok; [apply nil_ok|done]).
  split; [done|]. apply RecordSeqid_bytes; [|done]. split; [done|]. by apply Forall_map_set.
Qed.

Lemma open_confirm_bytes s st seqid : nfs_bytes s → stateid_ok st →
  let '(_, b, s') := open_confirm s st seqid in bytes_ok b ∧ nfs_bytes s'.
Proof.
  intros Hs Hst. unfold open_confirm. destruct (FindOpenState s st true) as [o|]; [|by split; [apply nil_ok|]].
  pose proof (CheckSeqid_bytes s (os_owner o) seqid OP_OPEN_CONFIRM false Hs).
  destruct (CheckSeqid _ _ _ _ _); [by apply stateid_reply_bytes|done|by split; [apply nil_ok|]].
Qed.

Lemma open_downgrade_bytes s st seqid access : nfs_bytes s → stateid_ok st →
  let '(_, b, s') := open_downgrade s st seqid access in bytes_ok b ∧ nfs_bytes s'.
Proof.
  intros Hs Hst. unfold open_downgrade. destruct (FindOpenState s st true) as [o|]; [|by split; [apply nil_ok|]].
  pose proof (CheckSeqid_bytes s (os_owner o) seqid OP_OPEN_DOWNGRADE false Hs).
  destruct (CheckSeqid _ _ _ _ _); [|done|by split; [apply nil_ok|]].
  destruct (negb _); [|by apply stateid_reply_bytes]. split; [apply nil_ok|by apply RecordSeqid_bytes, nil_ok].
Qed.

Lemma find_close_bytes seqid other l o : Forall (λ p : OwnerKey * OpenOwner, bytes_ok (ow_last_body p.2)) l →
  find_close seqid other l = Some o → bytes_ok (ow_last_body o).
Proof.
  induction 1 as [|[k o1] l Hk _ IH]; [done|]. cbn [find_close]. destruct (_ && _); [by intros [= <-]|done].
Qed.

Lemma close_file_bytes s seqid st : nfs_bytes s → stateid_ok st →
  let '(_, b, _, s') := close_file s seqid st in bytes_ok b ∧ nfs_bytes s'.
Proof.
  intros Hs Hst. unfold close_file. destruct (FindOpenState s st true) as [o|status].
  - pose proof (CheckSeqid_bytes s (os_owner o) seqid OP_CLOSE false Hs).
    destruct (CheckSeqid _ _ _ _ _); [|done|by split; [apply nil_ok|]]. destruct Hs as [H1 H2], Hst as [Hb _].
    assert (bytes_ok (PutStateid (mkStateid (u32 (os_seqid o + 1)) (si_other st)) []))
      by (apply PutStateid_ok; [apply nil_ok|done]).
    split; [done|]. apply RecordSeqid_bytes; [|done]. split; [done|]. by apply Forall_map_erase.
  - destruct (status =? NFS4ERR_BAD_STATEID); [|by split; [apply nil_ok|]].
    destruct (find_close _ _ _) eqn:E; [|by split; [apply nil_ok|]]. destruct Hs as [H1 H2].
    split; [by eapply find_close_bytes|done].
Qed.

Lemma setclientid_bytes s now verf name p i n (a : bytes) : nfs_bytes s →
  let '(_, confirm, s') := setclientid opts inet_pton s now verf name p i n a in bytes_ok confirm ∧ nfs_bytes s'.
Proof.
  intros Hs. unfold setclientid. set (m := if default 0 _ =? 0 then _ else _).
  assert (nfs_bytes m.2) as Hm by (unfold m; destruct (_ =? 0); by destruct Hs).
  destruct m as [id s1]. cbn [snd] in Hm. cbn zeta.
  destruct (delegations_on opts); (split; [auto with nfs|by destruct Hm]).
Qed.

Lemma foldl_DropClient_bytes l s : nfs_bytes s → nfs_bytes (foldl DropClient s l).
Proof. revert s. induction l as [|id l IH]; intros s Hs; [done|]. by apply IH, DropClient_bytes. Qed.

Lemma setclientid_confirm_bytes s id confirm : nfs_bytes s → nfs_bytes (setclientid_confirm opts s id confirm).2.
Proof.
  intros Hs. unfold setclientid_confirm. destruct (map_find id (clients s)) as [c|]; [|done].
  destruct (negb _); [done|]. set (s1 := if _ && _ then _ else s).
  assert (nfs_bytes s1) as Hs1 by (unfold s1; destruct (_ && _); by destruct Hs).
  destruct (cl_confirmed c); [done|]. cbn [snd]. apply foldl_DropClient_bytes. by destruct Hs1.
Qed.

Lemma delegreturn_bytes s st : nfs_bytes s → nfs_bytes (delegreturn s st).2.
Proof.
  intros Hs. unfold delegreturn. destruct (negb _); [done|]. destruct (map_find _ _); [|done]. cbn [snd].
  destruct (_ >? 0); by destruct Hs.
Qed.

(** ** Operations on the state *)

Lemma OpDelegreturn_ok : m_ok OpDelegreturn (λ _, True).
Proof.
  unfold OpDelegreturn. do 2 m_step. pose proof (delegreturn_bytes a0 a H0) as Hs.
  destruct (delegreturn a0 a) as [st s']. eapply m_ok_bind; [by apply m_ok_put_srv|]. intros. m_last.
Qed.

Lemma OpRenew_ok : m_ok OpRenew (λ _, True).
Proof. unfold OpRenew. m_run. Qed.

Lemma OpSetclientid_ok now : m_ok (OpSetclientid opts inet_pton now) (λ _, True).
Proof.
  unfold OpSetclientid. eapply m_ok_bind.
  { apply m_ok_get_unchecked; [eapply getter_safe_impl; [by apply Fixed_safe|]|]; [|apply nil_ok]. by intros b [? _]. }
  intros verf Hverf. do 8 m_step.
  pose proof (setclientid_bytes a6 now verf a a0 a3 a1 a2 H6) as Hs.
  destruct (setclientid _ _ _ _ _ _ _ _ _ _) as [[id confirm] s']. destruct Hs as [Hc Hs'].
  eapply m_ok_bind; [by apply m_ok_put_srv|]. intros. m_step. m_last.
Qed.

Lemma OpSetclientidConfirm_ok : m_ok (OpSetclientidConfirm opts) (λ _, True).
Proof.
  unfold OpSetclientidConfirm. do 3 m_step. pose proof (setclientid_confirm_bytes a1 a a0 H1) as Hs.
  destruct (setclientid_confirm _ _ _ _) as [st s']. eapply m_ok_bind; [by apply m_ok_put_srv|]. intros. m_last.
Qed.

Lemma OpOpenConfirm_ok : m_ok OpOpenConfirm (λ _, True).
Proof.
  unfold OpOpenConfirm. do 4 m_step. pose proof (open_confirm_bytes a2 a a0 H2 H) as Hs.
  destruct (open_confirm _ _ _) as [[st b] s']. destruct Hs as [Hb Hs'].
  eapply m_ok_bind; [by apply m_ok_put_srv|]. intros. m_step. m_last.
Qed.

Lemma OpOpenDowngrade_ok : m_ok OpOpenDowngrade (λ _, True).
Proof.
  unfold OpOpenDowngrade. do 6 m_step. pose proof (open_downgrade_bytes a4 a a0 a1 H4 H) as Hs.
  destruct (open_downgrade _ _ _ _) as [[st b] s']. destruct Hs as [Hb Hs'].
  eapply m_ok_bind; [by apply m_ok_put_srv|]. intros. m_step. m_last.
Qed.

Lemma OpClose_ok : m_ok OpClose (λ _, True).
Proof.
  unfold OpClose. do 4 m_step. pose proof (close_file_bytes a2 a a0 H2 H0) as Hs.
  destruct (close_file _ _ _) as [[[st b] forget] s']. destruct Hs as [Hb Hs'].
  eapply m_ok_bind; [apply m_ok_put_srv; destruct (negb _); by destruct Hs'|]. intros. m_step. m_last.
Qed.

Lemma open_args_ok : m_ok open_args (λ _, True).
Proof.
  unfold open_args. do 11 m_step. eapply (m_ok_bind _ _ (λ _, True)).
  { destruct (_ =? CLAIM_NULL); [m_last|]. destruct (_ =? CLAIM_PREVIOUS); [m_step; m_last|].
    destruct (_ =? CLAIM_DELEGATE_CUR); [|m_last].
    eapply m_ok_bind; [apply (m_ok_get_unchecked _ (λ _, True)); [|done]|intros; m_last].
    by eapply getter_safe_impl; [apply Stateid_safe|]. }
  intros. m_run.
Qed.

Lemma OpOpen_ok creds : m_ok (OpOpen B opts creds) (λ _, True).
Proof.
  unfold OpOpen. eapply m_ok_bind; [apply open_args_ok|]. intros a _. do 2 m_step.
  pose proof (CheckSeqid_bytes a1 (oa_owner a) (oa_seqid a) OP_OPEN true H0) as Hrep.
  unfold open_check. destruct (negb (CheckClient _ _ =? NFS4_OK)); [m_last|].
  destruct (CheckSeqid _ _ _ _ _) as [|st b|st]; [|m_step; m_last|m_last].
  do 2 m_step. set (target := open_target _ _ _ _ _).
  pose proof (open_commit_bytes a3 (oa_owner a) (oa_seqid a) (oa_access a) (oa_claim a) target H2) as Hs.
  destruct (open_commit _ _ _ _ _ _ _) as [[st b] s']. destruct Hs as [Hb Hs'].
  eapply m_ok_bind; [by apply m_ok_put_srv|]. intros. m_step.
  eapply (m_ok_bind _ _ (λ _, True)); [destruct target; m_last|]. intros. m_last.
Qed.

Lemma ProcessOp_ok now creds op : m_ok (ProcessOp B opts inet_pton now creds op) (λ _, True).
Proof using HB.
  unfold ProcessOp.
  repeat match goal with |- m_ok (if ?b then _ else _) _ => destruct b; [try solve
    [apply OpAccess_ok | apply OpClose_ok | apply OpGetattr_ok | apply OpGetfh_ok | apply OpLookup_ok
    | apply OpLookupp_ok | apply OpVerify_ok | apply OpOpen_ok | apply OpOpenattr_ok | apply OpOpenConfirm_ok
    | apply OpOpenDowngrade_ok | apply OpPutfh_ok | by apply OpRead_ok | by apply OpReaddir_ok | by apply OpReadlink_ok
    | apply OpRenew_ok | apply OpSecinfo_ok | apply OpSetclientid_ok | apply OpSetclientidConfirm_ok
    | apply OpDelegreturn_ok | unfold rofs; m_run]|] end.
  m_last.
Qed.

(** ** The reply to a COMPOUND *)

Lemma wr_mid (pre mid post : bytes) x y i : i = zlen pre + zlen mid →
  wr (pre ++ mid ++ x :: post) i y = Ret (pre ++ mid ++ y :: post).
Proof.
  rewrite <- zlen_app. intros ->. rewrite !app_assoc. unfold wr, lget, lset, zlen. rewrite !decide_True by lia.
  rewrite Nat2Z.id. rewrite list_lookup_middle by done. rewrite insert_app_r_alt by lia. rewrite Nat.sub_diag. done.
Qed.

Lemma patch_at (pre post : bytes) a b c d v i : i = zlen pre →
  PatchU32 (pre ++ [a; b; c; d] ++ post) i v = Ret (pre ++ u32_bytes v ++ post).
Proof.
  intros ->. unfold PatchU32, u32_bytes. cbn [app].
  set (b0 := u8 (Z.shiftr v 24)). set (b1 := u8 (Z.shiftr v 16)). set (b2 := u8 (Z.shiftr v 8)). set (b3 := u8 v).
  pose proof (wr_mid pre [] (b :: c :: d :: post) a b0 (zlen pre) ltac:(symmetry; apply Z.add_0_r)) as H0.
  pose proof (wr_mid pre [b0] (c :: d :: post) b b1 (zlen pre + 1) eq_refl) as H1.
  pose proof (wr_mid pre [b0; b1] (d :: post) c b2 (zlen pre + 2) eq_refl) as H2.
  pose proof (wr_mid pre [b0; b1; b2] post d b3 (zlen pre + 3) eq_refl) as H3.
  cbn [app] in H0, H1, H2, H3. rewrite H0. exec. rewrite H1. exec. rewrite H2. exec. exact H3.
Qed.

Lemma patch_second (pre post : bytes) v1 v2 :
  PatchU32 (pre ++ u32_bytes v1 ++ [0; 0; 0; 0] ++ post) (zlen (pre ++ [0; 0; 0; 0])) v2
  = Ret (pre ++ u32_bytes v1 ++ u32_bytes v2 ++ post).
Proof. rewrite (app_assoc pre), patch_at by (by rewrite !zlen_app). by rewrite <- app_assoc. Qed.

(** The result of an operation: its number, status and body. *)
Record OpResult := mkResult { r_op : Z; r_status : Z; r_body : bytes }.
Definition result_bytes (r : OpResult) : bytes := u32_bytes (r_op r) ++ u32_bytes (r_status r) ++ r_body r.

(** A failed operation has no body, except for the empty bitmap of SETATTR. *)
Definition result_ok (r : OpResult) : Prop :=
  bytes_ok (r_body r) ∧ (r_status r ≠ NFS4_OK → r_body r = [] ∨ r_body r = u32_bytes 0).

Lemma compound_op_spec now creds x : ctx_ok x →
  ∃ x' o, compound_op B opts inet_pton now creds x = Ret (x', o) ∧ ctx_ok x'
    ∧ match o with
      | None => body x' = body x
      | Some st => ∃ r, body x' = body x ++ result_bytes r ∧ result_ok r ∧ r_status r = st
      end.
Proof using HB.
  intros [Ha Hb Hs]. unfold compound_op. destruct (U32_safe _ Ha) as (o & r & -> & Hr & _). exec.
  destruct o as [op|]; [|by eexists _, _]. unfold ReserveU32. cbn [fst snd body].
  set (w := (body x ++ repeat 0 4) ++ repeat 0 4).
  assert (bytes_ok w) as Hw by (unfold w; apply bytes_ok_app; [apply bytes_ok_app; [done|]|]; by repeat constructor).
  unfold run_op. destruct (ProcessOp_ok now creds op (with_body (mkCtx r (comp x) (body x) (srv x)) w))
    as (x1 & res & -> & [Ha1 Hb1 Hs1] & [rest Hpre] & _); [done|]. exec. cbn [body with_body] in Hpre.
  set (st0 := match res with inl _ => NFS4_OK | inr st => st end).
  set (st := if (st0 =? NFS4_OK) && negb (ok_ (args x1)) then NFS4ERR_BADXDR else st0).
  rewrite Hpre. unfold w. change (repeat 0 4) with [0; 0; 0; 0]. rewrite <- !app_assoc.
  rewrite (patch_at (body x) ([0; 0; 0; 0] ++ rest)) by done. exec. rewrite patch_second. exec.
  assert (bytes_ok rest) as Hrest by (rewrite Hpre in Hb1; by apply Forall_app in Hb1 as [_ ?]).
  eexists _, (Some st). split; [done|]. cbn [body with_body args srv].
  set (op' := if st =? NFS4ERR_OP_ILLEGAL then OP_ILLEGAL else op).
  destruct (Z.eqb_spec st NFS4_OK) as [E|E]; cbn [negb].
  - split; [split; [done| |done]; cbn [body]; repeat apply bytes_ok_app; auto with nfs|].
    by exists (mkResult op' st rest).
  - assert (Truncate (body x ++ u32_bytes op' ++ u32_bytes st ++ rest)
              (zlen (body x ++ [0; 0; 0; 0] ++ [0; 0; 0; 0])) = body x ++ u32_bytes op' ++ u32_bytes st) as ->.
    { unfold Truncate. replace (body x ++ u32_bytes op' ++ u32_bytes st ++ rest)
        with ((body x ++ u32_bytes op' ++ u32_bytes st) ++ rest) by (by rewrite <- !app_assoc).
      apply take_app_length'. unfold zlen. rewrite Nat2Z.id, !length_app. done. }
    assert (bytes_ok (body x ++ u32_bytes op' ++ u32_bytes st)) as Hok by (repeat apply bytes_ok_app; auto with nfs).
    destruct (Z.eqb_spec op OP_SETATTR) as [->|].
    + split; [split; [done|by apply PutU32_ok|done]|]. exists (mkResult op' st (u32_bytes 0)).
      unfold result_bytes. cbn [r_op r_status r_body]. rewrite PutU32_bytes, <- !app_assoc.
      split; [done|]. split; [|done]. split; [apply u32_bytes_ok|by right].
    + split; [done|]. exists (mkResult op' st []). unfold result_bytes. cbn [r_op r_status r_body].
      rewrite app_nil_r. split; [done|]. split; [|done]. split; [apply nil_ok|by left].
Qed.

(** [results] are those of [n] operations that end with [status]: all of them
    succeeded, or one failed and was the last, or the next one could not be
    read. *)
Inductive results_of : nat → Z → list OpResult → Prop :=
| results_done : results_of 0 NFS4_OK []
| results_garbled n : results_of (S n) NFS4ERR_BADXDR []
| results_failed n r : result_ok r → r_status r ≠ NFS4_OK → results_of (S n) (r_status r) [r]
| results_next n st r rs : result_ok r → r_status r = NFS4_OK → results_of n st rs → results_of (S n) st (r :: rs).

Lemma compound_loop_spec now creds n : ∀ num x, ctx_ok x →
  ∃ x' st rs, compound_loop B opts inet_pton now creds n num x = Ret (x', st, num + zlen rs) ∧ ctx_ok x'
    ∧ body x' = body x ++ concat (result_bytes <$> rs) ∧ results_of n st rs.
Proof using HB.
  induction n as [|n IH]; intros num x Hx; cbn [compound_loop].
  { exists x, NFS4_OK, []. change (zlen (A := OpResult) []) with 0. rewrite Z.add_0_r. cbn. rewrite app_nil_r.
    split_and!; auto using results_of. }
  destruct (compound_op_spec now creds x Hx) as (x1 & o & -> & Hx1 & Ho). exec. destruct o as [st|].
  2: { exists x1, NFS4ERR_BADXDR, []. change (zlen (A := OpResult) []) with 0. rewrite Z.add_0_r. cbn.
       rewrite app_nil_r. split_and!; auto using results_of. }
  destruct Ho as (r & Hb & Hr & <-). destruct (Z.eqb_spec (r_status r) NFS4_OK) as [E|E]; cbn [negb].
  - destruct (IH (num + 1) x1 Hx1) as (x2 & st & rs & -> & Hx2 & Hb2 & Hrs).
    exists x2, st, (r :: rs). rewrite zlen_cons. split_and!; [by replace (num + (1 + zlen rs)) with (num + 1 + zlen rs) by lia|done| |by constructor].
    rewrite Hb2, Hb, <- app_assoc. done.
  - exists x1, (r_status r), [r]. split_and!; [done|done| |by constructor].
    rewrite Hb. cbn. by rewrite app_nil_r.
Qed.

(** The encoding of a COMPOUND reply. *)
Definition compound_bytes (st : Z) (tag : bytes) (rs : list OpResult) : bytes :=
  u32_bytes st ++ opaque_bytes tag ++ u32_bytes (zlen rs) ++ concat (result_bytes <$> rs).

Lemma ProcessCompound_spec now creds args res s : reader_ok args → bytes_ok res → nfs_bytes s →
  ∃ st tag rs s', ProcessCompound B opts inet_pton now creds args res s = Ret (st, res ++ compound_bytes st tag rs, s')
    ∧ nfs_bytes s' ∧ bytes_ok tag
    ∧ (rs = [] ∧ st ≠ NFS4_OK ∨ ∃ n, Z.of_nat n ≤ Z.max 0 (max_compound_ops opts) ∧ results_of n st rs).
Proof using HB.
  intros Ha Hres Hs. unfold ProcessCompound.
  destruct (Opaque_safe kNfs4OpaqueLimit _ Ha) as (tag & r1 & -> & Hr1 & Htag). exec.
  destruct (U32_safe _ Hr1) as (minor & r2 & -> & Hr2 & _). exec.
  destruct (U32_safe _ Hr2) as (num & r3 & -> & Hr3 & Hnum). exec.
  unfold ReserveU32. cbn [fst snd]. set (t := default [] tag).
  assert (bytes_ok t) as Ht by (unfold t; destruct tag; [done|apply nil_ok]).
  rewrite PutOpaque_bytes. change (repeat 0 4) with [0; 0; 0; 0]. rewrite <- !app_assoc.
  set (w := res ++ [0; 0; 0; 0] ++ opaque_bytes t ++ [0; 0; 0; 0]).
  set (x := mkCtx r3 new_compound w s). assert (ctx_ok x) as Hx.
  { assert (bytes_ok [0; 0; 0; 0]) as Hz by (by apply (bool_decide_unpack _)).
    split; [done| |done]. unfold x, w, bytes_ok. cbn [body]. rewrite !Forall_app.
    split_and!; try done. by apply opaque_bytes_ok. }
  set (m := if negb (ok_ r3) then _ else _).
  assert (∃ x' st rs, m = Ret (x', st, zlen rs) ∧ ctx_ok x' ∧ body x' = w ++ concat (result_bytes <$> rs)
    ∧ (rs = [] ∧ st ≠ NFS4_OK ∨ ∃ n, Z.of_nat n ≤ Z.max 0 (max_compound_ops opts) ∧ results_of n st rs)) as Hm.
  { unfold m. assert (∀ e, e ≠ NFS4_OK → ∃ x' st rs, Ret (x, e, 0) = Ret (x', st, zlen rs) ∧ ctx_ok x'
      ∧ body x' = w ++ concat (result_bytes <$> rs) ∧ (rs = [] ∧ st ≠ NFS4_OK ∨ ∃ n, Z.of_nat n ≤ Z.max 0 (max_compound_ops opts) ∧ results_of n st rs)) as Herr.
    { intros e He. exists x, e, []. cbn. rewrite app_nil_r. split_and!; auto. }
    destruct (negb (ok_ r3)); [by apply Herr|]. destruct (negb _); [by apply Herr|].
    destruct (_ >? _) eqn:Hmax; [by apply Herr|].
    destruct (compound_loop_spec now creds (Z.to_nat (default 0 num)) 0 x Hx) as (x' & st & rs & -> & Hx' & Hb & Hrs).
    exists x', st, rs. split_and!; try done. right. eexists. split; [|exact Hrs].
    destruct num; cbn in *; unfold_words; lia. }
  destruct Hm as (x' & st & rs & -> & Hx' & Hb & Hrs). exec. rewrite Hb. unfold w. rewrite <- !app_assoc.
  rewrite (patch_at res (opaque_bytes t ++ [0; 0; 0; 0] ++ _)) by done. exec.
  rewrite !(app_assoc res), !(app_assoc (res ++ _)), (patch_at _ (concat _)) by (by rewrite !zlen_app).
  exec. exists st, t, rs, (srv x'). destruct Hx'. split_and!; try done.
  unfold compound_bytes. by rewrite <- !app_assoc.
Qed.

(** The reply of a server that gives up waiting. *)
Lemma delay_reply_spec (cursor res : bytes) : bytes_ok cursor → zlen cursor < 2 ^ 64 → bytes_ok res →
  ∃ tag rs, delay_reply cursor res = Ret (res ++ compound_bytes NFS4ERR_DELAY tag rs) ∧ bytes_ok tag
    ∧ (rs = [] ∨ ∃ op, rs = [mkResult op NFS4ERR_DELAY []]).
Proof.
  intros Hc Hl Hres. unfold delay_reply. pose proof (new_reader_ok cursor Hc Hl) as Hr0.
  destruct (Opaque_safe kNfs4OpaqueLimit _ Hr0) as (tag & r1 & -> & Hr1 & Htag). exec.
  destruct (U32_safe _ Hr1) as (minor & r2 & -> & Hr2 & _). exec.
  destruct (U32_safe _ Hr2) as (num & r3 & -> & Hr3 & _). exec.
  destruct (U32_safe _ Hr3) as (op & r4 & -> & Hr4 & _). exec.
  assert (bytes_ok (default [] tag)) by (destruct tag; [done|apply nil_ok]).
  exists (default [] tag). rewrite PutOpaque_bytes. destruct (_ || _).
  - exists []. split_and!; [|done|by left]. rewrite !PutU32_bytes, <- !app_assoc. done.
  - exists [mkResult (default 0 op) NFS4ERR_DELAY []]. split_and!; [|done|by right; eexists].
    rewrite !PutU32_bytes, <- !app_assoc. done.
Qed.

Lemma concat_result_ok n st rs : results_of n st rs → bytes_ok (concat (result_bytes <$> rs)).
Proof.
  assert (∀ r, result_ok r → bytes_ok (result_bytes r)) as Hr.
  { intros r [Hb _]. unfold result_bytes. repeat apply bytes_ok_app; auto with nfs. }
  induction 1 as [| |n r Hok _|n st r rs Hok _ _ IH]; cbn [fmap list_fmap concat]; try apply nil_ok.
  - rewrite app_nil_r. auto.
  - apply bytes_ok_app; auto.
Qed.

Lemma compound_bytes_ok st tag rs : bytes_ok tag → bytes_ok (concat (result_bytes <$> rs)) →
  bytes_ok (compound_bytes st tag rs).
Proof.
  intros. unfold compound_bytes, bytes_ok. rewrite !Forall_app.
  split_and!; [apply u32_bytes_ok|by apply opaque_bytes_ok|apply u32_bytes_ok|done].
Qed.

(** What a COMPOUND is answered with. *)
Definition compound_reply_ok (b : bytes) : Prop :=
  ∃ st tag rs, b = compound_bytes st tag rs ∧ bytes_ok b
    ∧ (rs = [] ∧ st ≠ NFS4_OK ∨ ∃ n, Z.of_nat n ≤ Z.max 1 (max_compound_ops opts) ∧ results_of n st rs).

Lemma compound_ok now creds args res s : reader_ok args → bytes_ok res → nfs_bytes s →
  ∃ st b s', ProcessCompound B opts inet_pton now creds args res s = Ret (st, res ++ b, s') ∧ nfs_bytes s'
    ∧ compound_reply_ok b.
Proof using HB.
  intros Ha Hres Hs. destruct (ProcessCompound_spec now creds args res s Ha Hres Hs)
    as (st & tag & rs & s' & -> & Hs' & Htag & Hrs).
  eexists _, _, _. split; [done|]. split; [done|]. exists st, tag, rs. split; [done|]. split.
  - apply compound_bytes_ok; [done|]. destruct Hrs as [[-> _]|(n & _ & Hrs)]; [apply nil_ok|by eapply concat_result_ok].
  - destruct Hrs as [?|(n & Hn & Hrs)]; [by left|]. right. exists n. split; [lia|done].
Qed.

Lemma delay_ok (cursor res : bytes) : bytes_ok cursor → zlen cursor < 2 ^ 64 → bytes_ok res →
  ∃ b, delay_reply cursor res = Ret (res ++ b) ∧ compound_reply_ok b.
Proof.
  intros Hc Hl Hres. destruct (delay_reply_spec cursor res Hc Hl Hres) as (tag & rs & -> & Htag & Hrs).
  eexists. split; [done|]. exists NFS4ERR_DELAY, tag, rs. split; [done|].
  assert (∀ op, result_ok (mkResult op NFS4ERR_DELAY [])) as Hok by (intros; split; [apply nil_ok|by left]).
  destruct Hrs as [->|[op ->]].
  - split; [apply compound_bytes_ok; [done|apply nil_ok]|by left].
  - assert (results_of 1 NFS4ERR_DELAY [mkResult op NFS4ERR_DELAY []]) as Hr
      by (by apply (results_failed 0 (mkResult op NFS4ERR_DELAY []))).
    split; [apply compound_bytes_ok; [done|by eapply concat_result_ok]|]. right. exists 1%nat. split; [lia|done].
Qed.

Lemma NfsDispatch_ok now d s call args res : nfs_bytes s → reader_ok args → bytes_ok res →
  ∃ stat b s', NfsDispatch B opts inet_pton now d s call args res = Ret (stat, res ++ b, s') ∧ nfs_bytes s'
    ∧ bytes_ok b ∧ (stat = kAcceptSuccess ∨ stat = kAcceptProcUnavail)
    ∧ (call_procedure call = kNfsProcCompound → stat = kAcceptSuccess ∧ compound_reply_ok b).
Proof using HB.
  intros Hs Ha Hres. unfold NfsDispatch. destruct (cursor_ok _ Ha) as [Hcb Hcl].
  destruct (Z.eqb_spec (call_procedure call) kNfsProcNull) as [E|_].
  { exists kAcceptSuccess, [], s. rewrite app_nil_r. split_and!; auto using nil_ok. by rewrite E. }
  destruct (Z.eqb_spec (call_procedure call) kNfsProcCompound) as [_|E].
  2: { exists kAcceptProcUnavail, [], s. rewrite app_nil_r. split_and!; auto using nil_ok. by intros. }
  assert (∀ b, compound_reply_ok b → bytes_ok b) as Hbytes by (by intros b (? & ? & ? & _ & ? & _)).
  destruct (delay_after_ms opts >? 0).
  - unfold RunWithDeadline. destruct (delay_ok (cursor args) res Hcb Hcl Hres) as (b & -> & Hb).
    destruct (compound_ok now (call_creds call) (new_reader (cursor args)) [] s) as (st & b' & s' & -> & Hs' & Hb');
      [by apply new_reader_ok|apply nil_ok|done|].
    destruct d; exec; eexists _, _, _; (split; [reflexivity|]); split_and!; auto.
  - destruct (compound_ok now (call_creds call) args res s Ha Hres Hs) as (st & b & s' & -> & Hs' & Hb). exec.
    eexists _, _, _. split; [done|]. split_and!; auto.
Qed.

(** The server keeps the promises of an RPC program. *)
Definition nfs_laws (now : Z) (d : deadline) : @RpcProgramLaws Nfs (nfs_program B opts inet_pton now d).
Proof using HB.
  refine (@Build_RpcProgramLaws Nfs (nfs_program B opts inet_pton now d) nfs_bytes _).
  intros s call args w Hs Ha Hw. destruct (NfsDispatch_ok now d s call args w Hs Ha Hw)
    as (stat & b & s' & Hd & Hs' & Hb & Hstat & _).
  exists stat, b, s'. split; [exact Hd|]. split_and!; [done|done|..]; by destruct Hstat as [->| ->].
Defined.

End Safe.
