(* ===== verification/NfsAttr.v ===== *)
(** * NFS server: file attributes (src/cvmfs/nfs4/nfs4_server.cc)

    Attributes can always be encoded, and what GETATTR returns is what VERIFY
    accepts. *)

From stdpp Require Import base numbers list gmap.
From S2P Require Import Prelude Bytes StringUtil StdMap NfsConst Xdr FileHandle Rpc Callback NfsObject NfsServer NfsOps NfsSafe.

Open Scope Z_scope.
Open Scope nfs_scope.

(** ** Programs on a known context *)

Lemma m_bind_inl {A A'} (m : M A) (f : A → M A') x x' a : m x = Ret (x', inl a) → m_bind m f x = f a x'.
Proof. intros H. unfold m_bind. by rewrite H. Qed.

Lemma m_bind_inr {A A'} (m : M A) (f : A → M A') x x' st : m x = Ret (x', inr st) → m_bind m f x = Ret (x', inr st).
Proof. intros H. unfold m_bind. by rewrite H. Qed.

Lemma get_at {A} (g : getter A) err enc v pre post c b s :
  reads g enc v → zlen pre + zlen (enc ++ post) < 2 ^ 64 →
  get g err (mkCtx (reader_at pre (enc ++ post)) c b s) = Ret (mkCtx (reader_at (pre ++ enc) post) c b s, inl v).
Proof. intros Hg Hl. unfold get. cbn [args comp body srv]. by rewrite (reads_at g enc v). Qed.

Lemma get_at_end {A} (g : getter A) err enc v pre c b s :
  reads g enc v → zlen pre + zlen enc < 2 ^ 64 →
  get g err (mkCtx (reader_at pre enc) c b s) = Ret (mkCtx (reader_at (pre ++ enc) []) c b s, inl v).
Proof. intros Hg Hl. rewrite <- (app_nil_r enc) at 1. apply get_at; [done|]. by rewrite app_nil_r. Qed.

Lemma reads_new {A} (g : getter A) enc v post : reads g enc v → zlen (enc ++ post) < 2 ^ 64 →
  g (new_reader (enc ++ post)) = Ret (Some v, reader_at enc post).
Proof. intros Hg Hl. rewrite new_reader_at, (reads_at g enc v [] post Hg); [done|exact Hl]. Qed.

Lemma get_new {A} (g : getter A) err enc v post c b s :
  reads g enc v → zlen (enc ++ post) < 2 ^ 64 →
  get g err (mkCtx (new_reader (enc ++ post)) c b s) = Ret (mkCtx (reader_at enc post) c b s, inl v).
Proof. intros Hg Hl. unfold get. cbn [args comp body srv]. by rewrite (reads_new g enc v). Qed.

Lemma check_true st x : check true st x = Ret (x, inl tt).
Proof. done. Qed.

(** ** Bitmaps *)

Definition words_bytes (ws : list Z) : bytes := concat (u32_bytes <$> ws).
Definition bitmap_bytes (ws : list Z) : bytes := u32_bytes (zlen ws) ++ words_bytes ws.

Lemma words_bytes_cons x ws : words_bytes (x :: ws) = u32_bytes x ++ words_bytes ws.
Proof. done. Qed.

Lemma zlen_words_bytes ws : zlen (words_bytes ws) = 4 * zlen ws.
Proof.
  induction ws as [|x ws IH]; [done|]. rewrite words_bytes_cons, zlen_app, zlen_cons, IH, zlen_u32_bytes. lia.
Qed.

Lemma PutBitmap_bytes ws w : PutBitmap ws w = w ++ bitmap_bytes (drop_zeros ws).
Proof.
  unfold PutBitmap, bitmap_bytes. rewrite PutU32_bytes, app_assoc. generalize (w ++ u32_bytes (zlen (drop_zeros ws))).
  induction (drop_zeros ws) as [|x l IH]; intros v; cbn [foldl]; [by rewrite app_nil_r|].
  by rewrite IH, PutU32_bytes, words_bytes_cons, <- app_assoc.
Qed.

Lemma bitmap_words_reads ws : Forall is_u32 ws → ∀ pre post acc,
  zlen pre + zlen (words_bytes ws ++ post) < 2 ^ 64 →
  bitmap_words (length ws) (reader_at pre (words_bytes ws ++ post)) acc
  = Ret (acc ++ ws, reader_at (pre ++ words_bytes ws) post).
Proof.
  induction 1 as [|x ws Hx Hws IH]; intros pre post acc Hl; cbn [bitmap_words length].
  { by rewrite !app_nil_r. }
  rewrite words_bytes_cons in *. rewrite <- app_assoc in Hl. rewrite zlen_app, zlen_u32_bytes in Hl.
  rewrite <- !app_assoc.
  rewrite (reads_at GetU32 (u32_bytes x) x); [|by apply GetU32_reads|rewrite zlen_app, zlen_u32_bytes; lia]. exec.
  rewrite IH by (rewrite zlen_app, zlen_u32_bytes; lia). by rewrite <- !app_assoc.
Qed.

Lemma DecodeBitmap_reads ws : Forall is_u32 ws → zlen ws ≤ 8 → reads DecodeBitmap (bitmap_bytes ws) ws.
Proof.
  intros Hws Hl pre post Hlen. unfold DecodeBitmap, bitmap_bytes in *. pose proof (zlen_nonneg ws).
  pose proof (reads_at GetU32 (u32_bytes (zlen ws)) (zlen ws) pre (words_bytes ws ++ post)) as Hr.
  rewrite !zlen_app in Hlen. rewrite <- app_assoc. fold (reader_at pre (u32_bytes (zlen ws) ++ words_bytes ws ++ post)).
  rewrite Hr; [|apply GetU32_reads; unfold is_u32; lia|rewrite !zlen_app; lia]. exec. rewrite gtb_false by lia.
  replace (Z.to_nat (zlen ws)) with (length ws) by (unfold zlen; lia).
  rewrite bitmap_words_reads by (try done; rewrite !zlen_app; lia). exec. unfold reader_at.
  rewrite !zlen_app, <- !app_assoc. by rewrite ?Z.add_assoc.
Qed.

(** ** Every supported attribute is encoded *)

Lemma IsSet_testbit ws a x : 0 ≤ a → lget ws (a / 32) = Some x → IsSet ws a = Z.testbit x (a mod 32).
Proof.
  intros Ha Hx. unfold IsSet. rewrite Hx. pose proof (Z.mod_pos_bound a 32 ltac:(lia)).
  destruct (Z.testbit x (a mod 32)) eqn:E.
  - apply negb_true_iff, Z.eqb_neq. intros H0. assert (Z.testbit (Z.land x (Z.shiftl 1 (a mod 32))) (a mod 32) = false) as Hf
      by (by rewrite H0, Z.bits_0).
    rewrite Z.land_spec, E, Z.shiftl_spec, Z.sub_diag in Hf by lia. done.
  - apply negb_false_iff, Z.eqb_eq. apply Z.bits_inj'. intros i Hi. rewrite Z.land_spec, Z.bits_0, Z.shiftl_spec by lia.
    destruct (decide (i = a mod 32)) as [->|Hne]; [by rewrite E|].
    destruct (Z.ltb_spec (i - a mod 32) 0); [rewrite (Z.testbit_neg_r 1) by lia; by rewrite andb_false_r|].
    rewrite (Z.bits_above_log2 1); [apply andb_false_r|lia|change (Z.log2 1) with 0; lia].
Qed.

(** The attributes that may be returned, as words. *)
Definition returnable : list Z := [Z.land (hd 0 SupportedBitmap) (2 ^ 32 - 1 - Z.shiftl 1 FATTR4_RDATTR_ERROR); nth 1 SupportedBitmap 0].

Lemma IsSet_two x y a : 0 ≤ a < 64 → IsSet [x; y] a = if a <? 32 then Z.testbit x (a mod 32) else Z.testbit y (a mod 32).
Proof.
  intros Ha. destruct (Z.ltb_spec a 32); apply IsSet_testbit; try lia.
  - by replace (a / 32) with 0 by dlia.
  - by replace (a / 32) with 1 by dlia.
Qed.

(** A word of the request, masked. *)
Definition request_word (request supported : list Z) (i : Z) : Z :=
  match lget request i, lget supported i with Some r, Some s => Z.land r s | _, _ => 0 end.

Lemma returned_words_eq request :
  returned_words request = [Z.land (request_word request SupportedBitmap 0) (2 ^ 32 - 1 - Z.shiftl 1 FATTR4_RDATTR_ERROR);
                            request_word request SupportedBitmap 1].
Proof. done. Qed.

Lemma request_word_testbit request supported i s k :
  lget supported i = Some s → Z.testbit (request_word request supported i) k = true → Z.testbit s k = true.
Proof.
  intros Hs. unfold request_word. rewrite Hs. destruct (lget request i); [|by rewrite Z.bits_0].
  rewrite Z.land_spec, andb_true_iff. by intros [_ ?].
Qed.

Lemma SupportedBitmap_eq : SupportedBitmap = [hd 0 SupportedBitmap; nth 1 SupportedBitmap 0].
Proof. vm_compute. done. Qed.

Lemma returned_set request a : 0 ≤ a < 64 → IsSet (returned_words request) a = true → IsSet returnable a = true.
Proof.
  intros Ha. rewrite returned_words_eq. unfold returnable. rewrite !IsSet_two by done. destruct (a <? 32).
  - rewrite !Z.land_spec, !andb_true_iff. intros [Hs Hm]. split; [|done].
    apply (request_word_testbit _ _ _ _ _ (f_equal (λ l, lget l 0) SupportedBitmap_eq) Hs).
  - apply request_word_testbit. apply (f_equal (λ l, lget l 1) SupportedBitmap_eq).
Qed.

Section Attributes.
Context (B : Backend) (opts : NfsOptions).

Lemma encode_attr_total obj v a : 0 ≤ a < 64 → IsSet returnable a = true → is_Some (encode_attr B opts obj v a).
Proof.
  intros Ha. assert (a ∈ seqZ 0 64) as Hin by (apply elem_of_seqZ; lia). revert Hin.
  let l := eval vm_compute in (seqZ 0 64) in change (seqZ 0 64) with l. clear Ha.
  repeat (intros [->|Hin]%elem_of_cons; [intros Hs; vm_compute in Hs; first [discriminate Hs | eexists; reflexivity]|revert Hin]).
  intros H. by apply not_elem_of_nil in H.
Qed.

Lemma encode_attrs_total obj request attrs : Forall (λ a, 0 ≤ a < 64) attrs → ∀ v,
  is_Some (encode_attrs B opts obj (returned_words request) attrs v).
Proof.
  induction 1 as [|a attrs Ha _ IH]; intros v; cbn [encode_attrs]; [done|].
  destruct (IsSet _ a) eqn:E; cbn [negb]; [|by apply IH].
  destruct (encode_attr_total obj v a Ha (returned_set _ _ Ha E)) as [v' ->]. apply IH.
Qed.

(** The values of the requested attributes. *)
Definition attr_values (obj : Object) (request : list Z) : XdrWriter :=
  default [] (encode_attrs B opts obj (returned_words request) (seqZ 0 (32 * kNumBitmapWords)) []).

Lemma EncodeFattr_eq obj request w :
  EncodeFattr B opts obj request w
  = (true, w ++ bitmap_bytes (drop_zeros (returned_words request)) ++ opaque_bytes (attr_values obj request)).
Proof.
  unfold EncodeFattr, attr_values.
  destruct (encode_attrs_total obj request (seqZ 0 (32 * kNumBitmapWords))) with (v := @nil Z) as [v ->].
  { apply Forall_forall. intros a Ha%elem_of_seqZ. unfold kNumBitmapWords in Ha. lia. }
  cbn [default]. by rewrite PutOpaque_bytes, PutBitmap_bytes, <- app_assoc.
Qed.

Lemma attr_values_short obj request : 0 ≤ zlen (attr_values obj request) ≤ 4096.
Proof.
  split; [apply zlen_nonneg|]. unfold attr_values. destruct (encode_attrs _ _ _ _ _ _) as [v|] eqn:E; [|done].
  apply encode_attrs_short in E. change (zlen (seqZ 0 (32 * kNumBitmapWords))) with 64 in E.
  change (zlen (A := Z) []) with 0 in E. cbn [default]. unfold id. lia.
Qed.
End Attributes.

(** ** The bitmap that is returned *)

Lemma land_u32 x y : is_u32 y → is_u32 (Z.land x y).
Proof.
  intros [H0 H1]. assert (Z.land x y = Z.land x y mod 2 ^ 32) as ->.
  { rewrite <- Z.land_ones, <- Z.land_assoc, (Z.land_ones y) by lia. by rewrite (Z.mod_small y). }
  unfold is_u32. apply Z.mod_pos_bound. lia.
Qed.

Lemma request_word_u32 request i : 0 ≤ i < 2 → is_u32 (request_word request SupportedBitmap i).
Proof.
  intros Hi. unfold request_word. destruct (lget request i); [|done]. assert (i = 0 ∨ i = 1) as [->| ->] by lia.
  - change (lget SupportedBitmap 0) with (Some (nth 0 SupportedBitmap 0)). apply land_u32. by vm_compute.
  - change (lget SupportedBitmap 1) with (Some (nth 1 SupportedBitmap 0)). apply land_u32. by vm_compute.
Qed.

Lemma returned_words_u32 request : Forall is_u32 (returned_words request).
Proof.
  rewrite returned_words_eq. repeat apply Forall_cons_2; [|by apply request_word_u32|apply Forall_nil_2].
  rewrite Z.land_comm. apply land_u32. by apply request_word_u32.
Qed.

Lemma drop_zeros_Forall P ws : Forall P ws → Forall P (drop_zeros ws).
Proof.
  induction 1 as [|x ws Hx Hws IH]; cbn [drop_zeros]; [done|].
  destruct (drop_zeros ws); [|by constructor]. destruct (x =? 0); [done|by constructor].
Qed.

Lemma drop_zeros_zlen ws : zlen (drop_zeros ws) ≤ zlen ws.
Proof.
  induction ws as [|x ws IH]; cbn [drop_zeros]; [done|]. rewrite zlen_cons in *.
  destruct (drop_zeros ws); [destruct (x =? 0)|]; rewrite ?zlen_cons in *; change (zlen (A := Z) []) with 0 in *; lia.
Qed.

(** Words that are left out count as zero. *)
Lemma drop_zeros_word x y i :
  request_word (drop_zeros [x; y]) SupportedBitmap i = request_word [x; y] SupportedBitmap i.
Proof.
  unfold request_word. cbn [drop_zeros]. destruct (Z.eqb_spec y 0) as [->|]; [|done].
  destruct (Z.eqb_spec x 0) as [->|]; unfold lget; destruct (decide (0 ≤ i)); try done;
    destruct (Z.to_nat i) as [|[|?]]; cbn; try done; by destruct (SupportedBitmap !! _).
Qed.

Lemma land_twice x y : Z.land (Z.land x y) y = Z.land x y.
Proof. by rewrite <- Z.land_assoc, Z.land_diag. Qed.

(** Asking for what was returned returns the same. *)
Lemma returned_words_again request : returned_words (drop_zeros (returned_words request)) = returned_words request.
Proof.
  set (ws := returned_words request). rewrite (returned_words_eq (drop_zeros ws)). unfold ws.
  rewrite (returned_words_eq request), !drop_zeros_word.
  assert (∀ x y, request_word [x; y] SupportedBitmap 0 = Z.land x (hd 0 SupportedBitmap)) as H0 by done.
  assert (∀ x y, request_word [x; y] SupportedBitmap 1 = Z.land y (nth 1 SupportedBitmap 0)) as H1 by done.
  rewrite H0, H1.
  assert (∀ i, request_word request SupportedBitmap i = Z.land (default 0 (lget request i)) (default 0 (lget SupportedBitmap i))) as Hw.
  { intros i. unfold request_word. destruct (lget request i), (lget SupportedBitmap i); cbn; by rewrite ?Z.land_0_l, ?Z.land_0_r. }
  rewrite !Hw. change (default 0 (lget SupportedBitmap 0)) with (hd 0 SupportedBitmap).
  change (default 0 (lget SupportedBitmap 1)) with (nth 1 SupportedBitmap 0). rewrite land_twice. f_equal.
  rewrite <- !Z.land_assoc. f_equal.
Qed.

(** The words that are returned are among those supported. *)
Lemma masked_word request i : 0 ≤ i < 2 →
  Z.land (request_word request SupportedBitmap i) (2 ^ 32 - 1 - nth (Z.to_nat i) SupportedBitmap 0) = 0.
Proof.
  intros Hi. unfold request_word. destruct (lget request i) as [r|]; [|by rewrite Z.land_0_l].
  assert (i = 0 ∨ i = 1) as [->| ->] by lia.
  - change (lget SupportedBitmap 0) with (Some (nth 0 SupportedBitmap 0)). cbv beta iota. rewrite <- Z.land_assoc. replace (Z.land (nth _ _ _) _) with 0 by (by vm_compute). apply Z.land_0_r.
  - change (lget SupportedBitmap 1) with (Some (nth 1 SupportedBitmap 0)). cbv beta iota. rewrite <- Z.land_assoc. replace (Z.land (nth _ _ _) _) with 0 by (by vm_compute). apply Z.land_0_r.
Qed.

Lemma supported_again request : unsupported (drop_zeros (returned_words request)) SupportedBitmap = false.
Proof.
  pose proof (masked_word request 0 ltac:(lia)) as H0. pose proof (masked_word request 1 ltac:(lia)) as H1.
  rewrite returned_words_eq. set (x := Z.land (request_word request SupportedBitmap 0) _).
  assert (Z.land x (2 ^ 32 - 1 - hd 0 SupportedBitmap) = 0) as Hx.
  { unfold x. rewrite <- Z.land_assoc, (Z.land_comm (2 ^ 32 - 1 - _)), Z.land_assoc. change (hd 0 SupportedBitmap) with (nth (Z.to_nat 0) SupportedBitmap 0).
    by rewrite H0, Z.land_0_l. }
  set (y := request_word request SupportedBitmap 1) in *. cbn [drop_zeros].
  change (nth (Z.to_nat 1) SupportedBitmap 0) with (hd 0 (tl SupportedBitmap)) in H1.
  destruct (y =? 0), (x =? 0); cbn [unsupported]; by rewrite ?Hx, ?H1.
Qed.

Lemma no_rdattr_error request : IsSet (drop_zeros (returned_words request)) FATTR4_RDATTR_ERROR = false.
Proof.
  rewrite returned_words_eq. set (x := Z.land _ (2 ^ 32 - 1 - _)).
  assert (Z.testbit x 11 = false) as Hx by (unfold x; by rewrite Z.land_spec, andb_false_r).
  cbn [drop_zeros]. destruct (_ =? 0).
  - destruct (x =? 0); [done|]. by rewrite (IsSet_testbit _ _ x).
  - by rewrite (IsSet_testbit _ _ x).
Qed.

(** ** VERIFY *)

Section Verify.
Context (B : Backend) (opts : NfsOptions) (creds : Credentials).

Lemma EncodeFattr_again obj request w :
  EncodeFattr B opts obj (drop_zeros (returned_words request)) w
  = (true, w ++ bitmap_bytes (drop_zeros (returned_words request)) ++ opaque_bytes (attr_values B opts obj request)).
Proof. rewrite EncodeFattr_eq. unfold attr_values. by rewrite returned_words_again. Qed.

(** C30. GETATTR and VERIFY agree: the attributes that GETATTR returns for a file
    pass a VERIFY, and an NVERIFY with them fails with NFS4ERR_SAME, as long as
    the file does not change. *)
Theorem verify_getattr x request obj negate :
  has_fh (comp x) = true → Resolve B (frozen_attrs (srv x)) creds (cur_fh (comp x)) = inl obj →
  let '(ok, fattr) := EncodeFattr B opts obj request [] in
  ok = true ∧
  run_op (OpVerify B opts creds negate) (mkCtx (new_reader fattr) (comp x) (body x) (srv x))
  = Ret (mkCtx (reader_at fattr []) (comp x) (body x) (srv x), if negate then NFS4ERR_SAME else NFS4_OK).
Proof.
  intros Hfh Hr. rewrite EncodeFattr_eq, app_nil_l. split; [done|].
  set (ws := drop_zeros (returned_words request)). set (v := attr_values B opts obj request).
  assert (zlen ws ≤ 2) as Hws.
  { etransitivity; [apply drop_zeros_zlen|]. by rewrite returned_words_eq. }
  pose proof (attr_values_short B opts obj request) as Hv. fold v in Hv. pose proof (Pad4_range (zlen v)) as Hp.
  pose proof (zlen_nonneg ws) as Hn.
  assert (zlen (bitmap_bytes ws) = 4 + 4 * zlen ws) as Hb.
  { unfold bitmap_bytes. by rewrite zlen_app, zlen_words_bytes, zlen_u32_bytes. }
  assert (reads DecodeBitmap (bitmap_bytes ws) ws) as Rb.
  { apply DecodeBitmap_reads; [apply drop_zeros_Forall, returned_words_u32|lia]. }
  assert (reads (GetOpaque 0) (opaque_bytes v) v) as Rv by (apply GetOpaque_reads; [lia|by left]).
  assert (zlen (bitmap_bytes ws ++ opaque_bytes v) < 2 ^ 64) as Hl by (rewrite zlen_app, zlen_opaque_bytes; lia).
  assert (zlen (bitmap_bytes ws) + zlen (opaque_bytes v) < 2 ^ 64) as Hl' by (rewrite zlen_opaque_bytes; lia).
  unfold run_op, OpVerify.
  erewrite m_bind_inl by (by apply (get_new _ _ _ _ _ _ _ _ Rb)).
  erewrite m_bind_inl by (by apply (get_at_end _ _ _ _ _ _ _ _ Rv)).
  erewrite m_bind_inl by (unfold need_fh; cbn [comp]; rewrite Hfh; reflexivity).
  erewrite m_bind_inl by (unfold ws; rewrite supported_again; reflexivity).
  erewrite m_bind_inl by (unfold ws; rewrite no_rdattr_error; reflexivity).
  erewrite m_bind_inl by (unfold resolve, m_bind, get_srv, lift; cbn; rewrite Hr; reflexivity).
  unfold ws at 1. rewrite EncodeFattr_again, app_nil_l. fold ws v.
  erewrite m_bind_inl.
  2: { rewrite (reads_new _ _ _ _ Rb Hl). exec. rewrite (reads_at_end _ _ _ _ Rv Hl'). exec. reflexivity. }
  cbn [default]. unfold id, bytes_eqb. rewrite bool_decide_eq_true_2 by done. by destruct negate.
Qed.
End Verify.
