(* ===== verification/NfsReaddir.v ===== *)
(** * NFS server: reading a directory (src/cvmfs/nfs4/nfs4_server.cc)

    A client reads a directory page by page, from the cookie of the last entry
    it has seen.  It sees every entry once. *)

From stdpp Require Import base numbers list gmap.
From S2P Require Import Prelude Bytes StringUtil StdMap NfsConst Xdr FileHandle Rpc Callback NfsObject NfsServer NfsOps NfsSafe NfsAttr.

Open Scope Z_scope.
Open Scope nfs_scope.

(** ** The client *)

(** An entry of the reply: cookie and name; the attributes are skipped. *)
Definition get_dirent : getter (Z * bytes) := λ r,
  '(cookie, r) ← GetU64 r;
  match cookie with
  | None => Ret (None, r)
  | Some cookie =>
      '(name, r) ← GetString 0 r;
      match name with
      | None => Ret (None, r)
      | Some name =>
          '(bm, r) ← DecodeBitmap r;
          match bm with
          | None => Ret (None, r)
          | Some _ => '(values, r) ← GetOpaque 0 r; Ret (option_map (λ _, (cookie, name)) values, r)
          end
      end
  end.

(** The entries up to the end of the reply, and whether they are the last ones. *)
Definition dirents_then (rest : getter (list (Z * bytes) * bool)) (more : bool) : getter (list (Z * bytes) * bool) := λ r,
  if more then
    '(e, r) ← get_dirent r;
    match e with
    | None => Ret (None, r)
    | Some e => '(l, r) ← rest r; Ret (option_map (λ l, (e :: l.1, l.2)) l, r)
    end
  else '(eof, r) ← GetBool r; Ret (option_map (pair []) eof, r).
Fixpoint get_dirents (fuel : nat) : getter (list (Z * bytes) * bool) := λ r,
  match fuel with
  | O => Fail OutOfFuel
  | S fuel =>
      '(more, r) ← GetBool r;
      match more with
      | None => Ret (None, r)
      | Some more => dirents_then (get_dirents fuel) more r
      end
  end.

Definition readdir_args (cookie : Z) (verifier : bytes) (dircount maxcount : Z) (request : list Z) : bytes :=
  u64_bytes cookie ++ fixed_bytes verifier ++ u32_bytes dircount ++ u32_bytes maxcount ++ bitmap_bytes request.

Section Readdir.
Context (B : Backend) (opts : NfsOptions) (creds : Credentials).

Section Client.
(** The state of the server, the current file handle and the reply so far. *)
Context (s : Nfs) (c : Compound) (b : bytes).
Context (dircount maxcount : Z) (request : list Z).

Definition readdir_call (cookie : Z) (verifier : bytes) : outcome (bytes + Z) :=
  '(x, status) ← run_op (OpReaddir B opts creds)
                   (mkCtx (new_reader (readdir_args cookie verifier dircount maxcount request)) c b s);
  Ret (if status =? NFS4_OK then inl (drop (length b) (body x)) else inr status).

(** Reads on from [cookie] until the server reports the end. *)
Fixpoint read_dir (fuel : nat) (cookie : Z) (verifier : bytes) : outcome (option (list (Z * bytes))) :=
  match fuel with
  | O => Fail OutOfFuel
  | S fuel =>
      reply ← readdir_call cookie verifier;
      match reply with
      | inr _ => Ret None
      | inl reply =>
          '(verifier, r) ← GetFixedOpaque kNfs4VerifierSize (new_reader reply);
          '(page, r) ← get_dirents (S (length reply)) r;
          match page, verifier with
          | Some (page, true), Some _ => Ret (Some page)
          | Some (page, false), Some verifier =>
              match last page with
              | None => Ret None
              | Some e => rest ← read_dir fuel e.1 verifier; Ret (option_map (app page) rest)
              end
          | _, _ => Ret None
          end
      end
  end.
End Client.

(** ** The entries that are listed *)

Section Loop.
Context (frozen : list (Z * Attr)) (dir : Object) (request : list Z) (maxcount : Z).

Record Listed := mkListed { li_index : Z; li_name : bytes; li_entry : bytes }.

Fixpoint listed (i : Z) (es : list DirEntry) : list Listed :=
  match es with
  | [] => []
  | e :: es =>
      match readdir_entry B opts creds frozen dir request i e with
      | Some w => mkListed i (de_name e) w :: listed (i + 1) es
      | None => listed (i + 1) es
      end
  end.

Definition fits (w : bytes) (e : Listed) : bool := zlen w + zlen (li_entry e) + 8 <=? maxcount.

(** As many entries as fit. *)
Fixpoint fill (w : bytes) (l : list Listed) : list Listed :=
  match l with
  | [] => []
  | e :: l => if fits w e then e :: fill (w ++ li_entry e) l else []
  end.

Lemma readdir_loop_eq es : ∀ i n w, 0 ≤ n →
  readdir_loop B opts creds frozen dir request maxcount es i n w
  = let page := fill w (listed i es) in
    let w' := w ++ concat (li_entry <$> page) in
    match drop (length page) (listed i es) with
    | [] => inl (i + zlen es, w')
    | e :: _ => if (n =? 0) && (zlen page =? 0) then inr NFS4ERR_TOOSMALL else inl (li_index e, w')
    end.
Proof.
  induction es as [|e es IH]; intros i n w Hn; cbn [readdir_loop listed].
  { cbn. by rewrite app_nil_r, Z.add_0_r. }
  destruct (readdir_entry _ _ _ _ _ _ _ _) as [en|]; [|rewrite IH by done; by rewrite zlen_cons, <- Z.add_assoc, (Z.add_comm 1)].
  cbn [fill]. unfold fits. cbn [li_entry].
  replace (zlen w + zlen en + (kNfs4VerifierSize + 4 + 4) - kNfs4VerifierSize >? maxcount)
    with (negb (zlen w + zlen en + 8 <=? maxcount)) by (unfold kNfs4VerifierSize; lia).
  destruct (_ <=? maxcount); cbn [negb].
  - rewrite IH by lia. cbn zeta. cbn [length drop]. rewrite fmap_cons. cbn [concat li_entry]. unfold PutRaw.
    rewrite zlen_cons, <- !app_assoc.
    destruct (drop _ _); [by rewrite <- Z.add_assoc, (Z.add_comm 1)|].
    rewrite zlen_cons. pose proof (zlen_nonneg (fill (w ++ en) (listed (i + 1) es))).
    destruct (Z.eqb_spec (n + 1) 0); [lia|]. cbn [andb].
    by destruct (Z.eqb_spec (1 + zlen (fill (w ++ en) (listed (i + 1) es))) 0); [lia|]; rewrite andb_false_r.
  - cbn [length drop]. cbn. rewrite andb_true_r, app_nil_r. done.
Qed.

Lemma fill_prefix w l : l = fill w l ++ drop (length (fill w l)) l.
Proof.
  revert w. induction l as [|e l IH]; intros w; cbn [fill]; [done|]. destruct (fits w e); [|done].
  cbn [length drop app]. f_equal. apply IH.
Qed.

Lemma fill_fits w l : 0 ≤ maxcount → zlen w ≤ maxcount → zlen (w ++ concat (li_entry <$> fill w l)) ≤ maxcount.
Proof.
  intros Hm. revert w. induction l as [|e l IH]; intros w Hw; cbn [fill]; [cbn; by rewrite app_nil_r|].
  destruct (fits w e) eqn:E; [|cbn; by rewrite app_nil_r].
  rewrite fmap_cons. cbn [concat]. rewrite app_assoc. apply IH. unfold fits in E. rewrite zlen_app. lia.
Qed.

Lemma fill_zlen w l : 0 ≤ maxcount → zlen (concat (li_entry <$> fill w l)) ≤ maxcount.
Proof.
  intros Hm. destruct (Z.le_gt_cases (zlen w) maxcount) as [Hw|Hw].
  - pose proof (fill_fits w l Hm Hw) as H. rewrite zlen_app in H. pose proof (zlen_nonneg w). lia.
  - destruct l as [|e l]; [done|]. cbn [fill]. unfold fits. pose proof (zlen_nonneg (li_entry e)).
    destruct (Z.leb_spec (zlen w + zlen (li_entry e) + 8) maxcount); [lia|done].
Qed.

Lemma fill_nonempty w e l : fits w e = true → fill w (e :: l) ≠ [].
Proof. intros H. cbn [fill]. by rewrite H. Qed.

(** Going on after entry [e] lists the rest. *)
Lemma listed_after es : ∀ i p e rest, listed i es = p ++ e :: rest →
  i ≤ li_index e < i + zlen es ∧ listed (li_index e + 1) (drop (Z.to_nat (li_index e + 1 - i)) es) = rest.
Proof.
  induction es as [|d es IH]; intros i p e rest; cbn [listed]; [by destruct p|].
  rewrite zlen_cons. pose proof (zlen_nonneg es).
  assert (∀ j, i + 1 ≤ j → drop (Z.to_nat (j + 1 - i)) (d :: es) = drop (Z.to_nat (j + 1 - (i + 1))) es) as Hd.
  { intros j Hj. replace (Z.to_nat (j + 1 - i)) with (S (Z.to_nat (j + 1 - (i + 1)))) by lia. done. }
  destruct (readdir_entry _ _ _ _ _ _ _ _) as [en|].
  - destruct p as [|e' p]; cbn [app]; intros [= <- Hl].
    + cbn [li_index]. split; [lia|]. replace (Z.to_nat (i + 1 - i)) with 1%nat by lia. done.
    + apply IH in Hl as [Hi Hl]. split; [lia|]. by rewrite Hd by lia.
  - intros Hl. apply IH in Hl as [Hi Hl]. split; [lia|]. by rewrite Hd by lia.
Qed.

Lemma listed_index es i e : e ∈ listed i es → i ≤ li_index e < i + zlen es.
Proof. intros (p & rest & H)%list_elem_of_split. by apply listed_after in H as [? _]. Qed.

(** ** The form of an entry *)

Definition dirent_bytes (e : Listed) : Prop :=
  ∃ bm v, li_entry e = u32_bytes 1 ++ u64_bytes (li_index e + 3) ++ opaque_bytes (li_name e) ++ bitmap_bytes bm ++ opaque_bytes v
    ∧ Forall is_u32 bm ∧ zlen bm ≤ 8 ∧ zlen v < 2 ^ 32.

Lemma readdir_entry_bytes i e w : readdir_entry B opts creds frozen dir request i e = Some w → dirent_bytes (mkListed i (de_name e) w).
Proof.
  unfold readdir_entry. destruct (negb _); [done|].
  assert (PutString (PutU64 (PutBool [] true) (i + 3)) (de_name e)
          = u32_bytes 1 ++ u64_bytes (i + 3) ++ opaque_bytes (de_name e)) as ->.
  { unfold PutString, PutBool. rewrite PutOpaque_bytes, PutU64_bytes, PutU32_bytes. by rewrite <- app_assoc. }
  destruct (LookupChild _ _ _ _ _) as [child|st].
  - rewrite EncodeFattr_eq. cbn [snd]. intros <-%(inj Some). eexists _, _. cbn [li_entry li_index li_name]. rewrite <- !app_assoc.
    split; [done|]. split; [apply drop_zeros_Forall, returned_words_u32|]. split.
    + etransitivity; [apply drop_zeros_zlen|]. by rewrite returned_words_eq.
    + pose proof (attr_values_short B opts child request). lia.
  - destruct (IsSet _ _); [|done]. intros <-%(inj Some). rewrite PutOpaque_bytes, PutBitmap_bytes.
    eexists _, _. cbn [li_entry li_index li_name]. rewrite <- !app_assoc. split; [done|].
    split; [by repeat constructor|]. done.
Qed.

Lemma listed_bytes es i : Forall dirent_bytes (listed i es).
Proof.
  revert i. induction es as [|e es IH]; intros i; cbn [listed]; [constructor|].
  destruct (readdir_entry _ _ _ _ _ _ _ _) eqn:E; [|done]. constructor; [by apply readdir_entry_bytes in E|done].
Qed.
End Loop.

(** ** Decoding a page *)

Definition out (e : Listed) : Z * bytes := (li_index e + 3, li_name e).

Lemma get_dirent_reads cookie name bm v :
  is_u64 cookie → zlen name < 2 ^ 32 → Forall is_u32 bm → zlen bm ≤ 8 → zlen v < 2 ^ 32 →
  reads get_dirent (u64_bytes cookie ++ opaque_bytes name ++ bitmap_bytes bm ++ opaque_bytes v) (cookie, name).
Proof.
  intros Hc Hn Hbm Hlb Hv.
  apply (reads_bind GetU64 (λ cookie r, '(name, r) ← GetString 0 r;
    match name with None => Ret (None, r) | Some name => '(bm, r) ← DecodeBitmap r;
      match bm with None => Ret (None, r) | Some _ => '(values, r) ← GetOpaque 0 r; Ret (option_map (λ _, (cookie, name)) values, r) end
    end) _ _ cookie); [by apply GetU64_reads|].
  apply (reads_bind (GetString 0) (λ name r, '(bm, r) ← DecodeBitmap r;
      match bm with None => Ret (None, r) | Some _ => '(values, r) ← GetOpaque 0 r; Ret (option_map (λ _, (cookie, name)) values, r) end)
    _ _ name); [apply GetOpaque_reads; [done|by left]|].
  apply (reads_bind DecodeBitmap (λ _ r, '(values, r) ← GetOpaque 0 r; Ret (option_map (λ _, (cookie, name)) values, r)) _ _ bm);
    [by apply DecodeBitmap_reads|].
  apply (reads_map (GetOpaque 0) (λ _, (cookie, name)) _ v). apply GetOpaque_reads; [done|by left].
Qed.

Lemma get_dirents_reads l (eof : bool) : ∀ fuel, (length l < fuel)%nat →
  Forall (λ e, dirent_bytes e ∧ is_u64 (li_index e + 3) ∧ zlen (li_name e) < 2 ^ 32) l →
  reads (get_dirents fuel) (concat (li_entry <$> l) ++ u32_bytes 0 ++ u32_bytes (if eof then 1 else 0)) (out <$> l, eof).
Proof.
  induction l as [|e l IH]; intros [|fuel] Hf Hl; try (cbn in Hf; lia); cbn [get_dirents].
  - change (concat (li_entry <$> []) ++ u32_bytes 0 ++ u32_bytes (if eof then 1 else 0)) with (u32_bytes 0 ++ u32_bytes (if eof then 1 else 0)).
    apply (reads_bind GetBool (dirents_then (get_dirents fuel)) _ _ false); [apply (GetBool_reads false)|].
    apply (reads_map GetBool (pair [])). apply GetBool_reads.
  - apply Forall_cons in Hl as [((bm & v & He & Hbm & Hlb & Hv) & Hc & Hn) Hl].
    rewrite fmap_cons. cbn [concat]. rewrite He, <- !app_assoc, fmap_cons.
    apply (reads_bind GetBool (dirents_then (get_dirents fuel)) _ _ true); [apply (GetBool_reads true)|].
    replace (u64_bytes (li_index e + 3) ++ opaque_bytes (li_name e) ++ bitmap_bytes bm ++ opaque_bytes v
             ++ concat (li_entry <$> l) ++ u32_bytes 0 ++ u32_bytes (if eof then 1 else 0))
      with ((u64_bytes (li_index e + 3) ++ opaque_bytes (li_name e) ++ bitmap_bytes bm ++ opaque_bytes v)
             ++ concat (li_entry <$> l) ++ u32_bytes 0 ++ u32_bytes (if eof then 1 else 0)) by (by rewrite <- !app_assoc).
    apply (reads_bind get_dirent (λ (e : Z * bytes) r, '(l, r) ← get_dirents fuel r;
      Ret (option_map (λ l : list (Z * bytes) * bool, (e :: l.1, l.2)) l, r)) _ _ (out e)).
    + by apply get_dirent_reads.
    + exact (reads_map (get_dirents fuel) (λ l, (out e :: l.1, l.2)) _ _ (IH fuel ltac:(cbn in Hf; lia) Hl)).
Qed.

(** ** A page *)

Section Page.
Context (s : Nfs) (c : Compound) (b : bytes).
Context (dircount maxcount : Z) (request : list Z) (dir : Object) (entries : list DirEntry).
Hypothesis Hdc : is_u32 dircount.
Hypothesis Hmc : is_u32 maxcount.
Hypothesis Hrq : Forall is_u32 request ∧ zlen request ≤ 8.
Hypothesis Hfh : has_fh c = true.
Hypothesis Hdir : Resolve B (frozen_attrs s) creds (cur_fh c) = inl dir.
Hypothesis Hkind : (fh_kind (o_fh dir) =? kNamedAttr) || negb (is_type (a_mode (o_attr dir)) S_IFDIR) = false.
Hypothesis Hlist : ListChildren B dir = inl entries.

Let all i := listed (frozen_attrs s) dir request i (drop (Z.to_nat i) entries).
Let verifier := u64_bytes (Generation B).
Let start := b ++ verifier.

(** A cookie and a verifier that the client may send for index [i]. *)
Definition cookie_for (i cookie : Z) (verf : bytes) : Prop :=
  zlen verf = kNfs4VerifierSize ∧ is_u64 cookie ∧ 0 ≤ i ≤ zlen entries
  ∧ (cookie = 0 ∧ i = 0 ∨ 3 ≤ cookie ∧ i = cookie - 2 ∧ verf = verifier).

Lemma readdir_reads cookie verf :
  zlen verf = kNfs4VerifierSize → is_u64 cookie →
  ∃ r, OpReaddir B opts creds (mkCtx (new_reader (readdir_args cookie verf dircount maxcount request)) c b s)
       = readdir_page B opts creds cookie verf maxcount request (mkCtx r c b s).
Proof using Hdc Hmc Hrq.
  intros Hv Hc. destruct Hrq as [Hr1 Hr2]. pose proof (zlen_nonneg request).
  assert (zlen (fixed_bytes verf) = 8) as Hf by (rewrite zlen_fixed_bytes, Hv; done).
  assert (zlen (bitmap_bytes request) ≤ 36) as Hb by (unfold bitmap_bytes; rewrite zlen_app, zlen_words_bytes, zlen_u32_bytes; lia).
  unfold OpReaddir, readdir_args. eexists.
  erewrite m_bind_inl by (apply get_new; [by apply GetU64_reads|rewrite !zlen_app, Hf, zlen_u64_bytes, !zlen_u32_bytes; lia]).
  erewrite m_bind_inl by (apply get_at; [rewrite <- Hv; apply GetFixedOpaque_reads
    |rewrite !zlen_app, Hf, zlen_u64_bytes, !zlen_u32_bytes; lia]).
  do 2 erewrite m_bind_inl by (apply get_at; [by apply GetU32_reads|rewrite !zlen_app, Hf, zlen_u64_bytes, ?zlen_u32_bytes; lia]).
  erewrite m_bind_inl by (apply get_at_end; [by apply DecodeBitmap_reads|rewrite !zlen_app, Hf, zlen_u64_bytes, !zlen_u32_bytes; lia]).
  done.
Qed.

Lemma put_page w (f g : XdrWriter → XdrWriter) r :
  (put (λ _, w);; put f;; put g) (mkCtx r c start s) = Ret (mkCtx r c (g (f w)) s, inl tt).
Proof. done. Qed.

Lemma page_bytes w eof : drop (length b) (PutBool (PutBool (start ++ w) false) eof)
  = verifier ++ w ++ u32_bytes 0 ++ u32_bytes (if eof then 1 else 0).
Proof. unfold start, PutBool. by rewrite !PutU32_bytes, <- !app_assoc, drop_app_length. Qed.

(** The reply to READDIR: the entries that fit, or NFS4ERR_TOOSMALL if there are
    entries but not one fits. *)
Lemma readdir_call_eq i cookie verf : cookie_for i cookie verf →
  let page := fill maxcount start (all i) in
  readdir_call s c b dircount maxcount request cookie verf
  = Ret (match drop (length page) (all i) with
         | _ :: _ => if zlen page =? 0 then inr NFS4ERR_TOOSMALL
                     else inl (verifier ++ concat (li_entry <$> page) ++ u32_bytes 0 ++ u32_bytes 0)
         | [] => inl (verifier ++ concat (li_entry <$> page) ++ u32_bytes 0 ++ u32_bytes 1)
         end).
Proof using All.
  intros (Hv & Hc & Hi & Hci) page. unfold readdir_call, run_op.
  destruct (readdir_reads cookie verf Hv Hc) as [r ->]. unfold readdir_page.
  erewrite m_bind_inl by (unfold need_fh; cbn [comp]; rewrite Hfh; reflexivity).
  erewrite m_bind_inl by (unfold resolve, m_bind, get_srv, lift; cbn; rewrite Hdir; reflexivity).
  erewrite m_bind_inl by (rewrite Hkind; reflexivity). cbn zeta.
  assert ((cookie =? 1) || (cookie =? 2) = false) as -> by lia.
  assert ((cookie =? 0) || bytes_eqb verf (PutU64 [] (Generation B)) = true) as ->.
  { destruct Hci as [[-> _]|(_ & _ & ->)]; [done|]. unfold bytes_eqb. by rewrite PutU64_bytes, bool_decide_eq_true_2, orb_true_r. }
  assert ((if cookie =? 0 then 0 else cookie - 2) = i) as -> by (destruct (Z.eqb_spec cookie 0); lia).
  do 2 erewrite m_bind_inl by reflexivity. erewrite m_bind_inl by (unfold lift; rewrite Hlist; reflexivity).
  assert (i >? zlen entries = false) as -> by lia. do 4 erewrite m_bind_inl by reflexivity. cbn [body srv].
  assert (PutFixedOpaque b (PutU64 [] (Generation B)) = start) as ->.
  { rewrite PutFixedOpaque_bytes, PutU64_bytes. done. }
  rewrite readdir_loop_eq by done. cbn zeta. fold (all i). fold page.
  destruct (drop (length page) (all i)) as [|e rest] eqn:Ed.
  - rewrite put_page. exec. cbn [body]. rewrite Z.eqb_refl, page_bytes. repeat f_equal.
    assert (i + zlen (drop (Z.to_nat i) entries) >=? zlen entries = true) as ->; [|done].
    unfold zlen in *. rewrite length_drop. apply Z.geb_le. lia.
  - rewrite Z.eqb_refl. cbn [andb]. destruct (zlen page =? 0); [done|].
    rewrite put_page. exec. cbn [body]. rewrite Z.eqb_refl, page_bytes. repeat f_equal.
    assert (li_index e >=? zlen entries = false) as ->; [|done].
    assert (e ∈ all i) as He.
    { rewrite <- (take_drop (length page) (all i)), Ed. apply elem_of_app. right. apply list_elem_of_here. }
    apply listed_index in He. unfold zlen in *. rewrite length_drop in He. lia.
Qed.

(** The limit that a client sets for the reply to READDIR is compared with the
    size of the reply to the whole COMPOUND: after results of that size READDIR
    fails with NFS4ERR_TOOSMALL, however small the entries are. *)
Theorem readdir_limit_is_shared verf :
  zlen verf = kNfs4VerifierSize → listed (frozen_attrs s) dir request 0 entries ≠ [] → maxcount ≤ zlen b →
  readdir_call s c b dircount maxcount request 0 verf = Ret (inr NFS4ERR_TOOSMALL).
Proof using All.
  intros Hv Hne Hb. rewrite (readdir_call_eq 0 0 verf).
  - assert (all 0 ≠ []) as Ha by done. destruct (all 0) as [|e l]; [done|]. cbn [fill]. unfold fits.
    assert (zlen start + zlen (li_entry e) + 8 <=? maxcount = false) as ->; [|done].
    unfold start. rewrite zlen_app. change (zlen verifier) with 8. pose proof (zlen_nonneg (li_entry e)). lia.
  - split; [done|]. split; [done|]. split; [split; [done|apply zlen_nonneg]|by left].
Qed.

(** ** Page by page *)

Hypothesis Hnames : Forall (λ e, zlen (de_name e) < 2 ^ 32) entries.
Hypothesis Hcount : zlen entries < 2 ^ 63.
(** Every entry fits into a reply. *)
Hypothesis Hfit : Forall (λ e, fits maxcount start e = true) (all 0).

Lemma listed_name es i : Forall (λ e, zlen (de_name e) < 2 ^ 32) es →
  Forall (λ e, zlen (li_name e) < 2 ^ 32) (listed (frozen_attrs s) dir request i es).
Proof.
  intros Hes. revert i. induction Hes as [|e es He Hes IH]; intros i; cbn [listed]; [constructor|].
  destruct (readdir_entry _ _ _ _ _ _ _ _); [constructor; [done|apply IH]|apply IH].
Qed.

Lemma all_suffix i : 0 ≤ i ≤ zlen entries → ∃ p, all 0 = p ++ all i.
Proof.
  intros Hi. unfold all. replace (drop (Z.to_nat 0) entries) with (take (Z.to_nat i) entries ++ drop (Z.to_nat i) entries) by apply take_drop.
  assert (∀ es es' j, ∃ p, listed (frozen_attrs s) dir request j (es ++ es') = p ++ listed (frozen_attrs s) dir request (j + zlen es) es')
    as Hs.
  { induction es as [|e es IH]; intros es' j; [exists []; by rewrite Z.add_0_r|]. cbn [listed app].
    destruct (IH es' (j + 1)) as [p Hp]. rewrite zlen_cons, Z.add_assoc, Hp.
    destruct (readdir_entry _ _ _ _ _ _ _ _); [by eexists (_ :: p)|by exists p]. }
  destruct (Hs (take (Z.to_nat i) entries) (drop (Z.to_nat i) entries) 0) as [p Hp]. exists p. rewrite Hp. do 2 f_equal.
  unfold zlen in *. rewrite length_take. lia.
Qed.

Lemma page_entries i page rest : 0 ≤ i ≤ zlen entries → all i = page ++ rest →
  Forall (λ e, dirent_bytes e ∧ is_u64 (li_index e + 3) ∧ zlen (li_name e) < 2 ^ 32) page.
Proof using Hcount Hnames.
  intros Hi Hp. apply Forall_forall. intros e He. assert (e ∈ all i) as Hin by (rewrite Hp; apply elem_of_app; by left).
  split; [|split].
  - pose proof (listed_bytes (frozen_attrs s) dir request (drop (Z.to_nat i) entries) i) as H. rewrite Forall_forall in H. by apply H.
  - apply listed_index in Hin. unfold is_u64. unfold zlen in *. rewrite length_drop in Hin. lia.
  - pose proof (listed_name (drop (Z.to_nat i) entries) i ltac:(by apply Forall_drop)) as H. rewrite Forall_forall in H. by apply H.
Qed.

(** What the client makes of a page. *)
Lemma page_decoded w page (eof : bool) :
  zlen (verifier ++ w ++ u32_bytes 0 ++ u32_bytes (if eof then 1 else 0)) < 2 ^ 64 → w = concat (li_entry <$> page) →
  Forall (λ e, dirent_bytes e ∧ is_u64 (li_index e + 3) ∧ zlen (li_name e) < 2 ^ 32) page →
  let reply := verifier ++ w ++ u32_bytes 0 ++ u32_bytes (if eof then 1 else 0) in
  ∃ r r', GetFixedOpaque kNfs4VerifierSize (new_reader reply) = Ret (Some verifier, r)
    ∧ get_dirents (S (length reply)) r = Ret (Some (out <$> page, eof), r').
Proof.
  intros Hl -> Hp reply. assert (verifier = fixed_bytes verifier) as Hv by done.
  eexists _, _. split.
  - unfold reply. rewrite Hv at 1. apply (reads_new (GetFixedOpaque (zlen verifier))); [apply GetFixedOpaque_reads|]. by rewrite <- Hv.
  - apply (reads_at_end (get_dirents _)); [apply get_dirents_reads; [|done]|].
    + unfold reply. rewrite !length_app. assert (length page ≤ length (concat (li_entry <$> page)))%nat; [|lia].
      clear -Hp. induction Hp as [|e page ((bm & v & He & _) & _) _ IH]; [done|]. rewrite fmap_cons. cbn [concat length].
      rewrite length_app, He. cbn. lia.
    + rewrite <- Hv, <- zlen_app. exact Hl.
Qed.

Lemma read_dir_from n : ∀ i cookie verf, cookie_for i cookie verf → (length (all i) ≤ n)%nat →
  read_dir s c b dircount maxcount request (S n) cookie verf = Ret (Some (out <$> all i)).
Proof using All.
  induction n as [n IH] using lt_wf_ind. intros i cookie verf Hc Hn. pose proof Hc as (_ & _ & Hi & _).
  cbn [read_dir]. rewrite (readdir_call_eq i cookie verf Hc). exec. set (page := fill maxcount start (all i)).
  pose proof (fill_prefix maxcount start (all i)) as Hsplit. fold page in Hsplit.
  pose proof (page_entries i page _ Hi Hsplit) as Hp.
  assert (∀ eof : bool, zlen (verifier ++ concat (li_entry <$> page) ++ u32_bytes 0 ++ u32_bytes (if eof then 1 else 0)) < 2 ^ 64) as Hlen.
  { intros eof. pose proof (fill_zlen maxcount start (all i) ltac:(unfold is_u32 in Hmc; lia)) as H. fold page in H.
    rewrite !zlen_app, !zlen_u32_bytes. change (zlen verifier) with 8. unfold is_u32 in Hmc. lia. }
  destruct (drop (length page) (all i)) as [|e rest] eqn:Ed.
  - destruct (page_decoded _ page true (Hlen true) eq_refl Hp) as (r & r' & -> & Hg). exec. rewrite Hg. exec.
    rewrite app_nil_r in Hsplit. by rewrite Hsplit.
  - assert (page ≠ []) as Hne.
    { unfold page. destruct (all_suffix i Hi) as [p Hall]. destruct (all i) as [|e' l]; [by destruct (length page)|].
      apply fill_nonempty. rewrite Hall, Forall_app, Forall_cons in Hfit. tauto. }
    destruct (zlen page =? 0) eqn:E0; [by destruct page|].
    destruct (page_decoded _ page false (Hlen false) eq_refl Hp) as (r & r' & -> & Hg). exec. rewrite Hg. exec.
    destruct (exists_last Hne) as (page' & l & Hpage).
    assert (last (out <$> page) = Some (out l)) as -> by (rewrite Hpage, fmap_app; apply last_snoc).
    assert (all i = page' ++ l :: e :: rest) as Hall by (rewrite Hsplit, Hpage, <- app_assoc; done).
    destruct (listed_after _ _ _ _ _ _ _ _ Hall) as [Hl Hafter].
    assert (zlen (drop (Z.to_nat i) entries) = zlen entries - i) as Hzl by (unfold zlen in *; rewrite length_drop; lia).
    rewrite drop_drop in Hafter. replace (Z.to_nat i + Z.to_nat (li_index l + 1 - i))%nat with (Z.to_nat (li_index l + 1)) in Hafter by lia.
    fold (all (li_index l + 1)) in Hafter.
    destruct n as [|n']; [rewrite Hall, length_app in Hn; cbn in Hn; lia|].
    rewrite (IH n' ltac:(lia) (li_index l + 1)).
    + exec. cbn [option_map]. rewrite Hafter, <- fmap_app. by rewrite <- Hsplit.
    + split; [done|]. cbn [out fst]. unfold is_u64. split; [lia|]. split; [lia|]. right. split_and!; [lia|lia|done].
    + rewrite Hafter. rewrite Hall, length_app in Hn. cbn in Hn |- *. lia.
Qed.

End Page.
End Readdir.
