(* ===== verification/NfsState.v ===== *)
(** * NFS server: the state under concurrent operations (src/cvmfs/nfs4/nfs4_server.cc)

    The threads of the server interleave between critical sections of
    [state_lock_].  Each of those is a step; the invariant holds after any
    sequence of them, and the operations of a COMPOUND are such steps. *)

From stdpp Require Import base numbers list gmap.
From S2P Require Import Prelude Bytes StringUtil StdMap NfsConst Xdr FileHandle Rpc Callback NfsObject NfsServer NfsOps.

Open Scope Z_scope.
Open Scope nfs_scope.

(** ** Stateids *)

Definition sid (b n : Z) : bytes := PutU64 (PutU32 [] b) n.

Lemma zlen_sid b n : zlen (sid b n) = kStateidOtherSize.
Proof. done. Qed.

Lemma u32_bytes_inj a b : is_u32 a → is_u32 b → u32_bytes a = u32_bytes b → a = b.
Proof.
  intros Ha Hb He. rewrite <- (split_u32 a Ha), <- (split_u32 b Hb).
  unfold u32_bytes in He. injection He as E1 E2 E3 E4. congruence.
Qed.

Lemma sid_inj b n m : is_u64 n → is_u64 m → sid b n = sid b m → n = m.
Proof.
  intros Hn Hm He. unfold sid in He. rewrite !PutU64_bytes in He. apply app_inj_1 in He as [_ He]; [|done].
  unfold u64_bytes in He. apply app_inj_1 in He as [E1 E2]; [|done].
  apply u32_bytes_inj in E1; [|apply u32_range..]. apply u32_bytes_inj in E2; [|apply u32_range..].
  rewrite <- (split_u64 n Hn), <- (split_u64 m Hm). congruence.
Qed.

Lemma NewStateidOther_eq s :
  NewStateidOther s = (sid (boot s) (next_stateid s), set_ids s (next_clientid s) (u64 (next_stateid s + 1))).
Proof. done. Qed.

(** ** The invariant *)

Definition open_key (p : bytes * OpenState) : OwnerKey * FileHandle := (os_owner p.2, os_fh p.2).
Definition deleg_key (p : bytes * Delegation) : Z * FileHandle := (d_clientid p.2, d_fh p.2).

(** All stateids that are in use. *)
Definition all_ids (s : Nfs) : list bytes := (open_states s).*1 ++ (delegations s).*1.

Definition used_id (s : Nfs) (k : bytes) : Prop := ∃ n, 1 ≤ n < next_stateid s ∧ k = sid (boot s) n.

(** The cached reply to a CLOSE names a stateid that is not open any more. *)
Definition closed_ok (s : Nfs) (p : OwnerKey * OpenOwner) : Prop :=
  ow_last_op p.2 = OP_CLOSE →
  ∃ q k, ow_last_status p.2 = NFS4_OK ∧ ow_last_body p.2 = PutStateid (mkStateid q k) []
         ∧ used_id s k ∧ k ∉ (open_states s).*1.

Section Invariant.
Context (opts : NfsOptions).

Record nfs_inv (s : Nfs) : Prop := {
  inv_next : 1 ≤ next_stateid s < 2 ^ 64;
  inv_clients : map_ok (clients s);
  inv_owners : map_ok (owners s);
  inv_opens : map_ok (open_states s);
  inv_delegs : map_ok (delegations s);
  (** Stateids are fresh, and no two objects share one. *)
  inv_used : Forall (used_id s) (all_ids s);
  inv_distinct : NoDup (all_ids s);
  (** The limits are kept. *)
  inv_max_opens : zlen (open_states s) ≤ max_stateids opts;
  inv_max_delegs : zlen (delegations s) ≤ max_stateids opts;
  (** One open state per owner and file, one delegation per client and file. *)
  inv_one_open : NoDup (open_key <$> open_states s);
  inv_one_deleg : NoDup (deleg_key <$> delegations s);
  (** The frozen attributes are those of the recalled delegations. *)
  inv_frozen : frozen_attrs s = freeze (delegations s) [];
  inv_closed : Forall (closed_ok s) (owners s)
}.

(** ** Steps that only remove entries *)

Lemma inv_shrink s s' :
  nfs_inv s → boot s' = boot s → next_stateid s' = next_stateid s → map_ok (clients s') →
  owners s' `sublist_of` owners s →
  (open_states s').*1 `sublist_of` (open_states s).*1 → open_key <$> open_states s' `sublist_of` open_key <$> open_states s →
  (delegations s').*1 `sublist_of` (delegations s).*1 → deleg_key <$> delegations s' `sublist_of` deleg_key <$> delegations s →
  frozen_attrs s' = freeze (delegations s') [] →
  nfs_inv s'.
Proof.
  intros [H1 H2 H3 H4 H5 H6 H7 H8 H9 H10 H11 H12 H13] Hb Hn Hc Ho Hok Hoo Hdk Hdo Hf.
  assert (all_ids s' `sublist_of` all_ids s) as Hall by (by apply sublist_app).
  assert (∀ k, used_id s k → used_id s' k) as Hused by (unfold used_id; by rewrite Hb, Hn).
  split; try done.
  - by rewrite Hn.
  - eapply map_sub_ok; [|exact H3]. by apply fmap_sublist.
  - by eapply map_sub_ok.
  - by eapply map_sub_ok.
  - rewrite Forall_forall in *. intros k Hk. apply Hused, H6. by eapply elem_of_sublist.
  - by eapply sublist_NoDup.
  - apply sublist_length in Hok. rewrite !length_fmap in Hok. unfold zlen in *. lia.
  - apply sublist_length in Hdk. rewrite !length_fmap in Hdk. unfold zlen in *. lia.
  - by eapply sublist_NoDup.
  - by eapply sublist_NoDup.
  - rewrite Forall_forall in *. intros p Hp Hop. destruct (H13 p) as (q & k & ? & ? & ? & Hk); [by eapply elem_of_sublist|done|].
    exists q, k. split_and!; auto. intros Hin. apply Hk. by eapply elem_of_sublist.
Qed.

Lemma filter_sub_fmap {A A'} (f : A → A') (P : A → Prop) `{∀ x, Decision (P x)} l : f <$> filter P l `sublist_of` f <$> l.
Proof. apply fmap_sublist, sublist_filter. Qed.

Lemma DropClient_inv s id : nfs_inv s → nfs_inv (DropClient s id).
Proof.
  intros Hs. eapply inv_shrink; [exact Hs|done|done|..]; cbn;
    try apply sublist_filter; try apply filter_sub_fmap; try done.
  apply map_erase_ok, Hs.
Qed.

Lemma foldl_DropClient_inv l s : nfs_inv s → nfs_inv (foldl DropClient s l).
Proof. revert s. induction l as [|id l IH]; intros s Hs; [done|]. by apply IH, DropClient_inv. Qed.

(** Changes of the clients and of the bookkeeping around them. *)
Lemma inv_irrelevant s s' :
  nfs_inv s → boot s' = boot s → next_stateid s' = next_stateid s → owners s' = owners s →
  open_states s' = open_states s → delegations s' = delegations s → frozen_attrs s' = frozen_attrs s →
  map_ok (clients s') → nfs_inv s'.
Proof.
  intros Hs Hb Hn Ho Hos Hd Hf Hc. eapply inv_shrink; [exact Hs|done|done|done|..]; rewrite ?Ho, ?Hos, ?Hd, ?Hf; try done.
  apply Hs.
Qed.

Lemma setclientid_inv pton s now verf name pr i n a : nfs_inv s → nfs_inv (setclientid opts pton s now verf name pr i n a).2.
Proof.
  intros Hs. unfold setclientid. set (m := if default 0 _ =? 0 then _ else _).
  assert (nfs_inv m.2) as Hm.
  { unfold m. destruct (_ =? 0); [|done]. apply (inv_irrelevant s); try done. apply map_set_ok, map_filter_ok, Hs. }
  destruct m as [id s1]. cbn [snd] in Hm. cbn zeta.
  destruct (delegations_on opts); cbn [snd]; apply (inv_irrelevant s1); try done; cbn; try apply map_set_ok; apply Hm.
Qed.

Lemma setclientid_confirm_inv s id confirm : nfs_inv s → nfs_inv (setclientid_confirm opts s id confirm).2.
Proof.
  intros Hs. unfold setclientid_confirm. destruct (map_find id (clients s)) as [c|]; [|done].
  destruct (negb _); [done|]. set (s1 := if _ && _ then _ else s).
  assert (nfs_inv s1) as Hs1 by (unfold s1; destruct (_ && _); [apply (inv_irrelevant s); try done; apply Hs|done]).
  destruct (cl_confirmed c); [done|]. cbn [snd]. apply foldl_DropClient_inv, (inv_irrelevant s1); try done.
  apply map_set_ok, Hs1.
Qed.

Lemma erase_deleg_inv s k :
  nfs_inv s → nfs_inv (UpdateFrozenAttrs (set_delegations s (map_erase k (delegations s)))).
Proof.
  intros Hs. eapply inv_shrink; [exact Hs|done|done|apply Hs|done|done|done|..]; cbn; try done; apply map_erase_sub.
Qed.

Lemma map_set_nonempty {K V} `{KeyOrder K} (k : K) (v : V) m : map_set k v m ≠ [].
Proof. destruct m as [|[k1 v1] m]; [done|]. cbn [map_set]. by destruct (key_ltb k k1), (bool_decide (k1 = k)). Qed.

(** No frozen attributes means no recalled delegations. *)
Lemma freeze_nil ds fr : freeze ds fr = [] → fr = [] ∧ Forall (λ p : bytes * Delegation, d_recalled p.2 = 0) ds.
Proof.
  revert fr. induction ds as [|[k d] ds IH]; intros fr; cbn [freeze]; [by intros ->|].
  intros [Hfr Hds]%IH. destruct (Z.eqb_spec (d_recalled d) 0); cbn [negb] in Hfr; [by split; [|constructor]|].
  by apply map_set_nonempty in Hfr.
Qed.

Lemma freeze_unrecalled ds fr : Forall (λ p : bytes * Delegation, d_recalled p.2 = 0) ds → freeze ds fr = fr.
Proof.
  intros Hall. revert fr. induction Hall as [|[k d] ds Hd _ IH]; intros fr; [done|]. cbn [freeze]. cbn [snd] in Hd.
  by rewrite Hd, IH.
Qed.

Lemma delegreturn_inv s st : nfs_inv s → nfs_inv (delegreturn s st).2.
Proof.
  intros Hs. unfold delegreturn. destruct (negb _); [done|]. destruct (map_find _ _); [|done]. cbn [snd frozen_attrs set_delegations].
  destruct (zlen (frozen_attrs s) >? 0) eqn:E; [by apply erase_deleg_inv|].
  assert (frozen_attrs s = []) as H0.
  { destruct (frozen_attrs s); [done|]. rewrite zlen_cons in E. pose proof (zlen_nonneg l). lia. }
  eapply inv_shrink; [exact Hs|done|done|apply Hs|done|done|done|..]; cbn; try apply map_erase_sub.
  rewrite H0. symmetry. apply freeze_unrecalled. pose proof (inv_frozen s Hs) as Hf. rewrite H0 in Hf.
  symmetry in Hf. apply freeze_nil in Hf as [_ Hf]. by apply Forall_map_erase.
Qed.

Lemma probe_result_inv s p : nfs_inv s → nfs_inv (probe_result s p).
Proof.
  intros Hs. unfold probe_result. destruct p as [[id cb] ok]. destruct (map_find id (clients s)); [|done].
  case_bool_decide; [|done]. apply (inv_irrelevant s); try done. apply map_set_ok, Hs.
Qed.

Lemma recall_loop_sub cs now changed ds :
  let '(rest, _, _) := recall_loop opts cs now changed ds in
  rest.*1 `sublist_of` ds.*1 ∧ deleg_key <$> rest `sublist_of` deleg_key <$> ds.
Proof.
  induction ds as [|[k d] ds IH]; cbn [recall_loop]; [done|].
  destruct (recall_loop opts cs now changed ds) as [[rest files] msgs]. destruct IH as [IH1 IH2].
  destruct (_ && _); [split; by apply sublist_cons|]. destruct (_ && _).
  - destruct (match map_find _ _ with Some _ => _ | None => _ end); split; by constructor.
  - split; by constructor.
Qed.

Lemma monitor_recall_inv s probes generation now : nfs_inv s → nfs_inv (monitor_recall opts s probes generation now).2.
Proof.
  intros Hs. unfold monitor_recall.
  assert (nfs_inv (foldl probe_result s probes)) as Hp.
  { revert s Hs. induction probes as [|p probes IH]; intros s Hs; [done|]. by apply IH, probe_result_inv. }
  set (s1 := set_generation (foldl probe_result s probes) generation).
  assert (nfs_inv s1) as Hs1 by (eapply inv_irrelevant; try done; apply Hp).
  pose proof (recall_loop_sub (clients s1) now
    (negb (last_generation (foldl probe_result s probes) =? 0) && negb (generation =? last_generation (foldl probe_result s probes)))
    (delegations s1)) as Hsub.
  destruct (recall_loop _ _ _ _ _) as [[ds files] msgs]. destruct Hsub as [H1 H2].
  eapply inv_shrink; [exact Hs1|done|done|apply Hs1|done|done|done|exact H1|exact H2|done].
Qed.

Lemma monitor_failed_inv s failed : nfs_inv s → nfs_inv (monitor_failed s failed).
Proof.
  intros Hs. unfold monitor_failed.
  assert (∃ ds, foldl (λ s k, set_delegations s (map_erase k (delegations s))) s failed = set_delegations s ds
    ∧ ds.*1 `sublist_of` (delegations s).*1 ∧ deleg_key <$> ds `sublist_of` deleg_key <$> delegations s) as (ds & -> & H1 & H2).
  { clear Hs. revert s. induction failed as [|k failed IH]; intros s0; cbn [foldl].
    - exists (delegations s0). split; [by destruct s0|done].
    - destruct (IH (set_delegations s0 (map_erase k (delegations s0)))) as (ds & -> & H1 & H2).
      exists ds. split; [done|]. split; (etransitivity; [eassumption|apply map_erase_sub]). }
  eapply inv_shrink; [exact Hs|done|done|apply Hs|done|done|done|exact H1|exact H2|done].
Qed.

(** ** Steps that add or change entries *)

Lemma used_next s k c : used_id s k → next_stateid s + 1 < 2 ^ 64 → used_id (set_ids s c (next_stateid s + 1)) k.
Proof. intros (n & Hn & ->) Hs. exists n. split; [cbn; lia|done]. Qed.

Lemma fresh_sid s k : used_id s k → next_stateid s < 2 ^ 64 → k ≠ sid (boot s) (next_stateid s).
Proof. intros (n & Hn & ->) Hs E. apply sid_inj in E; unfold is_u64; lia. Qed.

Lemma fresh_not_in s l : Forall (used_id s) l → next_stateid s < 2 ^ 64 → sid (boot s) (next_stateid s) ∉ l.
Proof. intros Hl Hs Hin. rewrite Forall_forall in Hl. by apply (fresh_sid s _ (Hl _ Hin) Hs). Qed.

Lemma record_inv s owner seqid op status body :
  nfs_inv s → (op = OP_CLOSE → closed_ok s (owner, mkOwner seqid op status body)) →
  nfs_inv (RecordSeqid s owner seqid op status body).
Proof.
  intros Hs Hop. unfold RecordSeqid. destruct (negb _); [done|]. destruct Hs. split; try done.
  - by apply map_set_ok.
  - apply Forall_map_set; [done|]. intros E. by apply Hop.
Qed.

Lemma update_open_inv s k o o' :
  nfs_inv s → map_find k (open_states s) = Some o → os_owner o' = os_owner o → os_fh o' = os_fh o →
  nfs_inv (set_opens s (map_set k o' (open_states s))).
Proof.
  intros Hs Hk Ho Hf. pose proof (inv_opens s Hs) as Hok.
  eapply inv_shrink; [exact Hs|done|done|apply Hs|done|..]; cbn; try done; try apply Hs.
  - by rewrite (map_set_same fst k o' o).
  - rewrite (map_set_same open_key k o' o); try done. unfold open_key. cbn. by rewrite Ho, Hf.
Qed.

Lemma new_open_inv s o :
  nfs_inv s → next_stateid s + 1 < 2 ^ 64 → zlen (open_states s) < max_stateids opts →
  (os_owner o, os_fh o) ∉ open_key <$> open_states s →
  nfs_inv (set_opens (NewStateidOther s).2 (map_set (NewStateidOther s).1 o (open_states s))).
Proof.
  intros Hs Hn Hmax Hnew. rewrite NewStateidOther_eq, u64_small by (unfold is_u64; destruct Hs; lia). cbn [fst snd].
  destruct Hs as [H1 H2 H3 H4 H5 H6 H7 H8 H9 H10 H11 H12 H13].
  pose proof (fresh_not_in s _ H6 ltac:(lia)) as Hfresh. unfold all_ids in Hfresh. rewrite not_elem_of_app in Hfresh.
  destruct Hfresh as [Hf1 Hf2]. pose proof (map_set_fresh _ o _ H4 Hf1) as Hp.
  assert (all_ids (set_opens (set_ids s (next_clientid s) (next_stateid s + 1))
            (map_set (sid (boot s) (next_stateid s)) o (open_states s))) ≡ₚ sid (boot s) (next_stateid s) :: all_ids s) as Hids
    by (unfold all_ids; cbn; rewrite Hp, fmap_cons; by rewrite <- ?Permutation_middle).
  split; try done; cbn.
  - lia.
  - by apply map_set_ok.
  - rewrite Hids. constructor; [exists (next_stateid s); cbn; split; [lia|done]|].
    eapply Forall_impl; [exact H6|]. intros k Hk. by apply used_next.
  - rewrite Hids. constructor; [|done]. unfold all_ids. by rewrite not_elem_of_app.
  - unfold zlen in *. rewrite Hp. cbn. lia.
  - rewrite Hp. csimpl. by constructor.
  - eapply Forall_impl; [exact H13|]. intros p Hc Hop. destruct (Hc Hop) as (q & k & ? & ? & Hu & Hk).
    exists q, k. split_and!; [done|done|by apply used_next|]. cbn. rewrite Hp. csimpl. rewrite not_elem_of_cons.
    split; [apply fresh_sid; [done|lia]|done].
Qed.

Lemma new_deleg_inv s d :
  nfs_inv s → next_stateid s + 1 < 2 ^ 64 → zlen (delegations s) < max_stateids opts →
  (d_clientid d, d_fh d) ∉ deleg_key <$> delegations s → d_recalled d = 0 →
  Forall (λ p, d_recalled p.2 = 0) (delegations s) →
  nfs_inv (set_delegations (NewStateidOther s).2 (map_set (NewStateidOther s).1 d (delegations s))).
Proof.
  intros Hs Hn Hmax Hnew Hd Hall. rewrite NewStateidOther_eq, u64_small by (unfold is_u64; destruct Hs; lia). cbn [fst snd].
  destruct Hs as [H1 H2 H3 H4 H5 H6 H7 H8 H9 H10 H11 H12 H13].
  pose proof (fresh_not_in s _ H6 ltac:(lia)) as Hfresh. unfold all_ids in Hfresh. rewrite not_elem_of_app in Hfresh.
  destruct Hfresh as [Hf1 Hf2]. pose proof (map_set_fresh _ d _ H5 Hf2) as Hp.
  assert (all_ids (set_delegations (set_ids s (next_clientid s) (next_stateid s + 1))
            (map_set (sid (boot s) (next_stateid s)) d (delegations s))) ≡ₚ sid (boot s) (next_stateid s) :: all_ids s) as Hids
    by (unfold all_ids; cbn; rewrite Hp, fmap_cons; by rewrite <- ?Permutation_middle).
  split; try done; cbn.
  - lia.
  - by apply map_set_ok.
  - rewrite Hids. constructor; [exists (next_stateid s); cbn; split; [lia|done]|].
    eapply Forall_impl; [exact H6|]. intros k Hk. by apply used_next.
  - rewrite Hids. constructor; [|done]. unfold all_ids. by rewrite not_elem_of_app.
  - unfold zlen in *. rewrite Hp. cbn. lia.
  - rewrite Hp. csimpl. by constructor.
  - rewrite H12, !freeze_unrecalled; [done|by apply Forall_map_set|done].
  - eapply Forall_impl; [exact H13|]. intros p Hc Hop. destruct (Hc Hop) as (q & k & ? & ? & Hu & Hk).
    exists q, k. split_and!; [done|done|by apply used_next|done].
Qed.

(** A grant: no delegation for the client and file, none under recall. *)
Lemma may_grant_spec s id fh :
  may_grant opts s id fh = true →
  (id, fh) ∉ deleg_key <$> delegations s ∧ Forall (λ p, d_recalled p.2 = 0) (delegations s).
Proof.
  unfold may_grant. rewrite !andb_true_iff. intros [_ Hall%Is_true_true_2%forallb_True]. split.
  - rewrite list_elem_of_fmap. intros ([k d] & [= -> ->] & Hin). rewrite Forall_forall in Hall.
    specialize (Hall _ Hin). cbn in Hall. rewrite Z.eqb_refl, bool_decide_eq_true_2 in Hall by done. done.
  - eapply Forall_impl; [exact Hall|]. intros [k d]. cbn. destruct (Z.eqb_spec (d_recalled d) 0); [done|].
    by rewrite orb_true_r.
Qed.

Lemma PutDelegation_inv s id fh attr w :
  nfs_inv s → next_stateid s + 1 < 2 ^ 64 → nfs_inv (PutDelegation opts s id fh attr w).2.
Proof.
  intros Hs Hn. unfold PutDelegation.
  destruct (may_grant opts s id fh) eqn:Hg; cbn [andb negb orb]; [|done].
  apply may_grant_spec in Hg as [Hnew Hall]. case_bool_decide; cbn [negb orb].
  - eapply inv_irrelevant; try done. apply Hs.
  - destruct (zlen _ >=? _) eqn:Em; [done|].
    pose proof (new_deleg_inv s (mkDelegation id fh 1 0 attr) Hs Hn ltac:(lia) Hnew eq_refl Hall) as Hi. exact Hi.
Qed.

Lemma PutDelegation_next s id fh attr w :
  1 ≤ next_stateid s → next_stateid (PutDelegation opts s id fh attr w).2 ≤ next_stateid s + 1.
Proof.
  intros Hn. unfold PutDelegation. destruct (may_grant opts s id fh && _); cbn [negb orb].
  - cbn. lia.
  - destruct (negb _ || _); cbn; [lia|]. unfold u64. apply Z.mod_le; lia.
Qed.

Lemma find_open_none owner fh os : find_open owner fh os = None → (owner, fh) ∉ open_key <$> os.
Proof.
  induction os as [|[k o] os IH]; cbn [find_open]; [intros _; apply not_elem_of_nil|].
  destruct (bool_decide (os_owner o = owner)) eqn:E1, (bool_decide (os_fh o = fh)) eqn:E2; cbn [andb]; try done;
    intros H; csimpl; rewrite not_elem_of_cons; (split; [|by apply IH]); unfold open_key; cbn;
    apply bool_decide_eq_false in E1 || apply bool_decide_eq_false in E2; congruence.
Qed.

Lemma find_open_some owner fh os k o :
  find_open owner fh os = Some (k, o) → (k, o) ∈ os ∧ os_owner o = owner ∧ os_fh o = fh.
Proof.
  induction os as [|[k1 o1] os IH]; cbn [find_open]; [done|].
  destruct (bool_decide (os_owner o1 = owner)) eqn:E1, (bool_decide (os_fh o1 = fh)) eqn:E2; cbn [andb];
    intros H; try (destruct (IH H) as (? & ? & ?); split_and!; [by apply list_elem_of_further|done|done]).
  injection H as <- <-. apply bool_decide_eq_true in E1, E2. split_and!; [by apply list_elem_of_here|done|done].
Qed.

Lemma open_record_inv s owner seqid op status body :
  op ≠ OP_CLOSE → nfs_inv s → nfs_inv (RecordSeqid s owner seqid op status body).
Proof. intros Hop Hs. apply record_inv; [done|]. by intros ->. Qed.

(** The part of OPEN after the entry is found or made. *)
Lemma open_commit_inv s owner seqid access claim target :
  nfs_inv s → next_stateid s + 2 < 2 ^ 64 →
  let '(_, _, s') := open_commit opts s owner seqid access claim target in
  nfs_inv s' ∧ next_stateid s' ≤ next_stateid s + 2.
Proof.
  intros Hs Hn. unfold open_commit. destruct target as [t|st].
  2: { split; [by apply open_record_inv|]. unfold RecordSeqid. destruct (negb _); cbn; lia. }
  destruct (open_entry opts s owner (o_fh t)) as [[[k o] s1]|] eqn:E; [|split; [done|lia]].
  set (o' := mkOpen (u32 (os_seqid o + 1)) _ _ _).
  assert (nfs_inv (set_opens s1 (map_set k o' (open_states s1))) ∧ next_stateid s1 ≤ next_stateid s + 1) as [H1 Hn1].
  { unfold open_entry in E. destruct (find_open owner (o_fh t) (open_states s)) as [[k1 o1]|] eqn:Ef.
    - injection E as -> -> ->. apply find_open_some in Ef as (Hin & _ & _). split; [|lia].
      eapply update_open_inv; [done|by apply map_elem_find; [apply Hs|]|done|done].
    - destruct (zlen _ >=? _) eqn:Em; [done|]. injection E as <- <- <-. split.
      + apply (new_open_inv s o'); [done|lia|lia|]. cbn. by apply find_open_none.
      + cbn. rewrite u64_small; unfold is_u64; destruct Hs; lia. }
  destruct (claim =? CLAIM_NULL).
  - pose proof (PutDelegation_inv _ owner.1 (o_fh t) (o_attr t)
      (PutU32 (PutU32 (PutU64 (PutU64 (PutBool (PutStateid (mkStateid (os_seqid o') k) []) true) 0) 0)
         OPEN4_RESULT_LOCKTYPE_POSIX) 0) H1 ltac:(cbn; lia)) as Hd.
    pose proof (PutDelegation_next (set_opens s1 (map_set k o' (open_states s1))) owner.1 (o_fh t) (o_attr t)
      (PutU32 (PutU32 (PutU64 (PutU64 (PutBool (PutStateid (mkStateid (os_seqid o') k) []) true) 0) 0)
         OPEN4_RESULT_LOCKTYPE_POSIX) 0) ltac:(destruct H1; cbn in *; lia)) as Hdn.
    destruct (PutDelegation _ _ _ _ _ _) as [w s2]. cbn [snd] in *. split; [by apply open_record_inv|].
    cbn in Hdn |- *. lia.
  - split; [by apply open_record_inv|]. cbn. lia.
Qed.

Lemma FindOpenState_some s st exact o :
  FindOpenState s st exact = inl o → map_find (si_other st) (open_states s) = Some o.
Proof.
  unfold FindOpenState. destruct (negb _); [done|]. destruct (map_find _ _); [|done].
  destruct (_ >? _); [done|]. destruct (exact && _); [done|]. by intros [= ->].
Qed.

Lemma open_confirm_inv s st seqid : nfs_inv s → nfs_inv (open_confirm s st seqid).2.
Proof.
  intros Hs. unfold open_confirm. destruct (FindOpenState s st true) as [o|] eqn:Ef; [|done].
  apply FindOpenState_some in Ef. destruct (CheckSeqid _ _ _ _ _); [|done..]. apply open_record_inv; [done|].
  by eapply update_open_inv.
Qed.

Lemma open_downgrade_inv s st seqid access : nfs_inv s → nfs_inv (open_downgrade s st seqid access).2.
Proof.
  intros Hs. unfold open_downgrade. destruct (FindOpenState s st true) as [o|] eqn:Ef; [|done].
  apply FindOpenState_some in Ef. destruct (CheckSeqid _ _ _ _ _); [|done..].
  destruct (negb _); (apply open_record_inv; [done|]); [done|]. by eapply update_open_inv.
Qed.

Lemma close_file_inv s seqid st : nfs_inv s → nfs_inv (close_file s seqid st).2.
Proof.
  intros Hs. unfold close_file. destruct (FindOpenState s st true) as [o|status] eqn:Ef.
  2: { by destruct (if _ =? _ then _ else _). }
  apply FindOpenState_some in Ef. destruct (CheckSeqid _ _ _ _ _); [|done..]. apply record_inv.
  - eapply inv_shrink; [exact Hs|done|done|apply Hs|done|..]; cbn; try done; try apply map_erase_sub. apply Hs.
  - intros _ _. exists (u32 (os_seqid o + 1)), (si_other st). split_and!; try done.
    + pose proof (inv_used s Hs) as Hu. rewrite Forall_forall in Hu. apply (Hu (si_other st)).
      apply elem_of_app. left. apply list_elem_of_fmap. eexists (_, _). split; [|by apply map_find_elem]. done.
    + cbn. rewrite list_elem_of_fmap. intros (p & Hp & [_ Hne]%map_erase_elem). done.
Qed.
End Invariant.

(** ** Steps *)

Section Steps.
Context (opts : NfsOptions) (inet_pton : bytes → bool).

(** One critical section of [state_lock_] that changes the state.  The file of
    an OPEN and the results of probes and recalls come from outside of it. *)
Inductive nfs_step : Nfs → Nfs → Prop :=
| step_setclientid s now verf name pr i n a : nfs_step s (setclientid opts inet_pton s now verf name pr i n a).2
| step_setclientid_confirm s id confirm : nfs_step s (setclientid_confirm opts s id confirm).2
| step_open s owner seqid access claim target : nfs_step s (open_commit opts s owner seqid access claim target).2
| step_open_confirm s st seqid : nfs_step s (open_confirm s st seqid).2
| step_open_downgrade s st seqid access : nfs_step s (open_downgrade s st seqid access).2
| step_close s st seqid ino s' :
    (close_file s seqid st).1.2 = ino → (close_file s seqid st).2 = s' →
    nfs_step s (if negb (ino =? 0) then add_forgotten s' ino else s')
| step_delegreturn s st : nfs_step s (delegreturn s st).2
| step_probes s : nfs_step s (monitor_probes s).2
| step_recall s probes generation now : nfs_step s (monitor_recall opts s probes generation now).2
| step_failed s failed : nfs_step s (monitor_failed s failed).

Lemma foldl_DropClient_next l s : next_stateid (foldl DropClient s l) = next_stateid s.
Proof. revert s. induction l as [|id l IH]; intros s; [done|]. cbn [foldl]. by rewrite IH. Qed.

Lemma RecordSeqid_next s owner seqid op status body : next_stateid (RecordSeqid s owner seqid op status body) = next_stateid s.
Proof. unfold RecordSeqid. by destruct (negb _). Qed.

Lemma foldl_probe_next l s : next_stateid (foldl probe_result s l) = next_stateid s.
Proof.
  revert s. induction l as [|[[id cb] ok] l IH]; intros s; [done|]. cbn [foldl]. rewrite IH. unfold probe_result.
  destruct (map_find id (clients s)); [|done]. by case_bool_decide.
Qed.

Lemma foldl_erase_next l s :
  next_stateid (foldl (λ s k, set_delegations s (map_erase k (delegations s))) s l) = next_stateid s.
Proof. revert s. induction l as [|id l IH]; intros s; [done|]. cbn [foldl]. by rewrite IH. Qed.

Lemma setclientid_next s now verf name pr i n a :
  next_stateid (setclientid opts inet_pton s now verf name pr i n a).2 = next_stateid s.
Proof.
  unfold setclientid. set (m := if default 0 _ =? 0 then _ else _).
  assert (next_stateid m.2 = next_stateid s) as Hm by (unfold m; by destruct (_ =? 0)).
  destruct m as [id s1]. cbn [snd] in Hm. cbn zeta.
  destruct (delegations_on opts); done.
Qed.

Lemma setclientid_confirm_next s id confirm : next_stateid (setclientid_confirm opts s id confirm).2 = next_stateid s.
Proof.
  unfold setclientid_confirm. destruct (map_find _ _); [|done]. destruct (negb _); [done|]. destruct (cl_confirmed _).
  - by destruct (_ && _).
  - cbn [snd]. rewrite foldl_DropClient_next. by destruct (_ && _).
Qed.

(** A step uses at most two stateids and keeps the invariant. *)
Lemma step_inv s s' :
  nfs_inv opts s → next_stateid s + 2 < 2 ^ 64 → nfs_step s s' →
  nfs_inv opts s' ∧ next_stateid s' ≤ next_stateid s + 2.
Proof.
  intros Hs Hn Hstep. destruct Hstep as [s now verf name pr i n a|s id confirm|s owner seqid access claim target|s st seqid
    |s st seqid access|s st seqid ino s' Hino Hs'|s st|s|s probes generation now|s failed].
  - split; [by apply setclientid_inv|]. rewrite setclientid_next. lia.
  - split; [by apply setclientid_confirm_inv|]. rewrite setclientid_confirm_next. lia.
  - pose proof (open_commit_inv opts s owner seqid access claim target Hs Hn) as H.
    by destruct (open_commit _ _ _ _ _ _ _) as [[? ?] ?].
  - split; [by apply open_confirm_inv|]. unfold open_confirm. destruct (FindOpenState _ _ _); [|cbn; lia].
    destruct (CheckSeqid _ _ _ _ _); cbn [snd]; rewrite ?RecordSeqid_next; cbn; lia.
  - split; [by apply open_downgrade_inv|]. unfold open_downgrade. destruct (FindOpenState _ _ _); [|cbn; lia].
    destruct (CheckSeqid _ _ _ _ _); [destruct (negb _)|..]; cbn [snd]; rewrite ?RecordSeqid_next; cbn; lia.
  - pose proof (close_file_inv opts s seqid st Hs) as H. rewrite Hs' in H.
    assert (next_stateid s' = next_stateid s) as Hns.
    { subst s'. unfold close_file. destruct (FindOpenState _ _ _); [|by destruct (if _ =? _ then _ else _)].
      destruct (CheckSeqid _ _ _ _ _); cbn [snd]; by rewrite ?RecordSeqid_next. }
    destruct (negb _); (split; [|cbn; lia]); [|done]. eapply inv_irrelevant; try done. apply H.
  - split; [by apply delegreturn_inv|]. unfold delegreturn. destruct (negb _); [cbn; lia|].
    destruct (map_find _ _); [|cbn; lia]. destruct (_ >? _); cbn; lia.
  - split; [eapply inv_irrelevant; try done; apply Hs|cbn; lia].
  - split; [by apply monitor_recall_inv|]. unfold monitor_recall. destruct (recall_loop _ _ _ _ _) as [[? ?] ?].
    cbn. rewrite foldl_probe_next. lia.
  - split; [by apply monitor_failed_inv|]. unfold monitor_failed. cbn. rewrite foldl_erase_next. lia.
Qed.

Lemma new_nfs_inv now : 0 ≤ max_stateids opts → nfs_inv opts (new_nfs now).
Proof. intros H. split; try done; constructor. Qed.

(** C6. Whatever clients and the monitor thread do, in whatever order: stateids
    are never shared, the limits on open files and delegations are kept, an
    owner has one open state per file and a client one delegation per file, the
    frozen attributes are those of the recalled delegations, and the reply kept
    for a CLOSE names a stateid that is not open.  The bound is the number of
    stateids there are. *)
Theorem state_invariant now n s :
  0 ≤ max_stateids opts → nsteps nfs_step n (new_nfs now) s → 2 * Z.of_nat n + 2 < 2 ^ 64 → nfs_inv opts s.
Proof.
  intros Hmax Hsteps Hn.
  assert (∀ s0, nfs_inv opts s0 → nsteps nfs_step n s0 s → next_stateid s0 + 2 * Z.of_nat n < 2 ^ 64 → nfs_inv opts s) as Hgen.
  { clear. induction n as [|n IH]; intros s0 Hs0 Hst Hn; inversion Hst as [|? ? s1 ? H1 Hst1]; subst; [done|].
    destruct (step_inv s0 s1 Hs0 ltac:(lia) H1) as [Hs1 Hn1]. apply (IH s1); [done|done|lia]. }
  apply (Hgen (new_nfs now)); [by apply new_nfs_inv|done|cbn; lia].
Qed.

(** ** The operations are steps *)

(** [m] does not touch the state of the server. *)
Definition m_pure {A} (m : M A) : Prop := ∀ x x' r, m x = Ret (x', r) → srv x' = srv x.
(** Started in state [s], [m] makes at most one step. *)
Definition m_one {A} (s : Nfs) (m : M A) : Prop :=
  ∀ x x' r, srv x = s → m x = Ret (x', r) → srv x' = s ∨ nfs_step s (srv x').

Lemma m_bind_Ret {A A'} (m : M A) (f : A → M A') x x' r :
  m_bind m f x = Ret (x', r) →
  ∃ x1 r1, m x = Ret (x1, r1) ∧ match r1 with inl a => f a x1 = Ret (x', r) | inr st => x' = x1 ∧ r = inr st end.
Proof.
  unfold m_bind. intros ([x1 r1] & Hm & Hf)%bind_Ret. exists x1, r1. split; [done|]. destruct r1; [done|].
  by injection Hf as -> ->.
Qed.

Lemma pure_bind {A A'} (m : M A) (f : A → M A') : m_pure m → (∀ a, m_pure (f a)) → m_pure (m_bind m f).
Proof.
  intros Hm Hf x x' r (x1 & r1 & H1 & H2)%m_bind_Ret. apply Hm in H1. rewrite <- H1.
  destruct r1 as [a|st]; [by apply (Hf a) in H2|by destruct H2 as [-> _]].
Qed.

Lemma one_bind {A A'} s (m : M A) (f : A → M A') : m_pure m → (∀ a, m_one s (f a)) → m_one s (m_bind m f).
Proof.
  intros Hm Hf x x' r Hs (x1 & r1 & H1 & H2)%m_bind_Ret. apply Hm in H1.
  destruct r1 as [a|st]; [apply (Hf a) in H2; [done|congruence]|]. destruct H2 as [-> _]. left. congruence.
Qed.

Lemma one_get_srv {A} s (f : Nfs → M A) : m_one s (f s) → m_one s (m_bind get_srv f).
Proof. intros Hf x x' r <- (x1 & r1 & [= <- <-] & H2)%m_bind_Ret. by apply Hf in H2. Qed.

Lemma one_pure {A} s (m : M A) : m_pure m → m_one s m.
Proof. intros Hm x x' r <- H. left. by apply Hm in H. Qed.

Lemma one_put_srv {A} s s' (m : M A) : s' = s ∨ nfs_step s s' → m_pure m → m_one s (put_srv s';; m).
Proof.
  intros Hs' Hm x x' r <- (x1 & r1 & [= <- <-] & H2)%m_bind_Ret. apply Hm in H2. rewrite H2. done.
Qed.

Lemma pure_ret {A} (a : A) : m_pure (m_ret a).
Proof. by intros x x' r [= <- _]. Qed.
Lemma pure_return {A} st : m_pure (@return_ A st).
Proof. by intros x x' r [= <- _]. Qed.
Lemma pure_get {A} (g : getter A) err : m_pure (get g err).
Proof. intros x x' r ([o rd] & _ & [= <- _])%bind_Ret. done. Qed.
Lemma pure_get_unchecked {A} (g : getter A) d : m_pure (get_unchecked g d).
Proof. intros x x' r ([o rd] & _ & [= <- _])%bind_Ret. done. Qed.
Lemma pure_args_ok : m_pure args_ok.
Proof. by intros x x' r [= <- _]. Qed.
Lemma pure_check b st : m_pure (check b st).
Proof. unfold check. destruct b; [apply pure_ret|apply pure_return]. Qed.
Lemma pure_lift {A} (a : A + Z) : m_pure (lift a).
Proof. by intros x x' r [= <- _]. Qed.
Lemma pure_get_comp : m_pure get_comp.
Proof. by intros x x' r [= <- _]. Qed.
Lemma pure_set_fh fh : m_pure (set_fh fh).
Proof. by intros x x' r [= <- _]. Qed.
Lemma pure_set_comp c : m_pure (set_comp c).
Proof. by intros x x' r [= <- _]. Qed.
Lemma pure_need_fh : m_pure need_fh.
Proof. by intros x x' r [= <- _]. Qed.
Lemma pure_put f : m_pure (put f).
Proof. by intros x x' r [= <- _]. Qed.
Lemma pure_get_body : m_pure get_body.
Proof. by intros x x' r [= <- _]. Qed.
Lemma pure_get_srv : m_pure get_srv.
Proof. by intros x x' r [= <- _]. Qed.

(** Programs without [put_srv]. *)
Ltac pure :=
  repeat first
    [ apply pure_bind; [|intros] | apply pure_ret | apply pure_return | apply pure_get | apply pure_get_unchecked
    | apply pure_args_ok | apply pure_check | apply pure_lift | apply pure_get_comp | apply pure_set_fh
    | apply pure_set_comp | apply pure_need_fh | apply pure_put | apply pure_get_body | apply pure_get_srv
    | match goal with |- m_pure (match ?e with _ => _ end) => destruct e end ].

Section OpsPure.
Context (B : Backend) (now : Z) (creds : Credentials).

Lemma pure_resolve fh : m_pure (resolve B creds fh).
Proof. unfold resolve. pure. Qed.
Lemma pure_lookup_child dir name : m_pure (lookup_child B creds dir name).
Proof. unfold lookup_child. pure. Qed.

Ltac pure_op := pure; try apply pure_resolve; try apply pure_lookup_child; pure.

Lemma pure_open_args : m_pure open_args.
Proof. unfold open_args. pure. Qed.

Lemma pure_verify negate : m_pure (OpVerify B opts creds negate).
Proof.
  unfold OpVerify. pure_op. intros y y' ? ([? ?] & _ & ([? ?] & _ & [= <- _])%bind_Ret)%bind_Ret. done.
Qed.

Lemma pure_putfh : m_pure (OpPutfh B).
Proof. unfold OpPutfh. pure_op. intros y y' ? (? & _ & [= <- _])%bind_Ret. done. Qed.

(** Reads the arguments, enters the critical section. *)
Ltac one :=
  repeat first [ apply one_get_srv | apply one_bind; [solve [pure_op]|intros] ].

Lemma one_open s : m_one s (OpOpen B opts creds).
Proof.
  unfold OpOpen. apply one_bind; [apply pure_open_args|intros a]. one.
  destruct (open_check _ _ _) as [|st body|st]; [|apply one_pure; pure..]. one.
  destruct (open_commit _ _ _ _ _ _ _) as [[st result] s'] eqn:E. apply one_put_srv; [|pure].
  right. replace s' with ((st, result, s').2) by done. rewrite <- E. constructor.
Qed.

Lemma one_close s : m_one s OpClose.
Proof.
  unfold OpClose. one. destruct (close_file _ _ _) as [[[st result] ino] s'] eqn:E. apply one_put_srv; [|pure].
  right. eapply step_close; by rewrite E.
Qed.

Lemma one_open_confirm s : m_one s OpOpenConfirm.
Proof.
  unfold OpOpenConfirm. one. destruct (open_confirm _ _ _) as [[st result] s'] eqn:E. apply one_put_srv; [|pure].
  right. replace s' with ((st, result, s').2) by done. rewrite <- E. constructor.
Qed.

Lemma one_open_downgrade s : m_one s OpOpenDowngrade.
Proof.
  unfold OpOpenDowngrade. one. destruct (open_downgrade _ _ _ _) as [[st result] s'] eqn:E. apply one_put_srv; [|pure].
  right. replace s' with ((st, result, s').2) by done. rewrite <- E. constructor.
Qed.

Lemma one_delegreturn s : m_one s OpDelegreturn.
Proof.
  unfold OpDelegreturn. one. destruct (delegreturn _ _) as [st s'] eqn:E. apply one_put_srv; [|pure].
  right. replace s' with ((st, s').2) by done. rewrite <- E. constructor.
Qed.

Lemma one_setclientid s : m_one s (OpSetclientid opts inet_pton now).
Proof.
  unfold OpSetclientid. one. destruct (setclientid _ _ _ _ _ _ _ _ _ _) as [[id confirm] s'] eqn:E.
  apply one_put_srv; [|pure]. right. replace s' with ((id, confirm, s').2) by done. rewrite <- E. constructor.
Qed.

Lemma one_setclientid_confirm s : m_one s (OpSetclientidConfirm opts).
Proof.
  unfold OpSetclientidConfirm. one. destruct (setclientid_confirm _ _ _ _) as [st s'] eqn:E.
  apply one_put_srv; [|pure]. right. replace s' with ((st, s').2) by done. rewrite <- E. constructor.
Qed.

Lemma one_if {A} (b : bool) s (m m' : M A) : m_one s m → m_one s m' → m_one s (if b then m else m').
Proof. by destruct b. Qed.

Lemma one_op op s : m_one s (ProcessOp B opts inet_pton now creds op).
Proof.
  unfold ProcessOp.
  repeat (apply one_if; [first
    [ apply one_open | apply one_close | apply one_open_confirm | apply one_open_downgrade | apply one_delegreturn
    | apply one_setclientid | apply one_setclientid_confirm
    | apply one_pure; first [apply pure_verify | apply pure_putfh
        | unfold OpAccess, OpGetattr, OpGetfh, OpLookup, OpLookupp, OpOpenattr, OpRead, OpReaddir, readdir_page, OpReadlink, OpSecinfo,
            OpRenew, rofs; solve [pure_op] ] ]|]).
  apply one_pure. pure.
Qed.

Lemma compound_op_one x x' st : compound_op B opts inet_pton now creds x = Ret (x', st) →
  srv x' = srv x ∨ nfs_step (srv x) (srv x').
Proof.
  unfold compound_op. intros ([op r] & _ & H)%bind_Ret. destruct op as [op|]; [|injection H as <- _; by left].
  cbn in H. apply bind_Ret in H as ([x1 st1] & H1 & H). apply bind_Ret in H as (w1 & _ & H).
  apply bind_Ret in H as (w2 & _ & H). injection H as <- _. cbn.
  unfold run_op in H1. apply bind_Ret in H1 as ([x2 r2] & H1 & H2). injection H2 as <- _.
  by eapply one_op in H1.
Qed.

Lemma compound_loop_steps n : ∀ k x x' st k', compound_loop B opts inet_pton now creds n k x = Ret (x', st, k') →
  bsteps nfs_step n (srv x) (srv x').
Proof.
  induction n as [|n IH]; intros k x x' st k'; cbn [compound_loop]; [intros [= <- _ _]; apply bsteps_refl|].
  intros ([x1 st1] & H1 & H)%bind_Ret. apply compound_op_one in H1.
  assert (bsteps nfs_step n (srv x1) (srv x')) as Hn.
  { destruct st1 as [st1|]; [|injection H as <- _ _; apply bsteps_refl].
    destruct (negb _); [injection H as <- _ _; apply bsteps_refl|]. by eapply IH. }
  destruct H1 as [<-|H1]; [by apply bsteps_S|by eapply bsteps_l].
Qed.

End OpsPure.
End Steps.
