(* ===== verification/NfsReplay.v ===== *)
(** * NFS server: retransmitted operations (src/cvmfs/nfs4/nfs4_server.cc)

    An open-owner numbers its operations, and the server keeps the last reply.
    What a retransmitted OPEN, CLOSE or OPEN_CONFIRM gets. *)

From stdpp Require Import base numbers list gmap.
From S2P Require Import Prelude Bytes StringUtil StdMap NfsConst Xdr FileHandle Rpc Callback NfsObject NfsServer NfsOps NfsState.

Open Scope Z_scope.
Open Scope nfs_scope.

(** ** The reply that is kept *)

Lemma u32_next_ne q : q ≠ u32 (q + 1).
Proof. unfold u32. intros H. dlia. Qed.

Lemma check_recorded s owner seqid op status body create :
  SeqidAdvances status = true →
  CheckSeqid (RecordSeqid s owner seqid op status body) owner seqid op create = SeqidReplay status body.
Proof.
  intros Ha. unfold RecordSeqid, CheckSeqid. rewrite Ha. cbn [negb owners set_owners].
  rewrite map_find_set, bool_decide_eq_true_2 by done. cbn [ow_seqid ow_last_op ow_last_status ow_last_body].
  pose proof (u32_next_ne seqid). destruct (Z.eqb_spec seqid (u32 (seqid + 1))); [done|]. by rewrite !Z.eqb_refl.
Qed.

Lemma RecordSeqid_client s owner seqid op status body id :
  CheckClient (RecordSeqid s owner seqid op status body) id = CheckClient s id.
Proof. unfold RecordSeqid. by destruct (negb _). Qed.

Section Replay.
Context (opts : NfsOptions).

Lemma PutDelegation_client s id fh attr w id' : CheckClient (PutDelegation opts s id fh attr w).2 id' = CheckClient s id'.
Proof.
  unfold PutDelegation. destruct (may_grant opts s id fh && _); cbn [negb orb]; [done|]. by destruct (negb _ || _).
Qed.

Lemma open_entry_client s owner fh k o s' id : open_entry opts s owner fh = Some (k, o, s') → CheckClient s' id = CheckClient s id.
Proof.
  unfold open_entry. destruct (find_open _ _ _) as [[? ?]|]; [by intros [= _ _ <-]|].
  destruct (_ >=? _); [done|]. by intros [= _ _ <-].
Qed.

(** An OPEN whose status advances the seqid is recorded. *)
Lemma open_commit_recorded s owner seqid access claim target :
  let '(st, result, s') := open_commit opts s owner seqid access claim target in
  SeqidAdvances st = true →
  ∃ s1, s' = RecordSeqid s1 owner seqid OP_OPEN st result ∧ ∀ id, CheckClient s1 id = CheckClient s id.
Proof.
  unfold open_commit. destruct target as [t|st]; [|intros _; by exists s].
  destruct (open_entry opts s owner (o_fh t)) as [[[k o] s1]|] eqn:E; [|done].
  destruct (claim =? CLAIM_NULL).
  - destruct (PutDelegation _ _ _ _ _ _) as [w s2] eqn:Ed. intros _. exists s2. split; [done|]. intros id.
    replace s2 with ((w, s2).2) by done. rewrite <- Ed, PutDelegation_client. exact (open_entry_client _ _ _ _ _ _ id E).
  - intros _. eexists. split; [done|]. intros id. exact (open_entry_client _ _ _ _ _ _ id E).
Qed.


(** ** CLOSE *)

Lemma PutStateid_bytes q k : zlen k = kStateidOtherSize → PutStateid (mkStateid q k) [] = u32_bytes q ++ k.
Proof.
  intros Hk. unfold PutStateid. cbn [si_seqid si_other]. rewrite PutFixedOpaque_bytes, PutU32_bytes.
  unfold fixed_bytes. rewrite Hk. change (repeat 0 (Z.to_nat (Pad4 kStateidOtherSize))) with (@nil Z). by rewrite app_nil_r.
Qed.

Lemma stateid_other q k : zlen k = kStateidOtherSize → substr (PutStateid (mkStateid q k) []) 4 kStateidOtherSize = k.
Proof.
  intros Hk. rewrite PutStateid_bytes by done. rewrite <- Hk.
  pose proof (substr_app (u32_bytes q) k []) as H. rewrite app_nil_r in H. exact H.
Qed.

Lemma used_zlen s k : used_id s k → zlen k = kStateidOtherSize.
Proof. by intros (n & _ & ->). Qed.

(** Whom [find_close] finds. *)
Definition close_of (seqid : Z) (other : bytes) (o : OpenOwner) : Prop :=
  ow_last_op o = OP_CLOSE ∧ ow_seqid o = seqid ∧ zlen (ow_last_body o) = 4 + kStateidOtherSize
  ∧ substr (ow_last_body o) 4 kStateidOtherSize = other.

Lemma close_of_test seqid other o :
  (ow_last_op o =? OP_CLOSE) && (ow_seqid o =? seqid) && (zlen (ow_last_body o) =? 4 + kStateidOtherSize)
    && bytes_eqb (substr (ow_last_body o) 4 kStateidOtherSize) other = true ↔ close_of seqid other o.
Proof.
  unfold close_of. rewrite !andb_true_iff, !Z.eqb_eq. unfold bytes_eqb. rewrite bool_decide_eq_true. tauto.
Qed.

Lemma find_close_unique seqid other o k os :
  close_of seqid other o → (k, o) ∈ os → (∀ p, p ∈ os → close_of seqid other p.2 → p.2 = o) →
  find_close seqid other os = Some o.
Proof.
  intros Ho. induction os as [|[k1 o1] os IH]; intros Hin Hu; [by apply not_elem_of_nil in Hin|].
  cbn [find_close]. destruct (_ && _) eqn:E.
  - apply close_of_test in E. f_equal. apply (Hu (k1, o1)); [apply list_elem_of_here|done].
  - apply IH; [|intros p Hp; apply Hu; by apply list_elem_of_further].
    apply elem_of_cons in Hin as [[= -> ->]|Hin]; [|done]. apply close_of_test in Ho. congruence.
Qed.

Lemma FindOpenState_erased s st o s' :
  FindOpenState s st true = inl o → boot s' = boot s → open_states s' = map_erase (si_other st) (open_states s) →
  FindOpenState s' st true = inr NFS4ERR_BAD_STATEID.
Proof.
  unfold FindOpenState. intros H Hb Ho. rewrite Hb, Ho. destruct (negb _); [done|].
  by rewrite map_find_erase, bool_decide_eq_true_2.
Qed.

(** C15. A retransmitted CLOSE gets the reply of the first one although its stateid
    is gone, and changes nothing. *)
Theorem close_replayed s seqid st o w ino s' :
  nfs_inv opts s → FindOpenState s st true = inl o → CheckSeqid s (os_owner o) seqid OP_CLOSE false = SeqidProcess →
  close_file s seqid st = (NFS4_OK, w, ino, s') →
  close_file s' seqid st = (NFS4_OK, w, 0, s').
Proof.
  intros Hs Hf Hc Hclose. unfold close_file in Hclose. rewrite Hf, Hc in Hclose. injection Hclose as <- _ <-.
  pose proof (FindOpenState_some _ _ _ _ Hf) as Hk. apply map_find_elem in Hk.
  assert (si_other st ∈ (open_states s).*1) as Hin by (apply list_elem_of_fmap; by exists (si_other st, o)).
  pose proof (inv_used opts s Hs) as Hu. rewrite Forall_forall in Hu.
  assert (zlen (si_other st) = kStateidOtherSize) as Hlen by (eapply used_zlen, Hu, elem_of_app; by left).
  set (w := PutStateid (mkStateid (u32 (os_seqid o + 1)) (si_other st)) []).
  set (s1 := RecordSeqid _ _ _ _ _ _). unfold close_file. rewrite (FindOpenState_erased s st o s1) by done.
  rewrite Z.eqb_refl.
  rewrite (find_close_unique seqid (si_other st) (mkOwner seqid OP_CLOSE NFS4_OK w) (os_owner o)); [done|..].
  - split_and!; [done|done| |by apply stateid_other]. unfold w. cbn [ow_last_body].
    rewrite PutStateid_bytes, zlen_app, Hlen by done. done.
  - apply map_find_elem. unfold s1, RecordSeqid. cbn. by rewrite map_find_set, bool_decide_eq_true_2.
  - intros p [->|Hp]%map_set_elem (Hop & _ & _ & Hb); [done|]. exfalso.
    pose proof (inv_closed opts s Hs) as Hcl. rewrite Forall_forall in Hcl.
    destruct (Hcl p Hp Hop) as (q & k & _ & Hbody & Hused & Hnot).
    rewrite Hbody, stateid_other in Hb by (by eapply used_zlen). congruence.
Qed.

(** ** OPEN_CONFIRM and OPEN_DOWNGRADE *)

(** A retransmitted OPEN_CONFIRM does not get the reply of the first one: the
    stateid it names is looked up before the seqid is, and is an old one by then. *)
Theorem confirm_replay_lost s st seqid o :
  FindOpenState s st true = inl o → CheckSeqid s (os_owner o) seqid OP_OPEN_CONFIRM false = SeqidProcess →
  0 ≤ os_seqid o < 2 ^ 32 - 1 →
  let '(status, w, s') := open_confirm s st seqid in
  status = NFS4_OK
  ∧ CheckSeqid s' (os_owner o) seqid OP_OPEN_CONFIRM false = SeqidReplay NFS4_OK w
  ∧ open_confirm s' st seqid = (NFS4ERR_OLD_STATEID, [], s').
Proof.
  intros Hf Hc Hq. unfold open_confirm at 1. rewrite Hf, Hc. cbn [os_owner os_seqid].
  split; [done|]. split; [by apply check_recorded|].
  assert (si_seqid st = os_seqid o ∧ stateid_boot (si_other st) = boot s) as [Hst Hb].
  { unfold FindOpenState in Hf. destruct (Z.eqb_spec (stateid_boot (si_other st)) (boot s)); [|done]. cbn [negb] in Hf.
    destruct (map_find _ _) as [o1|]; [|done]. destruct (_ >? _) eqn:E1; [done|].
    cbn [andb] in Hf. destruct (_ <? _) eqn:E2; [done|]. injection Hf as ->. split; [lia|done]. }
  set (s' := RecordSeqid _ _ _ _ _ _). unfold open_confirm.
  assert (FindOpenState s' st true = inr NFS4ERR_OLD_STATEID) as ->; [|done].
  unfold FindOpenState, s', RecordSeqid. cbn. rewrite Hb, Z.eqb_refl. cbn [negb].
  rewrite map_find_set, bool_decide_eq_true_2 by done. cbn [os_seqid].
  rewrite (u32_small (os_seqid o + 1)) by (unfold is_u32; lia).
  destruct (_ >? _) eqn:E1; [lia|]. destruct (_ <? _) eqn:E2; [done|lia].
Qed.

(** ** Clients that go away *)

Lemma find_open_set owner fh k o os :
  os_owner o = owner → os_fh o = fh → find_open owner fh (map_set k o os) ≠ None.
Proof.
  intros <- <- Hn%find_open_none. apply Hn. apply list_elem_of_fmap. exists (k, o). split; [done|].
  apply map_find_elem. by rewrite map_find_set, bool_decide_eq_true_2.
Qed.

Lemma RecordSeqid_same s owner seqid op status body :
  let s' := RecordSeqid s owner seqid op status body in clients s' = clients s ∧ open_states s' = open_states s.
Proof. cbn. unfold RecordSeqid. by destruct (negb _). Qed.

Lemma PutDelegation_same s id fh attr w :
  let s' := (PutDelegation opts s id fh attr w).2 in clients s' = clients s ∧ open_states s' = open_states s.
Proof.
  cbn. unfold PutDelegation. destruct (may_grant opts s id fh && _); cbn [negb orb]; [done|]. by destruct (negb _ || _).
Qed.

(** An OPEN of a file that finds room succeeds. *)
Lemma open_commit_opens s owner seqid access claim t :
  zlen (open_states s) < max_stateids opts →
  let '(st, _, s') := open_commit opts s owner seqid access claim (inl t) in
  st = NFS4_OK ∧ clients s' = clients s ∧ find_open owner (o_fh t) (open_states s') ≠ None.
Proof.
  intros Hmax. unfold open_commit.
  assert (∃ k o s1, open_entry opts s owner (o_fh t) = Some (k, o, s1) ∧ os_owner o = owner ∧ os_fh o = o_fh t
                    ∧ clients s1 = clients s) as (k & o & s1 & -> & Ho & Hf & Hcl).
  { unfold open_entry. destruct (find_open _ _ _) as [[k o]|] eqn:E.
    - apply find_open_some in E as (_ & ? & ?). by eexists _, _, _.
    - destruct (_ >=? _) eqn:Em; [lia|]. by eexists _, _, _. }
  destruct (claim =? CLAIM_NULL).
  - destruct (PutDelegation _ _ _ _ _ _) as [w s2] eqn:Ed. split; [done|].
    pose proof (RecordSeqid_same s2 owner seqid OP_OPEN NFS4_OK w) as [-> ->].
    replace s2 with ((w, s2).2) by done. rewrite <- Ed.
    match goal with |- context [PutDelegation ?a ?b ?c ?d ?e ?f] => pose proof (PutDelegation_same b c d e f) as [-> ->] end.
    split; [done|]. by apply find_open_set.
  - split; [done|]. match goal with |- context [RecordSeqid ?a ?b ?c ?d ?e ?f] => pose proof (RecordSeqid_same a b c d e f) as [-> ->] end.
    split; [done|]. by apply find_open_set.
Qed.

(** An OPEN that passed its checks is completed although its client is dropped
    in between: it leaves an open state of a client the server does not know. *)
Theorem open_after_drop s owner seqid access claim t :
  open_check s owner seqid = SeqidProcess →
  zlen (open_states s) < max_stateids opts →
  let '(st, _, s') := open_commit opts (DropClient s owner.1) owner seqid access claim (inl t) in
  st = NFS4_OK ∧ map_find owner.1 (clients s') = None ∧ find_open owner (o_fh t) (open_states s') ≠ None.
Proof.
  intros Hc Hmax.
  assert (zlen (open_states (DropClient s owner.1)) ≤ zlen (open_states s)) as Hle.
  { unfold zlen. cbn. apply Nat2Z.inj_le, length_filter. }
  pose proof (open_commit_opens (DropClient s owner.1) owner seqid access claim t ltac:(lia)) as H.
  destruct (open_commit _ _ _ _ _ _ _) as [[st w] s']. destruct H as (-> & Hcl & Hop). split; [done|]. split; [|done].
  rewrite Hcl. cbn. by rewrite map_find_erase, bool_decide_eq_true_2.
Qed.
End Replay.

(** ** The current file handle *)

Definition with_srv (x : Ctx) (s : Nfs) : Ctx := mkCtx (args x) (comp x) (body x) s.

(** [m] runs in the same way whatever the state of the server is. *)
Definition m_blind {A} (m : M A) : Prop := ∀ x x' r s, m x = Ret (x', r) → m (with_srv x s) = Ret (with_srv x' s, r).

Lemma blind_bind {A A'} (m : M A) (f : A → M A') : m_blind m → (∀ a, m_blind (f a)) → m_blind (m_bind m f).
Proof.
  intros Hm Hf x x' r s (x1 & r1 & H1 & H2)%m_bind_Ret. apply (Hm _ _ _ s) in H1. unfold m_bind. rewrite H1. cbn.
  destruct r1 as [a|st]; [by apply Hf|]. by destruct H2 as [-> ->].
Qed.
Lemma blind_ret {A} (a : A) : m_blind (m_ret a).
Proof. by intros x x' r s [= <- <-]. Qed.
Lemma blind_return {A} st : m_blind (@return_ A st).
Proof. by intros x x' r s [= <- <-]. Qed.
Lemma blind_get {A} (g : getter A) err : m_blind (get g err).
Proof. intros x x' r s ([o rd] & H & [= <- <-])%bind_Ret. unfold get. cbn. by rewrite H. Qed.
Lemma blind_get_unchecked {A} (g : getter A) d : m_blind (get_unchecked g d).
Proof. intros x x' r s ([o rd] & H & [= <- <-])%bind_Ret. unfold get_unchecked. cbn. by rewrite H. Qed.
Lemma blind_args_ok : m_blind args_ok.
Proof. by intros x x' r s [= <- <-]. Qed.
Lemma blind_get_comp : m_blind get_comp.
Proof. by intros x x' r s [= <- <-]. Qed.
Lemma blind_check b st : m_blind (check b st).
Proof. unfold check. destruct b; [apply blind_ret|apply blind_return]. Qed.

Lemma blind_open_args : m_blind open_args.
Proof.
  unfold open_args.
  repeat first [ apply blind_bind; [|intros] | apply blind_ret | apply blind_return | apply blind_get
    | apply blind_get_unchecked | apply blind_args_ok | apply blind_get_comp | apply blind_check
    | match goal with |- m_blind (match ?e with _ => _ end) => destruct e end ].
Qed.

(** [m] only reads arguments. *)
Definition m_reads {A} (m : M A) : Prop := ∀ x x' r, m x = Ret (x', r) → comp x' = comp x ∧ body x' = body x ∧ srv x' = srv x.

Lemma reads_args_bind {A A'} (m : M A) (f : A → M A') : m_reads m → (∀ a, m_reads (f a)) → m_reads (m_bind m f).
Proof.
  intros Hm Hf x x' r (x1 & r1 & H1 & H2)%m_bind_Ret. apply Hm in H1 as (<- & <- & <-).
  destruct r1 as [a|st]; [by apply (Hf a) in H2|by destruct H2 as [-> _]].
Qed.
Lemma reads_args_ret {A} (a : A) : m_reads (m_ret a).
Proof. by intros x x' r [= <- _]. Qed.
Lemma reads_args_return {A} st : m_reads (@return_ A st).
Proof. by intros x x' r [= <- _]. Qed.
Lemma reads_args_get {A} (g : getter A) err : m_reads (get g err).
Proof. intros x x' r ([o rd] & _ & [= <- _])%bind_Ret. done. Qed.
Lemma reads_args_get_unchecked {A} (g : getter A) d : m_reads (get_unchecked g d).
Proof. intros x x' r ([o rd] & _ & [= <- _])%bind_Ret. done. Qed.
Lemma reads_args_ok : m_reads args_ok.
Proof. by intros x x' r [= <- _]. Qed.
Lemma reads_args_comp : m_reads get_comp.
Proof. by intros x x' r [= <- _]. Qed.
Lemma reads_args_check b st : m_reads (check b st).
Proof. unfold check. destruct b; [apply reads_args_ret|apply reads_args_return]. Qed.

Lemma reads_open_args : m_reads open_args.
Proof.
  unfold open_args.
  repeat first [ apply reads_args_bind; [|intros] | apply reads_args_ret | apply reads_args_return | apply reads_args_get
    | apply reads_args_get_unchecked | apply reads_args_ok | apply reads_args_comp | apply reads_args_check
    | match goal with |- m_reads (match ?e with _ => _ end) => destruct e end ].
Qed.

Section OpenReplay.
Context (B : Backend) (opts : NfsOptions) (creds : Credentials).

(** C40. A retransmitted OPEN puts the same results into the reply, but it leaves
    the directory as the current file handle where the first one left the file:
    a GETFH or GETATTR after it in the COMPOUND is about the directory. *)
Theorem open_replay_file_handle x x1 a t :
  open_args x = Ret (x1, inl a) → has_fh (comp x) = true →
  open_check (srv x) (oa_owner a) (oa_seqid a) = SeqidProcess →
  open_target B creds (frozen_attrs (srv x)) (cur_fh (comp x)) a = inl t →
  zlen (open_states (srv x)) < max_stateids opts →
  ∃ x2 x3, OpOpen B opts creds x = Ret (x2, inl tt) ∧ cur_fh (comp x2) = o_fh t
    ∧ run_op (OpOpen B opts creds) (with_srv x (srv x2)) = Ret (x3, NFS4_OK)
    ∧ body x3 = body x2 ∧ srv x3 = srv x2 ∧ comp x3 = comp x.
Proof.
  intros Ha Hfh Hc Ht Hmax. destruct (reads_open_args _ _ _ Ha) as (Hcomp & Hbody & Hsrv).
  pose proof (open_commit_opens opts (srv x) (oa_owner a) (oa_seqid a) (oa_access a) (oa_claim a) t Hmax) as Hok.
  destruct (open_commit opts (srv x) (oa_owner a) (oa_seqid a) (oa_access a) (oa_claim a) (inl t)) as [[st w] s'] eqn:Eo.
  destruct Hok as (-> & _ & _).
  pose proof (open_commit_recorded opts (srv x) (oa_owner a) (oa_seqid a) (oa_access a) (oa_claim a) (inl t)) as Hrec.
  rewrite Eo in Hrec. destruct (Hrec eq_refl) as (s1 & Hs1 & Hcl).
  eexists (mkCtx (args x1) (mkCompound true (o_fh t) (has_saved (comp x1)) (saved_fh (comp x1))) (PutRaw (body x1) w) s').
  eexists (mkCtx (args x1) (comp x1) (PutRaw (body x1) w) s'). split_and!.
  - unfold OpOpen, m_bind at 1. rewrite Ha. cbn. unfold m_bind at 1, need_fh. rewrite Hcomp, Hfh. cbn.
    rewrite Hsrv, Hc. unfold m_bind, get_srv. cbn. rewrite Hsrv, Ht, Eo. cbn. by rewrite Hcomp.
  - done.
  - cbn [srv]. apply (blind_open_args _ _ _ s') in Ha. unfold run_op, OpOpen, m_bind at 1. rewrite Ha. cbn.
    unfold m_bind at 1, need_fh. cbn. rewrite Hcomp, Hfh. cbn.
    assert (open_check s' (oa_owner a) (oa_seqid a) = SeqidReplay NFS4_OK w) as Hr; [|rewrite Hr; cbn; by rewrite Hcomp].
    unfold open_check in *. rewrite Hs1, RecordSeqid_client, Hcl. destruct (negb _); [done|]. by apply check_recorded.
  - done.
  - done.
  - done.
Qed.

(** An OPEN that would create a file fails with NFS4ERR_ROFS, which advances
    the seqid of the owner by the rules the server follows for other errors, but
    it is not recorded: the owner's next operation is refused. *)
Theorem open_create_unrecorded x x1 owner o :
  open_args x = Ret (x1, inr NFS4ERR_ROFS) → map_find owner (owners (srv x)) = Some o → is_u32 (ow_seqid o) →
  SeqidAdvances NFS4ERR_ROFS = true
  ∧ run_op (OpOpen B opts creds) x = Ret (x1, NFS4ERR_ROFS)
  ∧ CheckSeqid (srv x1) owner (u32 (ow_seqid o + 2)) OP_OPEN true = SeqidBad NFS4ERR_BAD_SEQID.
Proof.
  intros Ha Ho Hq. destruct (reads_open_args _ _ _ Ha) as (_ & _ & Hsrv). split; [done|]. split.
  - unfold run_op, OpOpen, m_bind at 1. by rewrite Ha.
  - unfold CheckSeqid. rewrite Hsrv, Ho.
    destruct (Z.eqb_spec (u32 (ow_seqid o + 2)) (u32 (ow_seqid o + 1))); [unfold is_u32, u32 in *; dlia|].
    destruct (Z.eqb_spec (u32 (ow_seqid o + 2)) (ow_seqid o)); [unfold is_u32, u32 in *; dlia|]. done.
Qed.
End OpenReplay.
