(* ===== verification/NfsWitness.v ===== *)
(** * NFS server: examples

    A small file system, a client that opens and closes a file in it, and the
    theorems of the NFS server applied to them. *)

From stdpp Require Import base numbers list gmap.
From S2P Require Import Prelude Bytes StringUtil StdMap NfsConst Xdr FileHandle Rpc Callback NfsObject NfsServer NfsOps NfsSafe NfsAttr NfsReaddir NfsState NfsReplay.

Open Scope Z_scope.
Open Scope nfs_scope.

Module NfsWitness.
Definition t0 : Timespec := mkTimespec 1000 0.
Definition attr (ino mode size : Z) : Attr := mkAttr ino mode 1 0 0 size 0 t0 t0 t0.
Definition root : Attr := attr 1 (S_IFDIR + 493) 4096.
Definition file_a : Attr := attr 2 (S_IFREG + 420) 3.
Definition file_b : Attr := attr 3 (S_IFREG + 420) 0.

Definition fs : Backend := mkBackend 1 77 5
  (λ ino, if ino =? 1 then inl root else if ino =? 2 then inl file_a else if ino =? 3 then inl file_b else inr ENOENT)
  (λ ino name, if ino =? 1 then if bytes_eqb name [97] then inl file_a else if bytes_eqb name [98] then inl file_b else inr ENOENT
               else inr ENOTDIR)
  (λ _, inl root) (λ _, inr EINVAL)
  (λ ino, if ino =? 1 then inl [mkDirEntry [97] 2; mkDirEntry [98] 3] else inr ENOTDIR)
  (λ ino off n, inl (if ino =? 2 then substr [10; 20; 30] off n else []))
  (mkFsStat 0 0 0 0 0 0) (λ _, inl []) (λ _ _ _, inr ENODATA).

Lemma fs_ok : backend_ok fs.
Proof.
  split; cbn; try done.
  - intros ino l. destruct (ino =? 1); [|done]. intros [= <-]. repeat constructor; done.
  - intros ino off n d [= <-]. destruct (ino =? 2); [|apply nil_ok]. apply Forall_take, Forall_drop. repeat constructor; done.
  - intros ino l [= <-]. constructor.
Qed.

Definition opts : NfsOptions := mkNfsOptions 90 1024 16 4 0 0 true.
Definition no_pton (_ : bytes) : bool := false.
Definition user : Credentials := mkCreds 0 0 [].

(** A confirmed client. *)
Definition s0 : Nfs := new_nfs 100.
Definition verf : bytes := repeat 7 8.
Definition s1 : Nfs := (setclientid opts no_pton s0 5 verf [99] 1 1 [] []).2.
Definition id1 : Z := (setclientid opts no_pton s0 5 verf [99] 1 1 [] []).1.1.
Definition confirm1 : bytes := (setclientid opts no_pton s0 5 verf [99] 1 1 [] []).1.2.
Definition s2 : Nfs := (setclientid_confirm opts s1 id1 confirm1).2.

(** It opens file a. *)
Definition owner1 : OwnerKey := (id1, [111]).
Definition fh_root : FileHandle := mkFileHandle kObject 77 1 0.
Definition obj_a : Object := mkObject (mkFileHandle kObject 77 2 0) file_a [].
Definition open1 : Z * bytes * Nfs := open_commit opts s2 owner1 1 OPEN4_SHARE_ACCESS_READ CLAIM_NULL (inl obj_a).
Definition s3 : Nfs := open1.2.
Definition stateid1 : Stateid := mkStateid 1 (sid 100 1).

Lemma s2_steps : nsteps (nfs_step opts no_pton) 2 s0 s2.
Proof. eapply nsteps_l; [apply step_setclientid|]. apply nsteps_once. apply step_setclientid_confirm. Qed.

Lemma s3_steps : nsteps (nfs_step opts no_pton) 3 s0 s3.
Proof. eapply nsteps_r; [apply s2_steps|]. apply step_open. Qed.

Lemma state_invariant_witness : nfs_inv opts s3 ∧ zlen (open_states s3) = 1.
Proof.
  split; [|by vm_compute]. apply (state_invariant opts no_pton 100 3); [done|apply s3_steps|done].
Defined.


Definition closed1 : Z * bytes * Z * Nfs := close_file s3 2 stateid1.

Lemma close_replayed_witness : close_file closed1.2 2 stateid1 = (NFS4_OK, closed1.1.1.2, 0, closed1.2).
Proof.
  apply (close_replayed opts s3 2 stateid1 (mkOpen 1 owner1 (o_fh obj_a) 1) closed1.1.1.2 closed1.1.2 closed1.2); try by vm_compute.
  assert (nfs_inv opts s2 ∧ next_stateid s2 ≤ 1) as [H2 Hn].
  { split; [|by vm_compute]. unfold s2, s1. apply setclientid_confirm_inv. apply setclientid_inv. by apply new_nfs_inv. }
  pose proof (open_commit_inv opts s2 owner1 1 OPEN4_SHARE_ACCESS_READ CLAIM_NULL (inl obj_a) H2 ltac:(lia)) as H.
  unfold s3, open1. destruct (open_commit _ _ _ _ _ _ _) as [[? ?] ?]. apply H.
Defined.

Lemma confirm_replay_lost_witness :
  (open_confirm (open_confirm s3 stateid1 2).2 stateid1 2).1.1 = NFS4ERR_OLD_STATEID.
Proof.
  pose proof (confirm_replay_lost s3 stateid1 2 (mkOpen 1 owner1 (o_fh obj_a) 1)
    ltac:(by vm_compute) ltac:(by vm_compute) ltac:(done)) as H.
  destruct (open_confirm s3 stateid1 2) as [[st w] s']. destruct H as (_ & _ & H). cbn [snd]. by rewrite H.
Defined.

Lemma open_after_drop_witness :
  let s' := (open_commit opts (DropClient s2 id1) owner1 1 1 CLAIM_NULL (inl obj_a)).2 in
  map_find id1 (clients s') = None ∧ find_open owner1 (o_fh obj_a) (open_states s') ≠ None.
Proof.
  pose proof (open_after_drop opts s2 owner1 1 1 CLAIM_NULL obj_a ltac:(by vm_compute) ltac:(by vm_compute)) as H.
  cbn zeta. change (owner1.1) with id1 in H.
  destruct (open_commit opts (DropClient s2 id1) owner1 1 1 CLAIM_NULL (inl obj_a)) as [[? ?] s']. by destruct H as (_ & ? & ?).
Defined.

(** The same OPEN as a client sends it. *)
Definition open_bytes (open_type : Z) : bytes :=
  u32_bytes 1 ++ u32_bytes 1 ++ u32_bytes 0 ++ u64_bytes id1 ++ opaque_bytes [111] ++ u32_bytes open_type
  ++ u32_bytes CLAIM_NULL ++ opaque_bytes [97].
Definition in_root : Compound := mkCompound true fh_root false no_fh.
Definition ctx (b : bytes) (s : Nfs) : Ctx := mkCtx (new_reader b) in_root [] s.

Lemma open_replay_file_handle_witness :
  ∃ x2 x3, OpOpen fs opts user (ctx (open_bytes 0) s2) = Ret (x2, inl tt) ∧ cur_fh (comp x2) = o_fh obj_a
    ∧ run_op (OpOpen fs opts user) (ctx (open_bytes 0) (srv x2)) = Ret (x3, NFS4_OK)
    ∧ body x3 = body x2 ∧ srv x3 = srv x2 ∧ cur_fh (comp x3) = fh_root.
Proof.
  destruct (open_replay_file_handle fs opts user (ctx (open_bytes 0) s2)
    (mkCtx (mkReader (open_bytes 0) (zlen (open_bytes 0)) true) in_root [] s2)
    (mkOpenArgs owner1 1 1 CLAIM_NULL [97]) obj_a ltac:(by vm_compute) ltac:(done) ltac:(by vm_compute) ltac:(by vm_compute)
    ltac:(by vm_compute)) as (x2 & x3 & H1 & H2 & H3 & H4 & H5 & H6).
  exists x2, x3. repeat (split; [assumption|]). by rewrite H6.
Defined.

Lemma open_create_unrecorded_witness :
  CheckSeqid s3 owner1 3 OP_OPEN true = SeqidBad NFS4ERR_BAD_SEQID.
Proof.
  pose proof (open_create_unrecorded fs opts user (ctx (open_bytes OPEN4_CREATE) s3)
    (mkCtx (mkReader (open_bytes OPEN4_CREATE) 32 true) in_root [] s3) owner1
    (mkOwner 1 OP_OPEN NFS4_OK open1.1.2) ltac:(by vm_compute) ltac:(by vm_compute) ltac:(done)) as (_ & _ & H). exact H.
Defined.

(** PUTROOTFH and GETATTR of the size. *)
Definition compound1 : bytes :=
  opaque_bytes [] ++ u32_bytes 0 ++ u32_bytes 2 ++ u32_bytes OP_PUTROOTFH
  ++ u32_bytes OP_GETATTR ++ u32_bytes 1 ++ u32_bytes 16.
Definition call1 : RpcCall := mkCall 1 kNfsProgram kNfsVersion4 kNfsProcCompound 0 user compound1.

Lemma s2_bytes : nfs_bytes s2.
Proof. split; vm_compute; repeat constructor. Qed.



Lemma verify_getattr_witness :
  ∃ fattr, EncodeFattr fs opts obj_a [16; 2] [] = (true, fattr)
    ∧ run_op (OpVerify fs opts user false) (mkCtx (new_reader fattr) (mkCompound true (o_fh obj_a) false no_fh) [] s2)
      = Ret (mkCtx (reader_at fattr []) (mkCompound true (o_fh obj_a) false no_fh) [] s2, NFS4_OK).
Proof.
  pose proof (verify_getattr fs opts user (mkCtx (new_reader []) (mkCompound true (o_fh obj_a) false no_fh) [] s2)
    [16; 2] obj_a false ltac:(done) ltac:(by vm_compute)) as H.
  destruct (EncodeFattr fs opts obj_a [16; 2] []) as [ok fattr]. destruct H as [-> H]. exists fattr. split; [done|]. exact H.
Defined.

Definition dir_root : Object := mkObject fh_root root [].
Definition dir_entries : list DirEntry := [mkDirEntry [97] 2; mkDirEntry [98] 3].

Lemma names_short : Forall (λ e, zlen (de_name e) < 2 ^ 32) dir_entries.
Proof. by repeat constructor. Qed.

Lemma request_ok : Forall is_u32 [16] ∧ zlen [16] ≤ 8.
Proof. split; [by repeat constructor|done]. Qed.


(** After 64 bytes of other results. *)
Lemma readdir_limit_is_shared_witness :
  readdir_call fs opts user s2 in_root (repeat 0 64) 100 64 [16] 0 (repeat 0 8) = Ret (inr NFS4ERR_TOOSMALL).
Proof.
  apply (readdir_limit_is_shared fs opts user s2 in_root (repeat 0 64) 100 64 [16] dir_root dir_entries ltac:(done) ltac:(done)
    request_ok ltac:(done) ltac:(by vm_compute) ltac:(by vm_compute) ltac:(by vm_compute)); by vm_compute.
Defined.
End NfsWitness.
